(* ===== verification/_CoqProject ===== *)
-Q . S2P
Prelude.v
Order.v
Bytes.v
Externals.v
Goldilocks.v
Instances.v
Poly.v
Chain.v
Conflict.v
Fork.v
Reconcile.v
Frames.v
Erasure.v
Store.v
Nmt.v
Das.v
Vdf.v
Beacon.v
Settlement.v
Tickets.v
Seals.v
Marginal.v
Rewards.v
Partition.v
Epoch.v
Gossip.v
Agreement.v
Wire.v
Tip.v
EpochCert.v
Live.v
Swarm.v
Pay.v
Finality.v
VDisk.v
VDiskRun.v
Radio.v
RadioNet.v
Placement.v
Node.v
NodeSync.v
Network.v
Text.v
Cli.v
CliArgs.v
CliRun.v
CliNode.v
CliNodeRun.v
CliSettle.v
Profile.v
ProfileRun.v
Render.v
