(* ===== verification/Prelude.v ===== *)
(** * foculus: the verification library

    foculus (src/, a Rust crate) is a consensus substrate.  Neurons append
    signals to hash chains, conflicting signals are reconciled by a
    fork choice, epochs freeze the signals' reward claims under a delay-function
    beacon and settle them by a sampled cooperative game, and blobs are kept
    available by erasure-coded, content-addressed storage that nodes sync.
    This library models those parts as executable functions with explicit
    state and proves what makes them correct.

    ** Conventions

    Unsigned integers are [N] (or [nat] for [usize] counts and indices) with
    wrap-around, saturation and overflow written out; [i64] and fixed-point
    raws are [Z]; byte arrays are [arr n], slices [list byte].  [outcome] is a
    value or a panic, [result] the source's [Result], [fault] an error that may
    also be a panic; a method on [&mut self] returns the state it leaves.
    [HashMap], [BTreeMap] and sets are [gmap] and [gset]: a sorted map is
    iterated in key order, a hash map in an order that is an argument.  The
    wall clock, the network's answers and directory listings are arguments.
    Strings of error messages are constructors.  A statement about digests has
    an explicit alternative that exhibits a collision of the hash, since
    nothing else can be said of a hash function.

    ** The files

    - Prelude, Order, Bytes, Poly: shared notions, tactics and hints; Rust's
      ordering and stable sort; fixed arrays, little-endian codecs and readers;
      polynomials over the field.
    - Externals: the interfaces of the other crates ([cyber_hemera], [nebu],
      [tru], [zheng], [tok], [tape]) as classes of operations with separate
      classes of documented laws.  Goldilocks and Instances: the concrete
      field (with the primality of its modulus) and toy instances on which the
      laws hold and the witnesses run.  VDisk, Radio and Node add three
      small interfaces of the same kind (hexadecimal digests, iroh's
      addresses, serde's JSON).
    - Chain (chain.rs), Conflict (conflict.rs), Fork (fork.rs, focus.rs),
      Reconcile (reconcile.rs): signals and per-neuron chains, the index of
      conflicting signals, the strategies [Serialize], [MinHash] and [Focus]
      as instances of one interface, and the engine that applies any of them
      in its incremental and batch timing.
    - Frames (frames.rs): tape frames of signals and intents.
    - Erasure (erasure.rs), Das (das.rs), Nmt (nmt.rs), Store (store.rs):
      Reed-Solomon coding, sampling commitments, namespaced Merkle trees, and
      the registry ([Registry], a last-writer-wins set) with the chunk store
      ([Chunks]).
    - VDisk, VDiskRun (vdisk.rs): disks of several devices over Erasure, Das
      and Store, and runs of their operations.
    - Placement, Node, NodeSync (node.rs): shards by capacity, the sync node
      with its protocol, and its guarantees against dishonest and with honest
      peers.  Network: several sync nodes, as plans of syncs of one with
      another.
    - Vdf (vdf.rs), Beacon (beacon.rs), Settlement (settlement.rs), Tickets
      (tickets.rs), Seals (step.rs, ticket_proof.rs), Marginal
      (marginal_cert.rs), Partition (partition.rs), Rewards (rewards.rs),
      Epoch (epoch.rs): the delay function, the epoch beacon, the game and its
      marginals, tickets and the fold-mining monoid, folded proofs, certified
      marginals, clusters of claims, both settlement paths and the budget, and
      the phases of an epoch.
    - Gossip (gossip.rs), Wire (wire.rs), Radio (radio_settle.rs): settlement
      messages, the in-process mesh, the wire codec and the iroh transport's
      streams and inbox.  RadioNet: several radios on a network that reorders,
      cuts and breaks the streams between them.
    - Agreement (rewards.rs, tickets.rs): several miners and coordinators that
      settle the same epoch over exchanged accumulators; [represents] relates
      an accumulator to the tickets folded into it.
    - Tip (tip.rs), EpochCert (epoch_cert.rs), Live (live.rs), Pay
      (pay_proof.rs), Finality (finality.rs, finality_evidence.rs): trusted
      tips, certificates, the full, cell and light node that composes the
      whole, pay proofs, and domain-local finality with its evidence.  Swarm: live
      nodes that close epochs and accept each other's certificates.
    - Text: the string functions of Rust's standard library.  Cli, CliArgs,
      CliRun (cli.rs): the core commands as functions from their arguments to
      their reports, the reading of the arguments, and what the reports mean.
      CliNode, CliNodeRun (cli.rs, node.rs): the node command as sessions on a
      machine, each starting a node on its data directory, and runs of
      sessions.  CliSettle (cli.rs): the settle-net command over Radio.
      Profile and ProfileRun (bin/hardware_profile.rs): the benchmark of ticket
      grinding, its arguments, workers and rows.  Render: the text that the
      core commands and the benchmark print, with its decimals and colours.

    ** What the theorems show

    - Storage: any k shards decode to the data (Erasure); k verified samples
      recover it (Das); a Merkle proof cannot omit a leaf (Nmt); replicas
      converge and the chunk store keeps its accounting (Store); a file on a
      disk survives the devices its redundancy tolerates and every later
      operation (VDiskRun); a node reads back exactly what was stored whatever
      its peers send, syncs safely with any peer and completely with an honest
      one (NodeSync); nodes that sync with each other until all have heard of
      all converge, and then each reads every file that is stored anywhere
      (Network); a file put from the command line survives any sequence
      of later sessions (CliNodeRun); shards are placed proportionally
      (Placement).
    - Ordering: chains stay gap-free and their heads commit to the whole
      history (Chain); conflicts are exactly the shared keys (Conflict); both
      timings agree and [MinHash] converges on any order of arrival
      (Reconcile); streams of frames decode to what was sent (Frames).
    - Settlement: beacons bind what they commit to (Beacon); marginals are
      efficient (Settlement); fold trees equal self folds (Tickets) and their
      seals are sound (Seals); certification is exact (Marginal); clusters are
      connected components (Partition); receipts pay exactly the budget
      (Rewards); an epoch goes through its phases only (Epoch); miners and
      coordinators that exchanged their accumulators settle alike (Agreement),
      also over a network that does with the streams what it likes (RadioNet);
      a swarm of nodes mints no more than the budgets it settled (Swarm).
    - Network and node: messages round-trip and hostile bytes cannot crash or
      inflate the decoders (Wire); delivery is at most once (Gossip, Radio),
      streams are read alike however they are cut (Radio); trust in a tip is
      always backed by a decided accumulator (Tip); certificates, pay proofs
      and finality evidence bind their fields (EpochCert, Pay, Finality);
      rewards are credited once and mature, and closing an epoch always ends
      (Live).
    - Command line: decimals, links, signals, capacities and topics are read
      exactly and names printed back (CliArgs, CliSettle); the chain, reconcile
      and conflicts commands report what the engine decides, and a printed
      settlement is sound (CliRun, CliSettle); the benchmark's arguments, the
      nonces its workers draw and the rows it prints (ProfileRun); numbers are
      printed with the nearest decimal and colours carry no text (Render).

    Each numbered claim is a theorem with its own doc comment; helper lemmas
    carry no number.  A witness applies a theorem with hypotheses to a
    concrete input on the toy instances.

    ** Fuel

    Loops that are not structural run on a fuel, and each has a theorem that
    the fuel is enough: the tape loops on the size of the fed stream, the
    Merkle tree and the fold and proof trees on their number of leaves (each
    level at least halves it), union-find on the element's own number (a parent
    is never greater), the frame loop of a stream on the bytes in its buffer
    (a frame takes four).  Running out is [Panic] or [None] and is excluded by
    the termination theorems.

    ** Not modelled

    The floating-point confidence of Das; iroh endpoints, routers and dialling
    of node.rs and radio_settle.rs; of cli.rs the splitting of the arguments by
    clap and what the two network commands print; the entry point main.rs; of
    hardware_profile.rs the power sampler's process; the re-exports of lib.rs.
    File operations succeed; two names of one file in a directory ("x" and
    "./x") are different keys. *)

From stdpp Require Export base tactics list gmap numbers option.
From stdpp Require Export strings.


(** ** Machine integers

    An unsigned machine integer is an [N] with its bound; the operations
    below write the wrap-around or the saturation out. *)

Declare Scope foculus_scope.
Delimit Scope foculus_scope with foculus.

Definition pow2 (w : N) : N := (2 ^ w)%N.
Definition u8_max : N := 255%N.
Definition u32_max : N := 4294967295%N.
Definition u64_max : N := 18446744073709551615%N.
Definition u128_max : N := 340282366920938463463374607431768211455%N.

(** [v as u64], [v as u32] on a wider unsigned value. *)
Definition as_u64 (v : N) : N := (v mod 18446744073709551616)%N.
Definition as_u32 (v : N) : N := (v mod 4294967296)%N.

(** [u64::saturating_add], [u64::saturating_sub], [u128::saturating_mul]. *)
Definition sat_add64 (a b : N) : N := N.min (a + b) u64_max.
Definition sat_sub64 (a b : N) : N := (a - b)%N.
Definition sat_mul128 (a b : N) : N := N.min (a * b) u128_max.

Definition is_u64 (v : N) : Prop := (v <= u64_max)%N.
Definition is_u32 (v : N) : Prop := (v <= u32_max)%N.
Definition is_u128 (v : N) : Prop := (v <= u128_max)%N.
Definition is_i8 (v : Z) : Prop := (-128 <= v <= 127)%Z.

(** ** Fallible computations

    [Result<A, E>] of the source; [outcome] marks the places where the
    code would panic (an [assert!], an out-of-range slice, an overflow in a
    checked build). *)

Inductive result (E A : Type) : Type :=
| Ok (a : A)
| Err (e : E).
Arguments Ok {E A} a.
Arguments Err {E A} e.

#[global] Instance result_ret E : MRet (result E) := fun A a => Ok a.
#[global] Instance result_bind E : MBind (result E) :=
  fun A B f r => match r with Ok a => f a | Err e => Err e end.
#[global] Instance result_fmap E : FMap (result E) :=
  fun A B f r => match r with Ok a => Ok (f a) | Err e => Err e end.

Definition map_err {E E' A} (f : E -> E') (r : result E A) : result E' A :=
  match r with Ok a => Ok a | Err e => Err (f e) end.
Definition ok_or {E A} (e : E) (o : option A) : result E A :=
  match o with Some a => Ok a | None => Err e end.
Definition is_ok {E A} (r : result E A) : bool :=
  match r with Ok _ => true | Err _ => false end.
Definition unwrap_or {E A} (d : A) (r : result E A) : A :=
  match r with Ok a => a | Err _ => d end.

#[global] Instance result_eq_dec {E A} `{EqDecision E, EqDecision A} :
  EqDecision (result E A).
Proof. solve_decision. Defined.

Inductive outcome (A : Type) : Type :=
| Done (a : A)
| Panic.
Arguments Done {A} a.
Arguments Panic {A}.

#[global] Instance outcome_ret : MRet outcome := fun A a => Done a.
#[global] Instance outcome_bind : MBind outcome :=
  fun A B f r => match r with Done a => f a | Panic => Panic end.

Definition assert_or_panic (b : bool) : outcome unit :=
  if b then Done tt else Panic.

#[global] Instance outcome_eq_dec {A} `{EqDecision A} : EqDecision (outcome A).
Proof. solve_decision. Defined.

(** A fallible call that may also panic: the panic is an error value no
    handler of the source catches. *)
Inductive fault (E : Type) : Type :=
| Panicked
| Failed (e : E).
Arguments Panicked {E}.
Arguments Failed {E} e.

Definition may_fail {E A} (r : result E A) : result (fault E) A := map_err Failed r.
(** [l[i]] on a slice or [Vec]. *)
Definition index_or_panic {E A} (l : list A) (i : nat) : result (fault E) A :=
  ok_or Panicked (l !! i).

(** Collecting an iterator of results: the first error wins
    ([Iterator::collect] into a [Result]). *)
Fixpoint collect {E A} (l : list (result E A)) : result E (list A) :=
  match l with
  | [] => Ok []
  | r :: l => a ← r; l' ← collect l; Ok (a :: l')
  end.

(** A [for] loop with an early return: the state is threaded and the first
    error stops the loop. *)
Fixpoint try_fold {E A S} (f : S -> A -> result E S) (l : list A) (s : S) : result E S :=
  match l with
  | [] => Ok s
  | a :: l => s' ← f s a; try_fold f l s'
  end.

(** [slice.chunks(n)]: pieces of [n] elements, the last one shorter. *)
Fixpoint chunks_fuel {A} (fuel n : nat) (l : list A) : list (list A) :=
  match fuel, l with
  | S fuel, _ :: _ => take n l :: chunks_fuel fuel n (drop n l)
  | _, _ => []
  end.
Definition chunks {A} (n : nat) (l : list A) : list (list A) := chunks_fuel (length l) n l.

(** [usize::is_power_of_two]. *)
Definition is_power_of_two (n : nat) : bool := bool_decide (0 < n) && bool_decide (n = 2 ^ Nat.log2 n).

(** ** Tactics and hints *)

(** Case analysis on every [match] and [if] scrutinee of the goal. *)
Ltac split_matches :=
  repeat (case_match; simplify_eq/=; try done).

(** Invert equations between [Ok]/[Err]/[Done] values and options. *)
Ltac inv_res :=
  repeat match goal with
  | H : Ok _ = Ok _ |- _ => inversion H; clear H; subst
  | H : Err _ = Err _ |- _ => inversion H; clear H; subst
  | H : Ok _ = Err _ |- _ => discriminate H
  | H : Err _ = Ok _ |- _ => discriminate H
  | H : Done _ = Done _ |- _ => inversion H; clear H; subst
  | H : Done _ = Panic |- _ => discriminate H
  | H : Panic = Done _ |- _ => discriminate H
  | H : Some _ = Some _ |- _ => inversion H; clear H; subst
  end; try done.

(** Peel the scrutinees of the [match]es in hypothesis [H], naming nothing. *)
Ltac cases_in H :=
  repeat (match type of H with
          | context [match ?x with _ => _ end] => destruct x eqn:?
          end; simplify_eq/=; try done).

(** Close an equation between closed terms by evaluation in the kernel. *)
Ltac by_vm :=
  lazymatch goal with
  | |- ?x = ?y => vm_cast_no_check (@eq_refl _ y)
  end.

Create HintDb foculus.
Create Rewrite HintDb foculus_rw.

(** ** Generic lemmas *)

Lemma collect_map_ok {E A B} (f : A -> result E B) l bs :
  collect (map f l) = Ok bs <-> Forall2 (fun a b => f a = Ok b) l bs.
Proof.
  revert bs; induction l as [|a l IH]; intros bs; simpl.
  { split; [intros; inv_res; constructor | inversion 1; done]. }
  split.
  - destruct (f a) eqn:Ha; simpl; [|done].
    destruct (collect (map f l)) eqn:Hl; simpl; intros; inv_res.
    constructor; [done | by apply IH].
  - inversion 1 as [|? b ? bs' Hab Hl']; subst.
    rewrite Hab; simpl. apply IH in Hl'. by rewrite Hl'.
Qed.

Lemma try_fold_app {E A S} (f : S -> A -> result E S) l1 l2 s :
  try_fold f (l1 ++ l2) s = (s' ← try_fold f l1 s; try_fold f l2 s').
Proof.
  revert s; induction l1 as [|a l1 IH]; intros s; simpl; [done|].
  destruct (f s a); simpl; auto.
Qed.

(** An invariant of every step of a [try_fold] holds of its result. *)
Lemma try_fold_invariant {E A S} (f : S -> A -> result E S) (P : S -> Prop) l s s' :
  (forall s a s', P s -> f s a = Ok s' -> P s') ->
  P s -> try_fold f l s = Ok s' -> P s'.
Proof.
  intros Hstep; revert s; induction l as [|a l IH]; intros s Hs; simpl.
  { intros; inv_res. }
  destruct (f s a) as [s1|] eqn:Hf; simpl; [|done]. intros Hrest.
  apply (IH s1); [by apply (Hstep s a) | done].
Qed.

Lemma index_or_panic_Some {E A} (l : list A) i a :
  l !! i = Some a -> index_or_panic l i = Ok a :> result (fault E) A.
Proof. unfold index_or_panic. by intros ->. Qed.

Lemma index_or_panic_None {E A} (l : list A) i :
  l !! i = None -> index_or_panic l i = Err Panicked :> result (fault E) A.
Proof. unfold index_or_panic. by intros ->. Qed.

(** [collect] fails with the error of one of its elements. *)
Lemma collect_Err {E A B} (f : A -> result E B) l e :
  collect (map f l) = Err e -> exists a, a ∈ l /\ f a = Err e.
Proof.
  induction l as [|a l IH]; simpl; [done|]. destruct (f a) as [b|e'] eqn:Ha; simpl.
  - destruct (collect (map f l)); simpl; [done|]. intros [= ->].
    destruct IH as (a' & ? & ?); [done|]. exists a'. split; [by constructor | done].
  - intros [= ->]. exists a. split; [constructor | done].
Qed.

Lemma collect_is_Ok {E A B} (f : A -> result E B) l :
  (exists bs, collect (map f l) = Ok bs) <-> forall a, a ∈ l -> exists b, f a = Ok b.
Proof.
  split.
  - intros [bs H] a Ha. apply collect_map_ok in H. apply list_elem_of_lookup in Ha as [i Hi].
    destruct (Forall2_lookup_l _ _ _ _ _ H Hi) as (b & _ & ?). eauto.
  - intros H. destruct (collect (map f l)) as [bs|e] eqn:Hc; [eauto|].
    apply collect_Err in Hc as (a & Ha & Hf). destruct (H a Ha) as [b Hb]. congruence.
Qed.

Lemma collect_ext {E A B} (f g : A -> result E B) l :
  (forall a, a ∈ l -> f a = g a) -> collect (map f l) = collect (map g l).
Proof.
  induction l as [|a l IH]; intros Hfg; simpl; [done|].
  rewrite (Hfg a) by constructor. rewrite IH; [done|].
  intros a' Ha. apply Hfg. by constructor.
Qed.

Lemma filter_none {A} (P : A -> Prop) `{!forall x, Decision (P x)} l :
  Forall (fun x => ~ P x) l -> filter P l = [].
Proof.
  induction 1 as [|x l Hx _ IH]; [done|]. rewrite filter_cons. by rewrite decide_False.
Qed.

Lemma filter_sublist {A} (P : A -> Prop) `{!forall x, Decision (P x)} (l : list A) : sublist (filter P l) l.
Proof. induction l as [|x l IH]; [done|]. rewrite filter_cons. case_decide; by constructor. Qed.
Lemma filter_complement_length {A} (P : A -> Prop) `{!forall x, Decision (P x)} (l : list A) :
  length (filter P l) + length (filter (fun x => ~ P x) l) = length l.
Proof. induction l as [|x l IH]; [done|]. rewrite !filter_cons. repeat case_decide; simpl; try done; lia. Qed.
Lemma filter_every {A} (P : A -> Prop) `{!forall x, Decision (P x)} l :
  Forall P l -> filter P l = l.
Proof.
  induction 1 as [|x l Hx _ IH]; [done|]. rewrite filter_cons. by rewrite decide_True, IH.
Qed.

(** Filtering by predicates that agree on the members. *)
Lemma filter_agree {A} (P Q : A -> Prop) `{!forall x, Decision (P x), !forall x, Decision (Q x)} (l : list A) :
  (forall x, x ∈ l -> P x <-> Q x) -> filter P l = filter Q l.
Proof.
  induction l as [|x l IH]; intros Hpq; [done|]. rewrite !filter_cons.
  rewrite IH by (intros y Hy; apply Hpq; by constructor).
  assert (P x <-> Q x) as Hx by (apply Hpq; constructor).
  destruct (decide (P x)), (decide (Q x)); tauto.
Qed.

Lemma fold_left_invariant {A S} (f : S -> A -> S) (P : S -> Prop) l s :
  (forall s a, a ∈ l -> P s -> P (f s a)) -> P s -> P (fold_left f l s).
Proof.
  revert s; induction l as [|a l IH]; intros s Hstep Hs; simpl; [done|].
  apply IH; [|apply Hstep; [constructor|done]].
  intros s' a' Ha. apply Hstep. by constructor.
Qed.

Lemma sat_add64_le a b : (sat_add64 a b <= u64_max)%N.
Proof. unfold sat_add64. lia. Qed.

Lemma sat_add64_exact a b : (a + b <= u64_max)%N -> sat_add64 a b = (a + b)%N.
Proof. unfold sat_add64. lia. Qed.

Lemma as_u64_id v : is_u64 v -> as_u64 v = v.
Proof. intros H. unfold as_u64. apply N.mod_small. unfold is_u64, u64_max in H. lia. Qed.

Lemma as_u32_id v : is_u32 v -> as_u32 v = v.
Proof. intros H. unfold as_u32. apply N.mod_small. unfold is_u32, u32_max in H. lia. Qed.

Lemma as_u64_is_u64 v : is_u64 (as_u64 v).
Proof.
  unfold is_u64, as_u64, u64_max.
  pose proof (N.mod_lt v 18446744073709551616). lia.
Qed.

Lemma is_power_of_two_spec n : is_power_of_two n = true <-> exists m, n = 2 ^ m.
Proof.
  unfold is_power_of_two. rewrite andb_true_iff, !bool_decide_eq_true. split.
  - intros [_ E]. eauto.
  - intros [m ->]. rewrite Nat.log2_pow2 by lia. split; [|done].
    pose proof (Nat.pow_nonzero 2 m). lia.
Qed.

Lemma chunks_fuel_enough {A} n (l : list A) f1 f2 :
  0 < n -> length l <= f1 -> length l <= f2 -> chunks_fuel f1 n l = chunks_fuel f2 n l.
Proof.
  intros Hn. revert f2 l; induction f1 as [|f1 IH]; intros f2 l H1 H2.
  { destruct l; [|simpl in H1; lia]. by destruct f2. }
  destruct l as [|x l]; [by destruct f2|]. destruct f2 as [|f2]; [simpl in H2; lia|].
  cbn [chunks_fuel]. f_equal. simpl in H1, H2.
  apply IH; rewrite length_drop; simpl; lia.
Qed.

Lemma chunks_nil {A} n : chunks n (@nil A) = [].
Proof. done. Qed.

Lemma chunks_step {A} n (l : list A) :
  0 < n -> l <> [] -> chunks n l = take n l :: chunks n (drop n l).
Proof.
  intros Hn Hl. unfold chunks. destruct l as [|x l]; [done|]. cbn [chunks_fuel length]. f_equal.
  apply chunks_fuel_enough; [done| |lia]. rewrite length_drop. simpl. lia.
Qed.

(** A loop that keeps the best element seen so far and its position:
    [for (i, m) in l.iter().enumerate().skip(1) { if better .. { best = i; .. } }]. *)
Definition keep_best {A K} (key : A -> K) (better : K -> K -> bool)
    (st : nat * K) (im : nat * A) : nat * K :=
  if better (key im.2) st.2 then (im.1, key im.2) else st.

Definition scan_best {A K} (key : A -> K) (better : K -> K -> bool) (a : A) (l : list A) : nat * K :=
  fold_left (keep_best key better) (zip (seq 1 (length l)) l) (0, key a).

(** The scan ends at a member that nothing beats. *)
Lemma scan_best_spec {A K} (key : A -> K) (better : K -> K -> bool) a l i k :
  (forall x, better x x = false) ->
  (forall x y z, better x y = true -> better y z = true -> better x z = true) ->
  scan_best key better a l = (i, k) ->
  (exists m, (a :: l) !! i = Some m /\ key m = k) /\
  Forall (fun m => better (key m) k = false) (a :: l).
Proof.
  intros Hirr Htr. unfold scan_best.
  assert (forall l seen i0 k0 i k,
    (exists m, seen !! i0 = Some m /\ key m = k0) ->
    Forall (fun m => better (key m) k0 = false) seen ->
    fold_left (keep_best key better) (zip (seq (length seen) (length l)) l) (i0, k0) = (i, k) ->
    (exists m, (seen ++ l) !! i = Some m /\ key m = k) /\
    Forall (fun m => better (key m) k = false) (seen ++ l)) as H.
  { clear l i k. induction l as [|m l IH]; intros seen i0 k0 i k Hi Hall; simpl.
    { intros [= <- <-]. by rewrite app_nil_r. }
    intros E. specialize (IH (seen ++ [m])).
    rewrite length_app, Nat.add_1_r, <-app_assoc in IH. simpl in IH.
    unfold keep_best at 2 in E. simpl in E. destruct (better (key m) k0) eqn:Hb.
    - apply (IH (length seen) (key m)); [| |done].
      + exists m. split; [by apply list_lookup_middle | done].
      + apply Forall_app. split; [|by repeat constructor].
        eapply Forall_impl; [exact Hall|]. simpl. intros x Hx.
        destruct (better (key x) (key m)) eqn:Hxm; [|done].
        by rewrite (Htr _ _ _ Hxm Hb) in Hx.
    - apply (IH i0 k0); [| |done].
      + destruct Hi as (m' & Hm' & <-). exists m'. split; [|done].
        by apply lookup_app_l_Some.
      + apply Forall_app. split; [done | by repeat constructor]. }
  intros E. apply (H l [a] 0 (key a)); [by exists a | by repeat constructor | exact E].
Qed.

#[export] Hint Resolve sat_add64_le as_u64_is_u64 : foculus.
#[export] Hint Rewrite @length_app @length_map @length_replicate : foculus_rw.
