(* ===== verification/Order.v ===== *)
(** * Order: Rust's [Ord], stable sorting and canonical iteration

    [Ord] gives the comparison that [sort], [BTreeMap] and [BTreeSet] of the
    source use: byte arrays and strings compare lexicographically, pairs
    lexicographically by component.  A [BTreeMap] is a [gmap] whose iteration
    order is [sorted_entries] (ascending keys), a [BTreeSet] a [gset] iterated
    by [sorted_elements].  [sort_by] is the stable sort of
    [slice::sort_by_key]. *)

From S2P Require Import Prelude.
From Stdlib Require Import Sorted.

Class Ord (A : Type) := ocmp : A -> A -> comparison.

Class OrdLaws (A : Type) `{Ord A} : Prop := {
  ocmp_eq : forall x y : A, ocmp x y = Eq <-> x = y;
  ocmp_sym : forall x y : A, ocmp y x = CompOpp (ocmp x y);
  ocmp_lt_trans : forall x y z : A, ocmp x y = Lt -> ocmp y z = Lt -> ocmp x z = Lt
}.

(** [x < y] and [x <= y] of the source. *)
Definition olt {A} `{Ord A} (x y : A) : bool := bool_decide (ocmp x y = Lt).
Definition ole {A} `{Ord A} (x y : A) : bool := bool_decide (ocmp x y <> Gt).
Definition omin {A} `{Ord A} (x y : A) : A := if ole x y then x else y.
Definition omax {A} `{Ord A} (x y : A) : A := if ole x y then y else x.

#[global] Instance ord_N : Ord N := N.compare.
#[global] Instance ord_nat : Ord nat := Nat.compare.
#[global] Instance ord_Z : Ord Z := Z.compare.

Definition pair_cmp {A B} `{Ord A, Ord B} (p q : A * B) : comparison :=
  match ocmp (fst p) (fst q) with Eq => ocmp (snd p) (snd q) | c => c end.
#[global] Instance ord_pair {A B} `{Ord A, Ord B} : Ord (A * B) := pair_cmp.

Fixpoint list_cmp {A} `{Ord A} (l1 l2 : list A) : comparison :=
  match l1, l2 with
  | [], [] => Eq
  | [], _ :: _ => Lt
  | _ :: _, [] => Gt
  | x :: l1, y :: l2 => match ocmp x y with Eq => list_cmp l1 l2 | c => c end
  end.
#[global] Instance ord_list {A} `{Ord A} : Ord (list A) := list_cmp.

(** The order pulled back along an injection ([via]). *)
Definition cmp_via {A B} `{Ord B} (f : A -> B) (x y : A) : comparison := ocmp (f x) (f y).

(** Strings compare by their bytes. *)
Definition string_bytes (s : string) : list N := Ascii.N_of_ascii <$> String.list_ascii_of_string s.
#[global] Instance ord_string : Ord string := cmp_via string_bytes.

(** [None] sorts before every [Some], as in Rust. *)
Definition option_cmp {A} `{Ord A} (x y : option A) : comparison :=
  match x, y with
  | None, None => Eq
  | None, Some _ => Lt
  | Some _, None => Gt
  | Some a, Some b => ocmp a b
  end.
#[global] Instance ord_option {A} `{Ord A} : Ord (option A) := option_cmp.

(** Stable insertion sort on a key: [slice::sort_by_key]. *)
Fixpoint insert_by {A K} `{Ord K} (f : A -> K) (x : A) (l : list A) : list A :=
  match l with
  | [] => [x]
  | y :: l' => if ole (f x) (f y) then x :: l else y :: insert_by f x l'
  end.

Definition sort_by {A K} `{Ord K} (f : A -> K) (l : list A) : list A :=
  fold_right (insert_by f) [] l.

(** [slice::sort] / [sort_unstable] on an ordered element type. *)
Definition sort {A} `{Ord A} (l : list A) : list A := sort_by id l.

Definition sorted_entries {K V} `{Countable K, !Ord K} (m : gmap K V) : list (K * V) :=
  sort_by fst (map_to_list m).
Definition sorted_keys {K V} `{Countable K, !Ord K} (m : gmap K V) : list K :=
  fst <$> sorted_entries m.
Definition sorted_values {K V} `{Countable K, !Ord K} (m : gmap K V) : list V :=
  snd <$> sorted_entries m.
Definition sorted_elements {K} `{Countable K, !Ord K} (s : gset K) : list K :=
  sort (elements s).

(** Sorted by key, ascending. *)
Definition SortedBy {A K} `{Ord K} (f : A -> K) : list A -> Prop :=
  StronglySorted (fun x y => ole (f x) (f y) = true).

(** ** Laws of the instances *)

#[global] Instance ord_N_laws : OrdLaws N.
Proof.
  split; unfold ocmp, ord_N; intros.
  - apply N.compare_eq_iff.
  - apply N.compare_antisym.
  - rewrite N.compare_lt_iff in *. lia.
Qed.

#[global] Instance ord_nat_laws : OrdLaws nat.
Proof.
  split; unfold ocmp, ord_nat; intros.
  - apply Nat.compare_eq_iff.
  - apply Nat.compare_antisym.
  - rewrite Nat.compare_lt_iff in *. lia.
Qed.

#[global] Instance ord_Z_laws : OrdLaws Z.
Proof.
  split; unfold ocmp, ord_Z; intros.
  - apply Z.compare_eq_iff.
  - apply Z.compare_antisym.
  - rewrite Z.compare_lt_iff in *. lia.
Qed.

Section laws.
Context {A B : Type} `{OrdLaws A, OrdLaws B}.

Lemma ocmp_refl (x : A) : ocmp x x = Eq.
Proof. by apply ocmp_eq. Qed.

Lemma ole_refl (x : A) : ole x x = true.
Proof. unfold ole. by rewrite ocmp_refl. Qed.

Lemma ole_olt (x y : A) : ole x y = negb (olt y x).
Proof.
  unfold ole, olt. rewrite (ocmp_sym x y).
  by destruct (ocmp x y).
Qed.

Lemma ole_antisym (x y : A) : ole x y = true -> ole y x = true -> x = y.
Proof.
  unfold ole. rewrite (ocmp_sym x y). intros Hxy Hyx.
  apply ocmp_eq. by destruct (ocmp x y).
Qed.

Lemma ole_total (x y : A) : ole x y = false -> ole y x = true.
Proof. unfold ole. rewrite (ocmp_sym x y). by destruct (ocmp x y). Qed.

Lemma ole_trans (x y z : A) : ole x y = true -> ole y z = true -> ole x z = true.
Proof.
  unfold ole. intros Hxy Hyz.
  destruct (ocmp x y) eqn:E1; [| |done].
  { apply ocmp_eq in E1. by subst. }
  destruct (ocmp y z) eqn:E2; [| |done].
  { apply ocmp_eq in E2. subst. by rewrite E1. }
  by rewrite (ocmp_lt_trans _ _ _ E1 E2).
Qed.

Lemma olt_ole (x y : A) : olt x y = true -> ole x y = true.
Proof. unfold olt, ole. intros Hlt%bool_decide_eq_true. by rewrite Hlt. Qed.

Lemma olt_irrefl (x : A) : olt x x = false.
Proof. unfold olt. by rewrite ocmp_refl. Qed.

Lemma olt_trans (x y z : A) : olt x y = true -> olt y z = true -> olt x z = true.
Proof.
  unfold olt. rewrite !bool_decide_eq_true. apply ocmp_lt_trans.
Qed.

Lemma olt_trichotomy (x y : A) : olt x y = true \/ x = y \/ olt y x = true.
Proof.
  unfold olt. rewrite (ocmp_sym x y), !bool_decide_eq_true.
  destruct (ocmp x y) eqn:E; auto.
  right; left. by apply ocmp_eq.
Qed.

#[global] Instance ord_pair_laws : OrdLaws (A * B).
Proof.
  split; unfold ocmp, ord_pair, pair_cmp.
  - intros [a1 b1] [a2 b2]; simpl. split.
    + destruct (ocmp a1 a2) eqn:E1; try done. intros E2.
      apply ocmp_eq in E1, E2. by subst.
    + intros [= -> ->]. rewrite ocmp_refl. by apply ocmp_eq.
  - intros [a1 b1] [a2 b2]; simpl. rewrite (ocmp_sym a1 a2), (ocmp_sym b1 b2).
    by destruct (ocmp a1 a2), (ocmp b1 b2).
  - intros [a1 b1] [a2 b2] [a3 b3]; simpl.
    destruct (ocmp a1 a2) eqn:E1, (ocmp a2 a3) eqn:E2; try done; intros Hl1 Hl2;
      repeat match goal with E : ocmp _ _ = Eq |- _ => apply ocmp_eq in E; subst end.
    + rewrite ocmp_refl. by eapply ocmp_lt_trans.
    + by rewrite E2.
    + by rewrite E1.
    + by rewrite (ocmp_lt_trans _ _ _ E1 E2).
Qed.

#[global] Instance ord_list_laws : OrdLaws (list A).
Proof.
  split; unfold ocmp, ord_list.
  - intros x; induction x as [|a x IH]; intros [|b y]; simpl; try done.
    split.
    + destruct (ocmp a b) eqn:E; try done. intros Hl%IH. apply ocmp_eq in E. by subst.
    + intros [= -> ->]. rewrite ocmp_refl. by apply IH.
  - intros x; induction x as [|a x IH]; intros [|b y]; simpl; try done.
    rewrite (ocmp_sym a b), IH. by destruct (ocmp a b).
  - intros x; induction x as [|a x IH]; intros [|b y] [|c z]; simpl; try done.
    destruct (ocmp a b) eqn:E1, (ocmp b c) eqn:E2; try done; intros Hl1 Hl2;
      repeat match goal with E : ocmp _ _ = Eq |- _ => apply ocmp_eq in E; subst end.
    + rewrite ocmp_refl. by eapply IH.
    + by rewrite E2.
    + by rewrite E1.
    + by rewrite (ocmp_lt_trans _ _ _ E1 E2).
Qed.

Lemma cmp_via_laws {C} (f : C -> A) `{!Inj (=) (=) f} : @OrdLaws C (cmp_via f).
Proof.
  split; unfold ocmp, cmp_via; intros.
  - rewrite ocmp_eq. split; [apply (inj f) | by intros ->].
  - apply ocmp_sym.
  - by eapply ocmp_lt_trans.
Qed.

#[global] Instance ord_option_laws : OrdLaws (option A).
Proof.
  split; unfold ocmp, ord_option, option_cmp.
  - intros [x|] [y|]; try done. rewrite ocmp_eq. split; congruence.
  - intros [x|] [y|]; try done. apply ocmp_sym.
  - intros [x|] [y|] [z|]; try done. apply ocmp_lt_trans.
Qed.
End laws.

#[global] Instance string_bytes_inj : Inj (=) (=) string_bytes.
Proof.
  intros s t E.
  rewrite <-(String.string_of_list_ascii_of_string s), <-(String.string_of_list_ascii_of_string t).
  f_equal. eapply list_fmap_eq_inj; [|exact E].
  intros a b Hab. rewrite <-(Ascii.ascii_N_embedding a), <-(Ascii.ascii_N_embedding b).
  by rewrite Hab.
Qed.

#[global] Instance ord_string_laws : OrdLaws string.
Proof. apply cmp_via_laws. apply _. Qed.

(** ** Sorting *)

Section sorting.
Context {A K : Type} `{OrdLaws K} (f : A -> K).

Lemma insert_by_perm x l : insert_by f x l ≡ₚ x :: l.
Proof.
  induction l as [|y l IH]; simpl; [done|].
  destruct (ole _ _); [done|]. rewrite IH. apply Permutation_swap.
Qed.

Lemma sort_by_perm l : sort_by f l ≡ₚ l.
Proof.
  induction l as [|x l IH]; simpl; [done|]. by rewrite insert_by_perm, IH.
Qed.

Lemma insert_by_sorted x l : SortedBy f l -> SortedBy f (insert_by f x l).
Proof.
  induction 1 as [|y l Hl IH Hall]; simpl.
  { repeat constructor. }
  destruct (ole (f x) (f y)) eqn:E.
  - constructor; [by constructor|].
    constructor; [done|]. eapply Forall_impl; [exact Hall|].
    intros z Hz. by eapply ole_trans.
  - constructor; [done|].
    rewrite insert_by_perm. constructor; [by apply ole_total | done].
Qed.

Lemma sort_by_sorted l : SortedBy f (sort_by f l).
Proof. induction l; simpl; [constructor | by apply insert_by_sorted]. Qed.

Lemma sort_by_elem_of x l : x ∈ sort_by f l <-> x ∈ l.
Proof. by rewrite sort_by_perm. Qed.

Lemma sort_by_length l : length (sort_by f l) = length l.
Proof. by rewrite sort_by_perm. Qed.

(** Two sorted permutations of each other agree when the key determines the
    element. *)
Lemma sorted_perm_unique l1 l2 :
  (forall x y, x ∈ l1 -> y ∈ l1 -> f x = f y -> x = y) ->
  SortedBy f l1 -> SortedBy f l2 -> l1 ≡ₚ l2 -> l1 = l2.
Proof.
  intros Hinj Hs1; revert l2 Hinj; induction Hs1 as [|x l1 Hs1 IH Hall1];
    intros l2 Hinj Hs2 Hp.
  { by apply Permutation_nil_l. }
  destruct Hs2 as [|y l2 Hs2 Hall2]; [by apply Permutation_nil_r in Hp|].
  assert (x = y) as ->.
  { assert (y ∈ x :: l1) as Hy by (rewrite Hp; constructor).
    assert (x ∈ y :: l2) as Hx by (rewrite <-Hp; constructor).
    apply Hinj; [constructor | done |]. apply ole_antisym.
    - apply elem_of_cons in Hy as [->|Hy]; [apply ole_refl|].
      rewrite Forall_forall in Hall1. by apply Hall1.
    - apply elem_of_cons in Hx as [->|Hx]; [apply ole_refl|].
      rewrite Forall_forall in Hall2. by apply Hall2. }
  f_equal. apply IH; [|done|].
  - intros ????; apply Hinj; by constructor.
  - by apply Permutation_cons_inv in Hp.
Qed.

Lemma sort_by_proper l1 l2 :
  (forall x y, x ∈ l1 -> y ∈ l1 -> f x = f y -> x = y) ->
  l1 ≡ₚ l2 -> sort_by f l1 = sort_by f l2.
Proof.
  intros Hinj Hp. apply sorted_perm_unique.
  - intros ??. rewrite !sort_by_elem_of. apply Hinj.
  - apply sort_by_sorted.
  - apply sort_by_sorted.
  - by rewrite !sort_by_perm.
Qed.

Lemma sort_by_id_sorted l : SortedBy f l -> sort_by f l = l.
Proof.
  induction 1 as [|x l Hl IH Hall]; simpl; [done|]. rewrite IH.
  destruct l as [|y l]; simpl; [done|].
  inversion Hall as [|?? Hxy]; subst. by rewrite Hxy.
Qed.

Lemma sorted_by_filter (P : A -> Prop) `{!forall x, Decision (P x)} l :
  SortedBy f l -> SortedBy f (filter P l).
Proof.
  induction 1 as [|x l Hl IH Hall]; [constructor|].
  rewrite filter_cons. case_decide; [|done].
  constructor; [done|]. rewrite Forall_forall in Hall |- *.
  intros y [_ Hy]%list_elem_of_filter. by apply Hall.
Qed.

(** Sorting commutes with filtering. *)
Lemma sort_by_filter (P : A -> Prop) `{!forall x, Decision (P x)} l :
  (forall x y, x ∈ l -> y ∈ l -> f x = f y -> x = y) ->
  sort_by f (filter P l) = filter P (sort_by f l).
Proof.
  intros Hinj. apply sorted_perm_unique.
  - intros x y. rewrite !sort_by_elem_of, !list_elem_of_filter.
    intros [_ ?] [_ ?]. by apply Hinj.
  - apply sort_by_sorted.
  - apply sorted_by_filter, sort_by_sorted.
  - by rewrite !sort_by_perm.
Qed.
End sorting.

(** Sorting commutes with a map that preserves the key. *)
Lemma sort_by_map {A B K} `{Ord K} (f : A -> K) (f' : B -> K) (g : A -> B) l :
  (forall a, f' (g a) = f a) -> map g (sort_by f l) = sort_by f' (map g l).
Proof.
  intros Hg. induction l as [|x l IH]; [done|]. unfold sort_by in *. cbn [map fold_right]. rewrite <-IH.
  generalize (fold_right (insert_by f) [] l) as m. induction m as [|y m IHm]; [done|].
  cbn [insert_by map]. rewrite !Hg. destruct (ole (f x) (f y)); [done|]. cbn [map]. by rewrite IHm.
Qed.

Section sort_ord.
Context {A : Type} `{OrdLaws A}.

Lemma sort_perm (l : list A) : sort l ≡ₚ l.
Proof. apply sort_by_perm. Qed.

Lemma sort_proper (l1 l2 : list A) : l1 ≡ₚ l2 -> sort l1 = sort l2.
Proof. intros. apply sort_by_proper; auto. Qed.

Lemma sort_eq_perm (l1 l2 : list A) : sort l1 = sort l2 -> l1 ≡ₚ l2.
Proof. intros E. by rewrite <-(sort_perm l1), E, sort_perm. Qed.

Lemma sort_length (l : list A) : length (sort l) = length l.
Proof. apply sort_by_length. Qed.
End sort_ord.

#[global] Instance sort_Proper {A} `{OrdLaws A} : Proper ((≡ₚ) ==> (=)) (@sort A _).
Proof. intros l1 l2. apply sort_proper. Qed.

Section maps.
Context {K V : Type} `{Countable K, !Ord K, !OrdLaws K}.

Lemma sorted_entries_perm (m : gmap K V) : sorted_entries m ≡ₚ map_to_list m.
Proof. apply sort_by_perm. Qed.

Lemma elem_of_sorted_entries (m : gmap K V) k v :
  (k, v) ∈ sorted_entries m <-> m !! k = Some v.
Proof. by rewrite sorted_entries_perm, elem_of_map_to_list. Qed.

Lemma elem_of_sorted_keys (m : gmap K V) k : k ∈ sorted_keys m <-> is_Some (m !! k).
Proof.
  unfold sorted_keys. rewrite list_elem_of_fmap. split.
  - intros [[k' v] [-> Hkv]]. apply elem_of_sorted_entries in Hkv. by exists v.
  - intros [v Hv]. exists (k, v). split; [done|]. by apply elem_of_sorted_entries.
Qed.

Lemma sorted_keys_NoDup (m : gmap K V) : NoDup (sorted_keys m).
Proof.
  unfold sorted_keys. rewrite sorted_entries_perm. apply NoDup_fst_map_to_list.
Qed.

Lemma sorted_keys_sorted (m : gmap K V) : SortedBy id (sorted_keys m).
Proof.
  unfold sorted_keys. pose proof (sort_by_sorted fst (map_to_list m)) as Hs. fold (sorted_entries m) in Hs.
  induction Hs as [|x l Hs IH Hall]; simpl; [constructor|]. constructor; [done|].
  apply Forall_fmap. eapply Forall_impl; [exact Hall|]. done.
Qed.

Lemma elem_of_sorted_values (m : gmap K V) v :
  v ∈ sorted_values m <-> exists k, m !! k = Some v.
Proof.
  unfold sorted_values. rewrite list_elem_of_fmap. split.
  - intros [[k w] [-> Hkv]]. exists k. by apply elem_of_sorted_entries.
  - intros [k Hk]. exists (k, v). split; [done|]. by apply elem_of_sorted_entries.
Qed.

Lemma sorted_values_length (m : gmap K V) : length (sorted_values m) = size m.
Proof.
  unfold sorted_values. by rewrite length_fmap, sorted_entries_perm, length_map_to_list.
Qed.

Lemma sorted_elements_perm (s : gset K) : sorted_elements s ≡ₚ elements s.
Proof. apply sort_perm. Qed.

Lemma elem_of_sorted_elements (s : gset K) k : k ∈ sorted_elements s <-> k ∈ s.
Proof. by rewrite sorted_elements_perm, elem_of_elements. Qed.

Lemma sorted_elements_length (s : gset K) : length (sorted_elements s) = size s.
Proof. by rewrite sorted_elements_perm. Qed.

Lemma sorted_elements_NoDup (s : gset K) : NoDup (sorted_elements s).
Proof. rewrite sorted_elements_perm. apply NoDup_elements. Qed.
End maps.

(** The keys in order depend on the key set alone. *)
Lemma sorted_keys_ext {K V W} `{Countable K, !Ord K, !OrdLaws K} (m : gmap K V) (m' : gmap K W) :
  (forall k, is_Some (m !! k) <-> is_Some (m' !! k)) -> sorted_keys m = sorted_keys m'.
Proof.
  intros Hd. apply (sorted_perm_unique id); [done|apply sorted_keys_sorted..|].
  apply NoDup_Permutation; [apply sorted_keys_NoDup..|]. intros k. by rewrite !elem_of_sorted_keys.
Qed.

#[export] Hint Resolve ole_refl olt_irrefl : foculus.
#[export] Hint Rewrite @sort_length @sorted_values_length : foculus_rw.
