(* ===== verification/Bytes.v ===== *)
(** * Bytes: fixed-size arrays, little-endian integers and cursor readers

    [arr n] is the source's [[u8; n]] (a [Particle], [NeuronId] or hash is an
    [arr 32]).  [le_bytes n v] is [v.to_le_bytes()] for an [8 * n]-bit
    integer, [le_num] is [from_le_bytes].  A [reader] is the bounded cursor
    the decoders thread through a buffer ([buf], [&mut p]): [None] is the
    early return of [?].  [Codec] is the interface between an encoder and
    its reader that the wire formats (Frames, Wire, Gossip) are built on. *)

From S2P Require Import Prelude Order.
From Stdlib Require Export Strings.Byte.

(** ** Bytes and arrays *)

Definition byte_of_N (v : N) : byte := default x00 (Byte.of_N (v mod 256)).

#[global] Instance byte_eq_dec : EqDecision byte := Byte.byte_eq_dec.
#[global] Instance byte_countable : Countable byte :=
  inj_countable Byte.to_N Byte.of_N Byte.of_to_N.
#[global] Instance ord_byte : Ord byte := cmp_via Byte.to_N.

Record arr (n : nat) := mk_arr {
  arr_bytes : list byte;
  arr_ok : Is_true (Nat.eqb (length arr_bytes) n)
}.
Arguments mk_arr {n} _ _.
Arguments arr_bytes {n} _.

(** [<[u8; n]>::try_from(slice).ok()]. *)
Definition list_to_arr (n : nat) (l : list byte) : option (arr n) :=
  (match Nat.eqb (length l) n as b return (Is_true b -> arr n) -> option (arr n) with
   | true => fun mk => Some (mk I)
   | false => fun _ => None
   end) (mk_arr l).

Fixpoint rep_ok (n : nat) (b : byte) : Is_true (Nat.eqb (length (replicate n b)) n) :=
  match n with
  | 0 => I
  | S n => rep_ok n b
  end.

(** The array literal [[b; n]]. *)
Definition arr_rep (n : nat) (b : byte) : arr n := mk_arr (replicate n b) (rep_ok n b).

Lemma arr_eq {n} (a b : arr n) : arr_bytes a = arr_bytes b -> a = b.
Proof.
  destruct a as [l1 H1], b as [l2 H2]; simpl. intros ->. f_equal. apply proof_irrel.
Qed.

#[global] Instance arr_eq_dec n : EqDecision (arr n) := fun a b =>
  match decide (arr_bytes a = arr_bytes b) with
  | left E => left (arr_eq a b E)
  | right E => right (fun Eab => E (f_equal arr_bytes Eab))
  end.

#[global] Instance arr_countable n : Countable (arr n).
Proof.
  refine (inj_countable arr_bytes (list_to_arr n) _).
  intros [l H]. unfold list_to_arr; simpl. revert H.
  generalize (@mk_arr n l). destruct (Nat.eqb (length l) n); simpl; [|done].
  intros mk H. f_equal. f_equal. apply proof_irrel.
Defined.

#[global] Instance ord_arr n : Ord (arr n) := cmp_via arr_bytes.

Abbreviation particle := (arr 32).
Definition zero32 : particle := arr_rep 32 x00.

(** ** Little-endian integers *)

Fixpoint le_bytes (n : nat) (v : N) : list byte :=
  match n with
  | 0 => []
  | S n => byte_of_N v :: le_bytes n (v / 256)
  end.

Fixpoint le_num (l : list byte) : N :=
  match l with
  | [] => 0
  | b :: l => Byte.to_N b + 256 * le_num l
  end%N.

(** [from_be_bytes]. *)
Definition be_num (l : list byte) : N := le_num (rev l).

Definition u64_le (v : N) : list byte := le_bytes 8 v.
Definition u32_le (v : N) : list byte := le_bytes 4 v.
Definition u128_le (v : N) : list byte := le_bytes 16 v.

(** [v as u8] and [b as i8]. *)
Definition u8_of_i8 (v : Z) : byte := byte_of_N (Z.to_N (v mod 256)).
Definition i8_of_u8 (b : byte) : Z :=
  let v := Z.of_N (Byte.to_N b) in if (v <? 128)%Z then v else (v - 256)%Z.

(** [s.as_bytes()]. *)
Definition str_bytes (s : string) : list byte := String.list_byte_of_string s.

(** An [arr n] from a number, for constants. *)
Definition arr_of_N (n : nat) (v : N) : arr n :=
  default (arr_rep n x00) (list_to_arr n (le_bytes n v)).

(** ** Slices and readers *)

(** [buf.get(a..b)]. *)
Definition get_range (buf : list byte) (a b : nat) : option (list byte) :=
  if bool_decide (a <= b <= length buf) then Some (take (b - a) (drop a buf)) else None.

(** [&buf[a..b]], which panics out of range. *)
Definition slice (buf : list byte) (a b : nat) : outcome (list byte) :=
  match get_range buf a b with Some s => Done s | None => Panic end.

Definition reader (A : Type) : Type := list byte -> nat -> option (A * nat).
#[global] Instance reader_ret : MRet reader := fun A a buf p => Some (a, p).
#[global] Instance reader_bind : MBind reader := fun A B f r buf p =>
  match r buf p with Some (a, p') => f a buf p' | None => None end.

Definition read_fail {A} : reader A := fun _ _ => None.

(** [n] repetitions of a reader, results in order. *)
Fixpoint read_many {A} (n : nat) (r : reader A) : reader (list A) :=
  match n with
  | 0 => mret []
  | S n => a ← r; l ← read_many n r; mret (a :: l)
  end.

(** [buf.get(p..p + n)?] followed by [p += n]. *)
Definition read_bytes (n : nat) : reader (list byte) := fun buf p =>
  s ← get_range buf p (p + n); Some (s, p + n).

(** [o?] inside a reader. *)
Definition read_opt {A} (o : option A) : reader A := fun _ p => a ← o; Some (a, p).

(** One array, one byte or one little-endian integer at the cursor. *)
Definition read_arr (n : nat) : reader (arr n) := s ← read_bytes n; read_opt (list_to_arr n s).
Definition read_byte : reader byte := fun buf p => b ← buf !! p; Some (b, p + 1).
Definition read_u32 : reader N := s ← read_bytes 4; mret (le_num s).
Definition read_u64 : reader N := s ← read_bytes 8; mret (le_num s).
Definition read_u128 : reader N := s ← read_bytes 16; mret (le_num s).

(** [p < buf.len()]. *)
Definition read_more : reader bool := fun buf p => Some (bool_decide (p < length buf), p).

(** The encoder and the reader of one type agree: at any position of any
    buffer, the reader recovers an encoded value and stops right after it. *)
Definition reads {A} (r : reader A) (bs : list byte) (a : A) : Prop :=
  forall pre rest, r (pre ++ bs ++ rest) (length pre) = Some (a, length pre + length bs).

Class Codec (A : Type) := {
  enc : A -> list byte;
  dec : reader A;
  codec_wf : A -> Prop;
  codec_reads : forall a, codec_wf a -> reads dec (enc a) a
}.

(** ** Lemmas on bytes and arrays *)

#[global] Instance byte_to_N_inj : Inj (=) (=) Byte.to_N.
Proof.
  intros a b E. pose proof (Byte.of_to_N a) as Ha. pose proof (Byte.of_to_N b) as Hb. congruence.
Qed.
#[global] Instance ord_byte_laws : OrdLaws byte.
Proof. apply cmp_via_laws. apply _. Qed.

#[global] Instance arr_bytes_inj n : Inj (=) (=) (@arr_bytes n).
Proof. intros a b. apply arr_eq. Qed.
#[global] Instance ord_arr_laws n : OrdLaws (arr n).
Proof. apply cmp_via_laws. apply _. Qed.

Lemma arr_length {n} (a : arr n) : length (arr_bytes a) = n.
Proof. destruct a as [l H]; simpl. by apply Nat.eqb_eq, Is_true_true. Qed.

Lemma list_to_arr_bytes {n} (a : arr n) : list_to_arr n (arr_bytes a) = Some a.
Proof.
  destruct a as [l H]. unfold list_to_arr; simpl. revert H.
  generalize (@mk_arr n l). destruct (Nat.eqb (length l) n); simpl; [|done].
  intros mk H. f_equal. f_equal. apply proof_irrel.
Qed.

Lemma list_to_arr_Some {n} l (a : arr n) : list_to_arr n l = Some a -> arr_bytes a = l.
Proof.
  unfold list_to_arr. pose proof (fun H => eq_refl : arr_bytes (@mk_arr n l H) = l) as Hb.
  revert Hb. generalize (@mk_arr n l). destruct (Nat.eqb (length l) n); [|done].
  intros mk Hb [= <-]. apply Hb.
Qed.

Lemma list_to_arr_is_Some n l : is_Some (list_to_arr n l) <-> length l = n.
Proof.
  split.
  - intros [a <-%list_to_arr_Some]. apply arr_length.
  - intros Hl. unfold list_to_arr. generalize (@mk_arr n l).
    rewrite (proj2 (Nat.eqb_eq _ _) Hl). eauto.
Qed.

Lemma to_N_byte_of_N v : Byte.to_N (byte_of_N v) = (v mod 256)%N.
Proof.
  unfold byte_of_N. destruct (Byte.of_N (v mod 256)) as [b|] eqn:E; simpl.
  - by apply Byte.to_of_N.
  - apply Byte.of_N_None_iff in E. pose proof (N.mod_lt v 256). lia.
Qed.

Lemma to_N_lt b : (Byte.to_N b < 256)%N.
Proof. pose proof (Byte.to_N_bounded b). lia. Qed.

Lemma byte_of_N_to_N b : byte_of_N (Byte.to_N b) = b.
Proof.
  apply (inj Byte.to_N). rewrite to_N_byte_of_N. apply N.mod_small, to_N_lt.
Qed.

Lemma i8_round_trip v : is_i8 v -> i8_of_u8 (u8_of_i8 v) = v.
Proof.
  unfold is_i8, i8_of_u8, u8_of_i8. intros Hv. rewrite to_N_byte_of_N.
  pose proof (Z.mod_pos_bound v 256 ltac:(lia)).
  rewrite N.mod_small by lia. rewrite Z2N.id by lia.
  destruct (decide (0 <= v)%Z) as [Hp|Hn].
  - rewrite Z.mod_small by lia. destruct (Z.ltb_spec v 128); lia.
  - replace (v mod 256)%Z with (v + 256)%Z.
    + destruct (Z.ltb_spec (v + 256) 128); lia.
    + apply (Z.mod_unique v 256 (-1)); lia.
Qed.

Lemma u8_round_trip b : u8_of_i8 (i8_of_u8 b) = b.
Proof.
  apply (inj Byte.to_N). unfold u8_of_i8. rewrite to_N_byte_of_N. unfold i8_of_u8.
  pose proof (to_N_lt b).
  destruct (Z.ltb_spec (Z.of_N (Byte.to_N b)) 128).
  - rewrite Z.mod_small by lia. rewrite N2Z.id. apply N.mod_small. lia.
  - replace ((Z.of_N (Byte.to_N b) - 256) mod 256)%Z with (Z.of_N (Byte.to_N b)).
    + rewrite N2Z.id. apply N.mod_small. lia.
    + apply (Z.mod_unique _ _ (-1)); lia.
Qed.

Lemma i8_of_u8_range b : is_i8 (i8_of_u8 b).
Proof.
  unfold is_i8, i8_of_u8. pose proof (to_N_lt b).
  destruct (Z.ltb_spec (Z.of_N (Byte.to_N b)) 128); lia.
Qed.

#[global] Instance str_bytes_inj : Inj (=) (=) str_bytes.
Proof.
  intros s t E. rewrite <-(String.string_of_list_byte_of_string s), <-(String.string_of_list_byte_of_string t).
  unfold str_bytes in E. by rewrite E.
Qed.

Lemma str_bytes_length s : length (str_bytes s) = String.length s.
Proof.
  unfold str_bytes, String.list_byte_of_string. rewrite length_map.
  induction s as [|c s IH]; simpl; auto.
Qed.

(** ** Lemmas on little-endian integers *)

Lemma le_bytes_length n v : length (le_bytes n v) = n.
Proof. revert v; induction n; intros; simpl; auto. Qed.

Lemma le_num_le_bytes n v : le_num (le_bytes n v) = (v mod 256 ^ N.of_nat n)%N.
Proof.
  revert v; induction n as [|n IH]; intros v; simpl le_bytes; simpl le_num.
  - by rewrite N.mod_1_r.
  - rewrite IH, to_N_byte_of_N, Nat2N.inj_succ, N.pow_succ_r'.
    by rewrite N.Div0.mod_mul_r.
Qed.

Lemma le_num_bound l : (le_num l < 256 ^ N.of_nat (length l))%N.
Proof.
  induction l as [|b l IH]; simpl le_num; simpl length; [done|].
  rewrite Nat2N.inj_succ, N.pow_succ_r'. pose proof (to_N_lt b). nia.
Qed.

Lemma le_bytes_le_num l : le_bytes (length l) (le_num l) = l.
Proof.
  induction l as [|b l IH]; simpl; [done|]. pose proof (to_N_lt b). f_equal.
  - apply (inj Byte.to_N). rewrite to_N_byte_of_N, N.mul_comm, N.Div0.mod_add.
    apply N.mod_small; lia.
  - replace ((Byte.to_N b + 256 * le_num l) / 256)%N with (le_num l); [done|].
    apply (N.div_unique _ _ _ (Byte.to_N b)); lia.
Qed.

Lemma le_bytes_inj n v w :
  (v < 256 ^ N.of_nat n)%N -> (w < 256 ^ N.of_nat n)%N -> le_bytes n v = le_bytes n w -> v = w.
Proof.
  intros Hv Hw E%(f_equal le_num). rewrite !le_num_le_bytes in E.
  by rewrite !N.mod_small in E.
Qed.

Lemma u64_le_num v : is_u64 v -> le_num (u64_le v) = v.
Proof.
  unfold is_u64, u64_max. intros H. unfold u64_le. rewrite le_num_le_bytes.
  change (256 ^ N.of_nat 8)%N with 18446744073709551616%N. apply N.mod_small. lia.
Qed.

Lemma u32_le_num v : is_u32 v -> le_num (u32_le v) = v.
Proof.
  unfold is_u32, u32_max. intros H. unfold u32_le. rewrite le_num_le_bytes.
  change (256 ^ N.of_nat 4)%N with 4294967296%N. apply N.mod_small. lia.
Qed.

Lemma u128_le_num v : is_u128 v -> le_num (u128_le v) = v.
Proof.
  unfold is_u128, u128_max. intros H. unfold u128_le. rewrite le_num_le_bytes.
  change (256 ^ N.of_nat 16)%N with 340282366920938463463374607431768211456%N.
  apply N.mod_small. lia.
Qed.

Lemma u64_le_inj v w : is_u64 v -> is_u64 w -> u64_le v = u64_le w -> v = w.
Proof. intros Hv Hw E. by rewrite <-(u64_le_num v), <-(u64_le_num w), E. Qed.

Lemma u64_le_length v : length (u64_le v) = 8.
Proof. apply le_bytes_length. Qed.
Lemma u32_le_length v : length (u32_le v) = 4.
Proof. apply le_bytes_length. Qed.
Lemma u128_le_length v : length (u128_le v) = 16.
Proof. apply le_bytes_length. Qed.

#[export] Hint Rewrite @arr_length @le_bytes_length u64_le_length u32_le_length
  u128_le_length : foculus_rw.

(** A short number is padded with zero bytes. *)
Lemma le_bytes_pad l n : le_bytes (length l + n) (le_num l) = l ++ replicate n x00.
Proof.
  induction l as [|b l IH].
  - simpl. induction n as [|n IH]; [done|]. unfold le_num in *. cbn [le_bytes Nat.add replicate] in *.
    f_equal. by rewrite <-IH.
  - change (le_num (b :: l)) with (Byte.to_N b + 256 * le_num l)%N. cbn [le_bytes length Nat.add app].
    pose proof (to_N_lt b). f_equal.
    + apply (inj Byte.to_N). rewrite to_N_byte_of_N, N.mul_comm, N.Div0.mod_add.
      apply N.mod_small; lia.
    + rewrite <-IH. f_equal. symmetry. apply (N.div_unique _ _ _ (Byte.to_N b)); lia.
Qed.

(** ** Lemmas on readers *)

Lemma get_range_app pre s rest :
  get_range (pre ++ s ++ rest) (length pre) (length pre + length s) = Some s.
Proof.
  unfold get_range. rewrite bool_decide_eq_true_2.
  - f_equal. rewrite drop_app_length.
    replace (length pre + length s - length pre) with (length s) by lia.
    by rewrite take_app_length.
  - rewrite !length_app. lia.
Qed.

Lemma get_range_length buf a b s : get_range buf a b = Some s -> a + length s = b /\ b <= length buf.
Proof.
  unfold get_range. case_bool_decide as Hab; [|done]. intros [= <-].
  rewrite length_take, length_drop. lia.
Qed.

Lemma reads_ret {A} (a : A) : reads (mret a) [] a.
Proof. intros pre rest. unfold mret, reader_ret. by rewrite Nat.add_0_r. Qed.

Lemma reads_bind {A B} (r : reader A) (k : A -> reader B) bs1 bs2 a b :
  reads r bs1 a -> reads (k a) bs2 b -> reads (a ← r; k a) (bs1 ++ bs2) b.
Proof.
  intros Hr Hk pre rest. unfold mbind, reader_bind.
  rewrite <-app_assoc, Hr.
  specialize (Hk (pre ++ bs1) rest). rewrite <-!app_assoc, length_app in Hk.
  rewrite Hk, length_app. f_equal. f_equal. lia.
Qed.

(** A reader followed by a pure continuation. *)
Lemma reads_bind_ret {A B} (r : reader A) (f : A -> B) bs a :
  reads r bs a -> reads (a ← r; mret (f a)) bs (f a).
Proof.
  intros Hr. rewrite <-(app_nil_r bs). eapply (reads_bind r (fun a => mret (f a)));
    [done | apply reads_ret].
Qed.

Lemma reads_many {A} (r : reader A) (e : A -> list byte) l :
  Forall (fun a => reads r (e a) a) l ->
  reads (read_many (length l) r) (concat (map e l)) l.
Proof.
  induction 1 as [|a l Ha Hl IH]; simpl; [apply reads_ret|].
  apply (reads_bind _ (fun a => l ← read_many (length l) r; mret (a :: l)) _ _ a); [done|].
  by apply (reads_bind_ret _ (cons a)).
Qed.

Lemma reads_bytes bs n : length bs = n -> reads (read_bytes n) bs bs.
Proof. intros <- pre rest. unfold read_bytes. by rewrite get_range_app. Qed.

Lemma reads_opt {A} (a : A) : reads (read_opt (Some a)) [] a.
Proof. intros pre rest. simpl. by rewrite Nat.add_0_r. Qed.

Lemma reads_arr {n} (a : arr n) : reads (read_arr n) (arr_bytes a) a.
Proof.
  unfold read_arr. rewrite <-(app_nil_r (arr_bytes a)).
  eapply reads_bind; [apply reads_bytes, arr_length|]. rewrite list_to_arr_bytes. apply reads_opt.
Qed.

Lemma reads_byte b : reads read_byte [b] b.
Proof.
  intros pre rest. unfold read_byte. simpl. by rewrite list_lookup_middle.
Qed.

Lemma reads_u64 v : is_u64 v -> reads read_u64 (u64_le v) v.
Proof.
  intros Hv. rewrite <-(u64_le_num v Hv) at 2. apply reads_bind_ret, reads_bytes, u64_le_length.
Qed.
Lemma reads_u32 v : is_u32 v -> reads read_u32 (u32_le v) v.
Proof.
  intros Hv. rewrite <-(u32_le_num v Hv) at 2. apply reads_bind_ret, reads_bytes, u32_le_length.
Qed.
Lemma reads_u128 v : is_u128 v -> reads read_u128 (u128_le v) v.
Proof.
  intros Hv. rewrite <-(u128_le_num v Hv) at 2. apply reads_bind_ret, reads_bytes, u128_le_length.
Qed.

(** A tail that is read only when bytes remain. *)
Lemma reads_more {A} (r : reader A) d bs a :
  bs <> [] -> reads r bs a -> reads (b ← read_more; if b : bool then r else mret d) bs a.
Proof.
  intros Hne Hr pre rest. unfold mbind, reader_bind, read_more.
  rewrite bool_decide_eq_true_2; [apply Hr|].
  rewrite !length_app. destruct bs; [done|]. simpl. lia.
Qed.

(** [parsed buf p bs p']: the bytes of [buf] from [p] to [p'] are [bs]. *)
Definition parsed (buf : list byte) (p : nat) (bs : list byte) (p' : nat) : Prop :=
  p' = p + length bs /\ get_range buf p p' = Some bs.

Lemma parsed_nil buf p : p <= length buf -> parsed buf p [] p.
Proof.
  intros Hp. split; [simpl; lia|]. unfold get_range. rewrite bool_decide_eq_true_2 by lia.
  by rewrite Nat.sub_diag.
Qed.

Lemma parsed_app buf p bs1 p1 bs2 p2 :
  parsed buf p bs1 p1 -> parsed buf p1 bs2 p2 -> parsed buf p (bs1 ++ bs2) p2.
Proof.
  intros [E1 H1] [E2 H2]. split; [rewrite length_app; lia|].
  unfold get_range in *. case_bool_decide; [|done]. case_bool_decide; [|done].
  rewrite bool_decide_eq_true_2 by lia. injection H1 as H1. injection H2 as H2. f_equal.
  replace (p1 - p) with (length bs1) in H1 by lia.
  replace (p2 - p1) with (length bs2) in H2 by lia.
  replace (p2 - p) with (length bs1 + length bs2) by lia.
  rewrite <-take_take_drop, H1. f_equal. rewrite drop_drop, <-E1. done.
Qed.

Lemma parsed_cons buf p b p1 bs p2 :
  parsed buf p [b] p1 -> parsed buf p1 bs p2 -> parsed buf p (b :: bs) p2.
Proof. apply (parsed_app _ _ [b]). Qed.

Lemma parsed_le buf p bs p' : parsed buf p bs p' -> p <= p' <= length buf.
Proof. intros [E H%get_range_length]. lia. Qed.

Lemma parsed_bytes n buf p bs p' : read_bytes n buf p = Some (bs, p') -> parsed buf p bs p' /\ length bs = n.
Proof.
  unfold read_bytes. destruct (get_range buf p (p + n)) as [s|] eqn:E; simpl; [|done].
  intros [= <- <-]. pose proof (get_range_length _ _ _ _ E). split; [split; [lia|done]|lia].
Qed.

Lemma parsed_arr n buf p (a : arr n) p' : read_arr n buf p = Some (a, p') -> parsed buf p (arr_bytes a) p'.
Proof.
  unfold read_arr, mbind, reader_bind. destruct (read_bytes n buf p) as [[s q]|] eqn:E; [|done].
  unfold read_opt. destruct (list_to_arr n s) as [b|] eqn:Eb; simpl; [|done].
  intros [= <- <-]. apply list_to_arr_Some in Eb. rewrite Eb. by apply parsed_bytes in E as [? _].
Qed.

Lemma parsed_byte buf p b p' : read_byte buf p = Some (b, p') -> parsed buf p [b] p'.
Proof.
  unfold read_byte. destruct (buf !! p) as [c|] eqn:E; simpl; [|done]. intros [= <- <-].
  split; [done|]. unfold get_range. pose proof (lookup_lt_Some _ _ _ E).
  rewrite bool_decide_eq_true_2 by lia. replace (p + 1 - p) with 1 by lia.
  by rewrite (drop_S _ _ _ E).
Qed.

Lemma parsed_le_num n buf p v p' :
  (s ← read_bytes n; mret (le_num s)) buf p = Some (v, p') ->
  parsed buf p (le_bytes n v) p' /\ (v < 256 ^ N.of_nat n)%N.
Proof.
  unfold mbind, reader_bind. destruct (read_bytes n buf p) as [[s q]|] eqn:E; [|done].
  intros [= <- <-]. apply parsed_bytes in E as [H <-].
  split; [by rewrite le_bytes_le_num | apply le_num_bound].
Qed.

Lemma parsed_u64 buf p v p' : read_u64 buf p = Some (v, p') -> parsed buf p (u64_le v) p' /\ is_u64 v.
Proof.
  intros [H Hv]%(parsed_le_num 8). split; [done|]. change (v < 18446744073709551616)%N in Hv.
  unfold is_u64, u64_max. lia.
Qed.
Lemma parsed_u32 buf p v p' : read_u32 buf p = Some (v, p') -> parsed buf p (u32_le v) p' /\ is_u32 v.
Proof.
  intros [H Hv]%(parsed_le_num 4). split; [done|]. change (v < 4294967296)%N in Hv.
  unfold is_u32, u32_max. lia.
Qed.
Lemma parsed_u128 buf p v p' : read_u128 buf p = Some (v, p') -> parsed buf p (u128_le v) p' /\ is_u128 v.
Proof.
  intros [H Hv]%(parsed_le_num 16). split; [done|].
  change (v < 340282366920938463463374607431768211456)%N in Hv. unfold is_u128, u128_max. lia.
Qed.

(** A whole buffer parsed from its start is the bytes followed by a rest. *)
Lemma parsed_whole buf bs p : parsed buf 0 bs p -> buf = bs ++ drop p buf.
Proof.
  intros [E H]. unfold get_range in H. case_bool_decide; [|done]. injection H as H.
  rewrite Nat.sub_0_r, drop_0 in H. rewrite <-(take_drop p buf) at 1. by rewrite H.
Qed.

(** The cursor of a successful read stays within the buffer. *)
Definition bounded {A} (r : reader A) : Prop :=
  forall buf p a p', p <= length buf -> r buf p = Some (a, p') -> p <= p' <= length buf.

Lemma bounded_ret {A} (a : A) : bounded (mret a).
Proof. intros buf p b p' Hp [= <- <-]. lia. Qed.

Lemma bounded_fail {A} : bounded (@read_fail A).
Proof. intros buf p b p' Hp [=]. Qed.

Lemma bounded_bind {A B} (r : reader A) (k : A -> reader B) :
  bounded r -> (forall a, bounded (k a)) -> bounded (a ← r; k a).
Proof.
  intros Hr Hk buf p b p' Hp. unfold mbind, reader_bind.
  destruct (r buf p) as [[a q]|] eqn:E; [|done]. intros E2.
  apply Hr in E; [|done]. apply Hk in E2; [|lia]. lia.
Qed.

Lemma bounded_many {A} n (r : reader A) : bounded r -> bounded (read_many n r).
Proof.
  intros Hr. induction n; simpl; [apply bounded_ret|].
  apply bounded_bind; [done|]. intros a. apply bounded_bind; [done|].
  intros l. apply bounded_ret.
Qed.

(** Elements read one after another are the concatenation of their bytes. *)
Lemma parsed_many {A} (r : reader A) (e : A -> list byte) (wf : A -> Prop) n buf p l p' :
  (forall buf p a p', r buf p = Some (a, p') -> parsed buf p (e a) p' /\ wf a) ->
  p <= length buf -> read_many n r buf p = Some (l, p') ->
  parsed buf p (concat (map e l)) p' /\ length l = n /\ Forall wf l.
Proof.
  intros Hr. revert p l p'. induction n as [|n IH]; intros p l p' Hp; simpl.
  { intros [= <- <-]. split; [by apply parsed_nil | by split]. }
  unfold mbind, reader_bind. destruct (r buf p) as [[a p1]|] eqn:E1; [|done].
  destruct (read_many n r buf p1) as [[l' p2]|] eqn:E2; [|done].
  intros [= <- <-]. apply Hr in E1 as [H1 Hwf]. pose proof (parsed_le _ _ _ _ H1).
  apply IH in E2 as (H2 & Hl & Hall); [|lia]. simpl.
  split; [by eapply parsed_app | split; [by f_equal | by constructor]].
Qed.

(** Join the pieces in the context into one parse. *)
Ltac parsed_seq :=
  repeat first [ eassumption | eapply parsed_app; [eassumption|]
               | eapply parsed_cons; [eassumption|] ].

(** Step through one reader of a hypothesis [H : (r >>= k) buf p = Some ..]. *)
Ltac step_reader H :=
  unfold mbind, reader_bind in H;
  lazymatch type of H with
  | match ?r ?buf ?p with _ => _ end = Some _ =>
      let E := fresh "E" in destruct (r buf p) as [[? ?]|] eqn:E; [|discriminate H]
  end.

#[export] Hint Resolve reads_arr reads_byte reads_u64 reads_u32 reads_u128 : foculus.
#[export] Hint Resolve reads_ret reads_bind_ret bounded_ret bounded_fail bounded_bind
  bounded_many : foculus.

#[global] Arguments le_bytes : simpl never.
#[global] Arguments le_num : simpl never.
#[global] Arguments u64_le : simpl never.
#[global] Arguments u32_le : simpl never.
#[global] Arguments u128_le : simpl never.
#[global] Arguments u8_of_i8 : simpl never.
#[global] Arguments i8_of_u8 : simpl never.
#[global] Arguments arr_rep : simpl never.
#[global] Arguments zero32 : simpl never.

#[global] Opaque u64_le u32_le u128_le.

(** ** Injectivity of concatenated encodings *)

(** Encodings of one fixed width: equally many of them split uniquely. *)
Lemma concat_fixed_inj {A} (e : A -> list byte) (k : nat) l1 l2 r1 r2 :
  (forall a, length (e a) = k) -> length l1 = length l2 ->
  concat (map e l1) ++ r1 = concat (map e l2) ++ r2 ->
  Forall2 (fun a b => e a = e b) l1 l2 /\ r1 = r2.
Proof.
  intros He. revert l2; induction l1 as [|a l1 IH]; intros [|b l2]; simpl; try done.
  intros [= Hl]. rewrite <-!app_assoc. intros E.
  apply app_inj_1 in E as [Hab E]; [|by rewrite !He].
  destruct (IH l2 Hl E) as [? ?]. split; [by constructor | done].
Qed.

(** A prefix code: an encoding followed by anything determines its value. *)
Definition prefix_code {A} (e : A -> list byte) : Prop :=
  (forall a, e a <> []) /\
  forall a b r1 r2, e a ++ r1 = e b ++ r2 -> e a = e b /\ r1 = r2.

Lemma concat_prefix_inj {A} (e : A -> list byte) l1 l2 :
  prefix_code e -> concat (map e l1) = concat (map e l2) ->
  Forall2 (fun a b => e a = e b) l1 l2.
Proof.
  intros [Hne He]. revert l2; induction l1 as [|a l1 IH]; intros [|b l2]; simpl; intros E.
  - constructor.
  - symmetry in E. apply app_eq_nil in E as [E _]. by apply Hne in E.
  - apply app_eq_nil in E as [E _]. by apply Hne in E.
  - apply He in E as [Hab E]. constructor; [done | by apply IH].
Qed.

Lemma concat_fixed_length {A} (e : A -> list byte) (k : nat) l :
  (forall a, length (e a) = k) -> length (concat (map e l)) = length l * k.
Proof.
  intros He. induction l as [|a l IH]; simpl; [done|]. rewrite length_app, He, IH. lia.
Qed.

(** Splitting an equation between concatenations whose heads are arrays or
    little-endian integers, left to right. *)
Ltac split_bytes H :=
  repeat (rewrite <-?app_assoc in H;
          let H1 := fresh H in
          apply app_inj_1 in H as [H1 H];
          [| by rewrite ?arr_length, ?u64_le_length, ?u32_le_length, ?u128_le_length]).

(** ** Readers of a fixed width *)

(** [r] consumes exactly [k] bytes and succeeds whenever they are there. *)
Definition fixed_read {A} (r : reader A) (k : nat) : Prop :=
  forall buf p, p + k <= length buf -> exists a, r buf p = Some (a, p + k).

Lemma fixed_bytes n : fixed_read (read_bytes n) n.
Proof. intros buf p Hp. unfold read_bytes, get_range. rewrite bool_decide_eq_true_2 by lia. simpl. eauto. Qed.

Lemma fixed_ret {A} (a : A) : fixed_read (mret a) 0.
Proof. intros buf p _. rewrite Nat.add_0_r. by exists a. Qed.

Lemma fixed_bind {A B} (r : reader A) (f : A -> reader B) k1 k2 :
  fixed_read r k1 -> (forall a, fixed_read (f a) k2) -> fixed_read (a ← r; f a) (k1 + k2).
Proof.
  intros Hr Hf buf p Hp. destruct (Hr buf p ltac:(lia)) as [a Ha]. unfold mbind, reader_bind. rewrite Ha.
  rewrite Nat.add_assoc. apply Hf. lia.
Qed.

Lemma fixed_bind_ret {A B} (r : reader A) (f : A -> B) k : fixed_read r k -> fixed_read (a ← r; mret (f a)) k.
Proof. intros Hr. rewrite <-(Nat.add_0_r k). apply fixed_bind; [done|]. intros a. apply fixed_ret. Qed.

Lemma fixed_arr n : fixed_read (read_arr n) n.
Proof.
  intros buf p Hp. unfold read_arr, mbind, reader_bind.
  destruct (fixed_bytes n buf p Hp) as [s Hs]. rewrite Hs. unfold read_opt.
  destruct (proj2 (list_to_arr_is_Some n s)) as [a ->]; [|simpl; eauto].
  by apply parsed_bytes in Hs as [_ ?].
Qed.

Lemma fixed_u32 : fixed_read read_u32 4.
Proof. apply fixed_bind_ret, fixed_bytes. Qed.
Lemma fixed_u64 : fixed_read read_u64 8.
Proof. apply fixed_bind_ret, fixed_bytes. Qed.

Lemma fixed_many {A} n (r : reader A) k : fixed_read r k -> fixed_read (read_many n r) (n * k).
Proof.
  intros Hr. induction n as [|n IH]; simpl; [apply fixed_ret|].
  apply fixed_bind; [done|]. intros a. by apply fixed_bind_ret.
Qed.

#[export] Hint Resolve fixed_ret fixed_bind fixed_bind_ret fixed_arr fixed_u32 fixed_u64 fixed_many : foculus.

(** A local reader stays within the buffer, and bytes after the buffer do not
    change what it read. *)
Definition local_read {A} (r : reader A) : Prop :=
  forall buf p a p', p <= length buf -> r buf p = Some (a, p') ->
    p <= p' <= length buf /\ forall ext, r (buf ++ ext) p = Some (a, p').

Lemma local_ret {A} (a : A) : local_read (mret a).
Proof. intros buf p b p' Hp [= <- <-]. split; [lia|done]. Qed.

Lemma local_fail {A} : local_read (@read_fail A).
Proof. intros buf p b p' Hp [=]. Qed.

Lemma local_bind {A B} (r : reader A) (k : A -> reader B) :
  local_read r -> (forall a, local_read (k a)) -> local_read (a ← r; k a).
Proof.
  intros Hr Hk buf p b p' Hp. unfold mbind, reader_bind.
  destruct (r buf p) as [[a q]|] eqn:E; [|done]. intros E2.
  destruct (Hr _ _ _ _ Hp E) as [Hq Hx]. destruct (Hk a _ _ _ _ (proj2 Hq) E2) as [Hq' Hx'].
  split; [lia|]. intros ext. by rewrite Hx, Hx'.
Qed.

Lemma local_bytes n : local_read (read_bytes n).
Proof.
  intros buf p s p' Hp. unfold read_bytes, get_range. case_bool_decide as Hr; simpl; [|done].
  intros [= <- <-]. split; [lia|]. intros ext. rewrite bool_decide_eq_true_2 by (rewrite length_app; lia). simpl.
  rewrite drop_app_le by lia. rewrite take_app_le by (rewrite length_drop; lia). done.
Qed.

Lemma local_opt {A} (o : option A) : local_read (read_opt o).
Proof. intros buf p a p' Hp. unfold read_opt. destruct o; simpl; [|done]. intros [= <- <-]. split; [lia|done]. Qed.

Lemma local_byte : local_read read_byte.
Proof.
  intros buf p b p' Hp. unfold read_byte. destruct (buf !! p) as [c|] eqn:E; simpl; [|done]. intros [= <- <-].
  pose proof (lookup_lt_Some _ _ _ E). split; [lia|]. intros ext. by rewrite (lookup_app_l_Some _ _ _ _ E).
Qed.

Lemma local_arr n : local_read (read_arr n).
Proof. apply local_bind; [apply local_bytes|]. intros s. apply local_opt. Qed.
Lemma local_u32 : local_read read_u32.
Proof. apply local_bind; [apply local_bytes|]. intros s. apply local_ret. Qed.
Lemma local_u64 : local_read read_u64.
Proof. apply local_bind; [apply local_bytes|]. intros s. apply local_ret. Qed.
Lemma local_u128 : local_read read_u128.
Proof. apply local_bind; [apply local_bytes|]. intros s. apply local_ret. Qed.

Lemma local_many {A} n (r : reader A) : local_read r -> local_read (read_many n r).
Proof.
  intros Hr. induction n as [|n IH]; simpl; [apply local_ret|].
  apply local_bind; [done|]. intros a. apply local_bind; [done|]. intros l. apply local_ret.
Qed.

Create HintDb readers.
#[export] Hint Resolve local_ret local_fail local_bind local_opt local_byte local_arr local_u32 local_u64 local_u128
  local_many : readers.

(** A reader that, when it succeeds, has taken exactly [k] bytes. *)
Definition takes {A} (r : reader A) (k : nat) : Prop :=
  forall buf p a p', p <= length buf -> r buf p = Some (a, p') -> p' = p + k /\ p' <= length buf.

(** A local reader that succeeds on [k] available bytes by taking them takes
    [k] bytes whenever it succeeds: the others could have been appended. *)
Lemma fixed_takes {A} (r : reader A) k : local_read r -> fixed_read r k -> takes r k.
Proof.
  intros Hl Hf buf p a p' Hp E. destruct (Hl _ _ _ _ Hp E) as [Hq Hx].
  destruct (Hf (buf ++ replicate k x00) p) as [b Hb]; [rewrite length_app, length_replicate; lia|].
  rewrite (Hx (replicate k x00)) in Hb. injection Hb as _ ->. split; [done | lia].
Qed.

Lemma takes_many {A} n (r : reader A) k buf p l p' :
  takes r k -> p <= length buf -> read_many n r buf p = Some (l, p') ->
  length l = n /\ p' = p + n * k /\ p' <= length buf.
Proof.
  intros Hr. revert p l p'. induction n as [|n IH]; intros p l p' Hp; simpl.
  { intros [= <- <-]. split; [done|]. split; lia. }
  unfold mbind, reader_bind, mret, reader_ret. destruct (r buf p) as [[a q]|] eqn:E; [|done].
  destruct (Hr _ _ _ _ Hp E) as [-> Hq]. destruct (read_many n r buf (p + k)) as [[l' q']|] eqn:El; [|done].
  intros [= <- <-]. destruct (IH _ _ _ Hq El) as (Hl & -> & Hb). simpl. split; [by f_equal|]. lia.
Qed.
