(* ===== verification/Externals.v ===== *)
(** * Externals: the interfaces of the crates foculus calls

    The hash ([cyber_hemera]), the field ([nebu]), the fixed-point numbers and
    the focusing kernel ([tru]), the folding prover ([zheng]), the reward
    conservation step ([tok]) and the tape framing ([tape]) are not part of
    this repository.  Each is a class of operations; what the code relies on
    is a separate class of laws, assumed only by the theorems that use it.
    The data records below are those whose fields the source writes out in
    full ([tru::Link], [bbg::Checkpoint], [bbg::IntentRecord],
    [zheng::Statement]). *)

From S2P Require Import Prelude Order Bytes.
From Stdlib Require Import Ring_theory.

(** ** cyber_hemera *)

Class Hemera := {
  (** [cyber_hemera::hash]; a [Hash] is its 32 bytes. *)
  hemera_hash : list byte -> particle;
  (** [cyber_hemera::tree::root_hash]. *)
  tree_root_hash : list byte -> particle;
  (** [Hash::to_hex] and the [{:?}] rendering. *)
  to_hex : particle -> string;
  hash_debug : particle -> string
}.

(** [first_chunk::<8>] of a digest as an integer, little- or big-endian. *)
Definition digest_le (h : particle) : N := le_num (take 8 (arr_bytes h)).
Definition digest_be (h : particle) : N := be_num (take 8 (arr_bytes h)).

(** Two different byte strings with the same hash. *)
Definition collides {HM : Hemera} (x y : list byte) : Prop :=
  x <> y /\ hemera_hash x = hemera_hash y.
Definition tree_collides {HM : Hemera} (x y : list byte) : Prop :=
  x <> y /\ tree_root_hash x = tree_root_hash y.

(** [to_hex] renders 32 bytes as 64 hexadecimal digits, injectively. *)
Class HexLaws {HM : Hemera} : Prop := {
  to_hex_inj :: Inj (=) (=) to_hex;
  to_hex_length : forall h, String.length (to_hex h) = 64
}.

(** ** nebu: the Goldilocks field *)

Class Nebu := {
  gf : Type;
  gf_dec :: EqDecision gf;
  gf_new : N -> gf;
  gf_as_u64 : gf -> N;
  gf_zero : gf;
  gf_one : gf;
  gf_add : gf -> gf -> gf;
  gf_sub : gf -> gf -> gf;
  gf_mul : gf -> gf -> gf;
  gf_neg : gf -> gf;
  gf_inv : gf -> gf;
  gf_square : gf -> gf;
  gf_is_zero : gf -> bool;
  gf_exp : gf -> N -> gf;
  (** [nebu::field::P]. *)
  gf_P : N
}.

(** [as_u64] is the canonical representative below [P = 2^64 - 2^32 + 1],
    [new] reduces, and the operations are those of the prime field. *)
Class NebuLaws {NB : Nebu} : Prop := {
  gf_P_value : gf_P = 18446744069414584321%N;
  gf_as_u64_lt : forall x, (gf_as_u64 x < gf_P)%N;
  gf_new_as_u64 : forall x, gf_new (gf_as_u64 x) = x;
  gf_as_u64_new : forall v, is_u64 v -> gf_as_u64 (gf_new v) = (v mod gf_P)%N;
  gf_new_add : forall v w, is_u64 (v + w) -> gf_new (v + w) = gf_add (gf_new v) (gf_new w);
  gf_new_0 : gf_new 0 = gf_zero;
  gf_new_1 : gf_new 1 = gf_one;
  gf_ring : ring_theory gf_zero gf_one gf_add gf_mul gf_sub gf_neg (=);
  gf_one_neq_zero : gf_one <> gf_zero;
  gf_inv_l : forall x, x <> gf_zero -> gf_mul (gf_inv x) x = gf_one;
  gf_square_mul : forall x, gf_square x = gf_mul x x;
  gf_is_zero_spec : forall x, gf_is_zero x = true <-> x = gf_zero;
  gf_exp_0 : forall x, gf_exp x 0 = gf_one;
  gf_exp_succ : forall x n, gf_exp x (N.succ n) = gf_mul x (gf_exp x n);
  gf_fermat : forall x, x <> gf_zero -> gf_exp x (gf_P - 1) = gf_one;
  gf_exp_seven : gf_exp (gf_new 7) ((gf_P - 1) / 2) = gf_neg gf_one
}.

(** Evaluation of a coefficient list (lowest degree first). *)
Definition gf_eval {NB : Nebu} (p : list gf) (x : gf) : gf :=
  foldr (fun c acc => gf_add c (gf_mul x acc)) gf_zero p.

(** The primitive [n]-th root of unity [7^((P-1)/n)]. *)
Definition gf_omega {NB : Nebu} (n : nat) : gf :=
  gf_exp (gf_new 7) ((gf_P - 1) / N.of_nat n).

(** [nebu::ntt]: the transforms, in place on a slice. *)
Class Ntt {NB : Nebu} := {
  ntt : list gf -> list gf;
  intt : list gf -> list gf
}.

(** [ntt] evaluates a polynomial at the powers of [omega], [intt] undoes it,
    for a length that is a power of two dividing [P - 1]. *)
Class NttLaws {NB : Nebu} {NT : Ntt} : Prop := {
  ntt_spec : forall m p, (m <= 32) -> length p = 2 ^ m ->
    ntt p = map (fun i => gf_eval p (gf_exp (gf_omega (2 ^ m)) (N.of_nat i))) (seq 0 (2 ^ m));
  intt_length : forall p, length (intt p) = length p;
  intt_ntt : forall m p, (m <= 32) -> length p = 2 ^ m -> intt (ntt p) = p
}.

(** ** tru: fixed-point numbers *)

Class Fixed {NB : Nebu} := {
  fx : Type;
  fx_dec :: EqDecision fx;
  fx_zero : fx;
  fx_one : fx;
  fx_add : fx -> fx -> fx;
  fx_sub : fx -> fx -> fx;
  fx_mul : fx -> fx -> fx;
  fx_div : fx -> fx -> fx;
  fx_from_int : Z -> fx;
  fx_from_ratio : Z -> Z -> fx;
  fx_ln : fx -> fx;
  fx_floor : fx -> Z;
  fx_raw : fx -> gf;
  fx_from_raw : gf -> fx;
  (** [<] and [<=] of [PartialOrd]; [>] and [>=] are their converses. *)
  fx_ltb : fx -> fx -> bool;
  fx_leb : fx -> fx -> bool
}.

Class FxRawLaws {NB : Nebu} {FX : Fixed} : Prop := {
  fx_from_raw_raw : forall x, fx_from_raw (fx_raw x) = x;
  fx_raw_from_raw : forall g, fx_raw (fx_from_raw g) = g
}.

(** Addition is that of the field: a commutative group. *)
Class FxAddLaws {NB : Nebu} {FX : Fixed} : Prop := {
  fx_add_comm : forall x y, fx_add x y = fx_add y x;
  fx_add_assoc : forall x y z, fx_add x (fx_add y z) = fx_add (fx_add x y) z;
  fx_add_0_l : forall x, fx_add fx_zero x = x;
  fx_sub_add : forall x y, fx_add (fx_sub x y) y = x
}.

(** Comparison is a total order. *)
Class FxOrdLaws {NB : Nebu} {FX : Fixed} : Prop := {
  fx_leb_ltb : forall x y, fx_leb x y = negb (fx_ltb y x);
  fx_ltb_irrefl : forall x, fx_ltb x x = false;
  fx_ltb_trans : forall x y z, fx_ltb x y = true -> fx_ltb y z = true -> fx_ltb x z = true;
  fx_ltb_total : forall x y, fx_ltb x y = false -> fx_ltb y x = false -> x = y
}.

(** ** tru: links and the focusing kernel *)

(** [tru::Link]. *)
Record link {NB : Nebu} {FX : Fixed} := mk_link {
  l_neuron : particle;
  l_from : particle;
  l_to : particle;
  l_amount : N;
  l_valence : Z;
  l_price : fx
}.

(** [tru::Report], the input of [bts_scores]. *)
Record report {NB : Nebu} {FX : Fixed} := mk_report {
  rp_neuron : particle;
  rp_belief : fx;
  rp_prediction : fx
}.

Class Tru {NB : Nebu} {FX : Fixed} := {
  context : Type;
  context_none : context;
  focusing_params : Type;
  params_default : focusing_params;
  params_epsilon : focusing_params -> fx;
  (** [Link::stake(from, to, amount)]. *)
  link_stake : particle -> particle -> N -> link;
  (** [impulse(base, batch, ctx, params, eps).directed]. *)
  impulse_directed : list link -> list link -> context -> focusing_params -> fx -> fx;
  propose : list link -> list link -> context -> focusing_params -> fx;
  bts_scores : list report -> list fx;
  surprise_of : fx -> fx -> fx;
  (** [FocusingGraph::build], its [node_ids] and [compute_focusing(..).focus]. *)
  focusing_graph : Type;
  build_graph : list link -> context -> focusing_graph;
  graph_node_ids : focusing_graph -> list particle;
  compute_focus : focusing_graph -> focusing_params -> list fx
}.

(** The focus vector has one entry per node, the scores one per report. *)
Class TruLaws {NB : Nebu} {FX : Fixed} {TR : Tru} : Prop := {
  compute_focus_length : forall g p, length (compute_focus g p) = length (graph_node_ids g);
  bts_scores_length : forall rs, length (bts_scores rs) = length rs
}.

(** ** zheng: folding, deciding, verifying *)

(** [zheng::types::Statement]. *)
Record statement := mk_statement {
  st_program_hash : particle;
  st_input_hash : particle;
  st_output_hash : particle;
  st_focus_bound : N;
  st_bbg_root : particle
}.

Class Zheng {NB : Nebu} := {
  accumulator : Type;
  zproof : Type;
  transcript : Type;
  ccs_witness : Type;
  (** [Accumulator::blank(universal_ccs())], [Transcript::new()]. *)
  blank_acc : accumulator;
  transcript_new : transcript;
  step_count : accumulator -> N;
  (** [universal_witness(regs_t, regs_t1, None)]. *)
  universal_witness : list gf -> list gf -> ccs_witness;
  (** [fold(&mut acc, universal_ccs(), witness, &mut transcript)]: the
      accumulator and transcript afterwards, and whether it returned [Ok]. *)
  zfold : accumulator -> ccs_witness -> transcript -> accumulator * transcript * bool;
  (** [decide(acc, statement, default).ok()]. *)
  zdecide : accumulator -> statement -> option zproof;
  (** [verify] of the one-group trace proof [(proof, acc)]. *)
  zverify : accumulator -> zproof -> statement -> bool;
  proof_commitment : zproof -> list byte;
  proof_eval_value : zproof -> gf
}.

(** Folding counts its steps, and a decided non-empty accumulator verifies. *)
Class ZhengLaws {NB : Nebu} {ZH : Zheng} : Prop := {
  step_count_blank : step_count blank_acc = 0%N;
  step_count_fold : forall a w t a' t', zfold a w t = (a', t', true) ->
    step_count a' = N.succ (step_count a);
  zdecide_verifies : forall a s p, zdecide a s = Some p -> zverify a p s = true
}.

(** [zheng::phi]: proofs of a focus fixed point over a sparse graph. *)
Class Phi {NB : Nebu} := {
  phi_proof : Type;
  sparse_graph : Type;
  phi_params : Type;
  (** [proof.statement.phi_star_hash]. *)
  phi_star_hash : phi_proof -> particle;
  (** [verify_phi_star(transition, sym, degree, teleport, phi0, proof, params)]. *)
  verify_phi_star : sparse_graph -> sparse_graph -> list gf -> list gf -> list gf -> phi_proof -> phi_params -> bool
}.

(** ** bbg *)

(** [bbg::Checkpoint]. *)
Record checkpoint {NB : Nebu} {ZH : Zheng} := mk_checkpoint {
  ck_root : particle;
  ck_acc : option accumulator;
  ck_height : N
}.

(** [bbg::IntentRecord]. *)
Record intent_record := mk_intent {
  it_neuron : particle;
  it_h0 : N;
  it_scope_hash : particle;
  it_signature : arr 64
}.

(** ** tok *)

Inductive conserve_error := CEmpty | CNoPositiveShare | CBudgetZero.

Class Tok {NB : Nebu} {FX : Fixed} := {
  (** [tok::clip_shares]. *)
  clip_shares : list (particle * fx) -> fx -> result conserve_error (list (particle * fx));
  (** [tok::MintLedger] and [tok::execute_settle_mints(ledger, token, shares,
      total, scale, budget, hash)]: the ledger afterwards and the outcome. *)
  mint_ledger : Type;
  token_id : Type;
  mint_receipt : Type;
  mint_error : Type;
  execute_settle_mints : mint_ledger -> token_id -> list (particle * fx) -> fx -> N -> N -> particle ->
    mint_ledger * result mint_error mint_receipt
}.

(** ** tape *)

(** One [tape::Chunk] and the result of [Reader::next_chunk]: a reader over
    a fed buffer is the list of bytes it has not consumed. *)
Record chunk := mk_chunk { ch_sigil : byte; ch_render : byte; ch_payload : list byte }.

Class Tape := {
  tape_state : Type;
  (** [Reader::new()] then [feed(bytes)]. *)
  tape_feed : list byte -> tape_state;
  (** [next_chunk]: the chunk and the remaining state, or [None] for
      [Pending] and [Eof]. *)
  next_chunk : tape_state -> option (chunk * tape_state);
  (** [Chunk::encode]. *)
  chunk_encode : chunk -> list byte;
  sigil_ZAP : byte;
  sigil_KET : byte;
  (** Bytes fed and not yet consumed: the measure of the decoding loops. *)
  tape_size : tape_state -> nat
}.

(** A fed stream is finite ([next_chunk] consumes input), its frames are
    self-delimiting, and the two sigils differ. *)
Class TapeLaws {TP : Tape} : Prop := {
  next_chunk_decreases : forall s c s', next_chunk s = Some (c, s') -> tape_size s' < tape_size s;
  next_chunk_encode : forall c rest,
    next_chunk (tape_feed (chunk_encode c ++ rest)) = Some (c, tape_feed rest);
  next_chunk_nil : next_chunk (tape_feed []) = None;
  sigils_differ : sigil_ZAP <> sigil_KET
}.

Arguments mk_link {NB FX} _ _ _ _ _ _.
Arguments mk_report {NB FX} _ _ _.
Arguments mk_checkpoint {NB ZH} _ _ _.
