(* ===== verification/Goldilocks.v ===== *)
(** * Goldilocks: a concrete field for the [Nebu] interface

    The integers modulo [P = 2^64 - 2^32 + 1], with the primality of [P]
    (Proth's criterion with base 7).  The laws of [NebuLaws] hold of it, so
    every theorem that assumes them can be instantiated. *)

From S2P Require Import Prelude Order Bytes Externals.
From Stdlib Require Import ZArith Znumtheory Ring_theory Field_theory Zmod.

Definition gl_P : Z := 18446744069414584321%Z.

Abbreviation gl := (Zmod gl_P).

(** ** Primality *)

Section two_power.
Context {m : Z} (y : Zmod m) (e : nat).
Hypothesis y_half : Zmod.pow y (2 ^ Z.of_nat e) = Zmod.opp Zmod.one.
Hypothesis one_ne : Zmod.opp Zmod.one <> Zmod.one :> Zmod m.

Lemma pow_opp_one_odd (k : nat) : Zmod.pow (Zmod.opp Zmod.one : Zmod m) (2 * Z.of_nat k + 1) = Zmod.opp Zmod.one.
Proof.
  rewrite Zmod.pow_add_r_nonneg, Zmod.pow_mul_r_nonneg, Zmod.pow_1_r by lia.
  rewrite Zmod.pow_opp_2, !Zmod.pow_1_l. apply Zmod.mul_1_l.
Qed.

(** An exponent that [y] kills is divisible by [2^(e+1)]. *)
Lemma two_power_divides (n : Z) (i : nat) :
  (0 <= n)%Z -> Zmod.pow y n = Zmod.one -> (i <= S e)%nat -> (2 ^ Z.of_nat i | n)%Z.
Proof.
  intros Hn Hy. induction i as [|i IH]; intros Hi.
  { exists n. simpl. lia. }
  destruct IH as [k Hk]; [lia|].
  destruct (Z.Even_or_Odd k) as [[k' ->]|[k' ->]].
  { exists k'. rewrite Hk, Nat2Z.inj_succ, Z.pow_succ_r; lia. }
  exfalso. apply one_ne.
  assert (0 <= k')%Z as Hk' by (pose proof (Z.pow_pos_nonneg 2 (Z.of_nat i)); nia).
  rewrite <-(pow_opp_one_odd (Z.to_nat k')), Z2Nat.id by lia.
  rewrite <-y_half, <-Zmod.pow_mul_r_nonneg by lia.
  replace (2 ^ Z.of_nat e * (2 * k' + 1))%Z with (n * 2 ^ (Z.of_nat e - Z.of_nat i))%Z.
  - rewrite Zmod.pow_mul_r_nonneg, Hy by lia. apply Zmod.pow_1_l.
  - rewrite Hk. replace (Z.of_nat e) with (Z.of_nat i + (Z.of_nat e - Z.of_nat i))%Z at 2 by lia.
    rewrite Z.pow_add_r by lia. ring.
Qed.
End two_power.

(** Every composite number has a prime divisor at most its square root. *)
Lemma prime_divisor_exists (n : Z) : (1 < n)%Z -> exists q, Z.prime q /\ (q | n)%Z.
Proof.
  intros Hn. pattern n. revert n Hn.
  refine (well_founded_ind (Z.lt_wf 0) _ _). intros n IH Hn.
  destruct (prime_dec n) as [Hp|Hnp].
  { exists n. split; [by apply prime_alt | apply Z.divide_refl]. }
  destruct (not_prime_divide n Hn Hnp) as (d & Hd & Hdn).
  destruct (IH d ltac:(lia) ltac:(lia)) as (q & Hq & Hqd).
  exists q. split; [done|]. by apply (Z.divide_trans _ d).
Qed.

Lemma small_prime_divisor (n : Z) :
  (1 < n)%Z -> ~ Z.prime n -> exists q, Z.prime q /\ (q | n)%Z /\ (q * q <= n)%Z.
Proof.
  intros Hn Hnp.
  destruct (not_prime_divide n Hn) as (d & Hd & [c Hc]).
  { by rewrite <-prime_alt. }
  assert (exists d', (1 < d')%Z /\ (d' | n)%Z /\ (d' * d' <= n)%Z) as (d' & H1 & H2 & H3).
  { destruct (Z.le_gt_cases d c) as [Hle|Hgt].
    - exists d. split; [lia|]. split; [by exists c | nia].
    - exists c. split; [nia|]. split; [exists d; lia | nia]. }
  destruct (prime_divisor_exists d' H1) as (q & Hq & Hqd).
  exists q. split; [done|]. split; [by apply (Z.divide_trans _ d')|].
  apply Z.divide_pos_le in Hqd; [|lia]. destruct Hq. nia.
Qed.

Lemma seven_half : Zmod.unsigned (Zmod.pow (Zmod.of_Z gl_P 7) ((gl_P - 1) / 2)) = (gl_P - 1)%Z.
Proof. vm_compute. reflexivity. Qed.

Lemma seven_half_mod : (7 ^ ((gl_P - 1) / 2) mod gl_P = gl_P - 1)%Z.
Proof.
  rewrite <-seven_half at 2. rewrite Zmod.unsigned_pow_nonneg_r.
  - by rewrite Zmod.unsigned_of_Z_small.
  - by vm_compute.
Qed.

Lemma seven_half_divisor (q : Z) : Z.prime q -> (q | gl_P)%Z ->
  Zmod.pow (Zmod.of_Z q 7) ((gl_P - 1) / 2) = Zmod.opp Zmod.one.
Proof.
  intros Hq Hdiv.
  assert (0 <= (gl_P - 1) / 2)%Z as Hpos by done.
  apply Zmod.unsigned_inj.
  rewrite <-Zmod.of_Z_pow, Zmod.unsigned_of_Z by done.
  rewrite <-Zmod.of_Z_1, <-Zmod.of_Z_opp, Zmod.unsigned_of_Z.
  pose proof (Z.div_mod (7 ^ ((gl_P - 1) / 2)) gl_P ltac:(done)) as E.
  rewrite seven_half_mod in E.
  revert E. generalize (7 ^ ((gl_P - 1) / 2))%Z as a. intros a E.
  destruct Hdiv as [c Hc]. destruct Hq as [Hq _].
  rewrite E, Hc.
  replace (c * q * (a / (c * q)) + (c * q - 1))%Z with (- (1) + (c * (a / (c * q)) + c) * q)%Z by ring.
  by rewrite Z_mod_plus_full.
Qed.

Lemma gl_P_prime : Z.prime gl_P.
Proof.
  destruct (prime_dec gl_P) as [Hp|Hnp]; [by apply prime_alt|].
  exfalso. rewrite <-prime_alt in Hnp.
  destruct (small_prime_divisor gl_P ltac:(done) Hnp) as (q & Hq & Hdiv & Hsq).
  pose proof (seven_half_divisor q Hq Hdiv) as Hhalf.
  set (y := Zmod.pow (Zmod.of_Z q 7) 4294967295).
  assert (Zmod.pow y (2 ^ Z.of_nat 31) = Zmod.opp Zmod.one) as Hy.
  { unfold y. rewrite <-Zmod.pow_mul_r_nonneg by lia. exact Hhalf. }
  assert (2 < q)%Z as Hq2.
  { pose proof (Z.prime_ge_2 q Hq). assert (q <> 2)%Z; [|lia]. intros ->.
    destruct Hdiv as [c Hc]. unfold gl_P in Hc. lia. }
  assert (Zmod.opp Zmod.one <> Zmod.one :> Zmod q) as Hone.
  { intros E%(f_equal Zmod.unsigned).
    rewrite <-Zmod.of_Z_1, <-Zmod.of_Z_opp, !Zmod.unsigned_of_Z in E.
    rewrite (Z.mod_small 1) in E by lia.
    assert (-(1) mod q = q - 1)%Z as E2; [|lia].
    symmetry. apply (Z.mod_unique _ _ (-1)); lia. }
  assert (y <> Zmod.zero) as Hnz.
  { intros E. rewrite E in Hy. apply (f_equal Zmod.unsigned) in Hy.
    rewrite Zmod.unsigned_pow_nonneg_r in Hy by done. rewrite Zmod.unsigned_0 in Hy.
    rewrite Z.pow_0_l in Hy by done. rewrite Z.mod_0_l in Hy by lia.
    rewrite <-Zmod.of_Z_1, <-Zmod.of_Z_opp, Zmod.unsigned_of_Z in Hy.
    assert (-(1) mod q = q - 1)%Z as E2; [|lia].
    symmetry. apply (Z.mod_unique _ _ (-1)); lia. }
  pose proof (two_power_divides y 31 Hy Hone (Z.pred q) 32 ltac:(lia)
    (Zmod.fermat_nz y Hnz Hq) ltac:(lia)) as [k Hk].
  change (2 ^ Z.of_nat 32)%Z with 4294967296%Z in Hk. unfold gl_P in Hsq. nia.
Qed.

(** ** The instance *)

Definition gl_to_N (x : gl) : N := Z.to_N (Zmod.unsigned x).
Definition gl_of_N (v : N) : gl := Zmod.of_Z gl_P (Z.of_N v).
Definition gl_pow (x : gl) (n : N) : gl := Zmod.pow x (Z.of_N n).

#[global] Instance gl_eq_dec : EqDecision gl.
Proof.
  intros x y. destruct (decide (Zmod.unsigned x = Zmod.unsigned y)) as [E|E].
  - left. by apply Zmod.unsigned_inj.
  - right. congruence.
Defined.

Lemma gl_unsigned_range (x : gl) : (0 <= Zmod.unsigned x < gl_P)%Z.
Proof. by apply Zmod.unsigned_pos_bound. Qed.

Lemma gl_to_N_of_N v : gl_to_N (gl_of_N v) = (v mod 18446744069414584321)%N.
Proof.
  unfold gl_of_N, gl_to_N. rewrite Zmod.unsigned_of_Z.
  change gl_P with (Z.of_N 18446744069414584321). by rewrite <-N2Z.inj_mod, N2Z.id.
Qed.

#[global] Instance goldilocks : Nebu := {|
  gf := gl;
  gf_dec := gl_eq_dec;
  gf_new := gl_of_N;
  gf_as_u64 := gl_to_N;
  gf_zero := Zmod.zero;
  gf_one := Zmod.one;
  gf_add := Zmod.add;
  gf_sub := Zmod.sub;
  gf_mul := Zmod.mul;
  gf_neg := Zmod.opp;
  gf_inv := Zmod.inv;
  gf_square := fun x => Zmod.mul x x;
  gf_is_zero := fun x => Zmod.eqb x Zmod.zero;
  gf_exp := gl_pow;
  gf_P := 18446744069414584321
|}.

#[global] Instance goldilocks_laws : NebuLaws.
Proof.
  split; simpl.
  - done.
  - intros x. unfold gl_to_N. pose proof (gl_unsigned_range x). unfold gl_P in *. lia.
  - intros x. unfold gl_of_N, gl_to_N. pose proof (gl_unsigned_range x).
    rewrite Z2N.id by lia. apply Zmod.of_Z_unsigned.
  - intros v _. apply gl_to_N_of_N.
  - intros v w _. unfold gl_of_N. rewrite N2Z.inj_add. apply Zmod.of_Z_add.
  - apply Zmod.of_Z_0.
  - apply Zmod.of_Z_1.
  - apply Zmod.ring_theory.
  - intros E%(f_equal Zmod.unsigned). vm_compute in E. done.
  - intros x Hx. by apply Zmod.mul_inv_same_l_prime; [apply gl_P_prime|].
  - done.
  - intros x. destruct (Zmod.eqb_spec x Zmod.zero); naive_solver.
  - intros x. apply Zmod.pow_0_r.
  - intros x n. unfold gl_pow. rewrite N2Z.inj_succ, Zmod.pow_succ_nonneg_r; [done | lia].
  - intros x Hx. apply (Zmod.fermat_nz x Hx gl_P_prime).
  - apply Zmod.unsigned_inj. vm_compute. reflexivity.
Qed.
