(* ===== verification/Instances.v ===== *)
(** * Instances: executable stand-ins for the external crates

    Every class of [Externals] has a concrete instance here on which the
    model runs and on which its laws hold.  The theorems of the development
    are proved for any instance; these are used only to evaluate the model
    on examples and to show that the assumed laws can be met. *)

From S2P Require Import Prelude Order Bytes Externals Goldilocks.
From Stdlib Require Import ZArith Ring_theory.
From Stdlib Require Import Zmod.

(** ** Hash: a polynomial checksum of the bytes *)

Definition toy_hash (l : list byte) : particle :=
  arr_of_N 32 (fold_left (fun acc b => (acc * 257 + Byte.to_N b + 1) mod 18446744073709551616)%N l 7%N).

Definition hex_digit (v : N) : Ascii.ascii :=
  Ascii.ascii_of_N (if (v <? 10)%N then 48 + v else 87 + v)%N.

Fixpoint hex_of_bytes (l : list byte) : string :=
  match l with
  | [] => EmptyString
  | b :: l => String (hex_digit (Byte.to_N b / 16))
                (String (hex_digit (Byte.to_N b mod 16)) (hex_of_bytes l))
  end.

#[global] Instance toy_hemera : Hemera := {|
  hemera_hash := toy_hash;
  tree_root_hash := fun l => toy_hash (x2a :: l);
  to_hex := fun h => hex_of_bytes (arr_bytes h);
  hash_debug := fun h => ("Hash(" ++ hex_of_bytes (arr_bytes h) ++ ")")%string
|}.

(** ** Fixed point: the field, with 2^32 as one and the unsigned order *)

Definition toy_scale : Z := 4294967296%Z.

Definition gl_fx (z : Z) : gl := Zmod.of_Z gl_P z.
Definition gl_val (x : gl) : Z := Zmod.unsigned x.

#[global] Instance toy_fixed : Fixed := {|
  fx := gl;
  fx_dec := gl_eq_dec;
  fx_zero := Zmod.zero;
  fx_one := gl_fx toy_scale;
  fx_add := Zmod.add;
  fx_sub := Zmod.sub;
  fx_mul := fun x y => gl_fx (gl_val x * gl_val y / toy_scale);
  fx_div := fun x y => gl_fx (gl_val x * toy_scale / gl_val y);
  fx_from_int := fun n => gl_fx (n * toy_scale);
  fx_from_ratio := fun n d => gl_fx (n * toy_scale / d);
  fx_ln := fun x => gl_fx (Z.log2 (gl_val x / toy_scale) * toy_scale);
  fx_floor := fun x => (gl_val x / toy_scale)%Z;
  fx_raw := id;
  fx_from_raw := id;
  fx_ltb := fun x y => (gl_val x <? gl_val y)%Z;
  fx_leb := fun x y => (gl_val x <=? gl_val y)%Z
|}.

(** ** Focusing: stake-weighted in-degree *)

Definition toy_stake (links : list link) (p : particle) : Z :=
  fold_right (fun l acc => (if decide (l_to l = p) then Z.of_N (l_amount l) + acc else acc)%Z) 0%Z links.

Definition toy_impulse (batch : list link) : gl :=
  fold_right (fun l acc => Zmod.add (gl_fx (Z.of_N (l_amount l) * gl_val (l_price l))) acc)
    Zmod.zero batch.

#[global] Instance toy_tru : Tru := {|
  context := unit;
  context_none := tt;
  focusing_params := unit;
  params_default := tt;
  params_epsilon := fun _ => gl_fx 1;
  link_stake := fun from to amount => mk_link zero32 from to amount 1%Z (gl_fx toy_scale);
  impulse_directed := fun _ batch _ _ _ => toy_impulse batch;
  propose := fun _ batch _ _ => toy_impulse batch;
  bts_scores := fun rs => map (fun r => rp_belief r) rs;
  surprise_of := fun s s_max => gl_fx (gl_val s * toy_scale / gl_val s_max);
  focusing_graph := list link;
  build_graph := fun links _ => links;
  graph_node_ids := fun g => remove_dups (map l_from g ++ map l_to g);
  compute_focus := fun g _ =>
    map (fun p => gl_fx (toy_stake g p)) (remove_dups (map l_from g ++ map l_to g))
|}.

(** ** Folding: the accumulator is the list of folded witnesses *)

#[global] Instance toy_zheng : Zheng := {|
  accumulator := list (list gl);
  zproof := list (list gl) * statement;
  transcript := nat;
  ccs_witness := list gl;
  blank_acc := [];
  transcript_new := 0;
  step_count := fun a => N.of_nat (length a);
  universal_witness := fun r r' => r ++ r';
  zfold := fun a w t => (a ++ [w], S t, true);
  zdecide := fun a s => match a with [] => None | _ => Some (a, s) end;
  zverify := fun a p s => bool_decide (p.1 = a) &&
    bool_decide (st_input_hash p.2 = st_input_hash s /\ st_output_hash p.2 = st_output_hash s);
  proof_commitment := fun p => arr_bytes (st_output_hash p.2);
  proof_eval_value := fun p => gl_fx (Z.of_nat (length p.1))
|}.

(** ** Focus proofs: the hash alone *)

#[global] Instance toy_phi : Phi := {|
  phi_proof := particle;
  sparse_graph := unit;
  phi_params := unit;
  phi_star_hash := fun p => p;
  verify_phi_star := fun _ _ _ _ _ _ _ => true
|}.

(** ** Reward conservation: keep the shares, refuse an all-zero division *)

#[global] Instance toy_tok : Tok := {|
  clip_shares := fun raw total =>
    match raw with
    | [] => Err CEmpty
    | _ => if forallb (fun s => bool_decide (gl_val s.2 = 0)%Z) raw then Err CNoPositiveShare
           else Ok raw
    end;
  mint_ledger := list (particle * particle * N);
  token_id := particle;
  mint_receipt := N;
  mint_error := unit;
  execute_settle_mints := fun ledger token shares _ _ budget _ =>
    (ledger ++ map (fun s => (token, s.1, budget)) shares, Ok budget)
|}.

(** ** Tape: marker, sigil, render, unary length, payload *)

Fixpoint unary_split (l : list byte) : option (nat * list byte) :=
  match l with
  | x00 :: l => Some (0, l)
  | x01 :: l => '(n, r) ← unary_split l; Some (S n, r)
  | _ => None
  end.

Definition toy_next_chunk (l : list byte) : option (chunk * list byte) :=
  match l with
  | x1f :: s :: r :: rest =>
      '(n, body) ← unary_split rest;
      if bool_decide (n <= length body) then Some (mk_chunk s r (take n body), drop n body) else None
  | _ => None
  end.

#[global] Instance toy_tape : Tape := {|
  tape_state := list byte;
  tape_feed := id;
  next_chunk := toy_next_chunk;
  chunk_encode := fun c => [x1f; ch_sigil c; ch_render c]
    ++ replicate (length (ch_payload c)) x01 ++ [x00] ++ ch_payload c;
  sigil_ZAP := x21;
  sigil_KET := x5e;
  tape_size := length
|}.

(** ** The laws hold *)

#[global] Instance toy_fx_raw_laws : FxRawLaws.
Proof. by split. Qed.

#[global] Instance toy_fx_add_laws : FxAddLaws.
Proof.
  split; simpl; intros.
  - apply Zmod.add_comm.
  - apply Zmod.add_assoc.
  - apply Zmod.add_0_l.
  - pose proof (Zmod.ring_theory gl_P) as HR.
    rewrite (Rsub_def HR), <-(Radd_assoc HR), (Radd_comm HR (Zmod.opp y)), (Ropp_def HR).
    apply Zmod.add_0_r.
Qed.

#[global] Instance toy_fx_ord_laws : FxOrdLaws.
Proof.
  split; simpl; intros.
  - by rewrite Z.leb_antisym.
  - apply Z.ltb_irrefl.
  - rewrite Z.ltb_lt in *. lia.
  - rewrite Z.ltb_ge in *. apply Zmod.unsigned_inj. unfold gl_val in *. lia.
Qed.

#[global] Instance toy_tru_laws : TruLaws.
Proof. split; intros; simpl; by rewrite length_map. Qed.

#[global] Instance toy_zheng_laws : ZhengLaws.
Proof.
  split; simpl.
  - done.
  - intros a w t a' t' [= <- _]. rewrite length_app. simpl. lia.
  - intros a s p. destruct a; [done|]. intros [= <-]. simpl. by rewrite !bool_decide_eq_true_2.
Qed.

Lemma unary_split_replicate n r : unary_split (replicate n x01 ++ x00 :: r) = Some (n, r).
Proof. induction n as [|n IH]; simpl; [done|]. by rewrite IH. Qed.

Lemma unary_split_length l n r : unary_split l = Some (n, r) -> length r < length l.
Proof.
  revert n; induction l as [|b l IH]; intros n; simpl; [done|].
  destruct b; try done; [intros [= <- <-]; lia|].
  destruct (unary_split l) as [[m r']|]; simpl; [|done]. intros [= <- <-].
  specialize (IH m eq_refl). lia.
Qed.

#[global] Instance toy_tape_laws : TapeLaws.
Proof.
  split; simpl.
  - intros s c s'. unfold toy_next_chunk.
    destruct s as [|m s]; [done|]. destruct m; try done.
    destruct s as [|g [|r rest]]; try done.
    destruct (unary_split rest) as [[n body]|] eqn:E; simpl; [|done].
    apply unary_split_length in E.
    case_bool_decide; [|done]. intros [= <- <-]. rewrite length_drop. lia.
  - intros [g r pl] rest. simpl. rewrite <-app_assoc. simpl. rewrite unary_split_replicate. simpl.
    rewrite bool_decide_eq_true_2 by (rewrite length_app; lia).
    by rewrite take_app_length, drop_app_length.
  - done.
  - done.
Qed.

(** ** Hexadecimal rendering is injective *)

Lemma hex_digit_inj v w : (v < 16)%N -> (w < 16)%N -> hex_digit v = hex_digit w -> v = w.
Proof.
  intros Hv Hw E. apply (f_equal Ascii.N_of_ascii) in E. unfold hex_digit in E.
  destruct (N.ltb_spec v 10), (N.ltb_spec w 10);
    rewrite !Ascii.N_ascii_embedding in E by lia; lia.
Qed.

Lemma hex_of_bytes_inj l1 l2 : hex_of_bytes l1 = hex_of_bytes l2 -> l1 = l2.
Proof.
  revert l2; induction l1 as [|a l1 IH]; intros [|b l2]; simpl; try done. intros E.
  injection E as E1 E2 E3. apply IH in E3. subst. f_equal. apply (inj Byte.to_N).
  pose proof (to_N_lt a). pose proof (to_N_lt b).
  assert (forall c, Byte.to_N c < 256 -> Byte.to_N c / 16 < 16 /\ Byte.to_N c mod 16 < 16)%N as Hb.
  { intros c Hc. split; [apply N.Div0.div_lt_upper_bound; lia | apply N.mod_lt; lia]. }
  destruct (Hb a), (Hb b); [done..|]. apply hex_digit_inj in E1, E2; [|done..].
  rewrite (N.div_mod' (Byte.to_N a) 16), (N.div_mod' (Byte.to_N b) 16). by rewrite E1, E2.
Qed.

Lemma hex_of_bytes_length l : String.length (hex_of_bytes l) = 2 * length l.
Proof. induction l as [|a l IH]; simpl; [done|]. rewrite IH. lia. Qed.

#[global] Instance toy_hex_laws : HexLaws.
Proof.
  split; simpl.
  - intros a b E%hex_of_bytes_inj. by apply (inj arr_bytes).
  - intros h. by rewrite hex_of_bytes_length, arr_length.
Qed.
