(* ===== verification/Poly.v ===== *)
(** * Poly: polynomials over the field, by their coefficient lists

    The mathematics the codes over the Goldilocks field rest on: powers,
    evaluation ([gf_eval], lowest degree first), the bound on the number of
    roots, and the distinctness of the powers of the root of unity
    [gf_omega]. *)

From S2P Require Import Prelude Externals.
From Stdlib Require Import Ring Field_theory.

Section poly.
Context {NB : Nebu} {NL : NebuLaws}.

Add Ring gf_ring_solver : gf_ring.

Declare Scope gf_scope.
Local Notation "0" := gf_zero : gf_scope.
Local Notation "1" := gf_one : gf_scope.
Local Infix "+" := gf_add : gf_scope.
Local Infix "-" := gf_sub : gf_scope.
Local Infix "*" := gf_mul : gf_scope.
Local Open Scope gf_scope.

(** ** The field *)

Lemma gf_inv_r x : x <> 0 -> x * gf_inv x = 1.
Proof. intros Hx. rewrite <-(gf_inv_l x Hx). ring. Qed.

Lemma gf_mul_zero x y : x * y = 0 -> x = 0 \/ y = 0.
Proof.
  intros E. destruct (decide (x = 0)) as [|Hx]; [by left|]. right.
  replace y with (gf_inv x * (x * y)).
  - rewrite E. ring.
  - transitivity ((gf_inv x * x) * y); [ring|]. rewrite gf_inv_l by done. ring.
Qed.

Lemma gf_sub_zero x y : x - y = 0 <-> x = y.
Proof.
  split; [|intros ->; ring]. intros E. replace x with ((x - y) + y) by ring. rewrite E. ring.
Qed.

Lemma gf_mul_cancel_l x y z : x <> 0 -> x * y = x * z -> y = z.
Proof.
  intros Hx E. apply gf_sub_zero. destruct (gf_mul_zero x (y - z)) as [|]; [|done..].
  replace (x * (y - z)) with (x * y - x * z) by ring. rewrite E. ring.
Qed.

Lemma gf_exp_add x n m : gf_exp x (n + m) = gf_exp x n * gf_exp x m.
Proof.
  induction n as [|n IH] using N.peano_ind.
  - rewrite N.add_0_l, gf_exp_0. ring.
  - rewrite N.add_succ_l, !gf_exp_succ, IH. ring.
Qed.

Lemma gf_exp_1 x : gf_exp x 1 = x.
Proof. change 1%N with (N.succ 0). rewrite gf_exp_succ, gf_exp_0. ring. Qed.

Lemma gf_exp_mul x n m : gf_exp x (n * m) = gf_exp (gf_exp x n) m.
Proof.
  induction m as [|m IH] using N.peano_ind.
  - by rewrite N.mul_0_r, !gf_exp_0.
  - rewrite N.mul_succ_r, gf_exp_add, gf_exp_succ, IH. ring.
Qed.

Lemma gf_exp_one n : gf_exp 1 n = 1.
Proof.
  induction n as [|n IH] using N.peano_ind; [apply gf_exp_0|]. rewrite gf_exp_succ, IH. ring.
Qed.

Lemma gf_exp_mul_base x y n : gf_exp (x * y) n = gf_exp x n * gf_exp y n.
Proof.
  induction n as [|n IH] using N.peano_ind; [rewrite !gf_exp_0; ring|].
  rewrite !gf_exp_succ, IH. ring.
Qed.

Lemma gf_exp_nonzero x n : x <> 0 -> gf_exp x n <> 0.
Proof.
  intros Hx. induction n as [|n IH] using N.peano_ind.
  - rewrite gf_exp_0. apply gf_one_neq_zero.
  - rewrite gf_exp_succ. intros [|]%gf_mul_zero; done.
Qed.

(** The characteristic is not two. *)
Lemma gf_one_neq_minus_one : gf_neg 1 <> 1.
Proof.
  intros E. assert (gf_new 2 = 0) as H2.
  { change 2%N with (1 + 1)%N. rewrite gf_new_add by (unfold is_u64, u64_max; lia).
    rewrite gf_new_1. transitivity (gf_neg 1 + 1); [by rewrite E | ring]. }
  apply (f_equal gf_as_u64) in H2. rewrite <-gf_new_0 in H2.
  rewrite !gf_as_u64_new, gf_P_value in H2 by (unfold is_u64, u64_max; lia).
  vm_compute in H2. done.
Qed.

Lemma gf_minus_one_odd k : gf_exp (gf_neg 1) (2 * k + 1) = gf_neg 1.
Proof.
  rewrite gf_exp_add, gf_exp_1, gf_exp_mul.
  replace (gf_exp (gf_neg 1) 2) with 1; [rewrite gf_exp_one; ring|].
  change 2%N with (1 + 1)%N. rewrite gf_exp_add, gf_exp_1. ring.
Qed.

(** ** The root of unity *)

Lemma omega_half m : (1 <= m <= 32)%nat -> gf_exp (gf_omega (2 ^ m)) (2 ^ (N.of_nat m - 1)) = gf_neg 1.
Proof.
  intros Hm. unfold gf_omega. rewrite <-gf_exp_mul, <-gf_exp_seven. f_equal.
  rewrite Nat2N.inj_pow. change (N.of_nat 2) with 2%N. rewrite gf_P_value.
  change (18446744069414584321 - 1)%N with (2 ^ 32 * 4294967295)%N.
  assert (2 ^ 32 = 2 ^ N.of_nat m * 2 ^ (32 - N.of_nat m))%N as E1
    by (rewrite <-N.pow_add_r; f_equal; lia).
  assert (2 ^ N.of_nat m = 2 * 2 ^ (N.of_nat m - 1))%N as E2
    by (rewrite <-N.pow_succ_r'; f_equal; lia).
  pose proof (N.pow_nonzero 2 (N.of_nat m)). 
  transitivity (2 ^ (32 - N.of_nat m) * 4294967295 * 2 ^ (N.of_nat m - 1))%N.
  - f_equal. symmetry. apply (N.div_unique_exact _ (2 ^ N.of_nat m)); [lia|]. rewrite E1. lia.
  - apply (N.div_unique_exact _ 2); [lia|]. rewrite E1, E2. lia.
Qed.

(** A nonzero exponent below [2^m] is an odd multiple of a power of two. *)
Lemma odd_part (m : nat) (d : N) :
  (0 < d < 2 ^ N.of_nat m)%N ->
  exists a k, (a < m)%nat /\ (d = (2 * k + 1) * 2 ^ N.of_nat a)%N.
Proof.
  revert d. induction m as [|m IH]; intros d Hd; [simpl in Hd; lia|].
  rewrite Nat2N.inj_succ, N.pow_succ_r' in Hd.
  destruct (N.Even_or_Odd d) as [[e ->]|[e ->]].
  - destruct (IH e) as (a & k & Ha & ->); [lia|]. exists (S a), k. split; [lia|].
    rewrite Nat2N.inj_succ, N.pow_succ_r'. lia.
  - exists 0%nat, e. split; [lia|]. simpl. lia.
Qed.

Lemma omega_exp_neq_one m d :
  (m <= 32)%nat -> (0 < d < 2 ^ N.of_nat m)%N -> gf_exp (gf_omega (2 ^ m)) d <> 1.
Proof.
  intros Hm Hd E. destruct (odd_part m d Hd) as (a & k & Ha & ->).
  apply (f_equal (fun x => gf_exp x (2 ^ (N.of_nat m - 1 - N.of_nat a)))) in E.
  rewrite gf_exp_one, <-gf_exp_mul in E.
  replace ((2 * k + 1) * 2 ^ N.of_nat a * 2 ^ (N.of_nat m - 1 - N.of_nat a))%N
    with (2 ^ (N.of_nat m - 1) * (2 * k + 1))%N in E.
  - rewrite gf_exp_mul, omega_half, gf_minus_one_odd in E by lia. by apply gf_one_neq_minus_one.
  - rewrite <-N.mul_assoc, <-N.pow_add_r. rewrite N.mul_comm. do 2 f_equal. lia.
Qed.

Lemma gf_seven_nonzero : gf_new 7 <> 0.
Proof.
  intros E%(f_equal gf_as_u64). rewrite <-gf_new_0 in E.
  rewrite !gf_as_u64_new, gf_P_value in E by (unfold is_u64, u64_max; lia).
  vm_compute in E. done.
Qed.

Lemma omega_nonzero n : gf_omega n <> 0.
Proof. apply gf_exp_nonzero, gf_seven_nonzero. Qed.

(** The powers of the root of unity below its order are distinct. *)
Lemma omega_powers_inj m (i j : nat) :
  (m <= 32)%nat -> (i < 2 ^ m)%nat -> (j < 2 ^ m)%nat ->
  gf_exp (gf_omega (2 ^ m)) (N.of_nat i) = gf_exp (gf_omega (2 ^ m)) (N.of_nat j) -> i = j.
Proof.
  intros Hm.
  assert (forall i j, (i < j)%nat -> (j < 2 ^ m)%nat ->
    gf_exp (gf_omega (2 ^ m)) (N.of_nat i) <> gf_exp (gf_omega (2 ^ m)) (N.of_nat j)) as H.
  { clear i j. intros i j Hij Hj E. apply (omega_exp_neq_one m (N.of_nat (j - i)) Hm).
    - change 2%N with (N.of_nat 2). rewrite <-Nat2N.inj_pow. lia.
    - apply (gf_mul_cancel_l (gf_exp (gf_omega (2 ^ m)) (N.of_nat i))).
      + apply gf_exp_nonzero, omega_nonzero.
      + rewrite <-gf_exp_add, <-Nat2N.inj_add. replace (i + (j - i))%nat with j by lia.
        rewrite <-E. ring. }
  intros Hi Hj E. destruct (Nat.lt_trichotomy i j) as [Hl|[|Hl]]; [|done|]; exfalso.
  - by apply (H i j).
  - by apply (H j i).
Qed.

(** ** Evaluation *)

Lemma gf_eval_replicate n x : gf_eval (replicate n 0) x = 0.
Proof. induction n as [|n IH]; simpl; [done|]. rewrite IH. ring. Qed.

Lemma gf_eval_app p q x : gf_eval (p ++ q) x = gf_eval p x + gf_exp x (N.of_nat (length p)) * gf_eval q x.
Proof.
  induction p as [|c p IH]; simpl gf_eval.
  - rewrite gf_exp_0. ring.
  - rewrite IH, length_cons, Nat2N.inj_succ, gf_exp_succ. ring.
Qed.

Lemma gf_eval_pad p n x : gf_eval (p ++ replicate n 0) x = gf_eval p x.
Proof. rewrite gf_eval_app, gf_eval_replicate. ring. Qed.

Lemma gf_eval_add p q x :
  length p = length q -> gf_eval (zip_with gf_add p q) x = gf_eval p x + gf_eval q x.
Proof.
  revert q; induction p as [|c p IH]; intros [|d q]; simpl; try done; intros Hl.
  - ring.
  - rewrite IH by lia. ring.
Qed.

Lemma gf_eval_sub p q x :
  length p = length q -> gf_eval (zip_with gf_sub p q) x = gf_eval p x - gf_eval q x.
Proof.
  revert q; induction p as [|c p IH]; intros [|d q]; simpl; try done; intros Hl.
  - ring.
  - rewrite IH by lia. ring.
Qed.

Lemma gf_eval_scale a p x : gf_eval (map (gf_mul a) p) x = a * gf_eval p x.
Proof. induction p as [|c p IH]; simpl; [ring|]. rewrite IH. ring. Qed.

(** ** Roots *)

(** Synthetic division by [x - r]. *)
Fixpoint synth (r : gf) (p : list gf) : list gf :=
  match p with
  | [] => []
  | _ :: p' => match p' with [] => [] | _ => gf_eval p' r :: synth r p' end
  end.

Lemma synth_eval r p x : gf_eval p x = gf_eval p r + (x - r) * gf_eval (synth r p) x.
Proof.
  induction p as [|c p IH]; simpl; [ring|]. destruct p as [|d p]; [simpl; ring|].
  rewrite IH. change (gf_eval (gf_eval (d :: p) r :: synth r (d :: p)) x)
    with (gf_eval (d :: p) r + x * gf_eval (synth r (d :: p)) x). ring.
Qed.

Lemma synth_length r c p : length (synth r (c :: p)) = length p.
Proof. revert c; induction p as [|d p IH]; intros c; [done|].
  change (synth r (c :: d :: p)) with (gf_eval (d :: p) r :: synth r (d :: p)). by rewrite length_cons, IH.
Qed.

Lemma synth_zero r p :
  gf_eval p r = 0 -> Forall (eq 0) (synth r p) -> Forall (eq 0) p.
Proof.
  induction p as [|c p IH]; [done|]. destruct p as [|d p].
  - simpl. intros E _. repeat constructor. rewrite <-E. ring.
  - intros E Hs. change (synth r (c :: d :: p)) with (gf_eval (d :: p) r :: synth r (d :: p)) in Hs.
    apply Forall_cons in Hs as [E' Hs]. constructor; [|by apply IH].
    change (gf_eval (c :: d :: p) r) with (c + r * gf_eval (d :: p) r) in E.
    rewrite <-E, <-E'. ring.
Qed.

(** A polynomial with as many distinct roots as coefficients is zero. *)
Lemma roots_zero p roots :
  NoDup roots -> length p = length roots -> Forall (fun r => gf_eval p r = 0) roots ->
  Forall (eq 0) p.
Proof.
  revert p; induction roots as [|r roots IH]; intros p Hnd Hl Hr.
  { by destruct p. }
  apply NoDup_cons in Hnd as [Hni Hnd]. apply Forall_cons in Hr as [Hr Hrs].
  destruct p as [|c p]; [done|]. injection Hl as Hl.
  apply (synth_zero r); [done|]. apply IH; [done|by rewrite synth_length|].
  rewrite Forall_forall in Hrs |- *. intros s Hs. specialize (Hrs s Hs).
  rewrite (synth_eval r), Hr in Hrs.
  assert ((s - r) * gf_eval (synth r (c :: p)) s = 0) as Hm by (rewrite <-Hrs; ring).
  apply gf_mul_zero in Hm as [E|]; [|done]. rewrite gf_sub_zero in E. by subst.
Qed.

(** Interpolation is unique. *)
Lemma eval_inj p q points :
  NoDup points -> length p = length points -> length q = length points ->
  Forall (fun x => gf_eval p x = gf_eval q x) points -> p = q.
Proof.
  intros Hnd Hp Hq He.
  assert (Forall (eq 0) (zip_with gf_sub p q)) as Hz.
  { apply (roots_zero _ points); [done|rewrite length_zip_with; lia|].
    eapply Forall_impl; [exact He|]. simpl. intros x Hx.
    rewrite gf_eval_sub by lia. by apply gf_sub_zero. }
  assert (length p = length q) as Hl by lia. clear -Hz Hl NL. revert q Hz Hl.
  induction p as [|c p IH]; intros [|d q]; simpl; try done. intros Hz [= Hl].
  apply Forall_cons in Hz as [Hcd Hz]. f_equal; [by apply (proj1 (gf_sub_zero c d)) | by apply IH].
Qed.
End poly.
