(* ===== verification/Chain.v ===== *)
(** * Chain: signals and the per-neuron hash chain (src/chain.rs)

    [signal] is [Signal]; [hash] its chain-position hash, [content_id] the
    hash of its payload; [append] is [SignalChain::append], its errors the
    constructors of [ChainError].  [chain_valid] is the invariant of a chain
    built by [append]: consecutive steps from zero, each [prev] the hash of
    the entry before it. *)

From S2P Require Import Prelude Order Bytes Externals Goldilocks Instances.

Section chain.
Context {HM : Hemera} {NB : Nebu} {ZH : Zheng}.

Record cyberlink := mk_cyberlink {
  cl_neuron : particle;
  cl_from : particle;
  cl_to : particle;
  cl_token : particle;
  cl_amount : N;
  cl_valence : Z;
  cl_height : N
}.

Record box_move := mk_box_move {
  bm_nullifier : particle;
  bm_commitment : option (particle * N)
}.

Definition SELF_NETWORK : particle := zero32.

Record signal := mk_signal {
  sg_neuron : particle;
  sg_network : particle;
  sg_links : list cyberlink;
  sg_delta_pi : list (particle * N);
  sg_box_moves : list box_move;
  sg_prev : particle;
  sg_step : N;
  sg_height : N;
  sg_proof : option zproof
}.

(** The 104 bytes neuron ‖ step ‖ prev ‖ network. *)
Definition position_bytes (s : signal) : list byte :=
  arr_bytes (sg_neuron s) ++ u64_le (sg_step s) ++ arr_bytes (sg_prev s)
    ++ arr_bytes (sg_network s).

Definition hash (s : signal) : particle := hemera_hash (position_bytes s).

Definition link_bytes (l : cyberlink) : list byte :=
  arr_bytes (cl_neuron l) ++ arr_bytes (cl_from l) ++ arr_bytes (cl_to l)
    ++ arr_bytes (cl_token l) ++ u64_le (cl_amount l) ++ [u8_of_i8 (cl_valence l)]
    ++ u64_le (cl_height l).

Definition pi_bytes (e : particle * N) : list byte := arr_bytes e.1 ++ u64_le e.2.

Definition box_bytes (m : box_move) : list byte :=
  arr_bytes (bm_nullifier m) ++
  match bm_commitment m with
  | Some (pt, val) => [x01] ++ arr_bytes pt ++ u64_le val
  | None => [x00]
  end.

Definition content_bytes (s : signal) : list byte :=
  arr_bytes (sg_neuron s) ++ arr_bytes (sg_network s) ++ u64_le (sg_step s)
    ++ arr_bytes (sg_prev s)
    ++ concat (map link_bytes (sg_links s))
    ++ concat (map pi_bytes (sg_delta_pi s))
    ++ concat (map box_bytes (sg_box_moves s)).

Definition content_id (s : signal) : particle := hemera_hash (content_bytes s).

(** ** The chain *)

Record signal_chain := mk_chain { entries : gmap N signal }.

Inductive chain_error := StepNotSequential | PrevMismatch | Equivocation.

Definition chain_new : signal_chain := mk_chain ∅.

Definition check_equivocation (c : signal_chain) (s : signal) : option signal :=
  existing ← entries c !! sg_step s;
  if bool_decide (sg_neuron existing = sg_neuron s) && bool_decide (sg_prev existing = sg_prev s)
  then Some existing else None.

(** [self] is unchanged on [Err]. *)
Definition append (c : signal_chain) (s : signal) : result chain_error signal_chain :=
  match check_equivocation c s with
  | Some _ => Err Equivocation
  | None =>
      let expected_step := N.of_nat (size (entries c)) in
      if negb (bool_decide (sg_step s = expected_step)) then Err StepNotSequential
      else
        expected_prev ←
          (if bool_decide (expected_step = 0%N) then Ok zero32
           else last ← ok_or PrevMismatch (entries c !! (expected_step - 1)%N); Ok (hash last));
        if negb (bool_decide (sg_prev s = expected_prev)) then Err PrevMismatch
        else Ok (mk_chain (<[sg_step s := s]> (entries c)))
  end.

(** A sequence of appends, each refusal leaving the chain as it was. *)
Definition append_all (c : signal_chain) (l : list signal) : signal_chain :=
  fold_left (fun c s => unwrap_or c (append c s)) l c.

(** ** Invariant and well-formedness *)

Definition prev_of (c : signal_chain) (i : N) : particle :=
  match i with
  | 0%N => zero32
  | _ => from_option hash zero32 (entries c !! (i - 1)%N)
  end.

Definition chain_valid (c : signal_chain) : Prop :=
  (forall i, is_Some (entries c !! i) <-> (i < N.of_nat (size (entries c)))%N) /\
  (forall i s, entries c !! i = Some s -> sg_step s = i /\ sg_prev s = prev_of c i).

Definition link_wf (l : cyberlink) : Prop :=
  is_u64 (cl_amount l) /\ is_i8 (cl_valence l) /\ is_u64 (cl_height l).
Definition box_wf (m : box_move) : Prop := from_option (fun e => is_u64 e.2) True (bm_commitment m).
Definition pi_wf (e : particle * N) : Prop := is_u64 e.2.

(** The integer fields of a signal are machine integers. *)
Definition signal_wf (s : signal) : Prop :=
  is_u64 (sg_step s) /\ is_u64 (sg_height s) /\
  Forall link_wf (sg_links s) /\ Forall pi_wf (sg_delta_pi s) /\ Forall box_wf (sg_box_moves s).

(** Equality of everything [content_id] is meant to cover. *)
Definition same_content (s t : signal) : Prop :=
  sg_neuron s = sg_neuron t /\ sg_network s = sg_network t /\ sg_step s = sg_step t /\
  sg_prev s = sg_prev t /\ sg_links s = sg_links t /\ sg_delta_pi s = sg_delta_pi t /\
  sg_box_moves s = sg_box_moves t.

(** Equality of the chain position that [hash] covers. *)
Definition same_position (s t : signal) : Prop :=
  sg_neuron s = sg_neuron t /\ sg_step s = sg_step t /\ sg_prev s = sg_prev t /\
  sg_network s = sg_network t.

(** ** Lemmas: encodings *)

Lemma link_bytes_length l : length (link_bytes l) = 145.
Proof. unfold link_bytes. autorewrite with foculus_rw. simpl. done. Qed.

Lemma pi_bytes_length e : length (pi_bytes e) = 40.
Proof. unfold pi_bytes. autorewrite with foculus_rw. done. Qed.

Lemma link_bytes_inj l m : link_wf l -> link_wf m -> link_bytes l = link_bytes m -> l = m.
Proof.
  unfold link_wf, link_bytes. intros (Ha1 & Hv1 & Hh1) (Ha2 & Hv2 & Hh2) E.
  split_bytes E. injection E5 as Ev.
  apply (inj arr_bytes) in E0, E1, E2, E3. apply u64_le_inj in E4, E; [|done..].
  apply (f_equal i8_of_u8) in Ev. rewrite !i8_round_trip in Ev by done.
  destruct l, m; simpl in *. by subst.
Qed.

Lemma pi_bytes_inj e d : pi_wf e -> pi_wf d -> pi_bytes e = pi_bytes d -> e = d.
Proof.
  unfold pi_wf, pi_bytes. intros Hv Hw E.
  split_bytes E. apply (inj arr_bytes) in E0. apply u64_le_inj in E; [|done..].
  destruct e, d; simpl in *. by subst.
Qed.

Lemma box_bytes_prefix_code : prefix_code box_bytes.
Proof.
  split.
  { intros m E%(f_equal length). unfold box_bytes in E. rewrite length_app, arr_length in E. done. }
  intros [n1 c1] [n2 c2] r1 r2. unfold box_bytes; simpl. rewrite <-!app_assoc. intros E.
  apply app_inj_1 in E as [En E]; [|by rewrite !arr_length]. rewrite En.
  destruct c1 as [[p1 v1]|], c2 as [[p2 v2]|]; simpl in *; try done.
  - injection E as E. rewrite <-!app_assoc in E.
    apply app_inj_1 in E as [Ep E]; [|by rewrite !arr_length].
    apply app_inj_1 in E as [Ev E]; [|by rewrite !u64_le_length]. by rewrite Ep, Ev, E.
  - injection E as E. by rewrite E.
Qed.

Lemma box_bytes_inj m n : box_wf m -> box_wf n -> box_bytes m = box_bytes n -> m = n.
Proof.
  destruct m as [n1 c1], n as [n2 c2]. unfold box_wf, box_bytes; simpl. intros H1 H2 E.
  apply app_inj_1 in E as [En E]; [|by rewrite !arr_length]. apply (inj arr_bytes) in En. subst.
  destruct c1 as [[p1 v1]|], c2 as [[p2 v2]|]; simpl in *; try done.
  injection E as E. apply app_inj_1 in E as [Ep E]; [|by rewrite !arr_length].
  apply (inj arr_bytes) in Ep. apply u64_le_inj in E; [|done..]. by subst.
Qed.

Lemma Forall2_inj_eq {A} (wf : A -> Prop) (e : A -> list byte) l1 l2 :
  (forall a b, wf a -> wf b -> e a = e b -> a = b) ->
  Forall wf l1 -> Forall wf l2 -> Forall2 (fun a b => e a = e b) l1 l2 -> l1 = l2.
Proof.
  intros He H1 H2 H. induction H as [|a b l1 l2 Hab H IH]; [done|].
  apply Forall_cons in H1 as [? ?], H2 as [? ?]. f_equal; auto.
Qed.

(** With the numbers of links and focus entries fixed, the preimage of
    [content_id] determines the content. *)
Lemma content_bytes_inj s t :
  signal_wf s -> signal_wf t ->
  length (sg_links s) = length (sg_links t) ->
  length (sg_delta_pi s) = length (sg_delta_pi t) ->
  content_bytes s = content_bytes t -> same_content s t.
Proof.
  intros (Hs & _ & Hls & Hds & Hbs) (Ht & _ & Hlt & Hdt & Hbt) Hll Hdl E.
  unfold content_bytes in E. split_bytes E.
  apply (concat_fixed_inj link_bytes 145) in E as [El E]; [|apply link_bytes_length|done].
  apply (concat_fixed_inj pi_bytes 40) in E as [Ed E]; [|apply pi_bytes_length|done].
  apply concat_prefix_inj in E; [|apply box_bytes_prefix_code].
  unfold same_content. repeat split.
  - by apply (inj arr_bytes).
  - by apply (inj arr_bytes).
  - by apply u64_le_inj.
  - by apply (inj arr_bytes).
  - by eapply Forall2_inj_eq; [apply link_bytes_inj|..].
  - by eapply Forall2_inj_eq; [apply pi_bytes_inj|..].
  - by eapply Forall2_inj_eq; [apply box_bytes_inj|..].
Qed.

Lemma position_bytes_inj s t :
  sg_step s = sg_step t -> position_bytes s = position_bytes t -> same_position s t.
Proof.
  intros Hst E. unfold position_bytes in E. split_bytes E.
  apply (inj arr_bytes) in E, E0, E2. by repeat split.
Qed.
End chain.

Section chain_lemmas.
Context {HM : Hemera} {NB : Nebu} {ZH : Zheng}.

Lemma chain_new_valid : chain_valid chain_new.
Proof.
  unfold chain_new. split; simpl; [|intros i s; by rewrite lookup_empty].
  intros i. rewrite lookup_empty, map_size_empty. split; [by intros []|lia].
Qed.

Lemma chain_lookup_size c : chain_valid c -> entries c !! N.of_nat (size (entries c)) = None.
Proof.
  intros [Hdom _]. apply eq_None_not_Some. intros Hs%Hdom. lia.
Qed.

Lemma prev_of_insert c s i :
  (i <= sg_step s)%N -> prev_of (mk_chain (<[sg_step s := s]> (entries c))) i = prev_of c i.
Proof.
  intros Hi. unfold prev_of. destruct i as [|i]; [done|].
  simpl entries. rewrite lookup_insert_ne; [done|]. lia.
Qed.

(** What [append] does on a valid chain, branch by branch. *)
Lemma append_cases c s :
  chain_valid c ->
  let n := N.of_nat (size (entries c)) in
  append c s =
    if decide (sg_step s = n) then
      if decide (sg_prev s = prev_of c n) then Ok (mk_chain (<[n := s]> (entries c)))
      else Err PrevMismatch
    else
      match entries c !! sg_step s with
      | Some e => if decide (sg_neuron e = sg_neuron s /\ sg_prev e = sg_prev s)
                  then Err Equivocation else Err StepNotSequential
      | None => Err StepNotSequential
      end.
Proof.
  intros Hc n. pose proof Hc as [Hdom _].
  unfold append, check_equivocation. fold n.
  destruct (decide (sg_step s = n)) as [Hst|Hst].
  - assert (entries c !! sg_step s = None) as HN by (rewrite Hst; by apply chain_lookup_size).
    rewrite HN. simpl. rewrite (bool_decide_eq_true_2 (sg_step s = n)) by done. simpl.
    case_bool_decide as H0; simpl.
    + rewrite H0. simpl. destruct (decide (sg_prev s = zero32)) as [Hp|Hp].
      * rewrite bool_decide_eq_true_2 by done. simpl. by rewrite Hst, H0.
      * by rewrite bool_decide_eq_false_2.
    + destruct (proj2 (Hdom (n - 1)%N)) as [e He]; [lia|].
      unfold ok_or. rewrite He. simpl.
      assert (prev_of c n = hash e) as ->.
      { unfold prev_of. destruct n as [|p]; [done|]. by rewrite He. }
      destruct (decide (sg_prev s = hash e)) as [Hp|Hp].
      * rewrite bool_decide_eq_true_2 by done. simpl. by rewrite Hst.
      * by rewrite bool_decide_eq_false_2.
  - destruct (entries c !! sg_step s) as [e|] eqn:He; simpl;
      [|by rewrite bool_decide_eq_false_2].
    rewrite <-bool_decide_and.
    destruct (decide (sg_neuron e = sg_neuron s /\ sg_prev e = sg_prev s)) as [Hy|Hn].
    + by rewrite (bool_decide_eq_true_2 (_ /\ _)).
    + rewrite (bool_decide_eq_false_2 (_ /\ _)) by done. simpl. by rewrite bool_decide_eq_false_2.
Qed.

Lemma append_Ok c s c' :
  chain_valid c -> append c s = Ok c' ->
  sg_step s = N.of_nat (size (entries c)) /\ sg_prev s = prev_of c (sg_step s) /\
  entries c' = <[sg_step s := s]> (entries c) /\ entries c !! sg_step s = None.
Proof.
  intros Hc. rewrite append_cases by done. simpl.
  case_decide as Hst.
  - case_decide as Hp; intros; inv_res. rewrite Hst. split; [done|]. split; [done|].
    split; [done|]. by apply chain_lookup_size.
  - destruct (entries c !! sg_step s); [case_decide|]; done.
Qed.

Lemma append_valid c s c' : chain_valid c -> append c s = Ok c' -> chain_valid c'.
Proof.
  intros Hc Ha. destruct (append_Ok c s c' Hc Ha) as (Hst & Hp & He & Hn).
  destruct c' as [m']; simpl in He; subst m'. destruct Hc as [Hdom Hent].
  split.
  - intros i. simpl. rewrite map_size_insert_None by done.
    rewrite lookup_insert. case_decide as Hi.
    + split; [intros _; subst; lia | eauto].
    + rewrite Hdom. lia.
  - intros i t. simpl entries. rewrite lookup_insert. case_decide as Hi.
    + intros [= <-]. split; [done|]. rewrite <-Hi, prev_of_insert by lia. done.
    + intros Ht. destruct (Hent i t Ht) as [H1 H2]. split; [done|].
      assert (i < N.of_nat (size (entries c)))%N by (apply Hdom; eauto).
      rewrite prev_of_insert by lia. done.
Qed.

Lemma append_unwrap_valid c s : chain_valid c -> chain_valid (unwrap_or c (append c s)).
Proof.
  intros Hc. destruct (append c s) eqn:E; simpl; [by eapply append_valid | done].
Qed.

Lemma append_unwrap_subseteq c s : chain_valid c -> entries c ⊆ entries (unwrap_or c (append c s)).
Proof.
  intros Hc. destruct (append c s) as [c'|] eqn:E; simpl; [|done].
  destruct (append_Ok c s c' Hc E) as (_ & _ & -> & Hn). by apply insert_subseteq.
Qed.

Lemma append_all_valid c l : chain_valid c -> chain_valid (append_all c l).
Proof.
  intros Hc. unfold append_all. apply (fold_left_invariant _ chain_valid); [|done].
  intros. by apply append_unwrap_valid.
Qed.

Lemma append_all_subseteq c l : chain_valid c -> entries c ⊆ entries (append_all c l).
Proof.
  unfold append_all. revert c; induction l as [|s l IH]; intros c Hc; simpl; [done|].
  etrans; [by apply append_unwrap_subseteq|]. apply IH. by apply append_unwrap_valid.
Qed.

Lemma chain_prev c i s t :
  chain_valid c -> entries c !! i = Some s -> entries c !! N.succ i = Some t -> sg_prev t = hash s.
Proof.
  intros [_ Hent] Hs Ht. destruct (Hent _ _ Ht) as [_ ->]. unfold prev_of.
  destruct (N.succ i) eqn:E; [lia|]. rewrite <-E.
  replace (N.succ i - 1)%N with i by lia. by rewrite Hs.
Qed.

(** Entries of two valid chains with equal hashes at one height agree in
    position at every lower height, unless a hash collision is exhibited. *)
Lemma chain_prefix_agree (c1 c2 : signal_chain) (k : nat) (n : N) s1 s2 :
  chain_valid c1 -> chain_valid c2 ->
  entries c1 !! (n + N.of_nat k)%N = Some s1 -> entries c2 !! (n + N.of_nat k)%N = Some s2 ->
  hash s1 = hash s2 ->
  (exists t1 t2, entries c1 !! n = Some t1 /\ entries c2 !! n = Some t2 /\ same_position t1 t2) \/
  (exists j t1 t2, entries c1 !! j = Some t1 /\ entries c2 !! j = Some t2 /\
                   collides (position_bytes t1) (position_bytes t2)).
Proof.
  intros Hc1 Hc2. revert n s1 s2. induction k as [|k IH]; intros n s1 s2 H1 H2 Hh.
  - rewrite N.add_0_r in H1, H2.
    destruct (decide (position_bytes s1 = position_bytes s2)) as [E|E].
    + left. exists s1, s2. split; [done|]. split; [done|]. apply position_bytes_inj; [|done].
      destruct Hc1 as [_ He1], Hc2 as [_ He2].
      destruct (He1 _ _ H1) as [-> _], (He2 _ _ H2) as [-> _]. done.
    + right. exists n, s1, s2. repeat split; done.
  - replace (n + N.of_nat (S k))%N with (N.succ n + N.of_nat k)%N in * by lia.
    destruct (IH _ _ _ H1 H2 Hh) as [(t1 & t2 & E1 & E2 & Hpos)|]; [|by right].
    assert (exists u1, entries c1 !! n = Some u1) as [u1 Hu1].
    { apply (proj1 Hc1). assert (is_Some (entries c1 !! N.succ n)) as Hs by eauto.
      apply (proj1 Hc1) in Hs. lia. }
    assert (exists u2, entries c2 !! n = Some u2) as [u2 Hu2].
    { apply (proj1 Hc2). assert (is_Some (entries c2 !! N.succ n)) as Hs by eauto.
      apply (proj1 Hc2) in Hs. lia. }
    assert (hash u1 = hash u2) as Hhu.
    { rewrite <-(chain_prev c1 n u1 t1), <-(chain_prev c2 n u2 t2) by done. apply Hpos. }
    destruct (decide (position_bytes u1 = position_bytes u2)) as [E|E].
    + left. exists u1, u2. split; [done|]. split; [done|]. apply position_bytes_inj; [|done].
      destruct Hc1 as [_ He1], Hc2 as [_ He2].
      destruct (He1 _ _ Hu1) as [-> _], (He2 _ _ Hu2) as [-> _]. done.
    + right. exists n, u1, u2. repeat split; done.
Qed.
End chain_lemmas.

#[export] Hint Resolve chain_new_valid append_all_valid append_all_subseteq : foculus.

(** ** Properties *)

Section chain_properties.
Context {HM : Hemera} {NB : Nebu} {ZH : Zheng}.

(** C28: Whatever sequence of signals is submitted to an empty chain, the
    chain is a hash chain (steps 0, 1, 2, ... without gaps, every [prev] the
    hash of the entry before it), and submitting more signals never removes
    or rewrites an entry. *)
Theorem chain_history_safe (l1 l2 : list signal) :
  chain_valid (append_all chain_new l1) /\
  entries (append_all chain_new l1) ⊆ entries (append_all chain_new (l1 ++ l2)).
Proof.
  split; [auto with foculus|]. unfold append_all. rewrite fold_left_app.
  apply append_all_subseteq. apply append_all_valid, chain_new_valid.
Qed.

(** On a chain built by submissions, [append] accepts exactly the signal
    whose step is the chain length and whose [prev] is the hash of the last
    entry; it reports [Equivocation] exactly when the chain already holds an
    entry at that step with the same neuron and [prev]; and every other
    refusal at a step other than the next one is [StepNotSequential]. *)
Lemma append_outcomes (l : list signal) (s : signal) :
  let c := append_all chain_new l in
  let n := N.of_nat (size (entries c)) in
  (is_ok (append c s) = true <-> sg_step s = n /\ sg_prev s = prev_of c n) /\
  (append c s = Err Equivocation <->
     exists e, entries c !! sg_step s = Some e /\ sg_neuron e = sg_neuron s /\ sg_prev e = sg_prev s) /\
  (append c s = Err PrevMismatch <-> sg_step s = n /\ sg_prev s <> prev_of c n).
Proof.
  intros c n. assert (chain_valid c) as Hc by (apply append_all_valid, chain_new_valid).
  pose proof (append_cases c s Hc) as E. simpl in E. fold n in E.
  pose proof (chain_lookup_size c Hc) as HN. fold n in HN. rewrite E.
  case_decide as Hst; [rewrite Hst, HN; case_decide; naive_solver|].
  destruct (entries c !! sg_step s) as [e|]; [case_decide|]; naive_solver.
Qed.

(** C31: The head of a chain commits to its whole history: if two chains built
    by submissions hold entries with equal hashes at height [n], their entries
    at every height below agree on neuron, step, [prev] and network, or two
    of their entries at one height exhibit a hash collision. *)
Theorem chain_head_commits (l1 l2 : list signal) (n i : N) (s1 s2 : signal) :
  let c1 := append_all chain_new l1 in
  let c2 := append_all chain_new l2 in
  entries c1 !! n = Some s1 -> entries c2 !! n = Some s2 -> hash s1 = hash s2 -> (i <= n)%N ->
  (exists t1 t2, entries c1 !! i = Some t1 /\ entries c2 !! i = Some t2 /\ same_position t1 t2) \/
  (exists j t1 t2, entries c1 !! j = Some t1 /\ entries c2 !! j = Some t2 /\
                   collides (position_bytes t1) (position_bytes t2)).
Proof.
  intros c1 c2 H1 H2 Hh Hi.
  apply (chain_prefix_agree c1 c2 (N.to_nat (n - i)) i s1 s2).
  1,2: apply append_all_valid, chain_new_valid.
  1,2: by replace (i + N.of_nat (N.to_nat (n - i)))%N with n by lia.
  done.
Qed.

(** Among signals with equally many links and equally many focus entries,
    [content_id] identifies the content (neuron, network, step, [prev], links,
    focus entries and box moves) up to a hash collision of their preimages. *)
Lemma content_id_identifies (s t : signal) :
  signal_wf s -> signal_wf t ->
  length (sg_links s) = length (sg_links t) ->
  length (sg_delta_pi s) = length (sg_delta_pi t) ->
  content_id s = content_id t ->
  same_content s t \/ collides (content_bytes s) (content_bytes t).
Proof.
  intros Hs Ht Hl Hd E. destruct (decide (content_bytes s = content_bytes t)) as [Eb|Eb].
  - left. by apply content_bytes_inj.
  - right. by split.
Qed.

(** Without that restriction [content_id] does not identify the content:
    the link and focus lists are concatenated without their lengths, so at
    every chain position eight links and twenty-nine focus entries have the
    same preimage, hence the same id whatever the hash function. *)
Lemma content_id_ambiguous (neuron network prev : particle) (step height : N) :
  let l := mk_cyberlink zero32 zero32 zero32 zero32 0 0 0 in
  let s := mk_signal neuron network (replicate 8 l) [] [] prev step height None in
  let t := mk_signal neuron network [] (replicate 29 (zero32, 0%N)) [] prev step height None in
  same_position s t /\ ~ same_content s t /\ content_id s = content_id t.
Proof.
  intros l s t. split; [done|]. split; [by intros (_ & _ & _ & _ & Hl & _)|].
  unfold content_id, content_bytes; simpl. do 5 f_equal.
Qed.
End chain_properties.

(** ** Witnesses *)

Definition ex_link : cyberlink :=
  mk_cyberlink (arr_rep 32 x01) (arr_rep 32 x02) (arr_rep 32 x03) zero32 5 (-1)%Z 42.
Definition ex_signal (step : N) (prev : particle) (links : list cyberlink) : signal :=
  mk_signal (arr_rep 32 x01) SELF_NETWORK links [(arr_rep 32 x05, 1%N)]
    [mk_box_move (arr_rep 32 x06) (Some (arr_rep 32 x07, 9%N))] prev step 0 None.
Definition ex_s0 : signal := ex_signal 0 zero32 [ex_link].
Definition ex_s1 : signal := ex_signal 1 (hash ex_s0) [].

Lemma chain_head_commits_witness :
  entries (append_all chain_new [ex_s0; ex_s1]) !! 1%N = Some ex_s1 /\
  ((exists t1 t2, entries (append_all chain_new [ex_s0; ex_s1]) !! 0%N = Some t1 /\
      entries (append_all chain_new [ex_s0; ex_s0; ex_s1]) !! 0%N = Some t2 /\ same_position t1 t2) \/
   (exists j t1 t2, entries (append_all chain_new [ex_s0; ex_s1]) !! j = Some t1 /\
      entries (append_all chain_new [ex_s0; ex_s0; ex_s1]) !! j = Some t2 /\
      collides (position_bytes t1) (position_bytes t2))).
Proof.
  split; [by_vm|].
  apply (chain_head_commits [ex_s0; ex_s1] [ex_s0; ex_s0; ex_s1] 1 0 ex_s1 ex_s1).
  - by_vm.
  - by_vm.
  - reflexivity.
  - lia.
Defined.

Lemma content_id_identifies_witness :
  same_content ex_s0 ex_s0 \/ collides (content_bytes ex_s0) (content_bytes ex_s0).
Proof.
  apply (content_id_identifies ex_s0 ex_s0); try reflexivity;
    unfold signal_wf; repeat split; repeat constructor; vm_compute; discriminate.
Defined.
