(* ===== verification/Conflict.v ===== *)
(** * Conflict: the monotonic conflict index (src/conflict.rs)

    [conflict_keys] are the keys a signal claims, [conflict_index] the map
    from key to the distinct signals (by content id) that claimed it.
    [observe] is the only operation that changes state. *)

From S2P Require Import Prelude Order Bytes Externals Goldilocks Instances Chain.

Section conflict.
Context {HM : Hemera} {NB : Nebu} {ZH : Zheng}.

Definition equivocation_key (s : signal) : particle :=
  hemera_hash (arr_bytes (sg_neuron s) ++ u64_le (sg_step s)).

Definition conflict_keys (s : signal) : list particle := [equivocation_key s].

Record conflict_group := mk_group { cg_key : particle; cg_members : gmap particle signal }.

(** In ascending order of content id. *)
Definition members (g : conflict_group) : list signal := sorted_values (cg_members g).
Definition group_len (g : conflict_group) : nat := size (cg_members g).
Definition group_is_empty (g : conflict_group) : bool := bool_decide (cg_members g = ∅).

Record conflict_index := mk_index { groups : gmap particle (gmap particle signal) }.
Definition index_new : conflict_index := mk_index ∅.

(** One iteration of the loop of [observe] over the keys. *)
Definition observe_key (s : signal) (st : list particle * gmap particle (gmap particle signal))
    (key : particle) : list particle * gmap particle (gmap particle signal) :=
  let group := <[content_id s := s]> (default ∅ (st.2 !! key)) in
  (if bool_decide (1 < size group) then st.1 ++ [key] else st.1, <[key := group]> st.2).

Definition observe (c : conflict_index) (s : signal) : list particle * conflict_index :=
  let st := fold_left (observe_key s) (conflict_keys s) ([], groups c) in
  (st.1, mk_index st.2).

Definition group (c : conflict_index) (key : particle) : option conflict_group :=
  mk_group key <$> groups c !! key.

Definition conflicts (c : conflict_index) : list particle :=
  fst <$> filter (fun e => 1 < size e.2) (sorted_entries (groups c)).

(** One member of one group in [all_links]. *)
Definition links_step (st : gset particle * list cyberlink) (e : particle * signal)
    : gset particle * list cyberlink :=
  if bool_decide (e.1 ∈ st.1) then st else ({[e.1]} ∪ st.1, st.2 ++ sg_links e.2).

Definition all_links (c : conflict_index) : list cyberlink :=
  (fold_left (fun st m => fold_left links_step (sorted_entries m) st)
     (sorted_values (groups c)) (∅, [])).2.

(** A sequence of observations. *)
Definition observe_all (c : conflict_index) (l : list signal) : conflict_index :=
  fold_left (fun c s => (observe c s).2) l c.

(** ** What the index records *)

(** Every member sits under its own content id, in a group it claims. *)
Definition index_wf (c : conflict_index) : Prop :=
  forall k m id s, groups c !! k = Some m -> m !! id = Some s ->
    content_id s = id /\ k = equivocation_key s.

(** The content ids filed under a key. *)
Definition ids_at (c : conflict_index) (k : particle) : gset particle :=
  dom (default ∅ (groups c !! k)).

(** The content ids of the signals of [l] that claim [k]. *)
Definition claimants (l : list signal) (k : particle) : gset particle :=
  list_to_set (content_id <$> filter (fun s => equivocation_key s = k) l).
End conflict.

Section conflict_lemmas.
Context {HM : Hemera} {NB : Nebu} {ZH : Zheng}.

Lemma observe_groups (c : conflict_index) s :
  groups (observe c s).2 =
    <[equivocation_key s := <[content_id s := s]> (default ∅ (groups c !! equivocation_key s))]>
      (groups c).
Proof. done. Qed.

Lemma observe_wf c s : index_wf c -> index_wf (observe c s).2.
Proof.
  intros Hc k m id t. rewrite observe_groups, lookup_insert.
  case_decide as Hk; [|by apply Hc]. intros [= <-]. rewrite lookup_insert.
  case_decide as Hid; [intros [= <-]; split; congruence|]. intros Ht.
  destruct (groups c !! equivocation_key s) as [m|] eqn:E; simpl in Ht.
  - subst k. by apply (Hc _ m).
  - by rewrite lookup_empty in Ht.
Qed.

Lemma observe_all_wf c l : index_wf c -> index_wf (observe_all c l).
Proof.
  intros Hc. unfold observe_all. apply fold_left_invariant; [|done].
  intros. by apply observe_wf.
Qed.

Lemma index_new_wf : index_wf index_new.
Proof. intros k m id s. simpl. by rewrite lookup_empty. Qed.

Lemma ids_at_observe c s k :
  ids_at (observe c s).2 k =
    (if decide (equivocation_key s = k) then {[content_id s]} else ∅) ∪ ids_at c k.
Proof.
  unfold ids_at. rewrite observe_groups, lookup_insert.
  destruct (decide (equivocation_key s = k)) as [->|]; simpl.
  - rewrite dom_insert_L. done.
  - set_solver.
Qed.

Lemma claimants_cons s l k :
  claimants (s :: l) k =
    (if decide (equivocation_key s = k) then {[content_id s]} else ∅) ∪ claimants l k.
Proof.
  unfold claimants. rewrite filter_cons. case_decide; simpl; set_solver.
Qed.

(** The ids under a key are exactly those of the signals that claimed it. *)
Lemma ids_at_observe_all c l k : ids_at (observe_all c l) k = claimants l k ∪ ids_at c k.
Proof.
  revert c. induction l as [|s l IH]; intros c.
  - unfold claimants. simpl. set_solver.
  - change (observe_all c (s :: l)) with (observe_all (observe c s).2 l).
    rewrite IH, ids_at_observe, claimants_cons. set_solver.
Qed.

Lemma ids_at_new k : ids_at index_new k = ∅.
Proof. unfold ids_at; simpl. by rewrite lookup_empty. Qed.

Lemma ids_at_all l k : ids_at (observe_all index_new l) k = claimants l k.
Proof. rewrite ids_at_observe_all, ids_at_new. set_solver. Qed.

Lemma elem_of_claimants l k id :
  id ∈ claimants l k <-> exists s, s ∈ l /\ equivocation_key s = k /\ content_id s = id.
Proof.
  unfold claimants. rewrite elem_of_list_to_set, list_elem_of_fmap.
  setoid_rewrite list_elem_of_filter. naive_solver.
Qed.

Lemma claimants_perm l l' k : l ≡ₚ l' -> claimants l k = claimants l' k.
Proof.
  intros Hp. apply set_eq. intros id. rewrite !elem_of_claimants.
  by setoid_rewrite Hp.
Qed.

Lemma elem_of_conflicts c k : k ∈ conflicts c <-> 1 < size (ids_at c k).
Proof.
  unfold conflicts, ids_at. rewrite list_elem_of_fmap. split.
  - intros [[k' m] [-> [Hs Hm]%list_elem_of_filter]].
    apply elem_of_sorted_entries in Hm. simpl in *. rewrite Hm. simpl.
    by rewrite size_dom.
  - intros Hs. destruct (groups c !! k) as [m|] eqn:E; simpl in Hs.
    + exists (k, m). split; [done|]. apply list_elem_of_filter.
      rewrite size_dom in Hs. split; [done|]. by apply elem_of_sorted_entries.
    + rewrite dom_empty_L, size_empty in Hs. lia.
Qed.

(** More than one element: two different ones. *)
Lemma size_gt_1 `{Countable K} (X : gset K) : 1 < size X <-> exists x y, x ∈ X /\ y ∈ X /\ x <> y.
Proof.
  split.
  - intros Hs. assert (exists x, x ∈ X) as [x Hx].
    { apply set_choose_L. intros ->. rewrite size_empty in Hs. lia. }
    assert (exists y, y ∈ X ∖ {[x]}) as [y Hy].
    { apply set_choose_L. intros E.
      assert (size X <= size ({[x]} : gset K)) as Hle.
      { apply subseteq_size. intros z Hz. destruct (decide (z = x)); set_solver. }
      rewrite size_singleton in Hle. lia. }
    exists x, y. set_solver.
  - intros (x & y & Hx & Hy & Hne).
    assert (size ({[x; y]} : gset K) <= size X) as Hle by (apply subseteq_size; set_solver).
    rewrite size_union in Hle by set_solver. rewrite !size_singleton in Hle. lia.
Qed.

Lemma SortedBy_fmap_filter (c : conflict_index) :
  SortedBy id (conflicts c).
Proof.
  unfold conflicts. pose proof (sorted_by_filter fst (fun e => 1 < size e.2)
    (sorted_entries (groups c)) (sort_by_sorted _ _)) as Hs.
  induction Hs as [|x l Hs IH Hall]; simpl; [constructor|]. constructor; [done|].
  apply Forall_fmap. eapply Forall_impl; [exact Hall|]. done.
Qed.

Lemma conflicts_NoDup (c : conflict_index) : NoDup (conflicts c).
Proof.
  unfold conflicts. eapply sublist_NoDup; [apply (sorted_keys_NoDup (groups c))|].
  unfold sorted_keys. apply fmap_sublist, sublist_filter.
Qed.

Lemma observe_reported c s :
  (observe c s).1 =
    if decide (1 < size ({[content_id s]} ∪ ids_at c (equivocation_key s)))
    then [equivocation_key s] else [].
Proof.
  unfold observe, ids_at; simpl. unfold observe_key; simpl.
  rewrite <-size_dom, dom_insert_L.
  by case_bool_decide; case_decide.
Qed.
End conflict_lemmas.

#[export] Hint Resolve observe_all_wf index_new_wf conflicts_NoDup : foculus.

(** ** Properties *)

Section conflict_properties.
Context {HM : Hemera} {NB : Nebu} {ZH : Zheng}.

(** C35: The index is a pure function of what was observed, whatever the order
    and repetition: after any sequence of observations a key is listed as a
    conflict exactly when two observed signals with different content ids claim
    it; the list is ascending and duplicate-free; and observing one more signal
    reports its key exactly when an earlier observed signal with another
    content id claims that key. *)
Theorem conflicts_exact (l : list signal) (s : signal) (k : particle) :
  let c := observe_all index_new l in
  (k ∈ conflicts c <->
     exists s1 s2, s1 ∈ l /\ s2 ∈ l /\ equivocation_key s1 = k /\ equivocation_key s2 = k /\
                   content_id s1 <> content_id s2) /\
  SortedBy id (conflicts c) /\ NoDup (conflicts c) /\
  ((observe c s).1 = [equivocation_key s] <->
     exists t, t ∈ l /\ equivocation_key t = equivocation_key s /\ content_id t <> content_id s).
Proof.
  intros c. split; [|split; [apply SortedBy_fmap_filter|split; [apply conflicts_NoDup|]]].
  - rewrite elem_of_conflicts. unfold c. rewrite ids_at_all, size_gt_1.
    setoid_rewrite elem_of_claimants. split.
    + intros (x & y & (s1 & ? & ? & <-) & (s2 & ? & ? & <-) & ?). by exists s1, s2.
    + intros (s1 & s2 & ? & ? & ? & ? & ?). exists (content_id s1), (content_id s2). eauto 10.
  - rewrite observe_reported. unfold c. rewrite ids_at_all.
    set (k' := equivocation_key s). case_decide as Hs; rewrite size_gt_1 in Hs.
    + split; [intros _|done]. destruct Hs as (x & y & Hx & Hy & Hne).
      assert (exists z, z ∈ claimants l k' /\ z <> content_id s) as (z & Hz & ?).
      { rewrite elem_of_union, elem_of_singleton in Hx, Hy.
        destruct (decide (x = content_id s)); [exists y | exists x];
          (split; [|congruence]); [destruct Hy | destruct Hx]; congruence. }
      apply elem_of_claimants in Hz as (t & ? & ? & <-). by exists t.
    + split; [done|]. intros (t & ? & ? & ?). exfalso. apply Hs.
      exists (content_id t), (content_id s).
      split; [|split; [by apply elem_of_union_l, elem_of_singleton|done]].
      apply elem_of_union_r, elem_of_claimants. by exists t.
Qed.
End conflict_properties.
