(* ===== verification/Fork.v ===== *)
(** * Fork: the fork-choice strategies (src/fork.rs, src/focus.rs)

    [ForkChoice] is the trait: a strategy maps the members of a conflict
    group and the surrounding links to the index of the winner.  Its
    instances are [Serialize], [MinHash] and [Focus]; [ForkLaws] is what the
    reconciliation engine needs of a strategy. *)

From S2P Require Import Prelude Order Bytes Externals Goldilocks Instances Chain.

Section fork.
Context {HM : Hemera} {NB : Nebu} {FX : Fixed} {TR : Tru} {ZH : Zheng}.

Inductive fork_error := ConflictUnderSerialize | Empty.

(** [LinksView]: the links a strategy may read. *)
Definition links_view : Type := list cyberlink.

Class ForkChoice (F : Type) :=
  resolve : F -> list signal -> links_view -> result (fault fork_error) nat.

(** *** Serialize *)

Inductive Serialize := serialize.

#[global] Instance serialize_fork : ForkChoice Serialize := fun _ members _ =>
  match length members with
  | 0 => Err (Failed Empty)
  | 1 => Ok 0
  | _ => Err (Failed ConflictUnderSerialize)
  end.

(** *** MinHash *)

Inductive MinHash := min_hash.

#[global] Instance min_hash_fork : ForkChoice MinHash := fun _ members _ =>
  match members with
  | [] => Err (Failed Empty)
  | m0 :: rest => Ok (scan_best content_id olt m0 rest).1
  end.

(** *** Focus *)

Record Focus := mk_focus { fc_params : focusing_params }.
Definition focus_default : Focus := mk_focus params_default.
Definition with_params (p : focusing_params) : Focus := mk_focus p.

(** [links.map(Link::stake)]: the graph is built from these. *)
Definition stake_links (view : links_view) : list link :=
  map (fun l => link_stake (cl_from l) (cl_to l) (cl_amount l)) view.

(** [focus_of]: [result.focus[i]] at the position of the particle. *)
Definition focus_of (node_ids : list particle) (focus : list fx) (p : particle)
    : result (fault fork_error) fx :=
  match list_find (fun id => id = p) node_ids with
  | Some (i, _) => index_or_panic focus i
  | None => Ok fx_zero
  end.

Definition score (node_ids : list particle) (focus : list fx) (s : signal)
    : result (fault fork_error) fx :=
  try_fold (fun acc l => f ← focus_of node_ids focus (cl_to l); Ok (fx_add acc f))
    (sg_links s) fx_zero.

(** [s > best_score || (s == best_score && id < best_id)]. *)
Definition focus_better (x y : fx * particle) : bool :=
  fx_ltb y.1 x.1 || (bool_decide (x.1 = y.1) && olt x.2 y.2).

#[global] Instance focus_fork : ForkChoice Focus := fun f members view =>
  match members with
  | [] => Err (Failed Empty)
  | [_] => Ok 0
  | _ =>
      let links := stake_links view in
      match links with
      | [] => resolve min_hash members view
      | _ =>
          let graph := build_graph links context_none in
          let focus := compute_focus graph (fc_params f) in
          let node_ids := graph_node_ids graph in
          keyed ← collect (map (fun m => s ← score node_ids focus m; Ok (s, content_id m)) members);
          match keyed with
          | [] => Err (Failed Empty)
          | k0 :: rest => Ok (scan_best id focus_better k0 rest).1
          end
      end
  end.

(** What a client may rely on: a named winner is a member, an empty group
    has none, and no strategy panics. *)
Class ForkLaws (F : Type) `{!ForkChoice F} : Prop := {
  resolve_lt : forall (f : F) ms v i, resolve f ms v = Ok i -> i < length ms;
  resolve_empty : forall (f : F) v, resolve f [] v = Err (Failed Empty);
  resolve_no_panic : forall (f : F) ms v, resolve f ms v <> Err Panicked
}.

(** ** Specification of the winners *)

(** [i] is the member with the least content id. *)
Definition least_id (ms : list signal) (i : nat) : Prop :=
  exists m, ms !! i = Some m /\
    forall m', m' ∈ ms -> ole (content_id m) (content_id m') = true.

(** The score of a signal in the graph of a view, when it is defined. *)
Definition score_in (f : Focus) (view : links_view) (s : signal) : result (fault fork_error) fx :=
  let graph := build_graph (stake_links view) context_none in
  score (graph_node_ids graph) (compute_focus graph (fc_params f)) s.

(** [i] has the highest score, and the least content id among equal scores. *)
Definition highest_focus (f : Focus) (view : links_view) (ms : list signal) (i : nat) : Prop :=
  exists m s, ms !! i = Some m /\ score_in f view m = Ok s /\
    forall m', m' ∈ ms -> exists s', score_in f view m' = Ok s' /\ fx_leb s' s = true /\
      (s' = s -> ole (content_id m) (content_id m') = true).
End fork.

#[global] Arguments resolve : simpl never.

Section fork_lemmas.
Context {HM : Hemera} {NB : Nebu} {FX : Fixed} {TR : Tru} {ZH : Zheng}.

Lemma scan_best_lt {A K} (key : A -> K) better a l :
  (scan_best key better a l).1 < S (length l).
Proof.
  unfold scan_best.
  assert (forall n st, st.1 < n ->
    (fold_left (keep_best key better) (zip (seq n (length l)) l) st).1 < n + length l) as H.
  { induction l as [|m l IH]; intros n st Hst; simpl; [lia|].
    replace (n + S (length l)) with (S n + length l) by lia. apply IH.
    unfold keep_best. simpl. destruct (better _ _); simpl; lia. }
  apply (H 1 (0, key a)). simpl. lia.
Qed.

Lemma min_hash_resolve ms v i :
  resolve min_hash ms v = Ok i -> least_id ms i.
Proof.
  unfold resolve, min_hash_fork. destruct ms as [|m ms]; [done|]. intros [= <-].
  destruct (scan_best content_id olt m ms) as [i k] eqn:E. simpl.
  apply scan_best_spec in E as [(m' & Hm' & <-) Hall].
  - exists m'. split; [done|]. intros m'' Hin. rewrite Forall_forall in Hall.
    rewrite ole_olt. by rewrite (Hall _ Hin).
  - apply olt_irrefl.
  - apply olt_trans.
Qed.

Lemma min_hash_ok ms v : ms <> [] -> exists i, resolve min_hash ms v = Ok i.
Proof. destruct ms; [done|]. unfold resolve, min_hash_fork. eauto. Qed.

#[global] Instance serialize_laws : ForkLaws Serialize.
Proof.
  split; unfold resolve, serialize_fork; intros f; simpl; try done; intros ms;
    destruct ms as [|m [|m' ms]]; simpl; try done. intros _ i [= <-]. lia.
Qed.

#[global] Instance min_hash_laws : ForkLaws MinHash.
Proof.
  split; unfold resolve, min_hash_fork; try done.
  - intros [] [|m ms] v i; [done|]. intros [= <-]. apply scan_best_lt.
  - by intros [] [|m ms] v.
Qed.

Context `{!TruLaws}.

Lemma focus_of_ok g p q :
  exists x, focus_of (graph_node_ids g) (compute_focus g p) q = Ok x.
Proof.
  unfold focus_of. destruct (list_find _ _) as [[i q']|] eqn:E; [|eauto].
  apply list_find_Some in E as (Hi & _). unfold index_or_panic, ok_or.
  destruct (lookup_lt_is_Some_2 (compute_focus g p) i) as [x ->]; [|eauto].
  rewrite compute_focus_length. by eapply lookup_lt_Some.
Qed.

Lemma score_ok g p s : exists x, score (graph_node_ids g) (compute_focus g p) s = Ok x.
Proof.
  unfold score. generalize fx_zero. induction (sg_links s) as [|l ls IH]; intros acc; simpl; [eauto|].
  destruct (focus_of_ok g p (cl_to l)) as [x ->]. simpl. apply IH.
Qed.

Lemma scores_ok g p ms :
  exists ks, collect (map (fun m => s ← score (graph_node_ids g) (compute_focus g p) m;
                                    Ok (s, content_id m)) ms) = Ok ks /\
  Forall2 (fun m k => score (graph_node_ids g) (compute_focus g p) m = Ok k.1 /\
                      content_id m = k.2) ms ks.
Proof.
  induction ms as [|m ms (ks & IH & HF)]; simpl; [by exists []; repeat constructor|].
  destruct (score_ok g p m) as [x Hx]. rewrite Hx. simpl. rewrite IH. simpl.
  eexists; split; [done|]. by constructor.
Qed.

Lemma focus_resolve_eq (f : Focus) m1 m2 ms l v :
  resolve f (m1 :: m2 :: ms) (l :: v) =
    (keyed ← collect (map (fun m => s ← score_in f (l :: v) m; Ok (s, content_id m)) (m1 :: m2 :: ms));
     match keyed with
     | [] => Err (Failed Empty)
     | k0 :: rest => Ok (scan_best id focus_better k0 rest).1
     end).
Proof. done. Qed.

#[global] Instance focus_laws : ForkLaws Focus.
Proof.
  split; [|done|].
  - intros f [|m1 [|m2 ms]] v i; [done|by intros [= <-]; simpl; lia|].
    destruct v as [|l v].
    { intros Hr. by apply (resolve_lt min_hash _ []). }
    rewrite focus_resolve_eq.
    destruct (scores_ok (build_graph (stake_links (l :: v)) context_none) (fc_params f)
      (m1 :: m2 :: ms)) as (ks & Hks & HF). unfold score_in. rewrite Hks. simpl.
    pose proof (Forall2_length _ _ _ HF) as HL. simpl in HL.
    destruct ks as [|k ks]; [done|]. intros [= <-]. rewrite HL. apply scan_best_lt.
  - intros f [|m1 [|m2 ms]] v; [done..|].
    destruct v as [|l v]; [done|]. rewrite focus_resolve_eq.
    destruct (scores_ok (build_graph (stake_links (l :: v)) context_none) (fc_params f)
      (m1 :: m2 :: ms)) as (ks & Hks & _). unfold score_in. rewrite Hks. simpl.
    by destruct ks.
Qed.

Context `{!FxOrdLaws}.

Lemma focus_better_irrefl x : focus_better x x = false.
Proof.
  unfold focus_better. rewrite fx_ltb_irrefl, olt_irrefl. by rewrite andb_false_r.
Qed.

Lemma focus_better_trans x y z :
  focus_better x y = true -> focus_better y z = true -> focus_better x z = true.
Proof.
  destruct x as [s1 i1], y as [s2 i2], z as [s3 i3].
  unfold focus_better; simpl. rewrite !orb_true_iff, !andb_true_iff, !bool_decide_eq_true.
  intros [H1|[-> H1]] [H2|[-> H2]].
  - left. by eapply fx_ltb_trans.
  - by left.
  - by left.
  - right. split; [done|]. by eapply olt_trans.
Qed.

Lemma focus_not_better x y :
  focus_better x y = false -> fx_leb x.1 y.1 = true /\ (x.1 = y.1 -> ole y.2 x.2 = true).
Proof.
  unfold focus_better. rewrite orb_false_iff, andb_false_iff. intros [H1 H2].
  split; [by rewrite fx_leb_ltb, H1|]. intros E. rewrite ole_olt.
  destruct H2 as [H2|H2]; [by rewrite bool_decide_eq_true_2 in H2 | by rewrite H2].
Qed.

Lemma focus_resolve_highest f ms l v :
  2 <= length ms -> exists i, resolve f ms (l :: v) = Ok i /\ highest_focus f (l :: v) ms i.
Proof.
  destruct ms as [|m1 [|m2 ms]]; simpl; [lia..|]. intros _. rewrite focus_resolve_eq.
  destruct (scores_ok (build_graph (stake_links (l :: v)) context_none) (fc_params f)
    (m1 :: m2 :: ms)) as (ks & Hks & HF). unfold score_in. rewrite Hks. simpl.
  destruct ks as [|k ks]; [by inversion HF|].
  destruct (scan_best id focus_better k ks) as [i kb] eqn:E. simpl. exists i. split; [done|].
  apply scan_best_spec in E as [(k' & Hk' & <-) Hall];
    [|apply focus_better_irrefl | apply focus_better_trans].
  destruct (Forall2_lookup_r _ _ _ _ _ HF Hk') as (m & Hm & Hs & Hid).
  exists m, k'.1. split; [done|]. split; [done|]. intros m' Hin.
  apply list_elem_of_lookup in Hin as [j Hj].
  destruct (Forall2_lookup_l _ _ _ _ _ HF Hj) as (kj & Hkj & Hsj & Hidj).
  exists kj.1. split; [done|]. rewrite Hid, Hidj.
  apply (focus_not_better kj k'). rewrite Forall_forall in Hall. apply Hall.
  by apply list_elem_of_lookup_2 in Hkj.
Qed.
End fork_lemmas.

(** ** Properties *)

Section fork_properties.
Context {HM : Hemera} {NB : Nebu} {FX : Fixed} {TR : Tru} {ZH : Zheng}.
Context `{!TruLaws, !FxOrdLaws}.

(** Focus names, among two or more members, the one with the highest
    focus score and the least content id among equal scores; with no links to
    rank on it names what MinHash names, the least content id; a single member
    wins and an empty group is the error [Empty].  It never panics. *)
Lemma focus_winner (f : Focus) (ms : list signal) (view : links_view) :
  match length ms with
  | 0 => resolve f ms view = Err (Failed Empty)
  | 1 => resolve f ms view = Ok 0
  | _ => exists i, resolve f ms view = Ok i /\
           match view with [] => least_id ms i | _ => highest_focus f view ms i end
  end.
Proof.
  destruct ms as [|m1 [|m2 ms]]; [done..|]. simpl.
  destruct view as [|l v]; [|apply focus_resolve_highest; simpl; lia].
  destruct (min_hash_ok (m1 :: m2 :: ms) []) as [i Hi]; [done|].
  exists i. split; [done|]. by apply (min_hash_resolve _ []).
Qed.
End fork_properties.

(** ** Witnesses *)

Lemma focus_winner_witness :
  exists i, resolve focus_default [ex_s0; ex_s1] (sg_links ex_s0) = Ok i /\
    highest_focus focus_default (sg_links ex_s0) [ex_s0; ex_s1] i.
Proof. exact (focus_winner focus_default [ex_s0; ex_s1] (sg_links ex_s0)). Defined.
