(* ===== verification/Reconcile.v ===== *)
(** * Reconcile: detection wired to a fork-choice (src/reconcile.rs)

    [reconciler] pairs a conflict index with a strategy.  [rc_observe] is the
    incremental timing, [resolve_all] the batch timing; both go through
    [resolve_key].  The theorems use a strategy only through [ForkLaws]. *)

From S2P Require Import Prelude Order Bytes Externals Goldilocks Instances Chain Conflict Fork.

Section reconcile.
Context {HM : Hemera} {NB : Nebu} {FX : Fixed} {TR : Tru} {ZH : Zheng}.
Context {F : Type} `{!ForkChoice F}.

Record resolved := mk_resolved { rs_key : particle; rs_winner : particle }.

Record reconciler := mk_reconciler { rc_index : conflict_index; rc_fork : F }.
Definition reconciler_new (fork : F) : reconciler := mk_reconciler index_new fork.

Definition resolve_key (r : reconciler) (key : particle) : result (fault fork_error) resolved :=
  group ← may_fail (ok_or Empty (group (rc_index r) key));
  let view := all_links (rc_index r) in
  idx ← resolve (rc_fork r) (members group) view;
  m ← index_or_panic (members group) idx;
  Ok (mk_resolved key (content_id m)).

(** The index keeps the signal even when a resolution fails. *)
Definition rc_observe (r : reconciler) (s : signal)
    : result (fault fork_error) (list resolved) * reconciler :=
  let (keys, index) := observe (rc_index r) s in
  let r' := mk_reconciler index (rc_fork r) in
  (collect (map (resolve_key r') keys), r').

Definition resolve_all (r : reconciler) : result (fault fork_error) (list resolved) :=
  collect (map (resolve_key r) (conflicts (rc_index r))).

(** A reconciler that observed a sequence of signals. *)
Definition observed (fork : F) (l : list signal) : reconciler :=
  fold_left (fun r s => (rc_observe r s).2) l (reconciler_new fork).

Lemma observed_index fork l : observed fork l = mk_reconciler (observe_all index_new l) fork.
Proof.
  unfold observed, observe_all, reconciler_new. generalize index_new.
  induction l as [|s l IH]; intros c; [done|]. cbn [fold_left].
  rewrite <-IH. f_equal.
Qed.

Lemma observed_snoc fork l s : observed fork (l ++ [s]) = (rc_observe (observed fork l) s).2.
Proof. unfold observed. by rewrite fold_left_app. Qed.

Context `{!ForkLaws F}.

Lemma resolve_key_no_panic r key : resolve_key r key <> Err Panicked.
Proof.
  unfold resolve_key. destruct (group (rc_index r) key) as [g|]; simpl; [|done].
  destruct (resolve (rc_fork r) (members g) (all_links (rc_index r))) as [i|e] eqn:E; simpl.
  - apply resolve_lt in E. unfold index_or_panic.
    destruct (lookup_lt_is_Some_2 _ _ E) as [m ->]. done.
  - intros [= ->]. by apply resolve_no_panic in E.
Qed.

Lemma resolve_key_key r key x : resolve_key r key = Ok x -> rs_key x = key.
Proof.
  unfold resolve_key. destruct (group (rc_index r) key) as [g|]; simpl; [|done].
  destruct (resolve _ _ _) as [i|]; simpl; [|done].
  destruct (index_or_panic _ _) as [m|]; simpl; [|done]. by intros [= <-].
Qed.

Lemma resolve_key_winner l fork key x :
  resolve_key (observed fork l) key = Ok x -> rs_winner x ∈ claimants l key.
Proof.
  rewrite observed_index. unfold resolve_key, group; simpl.
  destruct (groups _ !! key) as [m|] eqn:Em; simpl; [|done].
  destruct (resolve _ _ _) as [i|]; simpl; [|done].
  unfold index_or_panic, ok_or. destruct (_ !! i) as [s|] eqn:Es; simpl; [|done].
  intros [= <-]. simpl. rewrite <-ids_at_all. unfold ids_at. rewrite Em. simpl.
  apply list_elem_of_lookup_2 in Es. unfold members in Es.
  apply elem_of_sorted_values in Es as [id Hid]. simpl in Hid.
  destruct (observe_all_wf _ l index_new_wf key m id s Em Hid) as [-> _].
  apply elem_of_dom. eauto.
Qed.

Lemma collect_no_panic {A B E} (f : A -> result (fault E) B) l :
  (forall a, f a <> Err Panicked) -> collect (map f l) <> Err Panicked.
Proof.
  intros Hf. induction l as [|a l IH]; simpl; [done|].
  specialize (Hf a). destruct (f a) as [b|[|e]]; simpl; [|congruence|congruence].
  destruct (collect _) as [bs|[|e]]; simpl; congruence.
Qed.

Lemma Forall2_map_key r ks out :
  Forall2 (fun k x => resolve_key r k = Ok x) ks out -> map rs_key out = ks.
Proof.
  induction 1 as [|k x ks out Hk _ IH]; simpl; [done|].
  by rewrite IH, (resolve_key_key r k x).
Qed.

(** Among results with distinct keys, one key selects one result. *)
Lemma Forall2_filter_one r ks out k :
  Forall2 (fun k x => resolve_key r k = Ok x) ks out -> NoDup ks -> k ∈ ks ->
  Forall2 (fun k x => resolve_key r k = Ok x) [k] (filter (fun x => rs_key x ∈ [k]) out).
Proof.
  intros HF Hnd Hin. revert Hnd Hin.
  induction HF as [|k' x ks out Hk' HF IH]; intros Hnd Hin.
  { by apply elem_of_nil in Hin. }
  apply NoDup_cons in Hnd as [Hni Hnd]. rewrite filter_cons, (resolve_key_key _ _ _ Hk').
  destruct (decide (k = k')) as [->|Hne].
  - rewrite decide_True by constructor. constructor; [done|].
    rewrite filter_none; [constructor|]. apply Forall_forall.
    intros y Hy Hyk%list_elem_of_singleton. apply Hni.
    rewrite <-(Forall2_map_key _ _ _ HF), <-Hyk. by apply list_elem_of_fmap_2.
  - rewrite decide_False by (rewrite list_elem_of_singleton; congruence).
    apply IH; [done|]. apply elem_of_cons in Hin as [->|]; done.
Qed.
End reconcile.

Section min_hash_winner.
Context {HM : Hemera} {NB : Nebu} {FX : Fixed} {TR : Tru} {ZH : Zheng}.

(** The least content id among the claimants of a key. *)
Definition least_of (X : gset particle) : particle :=
  default zero32 (head (sorted_elements X)).

Lemma least_of_spec (X : gset particle) w :
  w ∈ X -> (forall y, y ∈ X -> ole w y = true) -> least_of X = w.
Proof.
  intros Hw Hle. unfold least_of, sorted_elements.
  pose proof (sort_by_sorted id (elements X)) as Hs. fold (sort (elements X)) in Hs.
  assert (forall y, y ∈ sort (elements X) <-> y ∈ X) as Hin.
  { intros y. by rewrite sort_perm, elem_of_elements. }
  destruct (sort (elements X)) as [|x l] eqn:E; simpl.
  { apply Hin in Hw. by apply elem_of_nil in Hw. }
  apply ole_antisym; [|apply Hle, Hin; constructor].
  apply Hin in Hw. apply elem_of_cons in Hw as [->|Hw]; [apply ole_refl|].
  inversion Hs as [|?? _ Hall]; subst. rewrite Forall_forall in Hall. by apply Hall.
Qed.

Lemma min_hash_resolve_key l key :
  claimants l key <> ∅ ->
  resolve_key (observed min_hash l) key = Ok (mk_resolved key (least_of (claimants l key))).
Proof.
  intros Hne. rewrite observed_index. unfold resolve_key, group; simpl.
  rewrite <-ids_at_all in Hne |- *. unfold ids_at in Hne |- *.
  destruct (groups _ !! key) as [m|] eqn:Em; simpl in Hne |- *;
    [|by rewrite dom_empty_L in Hne].
  assert (members (mk_group key m) <> []) as Hms.
  { intros E. apply (f_equal length) in E. unfold members in E.
    rewrite sorted_values_length in E. apply map_size_empty_inv in E. simpl in E.
    subst. by rewrite dom_empty_L in Hne. }
  destruct (min_hash_ok (members (mk_group key m)) (all_links (observe_all index_new l)) Hms) as [i Hi].
  rewrite Hi. simpl. apply min_hash_resolve in Hi as (w & Hw & Hle).
  unfold index_or_panic. rewrite Hw. simpl. f_equal. f_equal. symmetry.
  assert (forall s, s ∈ members (mk_group key m) <-> m !! content_id s = Some s) as Hmem.
  { intros s. unfold members. rewrite elem_of_sorted_values. simpl. split; [|eauto].
    intros [id Hid]. destruct (observe_all_wf _ l index_new_wf key m id s Em Hid) as [-> _]. done. }
  apply least_of_spec.
  - apply elem_of_dom. exists w. apply Hmem. by apply list_elem_of_lookup_2 in Hw.
  - intros y Hy. apply elem_of_dom in Hy as [s Hs].
    destruct (observe_all_wf _ l index_new_wf key m y s Em Hs) as [<- _].
    apply Hle. by apply Hmem.
Qed.

Lemma conflicts_perm l l' :
  l ≡ₚ l' -> conflicts (observe_all index_new l) = conflicts (observe_all index_new l').
Proof.
  intros Hp. rewrite <-(sort_by_id_sorted id (conflicts (observe_all index_new l)))
    by apply SortedBy_fmap_filter.
  rewrite <-(sort_by_id_sorted id (conflicts (observe_all index_new l')))
    by apply SortedBy_fmap_filter.
  apply sort_by_proper; [auto|]. apply NoDup_Permutation; [auto with foculus..|].
  intros k. rewrite !elem_of_conflicts, !ids_at_all. by rewrite (claimants_perm l l').
Qed.

Lemma conflict_claimants l k : k ∈ conflicts (observe_all index_new l) -> claimants l k <> ∅.
Proof.
  rewrite elem_of_conflicts, ids_at_all. intros Hs E. rewrite E, size_empty in Hs. lia.
Qed.

(** MinHash's batch answer as a function of the observed set alone. *)
Lemma min_hash_resolve_all l :
  resolve_all (observed min_hash l) =
    Ok (map (fun k => mk_resolved k (least_of (claimants l k)))
          (conflicts (observe_all index_new l))).
Proof.
  unfold resolve_all. rewrite observed_index at 2. simpl.
  assert (forall ks, (forall k, k ∈ ks -> claimants l k <> ∅) ->
    collect (map (resolve_key (observed min_hash l)) ks) =
      Ok (map (fun k => mk_resolved k (least_of (claimants l k))) ks)) as H.
  { induction ks as [|k ks IH]; intros Hks; simpl; [done|].
    rewrite min_hash_resolve_key by (apply Hks; constructor). simpl.
    rewrite IH; [done|]. intros k' Hk'. apply Hks. by constructor. }
  apply H. apply conflict_claimants.
Qed.
End min_hash_winner.

(** ** Properties *)

Section reconcile_properties.
Context {HM : Hemera} {NB : Nebu} {FX : Fixed} {TR : Tru} {ZH : Zheng}.
Context {F : Type} `{!ForkChoice F, !ForkLaws F}.

(** C17: Whatever the strategy, neither timing panics, and the two agree: when
    the batch over the index resolves, it lists each conflicting key once, in
    ascending order, with the content id of a signal that claimed it; and what
    [observe] returns for a signal is exactly the batch's entries, on the same
    index, for the keys that signal put into conflict. *)
Theorem timings_agree (fork : F) (l : list signal) (s : signal) :
  resolve_all (observed fork l) <> Err Panicked /\
  (rc_observe (observed fork l) s).1 <> Err Panicked /\
  (forall out, resolve_all (observed fork (l ++ [s])) = Ok out ->
    map rs_key out = conflicts (observe_all index_new (l ++ [s])) /\
    (forall r, r ∈ out -> rs_winner r ∈ claimants (l ++ [s]) (rs_key r)) /\
    (rc_observe (observed fork l) s).1 =
      Ok (filter (fun r => rs_key r ∈ (observe (observe_all index_new l) s).1) out)).
Proof.
  split; [apply collect_no_panic, resolve_key_no_panic|].
  split.
  { unfold rc_observe. destruct (observe (rc_index (observed fork l)) s) as [keys idx]. simpl.
    apply collect_no_panic, resolve_key_no_panic. }
  intros out Hout. unfold resolve_all in Hout. pose proof Hout as HF.
  rewrite collect_map_ok in HF.
  set (r' := observed fork (l ++ [s])) in *.
  assert (rc_index r' = observe_all index_new (l ++ [s])) as Hidx.
  { unfold r'. by rewrite observed_index. }
  pose proof (Forall2_map_key _ _ _ HF) as Hkeys. rewrite Hidx in Hkeys, HF.
  split; [done|]. split.
  { intros r Hr. apply list_elem_of_lookup in Hr as [i Hi].
    destruct (Forall2_lookup_r _ _ _ _ _ HF Hi) as (k & _ & Hk).
    rewrite (resolve_key_key _ _ _ Hk). by eapply resolve_key_winner. }
  assert ((rc_observe (observed fork l) s).1 =
          collect (map (resolve_key r') (observe (observe_all index_new l) s).1)) as ->.
  { unfold r'. rewrite observed_snoc. unfold rc_observe. rewrite observed_index. simpl.
    by destruct (observe (observe_all index_new l) s). }
  apply collect_map_ok. pose proof (conflicts_NoDup (observe_all index_new (l ++ [s]))) as Hnd.
  assert (forall k, k ∈ (observe (observe_all index_new l) s).1 ->
            k ∈ conflicts (observe_all index_new (l ++ [s]))) as Hin.
  { intros k. rewrite observe_reported. case_decide as Hs; [|by intros ?%elem_of_nil].
    intros ->%list_elem_of_singleton. apply elem_of_conflicts.
    unfold observe_all. rewrite fold_left_app. cbn [fold_left].
    fold (observe_all index_new l). rewrite ids_at_observe.
    by rewrite decide_True. }
  assert (forall k, k ∈ (observe (observe_all index_new l) s).1 ->
            (observe (observe_all index_new l) s).1 = [k]) as Hone.
  { intros k. rewrite observe_reported. case_decide; [|by intros ?%elem_of_nil].
    by intros ->%list_elem_of_singleton. }
  revert Hin Hone. generalize (observe (observe_all index_new l) s).1. intros ks Hin Hone.
  destruct ks as [|k ks].
  { rewrite filter_none; [constructor|]. apply Forall_forall. intros x _. apply not_elem_of_nil. }
  specialize (Hone k ltac:(constructor)). injection Hone as ->.
  eapply Forall2_filter_one; [done..|]. apply Hin. constructor.
Qed.

(** C13: Under MinHash the batch answer is a function of the set of observed
    signals: each conflicting key is won by the least content id among the
    signals that claimed it, and any reordering of the observations gives the
    same answer. *)
Theorem min_hash_convergent (l l' : list signal) :
  l ≡ₚ l' ->
  resolve_all (observed min_hash l) = resolve_all (observed min_hash l') /\
  resolve_all (observed min_hash l) =
    Ok (map (fun k => mk_resolved k (least_of (claimants l k)))
          (conflicts (observe_all index_new l))).
Proof.
  intros Hp. rewrite !min_hash_resolve_all, (conflicts_perm l l' Hp). split; [|done].
  f_equal. apply map_ext. intros k. by rewrite (claimants_perm l l').
Qed.
End reconcile_properties.

(** ** Witnesses *)

(** Two signals of one neuron at one step. *)
Definition ex_rival : signal := ex_signal 0 zero32 [].

Lemma min_hash_convergent_witness :
  resolve_all (observed min_hash [ex_s0; ex_rival]) = resolve_all (observed min_hash [ex_rival; ex_s0]) /\
  resolve_all (observed min_hash [ex_s0; ex_rival]) =
    Ok (map (fun k => mk_resolved k (least_of (claimants [ex_s0; ex_rival] k)))
          (conflicts (observe_all index_new [ex_s0; ex_rival]))).
Proof. apply (min_hash_convergent [ex_s0; ex_rival] [ex_rival; ex_s0]). apply perm_swap. Defined.

Lemma timings_agree_witness :
  resolve_all (observed serialize [ex_s0]) <> Err Panicked.
Proof. exact (proj1 (timings_agree serialize [ex_s0] ex_rival)). Defined.
