(* ===== verification/Frames.v ===== *)
(** * Frames: tape frames of signals and intents (src/frames.rs)

    [serialize_signal]/[deserialize_signal] and their intent counterparts are
    the payload codecs; [encode_signal_frame] and the decoding loops wrap them
    in the tape framing of [Externals.Tape].  A loop over [next_chunk] is a
    fixpoint on a fuel, [tape_size] of the fed stream. *)

From S2P Require Import Prelude Order Bytes Externals Goldilocks Instances Chain.

Section frames.
Context {HM : Hemera} {NB : Nebu} {ZH : Zheng} {TP : Tape}.

Definition RENDER_BIN : byte := "b"%byte.

(** ** Payloads *)

Definition serialize_signal (s : signal) : list byte :=
  arr_bytes (sg_neuron s) ++ u64_le (sg_step s) ++ arr_bytes (sg_prev s) ++ u64_le (sg_height s)
    ++ u32_le (as_u32 (N.of_nat (length (sg_links s))))
    ++ concat (map link_bytes (sg_links s))
    ++ u32_le (as_u32 (N.of_nat (length (sg_box_moves s))))
    ++ concat (map box_bytes (sg_box_moves s))
    ++ u32_le (as_u32 (N.of_nat (length (sg_delta_pi s))))
    ++ concat (map pi_bytes (sg_delta_pi s)).

Definition take32 : reader particle := read_arr 32.
Definition take_u64 : reader N := read_u64.
Definition take_u32 : reader N := read_u32.
Definition take_u8 : reader byte := read_byte.

Definition take_link : reader cyberlink :=
  neuron ← take32; from ← take32; to ← take32; token ← take32;
  amount ← take_u64; valence ← take_u8; height ← take_u64;
  mret (mk_cyberlink neuron from to token amount (i8_of_u8 valence) height).

Definition take_box_move : reader box_move :=
  nullifier ← take32;
  tag ← take_u8;
  commitment ← (match tag with
    | x00 => mret None
    | x01 => pt ← take32; val ← take_u64; mret (Some (pt, val))
    | _ => read_fail
    end : reader (option (particle * N)));
  mret (mk_box_move nullifier commitment).

Definition take_pi : reader (particle * N) := to ← take32; amount ← take_u64; mret (to, amount).

(** A trailing section, absent in old frames. *)
Definition take_section {A} (r : reader A) : reader (list A) :=
  more ← read_more;
  if more : bool then count ← take_u32; read_many (N.to_nat count) r else mret [].

Definition read_signal : reader signal :=
  neuron ← take32; step ← take_u64; prev ← take32; height ← take_u64;
  count ← take_u32;
  links ← read_many (N.to_nat count) take_link;
  box_moves ← take_section take_box_move;
  delta_pi ← take_section take_pi;
  mret (mk_signal neuron SELF_NETWORK links delta_pi box_moves prev step height None).

Definition deserialize_signal (buf : list byte) : option signal := fst <$> read_signal buf 0.

Definition serialize_intent (i : intent_record) : list byte :=
  arr_bytes (it_neuron i) ++ u64_le (it_h0 i) ++ arr_bytes (it_scope_hash i)
    ++ arr_bytes (it_signature i).

Definition read_intent : reader intent_record :=
  neuron ← take32; h0 ← take_u64; scope_hash ← take32; signature ← read_arr 64;
  mret (mk_intent neuron h0 scope_hash signature).

Definition deserialize_intent (buf : list byte) : option intent_record := fst <$> read_intent buf 0.

(** ** Frames *)

Definition encode_signal_frame (s : signal) : list byte :=
  chunk_encode (mk_chunk sigil_ZAP RENDER_BIN (serialize_signal s)).
Definition encode_intent_frame (i : intent_record) : list byte :=
  chunk_encode (mk_chunk sigil_KET RENDER_BIN (serialize_intent i)).

Definition decode_signal_frame (bytes : list byte) : option signal :=
  match next_chunk (tape_feed bytes) with
  | Some (c, _) => if bool_decide (ch_sigil c = sigil_ZAP) then deserialize_signal (ch_payload c) else None
  | None => None
  end.

(** [loop { match reader.next_chunk() { Chunk(c) => body, _ => break } }];
    [None] when the fuel runs out. *)
Fixpoint chunk_loop {A} (body : list A -> chunk -> list A) (fuel : nat) (st : tape_state)
    (out : list A) : option (list A) :=
  match fuel with
  | 0 => None
  | S fuel =>
      match next_chunk st with
      | Some (c, st') => chunk_loop body fuel st' (body out c)
      | None => Some out
      end
  end.

Definition decode_loop {A} (body : list A -> chunk -> list A) (bytes : list byte) : option (list A) :=
  chunk_loop body (S (tape_size (tape_feed bytes))) (tape_feed bytes) [].

Definition signals_body (out : list signal) (c : chunk) : list signal :=
  if bool_decide (ch_sigil c = sigil_ZAP) then
    match deserialize_signal (ch_payload c) with Some s => out ++ [s] | None => out end
  else out.

Definition decode_signals (bytes : list byte) : option (list signal) :=
  decode_loop signals_body bytes.

Inductive cyber_frame := FSignal (s : signal) | FIntent (i : intent_record).

Definition events_body (out : list cyber_frame) (c : chunk) : list cyber_frame :=
  if bool_decide (ch_sigil c = sigil_ZAP) then
    match deserialize_signal (ch_payload c) with Some s => out ++ [FSignal s] | None => out end
  else if bool_decide (ch_sigil c = sigil_KET) then
    match deserialize_intent (ch_payload c) with Some i => out ++ [FIntent i] | None => out end
  else out.

Definition decode_events (bytes : list byte) : option (list cyber_frame) :=
  decode_loop events_body bytes.

(** ** What the wire carries *)

(** The network tag and the proof do not travel. *)
Definition on_wire (s : signal) : signal :=
  mk_signal (sg_neuron s) SELF_NETWORK (sg_links s) (sg_delta_pi s) (sg_box_moves s)
    (sg_prev s) (sg_step s) (sg_height s) None.

(** Machine integers, and lists whose lengths fit the [u32] counts. *)
Definition frame_wf (s : signal) : Prop :=
  signal_wf s /\ is_u32 (N.of_nat (length (sg_links s))) /\
  is_u32 (N.of_nat (length (sg_box_moves s))) /\ is_u32 (N.of_nat (length (sg_delta_pi s))).

Definition intent_wf (i : intent_record) : Prop := is_u64 (it_h0 i).

(** What a stream may hold, its bytes, and what decoding it yields. *)
Inductive stream_item := SSignal (s : signal) | SIntent (i : intent_record) | SOther (c : chunk).

Definition item_wf (x : stream_item) : Prop :=
  match x with
  | SSignal s => frame_wf s
  | SIntent i => intent_wf i
  | SOther c => ch_sigil c <> sigil_ZAP /\ ch_sigil c <> sigil_KET
  end.

Definition item_bytes (x : stream_item) : list byte :=
  match x with
  | SSignal s => encode_signal_frame s
  | SIntent i => encode_intent_frame i
  | SOther c => chunk_encode c
  end.

Definition item_event (x : stream_item) : list cyber_frame :=
  match x with
  | SSignal s => [FSignal (on_wire s)]
  | SIntent i => [FIntent i]
  | SOther _ => []
  end.

Definition item_signal (x : stream_item) : list signal :=
  match x with SSignal s => [on_wire s] | _ => [] end.

(** An old frame: a valid encoding cut before its trailing sections. *)
Definition head_bytes (s : signal) : list byte :=
  arr_bytes (sg_neuron s) ++ u64_le (sg_step s) ++ arr_bytes (sg_prev s) ++ u64_le (sg_height s)
    ++ u32_le (as_u32 (N.of_nat (length (sg_links s))))
    ++ concat (map link_bytes (sg_links s)).
Definition section_bytes {A} (e : A -> list byte) (l : list A) : list byte :=
  u32_le (as_u32 (N.of_nat (length l))) ++ concat (map e l).
End frames.

Section frames_lemmas.
Context {HM : Hemera} {NB : Nebu} {ZH : Zheng} {TP : Tape}.

Lemma serialize_signal_eq s :
  serialize_signal s =
    head_bytes s ++ section_bytes box_bytes (sg_box_moves s) ++ section_bytes pi_bytes (sg_delta_pi s).
Proof. unfold serialize_signal, head_bytes, section_bytes. by rewrite <-!app_assoc. Qed.

Lemma reads_link l : link_wf l -> reads take_link (link_bytes l) l.
Proof.
  intros (Ha & Hv & Hh). unfold take_link, link_bytes.
  do 4 (eapply reads_bind; [apply reads_arr|]).
  eapply reads_bind; [by apply reads_u64|].
  eapply reads_bind; [apply reads_byte|].
  rewrite i8_round_trip by done. destruct l; simpl.
  apply (reads_bind_ret _ (mk_cyberlink _ _ _ _ _ _)). by apply reads_u64.
Qed.

Lemma reads_box m : box_wf m -> reads take_box_move (box_bytes m) m.
Proof.
  destruct m as [n [[pt v]|]]; unfold box_wf, take_box_move, box_bytes; simpl; intros Hv;
    (eapply reads_bind; [apply reads_arr|]).
  - change (x01 :: arr_bytes pt ++ u64_le v) with ([x01] ++ (arr_bytes pt ++ u64_le v)).
    eapply reads_bind; [apply reads_byte|]. simpl.
    apply (reads_bind_ret _ (fun c => mk_box_move n c)).
    eapply reads_bind; [apply reads_arr|].
    apply (reads_bind_ret _ (fun v => Some (pt, v))). by apply reads_u64.
  - change [x00] with ([x00] ++ []). eapply reads_bind; [apply reads_byte|]. simpl.
    apply (reads_bind_ret _ (fun c => mk_box_move n c)). apply reads_ret.
Qed.

Lemma reads_pi e : pi_wf e -> reads take_pi (pi_bytes e) e.
Proof.
  destruct e as [p v]. unfold pi_wf, take_pi, pi_bytes; simpl. intros Hv.
  eapply reads_bind; [apply reads_arr|]. apply (reads_bind_ret _ (fun v => (p, v))). by apply reads_u64.
Qed.

Lemma reads_count {A} (r : reader A) (e : A -> list byte) l :
  is_u32 (N.of_nat (length l)) -> Forall (fun a => reads r (e a) a) l ->
  reads (count ← take_u32; read_many (N.to_nat count) r) (section_bytes e l) l.
Proof.
  intros Hl Hall. unfold section_bytes. rewrite as_u32_id by done.
  eapply reads_bind; [by apply reads_u32|]. rewrite Nat2N.id. by apply reads_many.
Qed.

Lemma reads_section {A} (r : reader A) (e : A -> list byte) l :
  is_u32 (N.of_nat (length l)) -> Forall (fun a => reads r (e a) a) l ->
  reads (take_section r) (section_bytes e l) l.
Proof.
  intros Hl Hall. unfold take_section. apply reads_more; [|by apply reads_count].
  intros E%(f_equal length). unfold section_bytes in E. rewrite length_app, u32_le_length in E. done.
Qed.

Lemma reads_signal s : frame_wf s -> reads read_signal (serialize_signal s) (on_wire s).
Proof.
  intros ((Hst & Hh & Hl & Hp & Hb) & Nl & Nb & Np).
  unfold read_signal, serialize_signal.
  eapply reads_bind; [apply reads_arr|]. eapply reads_bind; [by apply reads_u64|].
  eapply reads_bind; [apply reads_arr|]. eapply reads_bind; [by apply reads_u64|].
  eapply reads_bind; [apply reads_u32; by rewrite as_u32_id|].
  rewrite (as_u32_id (N.of_nat (length (sg_links s)))), Nat2N.id by done.
  eapply reads_bind.
  { apply reads_many. eapply Forall_impl; [exact Hl|]. intros ? ?. by apply reads_link. }
  rewrite app_assoc. eapply reads_bind.
  { apply reads_section; [done|]. eapply Forall_impl; [exact Hb|]. intros ? ?. by apply reads_box. }
  eapply (reads_bind_ret _ (fun d => mk_signal _ _ _ d _ _ _ _ _)), reads_section; [done|].
  eapply Forall_impl; [exact Hp|]. intros ? ?. by apply reads_pi.
Qed.

Lemma reads_intent i : intent_wf i -> reads read_intent (serialize_intent i) i.
Proof.
  destruct i as [n h sc sig]. unfold intent_wf, read_intent, serialize_intent; simpl. intros Hh.
  eapply reads_bind; [apply reads_arr|]. eapply reads_bind; [by apply reads_u64|].
  eapply reads_bind; [apply reads_arr|]. apply (reads_bind_ret _ (mk_intent n h sc)), reads_arr.
Qed.

Lemma reads_whole {A} (r : reader A) bs a rest : reads r bs a -> fst <$> r (bs ++ rest) 0 = Some a.
Proof. intros Hr. specialize (Hr [] rest). simpl in Hr. by rewrite Hr. Qed.

Lemma deserialize_serialize s rest :
  frame_wf s -> deserialize_signal (serialize_signal s ++ rest) = Some (on_wire s).
Proof. intros Hs. by apply reads_whole, reads_signal. Qed.

Lemma deserialize_serialize_intent i rest :
  intent_wf i -> deserialize_intent (serialize_intent i ++ rest) = Some i.
Proof. intros Hi. by apply reads_whole, reads_intent. Qed.

(** ** What a successful decode says of the bytes *)

Lemma parsed_link buf p l p' : take_link buf p = Some (l, p') -> parsed buf p (link_bytes l) p' /\ link_wf l.
Proof.
  unfold take_link. intros H. do 7 step_reader H. injection H as <- <-.
  apply parsed_arr in E, E0, E1, E2. apply parsed_u64 in E3 as [E3 ?], E5 as [E5 ?].
  apply parsed_byte in E4. unfold link_wf, link_bytes; simpl. rewrite u8_round_trip.
  split; [|split_and!; auto using i8_of_u8_range].
  parsed_seq.
Qed.

Lemma parsed_box buf p m p' :
  take_box_move buf p = Some (m, p') -> parsed buf p (box_bytes m) p' /\ box_wf m.
Proof.
  unfold take_box_move. intros H. do 2 step_reader H. step_reader H. injection H as <- <-.
  apply parsed_arr in E. apply parsed_byte in E0. unfold box_bytes, box_wf; simpl.
  destruct b eqn:Eb; try discriminate E1.
  - injection E1 as <- <-. split; [|done]. by eapply parsed_app.
  - do 2 step_reader E1. injection E1 as <- <-. apply parsed_arr in E2.
    apply parsed_u64 in E3 as [E3 ?]. split; [parsed_seq | done].
Qed.

Lemma parsed_pi buf p e p' : take_pi buf p = Some (e, p') -> parsed buf p (pi_bytes e) p' /\ pi_wf e.
Proof.
  unfold take_pi. intros H. do 2 step_reader H. injection H as <- <-.
  apply parsed_arr in E. apply parsed_u64 in E0 as [E0 ?]. split; [parsed_seq | done].
Qed.

Lemma parsed_count {A} (r : reader A) (e : A -> list byte) (wf : A -> Prop) buf p l p' :
  (forall buf p a p', r buf p = Some (a, p') -> parsed buf p (e a) p' /\ wf a) ->
  (count ← take_u32; read_many (N.to_nat count) r) buf p = Some (l, p') ->
  parsed buf p (section_bytes e l) p' /\ is_u32 (N.of_nat (length l)) /\ Forall wf l.
Proof.
  intros Hr H. step_reader H. apply parsed_u32 in E as [E Hn].
  apply (parsed_many r e wf) in H as (H & Hl & Hall);
    [|done|apply parsed_le in E; lia].
  assert (N.of_nat (length l) = n) as En by lia.
  unfold section_bytes. rewrite En, as_u32_id by done.
  split; [parsed_seq | done].
Qed.

(** A trailing section is either absent, at the end of the buffer, or its
    canonical encoding. *)
Lemma parsed_section {A} (r : reader A) (e : A -> list byte) (wf : A -> Prop) buf p l p' :
  (forall buf p a p', r buf p = Some (a, p') -> parsed buf p (e a) p' /\ wf a) ->
  p <= length buf -> take_section r buf p = Some (l, p') ->
  p' <= length buf /\ is_u32 (N.of_nat (length l)) /\ Forall wf l /\
  ((p = length buf /\ l = [] /\ p' = p) \/ parsed buf p (section_bytes e l) p').
Proof.
  intros Hr Hp. unfold take_section, read_more. unfold mbind at 1, reader_bind at 1.
  case_bool_decide as Hlt.
  - intros H. apply (parsed_count r e wf) in H as (H & Hl & Hall); [|done].
    pose proof (parsed_le _ _ _ _ H). split_and!; [lia|auto..].
  - intros [= <- <-]. split; [done|]. split; [unfold is_u32, u32_max; simpl; lia|]. split; [done|]. left. split; [lia|done].
Qed.

(** A head and two trailing sections make up the whole buffer, up to bytes
    after the last one. *)
Lemma parsed_sections buf hd p (ms : list box_move) p1 (ds : list (particle * N)) p2 :
  parsed buf 0 hd p ->
  (p = length buf /\ ms = [] /\ p1 = p) \/ parsed buf p (section_bytes box_bytes ms) p1 ->
  (p1 = length buf /\ ds = [] /\ p2 = p1) \/ parsed buf p1 (section_bytes pi_bytes ds) p2 ->
  (ms = [] /\ ds = [] /\ buf = hd) \/
  (ds = [] /\ buf = hd ++ section_bytes box_bytes ms) \/
  (exists rest, buf = (hd ++ section_bytes box_bytes ms ++ section_bytes pi_bytes ds) ++ rest).
Proof.
  intros Hh Hb Hd. assert (forall bs, parsed buf 0 bs (length buf) -> buf = bs) as Hall.
  { intros bs H%parsed_whole. by rewrite drop_all, app_nil_r in H. }
  destruct Hb as [(-> & -> & ->)|Hb].
  - left. destruct Hd as [(_ & -> & _)|Hd]; [auto|]. exfalso.
    pose proof (parsed_le _ _ _ _ Hd). destruct Hd as [Hl _].
    unfold section_bytes in Hl. rewrite length_app, u32_le_length in Hl. lia.
  - right. pose proof (parsed_app _ _ _ _ _ _ Hh Hb) as H1.
    destruct Hd as [(-> & -> & _)|Hd]; [left; auto|]. right.
    exists (drop p2 buf). rewrite app_assoc. by eapply parsed_whole, parsed_app.
Qed.

Lemma chunk_loop_enough `{!TapeLaws} {A} (body : list A -> chunk -> list A) fuel st out :
  tape_size st < fuel -> is_Some (chunk_loop body fuel st out).
Proof.
  revert st out; induction fuel as [|fuel IH]; intros st out Hlt; [lia|]. simpl.
  destruct (next_chunk st) as [[c st']|] eqn:E; [|eauto].
  apply IH. apply next_chunk_decreases in E. lia.
Qed.

(** The fuel is enough and more of it changes nothing. *)
Lemma chunk_loop_more {A} (body : list A -> chunk -> list A) f1 f2 st out r :
  chunk_loop body f1 st out = Some r -> f1 <= f2 -> chunk_loop body f2 st out = Some r.
Proof.
  revert f2 st out; induction f1 as [|f1 IH]; intros f2 st out; [done|].
  destruct f2 as [|f2]; [lia|]. simpl. destruct (next_chunk st) as [[c st']|]; [|done].
  intros H Hle. apply IH; [done | lia].
Qed.

(** Decoding a stream of frames folds the loop body over them. *)
Lemma decode_loop_stream `{!TapeLaws} {A B} (body : list A -> chunk -> list A) (ch : B -> chunk) xs out fuel :
  tape_size (tape_feed (concat (map (fun x => chunk_encode (ch x)) xs))) < fuel ->
  chunk_loop body fuel (tape_feed (concat (map (fun x => chunk_encode (ch x)) xs))) out =
    Some (fold_left body (map ch xs) out).
Proof.
  revert fuel out; induction xs as [|x xs IH]; intros fuel out Hlt; (destruct fuel as [|fuel]; [lia|]).
  - simpl. by rewrite next_chunk_nil.
  - cbn [map concat chunk_loop fold_left] in *. rewrite next_chunk_encode. apply IH.
    pose proof (next_chunk_decreases _ _ _
      (next_chunk_encode (ch x) (concat (map (fun x => chunk_encode (ch x)) xs)))) as Hd. lia.
Qed.

(** Every item is one chunk. *)
Definition item_chunk (x : stream_item) : chunk :=
  match x with
  | SSignal s => mk_chunk sigil_ZAP RENDER_BIN (serialize_signal s)
  | SIntent i => mk_chunk sigil_KET RENDER_BIN (serialize_intent i)
  | SOther c => c
  end.

Lemma item_bytes_chunk x : item_bytes x = chunk_encode (item_chunk x).
Proof. by destruct x. Qed.

Lemma events_body_item `{!TapeLaws} x out :
  item_wf x -> events_body out (item_chunk x) = out ++ item_event x.
Proof.
  unfold events_body. destruct x as [s|i|c]; simpl; intros Hx.
  - rewrite bool_decide_eq_true_2 by done.
    rewrite <-(app_nil_r (serialize_signal s)), deserialize_serialize by done. done.
  - rewrite bool_decide_eq_false_2 by (intros E; by apply sigils_differ).
    rewrite bool_decide_eq_true_2 by done.
    rewrite <-(app_nil_r (serialize_intent i)), deserialize_serialize_intent by done. done.
  - destruct Hx. rewrite !bool_decide_eq_false_2 by done. by rewrite app_nil_r.
Qed.

Lemma signals_body_item `{!TapeLaws} x out :
  item_wf x -> signals_body out (item_chunk x) = out ++ item_signal x.
Proof.
  unfold signals_body. destruct x as [s|i|c]; simpl; intros Hx.
  - rewrite bool_decide_eq_true_2 by done.
    rewrite <-(app_nil_r (serialize_signal s)), deserialize_serialize by done. done.
  - rewrite bool_decide_eq_false_2 by (intros E; by apply sigils_differ). by rewrite app_nil_r.
  - destruct Hx. rewrite !bool_decide_eq_false_2 by done. by rewrite app_nil_r.
Qed.

Lemma decode_stream `{!TapeLaws} {A} (body : list A -> chunk -> list A) (ev : stream_item -> list A) xs :
  (forall x out, item_wf x -> body out (item_chunk x) = out ++ ev x) -> Forall item_wf xs ->
  decode_loop body (concat (map item_bytes xs)) = Some (concat (map ev xs)).
Proof.
  intros Hbody Hwf. rewrite (map_ext _ _ item_bytes_chunk). unfold decode_loop.
  rewrite decode_loop_stream by lia. f_equal.
  assert (forall out, fold_left body (map item_chunk xs) out = out ++ concat (map ev xs)) as Hf; [|by rewrite Hf].
  induction Hwf as [|x xs Hx Hxs IH]; intros out; simpl; [by rewrite app_nil_r|].
  rewrite Hbody, IH by done. by rewrite <-app_assoc.
Qed.
End frames_lemmas.

(** ** Properties *)

Section frames_properties.
Context {HM : Hemera} {NB : Nebu} {ZH : Zheng} {TP : Tape}.

(** C20: Decoding a stream of concatenated frames yields, in wire order,
    exactly the signals and intents that were encoded: every signal comes back
    with its links, box moves and focus entries ([delta_pi] included), its
    network replaced by the local one and its proof dropped; chunks with other
    sigils are skipped; and both decoding loops end within the fuel. *)
Theorem decode_stream_events `{!TapeLaws} (xs : list stream_item) :
  Forall item_wf xs ->
  decode_events (concat (map item_bytes xs)) = Some (concat (map item_event xs)) /\
  decode_signals (concat (map item_bytes xs)) = Some (concat (map item_signal xs)).
Proof.
  intros Hwf. split; (apply decode_stream; [|done]); intros;
    [by apply events_body_item | by apply signals_body_item].
Qed.

(** The signal decoder accepts only canonical bytes: whatever buffer it
    accepts begins with the encoding of the decoded signal, up to trailing
    sections missing at the very end of the buffer (which decode as empty).
    So a declared count never exceeds the elements present, a commitment tag
    other than 0 or 1 is refused, and the decoded integers are machine
    integers. *)
Lemma deserialize_canonical (buf : list byte) (s : signal) :
  deserialize_signal buf = Some s ->
  frame_wf s /\ sg_network s = SELF_NETWORK /\ sg_proof s = None /\
  ((sg_box_moves s = [] /\ sg_delta_pi s = [] /\ buf = head_bytes s) \/
   (sg_delta_pi s = [] /\ buf = head_bytes s ++ section_bytes box_bytes (sg_box_moves s)) \/
   (exists rest, buf = serialize_signal s ++ rest)).
Proof.
  unfold deserialize_signal. destruct (read_signal buf 0) as [[s' p]|] eqn:H; [|done].
  intros [= ->]. unfold read_signal in H. do 4 step_reader H.
  apply parsed_arr in E, E1. apply parsed_u64 in E0 as [E0 ?], E2 as [E2 ?].
  step_reader H. apply parsed_u32 in E3 as [E3 Hn3].
  pose proof (parsed_le _ _ _ _ E3) as Hp3. step_reader H.
  apply (parsed_many _ link_bytes link_wf) in E4 as (E4 & Hl4 & Hw4); [|exact parsed_link|lia].
  pose proof (parsed_le _ _ _ _ E4) as Hp4. do 2 step_reader H. injection H as <- <-.
  apply (parsed_section _ box_bytes box_wf) in E5 as (Hp5 & Nb & Hwb & Hb); [|exact parsed_box|lia].
  apply (parsed_section _ pi_bytes pi_wf) in E6 as (_ & Np & Hwp & Hp); [|exact parsed_pi|lia].
  apply (f_equal N.of_nat) in Hl4. rewrite N2Nat.id in Hl4. rewrite <-Hl4 in E3, Hn3.
  split; [by split_and!|]. split; [done|]. split; [done|].
  set (s := mk_signal _ _ _ _ _ _ _ _ _).
  eassert (parsed buf 0 (head_bytes s) _) as Hhead.
  { unfold head_bytes; simpl. rewrite as_u32_id by done. parsed_seq. }
  pose proof (parsed_sections _ _ _ _ _ _ _ Hhead Hb Hp) as [(-> & -> & Eb)|[(-> & Eb)|[rest Eb]]].
  - by left.
  - by right; left.
  - right; right. exists rest. by rewrite serialize_signal_eq, <-!app_assoc in *.
Qed.
End frames_properties.

(** ** Witnesses *)

Definition ex_intent : intent_record := mk_intent (arr_rep 32 x01) 7 (arr_rep 32 x02) (arr_rep 64 x03).
Definition ex_stream : list stream_item :=
  [SSignal ex_s0; SOther (mk_chunk x23 x62 [x01]); SIntent ex_intent; SSignal ex_s1].

Lemma decode_stream_events_witness :
  decode_events (concat (map item_bytes ex_stream)) = Some (concat (map item_event ex_stream)) /\
  decode_signals (concat (map item_bytes ex_stream)) = Some (concat (map item_signal ex_stream)).
Proof.
  apply (decode_stream_events ex_stream).
  repeat constructor; try (vm_compute; discriminate).
Defined.

Lemma deserialize_canonical_witness :
  frame_wf (on_wire ex_s0) /\ sg_network (on_wire ex_s0) = SELF_NETWORK /\ sg_proof (on_wire ex_s0) = None /\
  ((sg_box_moves (on_wire ex_s0) = [] /\ sg_delta_pi (on_wire ex_s0) = [] /\
      serialize_signal ex_s0 = head_bytes (on_wire ex_s0)) \/
   (sg_delta_pi (on_wire ex_s0) = [] /\
      serialize_signal ex_s0 = head_bytes (on_wire ex_s0) ++ section_bytes box_bytes (sg_box_moves (on_wire ex_s0))) \/
   (exists rest, serialize_signal ex_s0 = serialize_signal (on_wire ex_s0) ++ rest)).
Proof. apply (deserialize_canonical (serialize_signal ex_s0) (on_wire ex_s0)). by_vm. Defined.
