(* ===== verification/Erasure.v ===== *)
(** * Erasure: Reed-Solomon coding over the field (src/erasure.rs)

    [encode] evaluates groups of [k] coefficients at the [n]-th roots of unity
    with the transform; [decode] inverts it, by the inverse transform when all
    shards are present and by Lagrange interpolation otherwise.  Counts and
    indices ([usize]) are [nat]; the error messages are the constructors of
    [decode_error]. *)

From S2P Require Import Prelude Order Bytes Externals Poly Goldilocks Instances.
From Stdlib Require Import Ring.

Section erasure.
Context {NB : Nebu} {NT : Ntt}.

Record shard := mk_shard { sh_index : nat; sh_data : list gf }.

(** [val |= (b as u64) << (i * 8)] over one chunk. *)
Definition chunk_val (chunk : list byte) : N :=
  (fold_left (fun st b => (N.lor st.1 (N.shiftl (Byte.to_N b) (st.2 * 8)), st.2 + 1)%N) chunk (0, 0)%N).1.

Definition bytes_to_elements (data : list byte) : list gf :=
  map (fun chunk => gf_new (chunk_val chunk)) (chunks 7 data).

(** The seven bytes [(val >> (i * 8)) as u8]. *)
Definition element_bytes (e : gf) : list byte :=
  map (fun i => byte_of_N (N.shiftr (gf_as_u64 e) (N.of_nat i * 8))) (seq 0 7).

Definition elements_to_bytes (elements : list gf) (original_len : nat) : list byte :=
  take original_len (concat (map element_bytes elements)).

(** The coefficients of group [g], padded to [n]. *)
Definition group_poly (padded : list gf) (k n g : nat) : list gf :=
  fold_left (fun poly i => <[i := nth (g * k + i) padded gf_zero]> poly) (seq 0 k) (replicate n gf_zero).

(** One iteration of the loop over groups: [shards[s].data.push(poly[s])]. *)
Definition push_group (padded : list gf) (k n : nat) (shards : list shard) (g : nat) : list shard :=
  let poly := ntt (group_poly padded k n g) in
  imap (fun s sh => mk_shard (sh_index sh) (sh_data sh ++ [nth s poly gf_zero])) shards.

Definition encode (data : list byte) (k n : nat) : outcome (list shard) :=
  assert_or_panic (is_power_of_two n);;
  assert_or_panic (bool_decide (1 <= k) && bool_decide (k <= n));;
  let elements := bytes_to_elements data in
  let num_groups := (length elements + k - 1) / k in
  let padded := resize (num_groups * k) gf_zero elements in
  mret (fold_left (push_group padded k n) (seq 0 num_groups)
          (map (fun i => mk_shard i []) (seq 0 n))).

(** ** Decoding *)

Inductive decode_error :=
| NotPowerOfTwo
| TooFewShards
| NoShardsProvided
| ShardOutOfRange (i : nat)
| DuplicateShard (i : nat)
| GroupMismatch.

(** [is_complete]: the loop over [seen]. *)
Fixpoint complete_loop (seen : list bool) (shards : list shard) (n : nat) : bool :=
  match shards with
  | [] => true
  | s :: shards =>
      if bool_decide (n <= sh_index s) || default false (seen !! sh_index s) then false
      else complete_loop (<[sh_index s := true]> seen) shards n
  end.
Definition is_complete (shards : list shard) (n : nat) : bool :=
  if negb (bool_decide (length shards = n)) then false
  else complete_loop (replicate n false) shards n.

(** One shard of the validation loop of [decode]. *)
Definition check_shard (n num_groups : nat) (seen : list bool) (s : shard)
    : result (fault decode_error) (list bool) :=
  if bool_decide (n <= sh_index s) then Err (Failed (ShardOutOfRange (sh_index s)))
  else
    dup ← index_or_panic seen (sh_index s);
    if dup : bool then Err (Failed (DuplicateShard (sh_index s)))
    else if negb (bool_decide (length (sh_data s) = num_groups)) then Err (Failed GroupMismatch)
    else Ok (<[sh_index s := true]> seen).

(** The inner loop [for d in (1..=deg + 1).rev()] and the constant term. *)
Definition mul_root (basis : list gf) (deg : nat) (neg_xj : gf) : list gf :=
  let basis := fold_left (fun b d => <[d := gf_add (nth (d - 1) b gf_zero) (gf_mul (nth d b gf_zero) neg_xj)]> b)
                 (rev (seq 1 (deg + 1))) basis in
  <[0 := gf_mul (nth 0 basis gf_zero) neg_xj]> basis.

(** The numerator of the [i]-th basis polynomial. *)
Definition basis_poly (points : list gf) (i : nat) : list gf :=
  let k := length points in
  (fold_left (fun st j =>
      if bool_decide (j = i) then st
      else (mul_root st.1 st.2 (gf_neg (nth j points gf_zero)), st.2 + 1))
    (seq 0 k) (<[0 := gf_one]> (replicate k gf_zero), 0)).1.

Definition denominator (points : list gf) (i : nat) : gf :=
  fold_left (fun d j =>
      if bool_decide (j = i) then d
      else gf_mul d (gf_sub (nth i points gf_zero) (nth j points gf_zero)))
    (seq 0 (length points)) gf_one.

Definition lagrange_interpolate (points values : list gf) : list gf :=
  let k := length points in
  fold_left (fun result i =>
      let scale := gf_mul (nth i values gf_zero) (gf_inv (denominator points i)) in
      zip_with (fun r b => gf_add r (gf_mul scale b)) result (basis_poly points i))
    (seq 0 k) (replicate k gf_zero).

Definition decode_group (available : list shard) (points : list gf) (k g : nat)
    : result (fault decode_error) (list gf) :=
  values ← collect (map (fun s => index_or_panic (sh_data s) g) available);
  let coeffs := lagrange_interpolate points values in
  Ok (map (fun i => nth i coeffs gf_zero) (seq 0 k)).

(** [poly[shard.index] = shard.data[g]]. *)
Definition place_value (g : nat) (poly : list gf) (s : shard) : result (fault decode_error) (list gf) :=
  v ← index_or_panic (sh_data s) g; Ok (<[sh_index s := v]> poly).

(** Every shard's value placed by index, then [intt]. *)
Definition full_group (shards : list shard) (k n g : nat) : result (fault decode_error) (list gf) :=
  poly ← try_fold (place_value g) shards (replicate n gf_zero);
  collect (map (fun i => index_or_panic (intt poly) i) (seq 0 k)).

Definition decode_full (shards : list shard) (k n num_groups original_len : nat)
    : result (fault decode_error) (list byte) :=
  groups ← collect (map (full_group shards k n) (seq 0 num_groups));
  Ok (elements_to_bytes (concat groups) original_len).

Definition decode (shards : list shard) (k n original_len : nat)
    : result (fault decode_error) (list byte) :=
  if negb (is_power_of_two n) then Err (Failed NotPowerOfTwo)
  else if bool_decide (length shards < k) then Err (Failed TooFewShards)
  else
    match shards with
    | [] => Err (Failed NoShardsProvided)
    | s0 :: _ =>
        let num_groups := length (sh_data s0) in
        if bool_decide (length shards = n) && is_complete shards n
        then decode_full shards k n num_groups original_len
        else
          let omega := gf_exp (gf_new 7) ((gf_P - 1) / N.of_nat n) in
          let available := take k shards in
          _ ← try_fold (check_shard n num_groups) available (replicate n false);
          let eval_points := map (fun s => gf_exp omega (N.of_nat (sh_index s))) available in
          groups ← collect (map (decode_group available eval_points k) (seq 0 num_groups));
          Ok (elements_to_bytes (concat groups) original_len)
    end.
End erasure.

#[global] Arguments shard {NB}.

#[global] Instance shard_eq_dec {NB : Nebu} : EqDecision shard.
Proof. solve_decision. Defined.

(** ** Bytes and elements *)

Section elements.
Context {NB : Nebu} {NL : NebuLaws}.

Lemma lor_shiftl_add a b m : (a < 2 ^ m)%N -> N.lor a (N.shiftl b m) = (a + b * 2 ^ m)%N.
Proof.
  intros Ha. assert (N.land a (N.shiftl b m) = 0)%N as H0.
  { apply N.bits_inj. intros i. rewrite N.land_spec, N.bits_0.
    destruct (N.lt_ge_cases i m) as [Hi|Hi].
    - rewrite N.shiftl_spec_low by done. apply andb_false_r.
    - replace a with (a mod 2 ^ m)%N by (by apply N.mod_small).
      by rewrite N.mod_pow2_bits_high. }
  rewrite <-N.lxor_lor, <-N.add_nocarry_lxor by done. by rewrite N.shiftl_mul_pow2.
Qed.

Lemma chunk_val_le_num chunk : chunk_val chunk = le_num chunk.
Proof.
  unfold chunk_val.
  assert (forall acc i, (acc < 2 ^ (i * 8))%N ->
    (fold_left (fun st b => (N.lor st.1 (N.shiftl (Byte.to_N b) (st.2 * 8)), st.2 + 1)%N) chunk (acc, i)).1
      = (acc + 2 ^ (i * 8) * le_num chunk)%N) as H.
  { induction chunk as [|b chunk IH]; intros acc i Hacc; cbn [fold_left].
    - unfold le_num. simpl. lia.
    - simpl. rewrite lor_shiftl_add by done. pose proof (to_N_lt b).
      rewrite IH.
      + change (le_num (b :: chunk)) with (Byte.to_N b + 256 * le_num chunk)%N.
        replace ((i + 1) * 8)%N with (i * 8 + 8)%N by lia. rewrite N.pow_add_r.
        change (2 ^ 8)%N with 256%N. lia.
      + replace ((i + 1) * 8)%N with (i * 8 + 8)%N by lia. rewrite N.pow_add_r.
        change (2 ^ 8)%N with 256%N. nia. }
  rewrite H by (vm_compute; done). rewrite N.mul_0_l, N.pow_0_r. lia.
Qed.

Lemma element_bytes_le e : element_bytes e = le_bytes 7 (gf_as_u64 e).
Proof.
  unfold element_bytes. generalize (gf_as_u64 e) as v. intros v.
  assert (forall n k, map (fun i => byte_of_N (N.shiftr v (N.of_nat i * 8))) (seq k n)
            = le_bytes n (N.shiftr v (N.of_nat k * 8))) as H; [|by rewrite H].
  induction n as [|n IH]; intros k; [done|]. cbn [seq map].
  rewrite IH. apply (f_equal (fun w => _ :: le_bytes n w)). transitivity (N.shiftr (N.shiftr v (N.of_nat k * 8)) 8).
  - rewrite N.shiftr_shiftr. f_equal. lia.
  - by rewrite N.shiftr_div_pow2.
Qed.

Lemma gf_roundtrip_small v : (v < 2 ^ 56)%N -> gf_as_u64 (gf_new v) = v.
Proof.
  intros Hv. change (2 ^ 56)%N with 72057594037927936%N in Hv.
  rewrite gf_as_u64_new by (unfold is_u64, u64_max; lia). rewrite gf_P_value.
  apply N.mod_small. lia.
Qed.

(** A chunk comes back, padded to seven bytes. *)
Lemma chunk_bytes chunk :
  length chunk <= 7 ->
  element_bytes (gf_new (chunk_val chunk)) = chunk ++ replicate (7 - length chunk) x00.
Proof.
  intros Hl. rewrite chunk_val_le_num, element_bytes_le, gf_roundtrip_small.
  - rewrite <-le_bytes_pad. f_equal. lia.
  - eapply N.lt_le_trans; [apply le_num_bound|].
    change (2 ^ 56)%N with (256 ^ 7)%N. apply N.pow_le_mono_r; lia.
Qed.

Lemma elements_bytes_roundtrip data zs :
  elements_to_bytes (bytes_to_elements data ++ zs) (length data) = data.
Proof.
  unfold elements_to_bytes, bytes_to_elements.
  remember (length data) as n eqn:Hn. assert (length data <= n) as Hle by lia.
  rewrite Hn. clear Hn. revert data Hle. induction n as [n IH] using lt_wf_ind. intros data Hle.
  destruct (decide (data = [])) as [->|Hne]; [done|].
  rewrite chunks_step by (done || lia). cbn [map app concat].
  rewrite chunk_bytes by (rewrite length_take; lia). rewrite length_take.
  destruct (decide (length data <= 7)) as [Hs|Hs].
  - rewrite (take_ge data) by lia. rewrite <-app_assoc. by rewrite take_app_length.
  - replace (7 - 7 `min` length data) with 0 by lia. cbn [replicate]. rewrite app_nil_r.
    rewrite take_app, length_take. rewrite (take_ge (take 7 data)) by (rewrite length_take; lia).
    specialize (IH (n - 7) ltac:(lia) (drop 7 data)). rewrite length_drop in IH.
    replace (length data - 7 `min` length data) with (length data - 7) by lia.
    rewrite IH by lia. apply take_drop.
Qed.
End elements.

(** ** Interpolation *)

Section interpolation.
Context {NB : Nebu} {NL : NebuLaws}.

Add Ring gf_ring_erasure : gf_ring.

(** The product of [x - r] over [rs]. *)
Definition prod_roots (x : gf) (rs : list gf) : gf :=
  foldr (fun r acc => gf_mul (gf_sub x r) acc) gf_one rs.

Lemma prod_roots_snoc x rs r : prod_roots x (rs ++ [r]) = gf_mul (prod_roots x rs) (gf_sub x r).
Proof. induction rs as [|s rs IH]; simpl; [ring|]. rewrite IH. ring. Qed.

Lemma prod_roots_zero x rs : x ∈ rs -> prod_roots x rs = gf_zero.
Proof.
  induction rs as [|r rs IH]; [by intros ?%elem_of_nil|]. simpl.
  intros [->|Hx]%elem_of_cons; [ring|]. rewrite IH by done. ring.
Qed.

Lemma prod_roots_nonzero x rs : x ∉ rs -> prod_roots x rs <> gf_zero.
Proof.
  induction rs as [|r rs IH]; simpl; [intros _; apply gf_one_neq_zero|].
  rewrite not_elem_of_cons. intros [Hne Hni] [E|E]%gf_mul_zero; [|by apply IH].
  by rewrite gf_sub_zero in E.
Qed.

(** The reverse in-place loop reads only old values. *)
Lemma shift_loop (b : list gf) neg m d :
  m < length b ->
  nth d (fold_left (fun b d => <[d := gf_add (nth (d - 1) b gf_zero) (gf_mul (nth d b gf_zero) neg)]> b)
           (rev (seq 1 m)) b) gf_zero =
  if bool_decide (1 <= d <= m) then gf_add (nth (d - 1) b gf_zero) (gf_mul (nth d b gf_zero) neg)
  else nth d b gf_zero.
Proof.
  revert b. induction m as [|m IH]; intros b Hm.
  { simpl. by rewrite bool_decide_eq_false_2 by lia. }
  rewrite seq_S, rev_app_distr. cbn [rev app fold_left]. change (1 + m) with (S m).
  rewrite IH by (rewrite length_insert; lia). rewrite !nth_lookup.
  destruct (decide (d = S m)) as [->|Hne].
  - rewrite (bool_decide_eq_false_2 (1 <= S m <= m)) by lia.
    rewrite (bool_decide_eq_true_2 (1 <= S m <= S m)) by lia.
    rewrite list_lookup_insert_eq by lia. done.
  - case_bool_decide; case_bool_decide; try lia; by rewrite !list_lookup_insert_ne by lia.
Qed.

Lemma shift_loop_length (b : list gf) neg l :
  length (fold_left (fun b d => <[d := gf_add (nth (d - 1) b gf_zero) (gf_mul (nth d b gf_zero) neg)]> b) l b)
    = length b.
Proof.
  revert b; induction l as [|d l IH]; intros b; simpl; [done|]. by rewrite IH, length_insert.
Qed.

(** Entries of a coefficient list beyond a degree are zero. *)
Definition zero_above (b : list gf) (deg : nat) : Prop := forall d, deg < d -> nth d b gf_zero = gf_zero.

Lemma mul_root_length b deg neg : length (mul_root b deg neg) = length b.
Proof. unfold mul_root. by rewrite length_insert, shift_loop_length. Qed.

Lemma mul_root_nth b deg neg d :
  deg + 1 < length b -> zero_above b deg ->
  nth d (mul_root b deg neg) gf_zero =
    gf_add (match d with 0 => gf_zero | S d => nth d b gf_zero end) (gf_mul (nth d b gf_zero) neg).
Proof.
  intros Hl Hz. unfold mul_root. cbv zeta.
  rewrite (nth_lookup (<[0:=_]> _)).
  destruct d as [|d].
  - rewrite list_lookup_insert_eq by (rewrite shift_loop_length; lia). cbn [default from_option id].
    rewrite shift_loop by lia. rewrite bool_decide_eq_false_2 by lia. ring.
  - rewrite list_lookup_insert_ne by lia. rewrite <-nth_lookup, shift_loop by lia.
    case_bool_decide as Hd.
    + replace (S d - 1) with d by lia. done.
    + rewrite (Hz (S d)), (Hz d) by lia. ring.
Qed.

Lemma mul_root_zero_above b deg neg :
  deg + 1 < length b -> zero_above b deg -> zero_above (mul_root b deg neg) (deg + 1).
Proof.
  intros Hl Hz d Hd. rewrite mul_root_nth by done. rewrite (Hz d) by lia.
  destruct d as [|d]; [lia|]. rewrite (Hz d) by lia. ring.
Qed.

(** Evaluation by coefficients, whatever the trailing zeros. *)
Lemma gf_eval_take p k x :
  (forall d, k <= d -> nth d p gf_zero = gf_zero) -> gf_eval p x = gf_eval (take k p) x.
Proof.
  intros Hz. rewrite <-(take_drop k p) at 1. rewrite gf_eval_app.
  assert (gf_eval (drop k p) x = gf_zero) as ->; [|ring].
  assert (forall i, nth i (drop k p) gf_zero = gf_zero) as H.
  { intros i. rewrite nth_lookup, lookup_drop, <-nth_lookup. apply Hz. lia. }
  clear Hz. revert H. generalize (drop k p) as q. induction q as [|c q IH]; intros H; simpl; [done|].
  rewrite IH by (intros i; apply (H (S i))). specialize (H 0). simpl in H. rewrite H. ring.
Qed.

Lemma nth_ext_gf (p q : list gf) :
  length p = length q -> (forall d, nth d p gf_zero = nth d q gf_zero) -> p = q.
Proof.
  intros Hl Hn. apply list_eq_same_length with (length p); [done..|].
  intros i a b Hi Ha Hb. specialize (Hn i). rewrite !nth_lookup, Ha, Hb in Hn. done.
Qed.

Lemma mul_root_eval b deg r x :
  deg + 1 < length b -> zero_above b deg ->
  gf_eval (mul_root b deg (gf_neg r)) x = gf_mul (gf_eval b x) (gf_sub x r).
Proof.
  intros Hl Hz.
  assert (mul_root b deg (gf_neg r) =
    zip_with gf_add (take (length b) (gf_zero :: b)) (map (gf_mul (gf_neg r)) b)) as ->.
  { apply nth_ext_gf.
    - rewrite mul_root_length, length_zip_with, length_take, length_map. simpl. lia.
    - intros d. rewrite mul_root_nth by done. rewrite (nth_lookup (zip_with _ _ _)).
      rewrite lookup_zip_with.
      destruct (decide (d < length b)) as [Hd|Hd].
      + rewrite lookup_take_lt by done.
        rewrite list_lookup_fmap. destruct (lookup_lt_is_Some_2 b d Hd) as [v Hv].
        rewrite Hv. destruct d as [|d]; simpl.
        * rewrite nth_lookup, Hv. simpl. ring.
        * destruct (lookup_lt_is_Some_2 b d) as [w Hw]; [lia|].
          rewrite Hw. simpl. rewrite !nth_lookup, Hv, Hw. simpl. ring.
      + rewrite lookup_take_ge by lia. simpl. rewrite (Hz d) by lia.
        destruct d as [|d]; [lia|]. rewrite (Hz d) by lia. ring. }
  rewrite gf_eval_add, gf_eval_scale by (rewrite length_take, length_map; simpl; lia).
  rewrite <-(gf_eval_take (gf_zero :: b) (length b)).
  - simpl. ring.
  - intros [|d] Hd; [lia|]. simpl. apply Hz. lia.
Qed.

(** The other indices, and their points. *)
Definition others (points : list gf) (i : nat) : list gf :=
  map (fun j => nth j points gf_zero) (filter (fun j => j <> i) (seq 0 (length points))).

Lemma skip_fold {S} (f : S -> nat -> S) i l s :
  fold_left (fun s j => if bool_decide (j = i) then s else f s j) l s =
  fold_left f (filter (fun j => j <> i) l) s.
Proof.
  revert s; induction l as [|j l IH]; intros s; simpl; [done|].
  rewrite filter_cons. case_bool_decide; case_decide; first [done | apply IH].
Qed.

Lemma denominator_prod points i :
  denominator points i = prod_roots (nth i points gf_zero) (others points i).
Proof.
  unfold denominator, others. rewrite (skip_fold (fun d j => gf_mul d _)).
  generalize (filter (fun j => j <> i) (seq 0 (length points))) as l. intros l.
  assert (forall acc, fold_left (fun d j => gf_mul d (gf_sub (nth i points gf_zero) (nth j points gf_zero))) l acc
    = gf_mul acc (prod_roots (nth i points gf_zero) (map (fun j => nth j points gf_zero) l))) as H.
  { induction l as [|j l IH]; intros acc; simpl; [ring|]. rewrite IH. ring. }
  rewrite H. ring.
Qed.

Lemma length_filter_ne i a n :
  a <= i < a + n -> length (filter (fun j => j <> i) (seq a n)) = n - 1.
Proof.
  revert a; induction n as [|n IH]; intros a Hi; [lia|]. cbn [seq]. rewrite filter_cons.
  destruct (decide (a = i)) as [->|Hne].
  - rewrite decide_False by lia. rewrite filter_every, length_seq; [lia|].
    apply Forall_forall. intros j Hj%elem_of_seq. lia.
  - rewrite decide_True by done. cbn [length]. rewrite IH by lia. lia.
Qed.

Lemma basis_poly_spec points i :
  i < length points ->
  length (basis_poly points i) = length points /\
  forall x, gf_eval (basis_poly points i) x = prod_roots x (others points i).
Proof.
  intros Hi. unfold basis_poly, others. cbv zeta.
  rewrite (skip_fold (fun st j => (mul_root st.1 st.2 (gf_neg (nth j points gf_zero)), st.2 + 1))).
  set (k := length points).
  pose proof (length_filter_ne i 0 k ltac:(lia)) as Hlen. revert Hlen.
  generalize (filter (fun j => j <> i) (seq 0 k)) as l. intros l Hl.
  set (st0 := (<[0:=gf_one]> (replicate k gf_zero), 0)).
  set (f := fun (st : list gf * nat) j => (mul_root st.1 st.2 (gf_neg (nth j points gf_zero)), st.2 + 1)).
  assert (forall l, length l <= k - 1 ->
    let st := fold_left f l st0 in
    length st.1 = k /\ st.2 = length l /\ zero_above st.1 (length l) /\
    forall x, gf_eval st.1 x = prod_roots x (map (fun j => nth j points gf_zero) l)) as H.
  { clear l Hl. induction l as [|j l IH] using rev_ind; intros Hl; simpl.
    - split; [by rewrite length_insert, length_replicate|]. split; [done|]. split.
      + intros d Hd. rewrite nth_lookup, list_lookup_insert_ne by lia.
        destruct (replicate k gf_zero !! d) as [v|] eqn:E; [|done].
        apply lookup_replicate in E as [-> _]. done.
      + intros x. assert (replicate k gf_zero = gf_zero :: replicate (k - 1) gf_zero) as ->.
        { change (gf_zero :: replicate (k - 1) gf_zero) with (replicate (S (k - 1)) gf_zero).
          f_equal. unfold k. lia. }
        simpl. rewrite gf_eval_replicate. ring.
    - rewrite length_app in Hl |- *. simpl in Hl |- *. destruct IH as (H1 & H2 & H3 & H4); [lia|].
      rewrite fold_left_app. simpl. split; [by rewrite mul_root_length|]. split; [lia|].
      rewrite H2. split; [apply mul_root_zero_above; [lia|done]|].
      intros x. rewrite mul_root_eval by (lia || done). rewrite map_app. cbn [map].
      by rewrite prod_roots_snoc, H4. }
  destruct (H l) as (H1 & _ & _ & H4); [lia|]. done.
Qed.

Lemma lagrange_length points values : length (lagrange_interpolate points values) = length points.
Proof.
  unfold lagrange_interpolate. cbv zeta.
  assert (forall l r, (forall i, i ∈ l -> i < length points) -> length r = length points ->
    length (fold_left (fun result i => zip_with (fun r b => gf_add r (gf_mul
      (gf_mul (nth i values gf_zero) (gf_inv (denominator points i))) b)) result (basis_poly points i)) l r)
      = length points) as H.
  { induction l as [|i l IH]; intros r Hin Hr; simpl; [done|]. apply IH.
    - intros j Hj. apply Hin. by constructor.
    - rewrite length_zip_with. destruct (basis_poly_spec points i) as [-> _]; [apply Hin; constructor|lia]. }
  apply H; [|by rewrite length_replicate]. intros i Hi%elem_of_seq. lia.
Qed.

Lemma gf_eval_add_scaled p q a x :
  length p = length q ->
  gf_eval (zip_with (fun r b => gf_add r (gf_mul a b)) p q) x = gf_add (gf_eval p x) (gf_mul a (gf_eval q x)).
Proof.
  revert q; induction p as [|c p IH]; intros [|d q]; simpl; try done; intros Hl; [ring|].
  rewrite IH by lia. ring.
Qed.

(** The interpolated polynomial takes the given values at distinct points. *)
Lemma lagrange_eval points values m x y :
  NoDup points -> points !! m = Some x -> values !! m = Some y ->
  gf_eval (lagrange_interpolate points values) x = y.
Proof.
  intros Hnd Hx Hy. unfold lagrange_interpolate. cbv zeta.
  set (k := length points). set (sc := fun i => gf_mul (nth i values gf_zero) (gf_inv (denominator points i))).
  assert (m < k) as Hm by (by eapply lookup_lt_Some).
  assert (forall i, i < k -> i <> m -> prod_roots x (others points i) = gf_zero) as Hother.
  { intros i Hi Hne. apply prod_roots_zero. unfold others. apply list_elem_of_fmap. exists m.
    split; [by rewrite nth_lookup, Hx|]. apply list_elem_of_filter. split; [done|].
    apply elem_of_seq. lia. }
  assert (gf_mul (sc m) (prod_roots x (others points m)) = y) as Hself.
  { unfold sc. rewrite denominator_prod, !nth_lookup, Hx, Hy. simpl.
    transitivity (gf_mul y (gf_mul (gf_inv (prod_roots x (others points m))) (prod_roots x (others points m)))).
    { ring. }
    rewrite gf_inv_l; [ring|]. apply prod_roots_nonzero. unfold others.
    intros (j & E & Hj)%list_elem_of_fmap. apply list_elem_of_filter in Hj as [Hj Hk%elem_of_seq].
    destruct (lookup_lt_is_Some_2 points j) as [z Hz]; [unfold k in *; lia|].
    rewrite nth_lookup, Hz in E. simpl in E. subst z. apply Hj. by eapply NoDup_lookup. }
  assert (forall l r, (forall i, i ∈ l -> i < k) -> NoDup l -> length r = k ->
    gf_eval (fold_left (fun result i => zip_with (fun r b => gf_add r (gf_mul (sc i) b))
      result (basis_poly points i)) l r) x =
    gf_add (gf_eval r x) (if decide (m ∈ l) then y else gf_zero)) as H.
  { induction l as [|i l IH]; intros r Hin Hndl Hr; cbn [fold_left].
    - rewrite decide_False by apply not_elem_of_nil. ring.
    - apply NoDup_cons in Hndl as [Hni Hndl].
      destruct (basis_poly_spec points i) as [Hbl Hbe]; [apply Hin; constructor|].
      rewrite IH; [|intros j Hj; apply Hin; by constructor|done|rewrite length_zip_with; unfold k in *; lia].
      rewrite gf_eval_add_scaled by (unfold k in *; lia). rewrite Hbe.
      destruct (decide (i = m)) as [->|Hne].
      + rewrite Hself. rewrite decide_False by done. rewrite decide_True by constructor. ring.
      + rewrite Hother by (first [apply Hin; constructor | done]).
        destruct (decide (m ∈ l)).
        * rewrite decide_True by (by constructor). ring.
        * rewrite decide_False by (rewrite not_elem_of_cons; auto). ring. }
  fold sc. rewrite H.
  - rewrite decide_True by (apply elem_of_seq; lia). rewrite gf_eval_replicate. ring.
  - intros i Hi%elem_of_seq. lia.
  - apply NoDup_seq.
  - by rewrite length_replicate.
Qed.

(** Interpolation recovers a polynomial from its values at as many distinct
    points as it has coefficients. *)
Lemma lagrange_recovers p points :
  NoDup points -> length p = length points ->
  lagrange_interpolate points (map (gf_eval p) points) = p.
Proof.
  intros Hnd Hl. apply (eval_inj _ _ points); [done|by rewrite lagrange_length|done|].
  apply Forall_forall. intros x Hx. apply list_elem_of_lookup in Hx as [m Hm].
  apply (lagrange_eval _ _ m); [done..|]. by rewrite list_lookup_fmap, Hm.
Qed.
End interpolation.

(** ** Encoding, in closed form *)

Section closed_form.
Context {NB : Nebu} {NL : NebuLaws} {NT : Ntt} {TL : NttLaws}.

Lemma fill_length {A} (f : nat -> A) l (base : list A) :
  length (fold_left (fun l i => <[i := f i]> l) l base) = length base.
Proof. revert base; induction l as [|j l IH]; intros b; simpl; [done|]. by rewrite IH, length_insert. Qed.

Lemma fill_loop {A} (f : nat -> A) k (base : list A) i :
  k <= length base ->
  fold_left (fun l i => <[i := f i]> l) (seq 0 k) base !! i =
    if bool_decide (i < k) then Some (f i) else base !! i.
Proof.
  induction k as [|k IH]; intros Hk; [done|].
  rewrite seq_S, fold_left_app. cbn [fold_left Nat.add].
  destruct (decide (i = k)) as [->|Hne].
  - rewrite list_lookup_insert_eq by (rewrite fill_length; lia). by rewrite bool_decide_eq_true_2 by lia.
  - rewrite list_lookup_insert_ne by lia. rewrite IH by lia.
    case_bool_decide; case_bool_decide; try lia; done.
Qed.

(** Group [g]: the coefficients [g * k .. g * k + k]. *)
Definition group_coeffs (padded : list gf) (k g : nat) : list gf := take k (drop (g * k) padded).

Lemma group_poly_eq padded k n g :
  k <= n -> (g + 1) * k <= length padded ->
  group_poly padded k n g = group_coeffs padded k g ++ replicate (n - k) gf_zero.
Proof.
  intros Hk Hg. unfold group_poly, group_coeffs. apply list_eq. intros i.
  rewrite fill_loop by (rewrite length_replicate; lia).
  assert (length (take k (drop (g * k) padded)) = k) as Hl by (rewrite length_take, length_drop; lia).
  case_bool_decide as Hi.
  - rewrite lookup_app_l by lia. rewrite lookup_take_lt by done. rewrite lookup_drop, nth_lookup.
    destruct (lookup_lt_is_Some_2 padded (g * k + i)) as [v Hv]; [lia|]. by rewrite Hv.
  - rewrite lookup_app_r by lia. rewrite Hl.
    destruct (decide (i < n)).
    + rewrite !lookup_replicate_2 by lia. done.
    + rewrite !lookup_ge_None_2 by (rewrite length_replicate; lia). done.
Qed.

Lemma concat_groups padded k G :
  length padded = G * k -> concat (map (group_coeffs padded k) (seq 0 G)) = padded.
Proof.
  intros Hl. assert (forall a, a <= G ->
    concat (map (group_coeffs padded k) (seq a (G - a))) = drop (a * k) padded) as H.
  { intros a Ha. remember (G - a) as r eqn:Hr. revert a Ha Hr. induction r as [|r IH]; intros a Ha Hr.
    - simpl. rewrite drop_ge; [done|]. assert (a = G) as -> by lia. lia.
    - cbn [seq map concat]. rewrite IH by lia. unfold group_coeffs.
      replace (S a * k) with (a * k + k) by lia. by rewrite <-drop_drop, take_drop. }
  specialize (H 0 ltac:(lia)). by rewrite Nat.sub_0_r in H.
Qed.

(** The shard [encode] produces at an index. *)
Definition num_groups (data : list byte) (k : nat) : nat :=
  (length (bytes_to_elements data) + k - 1) / k.
Definition padded_elements (data : list byte) (k : nat) : list gf :=
  resize (num_groups data k * k) gf_zero (bytes_to_elements data).
Definition encoded_shard (data : list byte) (k n i : nat) : shard :=
  mk_shard i (map (fun g => nth i (ntt (group_poly (padded_elements data k) k n g)) gf_zero)
                (seq 0 (num_groups data k))).

Lemma imap_map_seq {A B} (f : nat -> A -> B) (g : nat -> A) n :
  imap f (map g (seq 0 n)) = map (fun i => f i (g i)) (seq 0 n).
Proof.
  apply list_eq. intros i. rewrite list_lookup_imap, !list_lookup_fmap.
  destruct (decide (i < n)).
  - rewrite lookup_seq_lt by lia. done.
  - rewrite lookup_seq_ge by lia. done.
Qed.

Lemma encode_eq data k n :
  encode data k n =
    if is_power_of_two n && (bool_decide (1 <= k) && bool_decide (k <= n))
    then Done (map (encoded_shard data k n) (seq 0 n)) else Panic.
Proof.
  unfold encode, assert_or_panic.
  destruct (is_power_of_two n); simpl; [|done].
  destruct (bool_decide (1 <= k) && bool_decide (k <= n)); simpl; [|done].
  unfold mret, outcome_ret. f_equal. fold (num_groups data k). fold (padded_elements data k).
  unfold encoded_shard.
  induction (seq 0 (num_groups data k)) as [|g l IH] using rev_ind; [done|].
  rewrite fold_left_app. cbn [fold_left]. rewrite IH. unfold push_group.
  rewrite imap_map_seq. apply map_ext. intros i. simpl. by rewrite map_app.
Qed.

Lemma num_groups_enough data k : 1 <= k -> length (bytes_to_elements data) <= num_groups data k * k.
Proof.
  intros Hk. unfold num_groups.
  pose proof (Nat.div_mod_eq (length (bytes_to_elements data) + k - 1) k) as E.
  pose proof (Nat.mod_upper_bound (length (bytes_to_elements data) + k - 1) k ltac:(lia)). nia.
Qed.

(** What a shard holds for a group: the value of the group's polynomial. *)
Lemma encoded_value data k m i g :
  m <= 32 -> 1 <= k <= 2 ^ m -> i < 2 ^ m -> g < num_groups data k ->
  sh_data (encoded_shard data k (2 ^ m) i) !! g =
    Some (gf_eval (group_coeffs (padded_elements data k) k g) (gf_exp (gf_omega (2 ^ m)) (N.of_nat i))).
Proof.
  intros Hm Hk Hi Hg. unfold encoded_shard; simpl. rewrite list_lookup_fmap, lookup_seq_lt by done.
  simpl. f_equal.
  assert (length (padded_elements data k) = num_groups data k * k) as Hpl by apply length_resize.
  assert ((g + 1) * k <= length (padded_elements data k)) by (rewrite Hpl; apply Nat.mul_le_mono_r; lia).
  assert (length (group_poly (padded_elements data k) k (2 ^ m) g) = 2 ^ m) as Hlen.
  { rewrite group_poly_eq by lia. unfold group_coeffs.
    rewrite length_app, length_take, length_drop, length_replicate. lia. }
  rewrite (ntt_spec m) by done. rewrite nth_lookup, list_lookup_fmap, lookup_seq_lt by done. simpl.
  by rewrite group_poly_eq, gf_eval_pad by lia.
Qed.

Lemma padded_roundtrip data k :
  1 <= k -> elements_to_bytes (padded_elements data k) (length data) = data.
Proof.
  intros Hk. unfold padded_elements. rewrite resize_ge by (by apply num_groups_enough).
  apply elements_bytes_roundtrip.
Qed.
End closed_form.

(** ** Decoding *)

Section decoding.
Context {NB : Nebu} {NL : NebuLaws} {NT : Ntt} {TL : NttLaws}.

Lemma check_shard_cases n G seen s :
  length seen = n ->
  exists e, check_shard n G seen s =
    if decide (sh_index s < n /\ seen !! sh_index s = Some false /\ length (sh_data s) = G)
    then Ok (<[sh_index s := true]> seen) else Err (Failed e).
Proof.
  intros Hlen. unfold check_shard. case_bool_decide as Hi.
  { eexists. by rewrite decide_False by lia. }
  destruct (lookup_lt_is_Some_2 seen (sh_index s)) as [b Hb]; [lia|].
  unfold index_or_panic. rewrite Hb. simpl. destruct b.
  { eexists. by rewrite decide_False by (intros (_ & ? & _); congruence). }
  case_bool_decide as HG; simpl.
  - exists NotPowerOfTwo. rewrite decide_True; [done|]. split; [lia|done].
  - eexists. by rewrite decide_False by (intros (_ & _ & ?); done).
Qed.

(** The validation loop accepts distinct in-range shards of equal length. *)
Lemma check_shards_spec n G seen shards r :
  length seen = n ->
  try_fold (check_shard n G) shards seen = r ->
  (r <> Err Panicked) /\
  ((exists seen', r = Ok seen') <->
    NoDup (map sh_index shards) /\
    Forall (fun s => sh_index s < n /\ seen !! sh_index s = Some false /\ length (sh_data s) = G) shards).
Proof.
  intros Hlen <-. revert seen Hlen.
  induction shards as [|s shards IH]; intros seen Hlen; cbn [try_fold map].
  { split; [done|]. split; [|eauto]. intros _. split; [apply NoDup_nil_2 | done]. }
  destruct (check_shard_cases n G seen s Hlen) as [e ->].
  destruct (decide _) as [(Hi & Hb & HG)|Hno]; simpl.
  2:{ split; [done|]. split; [by intros [? ?]|]. by intros [_ [? _]%Forall_cons]. }
  destruct (IH (<[sh_index s := true]> seen)) as [Hp Hiff]; [by rewrite length_insert|].
  split; [done|]. rewrite Hiff, NoDup_cons, Forall_cons. split.
  - intros [Hnd Hall]. split; [split; [|done]|split; [split_and!; [lia|done..]|]].
    + intros (t & Et & Ht)%list_elem_of_fmap. rewrite Forall_forall in Hall.
      destruct (Hall t Ht) as (_ & Hf & _). rewrite <-Et, list_lookup_insert_eq in Hf by lia. done.
    + eapply Forall_impl; [exact Hall|]. intros t (Ht & Hf & Hl). split; [done|]. split; [|done].
      destruct (decide (sh_index t = sh_index s)) as [E|E].
      * rewrite E, list_lookup_insert_eq in Hf by lia. done.
      * by rewrite list_lookup_insert_ne in Hf by done.
  - intros [[Hni Hnd] [_ Hall]]. split; [done|].
    rewrite Forall_forall in Hall |- *. intros t Ht. destruct (Hall t Ht) as (? & ? & ?).
    split; [done|]. split; [|done]. rewrite list_lookup_insert_ne; [done|].
    intros E. apply Hni. rewrite E. by apply list_elem_of_fmap_2.
Qed.

Lemma complete_loop_spec n seen shards :
  length seen = n ->
  complete_loop seen shards n = true <->
    NoDup (map sh_index shards) /\
    Forall (fun s => sh_index s < n /\ seen !! sh_index s = Some false) shards.
Proof.
  intros Hlen. revert seen Hlen. induction shards as [|s shards IH]; intros seen Hlen; cbn [complete_loop map].
  { split; [|done]. intros _. split; [apply NoDup_nil_2 | done]. }
  rewrite NoDup_cons, Forall_cons.
  destruct (decide (n <= sh_index s)) as [Hi|Hi].
  { rewrite bool_decide_eq_true_2 by done. simpl. split; [done|]. intros (_ & (? & _) & _). lia. }
  rewrite bool_decide_eq_false_2 by done. simpl.
  destruct (lookup_lt_is_Some_2 seen (sh_index s)) as [b Hb]; [lia|]. rewrite Hb. simpl.
  destruct b; [split; [done|]; intros (_ & (_ & ?) & _); congruence|].
  rewrite IH by (by rewrite length_insert). split.
  - intros [Hnd Hall]. split; [split; [|done]|split; [split; [lia|done]|]].
    + intros (t & Et & Ht)%list_elem_of_fmap. rewrite Forall_forall in Hall.
      destruct (Hall t Ht) as (_ & Hf). rewrite <-Et, list_lookup_insert_eq in Hf by lia. done.
    + eapply Forall_impl; [exact Hall|]. intros t (Ht & Hf). split; [done|].
      destruct (decide (sh_index t = sh_index s)) as [E|E].
      * rewrite E, list_lookup_insert_eq in Hf by lia. done.
      * by rewrite list_lookup_insert_ne in Hf by done.
  - intros [[Hni Hnd] [_ Hall]]. split; [done|].
    rewrite Forall_forall in Hall |- *. intros t Ht. destruct (Hall t Ht) as (? & ?).
    split; [done|]. rewrite list_lookup_insert_ne; [done|].
    intros E. apply Hni. rewrite E. by apply list_elem_of_fmap_2.
Qed.

Lemma is_complete_spec shards n :
  is_complete shards n = true <->
    length shards = n /\ NoDup (map sh_index shards) /\ Forall (fun s => sh_index s < n) shards.
Proof.
  unfold is_complete. case_bool_decide as Hl; simpl; [|by split; [|intros (? & _)]].
  rewrite (complete_loop_spec n) by apply length_replicate. split.
  - intros [? Hall]. split_and!; [done..|]. eapply Forall_impl; [exact Hall|]. by intros ? [? _].
  - intros (_ & ? & Hall). split; [done|]. eapply Forall_impl; [exact Hall|].
    intros s Hs. split; [done|]. by apply lookup_replicate_2.
Qed.

Lemma place_value_eq g poly s :
  place_value g poly s =
    match sh_data s !! g with Some v => Ok (<[sh_index s := v]> poly) | None => Err Panicked end.
Proof. unfold place_value, index_or_panic. by destruct (sh_data s !! g). Qed.

(** The complete shards' values, placed by index. *)
Lemma place_values shards g (f : nat -> gf) base :
  Forall (fun s => sh_index s < length base /\ sh_data s !! g = Some (f (sh_index s))) shards ->
  exists poly,
    try_fold (place_value g)
      shards base = Ok poly /\
    length poly = length base /\
    forall i, poly !! i = if decide (i ∈ map sh_index shards) then Some (f i) else base !! i.
Proof.
  revert base; induction shards as [|s shards IH]; intros base Hall; cbn [try_fold map].
  { exists base. split; [done|]. split; [done|]. intros i. by rewrite decide_False by apply not_elem_of_nil. }
  apply Forall_cons in Hall as [[Hi Hs] Hall]. rewrite place_value_eq, Hs. simpl.
  destruct (IH (<[sh_index s := f (sh_index s)]> base)) as (poly & E & Hl & Hp).
  { eapply Forall_impl; [exact Hall|]. by rewrite length_insert. }
  exists poly. split; [done|]. rewrite length_insert in Hl. split; [done|]. intros i. rewrite Hp.
  destruct (decide (i ∈ map sh_index shards)) as [Hin|Hni].
  - by rewrite decide_True by (by constructor).
  - destruct (decide (i = sh_index s)) as [->|Hne].
    + rewrite decide_True by constructor. by rewrite list_lookup_insert_eq.
    + rewrite decide_False by (rewrite not_elem_of_cons; auto). by rewrite list_lookup_insert_ne.
Qed.

Lemma collect_index_all {A} (l : list A) k :
  k <= length l -> collect (map (fun i => @index_or_panic decode_error _ l i) (seq 0 k)) = Ok (take k l).
Proof.
  intros Hk. apply collect_map_ok. apply Forall2_same_length_lookup. split.
  - rewrite length_seq, length_take. lia.
  - intros i x y Hx Hy. apply lookup_seq in Hx as [-> Hi]. simpl.
    rewrite lookup_take_lt in Hy by done. unfold index_or_panic. by rewrite Hy.
Qed.

(** All [n] shards of an encoding: the fast path recovers each group. *)
Lemma full_group_encoded data k m shards g :
  m <= 32 -> 1 <= k <= 2 ^ m -> g < num_groups data k ->
  length shards = 2 ^ m -> NoDup (map sh_index shards) ->
  Forall (fun s => s ∈ map (encoded_shard data k (2 ^ m)) (seq 0 (2 ^ m))) shards ->
  full_group shards k (2 ^ m) g = Ok (group_coeffs (padded_elements data k) k g).
Proof.
  intros Hm Hk Hg Hl Hnd Hall. unfold full_group.
  set (P := padded_elements data k).
  assert (length P = num_groups data k * k) as Hpl by apply length_resize.
  assert ((g + 1) * k <= length P) by (rewrite Hpl; apply Nat.mul_le_mono_r; lia).
  set (poly0 := group_coeffs P k g ++ replicate (2 ^ m - k) gf_zero).
  assert (length (group_coeffs P k g) = k) as Hgl.
  { unfold group_coeffs. rewrite length_take, length_drop. lia. }
  assert (length poly0 = 2 ^ m) as Hp0 by (unfold poly0; rewrite length_app, length_replicate; lia).
  destruct (place_values shards g (fun i => gf_eval (group_coeffs P k g) (gf_exp (gf_omega (2 ^ m)) (N.of_nat i)))
    (replicate (2 ^ m) gf_zero)) as (poly & Hpoly & Hpolyl & Hlook).
  { eapply Forall_impl; [exact Hall|]. intros s (i & -> & Hi%elem_of_seq)%list_elem_of_fmap.
    rewrite length_replicate. simpl sh_index. split; [lia|]. apply encoded_value; lia || done. }
  rewrite Hpoly. rewrite length_replicate in Hpolyl.
  assert (poly = ntt poly0) as ->.
  { apply list_eq. intros i. rewrite (ntt_spec m), list_lookup_fmap, Hlook by done.
    destruct (decide (i < 2 ^ m)) as [Hi|Hi].
    - rewrite lookup_seq_lt by done. simpl. rewrite decide_True.
      + unfold poly0. by rewrite gf_eval_pad.
      + assert (forall j, j ∈ map sh_index shards -> j ∈ seq 0 (2 ^ m)) as Hsub.
        { intros j (s & -> & Hs)%list_elem_of_fmap. rewrite Forall_forall in Hall.
          apply Hall in Hs as (j & -> & Hj)%list_elem_of_fmap. done. }
        assert (seq 0 (2 ^ m) ≡ₚ map sh_index shards) as <-; [|apply elem_of_seq; lia].
        symmetry. apply submseteq_length_Permutation; [by apply NoDup_submseteq|].
        rewrite length_seq, length_map. lia.
    - rewrite lookup_seq_ge by lia. simpl. rewrite decide_False.
      + apply lookup_ge_None_2. rewrite length_replicate. lia.
      + intros (s & -> & Hs)%list_elem_of_fmap. rewrite Forall_forall in Hall.
        apply Hall in Hs as (j & -> & Hj%elem_of_seq)%list_elem_of_fmap. simpl in Hi. lia. }
  simpl. rewrite (intt_ntt m) by done. rewrite collect_index_all by lia.
  unfold poly0. by rewrite take_app_length'.
Qed.

(** Any [k] of them: interpolation recovers each group. *)
Lemma decode_group_encoded data k m available g :
  m <= 32 -> 1 <= k <= 2 ^ m -> g < num_groups data k ->
  length available = k -> NoDup (map sh_index available) ->
  Forall (fun s => s ∈ map (encoded_shard data k (2 ^ m)) (seq 0 (2 ^ m))) available ->
  decode_group available (map (fun s => gf_exp (gf_omega (2 ^ m)) (N.of_nat (sh_index s))) available) k g
    = Ok (group_coeffs (padded_elements data k) k g).
Proof.
  intros Hm Hk Hg Hl Hnd Hall. unfold decode_group.
  set (P := padded_elements data k).
  set (points := map (fun s => gf_exp (gf_omega (2 ^ m)) (N.of_nat (sh_index s))) available).
  assert (collect (map (fun s => @index_or_panic decode_error _ (sh_data s) g) available)
    = Ok (map (gf_eval (group_coeffs P k g)) points)) as ->.
  { apply collect_map_ok. unfold points. rewrite map_map. apply Forall2_fmap_r, Forall_Forall2_diag.
    eapply Forall_impl; [exact Hall|]. intros s (i & -> & Hi%elem_of_seq)%list_elem_of_fmap.
    unfold index_or_panic. simpl sh_index. by rewrite encoded_value by (lia || done). }
  simpl. f_equal.
  assert (length P = num_groups data k * k) as Hpl by apply length_resize.
  assert ((g + 1) * k <= length P) by (rewrite Hpl; apply Nat.mul_le_mono_r; lia).
  assert (length (group_coeffs P k g) = k) as Hgl.
  { unfold group_coeffs. rewrite length_take, length_drop. lia. }
  rewrite lagrange_recovers.
  - apply nth_ext_gf; [by rewrite length_map, length_seq|]. intros d.
    rewrite (nth_lookup (map _ _)), list_lookup_fmap. destruct (decide (d < k)).
    + by rewrite lookup_seq_lt by done.
    + rewrite lookup_seq_ge by lia. simpl. symmetry. apply nth_overflow. lia.
  - unfold points. apply NoDup_fmap_2_strong; [|by apply NoDup_fmap_1 in Hnd].
    intros s t Hs Ht E. rewrite Forall_forall in Hall.
    pose proof (Hall s Hs) as (i & -> & Hi%elem_of_seq)%list_elem_of_fmap.
    pose proof (Hall t Ht) as (j & -> & Hj%elem_of_seq)%list_elem_of_fmap.
    simpl in E. apply omega_powers_inj in E; [|lia..]. by subst.
  - unfold points. by rewrite length_map, Hgl.
Qed.

Lemma collect_ok_map {A B E} (f : A -> result E B) (h : A -> B) l :
  (forall a, a ∈ l -> f a = Ok (h a)) -> collect (map f l) = Ok (map h l).
Proof.
  intros Hf. induction l as [|a l IH]; simpl; [done|]. rewrite Hf by constructor. simpl.
  rewrite IH; [done|]. intros b Hb. apply Hf. by constructor.
Qed.

(** ** Panics *)

Lemma try_fold_place_err shards g base e :
  try_fold (place_value g)
    shards base = Err e -> e = Panicked.
Proof.
  revert base; induction shards as [|s shards IH]; intros base; simpl; [done|].
  rewrite place_value_eq. destruct (sh_data s !! g); simpl; [apply IH | by intros [= <-]].
Qed.

Lemma try_fold_place_ok shards g base :
  (exists poly, try_fold (place_value g) shards base = Ok poly /\ length poly = length base) <->
  Forall (fun s => g < length (sh_data s)) shards.
Proof.
  revert base; induction shards as [|s shards IH]; intros base; simpl; [split; eauto|].
  rewrite Forall_cons. rewrite place_value_eq.
  destruct (sh_data s !! g) as [v|] eqn:E; simpl.
  - rewrite <-(length_insert base (sh_index s) v), IH. apply lookup_lt_Some in E. tauto.
  - apply lookup_ge_None in E. split; [by intros (? & ? & _) | lia].
Qed.

(** A group of the fast path panics exactly when some shard is too short. *)
Lemma full_group_outcome shards k n g :
  k <= n ->
  (Forall (fun s => g < length (sh_data s)) shards /\ exists l, full_group shards k n g = Ok l) \/
  (~ Forall (fun s => g < length (sh_data s)) shards /\ full_group shards k n g = Err Panicked).
Proof.
  intros Hk. unfold full_group.
  pose proof (try_fold_place_ok shards g (replicate n gf_zero)) as Hok.
  destruct (try_fold _ shards _) as [poly|e] eqn:E; simpl.
  - rewrite length_replicate in Hok.
    destruct (decide (Forall (fun s => g < length (sh_data s)) shards)) as [Ha|Ha].
    + left. split; [done|]. apply Hok in Ha as (poly' & [= <-] & Hl).
      exists (take k (intt poly)). apply collect_index_all. rewrite intt_length. lia.
    + exfalso. apply Ha, Hok. exists poly. split; [done|].
      assert (forall ss b p, try_fold (place_value g) ss b = Ok p -> length p = length b) as Hlen.
      { intros ss b p Hf. apply (try_fold_invariant (place_value g) (fun q => length q = length b) ss b p); [|done..].
        intros q s q' Hq. rewrite place_value_eq. destruct (sh_data s !! g); [|done]. intros [= <-].
        by rewrite length_insert. }
      apply Hlen in E. by rewrite length_replicate in E.
  - right. apply try_fold_place_err in E as ->. split; [|done]. intros Ha.
    by apply Hok in Ha as (? & ? & _).
Qed.

Lemma decode_group_no_panic available points k g G :
  Forall (fun s => length (sh_data s) = G) available -> g < G ->
  exists l, decode_group available points k g = Ok l.
Proof.
  intros Hall Hg. unfold decode_group.
  destruct (proj2 (collect_is_Ok (fun s => @index_or_panic decode_error _ (sh_data s) g) available)) as [vs ->];
    [|simpl; eauto].
  intros s Hs. rewrite Forall_forall in Hall. specialize (Hall s Hs).
  destruct (lookup_lt_is_Some_2 (sh_data s) g) as [v Hv]; [lia|].
  exists v. by apply index_or_panic_Some.
Qed.

Lemma decode_full_outcome shards k n G len :
  k <= n ->
  decode_full shards k n G len = Err Panicked <-> exists s, s ∈ shards /\ length (sh_data s) < G.
Proof.
  intros Hk. unfold decode_full. split.
  - destruct (collect _) as [gs|e] eqn:E; simpl; [done|]. intros [= ->].
    apply collect_Err in E as (g & Hg%elem_of_seq & Hf).
    destruct (full_group_outcome shards k n g Hk) as [[_ [? ?]]|[Hn _]]; [congruence|].
    apply not_Forall_Exists, Exists_exists in Hn as (s & Hs & Hlt); [|apply _].
    exists s. split; [done|]. simpl in Hlt. lia.
  - intros (s & Hs & Hlt). destruct (collect _) as [gs|e] eqn:E; simpl.
    + exfalso. assert (exists bs, collect (map (full_group shards k n) (seq 0 G)) = Ok bs) as Hok by eauto.
      rewrite collect_is_Ok in Hok. destruct (Hok (length (sh_data s))) as [b Hb]; [apply elem_of_seq; lia|].
      destruct (full_group_outcome shards k n (length (sh_data s)) Hk) as [[Ha _]|[_ ?]]; [|congruence].
      rewrite Forall_forall in Ha. specialize (Ha s Hs). simpl in Ha. lia.
    + apply collect_Err in E as (g & _ & Hf). f_equal.
      destruct (full_group_outcome shards k n g Hk) as [[_ [? ?]]|[_ ?]]; congruence.
Qed.
End decoding.

Section recovery.
Context {NB : Nebu} {NL : NebuLaws} {NT : Ntt} {TL : NttLaws}.

Lemma decode_recovers (data : list byte) (k m : nat) (shards available : list shard) :
  m <= 32 ->
  encode data k (2 ^ m) = Done shards ->
  Forall (fun s => s ∈ shards) available -> NoDup (map sh_index available) -> k <= length available ->
  decode available k (2 ^ m) (length data) = Ok data.
Proof.
  intros Hm Henc Hall Hnd Hk. rewrite encode_eq in Henc.
  destruct (is_power_of_two (2 ^ m)) eqn:Hpow; [|done]. simpl in Henc.
  destruct (bool_decide (1 <= k) && bool_decide (k <= 2 ^ m)) eqn:Hkn; [|done].
  injection Henc as <-. apply andb_true_iff in Hkn as [H1%bool_decide_eq_true H2%bool_decide_eq_true].
  unfold decode. rewrite Hpow. simpl. rewrite bool_decide_eq_false_2 by lia.
  destruct available as [|s0 rest] eqn:Eav; [simpl in Hk; lia|]. rewrite <-Eav in *.
  assert (length (sh_data s0) = num_groups data k) as ->.
  { rewrite Eav in Hall. apply Forall_cons in Hall as [(i & -> & _)%list_elem_of_fmap _].
    simpl. by rewrite length_map, length_seq. }
  assert (length (padded_elements data k) = num_groups data k * k) as Hpl by apply length_resize.
  assert (Hfin : elements_to_bytes (concat (map (group_coeffs (padded_elements data k) k)
            (seq 0 (num_groups data k)))) (length data) = data).
  { rewrite concat_groups by done. by apply padded_roundtrip. }
  assert (forall g, g ∈ seq 0 (num_groups data k) -> g < num_groups data k) as Hseq
    by (intros g Hg%elem_of_seq; lia).
  destruct (bool_decide (length available = 2 ^ m)) eqn:Hfull; simpl.
  1: destruct (is_complete available (2 ^ m)) eqn:Hcomp; simpl.
  - apply bool_decide_eq_true in Hfull. unfold decode_full.
    rewrite (collect_ok_map _ (group_coeffs (padded_elements data k) k)); [by simpl; rewrite Hfin|].
    intros g Hg. apply full_group_encoded; auto.
  - exfalso. apply not_true_iff_false in Hcomp. apply Hcomp, is_complete_spec.
    apply bool_decide_eq_true in Hfull. split_and!; [done..|].
    eapply Forall_impl; [exact Hall|]. intros s (i & -> & Hi%elem_of_seq)%list_elem_of_fmap. simpl; lia.
  - assert (length (take k available) = k) as Htl by (rewrite length_take; lia).
    assert (Forall (fun s => s ∈ map (encoded_shard data k (2 ^ m)) (seq 0 (2 ^ m))) (take k available))
      as Htall by (by apply Forall_take).
    assert (NoDup (map sh_index (take k available))) as Htnd.
    { eapply sublist_NoDup; [exact Hnd|]. apply fmap_sublist, sublist_take. }
    destruct (check_shards_spec (2 ^ m) (num_groups data k) (replicate (2 ^ m) false) (take k available) _
      (length_replicate _ _) eq_refl) as [_ [_ Hok]].
    destruct Hok as [seen' ->].
    { split; [done|]. eapply Forall_impl; [exact Htall|].
      intros s (i & -> & Hi%elem_of_seq)%list_elem_of_fmap. simpl. split; [lia|].
      split; [apply lookup_replicate_2; lia | by rewrite length_map, length_seq]. }
    simpl. fold (gf_omega (2 ^ m)).
    rewrite (collect_ok_map _ (group_coeffs (padded_elements data k) k)); [by simpl; rewrite Hfin|].
    intros g Hg. apply decode_group_encoded; auto.
Qed.
End recovery.

(** ** Properties *)

Section erasure_properties.
Context {NB : Nebu} {NL : NebuLaws} {NT : Ntt} {TL : NttLaws}.

(** C1: Any [k] of the [n] shards recover the data (the code is maximum
    distance separable): whatever [k] or more distinct shards of an encoding
    are given, in whatever order, [decode] returns exactly the encoded bytes,
    whether it takes the fast path or interpolates. *)
Theorem any_k_shards_decode (data : list byte) (k m : nat) (shards available : list shard) :
  m <= 32 ->
  encode data k (2 ^ m) = Done shards ->
  Forall (fun s => s ∈ shards) available -> NoDup (map sh_index available) -> k <= length available ->
  decode available k (2 ^ m) (length data) = Ok data.
Proof. apply decode_recovers. Qed.

(** [decode] panics in exactly one situation: all [n] distinct shards are
    given, so that the fast path is taken, and some shard holds fewer groups
    than the first one.  Every other malformed input is refused with an error
    or decoded; in particular interpolation never panics. *)
Lemma decode_panics_exactly (shards : list shard) (k n original_len : nat) :
  decode shards k n original_len = Err Panicked <->
  is_power_of_two n = true /\ k <= length shards /\ is_complete shards n = true /\
  exists s0 s, head shards = Some s0 /\ s ∈ shards /\ length (sh_data s) < length (sh_data s0).
Proof.
  unfold decode. destruct (is_power_of_two n); simpl; [|naive_solver].
  case_bool_decide as Hk; [split; [done|]; intros (_ & ? & _); lia|].
  destruct shards as [|s0 rest] eqn:Es; [split; [done|]; by intros (_ & _ & _ & ? & ? & ? & _)|].
  rewrite <-Es in *. destruct (is_complete shards n) eqn:Hc.
  - pose proof (proj1 (is_complete_spec shards n) Hc) as (Hl & _ & _).
    rewrite bool_decide_eq_true_2 by done. simpl. rewrite decode_full_outcome by lia. split.
    + intros (s & Hs & Hlt). split_and!; [done|lia|done|]. exists s0, s. by rewrite Es in *.
    + intros (_ & _ & _ & s1 & s & Hh & Hs & Hlt). rewrite Es in Hh. injection Hh as <-. eauto.
  - rewrite andb_false_r. split; [|by intros (_ & _ & ? & _)].
    destruct (check_shards_spec n (length (sh_data s0)) (replicate n false) (take k shards) _
      (length_replicate _ _) eq_refl) as [Hnp Hok].
    destruct (try_fold _ (take k shards) _) as [seen|e]; simpl; [|congruence].
    destruct (proj1 Hok) as [_ Hall]; [eauto|].
    destruct (proj2 (collect_is_Ok (decode_group (take k shards)
      (map (fun s => gf_exp (gf_exp (gf_new 7) ((gf_P - 1) / N.of_nat n)) (N.of_nat (sh_index s)))
        (take k shards)) k) (seq 0 (length (sh_data s0))))) as [gs Hgs]; [|by rewrite Hgs].
    intros g Hg%elem_of_seq. apply (decode_group_no_panic _ _ _ _ (length (sh_data s0))); [|lia].
    eapply Forall_impl; [exact Hall|]. by intros s (_ & _ & ?).
Qed.
End erasure_properties.

(** ** The transforms by evaluation and interpolation, and witnesses *)

#[global] Instance direct_ntt {NB : Nebu} : Ntt := {|
  ntt := fun p => map (fun i => gf_eval p (gf_exp (gf_omega (length p)) (N.of_nat i))) (seq 0 (length p));
  intt := fun v => lagrange_interpolate
    (map (fun i => gf_exp (gf_omega (length v)) (N.of_nat i)) (seq 0 (length v))) v
|}.

#[global] Instance direct_ntt_laws {NB : Nebu} {NL : NebuLaws} : NttLaws.
Proof.
  split; simpl.
  - intros m p _ ->. done.
  - intros p. by rewrite lagrange_length, length_map, length_seq.
  - intros m p Hm Hl. rewrite length_map, length_seq, Hl.
    rewrite <-(map_map (fun i => gf_exp (gf_omega (2 ^ m)) (N.of_nat i)) (gf_eval p)).
    apply lagrange_recovers; [|by rewrite length_map, length_seq].
    apply NoDup_fmap_2_strong; [|apply NoDup_seq].
    intros i j Hi%elem_of_seq Hj%elem_of_seq. apply omega_powers_inj; lia.
Qed.

Definition ex_data : list byte := [x01; x02; x03; x04; x05; x06; x07; x08; x09].
Definition ex_shards : list shard := match encode ex_data 2 4 with Done l => l | Panic => [] end.
Definition ex_available : list shard := [nth 3 ex_shards (mk_shard 0 []); nth 1 ex_shards (mk_shard 0 [])].

Lemma any_k_shards_decode_witness : decode ex_available 2 4 9 = Ok ex_data.
Proof.
  apply (any_k_shards_decode ex_data 2 2 ex_shards ex_available).
  - lia.
  - by_vm.
  - apply (bool_decide_eq_true_1 _). by_vm.
  - apply (bool_decide_eq_true_1 _). by_vm.
  - vm_compute. lia.
Defined.

Lemma decode_panics_exactly_witness :
  decode [mk_shard 0 [gf_one]; mk_shard 1 []] 1 2 7 = Err Panicked.
Proof.
  apply (decode_panics_exactly [mk_shard 0 [gf_one]; mk_shard 1 []] 1 2 7).
  split; [by_vm|]. split; [simpl; lia|]. split; [by_vm|].
  exists (mk_shard 0 [gf_one]), (mk_shard 1 []). split; [done|]. split; [|simpl; lia].
  right. left.
Defined.
