(* ===== verification/Store.v ===== *)
(** * Store: the file registry and the chunk store (src/store.rs)

    Module [Registry] is [FileEntry] and the last-writer-wins set [GSet];
    module [Chunks] the content-addressed [ChunkStore].  A [HashMap] is a
    [gmap]; where the code iterates over one, the order is an argument (a
    permutation of the values).  The directory of the chunk store is a [gmap]
    from file name to contents, its I/O calls succeeding; the wall clock
    [now] is an argument. *)

From S2P Require Import Prelude Order Bytes Externals Erasure Goldilocks Instances.

Module Registry.
Section registry.
Context {HM : Hemera}.

Record file_entry := mk_entry {
  fe_name : string;
  fe_original_len : nat;
  fe_k : nat;
  fe_n : nat;
  fe_shard_hashes : list string;
  fe_timestamp : N;
  fe_entry_hash : string;
  fe_device_id : string;
  fe_das_root : string;
  fe_shard_copies : nat;
  fe_deleted : bool
}.

Definition MAX_CLOCK_DRIFT_MS : N := 3600000.
Definition MAX_REGISTRY_ENTRIES : N := 100000.

Inductive validation_error := HashMismatch | TimestampFuture | EmptyName | NoShards | RegistryFull.

Definition compute_hash (name : string) (shard_hashes : list string) (timestamp : N)
    (device_id : string) : string :=
  to_hex (hemera_hash (str_bytes name ++ concat (map str_bytes shard_hashes)
    ++ u64_le timestamp ++ str_bytes device_id)).

Definition verify_hash (e : file_entry) : bool :=
  bool_decide (fe_entry_hash e =
    compute_hash (fe_name e) (fe_shard_hashes e) (fe_timestamp e) (fe_device_id e)).

Definition validate (now : N) (e : file_entry) : result validation_error unit :=
  if bool_decide (fe_name e = ""%string) then Err EmptyName
  else if bool_decide (fe_shard_hashes e = []) then Err NoShards
  else if negb (verify_hash e) then Err HashMismatch
  else if (now + MAX_CLOCK_DRIFT_MS <? fe_timestamp e)%N then Err TimestampFuture
  else Ok tt.

Record gset_crdt := mk_gset { files : gmap string file_entry }.
Definition gset_new : gset_crdt := mk_gset ∅.

(** [entry] replaces [existing]: a later timestamp, or the same one and a
    greater entry hash. *)
Definition lww_newer (entry existing : file_entry) : bool :=
  (fe_timestamp existing <? fe_timestamp entry)%N ||
  (bool_decide (fe_timestamp entry = fe_timestamp existing) &&
   olt (fe_entry_hash existing) (fe_entry_hash entry)).

Definition lww_insert (g : gset_crdt) (entry : file_entry) : gset_crdt :=
  match files g !! fe_name entry with
  | Some existing =>
      if lww_newer entry existing then mk_gset (<[fe_name entry := entry]> (files g)) else g
  | None => mk_gset (<[fe_name entry := entry]> (files g))
  end.

Definition insert (g : gset_crdt) (entry : file_entry) : gset_crdt := lww_insert g entry.

Definition validated_insert (now : N) (g : gset_crdt) (entry : file_entry)
    : result validation_error gset_crdt :=
  _ ← validate now entry;
  if (MAX_REGISTRY_ENTRIES <=? N.of_nat (size (files g)))%N && negb (bool_decide (is_Some (files g !! fe_name entry)))
  then Err RegistryFull
  else Ok (lww_insert g entry).

(** [values] is the order in which [other.files.values()] is iterated. *)
Definition validated_merge (now : N) (g : gset_crdt) (values : list file_entry)
    : gset_crdt * (nat * nat) :=
  fold_left (fun st e =>
      match validated_insert now st.1 e with
      | Ok g' => (g', (st.2.1 + 1, st.2.2))
      | Err _ => (st.1, (st.2.1, st.2.2 + 1))
      end) values (g, (0, 0)).

Definition merge (g : gset_crdt) (values : list file_entry) : gset_crdt :=
  fold_left lww_insert values g.

(** The values of a set, in the canonical order of this model. *)
Definition values_of (g : gset_crdt) : list file_entry := snd <$> map_to_list (files g).

Definition merkle_root (g : gset_crdt) : string :=
  let hashes := sort (fe_entry_hash <$> values_of g) in
  let data := concat (map str_bytes hashes) in
  if bool_decide (data = []) then String.string_of_list_ascii (replicate 64 (Ascii.ascii_of_N 48))
  else to_hex (hemera_hash data).

Definition live (e : file_entry) : Prop := fe_deleted e = false.
#[global] Instance live_dec e : Decision (live e) := decide (fe_deleted e = false).

Definition list_names (g : gset_crdt) : list string := sort (fe_name <$> filter live (values_of g)).
Definition get (g : gset_crdt) (name : string) : option file_entry :=
  e ← files g !! name; if decide (live e) then Some e else None.
Definition get_raw (g : gset_crdt) (name : string) : option file_entry := files g !! name.
Definition live_len (g : gset_crdt) : nat := length (filter live (values_of g)).
Definition tombstone_count (g : gset_crdt) : nat := length (filter (fun e => ~ live e) (values_of g)).
Definition gset_is_empty (g : gset_crdt) : bool := bool_decide (live_len g = 0).

Definition expired (now max_age_ms : N) (e : file_entry) : bool :=
  fe_deleted e && (max_age_ms <? sat_sub64 now (fe_timestamp e))%N.

(** The set after compaction, and the number of entries removed. *)
Definition compact (now max_age_ms : N) (g : gset_crdt) : gset_crdt * nat :=
  let kept := filter (fun ke => expired now max_age_ms ke.2 = false) (files g) in
  (mk_gset kept, size (files g) - size kept).

Definition delta_since (since_timestamp : N) (values : list file_entry) : gset_crdt :=
  fold_left (fun delta e =>
      if (since_timestamp <? fe_timestamp e)%N then insert delta e else delta) values gset_new.

Definition live_shard_hashes (g : gset_crdt) : gset string :=
  list_to_set (concat (fe_shard_hashes <$> filter live (values_of g))).

(** ** Replicas *)

#[global] Instance file_entry_eq_dec : EqDecision file_entry.
Proof. solve_decision. Defined.

(** [history g known]: [g] is a replica built by local inserts, validated
    inserts and merges of other replicas, and [known] the entries it accepted,
    directly or through the replicas merged into it. *)
Inductive history : gset_crdt -> list file_entry -> Prop :=
| history_new : history gset_new []
| history_insert g known e : history g known -> history (insert g e) (known ++ [e])
| history_validated now g known e g' :
    history g known -> validated_insert now g e = Ok g' -> history g' (known ++ [e])
| history_merge g known g' known' values :
    history g known -> history g' known' -> values ≡ₚ values_of g' ->
    history (merge g values) (known ++ known').

(** Entries that tie on name, timestamp and entry hash are equal. *)
Definition tie_free (l : list file_entry) : Prop :=
  forall e e', e ∈ l -> e' ∈ l -> fe_name e = fe_name e' -> fe_timestamp e = fe_timestamp e' ->
    fe_entry_hash e = fe_entry_hash e' -> e = e'.

(** The winner among the entries of [l] under a name. *)
Definition wins (l : list file_entry) (name : string) (e : file_entry) : Prop :=
  e ∈ l /\ fe_name e = name /\
  forall e', e' ∈ l -> fe_name e' = name -> lww_newer e' e = false.

(** [g] holds, under every name, the winner among the entries of [l]. *)
Definition holds_winners (g : gset_crdt) (l : list file_entry) : Prop :=
  forall name,
    match files g !! name with
    | Some e => wins l name e
    | None => forall e, e ∈ l -> fe_name e <> name
    end.

(** ** Lemmas *)

Lemma lww_newer_key e e' :
  lww_newer e e' = olt (fe_timestamp e', fe_entry_hash e') (fe_timestamp e, fe_entry_hash e).
Proof.
  unfold lww_newer, olt.
  change (ocmp (fe_timestamp e', fe_entry_hash e') (fe_timestamp e, fe_entry_hash e))
    with (match (fe_timestamp e' ?= fe_timestamp e)%N with
          | Eq => ocmp (fe_entry_hash e') (fe_entry_hash e) | c => c end).
  destruct (N.compare_spec (fe_timestamp e') (fe_timestamp e)) as [E|E|E].
  - rewrite E, N.ltb_irrefl, (bool_decide_eq_true_2 (_ = fe_timestamp e)) by done. done.
  - apply N.ltb_lt in E. rewrite E. done.
  - rewrite (bool_decide_eq_false_2 (fe_timestamp e = _)) by lia. simpl.
    destruct (N.ltb_spec (fe_timestamp e') (fe_timestamp e)); [lia|]. done.
Qed.

Lemma lww_not_newer_le e e' :
  lww_newer e e' = false ->
  ole (fe_timestamp e, fe_entry_hash e) (fe_timestamp e', fe_entry_hash e') = true.
Proof. rewrite lww_newer_key, ole_olt. by intros ->. Qed.

Lemma lww_newer_irrefl e : lww_newer e e = false.
Proof. rewrite lww_newer_key. apply olt_irrefl. Qed.

Lemma lww_newer_trans e1 e2 e3 :
  lww_newer e1 e2 = true -> lww_newer e2 e3 = true -> lww_newer e1 e3 = true.
Proof. rewrite !lww_newer_key. intros H1 H2. by eapply olt_trans. Qed.

Lemma lww_not_newer_trans e1 e2 e3 :
  lww_newer e1 e2 = false -> lww_newer e3 e2 = true -> lww_newer e1 e3 = false.
Proof.
  intros H1 H2. destruct (lww_newer e1 e3) eqn:E; [|done].
  by rewrite (lww_newer_trans e1 e3 e2) in H1.
Qed.

Lemma elem_of_live_shard_hashes g h :
  h ∈ live_shard_hashes g <-> exists e, e ∈ values_of g /\ live e /\ h ∈ fe_shard_hashes e.
Proof.
  unfold live_shard_hashes. generalize (values_of g) as vs. intros vs.
  rewrite elem_of_list_to_set, list_elem_of_In, in_concat. setoid_rewrite <-list_elem_of_In.
  setoid_rewrite list_elem_of_fmap. setoid_rewrite list_elem_of_filter. split.
  - intros (hs & (e & -> & ? & ?) & ?). eauto.
  - intros (e & ? & ? & ?). eauto 10.
Qed.

Lemma holds_winners_insert g l e : holds_winners g l -> holds_winners (lww_insert g e) (l ++ [e]).
Proof.
  intros Hg name. unfold lww_insert. pose proof (Hg (fe_name e)) as He. specialize (Hg name).
  assert (forall e', e' ∈ l ++ [e] -> e' ∈ l \/ e' = e) as Happ.
  { intros e' [|?%list_elem_of_singleton]%elem_of_app; auto. }
  assert (forall x, x ∈ l -> x ∈ l ++ [e]) as Hin by (intros; apply elem_of_app; auto).
  assert (e ∈ l ++ [e]) as Hine by (apply elem_of_app; right; constructor).
  destruct (files g !! fe_name e) as [x|] eqn:Ex.
  - destruct He as (Hx & Hxn & Hxm). destruct (lww_newer e x) eqn:En; simpl files.
    + rewrite lookup_insert. case_decide as Hn.
      * split; [done|]. split; [done|]. intros e' [He'| ->]%Happ Hn'; [|apply lww_newer_irrefl].
        apply (lww_not_newer_trans _ x); [|done]. apply Hxm; congruence.
      * destruct (files g !! name) as [y|].
        -- destruct Hg as (Hy & Hyn & Hym). split; [auto|]. split; [done|].
           intros e' [He'| ->]%Happ Hn'; [auto|congruence].
        -- intros e' [He'| ->]%Happ; auto.
    + destruct (files g !! name) as [y|] eqn:Ey.
      * destruct Hg as (Hy & Hyn & Hym). split; [auto|]. split; [done|].
        intros e' [He'| ->]%Happ Hn'; [auto|]. congruence.
      * intros e' [He'| ->]%Happ; [auto|]. intros E. congruence.
  - simpl files. rewrite lookup_insert. case_decide as Hn.
    + split; [done|]. split; [done|]. intros e' [He'| ->]%Happ Hn'; [|apply lww_newer_irrefl].
      exfalso. apply (He e'); congruence.
    + destruct (files g !! name) as [y|].
      * destruct Hg as (Hy & Hyn & Hym). split; [auto|]. split; [done|].
        intros e' [He'| ->]%Happ Hn'; [auto|congruence].
      * intros e' [He'| ->]%Happ; auto.
Qed.

Lemma holds_winners_merge g l vs : holds_winners g l -> holds_winners (merge g vs) (l ++ vs).
Proof.
  revert g l. induction vs as [|v vs IH]; intros g l Hg; [by rewrite app_nil_r|].
  replace (l ++ v :: vs) with ((l ++ [v]) ++ vs) by (by rewrite <-app_assoc).
  apply IH. by apply holds_winners_insert.
Qed.

Lemma elem_of_values_of g e : e ∈ values_of g <-> exists name, files g !! name = Some e.
Proof.
  unfold values_of. rewrite list_elem_of_fmap. split.
  - intros ([n e'] & -> & H%elem_of_map_to_list). eauto.
  - intros [n H]. exists (n, e). split; [done|]. by apply elem_of_map_to_list.
Qed.

(** Only the winners of the merged replica matter. *)
Lemma holds_winners_weaken g l g' l' :
  holds_winners g' l' -> holds_winners g (l ++ values_of g') -> holds_winners g (l ++ l').
Proof.
  intros Hg' Hg name. specialize (Hg name). pose proof (Hg' name) as Hname.
  assert (forall e, e ∈ values_of g' -> e ∈ l') as Hsub.
  { intros e [n He]%elem_of_values_of. specialize (Hg' n). rewrite He in Hg'. apply Hg'. }
  destruct (files g !! name) as [x|].
  - destruct Hg as (Hx & Hxn & Hxm). split; [|split; [done|]].
    { rewrite elem_of_app in Hx |- *. destruct Hx; auto. }
    intros e [He|He]%elem_of_app Hn; [apply Hxm; [apply elem_of_app; auto|done]|].
    destruct (files g' !! name) as [y|] eqn:Ey; [|by destruct (Hname e)].
    destruct Hname as (Hy & Hyn & Hym). specialize (Hym e He Hn).
    assert (lww_newer y x = false) as Hyx.
    { apply Hxm; [|done]. apply elem_of_app. right. apply elem_of_values_of. eauto. }
    destruct (lww_newer e x) eqn:E; [|done].
    rewrite lww_newer_key in E. apply lww_not_newer_le in Hym, Hyx.
    exfalso. assert (ole (fe_timestamp e, fe_entry_hash e) (fe_timestamp x, fe_entry_hash x) = true) as Hle
      by (by eapply ole_trans).
    rewrite ole_olt, E in Hle. done.
  - intros e [He|He]%elem_of_app; [apply Hg, elem_of_app; auto|].
    destruct (files g' !! name) as [y|] eqn:Ey; [|by apply Hname].
    exfalso. destruct Hname as (_ & Hyn & _). apply (Hg y); [|done].
    apply elem_of_app. right. apply elem_of_values_of. eauto.
Qed.

Lemma holds_winners_perm g l l' : (forall e, e ∈ l <-> e ∈ l') -> holds_winners g l -> holds_winners g l'.
Proof.
  intros Hl Hg name. specialize (Hg name). destruct (files g !! name) as [x|].
  - destruct Hg as (Hx & Hn & Hm). split; [by apply Hl|]. split; [done|].
    intros e He. apply Hm. by apply Hl.
  - intros e He. apply Hg. by apply Hl.
Qed.

Lemma history_winners g known : history g known -> holds_winners g known.
Proof.
  induction 1 as [|g known e _ IH|now g known e g' _ IH Hv|g known g' known' vs _ IH _ IH' Hp].
  - intros name. simpl. rewrite lookup_empty. intros e He. by apply elem_of_nil in He.
  - by apply holds_winners_insert.
  - unfold validated_insert in Hv. destruct (validate now e); simpl in Hv; [|done].
    destruct (_ && _); [done|]. injection Hv as <-. by apply holds_winners_insert.
  - apply (holds_winners_weaken _ _ g'); [done|].
    eapply holds_winners_perm; [|by apply holds_winners_merge].
    intros e. rewrite !elem_of_app. by setoid_rewrite Hp.
Qed.

Lemma holds_winners_unique g g' l :
  tie_free l -> holds_winners g l -> holds_winners g' l -> g = g'.
Proof.
  intros Ht Hg Hg'. destruct g as [m], g' as [m']. f_equal. apply map_eq. intros name.
  specialize (Hg name). specialize (Hg' name). simpl in *.
  destruct (m !! name) as [x|], (m' !! name) as [y|]; [| | |done].
  - destruct Hg as (Hx & Hxn & Hxm), Hg' as (Hy & Hyn & Hym). f_equal.
    specialize (Hxm y Hy Hyn). specialize (Hym x Hx Hxn).
    apply lww_not_newer_le in Hxm, Hym.
    pose proof (ole_antisym _ _ Hxm Hym) as E. injection E as ? ?. apply Ht; congruence.
  - destruct Hg as (Hx & Hxn & _). by destruct (Hg' x).
  - destruct Hg' as (Hy & Hyn & _). by destruct (Hg y).
Qed.
End registry.

Arguments history {HM} _ _.

(** ** Properties *)

Section registry_properties.
Context {HM : Hemera}.


(** Without that proviso merging is not commutative: the entry hash does
    not cover the tombstone flag (nor the coding parameters), so for any name
    and timestamp there are two entries, both passing hash verification, on
    which two replicas that merged each other's set end up different, one
    holding the file and the other its deletion, with equal Merkle roots. *)
Lemma merge_tie_diverges (name device : string) (hashes : list string) (timestamp : N) :
  let h := compute_hash name hashes timestamp device in
  let e := mk_entry name 10 1 2 hashes timestamp h device "" 1 false in
  let d := mk_entry name 10 1 2 hashes timestamp h device "" 1 true in
  let g := insert gset_new e in
  let g' := insert gset_new d in
  verify_hash e = true /\ verify_hash d = true /\
  get (merge g (values_of g')) name = Some e /\ get (merge g' (values_of g)) name = None /\
  merkle_root (merge g (values_of g')) = merkle_root (merge g' (values_of g)).
Proof.
  intros h e d g g'.
  assert (forall x, values_of (insert gset_new x) = [x]) as Hv.
  { intros x. unfold values_of, insert, lww_insert; simpl. rewrite lookup_empty. simpl.
    by rewrite insert_empty, map_to_list_singleton. }
  assert (forall x, insert gset_new x = mk_gset {[fe_name x := x]}) as Hi.
  { intros x. unfold insert, lww_insert; simpl. by rewrite lookup_empty, insert_empty. }
  assert (lww_newer e d = false /\ lww_newer d e = false) as [Hed Hde].
  { rewrite !lww_newer_key. simpl. by rewrite !olt_irrefl. }
  assert (merge g (values_of g') = g) as Hg.
  { unfold g', g. rewrite Hv. simpl. unfold lww_insert. rewrite Hi. simpl files.
    rewrite lookup_singleton_eq. by rewrite Hde. }
  assert (merge g' (values_of g) = g') as Hg'.
  { unfold g', g. rewrite Hv. simpl. unfold lww_insert. rewrite Hi. simpl files.
    rewrite lookup_singleton_eq. by rewrite Hed. }
  rewrite Hg, Hg'. split; [by apply bool_decide_eq_true_2|]. split; [by apply bool_decide_eq_true_2|].
  split; [|split].
  - unfold get, g. rewrite Hi. simpl. by rewrite lookup_singleton_eq.
  - unfold get, g'. rewrite Hi. simpl. by rewrite lookup_singleton_eq.
  - unfold merkle_root. unfold g, g'. by rewrite !Hv.
Qed.
End registry_properties.
End Registry.

Module Chunks.
Section chunks.
Context {HM : Hemera} {NB : Nebu}.

Definition shard_to_bytes (s : shard) : list byte :=
  concat (map (fun e => u64_le (gf_as_u64 e)) (sh_data s)).

Definition bytes_to_shard (index : nat) (bytes : list byte) : shard :=
  mk_shard index (map (fun c => gf_new (le_num c)) (filter (fun c => length c = 8) (chunks 8 bytes))).

Definition verify_chunk (bytes : list byte) (expected_hash_hex : string) : bool :=
  bool_decide (to_hex (hemera_hash bytes) = expected_hash_hex).

(** [disk] is the content of the root directory. *)
Record chunk_store := mk_store {
  disk : gmap string (list byte);
  cs_index : gmap string (list byte);
  capacity : N;
  used : N
}.

Inductive io_error := CapacityExceeded | NotFound.

(** [ChunkStore::new] over a directory that may already hold files. *)
Definition store_new (root : gmap string (list byte)) (capacity : N) : chunk_store :=
  mk_store root ∅ capacity 0.

Definition put (c : chunk_store) (s : shard) : result io_error (particle * chunk_store) :=
  let bytes := shard_to_bytes s in
  let hash := hemera_hash bytes in
  let hex := to_hex hash in
  let size := N.of_nat (length bytes) in
  if (0 <? capacity c)%N && (capacity c <? sat_add64 (used c) size)%N then Err CapacityExceeded
  else
    let c' := if bool_decide (is_Some (disk c !! hex)) then c
              else mk_store (<[hex := bytes]> (disk c)) (cs_index c) (capacity c) (sat_add64 (used c) size) in
    Ok (hash, mk_store (disk c') (<[hex := bytes]> (cs_index c')) (capacity c') (used c')).

Definition get_chunk (c : chunk_store) (hash : particle) : result io_error (list byte) :=
  let hex := to_hex hash in
  match cs_index c !! hex with
  | Some data => Ok data
  | None => ok_or NotFound (disk c !! hex)
  end.

Definition has (c : chunk_store) (hash : particle) : bool :=
  bool_decide (is_Some (cs_index c !! to_hex hash)) || bool_decide (is_Some (disk c !! to_hex hash)).

Definition remove (c : chunk_store) (hash_hex : string) : N * chunk_store :=
  let size := from_option (fun b => N.of_nat (length b)) 0%N (disk c !! hash_hex) in
  (size, mk_store (delete hash_hex (disk c)) (delete hash_hex (cs_index c)) (capacity c)
           (sat_sub64 (used c) size)).

(** Directory entries whose name is a 64-character digest; [listing] is the
    order in which the directory is read. *)
Definition chunk_names (listing : list string) : list string :=
  filter (fun name => String.length name = 64) listing.

Definition gc_step (live : gset string) (st : chunk_store * (nat * N)) (name : string)
    : chunk_store * (nat * N) :=
  if bool_decide (name ∈ live) then st
  else let (freed, c) := remove st.1 name in (c, (st.2.1 + 1, (st.2.2 + freed)%N)).

Definition gc (c : chunk_store) (live : gset string) (listing : list string) : chunk_store * (nat * N) :=
  fold_left (gc_step live) (chunk_names listing) (c, (0, 0%N)).

Definition audit_step (c : chunk_store) (st : nat * list string) (name : string) : nat * list string :=
  match disk c !! name with
  | Some bytes => if verify_chunk bytes name then (st.1 + 1, st.2) else (st.1, st.2 ++ [name])
  | None => st
  end.

Definition audit (c : chunk_store) (listing : list string) : nat * nat * list string :=
  let (ok, corrupt) := fold_left (audit_step c) (chunk_names listing) (0, []) in
  (ok, length corrupt, corrupt).

Definition list_chunks (listing : list string) : list string := chunk_names listing.

(** ** Runs *)

Inductive store_op := OpPut (s : shard) | OpRemove (hex : string) | OpGc (live : gset string) (listing : list string).

(** A refused [put] leaves the store as it was. *)
Definition run_op (c : chunk_store) (op : store_op) : chunk_store :=
  match op with
  | OpPut s => match put c s with Ok (_, c') => c' | Err _ => c end
  | OpRemove hex => (remove c hex).2
  | OpGc live listing => (gc c live listing).1
  end.

Definition run (c : chunk_store) (ops : list store_op) : chunk_store := fold_left run_op ops c.

(** Bytes on disk. *)
Definition disk_size (m : gmap string (list byte)) : N :=
  map_fold (fun _ b acc => (N.of_nat (length b) + acc)%N) 0%N m.

(** Every stored chunk is named by its digest, and the accounting is exact
    and within the capacity. *)
Definition store_ok (c : chunk_store) : Prop :=
  map_Forall (fun name b => to_hex (hemera_hash b) = name) (disk c) /\
  map_Forall (fun name b => to_hex (hemera_hash b) = name) (cs_index c) /\
  used c = disk_size (disk c) /\ (used c <= capacity c)%N /\ (0 < capacity c < u64_max)%N.

(** ** Lemmas *)

Lemma disk_size_insert m name b :
  m !! name = None -> disk_size (<[name := b]> m) = (N.of_nat (length b) + disk_size m)%N.
Proof. intros Hn. unfold disk_size. rewrite map_fold_insert_L; [done| |done]. intros. lia. Qed.

Lemma disk_size_delete m name :
  disk_size m =
    (from_option (fun b => N.of_nat (length b)) 0 (m !! name) + disk_size (delete name m))%N.
Proof.
  destruct (m !! name) as [b|] eqn:E; simpl.
  - rewrite <-(insert_delete_id m name b E) at 1. rewrite disk_size_insert by apply lookup_delete_eq. done.
  - by rewrite delete_id.
Qed.

Lemma put_ok c s h c' : store_ok c -> put c s = Ok (h, c') -> store_ok c'.
Proof.
  intros (Hd & Hi & Hu & Hle & Hc). unfold put.
  destruct ((0 <? capacity c)%N && _) eqn:Ecap; [done|].
  assert (sat_add64 (used c) (N.of_nat (length (shard_to_bytes s))) <= capacity c)%N as E.
  { apply andb_false_iff in Ecap as [E%N.ltb_ge|E%N.ltb_ge]; lia. }
  assert (sat_add64 (used c) (N.of_nat (length (shard_to_bytes s))) =
          used c + N.of_nat (length (shard_to_bytes s)))%N as Es.
  { unfold sat_add64 in *. lia. }
  intros [= _ <-]. rewrite Es in *. clear Ecap.
  case_bool_decide as Hex; unfold store_ok; cbn [disk cs_index used capacity].
  - split; [done|]. split; [by apply map_Forall_insert_2|]. auto.
  - apply eq_None_not_Some in Hex. split; [by apply map_Forall_insert_2|].
    split; [by apply map_Forall_insert_2|]. rewrite disk_size_insert by done.
    split; [lia|]. auto.
Qed.

Lemma remove_ok c name : store_ok c -> store_ok (remove c name).2.
Proof.
  intros (Hd & Hi & Hu & Hle & Hc). unfold remove, sat_sub64. split_and!; simpl; try lia.
  - by apply map_Forall_delete.
  - by apply map_Forall_delete.
  - pose proof (disk_size_delete (disk c) name). lia.
Qed.

Lemma gc_ok c live listing : store_ok c -> store_ok (gc c live listing).1.
Proof.
  intros Hc. unfold gc. apply (fold_left_invariant _ (fun st => store_ok st.1)); [|done].
  intros st name _ Hst. unfold gc_step. case_bool_decide; [done|].
  pose proof (remove_ok st.1 name Hst). by destruct (remove st.1 name).
Qed.

Lemma run_ok c ops : store_ok c -> store_ok (run c ops).
Proof.
  intros Hc. unfold run. apply fold_left_invariant; [|done].
  intros c' [s|name|live listing] _ Hc'; simpl.
  - destruct (put c' s) as [[h c'']|] eqn:E; [by eapply put_ok | done].
  - by apply remove_ok.
  - by apply gc_ok.
Qed.

Lemma store_new_ok cap : (0 < cap < u64_max)%N -> store_ok (store_new ∅ cap).
Proof.
  intros Hc. unfold store_new. split_and!; simpl; try done; try lia; apply map_Forall_empty.
Qed.

Lemma run_op_capacity c op : capacity (run_op c op) = capacity c.
Proof.
  destruct op as [s|name|live l]; simpl; [|done|].
  - unfold put. destruct (andb _ _); [done|]. simpl. by case_bool_decide.
  - unfold gc. apply (fold_left_invariant _ (fun st => capacity st.1 = capacity c)); [|done].
    intros st x _ Hst. unfold gc_step. by case_bool_decide.
Qed.

Lemma run_capacity c ops : capacity (run c ops) = capacity c.
Proof.
  unfold run. apply (fold_left_invariant run_op (fun c' => capacity c' = capacity c)); [|done].
  intros c' op _ <-. apply run_op_capacity.
Qed.

Lemma audit_clean c listing :
  map_Forall (fun name b => to_hex (hemera_hash b) = name) (disk c) -> (audit c listing).2 = [].
Proof.
  intros Hd. unfold audit.
  assert (forall l n, (fold_left (audit_step c) l (n, [])).2 = []) as H.
  { induction l as [|name l IH]; intros n; simpl; [done|]. unfold audit_step at 2.
    destruct (disk c !! name) as [b|] eqn:E; [|apply IH].
    unfold verify_chunk. rewrite bool_decide_eq_true_2; [apply IH|]. by apply Hd. }
  specialize (H (chunk_names listing) 0). destruct (fold_left _ _ _) as [n l]; simpl in *. by subst.
Qed.

(** What collection leaves on disk, whatever the listing order. *)
Lemma gc_fold c live names n f :
  let r := fold_left (gc_step live) names (c, (n, f)) in
  (forall name, disk r.1 !! name =
     if decide (name ∈ names /\ name ∉ live) then None else disk c !! name) /\
  (disk_size (disk r.1) + r.2.2 = disk_size (disk c) + f)%N.
Proof.
  revert c n f. induction names as [|x names IH]; intros c n f; cbn [fold_left].
  { split; [|simpl; lia]. intros name. rewrite decide_False; [done|]. intros [H _]. by apply elem_of_nil in H. }
  assert (gc_step live (c, (n, f)) x =
    if decide (x ∈ live) then (c, (n, f)) else ((remove c x).2, (n + 1, (f + (remove c x).1)%N))) as ->.
  { unfold gc_step. simpl. by case_bool_decide; case_decide. }
  case_decide as Hx.
  - destruct (IH c n f) as [H1 H2]. split; [|done]. intros name. rewrite H1.
    destruct (decide (name ∈ names /\ name ∉ live)) as [[? ?]|Hno].
    + by rewrite decide_True by (split; [by constructor|done]).
    + rewrite decide_False; [done|]. intros [[->|?]%elem_of_cons ?]; [done|]. by apply Hno.
  - destruct (IH (remove c x).2 (n + 1) (f + (remove c x).1)%N) as [H1 H2].
    unfold remove in H1, H2 |- *. cbn [fst snd disk] in H1, H2 |- *. split.
    + intros name. rewrite H1, lookup_delete.
      destruct (decide (name ∈ names /\ name ∉ live)) as [[? ?]|Hno].
      * by rewrite decide_True by (split; [by constructor|done]).
      * case_decide as Hn; [subst; by rewrite decide_True by (split; [constructor|done])|].
        rewrite decide_False; [done|]. intros [[->|?]%elem_of_cons ?]; [done|]. by apply Hno.
    + pose proof (disk_size_delete (disk c) x). lia.
Qed.
End chunks.

(** ** Properties *)

Section chunks_properties.
Context {HM : Hemera} {HL : HexLaws} {NB : Nebu}.

(** Whatever sequence of puts, removals and collections a bounded store
    on an initially empty directory goes through, its accounting is exact and
    never exceeds the capacity, every chunk it returns hashes to the requested
    digest, and the integrity audit finds nothing corrupt. *)
Lemma chunk_store_integrity (cap : N) (ops : list store_op) (h : particle) (b : list byte)
    (listing : list string) :
  (0 < cap < u64_max)%N ->
  let c := run (store_new ∅ cap) ops in
  used c = disk_size (disk c) /\ (used c <= cap)%N /\ (audit c listing).2 = [] /\
  (get_chunk c h = Ok b -> hemera_hash b = h).
Proof.
  intros Hcap c. assert (store_ok c) as Hok by (by apply run_ok, store_new_ok).
  assert (capacity c = cap) as Hc.
  { unfold c. by rewrite run_capacity. }
  pose proof Hok as (Hd & Hi & Hu & Hle & _). rewrite Hc in Hle.
  split; [done|]. split; [done|]. split; [by apply audit_clean|].
  unfold get_chunk. destruct (cs_index c !! to_hex h) as [b'|] eqn:E.
  - intros [= ->]. apply Hi in E. by apply (inj to_hex).
  - destruct (disk c !! to_hex h) as [b'|] eqn:E'; simpl; [|done].
    intros [= ->]. apply Hd in E'. by apply (inj to_hex).
Qed.

(** Garbage collection against the registry's live hashes removes exactly
    the chunk files no live entry refers to, whatever order the directory is
    listed in: every other file keeps its content, and the bytes reported
    freed are exactly those gone from the disk. *)
Lemma gc_exact (c : chunk_store) (g : Registry.gset_crdt) (listing : list string) :
  listing ≡ₚ (map_to_list (disk c)).*1 ->
  let r := gc c (Registry.live_shard_hashes g) listing in
  (forall name b, disk r.1 !! name = Some b <->
     disk c !! name = Some b /\
     (String.length name = 64 ->
        exists e, e ∈ Registry.values_of g /\ Registry.live e /\ name ∈ Registry.fe_shard_hashes e)) /\
  (disk_size (disk r.1) + r.2.2 = disk_size (disk c))%N.
Proof.
  intros Hl r. destruct (gc_fold c (Registry.live_shard_hashes g) (chunk_names listing) 0 0) as [H1 H2].
  split; [|unfold r, gc; lia]. intros name b. unfold r, gc. rewrite H1.
  pose proof (Registry.elem_of_live_shard_hashes g name) as Hlive.
  assert (is_Some (disk c !! name) -> name ∈ listing) as Hin.
  { intros [x Hx]. rewrite Hl. apply list_elem_of_fmap. exists (name, x). split; [done|].
    by apply elem_of_map_to_list. }
  unfold chunk_names. case_decide as Hd.
  - split; [done|]. intros [Hb Hno]. exfalso. destruct Hd as [[Hlen _]%list_elem_of_filter Hnl].
    apply Hnl, Hlive. auto.
  - split; [|by intros [? _]]. intros Hb. split; [done|]. intros Hlen. apply Hlive.
    destruct (decide (name ∈ Registry.live_shard_hashes g)) as [|Hnl]; [done|].
    exfalso. apply Hd. split; [|done]. apply list_elem_of_filter. split; [done|]. apply Hin. eauto.
Qed.
End chunks_properties.
End Chunks.

(** ** Witnesses *)

Definition ex_entry (name : string) (ts : N) : Registry.file_entry :=
  Registry.mk_entry name 9 1 2 ["00"%string] ts (Registry.compute_hash name ["00"%string] ts "d") "d" "" 1 false.


Lemma chunk_store_integrity_witness :
  let s := mk_shard 0 [gf_one; gf_one] in
  let c := Chunks.run (Chunks.store_new ∅ 20) [Chunks.OpPut s; Chunks.OpPut (mk_shard 1 [gf_zero])] in
  Chunks.used c = Chunks.disk_size (Chunks.disk c) /\ (Chunks.used c <= 20)%N /\
  (Chunks.audit c []).2 = [] /\
  (Chunks.get_chunk c (hemera_hash (Chunks.shard_to_bytes s)) = Ok (Chunks.shard_to_bytes s) ->
     hemera_hash (Chunks.shard_to_bytes s) = hemera_hash (Chunks.shard_to_bytes s)).
Proof.
  intros s c. apply (Chunks.chunk_store_integrity 20
    [Chunks.OpPut s; Chunks.OpPut (mk_shard 1 [gf_zero])]).
  unfold u64_max. lia.
Defined.

Definition ex_store : Chunks.chunk_store :=
  Chunks.store_new {[to_hex zero32 := [x01]; to_hex (arr_rep 32 x01) := [x02]]} 100.
Definition ex_registry : Registry.gset_crdt :=
  Registry.insert Registry.gset_new
    (Registry.mk_entry "a" 1 1 2 [to_hex zero32] 5 "" "d" "" 1 false).

Lemma gc_exact_witness :
  let r := Chunks.gc ex_store (Registry.live_shard_hashes ex_registry) (map_to_list (Chunks.disk ex_store)).*1 in
  (forall name b, Chunks.disk r.1 !! name = Some b <->
     Chunks.disk ex_store !! name = Some b /\
     (String.length name = 64 ->
        exists e, e ∈ Registry.values_of ex_registry /\ Registry.live e /\ name ∈ Registry.fe_shard_hashes e)) /\
  (Chunks.disk_size (Chunks.disk r.1) + r.2.2 = Chunks.disk_size (Chunks.disk ex_store))%N.
Proof. apply (Chunks.gc_exact ex_store ex_registry). reflexivity. Defined.
