(* ===== verification/Nmt.v ===== *)
(** * Nmt: the namespaced Merkle tree (src/nmt.rs)

    [build] sorts the leaves and hashes them pairwise; [prove] returns the
    leaves of one namespace with the root; [verify] checks a proof against a
    trusted root, [verify_full] against the whole leaf list.  The recursion of
    [build_tree] is on a fuel, the number of leaves. *)

From S2P Require Import Prelude Order Bytes Externals Goldilocks Instances.

Section nmt.
Context {HM : Hemera}.

Record nmt_leaf := mk_leaf { nl_namespace : string; nl_data_hash : string }.
Record nmt_node := mk_node { nn_hash : string; nn_min : string; nn_max : string }.
Record completeness_proof := mk_cproof {
  cp_namespace : string;
  cp_leaves : list nmt_leaf;
  cp_root : nmt_node;
  cp_total : nat
}.

#[global] Instance nmt_leaf_eq_dec : EqDecision nmt_leaf.
Proof. solve_decision. Defined.
#[global] Instance nmt_node_eq_dec : EqDecision nmt_node.
Proof. solve_decision. Defined.
#[global] Instance nmt_leaf_ord : Ord nmt_leaf := cmp_via (fun l => (nl_namespace l, nl_data_hash l)).

Definition colon : list byte := [":"%byte].

(** The formatted preimages of a leaf and of a pair. *)
Definition leaf_preimage (l : nmt_leaf) : list byte :=
  str_bytes "nmt_leaf:" ++ str_bytes (nl_namespace l) ++ colon ++ str_bytes (nl_data_hash l).
Definition pair_preimage (left right : nmt_node) : list byte :=
  str_bytes "nmt_node:" ++ str_bytes (nn_hash left) ++ colon ++ str_bytes (nn_hash right) ++ colon
    ++ str_bytes (nn_min left) ++ colon ++ str_bytes (nn_max right).

Definition hash_leaf (l : nmt_leaf) : string := to_hex (hemera_hash (leaf_preimage l)).

Definition hash_pair (left right : nmt_node) : nmt_node :=
  mk_node (to_hex (hemera_hash (pair_preimage left right)))
    (omin (nn_min left) (nn_min right)) (omax (nn_max left) (nn_max right)).

Definition empty_node : nmt_node :=
  mk_node (String.string_of_list_ascii (replicate 64 (Ascii.ascii_of_N 48))) "" "".

Fixpoint build_tree_fuel (fuel : nat) (sorted_leaves : list nmt_leaf) : nmt_node :=
  match sorted_leaves with
  | [] => empty_node
  | [l] => mk_node (hash_leaf l) (nl_namespace l) (nl_namespace l)
  | _ =>
      match fuel with
      | 0 => empty_node
      | S fuel =>
          let mid := length sorted_leaves / 2 in
          hash_pair (build_tree_fuel fuel (take mid sorted_leaves))
            (build_tree_fuel fuel (drop mid sorted_leaves))
      end
  end.
Definition build_tree (sorted_leaves : list nmt_leaf) : nmt_node :=
  build_tree_fuel (length sorted_leaves) sorted_leaves.

Definition build (leaves : list nmt_leaf) : nmt_node := build_tree (sort leaves).

Definition in_namespace (ns : string) (l : nmt_leaf) : Prop := nl_namespace l = ns.
#[global] Instance in_namespace_dec ns l : Decision (in_namespace ns l) := decide (nl_namespace l = ns).

Definition prove (leaves : list nmt_leaf) (namespace : string) : completeness_proof :=
  let sorted := sort leaves in
  mk_cproof namespace (filter (in_namespace namespace) sorted) (build_tree sorted) (length sorted).

(** [proof.leaves[i] < proof.leaves[i - 1]] for some [i] in [1..len]. *)
Definition unsorted (leaves : list nmt_leaf) : bool :=
  existsb (fun p => olt p.2 p.1) (zip leaves (tail leaves)).

Definition verify (proof : completeness_proof) (trusted_root : nmt_node) : bool :=
  if negb (bool_decide (cp_root proof = trusted_root)) then false
  else if existsb (fun l => negb (bool_decide (nl_namespace l = cp_namespace proof))) (cp_leaves proof) then false
  else if unsorted (cp_leaves proof) then false
  else true.

Definition verify_full (all_leaves : list nmt_leaf) (proof : completeness_proof) : bool :=
  if negb (verify proof (build all_leaves)) then false
  else
    let actual := filter (in_namespace (cp_namespace proof)) (sort all_leaves) in
    if negb (bool_decide (length actual = length (cp_leaves proof))) then false
    else negb (existsb (fun p => negb (bool_decide (p.1 = p.2))) (zip actual (cp_leaves proof))).

(** ** Lemmas *)

#[global] Instance nmt_leaf_ord_laws : OrdLaws nmt_leaf.
Proof.
  assert (Inj (=) (=) (fun l => (nl_namespace l, nl_data_hash l))).
  { intros [n1 d1] [n2 d2]. simpl. congruence. }
  by apply (cmp_via_laws (fun l => (nl_namespace l, nl_data_hash l))).
Qed.

Lemma halves (l : list nmt_leaf) :
  2 <= length l ->
  1 <= length (take (length l / 2) l) < length l /\ 1 <= length (drop (length l / 2) l) < length l.
Proof.
  intros Hl. rewrite length_take, length_drop.
  assert (1 <= length l / 2) by (apply Nat.div_le_lower_bound; lia).
  assert (length l / 2 < length l) by (apply Nat.div_lt; lia). lia.
Qed.

Lemma build_tree_fuel_enough l f1 f2 :
  length l <= f1 -> length l <= f2 -> build_tree_fuel f1 l = build_tree_fuel f2 l.
Proof.
  remember (length l) as n eqn:Hn. revert l f1 f2 Hn.
  induction n as [n IH] using lt_wf_ind. intros l f1 f2 Hn H1 H2.
  destruct l as [|x [|y l]]; [by destruct f1, f2..|].
  destruct f1 as [|f1]; [simpl in Hn; lia|]. destruct f2 as [|f2]; [simpl in Hn; lia|].
  cbn [build_tree_fuel]. destruct (halves (x :: y :: l)) as [[? ?] [? ?]]; [simpl; lia|].
  f_equal; (eapply IH; [|reflexivity|..]); lia.
Qed.

(** The fuel is enough: the recursion unfolds. *)
Lemma build_tree_split l :
  2 <= length l ->
  build_tree l = hash_pair (build_tree (take (length l / 2) l)) (build_tree (drop (length l / 2) l)).
Proof.
  intros Hl. destruct (halves l Hl) as [[? ?] [? ?]]. unfold build_tree at 1.
  rewrite (build_tree_fuel_enough l (length l) (S (length l))) by lia.
  transitivity (hash_pair (build_tree_fuel (length l) (take (length l / 2) l))
                  (build_tree_fuel (length l) (drop (length l / 2) l))).
  { destruct l as [|x [|y l]]; [simpl in Hl; lia..|]. done. }
  unfold build_tree. f_equal; apply build_tree_fuel_enough; lia.
Qed.

Lemma node_hash_length `{!HexLaws} l : l <> [] -> String.length (nn_hash (build_tree l)) = 64.
Proof.
  intros Hl. destruct l as [|x [|y l]]; [done|simpl; apply to_hex_length|].
  rewrite build_tree_split by (simpl; lia). simpl. apply to_hex_length.
Qed.

Definition colon_free (s : string) : Prop := ":"%byte ∉ str_bytes s.

Lemma app_colon_inj (a b c d : list byte) :
  ":"%byte ∉ a -> ":"%byte ∉ c -> a ++ colon ++ b = c ++ colon ++ d -> a = c /\ b = d.
Proof.
  revert c. induction a as [|x a IH]; intros [|y c] Ha Hc; simpl; intros E.
  - by injection E.
  - injection E as <- _. exfalso. apply Hc. constructor.
  - injection E as -> _. exfalso. apply Ha. constructor.
  - injection E as -> E. apply not_elem_of_cons in Ha as [_ Ha], Hc as [_ Hc].
    destruct (IH c Ha Hc E) as [-> ->]. done.
Qed.

Lemma leaf_preimage_inj l1 l2 :
  colon_free (nl_namespace l1) -> colon_free (nl_namespace l2) ->
  leaf_preimage l1 = leaf_preimage l2 -> l1 = l2.
Proof.
  destruct l1 as [n1 d1], l2 as [n2 d2]. unfold leaf_preimage; simpl nl_namespace; simpl nl_data_hash.
  intros H1 H2 E. apply app_inv_head in E. apply app_colon_inj in E as [En Ed]; [|done..].
  apply (inj str_bytes) in En, Ed. by subst.
Qed.

Lemma pair_preimage_hashes a b c d :
  String.length (nn_hash a) = String.length (nn_hash c) ->
  String.length (nn_hash b) = String.length (nn_hash d) ->
  pair_preimage a b = pair_preimage c d -> nn_hash a = nn_hash c /\ nn_hash b = nn_hash d.
Proof.
  unfold pair_preimage. intros Hac Hbd E. apply app_inv_head in E.
  apply app_inj_1 in E as [E1 E]; [|by rewrite !str_bytes_length].
  apply app_inv_head in E.
  apply app_inj_1 in E as [E2 _]; [|by rewrite !str_bytes_length].
  split; by apply (inj str_bytes).
Qed.

Lemma leaf_pair_preimage l a b : leaf_preimage l <> pair_preimage a b.
Proof. unfold leaf_preimage, pair_preimage. simpl. congruence. Qed.

(** Equal preimages, or a collision. *)
Lemma hex_collision `{!HexLaws} x y :
  to_hex (hemera_hash x) = to_hex (hemera_hash y) -> x = y \/ exists x y, collides x y.
Proof.
  intros E%(inj to_hex). destruct (decide (x = y)); [by left|]. right. by exists x, y.
Qed.

Lemma build_tree_binds `{!HexLaws} l1 l2 :
  l1 <> [] -> l2 <> [] ->
  Forall (fun l => colon_free (nl_namespace l)) l1 -> Forall (fun l => colon_free (nl_namespace l)) l2 ->
  nn_hash (build_tree l1) = nn_hash (build_tree l2) -> l1 = l2 \/ exists x y, collides x y.
Proof.
  remember (length l1) as n eqn:Hn. revert l1 l2 Hn.
  induction n as [n IH] using lt_wf_ind. intros l1 l2 Hn N1 N2 C1 C2 E.
  destruct (decide (2 <= length l1)) as [H1|H1], (decide (2 <= length l2)) as [H2|H2].
  - rewrite (build_tree_split l1 H1), (build_tree_split l2 H2) in E. cbn [hash_pair nn_hash] in E.
    apply hex_collision in E as [E|]; [|by right].
    destruct (halves l1 H1) as [[? ?] [? ?]], (halves l2 H2) as [[? ?] [? ?]].
    set (m1 := length l1 / 2) in *. set (m2 := length l2 / 2) in *.
    assert (take m1 l1 <> [] /\ drop m1 l1 <> [] /\ take m2 l2 <> [] /\ drop m2 l2 <> []) as (? & ? & ? & ?).
    { split_and!; intros E0; rewrite E0 in *; simpl in *; lia. }
    apply pair_preimage_hashes in E as [Ea Eb]; [|by rewrite !node_hash_length..].
    apply (IH (length (take m1 l1))) in Ea as [Ea|]; [|by right|lia|done|done|done|by apply Forall_take..].
    apply (IH (length (drop m1 l1))) in Eb as [Eb|]; [|by right|lia|done|done|done|by apply Forall_drop..].
    left. by rewrite <-(take_drop m1 l1), <-(take_drop m2 l2), Ea, Eb.
  - destruct l2 as [|y [|? ?]]; [done| |simpl in H2; lia].
    rewrite (build_tree_split l1 H1) in E. cbn [hash_pair nn_hash] in E.
    symmetry in E. apply hex_collision in E as [E|]; [by apply leaf_pair_preimage in E|by right].
  - destruct l1 as [|x [|? ?]]; [done| |simpl in H1; lia].
    rewrite (build_tree_split l2 H2) in E. cbn [hash_pair nn_hash] in E.
    apply hex_collision in E as [E|]; [by apply leaf_pair_preimage in E|by right].
  - destruct l1 as [|x [|? ?]]; [done| |simpl in H1; lia].
    destruct l2 as [|y [|? ?]]; [done| |simpl in H2; lia]. simpl in E.
    apply hex_collision in E as [E|]; [|by right]. left. f_equal.
    apply Forall_cons in C1 as [? _], C2 as [? _]. by apply leaf_preimage_inj.
Qed.

Lemma unsorted_sorted (l : list nmt_leaf) : SortedBy id l -> unsorted l = false.
Proof.
  unfold unsorted. induction 1 as [|x l Hl IH Hall]; [done|].
  destruct l as [|y l]; [done|]. simpl in *. rewrite IH, orb_false_r.
  apply Forall_cons in Hall as [Hxy _]. rewrite ole_olt in Hxy. by apply negb_true_iff.
Qed.

Lemma existsb_false {A} (f : A -> bool) l : existsb f l = false <-> Forall (fun x => f x = false) l.
Proof.
  induction l as [|x l IH]; simpl; [split; auto|]. rewrite orb_false_iff, Forall_cons, IH. done.
Qed.

Lemma zip_equal {A} `{EqDecision A} (l1 l2 : list A) :
  length l1 = length l2 ->
  existsb (fun p => negb (bool_decide (p.1 = p.2))) (zip l1 l2) = false <-> l1 = l2.
Proof.
  revert l2; induction l1 as [|x l1 IH]; intros [|y l2]; simpl; try done. intros [= Hl].
  rewrite orb_false_iff, negb_false_iff, bool_decide_eq_true, IH by done. split; [by intros [-> ->]|].
  by intros [= -> ->].
Qed.

Lemma verify_full_iff all proof :
  verify_full all proof = true <->
    cp_root proof = build all /\
    cp_leaves proof = filter (in_namespace (cp_namespace proof)) (sort all).
Proof.
  unfold verify_full, verify.
  case_bool_decide as Hr; simpl; [|split; [done|by intros [? _]]].
  set (actual := filter (in_namespace (cp_namespace proof)) (sort all)).
  assert (cp_leaves proof = actual ->
    existsb (fun l => negb (bool_decide (nl_namespace l = cp_namespace proof))) (cp_leaves proof) = false /\
    unsorted (cp_leaves proof) = false) as Hact.
  { intros ->. split.
    - apply existsb_false, Forall_forall. intros l [Hl _]%list_elem_of_filter.
      by rewrite bool_decide_eq_true_2.
    - apply unsorted_sorted. unfold actual. apply sorted_by_filter, sort_by_sorted. }
  split.
  - intros H. split; [done|].
    destruct (existsb _ (cp_leaves proof)); [done|]. destruct (unsorted _); [done|]. simpl in H.
    case_bool_decide as Hl; [|done]. simpl in H. symmetry.
    apply zip_equal; [done|]. by apply negb_true_iff.
  - intros [_ E]. destruct (Hact E) as [-> ->]. simpl. rewrite bool_decide_eq_true_2 by (by rewrite E).
    simpl. apply negb_true_iff, zip_equal; by rewrite E.
Qed.
End nmt.

(** ** Properties *)

Section nmt_properties.
Context {HM : Hemera}.

(** [verify_full] accepts exactly the complete proofs: the root is that of
    the leaves and the proof lists all leaves of its namespace, each as often
    as it occurs, in order; so every proof made by [prove] is accepted and an
    omission, an insertion or a reordering is rejected.  [build] does not
    depend on the order of the leaves. *)
Lemma verify_full_complete (all all' : list nmt_leaf) (proof : completeness_proof) (ns : string) :
  (verify_full all proof = true <->
     cp_root proof = build all /\
     cp_leaves proof = filter (in_namespace (cp_namespace proof)) (sort all)) /\
  verify_full all (prove all ns) = true /\
  (all ≡ₚ all' -> build all = build all' /\ prove all ns = prove all' ns).
Proof.
  split; [apply verify_full_iff|]. split; [by apply verify_full_iff|].
  intros Hp. unfold build, prove. by rewrite (sort_proper all all' Hp).
Qed.

End nmt_properties.

(** ** Witnesses *)

Definition ex_leaves : list nmt_leaf := [mk_leaf "b" "2"; mk_leaf "a" "1"; mk_leaf "a" "0"].

(** The preimage of a leaf does not separate a namespace holding a colon. *)
Lemma leaf_hash_ambiguous {HM : Hemera} : hash_leaf (mk_leaf "a:b" "c") = hash_leaf (mk_leaf "a" "b:c").
Proof. reflexivity. Qed.

Lemma verify_full_complete_witness : build ex_leaves = build (rev ex_leaves).
Proof.
  apply (verify_full_complete ex_leaves (rev ex_leaves) (prove ex_leaves "a") "a").
  apply (bool_decide_eq_true_1 _). by_vm.
Defined.

