(* ===== verification/Das.v ===== *)
(** * Das: data availability sampling (src/das.rs)

    A [das_commitment] holds one tree root per shard and the root over them;
    [verify_sample] checks one returned shard against it and
    [decide_availability] a round of requests ([None] is [WITHHELD]).  The
    floating-point [confidence] is not modelled. *)

From S2P Require Import Prelude Order Bytes Externals Poly Erasure Store Goldilocks Instances.

Section das.
Context {HM : Hemera} {NB : Nebu}.

Record das_commitment := mk_das {
  dc_shard_roots : list particle;
  dc_root : particle;
  dc_k : nat;
  dc_n : nat;
  dc_original_len : nat
}.

Record das_sample := mk_sample {
  sm_shard_index : nat;
  sm_shard_data : list byte;
  sm_shard_root : particle
}.

Definition global_root (shard_roots : list particle) : particle :=
  tree_root_hash (concat (map arr_bytes shard_roots)).

Definition das_commit (shards : list shard) (k original_len : nat) : das_commitment :=
  let shard_roots := map (fun s => tree_root_hash (Chunks.shard_to_bytes s)) shards in
  mk_das shard_roots (global_root shard_roots) k (length shards) original_len.

Definition sample (s : shard) : das_sample :=
  let bytes := Chunks.shard_to_bytes s in
  mk_sample (sh_index s) bytes (tree_root_hash bytes).

Definition verify_sample (s : das_sample) (c : das_commitment) : bool :=
  if bool_decide (dc_n c <= sm_shard_index s) || bool_decide (length (dc_shard_roots c) <= sm_shard_index s)
  then false
  else if negb (bool_decide (global_root (dc_shard_roots c) = dc_root c)) then false
  else
    match dc_shard_roots c !! sm_shard_index s with
    | Some r => bool_decide (tree_root_hash (sm_shard_data s) = r)
    | None => false
    end.

Definition verify_availability (samples : list das_sample) (c : das_commitment) : nat * nat :=
  (fold_left (fun passed s => if verify_sample s c then passed + 1 else passed) samples 0, length samples).

Definition WITHHELD : option das_sample := None.

Inductive availability := Available | Unavailable.

Definition response_passes (c : das_commitment) (r : option das_sample) : bool :=
  match r with Some s => verify_sample s c | None => false end.

Definition decide_availability (responses : list (option das_sample)) (c : das_commitment)
    (min_verified : nat) : availability :=
  let passed := length (List.filter (response_passes c) responses) in
  if bool_decide (min_verified <= passed) then Available else Unavailable.

(** The shard a verified sample carries, as [store::bytes_to_shard] reads it. *)
Definition sample_shard (s : das_sample) : shard :=
  Chunks.bytes_to_shard (sm_shard_index s) (sm_shard_data s).

(** ** Lemmas *)

Lemma verify_sample_spec s c :
  verify_sample s c = true <->
    sm_shard_index s < dc_n c /\ global_root (dc_shard_roots c) = dc_root c /\
    dc_shard_roots c !! sm_shard_index s = Some (tree_root_hash (sm_shard_data s)).
Proof.
  unfold verify_sample. case_bool_decide as H1; simpl.
  { split; [done|]. intros [? _]. lia. }
  case_bool_decide as H2; simpl.
  { split; [done|]. intros (_ & _ & E). apply lookup_lt_Some in E. lia. }
  case_bool_decide as H3; simpl; [|split; [done|by intros (_ & ? & _)]].
  destruct (dc_shard_roots c !! sm_shard_index s) as [r|] eqn:E.
  - rewrite bool_decide_eq_true. split; [intros <-; split; [lia|done] | by intros (_ & _ & [= ->])].
  - split; [done | by intros (_ & _ & ?)].
Qed.

(** Equal global roots: equal shard roots or a collision. *)
Lemma global_root_inj l1 l2 :
  global_root l1 = global_root l2 -> l1 = l2 \/ exists x y, tree_collides x y.
Proof.
  unfold global_root. intros E.
  destruct (decide (concat (map arr_bytes l1) = concat (map arr_bytes l2))) as [Eb|Nb].
  - left. pose proof (f_equal length Eb) as Hl.
    rewrite !(concat_fixed_length arr_bytes 32) in Hl by apply arr_length.
    rewrite <-(app_nil_r (concat (map arr_bytes l1))), <-(app_nil_r (concat (map arr_bytes l2))) in Eb.
    apply (concat_fixed_inj arr_bytes 32) in Eb as [HF _]; [|apply arr_length|lia].
    apply list_eq_Forall2. eapply Forall2_impl; [exact HF|]. intros a b. apply (inj arr_bytes).
  - right. eexists _, _. by split.
Qed.

Lemma chunks_concat {A} n (ls : list (list A)) :
  0 < n -> Forall (fun l => length l = n) ls -> chunks n (concat ls) = ls.
Proof.
  intros Hn. induction 1 as [|l ls Hl Hls IH]; [done|]. simpl.
  rewrite chunks_step; [|done|destruct l; simpl in *; [lia|done]].
  rewrite take_app_length', drop_app_length' by done. by rewrite IH.
Qed.

Lemma bytes_to_shard_to_bytes `{!NebuLaws} s i :
  Chunks.bytes_to_shard i (Chunks.shard_to_bytes s) = mk_shard i (sh_data s).
Proof.
  unfold Chunks.bytes_to_shard, Chunks.shard_to_bytes. f_equal.
  assert (Forall (fun l => length l = 8) (map (fun e => u64_le (gf_as_u64 e)) (sh_data s))) as H8.
  { apply Forall_fmap, Forall_forall. intros e _. apply u64_le_length. }
  rewrite chunks_concat by (lia || done). rewrite filter_every by done. rewrite map_map.
  rewrite <-(map_id (sh_data s)) at 2. apply map_ext. intros e. rewrite u64_le_num; [apply gf_new_as_u64|].
  pose proof (gf_as_u64_lt e). rewrite gf_P_value in *. unfold is_u64, u64_max. lia.
Qed.

(** A sample verified against the genuine root carries the genuine bytes. *)
Lemma verified_sample_genuine s c shards k len :
  dc_root c = dc_root (das_commit shards k len) -> verify_sample s c = true ->
  (exists sh, shards !! sm_shard_index s = Some sh /\ sm_shard_data s = Chunks.shard_to_bytes sh) \/
  exists x y, tree_collides x y.
Proof.
  intros Hroot (_ & Hg & Hr)%verify_sample_spec. simpl in Hroot. rewrite <-Hg in Hroot.
  apply global_root_inj in Hroot as [E|]; [|by right]. rewrite E, list_lookup_fmap in Hr.
  destruct (shards !! sm_shard_index s) as [sh|]; simpl in Hr; [|done]. injection Hr as Hr.
  destruct (decide (sm_shard_data s = Chunks.shard_to_bytes sh)) as [Ed|Nd].
  - left. eauto.
  - right. exists (sm_shard_data s), (Chunks.shard_to_bytes sh). by split.
Qed.

Lemma samples_genuine `{!NebuLaws} samples c shards k len :
  (forall i sh, shards !! i = Some sh -> sh_index sh = i) ->
  dc_root c = dc_root (das_commit shards k len) ->
  Forall (fun s => verify_sample s c = true) samples ->
  Forall (fun sh => sh ∈ shards) (map sample_shard samples) \/ exists x y, tree_collides x y.
Proof.
  intros Hidx Hroot. induction 1 as [|s samples Hs _ IH]; simpl; [by left; constructor|].
  destruct IH as [IH|]; [|by right].
  destruct (verified_sample_genuine s c shards k len Hroot Hs) as [(sh & Hsh & Hd)|]; [|by right].
  left. constructor; [|done]. unfold sample_shard. rewrite Hd, bytes_to_shard_to_bytes.
  rewrite <-(Hidx _ _ Hsh). destruct sh as [i d]; simpl. by apply list_elem_of_lookup_2 in Hsh.
Qed.

Lemma passed_count samples c :
  fold_left (fun passed s => if verify_sample s c then passed + 1 else passed) samples 0 =
  length (List.filter (fun s => verify_sample s c) samples).
Proof.
  assert (forall n, fold_left (fun passed s => if verify_sample s c then passed + 1 else passed) samples n =
    n + length (List.filter (fun s => verify_sample s c) samples)) as H; [|by rewrite H].
  induction samples as [|s samples IH]; intros n; simpl; [lia|]. rewrite IH.
  destruct (verify_sample s c); simpl; lia.
Qed.
End das.

(** ** Properties *)

Section das_properties.
Context {HM : Hemera} {NB : Nebu} {NL : NebuLaws} {NT : Ntt} {TL : NttLaws}.


(** Sampling is honest and counts silence as failure: the sample of every
    shard of a commitment verifies; the verdict is [Available] exactly when at
    least [min_verified] responses are present and verify; and adding withheld
    requests never changes it. *)
Lemma sampling_sound (shards : list shard) (k len i : nat) (s : shard) (w min : nat)
    (responses : list (option das_sample)) (c : das_commitment) :
  (shards !! i = Some s -> sh_index s = i -> verify_sample (sample s) (das_commit shards k len) = true) /\
  (decide_availability responses c min = Available <->
     min <= length (List.filter (response_passes c) responses)) /\
  decide_availability (responses ++ replicate w WITHHELD) c min = decide_availability responses c min /\
  verify_availability (omap id responses) c =
    (length (List.filter (response_passes c) responses), length (omap id responses)).
Proof.
  split; [|split; [|split]].
  - intros Hs Hi. apply verify_sample_spec. simpl. rewrite Hi. apply lookup_lt_Some in Hs as Hlt.
    split; [done|]. split; [done|]. by rewrite list_lookup_fmap, Hs.
  - unfold decide_availability. case_bool_decide; [tauto|split; [done|lia]].
  - unfold decide_availability. rewrite List.filter_app, length_app.
    assert (List.filter (response_passes c) (replicate w WITHHELD) = []) as ->.
    { induction w as [|w IH]; [done|]. simpl. apply IH. }
    by rewrite Nat.add_0_r.
  - unfold verify_availability. f_equal. rewrite passed_count.
    induction responses as [|[r|] responses IH]; [done| |exact IH].
    change (omap id (Some r :: responses)) with (r :: omap id responses). cbn [List.filter response_passes].
    destruct (verify_sample r c); cbn [length]; by rewrite IH.
Qed.
End das_properties.

(** ** Witnesses *)

Definition ex_commitment : das_commitment := das_commit ex_shards 2 9.


Lemma sampling_sound_witness :
  verify_sample (sample (nth 1 ex_shards (mk_shard 0 []))) ex_commitment = true.
Proof.
  apply (sampling_sound ex_shards 2 9 1 (nth 1 ex_shards (mk_shard 0 [])) 0 0 [] ex_commitment).
  - by_vm.
  - by_vm.
Defined.
