(* ===== verification/Vdf.v ===== *)
(** * Vdf: the delay function by repeated squaring (src/vdf.rs)

    [evaluate] squares [iterations] times; [Vdf.verify] re-evaluates.  The
    field has public order, so the power can be had by one exponentiation. *)

From S2P Require Import Prelude Order Bytes Externals Poly Goldilocks Instances.

Section vdf.
Context {NB : Nebu}.

Record vdf_proof := mk_vdf { vp_input : N; vp_output : N; vp_iterations : N }.

#[global] Instance vdf_proof_eq_dec : EqDecision vdf_proof.
Proof. solve_decision. Defined.

Definition evaluate (input iterations : N) : vdf_proof :=
  let x := gf_new input in
  let x := if gf_is_zero x then gf_one else x in
  mk_vdf input (gf_as_u64 (N.iter iterations gf_square x)) iterations.

Definition verify (p : vdf_proof) : bool :=
  if (vp_iterations p =? 0)%N then
    (vp_input p =? vp_output p)%N || ((vp_input p =? 0)%N && (vp_output p =? 1)%N)
  else (vp_output (evaluate (vp_input p) (vp_iterations p)) =? vp_output p)%N.

(** [val |= (byte as u64) << (i * 8)] over the first eight bytes. *)
Definition challenge_from_hash (hash : particle) : N :=
  let val := (fold_left (fun st b => (N.lor st.1 (N.shiftl (Byte.to_N b) (st.2 * 8)), st.2 + 1)%N)
                (take 8 (arr_bytes hash)) (0, 0)%N).1 in
  if (val =? 0)%N then 1%N else val.

(** The field element squaring starts from. *)
Definition vdf_start (input : N) : gf :=
  if gf_is_zero (gf_new input) then gf_one else gf_new input.

Context {NL : NebuLaws}.

Lemma iter_square x T : N.iter T gf_square x = gf_exp x (2 ^ T).
Proof.
  induction T as [|T IH] using N.peano_ind.
  - simpl. by rewrite gf_exp_1.
  - rewrite N.iter_succ, IH, gf_square_mul, <-gf_exp_add. f_equal.
    rewrite N.pow_succ_r'. lia.
Qed.

Lemma vdf_start_nonzero input : vdf_start input <> gf_zero.
Proof.
  unfold vdf_start. destruct (gf_is_zero (gf_new input)) eqn:E; [apply gf_one_neq_zero|].
  intros Hz. rewrite Hz in E. by rewrite (proj2 (gf_is_zero_spec _) eq_refl) in E.
Qed.

Lemma evaluate_output input T :
  vp_output (evaluate input T) = gf_as_u64 (gf_exp (vdf_start input) (2 ^ T)).
Proof. unfold evaluate, vdf_start; simpl. by rewrite iter_square. Qed.

(** Exponents count modulo the order of the multiplicative group. *)
Lemma gf_exp_mod x n : x <> gf_zero -> gf_exp x n = gf_exp x (n mod (gf_P - 1)).
Proof.
  intros Hx. rewrite (N.div_mod' n (gf_P - 1)) at 1.
  rewrite gf_exp_add, gf_exp_mul, gf_fermat, gf_exp_one by done.
  apply (Rmul_1_l gf_ring).
Qed.

Lemma gf_as_u64_is_u64 x : is_u64 (gf_as_u64 x).
Proof. pose proof (gf_as_u64_lt x). rewrite gf_P_value in *. unfold is_u64, u64_max. lia. Qed.

Lemma verify_evaluate input T : (0 < T)%N -> verify (evaluate input T) = true.
Proof.
  intros HT. unfold verify. simpl. destruct (N.eqb_spec T 0); [lia|]. apply N.eqb_refl.
Qed.

Lemma gf_new_zero_iff v : is_u64 v -> gf_new v = gf_zero <-> (v mod gf_P = 0)%N.
Proof.
  intros Hv. rewrite <-gf_as_u64_new by done. split.
  - intros ->. rewrite <-gf_new_0, gf_as_u64_new by (unfold is_u64, u64_max; lia).
    apply N.Div0.mod_0_l.
  - intros E. by rewrite <-(gf_new_as_u64 (gf_new v)), E, gf_new_0.
Qed.

Lemma verify_zero_iterations input :
  is_u64 input -> verify (evaluate input 0) = true <-> (input < gf_P)%N.
Proof.
  intros Hu. unfold verify; simpl. rewrite orb_true_iff, andb_true_iff, !N.eqb_eq.
  pose proof (gf_new_zero_iff input Hu) as Hz. pose proof (gf_P_value) as HP.
  assert (gf_as_u64 gf_one = 1%N) as H1.
  { rewrite <-gf_new_1, gf_as_u64_new, HP by (unfold is_u64, u64_max; lia). done. }
  unfold is_u64, u64_max in Hu.
  destruct (gf_is_zero (gf_new input)) eqn:E.
  - apply gf_is_zero_spec, Hz in E. rewrite H1. split.
    + intros [->|[-> _]]; lia.
    + intros Hlt. rewrite N.mod_small in E by done. auto.
  - rewrite gf_as_u64_new by done. split.
    + intros [Ei|[-> _]]; [rewrite Ei; apply N.mod_lt; lia|lia].
    + intros Hlt. left. symmetry. by apply N.mod_small.
Qed.
End vdf.

(** ** Properties *)

Section vdf_properties.
Context {NB : Nebu} {NL : NebuLaws}.

(** The delay function computes [x^(2^T)] and can be had without delay:
    with at least one iteration an output verifies exactly when it is the
    starting element raised to [2^T] reduced modulo the public group order
    [P - 1], so one short exponentiation replaces the [T] squarings for every
    [T]; and with zero iterations an honest evaluation verifies only when its
    input is below the field modulus. *)
Lemma vdf_shortcut (input output T : N) :
  is_u64 input ->
  ((0 < T)%N -> verify (mk_vdf input output T) = true <->
     output = gf_as_u64 (gf_exp (vdf_start input) (2 ^ T mod (gf_P - 1)))) /\
  ((0 < T)%N -> verify (evaluate input T) = true) /\
  (verify (evaluate input 0) = true <-> (input < gf_P)%N).
Proof.
  intros Hu. split; [|split; [apply verify_evaluate | by apply verify_zero_iterations]].
  intros HT. unfold verify. cbn [vp_iterations vp_input vp_output].
  destruct (N.eqb_spec T 0); [lia|].
  rewrite N.eqb_eq, evaluate_output, <-gf_exp_mod by apply vdf_start_nonzero. done.
Qed.
End vdf_properties.

(** ** Witnesses *)

Lemma vdf_shortcut_witness :
  verify (mk_vdf 5 390625 3) = true <->
    390625%N = gf_as_u64 (gf_exp (vdf_start 5) (2 ^ 3 mod (gf_P - 1))).
Proof. apply (vdf_shortcut 5 390625 3); [unfold is_u64, u64_max; lia|lia]. Defined.
