(* ===== verification/Beacon.v ===== *)
(** * Beacon: the epoch beacon (src/beacon.rs)

    [open_beacon] commits epoch, parent, claims root and signal root, runs the
    delay on their digest and hashes the whole; [verify_beacon] re-checks it.
    [claims_root] and [signal_vdf_root] commit to sorted sets. *)

From S2P Require Import Prelude Order Bytes Externals Poly Goldilocks Instances Vdf.

Section beacon.
Context {HM : Hemera} {NB : Nebu}.

Definition DOMAIN : list byte := str_bytes "foculus-beacon-v0".
Definition DOMAIN_IN : list byte := str_bytes "foculus-beacon-in-v0".
Definition GENESIS_PREV : particle := zero32.
Definition DEFAULT_OUTER_T : N := 256.
Definition TEST_OUTER_T : N := 32.

Record beacon_artifact := mk_beacon {
  ba_epoch : N;
  ba_prev : particle;
  ba_claims_root : particle;
  ba_signal_root : particle;
  ba_outer_vdf : vdf_proof;
  ba_beacon : particle
}.

(** The hashed buffer of [claims_root]. *)
Definition claims_bytes (claim_ids : list particle) : list byte :=
  let sorted := sort claim_ids in
  u64_le (as_u64 (N.of_nat (length sorted))) ++ concat (map arr_bytes sorted).
Definition claims_root (claim_ids : list particle) : particle := hemera_hash (claims_bytes claim_ids).

Definition signal_bytes (vdf_outputs : list N) : list byte :=
  let sorted := sort vdf_outputs in
  u64_le (as_u64 (N.of_nat (length sorted))) ++ concat (map u64_le sorted).
Definition signal_vdf_root (vdf_outputs : list N) : particle :=
  match vdf_outputs with [] => zero32 | _ => hemera_hash (signal_bytes vdf_outputs) end.

Definition collect_signal_outputs (proofs : list vdf_proof) : list N :=
  map vp_output (List.filter Vdf.verify proofs).

(** epoch ‖ prev ‖ claims_root ‖ signal_root, which both digests commit to. *)
Definition field_bytes (epoch : N) (prev claims signal : particle) : list byte :=
  u64_le epoch ++ arr_bytes prev ++ arr_bytes claims ++ arr_bytes signal.

Definition vdf_input (epoch : N) (prev claims signal : particle) : N :=
  challenge_from_hash (hemera_hash (DOMAIN_IN ++ field_bytes epoch prev claims signal)).

Definition digest_bytes (epoch : N) (prev claims signal : particle) (outer_output : N) : list byte :=
  DOMAIN ++ field_bytes epoch prev claims signal ++ u64_le outer_output.
Definition beacon_digest (epoch : N) (prev claims signal : particle) (outer_output : N) : particle :=
  hemera_hash (digest_bytes epoch prev claims signal outer_output).

Definition open_beacon (epoch : N) (prev claims : particle) (signal_outputs : list N) (outer_t : N)
    : beacon_artifact :=
  let signal_root := signal_vdf_root signal_outputs in
  let outer_vdf := evaluate (vdf_input epoch prev claims signal_root) outer_t in
  let b := beacon_digest epoch prev claims signal_root (vp_output outer_vdf) in
  mk_beacon epoch prev claims signal_root outer_vdf b.

Definition verify_beacon (art : beacon_artifact) : bool :=
  if negb (Vdf.verify (ba_outer_vdf art)) then false
  else if negb (vp_input (ba_outer_vdf art) =?
                vdf_input (ba_epoch art) (ba_prev art) (ba_claims_root art) (ba_signal_root art))%N then false
  else
    let b := beacon_digest (ba_epoch art) (ba_prev art) (ba_claims_root art) (ba_signal_root art)
               (vp_output (ba_outer_vdf art)) in
    bool_decide (b = ba_beacon art).

Definition beacon (epoch : N) (prev claims : particle) : particle :=
  ba_beacon (open_beacon epoch prev claims [] DEFAULT_OUTER_T).

Definition advance_empty (epoch : N) (prev : particle) : particle :=
  ba_beacon (open_beacon epoch prev zero32 [] DEFAULT_OUTER_T).

(** ** Lemmas *)

Lemma verify_beacon_spec art :
  verify_beacon art = true <->
    Vdf.verify (ba_outer_vdf art) = true /\
    vp_input (ba_outer_vdf art) =
      vdf_input (ba_epoch art) (ba_prev art) (ba_claims_root art) (ba_signal_root art) /\
    ba_beacon art = beacon_digest (ba_epoch art) (ba_prev art) (ba_claims_root art) (ba_signal_root art)
                      (vp_output (ba_outer_vdf art)).
Proof.
  unfold verify_beacon. destruct (Vdf.verify (ba_outer_vdf art)); simpl; [|split; [done|by intros [? _]]].
  destruct (N.eqb_spec (vp_input (ba_outer_vdf art))
    (vdf_input (ba_epoch art) (ba_prev art) (ba_claims_root art) (ba_signal_root art))); simpl;
    [|split; [done|by intros (_ & ? & _)]].
  rewrite bool_decide_eq_true. split; [auto | by intros (_ & _ & ?)].
Qed.

Lemma field_bytes_length e p c s : length (field_bytes e p c s) = 104.
Proof. unfold field_bytes. autorewrite with foculus_rw. done. Qed.

Lemma field_bytes_inj e1 p1 c1 s1 e2 p2 c2 s2 :
  is_u64 e1 -> is_u64 e2 -> field_bytes e1 p1 c1 s1 = field_bytes e2 p2 c2 s2 ->
  e1 = e2 /\ p1 = p2 /\ c1 = c2 /\ s1 = s2.
Proof.
  unfold field_bytes. intros H1 H2 E. split_bytes E.
  apply u64_le_inj in E0; [|done..]. apply (inj arr_bytes) in E, E1, E2. done.
Qed.

Lemma claims_bytes_inj l1 l2 :
  is_u64 (N.of_nat (length l1)) -> is_u64 (N.of_nat (length l2)) ->
  claims_bytes l1 = claims_bytes l2 -> l1 ≡ₚ l2.
Proof.
  unfold claims_bytes. intros H1 H2 E.
  rewrite <-(sort_length l1) in H1. rewrite <-(sort_length l2) in H2.
  rewrite !as_u64_id in E by done.
  apply app_inj_1 in E as [El E]; [|by rewrite !u64_le_length].
  apply u64_le_inj in El; [|done..]. apply Nat2N.inj in El.
  rewrite <-(app_nil_r (concat (map arr_bytes (sort l1)))), <-(app_nil_r (concat (map arr_bytes (sort l2)))) in E.
  apply (concat_fixed_inj arr_bytes 32) in E as [HF _]; [|apply arr_length|done].
  apply sort_eq_perm, list_eq_Forall2. eapply Forall2_impl; [exact HF|]. intros a b. apply (inj arr_bytes).
Qed.
End beacon.

(** ** Properties *)

Section beacon_properties.
Context {HM : Hemera} {NB : Nebu} {NL : NebuLaws}.


(** Nothing checks that the delay was long: for every choice of fields
    there is an artifact with a single squaring that [verify_beacon]
    accepts, whatever delay the epoch was meant to have. *)
Lemma beacon_delay_unchecked (epoch : N) (prev claims : particle) (outputs : list N) :
  exists art, verify_beacon art = true /\ vp_iterations (ba_outer_vdf art) = 1%N /\
    ba_epoch art = epoch /\ ba_prev art = prev /\ ba_claims_root art = claims /\
    ba_signal_root art = signal_vdf_root outputs.
Proof.
  exists (open_beacon epoch prev claims outputs 1). split; [|done].
  apply verify_beacon_spec. split; [by apply verify_evaluate|]. done.
Qed.
End beacon_properties.

(** ** Witnesses *)


Lemma beacon_delay_unchecked_witness :
  exists art, verify_beacon art = true /\ vp_iterations (ba_outer_vdf art) = 1%N /\
    ba_epoch art = 3%N /\ ba_prev art = zero32 /\ ba_claims_root art = zero32 /\
    ba_signal_root art = signal_vdf_root [].
Proof. exact (beacon_delay_unchecked 3 zero32 zero32 []). Defined.
