(* ===== verification/Settlement.v ===== *)
(** * Settlement: the cooperative game over a cluster (src/settlement.rs)

    [value] is the surprise-weighted impulse of a coalition, [marginals] the
    contributions along one order, [permutations] all orders, [ordering] the
    beacon-seeded one, [shapley_exact] and [shapley] the averages.  Indexing
    a slice out of range is [Panicked]. *)

From S2P Require Import Prelude Order Bytes Externals Goldilocks Instances.
From Stdlib Require Import Factorial.

Section settlement.
Context {HM : Hemera} {NB : Nebu} {FX : Fixed} {TR : Tru}.

Record contribution := mk_contribution {
  cb_neuron : particle;
  cb_links : list link;
  cb_surprise : fx
}.

Definition clamp01 (x : fx) : fx :=
  if fx_ltb x fx_zero then fx_zero else if fx_ltb fx_one x then fx_one else x.

Definition weighted (c : contribution) : list link :=
  let rho := clamp01 (cb_surprise c) in
  map (fun l => mk_link (l_neuron l) (l_from l) (l_to l) (l_amount l) (l_valence l)
                  (fx_mul (clamp01 (l_price l)) rho)) (cb_links c).

Definition value (base : list link) (coalition : list contribution) (ctx : context)
    (params : focusing_params) : fx :=
  let batch := concat (map weighted coalition) in
  impulse_directed base batch ctx params (params_epsilon params).

(** One step of [marginals]: the state is [out], [prefix] and [prev]. *)
Definition marginal_step (base : list link) (contribs : list contribution) (ctx : context)
    (params : focusing_params) (st : list fx * list contribution * fx) (i : nat)
    : result (fault Empty_set) (list fx * list contribution * fx) :=
  let '(out, prefix, prev) := st in
  c ← index_or_panic contribs i;
  let prefix := prefix ++ [c] in
  let v := value base prefix ctx params in
  Ok (<[i := fx_sub v prev]> out, prefix, v).

Definition marginals (base : list link) (contribs : list contribution) (order : list nat)
    (ctx : context) (params : focusing_params) : result (fault Empty_set) (list fx) :=
  st ← try_fold (marginal_step base contribs ctx params) order
         (replicate (length contribs) fx_zero, [], fx_zero);
  Ok st.1.1.

(** [a.swap(i, j)]; the callers keep both indices in range. *)
Definition swap (a : list nat) (i j : nat) : list nat :=
  match a !! i, a !! j with
  | Some x, Some y => <[i := y]> (<[j := x]> a)
  | _, _ => a
  end.

(** [go(a, k, out)] with [rem = a.len() - k]: the state is [a] and [out]. *)
Fixpoint go (rem k : nat) (st : list nat * list (list nat)) : list nat * list (list nat) :=
  match rem with
  | 0 => (st.1, st.2 ++ [st.1])
  | S rem =>
      fold_left (fun st i =>
          let st := go rem (k + 1) (swap st.1 k i, st.2) in
          (swap st.1 k i, st.2))
        (seq k (S rem)) st
  end.

Definition permutations (n : nat) : list (list nat) := (go n 0 (seq 0 n, [])).2.

(** The closure [next]: refresh the digest after its 32 bytes are used. *)
Definition next_draw (st : particle * nat) : N * (particle * nat) :=
  let st := if bool_decide (32 < st.2 + 8) then (hemera_hash (arr_bytes st.1), 0) else st in
  (le_num (take 8 (drop st.2 (arr_bytes st.1))), (st.1, st.2 + 8)).

Definition shuffle_step (st : list nat * (particle * nat)) (i : nat) : list nat * (particle * nat) :=
  let (v, stream) := next_draw st.2 in
  (swap st.1 i (N.to_nat (v mod (N.of_nat i + 1))), stream).

Definition ordering (n : nat) (beacon : particle) (nonce : N) : list nat :=
  let perm := seq 0 n in
  if bool_decide (n < 2) then perm
  else
    let digest := hemera_hash (arr_bytes beacon ++ u64_le nonce) in
    (fold_left shuffle_step (rev (seq 1 (n - 1))) (perm, (digest, 0))).1.

(** Summing the marginals of a list of orders into [acc]. *)
Definition add_marginals (base : list link) (contribs : list contribution) (ctx : context)
    (params : focusing_params) (acc : list fx) (order : list nat) : result (fault Empty_set) (list fx) :=
  m ← marginals base contribs order ctx params;
  Ok (zip_with fx_add acc m).

Definition scaled_shares (contribs : list contribution) (acc : list fx) (count : Z)
    : list (particle * fx) :=
  let inv := fx_div fx_one (fx_from_int count) in
  zip_with (fun c a => (cb_neuron c, fx_mul a inv)) contribs acc.

Definition shapley_exact (base : list link) (contribs : list contribution) (ctx : context)
    (params : focusing_params) : result (fault Empty_set) (list (particle * fx)) :=
  let n := length contribs in
  if bool_decide (n = 0) then Ok []
  else
    let orders := permutations n in
    acc ← try_fold (add_marginals base contribs ctx params) orders (replicate n fx_zero);
    Ok (scaled_shares contribs acc (Z.of_nat (length orders))).

Definition shapley (base : list link) (contribs : list contribution) (ctx : context)
    (params : focusing_params) (samples : nat) (beacon : particle)
    : result (fault Empty_set) (list (particle * fx)) :=
  let n := length contribs in
  if bool_decide (n = 0) || bool_decide (samples = 0)
  then Ok (map (fun c => (cb_neuron c, fx_zero)) contribs)
  else
    acc ← try_fold (fun acc s =>
             add_marginals base contribs ctx params acc (ordering n beacon (N.of_nat s)))
           (seq 0 samples) (replicate n fx_zero);
    Ok (scaled_shares contribs acc (Z.of_nat samples)).

(** The sum of a vector. *)
Definition fx_sum (l : list fx) : fx := foldr fx_add fx_zero l.

(** ** Lemmas: swapping and orders *)

Lemma swap_length a i j : length (swap a i j) = length a.
Proof. unfold swap. destruct (a !! i), (a !! j); by rewrite ?length_insert. Qed.

Lemma swap_lookup a i j x y k :
  a !! i = Some x -> a !! j = Some y ->
  swap a i j !! k = if decide (k = i) then Some y else if decide (k = j) then Some x else a !! k.
Proof.
  intros Hi Hj. unfold swap. rewrite Hi, Hj.
  pose proof (lookup_lt_Some _ _ _ Hi). pose proof (lookup_lt_Some _ _ _ Hj).
  case_decide as Hk; [subst; by rewrite list_lookup_insert_eq by (rewrite length_insert; lia)|].
  rewrite list_lookup_insert_ne by done.
  case_decide as Hk'; [subst; by rewrite list_lookup_insert_eq by lia|].
  by rewrite list_lookup_insert_ne.
Qed.

Lemma swap_swap a i j : swap (swap a i j) i j = a.
Proof.
  destruct (a !! i) as [x|] eqn:Hi; [|unfold swap; by rewrite Hi, ?Hi].
  destruct (a !! j) as [y|] eqn:Hj; [|unfold swap; by rewrite Hi, Hj, ?Hi, ?Hj].
  apply list_eq. intros k.
  rewrite (swap_lookup (swap a i j) i j y x).
  - rewrite (swap_lookup a i j x y) by done.
    case_decide; [by subst|]. case_decide; [by subst|]. done.
  - rewrite (swap_lookup a i j x y) by done. by rewrite decide_True.
  - rewrite (swap_lookup a i j x y) by done. case_decide; [congruence|]. by rewrite decide_True.
Qed.

Lemma swap_perm a i j : swap a i j ≡ₚ a.
Proof.
  destruct (a !! i) as [x|] eqn:Hi; [|unfold swap; by rewrite Hi].
  destruct (a !! j) as [y|] eqn:Hj; [|unfold swap; by rewrite Hi, Hj].
  apply Permutation_inj. split; [by rewrite swap_length|].
  exists (fun k => if decide (k = i) then j else if decide (k = j) then i else k). split.
  - intros k k'. repeat case_decide; congruence.
  - intros k. rewrite (swap_lookup a i j x y) by done. by repeat case_decide; subst.
Qed.

Lemma ordering_perm n beacon nonce : ordering n beacon nonce ≡ₚ seq 0 n.
Proof.
  unfold ordering. case_bool_decide; [done|]. cbv zeta.
  apply (fold_left_invariant shuffle_step (fun st => st.1 ≡ₚ seq 0 n)); [|done].
  intros st i _ Hst. unfold shuffle_step. destruct (next_draw st.2). simpl. by rewrite swap_perm.
Qed.

(** The arrangements [go] produces from position [k] on. *)
Definition arrangements (a : list nat) (k : nat) (l : list (list nat)) : Prop :=
  NoDup l /\ forall p, p ∈ l <-> p ≡ₚ a /\ take k p = take k a.

Lemma take_swap a k i : k <= i -> take k (swap a k i) = take k a.
Proof.
  intros Hki. unfold swap. destruct (a !! k); [|done]. destruct (a !! i); [|done].
  rewrite take_insert_ge by lia. by rewrite take_insert_ge by lia.
Qed.

Lemma take_S_swap a k i y :
  k <= i -> k < length a -> a !! i = Some y -> take (k + 1) (swap a k i) = take k a ++ [y].
Proof.
  intros Hki Hk Hy. destruct (lookup_lt_is_Some_2 a k Hk) as [x Hx].
  rewrite Nat.add_1_r. rewrite (take_S_r _ _ y); [by rewrite take_swap|].
  rewrite (swap_lookup a k i x y) by done. by rewrite decide_True.
Qed.

Lemma go_spec rem k a out :
  NoDup a -> length a = k + rem ->
  exists l, go rem k (a, out) = (a, out ++ l) /\ arrangements a k l /\ length l = fact rem.
Proof.
  revert k a out. induction rem as [|rem IH]; intros k a out Hnd Hl.
  { exists [a]. split; [done|]. split; [|done]. split; [apply NoDup_singleton|].
    intros p. rewrite list_elem_of_singleton. split; [by intros ->|].
    intros [Hp Ht]. rewrite !take_ge in Ht by (rewrite ?Hp; lia). done. }
  cbn [go]. set (f := fun (st : list nat * list (list nat)) i => _).
  (* the loop over the candidates for position [k] *)
  assert (forall cs out, NoDup cs -> (forall i, i ∈ cs -> k <= i < length a) ->
    exists l, fold_left f cs (a, out) = (a, out ++ l) /\ NoDup l /\ length l = length cs * fact rem /\
      forall p, p ∈ l <-> p ≡ₚ a /\ take k p = take k a /\
        exists i, i ∈ cs /\ p !! k = a !! i) as Hloop.
  { induction cs as [|i cs IHis]; intros out' Hndi Hin.
    { exists []. rewrite app_nil_r. split; [done|]. split; [apply NoDup_nil_2|]. split; [done|].
      intros p. split; [by intros ?%elem_of_nil|]. intros (_ & _ & i & Hi & _). by apply elem_of_nil in Hi. }
    apply NoDup_cons in Hndi as [Hni Hndi]. cbn [fold_left].
    destruct (Hin i) as [Hki Hil]; [constructor|].
    destruct (lookup_lt_is_Some_2 a i Hil) as [y Hy].
    destruct (IH (k + 1) (swap a k i) out') as (l1 & E1 & [Hnd1 Hl1] & Hlen1).
    { by rewrite swap_perm. } { rewrite swap_length. lia. }
    assert (f (a, out') i = (a, out' ++ l1)) as ->.
    { unfold f. cbn [fst snd]. rewrite E1. cbn [fst snd]. by rewrite swap_swap. }
    destruct (IHis (out' ++ l1)) as (l2 & E2 & Hnd2 & Hlen2 & Hl2); [done|intros; apply Hin; by constructor|].
    exists (l1 ++ l2). split; [by rewrite E2, <-app_assoc|].
    assert (forall p, p ∈ l1 <-> p ≡ₚ a /\ take k p = take k a /\ p !! k = a !! i) as Hl1'.
    { intros p. rewrite Hl1, (take_S_swap a k i y) by (lia || done). rewrite Hy, (swap_perm a k i). split.
      - intros [Hp Ht]. assert (k < length p) as Hkp by (rewrite Hp; lia).
        destruct (lookup_lt_is_Some_2 p k Hkp) as [z Hz].
        rewrite Nat.add_1_r, (take_S_r _ _ z Hz) in Ht.
        apply app_inj_2 in Ht as [Ht [= ->]]; [|done]. done.
      - intros (Hp & Ht & Hz). split; [done|]. by rewrite Nat.add_1_r, (take_S_r _ _ y Hz), Ht. }
    split; [|split].
    - apply NoDup_app. split; [done|]. split; [|done].
      intros p Hp1 Hp2. apply Hl1' in Hp1 as (_ & _ & Hpi). apply Hl2 in Hp2 as (_ & _ & j & Hj & Hpj).
      rewrite Hpi in Hpj. rewrite Hy in Hpj.
      assert (i = j) as -> by (by eapply NoDup_lookup; [exact Hnd| |symmetry]). done.
    - rewrite length_app, Hlen1, Hlen2. simpl. lia.
    - intros p. rewrite elem_of_app, Hl1', Hl2. setoid_rewrite elem_of_cons. split.
      + intros [(? & ? & ?)|(? & ? & j & ? & ?)]; eauto 10.
      + intros (? & ? & j & [->|?] & ?); eauto 10. }
  destruct (Hloop (seq k (S rem)) out) as (l & E & Hndl & Hlen & Hmem).
  { apply NoDup_seq. } { intros i Hi%elem_of_seq. lia. }
  exists l. split; [done|]. split; [|by rewrite Hlen, length_seq]. split; [done|].
  intros p. rewrite Hmem. split; [by intros (? & ? & _)|]. intros [Hp Ht]. split; [done|]. split; [done|].
  assert (k < length p) as Hkp by (rewrite Hp; lia).
  destruct (lookup_lt_is_Some_2 p k Hkp) as [z Hz]. rewrite Hz.
  assert (z ∈ a) as Hza by (rewrite <-Hp; by apply list_elem_of_lookup_2 in Hz).
  apply list_elem_of_lookup in Hza as [i Hi].
  destruct (decide (k <= i)) as [Hki|Hki].
  { exists i. split; [|done]. apply elem_of_seq. apply lookup_lt_Some in Hi. lia. }
  exfalso. assert (p !! i = Some z) as Hpi.
  { rewrite <-(lookup_take_lt p k i) by lia. rewrite Ht. by rewrite lookup_take_lt by lia. }
  assert (i = k); [|lia]. eapply NoDup_lookup; [|done..]. by rewrite Hp.
Qed.

Lemma permutations_spec n :
  NoDup (permutations n) /\ (forall p, p ∈ permutations n <-> p ≡ₚ seq 0 n) /\
  length (permutations n) = fact n.
Proof.
  unfold permutations. destruct (go_spec n 0 (seq 0 n) []) as (l & -> & [Hnd Hl] & Hlen);
    [apply NoDup_seq|by rewrite length_seq|]. simpl. split; [done|]. split; [|done].
  intros p. rewrite Hl. split; [by intros [? _]|done].
Qed.
End settlement.

(** ** Lemmas: marginals *)

Section marginals_lemmas.
Context {HM : Hemera} {NB : Nebu} {FX : Fixed} {TR : Tru} {FA : FxAddLaws}.

(** The value of a prefix of an order; the empty coalition is worth zero. *)
Definition prefix_value (base : list link) (contribs : list contribution) (ctx : context)
    (params : focusing_params) (order : list nat) : fx :=
  match order with
  | [] => fx_zero
  | _ => value base (omap (contribs !!.) order) ctx params
  end.

Lemma fx_sum_replicate n : fx_sum (replicate n fx_zero) = fx_zero.
Proof. unfold fx_sum. induction n as [|n IH]; simpl; [done|]. by rewrite IH, fx_add_0_l. Qed.

Lemma fx_sum_insert l i x : l !! i = Some fx_zero -> fx_sum (<[i := x]> l) = fx_add (fx_sum l) x.
Proof.
  unfold fx_sum. revert i; induction l as [|y l IH]; intros [|i]; simpl; try done.
  - intros [= ->]. rewrite fx_add_0_l. apply fx_add_comm.
  - intros H. rewrite IH by done. by rewrite fx_add_assoc.
Qed.

Lemma omap_snoc {A B} (f : A -> option B) l a b :
  f a = Some b -> omap f (l ++ [a]) = omap f l ++ [b].
Proof. intros Hf. rewrite omap_app. simpl. by rewrite Hf. Qed.

Lemma prefix_value_snoc base contribs ctx params order i c :
  contribs !! i = Some c ->
  prefix_value base contribs ctx params (order ++ [i]) =
    value base (omap (contribs !!.) order ++ [c]) ctx params.
Proof.
  intros Hc. unfold prefix_value. rewrite (omap_snoc _ _ _ c) by done. by destruct order.
Qed.

(** What the loop holds after a prefix of a duplicate-free in-range order. *)
Lemma marginals_loop base contribs ctx params order :
  NoDup order -> Forall (fun i => i < length contribs) order ->
  exists out,
    try_fold (marginal_step base contribs ctx params) order
      (replicate (length contribs) fx_zero, [], fx_zero)
      = Ok (out, omap (contribs !!.) order, prefix_value base contribs ctx params order) /\
    length out = length contribs /\
    fx_sum out = prefix_value base contribs ctx params order /\
    (forall i, i < length contribs -> i ∉ order -> out !! i = Some fx_zero) /\
    (forall p i, order !! p = Some i ->
       out !! i = Some (fx_sub (prefix_value base contribs ctx params (take (S p) order))
                               (prefix_value base contribs ctx params (take p order)))).
Proof.
  induction order as [|i order IH] using rev_ind; intros Hnd Hall.
  { exists (replicate (length contribs) fx_zero). split; [done|]. split; [apply length_replicate|].
    split; [apply fx_sum_replicate|]. split; [|done].
    intros i Hi _. by apply lookup_replicate_2. }
  apply NoDup_app in Hnd as (Hnd & Hdis & _). apply Forall_app in Hall as [Hall [Hi _]%Forall_cons].
  assert (i ∉ order) as Hni by (intros H; apply (Hdis i H); constructor).
  destruct IH as (out & E & Hlen & Hsum & Hrest & Hmarg); [done..|].
  destruct (lookup_lt_is_Some_2 contribs i Hi) as [c Hc].
  set (v := prefix_value base contribs ctx params (order ++ [i])).
  set (prev := prefix_value base contribs ctx params order) in *.
  exists (<[i := fx_sub v prev]> out).
  assert (out !! i = Some fx_zero) as Hz by auto.
  split; [|split; [|split; [|split]]].
  - rewrite try_fold_app, E. simpl. unfold marginal_step. rewrite (index_or_panic_Some _ _ _ Hc). simpl.
    rewrite (omap_snoc _ _ _ c) by done. unfold v. by rewrite (prefix_value_snoc _ _ _ _ _ _ c).
  - by rewrite length_insert.
  - rewrite fx_sum_insert, Hsum by done. rewrite fx_add_comm. apply fx_sub_add.
  - intros j Hj [Hjo Hji%not_elem_of_cons]%not_elem_of_app. destruct Hji as [Hji _].
    rewrite list_lookup_insert_ne by done. by apply Hrest.
  - intros p j Hp. apply lookup_app_Some in Hp as [Hp|[Hge Hp]].
    + pose proof (lookup_lt_Some _ _ _ Hp). rewrite !take_app_le by lia.
      rewrite list_lookup_insert_ne; [by apply Hmarg|]. intros ->. by apply list_elem_of_lookup_2 in Hp.
    + apply list_lookup_singleton_Some in Hp as [Hp0 <-].
      assert (p = length order) as -> by lia.
      rewrite (take_ge (order ++ [i])) by (rewrite length_app; simpl; lia).
      rewrite take_app_length. apply list_lookup_insert_eq. rewrite Hlen. lia.
Qed.

Lemma marginals_ok base contribs ctx params order :
  order ≡ₚ seq 0 (length contribs) ->
  exists out, marginals base contribs order ctx params = Ok out /\ length out = length contribs /\
    fx_sum out = prefix_value base contribs ctx params order /\
    forall p i, order !! p = Some i ->
      out !! i = Some (fx_sub (prefix_value base contribs ctx params (take (S p) order))
                              (prefix_value base contribs ctx params (take p order))).
Proof.
  intros Hp. destruct (marginals_loop base contribs ctx params order) as (out & E & Hl & Hs & _ & Hm).
  - rewrite Hp. apply NoDup_seq.
  - apply Forall_forall. intros i. rewrite Hp, elem_of_seq. lia.
  - exists out. unfold marginals. rewrite E. done.
Qed.

Lemma add_marginals_ok {B} base contribs ctx params (order_of : B -> list nat) l acc :
  (forall b, b ∈ l -> order_of b ≡ₚ seq 0 (length contribs)) -> length acc = length contribs ->
  exists acc', try_fold (fun acc b => add_marginals base contribs ctx params acc (order_of b)) l acc = Ok acc' /\
    length acc' = length contribs.
Proof.
  revert acc; induction l as [|b l IH]; intros acc Hl Hacc; [by exists acc|]. cbn [try_fold].
  destruct (marginals_ok base contribs ctx params (order_of b)) as (out & E & Hlen & _);
    [apply Hl; constructor|].
  unfold add_marginals at 2. rewrite E. simpl. apply IH.
  - intros b' Hb'. apply Hl. by constructor.
  - rewrite length_zip_with. lia.
Qed.

Lemma scaled_shares_neurons contribs acc count :
  length acc = length contribs -> map fst (scaled_shares contribs acc count) = map cb_neuron contribs.
Proof.
  intros Hl. unfold scaled_shares. cbv zeta. revert acc Hl.
  induction contribs as [|c contribs IH]; intros [|a acc]; simpl; try done.
  intros [= Hl]. by rewrite IH.
Qed.

Lemma shapley_ok base contribs ctx params samples beacon :
  exists shares, shapley base contribs ctx params samples beacon = Ok shares /\
    map fst shares = map cb_neuron contribs.
Proof.
  unfold shapley. destruct (_ || _).
  { eexists. split; [done|]. by rewrite map_map. }
  destruct (add_marginals_ok base contribs ctx params (fun s => ordering (length contribs) beacon (N.of_nat s))
    (seq 0 samples) (replicate (length contribs) fx_zero)) as (acc & E & Hacc).
  { intros s _. apply ordering_perm. } { apply length_replicate. }
  rewrite E. simpl. eexists. split; [done|]. by apply scaled_shares_neurons.
Qed.
End marginals_lemmas.

(** ** Properties *)

Section settlement_properties.
Context {HM : Hemera} {NB : Nebu} {FX : Fixed} {TR : Tru} {FA : FxAddLaws}.

(** C32: Efficiency along every order: for every permutation of the
    contributors, in particular every beacon-seeded ordering, [marginals]
    succeeds, gives each contributor the value of the coalition it completes
    minus the value of the one it joins, and the marginals add up to the value
    of the full coalition. *)
Theorem marginals_efficient (base : list link) (contribs : list contribution) (ctx : context)
    (params : focusing_params) (beacon : particle) (nonce : N) (order : list nat) :
  ordering (length contribs) beacon nonce ≡ₚ seq 0 (length contribs) /\
  (order ≡ₚ seq 0 (length contribs) ->
   exists out, marginals base contribs order ctx params = Ok out /\ length out = length contribs /\
     fx_sum out = prefix_value base contribs ctx params order /\
     forall p i, order !! p = Some i ->
       out !! i = Some (fx_sub (prefix_value base contribs ctx params (take (S p) order))
                               (prefix_value base contribs ctx params (take p order)))).
Proof. split; [apply ordering_perm | apply marginals_ok]. Qed.

(** [permutations] enumerates each permutation of the contributors exactly
    once, [n!] in all; and both Shapley estimators succeed on every input,
    listing one share per contributor in contribution order. *)
Lemma shapley_total (n : nat) (base : list link) (contribs : list contribution) (ctx : context)
    (params : focusing_params) (samples : nat) (beacon : particle) :
  NoDup (permutations n) /\ (forall p, p ∈ permutations n <-> p ≡ₚ seq 0 n) /\
  length (permutations n) = fact n /\
  (exists shares, shapley_exact base contribs ctx params = Ok shares /\
     map fst shares = map cb_neuron contribs) /\
  (exists shares, shapley base contribs ctx params samples beacon = Ok shares /\
     map fst shares = map cb_neuron contribs).
Proof.
  destruct (permutations_spec n) as (Hnd & Hp & Hl). split; [done|]. split; [done|]. split; [done|]. split.
  - unfold shapley_exact. case_bool_decide as H0.
    { exists []. split; [done|]. by destruct contribs. }
    destruct (add_marginals_ok base contribs ctx params id (permutations (length contribs))
      (replicate (length contribs) fx_zero)) as (acc & E & Hacc).
    { intros p. apply permutations_spec. } { apply length_replicate. }
    change (fun acc b => add_marginals base contribs ctx params acc (id b))
      with (add_marginals base contribs ctx params) in E.
    rewrite E. simpl. eexists. split; [done|]. by apply scaled_shares_neurons.
  - apply shapley_ok.
Qed.
End settlement_properties.

(** ** Witnesses *)

Definition ex_contribs : list contribution :=
  [mk_contribution (arr_rep 32 x01) [link_stake (arr_rep 32 x01) (arr_rep 32 x09) 7] fx_one;
   mk_contribution (arr_rep 32 x02) [link_stake (arr_rep 32 x02) (arr_rep 32 x09) 5] fx_one].

Lemma marginals_efficient_witness :
  exists out, marginals [] ex_contribs [1; 0] context_none params_default = Ok out /\ length out = 2 /\
    fx_sum out = prefix_value [] ex_contribs context_none params_default [1; 0] /\
    forall p i, [1; 0] !! p = Some i ->
      out !! i = Some (fx_sub (prefix_value [] ex_contribs context_none params_default (take (S p) [1; 0]))
                              (prefix_value [] ex_contribs context_none params_default (take p [1; 0]))).
Proof.
  apply (marginals_efficient [] ex_contribs context_none params_default zero32 0 [1; 0]).
  apply perm_swap.
Defined.

Lemma shapley_total_witness : length (permutations 3) = fact 3.
Proof. apply (shapley_total 3 [] ex_contribs context_none params_default 2 zero32). Defined.
