(* ===== verification/Tickets.v ===== *)
(** * Tickets: settlement tickets and the fold-mining monoid (src/tickets.rs)

    A [settlement_ticket] is one winning sample of [marginals]; a
    [cluster_acc] accumulates them, each (miner, nonce) once.  [self_fold]
    absorbs a miner's tickets, [fold_acc] joins two accumulators and
    [assemble_fold_tree] a whole level list, by greedy pairing until one is
    left (the loop runs on a fuel, the number of leaves). *)

From S2P Require Import Prelude Order Bytes Externals Goldilocks Instances Settlement.

Section tickets.
Context {HM : Hemera} {NB : Nebu} {FX : Fixed} {TR : Tru}.

Definition SETTLE_DOMAIN : list byte := str_bytes "foculus-ticket-v0".
Definition FOLD_DOMAIN : list byte := str_bytes "foculus-fold-v0".
Definition MARGIN_DOMAIN : list byte := str_bytes "foculus-marginal-v0".
Definition ACC_DOMAIN : list byte := str_bytes "foculus-acc-v0".
Definition DEFAULT_SETTLE_TARGET : N := 4294967296.
Definition easy_target : N := u64_max.

Definition banded_target (base_target : N) (n_contrib base_n : nat) : N :=
  let base_n := N.of_nat (Nat.max base_n 1) in
  let n_contrib := N.of_nat (Nat.max n_contrib 1) in
  let scaled := (sat_mul128 base_target n_contrib / base_n)%N in
  as_u64 (N.min scaled u64_max).

Record settlement_ticket := mk_ticket {
  tk_miner : particle;
  tk_nonce : N;
  tk_marginals : list fx;
  tk_commitment : particle;
  tk_score : N
}.

Record cluster_acc := mk_acc {
  ac_sum_m : list fx;
  ac_k : N;
  ac_seen : gset (particle * N);
  ac_commitment : particle
}.

Record fold_ticket := mk_fold_ticket {
  ft_miner : particle;
  ft_nonce : N;
  ft_level : N;
  ft_pair_id : particle;
  ft_left : cluster_acc;
  ft_right : cluster_acc;
  ft_result : cluster_acc;
  ft_score : N
}.

Definition acc_empty (n_contrib : nat) : cluster_acc := mk_acc (replicate n_contrib fx_zero) 0 ∅ zero32.
Definition acc_default : cluster_acc := mk_acc [] 0 ∅ zero32.

Definition mean_shares (acc : cluster_acc) (neurons : list particle) : list (particle * fx) :=
  if (ac_k acc =? 0)%N || negb (bool_decide (length (ac_sum_m acc) = length neurons))
  then map (fun n => (n, fx_zero)) neurons
  else
    let inv := fx_div fx_one (fx_from_int (Z.of_N (ac_k acc))) in
    zip_with (fun n m => (n, fx_mul m inv)) neurons (ac_sum_m acc).

Definition k_min (epsilon delta : fx) : N :=
  if fx_leb epsilon fx_zero || fx_leb delta fx_zero || fx_leb fx_one delta then 1%N
  else
    let ln_term := fx_ln (fx_div (fx_from_int 2) delta) in
    let den := fx_mul (fx_mul (fx_from_int 2) epsilon) epsilon in
    let ratio := fx_div ln_term den in
    let floor := Z.max (fx_floor ratio) 0 in
    let k := if bool_decide (fx_from_int floor = ratio) then floor else (floor + 1)%Z in
    Z.to_N (Z.max k 1).

Definition meets_precision (acc : cluster_acc) (epsilon delta : fx) : bool :=
  (k_min epsilon delta <=? ac_k acc)%N.

Definition fx_bytes (m : fx) : list byte := u64_le (gf_as_u64 (fx_raw m)).

Definition commit_marginals (marginals : list fx) : particle :=
  hemera_hash (MARGIN_DOMAIN ++ u64_le (as_u64 (N.of_nat (length marginals)))
    ++ concat (map fx_bytes marginals)).

Definition score_u64 (h : particle) : N := digest_be h.

Definition settle_score (beacon cluster : particle) (nonce : N) (miner commitment : particle) : N :=
  score_u64 (hemera_hash (SETTLE_DOMAIN ++ arr_bytes beacon ++ arr_bytes cluster ++ u64_le nonce
    ++ arr_bytes miner ++ arr_bytes commitment)).

Definition role_separation_holds (miner : particle) (contribs : list contribution) : bool :=
  negb (existsb (fun c => bool_decide (cb_neuron c = miner)) contribs).

Definition try_settlement_ticket (base : list link) (contribs : list contribution) (ctx : context)
    (params : focusing_params) (beacon cluster miner : particle) (nonce target : N)
    : result (fault Empty_set) (option settlement_ticket) :=
  let n := length contribs in
  if bool_decide (n = 0) then Ok None
  else
    let order := ordering n beacon nonce in
    m ← marginals base contribs order ctx params;
    let commitment := commit_marginals m in
    let score := settle_score beacon cluster nonce miner commitment in
    if (target <=? score)%N then Ok None
    else Ok (Some (mk_ticket miner nonce m commitment score)).

(** The loop of [grind_settlement] from attempt [i], with [attempts] left. *)
Fixpoint grind_loop (try : N -> result (fault Empty_set) (option settlement_ticket))
    (start_nonce : N) (want : nat) (i : N) (attempts : nat) (out : list settlement_ticket)
    : result (fault Empty_set) (list settlement_ticket) :=
  match attempts with
  | 0 => Ok out
  | S attempts =>
      if bool_decide (want <= length out) then Ok out
      else
        t ← try (sat_add64 start_nonce i);
        grind_loop try start_nonce want (i + 1) attempts
          (match t with Some t => out ++ [t] | None => out end)
  end.

Definition grind_settlement (base : list link) (contribs : list contribution) (ctx : context)
    (params : focusing_params) (beacon cluster miner : particle) (start_nonce : N)
    (max_attempts want : nat) (target : N) : result (fault Empty_set) (list settlement_ticket) :=
  grind_loop (fun nonce => try_settlement_ticket base contribs ctx params beacon cluster miner nonce target)
    start_nonce want 0 max_attempts [].

Definition verify_settlement_ticket (t : settlement_ticket) (beacon cluster : particle) (target : N) : bool :=
  if negb (bool_decide (commit_marginals (tk_marginals t) = tk_commitment t)) then false
  else
    let s := settle_score beacon cluster (tk_nonce t) (tk_miner t) (tk_commitment t) in
    (s =? tk_score t)%N && (s <? target)%N.

Definition seen_bytes (e : particle * N) : list byte := arr_bytes e.1 ++ u64_le e.2.

(** The hash covers [k], the sums and the sorted [seen] set. *)
Definition acc_commitment (acc : cluster_acc) : particle :=
  hemera_hash (ACC_DOMAIN ++ u64_le (ac_k acc) ++ u64_le (as_u64 (N.of_nat (length (ac_sum_m acc))))
    ++ concat (map fx_bytes (ac_sum_m acc)) ++ concat (map seen_bytes (sorted_elements (ac_seen acc)))).

Definition with_commitment (acc : cluster_acc) : cluster_acc :=
  mk_acc (ac_sum_m acc) (ac_k acc) (ac_seen acc) (acc_commitment acc).

Definition ticket_key (t : settlement_ticket) : particle * N := (tk_miner t, tk_nonce t).

(** A dimension mismatch on a non-empty accumulator returns after [seen] was
    updated. *)
Definition absorb_ticket (acc : cluster_acc) (t : settlement_ticket) : cluster_acc :=
  if bool_decide (ticket_key t ∈ ac_seen acc) then acc
  else
    let seen := {[ticket_key t]} ∪ ac_seen acc in
    let add sum := with_commitment
      (mk_acc (zip_with fx_add sum (tk_marginals t)) (sat_add64 (ac_k acc) 1) seen (ac_commitment acc)) in
    if bool_decide (length (ac_sum_m acc) = length (tk_marginals t)) then add (ac_sum_m acc)
    else if (ac_k acc =? 0)%N then add (replicate (length (tk_marginals t)) fx_zero)
    else mk_acc (ac_sum_m acc) (ac_k acc) seen (ac_commitment acc).

Definition self_fold (n_contrib : nat) (tickets : list settlement_ticket) : cluster_acc :=
  fold_left absorb_ticket tickets (acc_empty n_contrib).

(** The side kept on a dimension mismatch, with the other side's [seen]. *)
Definition keep_side (kept other : cluster_acc) : cluster_acc :=
  let seen := ac_seen kept ∪ ac_seen other in
  mk_acc (ac_sum_m kept) (N.of_nat (size seen)) seen (ac_commitment kept).

Definition fold_acc (left right : cluster_acc) : cluster_acc :=
  let n := Nat.max (length (ac_sum_m left)) (length (ac_sum_m right)) in
  let seen := ac_seen left ∪ ac_seen right in
  let out :=
    if bool_decide (length (ac_sum_m left) = length (ac_sum_m right)) &&
       bool_decide (length (ac_sum_m left) = n) then
      let sums := zip_with fx_add (ac_sum_m left) (ac_sum_m right) in
      let inter := size (ac_seen left ∩ ac_seen right) in
      if bool_decide (inter = 0) then mk_acc sums (sat_add64 (ac_k left) (ac_k right)) seen zero32
      else
        mk_acc (if (0 <? ac_k left + ac_k right)%N then sums else replicate n fx_zero)
          (N.of_nat (size seen)) seen zero32
    else if (ac_k right <=? ac_k left)%N then keep_side left right
    else keep_side right left in
  with_commitment out.

Inductive fold_overlap := NonDisjoint (n : nat).

Definition fold_acc_checked (left right : cluster_acc) : result fold_overlap cluster_acc :=
  let inter := size (ac_seen left ∩ ac_seen right) in
  if bool_decide (0 < inter) then Err (NonDisjoint inter)
  else
    let n := Nat.max (length (ac_sum_m left)) (length (ac_sum_m right)) in
    let seen := ac_seen left ∪ ac_seen right in
    let out :=
      if bool_decide (length (ac_sum_m left) = length (ac_sum_m right)) &&
         bool_decide (length (ac_sum_m left) = n) then
        mk_acc (zip_with fx_add (ac_sum_m left) (ac_sum_m right))
          (sat_add64 (ac_k left) (ac_k right)) seen zero32
      else if (ac_k right <=? ac_k left)%N then keep_side left right
      else keep_side right left in
    Ok (with_commitment out).

Definition pair_id (left right : cluster_acc) : particle :=
  let a := ac_commitment left in
  let b := ac_commitment right in
  let '(a, b) := if olt b a then (b, a) else (a, b) in
  hemera_hash (arr_bytes a ++ arr_bytes b).

Definition fold_score (beacon cluster : particle) (level : N) (pair : particle) (nonce : N)
    (result_commitment : particle) : N :=
  score_u64 (hemera_hash (FOLD_DOMAIN ++ arr_bytes beacon ++ arr_bytes cluster ++ str_bytes "fold"
    ++ u32_le level ++ arr_bytes pair ++ u64_le nonce ++ arr_bytes result_commitment)).

Definition try_fold_ticket (beacon cluster miner : particle) (level : N) (left right : cluster_acc)
    (nonce target : N) : option fold_ticket :=
  let result := fold_acc left right in
  let pid := pair_id left right in
  let score := fold_score beacon cluster level pid nonce (ac_commitment result) in
  if (target <=? score)%N then None
  else Some (mk_fold_ticket miner nonce level pid left right result score).

(** The loop of [grind_fold] from attempt [i]. *)
Fixpoint grind_fold_loop (try : N -> option fold_ticket) (start_nonce i : N) (attempts : nat)
    : option fold_ticket :=
  match attempts with
  | 0 => None
  | S attempts =>
      match try (sat_add64 start_nonce i) with
      | Some t => Some t
      | None => grind_fold_loop try start_nonce (i + 1) attempts
      end
  end.

Definition grind_fold (beacon cluster miner : particle) (level : N) (left right : cluster_acc)
    (start_nonce : N) (max_attempts : nat) (target : N) : option fold_ticket :=
  grind_fold_loop (fun nonce => try_fold_ticket beacon cluster miner level left right nonce target)
    start_nonce 0 max_attempts.

(** One pair: the lottery winner's result, or the plain fold. *)
Definition fold_pair (beacon cluster miner : particle) (fold_target lvl : N) (left right : cluster_acc)
    : cluster_acc :=
  match grind_fold beacon cluster miner lvl left right 0 64 fold_target with
  | Some t => ft_result t
  | None => fold_acc left right
  end.

(** The inner loop: consecutive pairs, an odd last element kept. *)
Fixpoint fold_level (pair : cluster_acc -> cluster_acc -> cluster_acc) (level : list cluster_acc)
    : list cluster_acc :=
  match level with
  | a :: b :: rest => pair a b :: fold_level pair rest
  | rest => rest
  end.

Fixpoint fold_levels (fuel : nat) (beacon cluster miner : particle) (fold_target lvl : N)
    (level : list cluster_acc) : option (list cluster_acc) :=
  if bool_decide (length level <= 1) then Some level
  else
    match fuel with
    | 0 => None
    | S fuel =>
        fold_levels fuel beacon cluster miner fold_target (N.min (lvl + 1) u32_max)
          (fold_level (fold_pair beacon cluster miner fold_target lvl) level)
    end.

(** [None] when the fuel runs out. *)
Definition assemble_fold_tree (beacon cluster miner : particle) (leaves : list cluster_acc)
    (fold_target : N) : option cluster_acc :=
  match leaves with
  | [] => Some acc_default
  | _ =>
      level ← fold_levels (length leaves) beacon cluster miner fold_target 0 leaves;
      Some (default acc_default (head level))
  end.

(** The [debug_assert] on the compute share is a panic. *)
Definition withholding_bias_bound (range q : fx) : outcome fx :=
  assert_or_panic (fx_ltb q fx_one);;
  Done (fx_mul range (fx_div q (fx_sub fx_one q))).

Definition forfeit_deters_withholding (ticket_subsidy range q cluster_value : fx) : outcome bool :=
  b ← withholding_bias_bound range q;
  Done (fx_ltb (fx_mul b cluster_value) ticket_subsidy).

(** ** What the accumulators mean *)

#[global] Instance settlement_ticket_eq_dec : EqDecision settlement_ticket.
Proof. solve_decision. Defined.

(** One ticket per (miner, nonce), all of one dimension. *)
Definition coherent (n : nat) (l : list settlement_ticket) : Prop :=
  Forall (fun t => length (tk_marginals t) = n) l /\
  forall t t', t ∈ l -> t' ∈ l -> ticket_key t = ticket_key t' -> t = t'.

(** No (miner, nonce) twice. *)
Definition distinct_keys (l : list settlement_ticket) : Prop := NoDup (map ticket_key l).
End tickets.

Section tickets_lemmas.
Context {HM : Hemera} {NB : Nebu} {FX : Fixed} {TR : Tru} {FA : FxAddLaws}.

(** ** Sums of marginal vectors *)

Definition vec_sum (n : nat) (l : list settlement_ticket) : list fx :=
  foldr (fun t acc => zip_with fx_add (tk_marginals t) acc) (replicate n fx_zero) l.

Lemma vec_sum_length n l : Forall (fun t => length (tk_marginals t) = n) l -> length (vec_sum n l) = n.
Proof.
  induction 1 as [|t l Ht _ IH]; simpl; [apply length_replicate|]. rewrite length_zip_with. lia.
Qed.

Lemma zip_add_comm (a b : list fx) : zip_with fx_add a b = zip_with fx_add b a.
Proof. revert b; induction a as [|x a IH]; intros [|y b]; simpl; [done..|]. by rewrite IH, fx_add_comm. Qed.

Lemma zip_add_assoc (a b c : list fx) :
  zip_with fx_add a (zip_with fx_add b c) = zip_with fx_add (zip_with fx_add a b) c.
Proof.
  revert b c; induction a as [|x a IH]; intros [|y b] [|z c]; simpl; [done..|]. by rewrite IH, fx_add_assoc.
Qed.

Lemma zip_add_zero (a : list fx) n : length a = n -> zip_with fx_add (replicate n fx_zero) a = a.
Proof.
  intros <-. induction a as [|x a IH]; simpl; [done|]. by rewrite IH, fx_add_0_l.
Qed.

Lemma vec_sum_perm n l l' : l ≡ₚ l' -> vec_sum n l = vec_sum n l'.
Proof.
  unfold vec_sum. induction 1 as [|t l l' _ IH|t u l|l1 l2 l3 _ IH1 _ IH2]; simpl.
  - done.
  - by rewrite IH.
  - rewrite !zip_add_assoc. by rewrite (zip_add_comm (tk_marginals u)).
  - congruence.
Qed.

Lemma vec_sum_app n l l' :
  Forall (fun t => length (tk_marginals t) = n) l' ->
  vec_sum n (l ++ l') = zip_with fx_add (vec_sum n l) (vec_sum n l').
Proof.
  intros Hl'. induction l as [|t l IH]; simpl.
  - by rewrite zip_add_zero by (by apply vec_sum_length).
  - by rewrite IH, zip_add_assoc.
Qed.

(** ** The accumulator of a list of distinct tickets *)

Definition canon (n : nat) (l : list settlement_ticket) : cluster_acc :=
  match l with
  | [] => acc_empty n
  | _ => with_commitment (mk_acc (vec_sum n l) (N.min (N.of_nat (length l)) u64_max)
           (list_to_set (map ticket_key l)) zero32)
  end.

Lemma canon_sum n l : ac_sum_m (canon n l) = vec_sum n l.
Proof. by destruct l. Qed.
Lemma canon_k n l : ac_k (canon n l) = N.min (N.of_nat (length l)) u64_max.
Proof. by destruct l. Qed.
Lemma canon_seen n l : ac_seen (canon n l) = list_to_set (map ticket_key l).
Proof. by destruct l. Qed.

(** An accumulator with a fresh commitment is determined by its content. *)
Lemma with_commitment_eq a b :
  ac_sum_m a = ac_sum_m b -> ac_k a = ac_k b -> ac_seen a = ac_seen b ->
  with_commitment a = with_commitment b.
Proof.
  destruct a, b; simpl. intros -> -> ->. unfold with_commitment, acc_commitment. done.
Qed.

Lemma canon_eq n l a :
  l <> [] -> ac_sum_m a = vec_sum n l -> ac_k a = N.min (N.of_nat (length l)) u64_max ->
  ac_seen a = list_to_set (map ticket_key l) -> with_commitment a = canon n l.
Proof. intros Hne H1 H2 H3. destruct l; [done|]. by apply with_commitment_eq. Qed.

Lemma canon_perm n l l' : l ≡ₚ l' -> canon n l = canon n l'.
Proof.
  intros Hp. destruct l as [|t l].
  { by apply Permutation_nil_l in Hp as ->. }
  change (canon n (t :: l)) with (with_commitment (mk_acc (vec_sum n (t :: l))
    (N.min (N.of_nat (length (t :: l))) u64_max) (list_to_set (map ticket_key (t :: l))) zero32)).
  apply canon_eq; cbn [ac_sum_m ac_k ac_seen].
  - intros ->. by apply Permutation_nil_r in Hp.
  - by apply vec_sum_perm.
  - by rewrite Hp.
  - apply list_to_set_perm_L. by apply Permutation_map.
Qed.

Lemma absorb_seen acc t : ticket_key t ∈ ac_seen acc -> absorb_ticket acc t = acc.
Proof. intros Hs. unfold absorb_ticket. by rewrite bool_decide_eq_true_2. Qed.

Lemma absorb_canon n l t :
  Forall (fun t => length (tk_marginals t) = n) (t :: l) -> ticket_key t ∉ map ticket_key l ->
  absorb_ticket (canon n l) t = canon n (t :: l).
Proof.
  intros [Ht Hl]%Forall_cons Hni. unfold absorb_ticket.
  rewrite canon_seen, bool_decide_eq_false_2 by (by rewrite elem_of_list_to_set).
  rewrite canon_sum, (vec_sum_length n l Hl), (bool_decide_eq_true_2 (n = _)) by done.
  apply canon_eq; [done|..]; cbn [ac_sum_m ac_k ac_seen].
  - apply zip_add_comm.
  - rewrite canon_k. unfold sat_add64. simpl length. lia.
  - done.
Qed.

(** Absorbing a coherent list yields the accumulator of its distinct
    tickets. *)
Lemma self_fold_canon n l d :
  coherent n l -> NoDup d -> (forall t, t ∈ d <-> t ∈ l) -> self_fold n l = canon n d.
Proof.
  intros [Hdim Hkey]. revert d. induction l as [|t l IH] using rev_ind; intros d Hnd Hd.
  { assert (d = []) as ->; [|done]. destruct d as [|x d]; [done|].
    exfalso. apply (not_elem_of_nil x), Hd. constructor. }
  apply Forall_app in Hdim as [Hdim Hdt].
  assert (Hkey' : forall t t', t ∈ l -> t' ∈ l -> ticket_key t = ticket_key t' -> t = t').
  { intros x y Hx Hy. apply Hkey; apply elem_of_app; auto. }
  specialize (IH Hdim Hkey'). unfold self_fold in *. rewrite fold_left_app. cbn [fold_left].
  assert (t ∈ l ++ [t]) as Htl by (apply elem_of_app; right; constructor).
  assert (Forall (fun t => length (tk_marginals t) = n) (remove_dups l)) as Hdr.
  { rewrite Forall_forall in Hdim |- *. intros x Hx. apply Hdim. by rewrite elem_of_remove_dups in Hx. }
  rewrite (IH (remove_dups l)); [|apply NoDup_remove_dups|intros x; apply elem_of_remove_dups].
  destruct (decide (t ∈ l)) as [Hin|Hni].
  - rewrite absorb_seen.
    + apply canon_perm, NoDup_Permutation; [apply NoDup_remove_dups|done|].
      intros x. rewrite Hd, elem_of_remove_dups, elem_of_app, list_elem_of_singleton.
      split; [auto|]. intros [Hx| ->]; done.
    + rewrite canon_seen, elem_of_list_to_set. apply list_elem_of_fmap_2. by apply elem_of_remove_dups.
  - rewrite absorb_canon.
    + apply canon_perm, NoDup_Permutation; [|done|].
      * constructor; [by rewrite elem_of_remove_dups | apply NoDup_remove_dups].
      * intros x. rewrite Hd, elem_of_cons, elem_of_remove_dups, elem_of_app, list_elem_of_singleton. tauto.
    + constructor; [by apply Forall_cons in Hdt as [? _] | done].
    + intros (u & Hu & Hul)%list_elem_of_fmap. rewrite elem_of_remove_dups in Hul. apply Hni.
      rewrite (Hkey t u); [done|done|apply elem_of_app; auto|done].
Qed.

(** ** Joining accumulators *)

Lemma fold_acc_canon n l1 l2 :
  l1 <> [] -> Forall (fun t => length (tk_marginals t) = n) (l1 ++ l2) -> distinct_keys (l1 ++ l2) ->
  fold_acc (canon n l1) (canon n l2) = canon n (l1 ++ l2).
Proof.
  intros Hne [H1 H2]%Forall_app Hd. unfold distinct_keys in Hd. rewrite map_app in Hd.
  apply NoDup_app in Hd as (_ & Hdis & _). unfold fold_acc.
  rewrite !canon_sum, !canon_seen, !canon_k, !vec_sum_length by done.
  rewrite Nat.max_id, (bool_decide_eq_true_2 (n = n)) by done. simpl.
  assert ((list_to_set (map ticket_key l1) : gset (particle * N)) ∩ list_to_set (map ticket_key l2) = ∅) as ->.
  { apply set_eq. intros x. rewrite elem_of_intersection, !elem_of_list_to_set.
    split; [intros [? ?]; by destruct (Hdis x) | by intros ?%elem_of_empty]. }
  rewrite size_empty, bool_decide_eq_true_2 by done.
  apply canon_eq; cbn [ac_sum_m ac_k ac_seen].
  - by destruct l1.
  - by rewrite vec_sum_app.
  - unfold sat_add64. rewrite length_app. lia.
  - by rewrite map_app, list_to_set_app_L.
Qed.

Lemma fold_pair_fold beacon cluster miner target lvl a b :
  fold_pair beacon cluster miner target lvl a b = fold_acc a b.
Proof.
  unfold fold_pair, grind_fold. set (try := fun nonce => _).
  assert (forall attempts start i,
    match grind_fold_loop try start i attempts with Some t => ft_result t | None => fold_acc a b end
      = fold_acc a b) as H; [|apply H].
  induction attempts as [|attempts IH]; intros start i; simpl; [done|].
  unfold try at 1, try_fold_ticket. destruct (_ <=? _)%N; [apply IH | done].
Qed.

(** Consecutive batches joined in pairs. *)
Fixpoint pair_up {A} (bs : list (list A)) : list (list A) :=
  match bs with
  | a :: b :: rest => (a ++ b) :: pair_up rest
  | rest => rest
  end.

Lemma pair_up_ind {A} (P : list (list A) -> Prop) :
  P [] -> (forall a, P [a]) -> (forall a b rest, P rest -> P (a :: b :: rest)) -> forall bs, P bs.
Proof.
  intros H0 H1 H2. assert (forall bs, P bs /\ forall a, P (a :: bs)) as H; [|apply H].
  induction bs as [|b bs [IH1 IH2]]; split; auto.
Qed.

Lemma pair_up_concat {A} (bs : list (list A)) : concat (pair_up bs) = concat bs.
Proof. induction bs as [|a|a b rest IH] using pair_up_ind; simpl; [done..|]. by rewrite IH, app_assoc. Qed.

Lemma pair_up_length {A} (bs : list (list A)) : 2 <= length bs -> 1 <= length (pair_up bs) < length bs.
Proof.
  induction bs as [|a|a b rest IH] using pair_up_ind; simpl; [lia..|]. intros _.
  destruct rest as [|c [|d rest]]; simpl in *; [lia..|]. specialize (IH ltac:(lia)). lia.
Qed.

Lemma fold_level_canon n bs pair :
  (forall a b, pair a b = fold_acc a b) ->
  Forall (fun b => b <> []) bs -> Forall (fun t => length (tk_marginals t) = n) (concat bs) ->
  distinct_keys (concat bs) ->
  fold_level pair (map (canon n) bs) = map (canon n) (pair_up bs) /\ Forall (fun b => b <> []) (pair_up bs).
Proof.
  intros Hpair. induction bs as [|a|a b rest IH] using pair_up_ind; simpl; [done..|].
  intros [Ha [Hb Hr]%Forall_cons]%Forall_cons. rewrite app_assoc. intros [Hab Hrest]%Forall_app Hd.
  unfold distinct_keys in Hd. rewrite map_app in Hd. apply NoDup_app in Hd as (Hdab & _ & Hdr).
  destruct IH as [IH1 IH2]; [done..|]. rewrite IH1, Hpair, fold_acc_canon by done.
  split; [done|]. constructor; [by destruct a | done].
Qed.

Lemma fold_levels_canon n beacon cluster miner target fuel lvl bs :
  bs <> [] -> length bs <= S fuel ->
  Forall (fun b => b <> []) bs -> Forall (fun t => length (tk_marginals t) = n) (concat bs) ->
  distinct_keys (concat bs) ->
  fold_levels fuel beacon cluster miner target lvl (map (canon n) bs) = Some [canon n (concat bs)].
Proof.
  revert lvl bs. induction fuel as [|fuel IH]; intros lvl bs Hne Hlen Hb Hdim Hd; cbn [fold_levels];
    rewrite length_map; case_bool_decide as Hl.
  1,3: (destruct bs as [|b [|c bs]]; [done| |simpl in Hl; lia]); simpl; by rewrite app_nil_r.
  - lia.
  - destruct (fold_level_canon n bs (fold_pair beacon cluster miner target lvl)) as [-> Hne'];
      [intros; apply fold_pair_fold|done..|].
    rewrite <-(pair_up_concat bs) in Hdim, Hd. pose proof (pair_up_length bs ltac:(lia)) as Hpl.
    rewrite IH; [by rewrite pair_up_concat| |lia|done..]. intros E. rewrite E in Hpl. simpl in Hpl. lia.
Qed.
End tickets_lemmas.

(** ** Grinding *)

Section grinding.
Context {HM : Hemera} {NB : Nebu} {FX : Fixed} {TR : Tru} {FA : FxAddLaws}.

(** A ticket of a miner, won honestly for the cluster. *)
Definition honest_ticket (base : list link) (contribs : list contribution) (ctx : context)
    (params : focusing_params) (beacon cluster miner : particle) (target : N) (t : settlement_ticket) : Prop :=
  tk_miner t = miner /\ verify_settlement_ticket t beacon cluster target = true /\
  marginals base contribs (ordering (length contribs) beacon (tk_nonce t)) ctx params = Ok (tk_marginals t).

Lemma try_ticket_ok base contribs ctx params beacon cluster miner nonce target :
  exists r, try_settlement_ticket base contribs ctx params beacon cluster miner nonce target = Ok r /\
    forall t, r = Some t ->
      tk_nonce t = nonce /\ honest_ticket base contribs ctx params beacon cluster miner target t.
Proof.
  unfold try_settlement_ticket. case_bool_decide; [by exists None|].
  destruct (marginals_ok base contribs ctx params (ordering (length contribs) beacon nonce)
    (ordering_perm _ _ _)) as (m & Hm & _). rewrite Hm. simpl.
  destruct (N.leb_spec target (settle_score beacon cluster nonce miner (commit_marginals m))) as [Hs|Hs];
    [by exists None|].
  eexists. split; [done|]. intros t [= <-]. split; [done|]. split; [done|]. split; [|done].
  unfold verify_settlement_ticket; simpl. rewrite bool_decide_eq_true_2 by done. simpl.
  rewrite N.eqb_refl. by apply N.ltb_lt in Hs as ->.
Qed.

Lemma grind_loop_spec (try : N -> result (fault Empty_set) (option settlement_ticket))
    (P : settlement_ticket -> Prop) start want i attempts out :
  (forall nonce, exists r, try nonce = Ok r /\ forall t, r = Some t -> tk_nonce t = nonce /\ P t) ->
  Forall P out -> length out <= want ->
  exists new, grind_loop try start want i attempts out = Ok (out ++ new) /\
    Forall P new /\ length (out ++ new) <= want /\
    (forall t, t ∈ new -> exists j, (i <= j < i + N.of_nat attempts)%N /\ tk_nonce t = sat_add64 start j) /\
    ((start + i + N.of_nat attempts <= u64_max)%N -> NoDup (map tk_nonce new)).
Proof.
  intros Htry. revert i out. induction attempts as [|attempts IH]; intros i out Hout Hlen; cbn [grind_loop].
  { exists []. rewrite app_nil_r. split; [done|]. split; [done|]. split; [done|].
    split; [by intros t ?%elem_of_nil|]. intros _. apply NoDup_nil_2. }
  case_bool_decide as Hw.
  { exists []. rewrite app_nil_r. split; [done|]. split; [done|]. split; [done|].
    split; [by intros t ?%elem_of_nil|]. intros _. apply NoDup_nil_2. }
  destruct (Htry (sat_add64 start i)) as (r & -> & Hr). simpl. destruct r as [t|].
  - destruct (Hr t eq_refl) as [Hn HP].
    destruct (IH (i + 1)%N (out ++ [t])) as (new & E & HPn & Hln & Hin & Hnd).
    { apply Forall_app. by split; [|constructor]. } { rewrite length_app. simpl. lia. }
    exists (t :: new). rewrite E. rewrite <-app_assoc in Hln |- *. split; [done|].
    split; [by constructor|]. split; [done|]. split.
    + intros u [->|Hu]%elem_of_cons; [exists i; split; [lia|done]|].
      destruct (Hin u Hu) as (j & ? & ?). exists j. split; [lia|done].
    + intros Hmax. cbn [map]. constructor; [|apply Hnd; lia].
      intros (u & Eu & Hu)%list_elem_of_fmap. destruct (Hin u Hu) as (j & Hj & Hju).
      rewrite Hn, Hju in Eu. unfold sat_add64 in Eu. lia.
  - destruct (IH (i + 1)%N out) as (new & E & HPn & Hln & Hin & Hnd); [done..|].
    exists new. split; [done|]. split; [done|]. split; [done|]. split.
    + intros u Hu. destruct (Hin u Hu) as (j & ? & ?). exists j. split; [lia|done].
    + intros Hmax. apply Hnd. lia.
Qed.
End grinding.

(** ** Properties *)

Section tickets_properties.
Context {HM : Hemera} {NB : Nebu} {FX : Fixed} {TR : Tru} {FA : FxAddLaws}.

(** C14: Fold mining computes one sum: for non-empty ticket batches without a
    repeated (miner, nonce), the fold tree over the miners' accumulators
    terminates and equals the single accumulator of all tickets, whatever the
    beacon, the fold target and the lottery's outcomes; and a miner's own
    accumulator depends only on the set of tickets absorbed, not on their
    order or repetition. *)
Theorem fold_tree_is_self_fold (n : nat) (beacon cluster miner : particle) (target : N)
    (batches : list (list settlement_ticket)) (l l' : list settlement_ticket) :
  (batches <> [] -> Forall (fun b => b <> []) batches ->
   coherent n (concat batches) -> distinct_keys (concat batches) ->
   assemble_fold_tree beacon cluster miner (map (self_fold n) batches) target
     = Some (self_fold n (concat batches))) /\
  (coherent n l -> (forall t, t ∈ l <-> t ∈ l') -> self_fold n l = self_fold n l').
Proof.
  split.
  - intros Hne Hb Hc Hd.
    assert (forall b, (forall t, t ∈ b -> t ∈ concat batches) -> NoDup b -> self_fold n b = canon n b) as Hcanon.
    { intros b Hsub Hnd. apply self_fold_canon; [|done|done]. destruct Hc as [Hdim Hkey]. split; [|auto].
      rewrite Forall_forall in Hdim |- *. auto. }
    assert (NoDup (concat batches)) as Hndc by (by apply NoDup_fmap_1 in Hd).
    rewrite (Hcanon (concat batches)) by done.
    assert (map (self_fold n) batches = map (canon n) batches) as ->.
    { apply map_ext_in. intros b Hin%list_elem_of_In. apply Hcanon.
      - intros t Ht. apply list_elem_of_In, in_concat. exists b. by rewrite <-!list_elem_of_In.
      - apply list_elem_of_split in Hin as (b1 & b2 & ->). rewrite concat_app in Hndc.
        apply NoDup_app in Hndc as (_ & _ & Hndc). simpl in Hndc. by apply NoDup_app in Hndc as (? & _). }
    assert (assemble_fold_tree beacon cluster miner (map (canon n) batches) target =
      (level ← fold_levels (length batches) beacon cluster miner target 0 (map (canon n) batches);
       Some (default acc_default (head level)))) as ->.
    { unfold assemble_fold_tree. rewrite length_map. by destruct batches. }
    rewrite (fold_levels_canon n); [done|done|lia|done|apply Hc|done].
  - intros Hc Hl. rewrite (self_fold_canon n l (remove_dups l)) by
      (done || apply NoDup_remove_dups || (intros; apply elem_of_remove_dups)).
    symmetry. apply self_fold_canon.
    + destruct Hc as [Hdim Hkey]. split.
      * rewrite Forall_forall in Hdim |- *. intros t Ht. apply Hdim. by apply Hl.
      * intros t t' Ht Ht'. apply Hkey; by apply Hl.
    + apply NoDup_remove_dups.
    + intros t. by rewrite elem_of_remove_dups, Hl.
Qed.

(** Joining two accumulators is commutative exactly when they have the
    same dimension or different counts (on a dimension mismatch with equal
    counts the left side is kept); the checked join is that join when no
    (miner, nonce) is shared and otherwise refuses with the number shared. *)
Lemma fold_acc_commutes (a b : cluster_acc) :
  (fold_acc a b = fold_acc b a <-> length (ac_sum_m a) = length (ac_sum_m b) \/ ac_k a <> ac_k b) /\
  fold_acc_checked a b =
    (if decide (ac_seen a ∩ ac_seen b = ∅) then Ok (fold_acc a b)
     else Err (NonDisjoint (size (ac_seen a ∩ ac_seen b)))).
Proof.
  split.
  - unfold fold_acc.
    assert (ac_seen b ∪ ac_seen a = ac_seen a ∪ ac_seen b) as Eu by set_solver.
    assert (ac_seen b ∩ ac_seen a = ac_seen a ∩ ac_seen b) as Ei by set_solver.
    rewrite Eu, Ei.
    rewrite (Nat.max_comm (length (ac_sum_m b))).
    destruct (decide (length (ac_sum_m a) = length (ac_sum_m b))) as [El|Nl].
    + split; [auto|]. intros _.
      rewrite (bool_decide_eq_true_2 (length (ac_sum_m a) = length (ac_sum_m b))),
        (bool_decide_eq_true_2 (length (ac_sum_m b) = length (ac_sum_m a))) by done.
      rewrite El, (zip_add_comm (ac_sum_m b)), (N.add_comm (ac_k b)). simpl.
      replace (sat_add64 (ac_k b) (ac_k a)) with (sat_add64 (ac_k a) (ac_k b))
        by (unfold sat_add64; by rewrite N.add_comm).
      rewrite Nat.max_id, (bool_decide_eq_true_2 (length (ac_sum_m b) = length (ac_sum_m b))) by done. done.
    + rewrite (bool_decide_eq_false_2 (length (ac_sum_m a) = length (ac_sum_m b))),
        (bool_decide_eq_false_2 (length (ac_sum_m b) = length (ac_sum_m a))) by congruence. simpl.
      destruct (N.leb_spec (ac_k b) (ac_k a)), (N.leb_spec (ac_k a) (ac_k b)).
      * split; [|intros [|]; [done|lia]]. intros E. apply (f_equal ac_sum_m) in E. simpl in E. congruence.
      * split; [|done]. intros _. right. lia.
      * split; [|done]. intros _. right. lia.
      * lia.
  - unfold fold_acc_checked, fold_acc. case_decide as Hd.
    + rewrite Hd, size_empty, (bool_decide_eq_true_2 (0 = 0)) by done. simpl. done.
    + rewrite bool_decide_eq_true_2; [done|].
      destruct (decide (size (ac_seen a ∩ ac_seen b) = 0)) as [E|]; [|lia].
      exfalso. apply Hd, leibniz_equiv, size_empty_inv. done.
Qed.

(** Grinding never fails and yields at most the wanted number of tickets,
    each bound to the miner, passing verification and carrying the genuine
    marginals of the ordering its nonce seeds; their nonces are distinct as
    long as the attempted range stays below [u64::MAX]. *)
Lemma grind_sound (base : list link) (contribs : list contribution) (ctx : context)
    (params : focusing_params) (beacon cluster miner : particle) (start : N) (attempts want : nat) (target : N) :
  exists out, grind_settlement base contribs ctx params beacon cluster miner start attempts want target = Ok out /\
    length out <= want /\
    Forall (honest_ticket base contribs ctx params beacon cluster miner target) out /\
    ((start + N.of_nat attempts <= u64_max)%N -> NoDup (map tk_nonce out)).
Proof.
  unfold grind_settlement.
  destruct (grind_loop_spec (fun nonce => try_settlement_ticket base contribs ctx params beacon cluster miner nonce target)
    (honest_ticket base contribs ctx params beacon cluster miner target) start want 0 attempts []) as
    (new & E & HP & Hl & _ & Hnd).
  - intros nonce. apply try_ticket_ok.
  - done.
  - simpl. lia.
  - exists new. split; [done|]. split; [done|]. split; [done|]. intros Hmax. apply Hnd. lia.
Qed.
End tickets_properties.

(** ** Witnesses *)

Definition ex_ticket (miner : byte) (nonce : N) : settlement_ticket :=
  mk_ticket (arr_rep 32 miner) nonce [fx_one; fx_zero] zero32 0.

Lemma fold_tree_is_self_fold_witness :
  assemble_fold_tree zero32 zero32 zero32
    (map (self_fold 2) [[ex_ticket x01 1; ex_ticket x01 2]; [ex_ticket x02 1]; [ex_ticket x03 5]]) 0
  = Some (self_fold 2 (concat [[ex_ticket x01 1; ex_ticket x01 2]; [ex_ticket x02 1]; [ex_ticket x03 5]])).
Proof.
  apply (fold_tree_is_self_fold 2 zero32 zero32 zero32 0
    [[ex_ticket x01 1; ex_ticket x01 2]; [ex_ticket x02 1]; [ex_ticket x03 5]] [] []).
  - done.
  - by repeat constructor.
  - split; [by repeat constructor|]. intros t t' Ht Ht'. simpl in Ht, Ht'.
    rewrite !elem_of_cons, elem_of_nil in Ht, Ht'.
    destruct Ht as [->|[->|[->|[->|[]]]]], Ht' as [->|[->|[->|[->|[]]]]]; intros E;
      first [reflexivity | exfalso; vm_compute in E; discriminate E].
  - apply (bool_decide_eq_true_1 _). by_vm.
Defined.

Lemma fold_acc_commutes_witness :
  fold_acc_checked (acc_empty 1) (acc_empty 1) = Ok (fold_acc (acc_empty 1) (acc_empty 1)).
Proof. exact (proj2 (fold_acc_commutes (acc_empty 1) (acc_empty 1))). Defined.

Lemma grind_sound_witness :
  exists out, grind_settlement [] ex_contribs context_none params_default zero32 zero32 zero32 0 3 2 u64_max = Ok out /\
    length out <= 2 /\
    Forall (honest_ticket [] ex_contribs context_none params_default zero32 zero32 zero32 u64_max) out /\
    ((0 + N.of_nat 3 <= u64_max)%N -> NoDup (map tk_nonce out)).
Proof. exact (grind_sound [] ex_contribs context_none params_default zero32 zero32 zero32 0 3 2 u64_max). Defined.
