(* ===== verification/Seals.v ===== *)
(** * Seals: folded proofs of tickets and fold trees (src/step.rs, src/ticket_proof.rs)

    One fold step is the add row of zheng's universal step whose registers
    hold the first limbs of the hashed material ([add_step]).  A
    [ticket_prover] threads zheng's accumulator and transcript through the
    steps; [seal] decides it under the statement of (beacon, cluster, k).
    [prove_settlement_batch] seals a batch of tickets, [prove_fold_tree] the
    joins of a fold tree, on a fuel that is its number of leaves. *)

From S2P Require Import Prelude Order Bytes Externals Goldilocks Instances Settlement Tickets.

Section seals.
Context {HM : Hemera} {NB : Nebu} {FX : Fixed} {TR : Tru} {ZH : Zheng}.

Definition ADD : N := 5.

(** Registers [r0 .. r15] of row [t] and an all-zero row [t+1]. *)
Definition add_step (material : list byte) : ccs_witness :=
  let bytes := arr_bytes (hemera_hash material) in
  let a := gf_new (le_num (take 8 bytes)) in
  let b := gf_new (le_num (take 8 (drop 8 bytes))) in
  let regs_t := [gf_new ADD; gf_zero; gf_zero; gf_zero; a; b; gf_add a b] ++ replicate 9 gf_zero in
  universal_witness regs_t (replicate 16 gf_zero).

Definition verify_group (acc : accumulator) (proof : zproof) (stmt : statement) : bool :=
  if (step_count acc =? 0)%N then false else zverify acc proof stmt.

Definition TICKET_PROGRAM : particle :=
  default zero32 (list_to_arr 32 (str_bytes "foculus-ticket-fold-v0" ++ replicate 10 x00)).

Record fold_seal := mk_fold_seal {
  fs_acc : accumulator;
  fs_proof : zproof;
  fs_statement : statement;
  fs_steps : N
}.

Record ticket_prover := mk_prover { tp_acc : accumulator; tp_transcript : transcript; tp_steps : N }.

Definition prover_new : ticket_prover := mk_prover blank_acc transcript_new 0.

Inductive proof_error := FoldFailed | DecideFailed | VerifyFailed | Empty.

(** A failed fold leaves what zheng left in the accumulator. *)
Definition fold_material (p : ticket_prover) (material : list byte)
    : ticket_prover * result proof_error unit :=
  let witness := add_step material in
  let t := if (tp_steps p =? 0)%N then transcript_new else tp_transcript p in
  let '(acc, t, ok) := zfold (tp_acc p) witness t in
  if ok : bool then (mk_prover acc t (sat_add64 (tp_steps p) 1), Ok ())
  else (mk_prover acc t (tp_steps p), Err FoldFailed).

Definition settlement_material (beacon cluster : particle) (t : settlement_ticket) : list byte :=
  arr_bytes beacon ++ arr_bytes cluster ++ u64_le (tk_nonce t) ++ arr_bytes (tk_miner t)
    ++ arr_bytes (tk_commitment t).

Definition fold_settlement (p : ticket_prover) (beacon cluster : particle) (t : settlement_ticket)
    : ticket_prover * result proof_error unit :=
  fold_material p (settlement_material beacon cluster t).

Definition fold_step_bytes (beacon cluster : particle) (level : N) (pair : particle)
    (left_ right_ result_ : cluster_acc) : list byte :=
  arr_bytes beacon ++ arr_bytes cluster ++ str_bytes "fold" ++ u32_le level ++ arr_bytes pair
    ++ arr_bytes (ac_commitment left_) ++ arr_bytes (ac_commitment right_)
    ++ arr_bytes (ac_commitment result_).

Definition fold_step_material (p : ticket_prover) (beacon cluster : particle) (level : N)
    (pair : particle) (left_ right_ result_ : cluster_acc) : ticket_prover * result proof_error unit :=
  fold_material p (fold_step_bytes beacon cluster level pair left_ right_ result_).

Definition ticket_statement (beacon cluster : particle) (k : N) : statement :=
  {| st_program_hash := TICKET_PROGRAM;
     st_input_hash := default zero32 (list_to_arr 32 (u64_le k ++ replicate 24 x00));
     st_output_hash := hemera_hash (arr_bytes beacon ++ arr_bytes cluster);
     st_focus_bound := 0;
     st_bbg_root := zero32 |}.

Definition verify_seal (acc : accumulator) (proof : zproof) (stmt : statement) : bool :=
  verify_group acc proof stmt.

Definition seal (p : ticket_prover) (beacon cluster : particle) (sample_count : N)
    : result proof_error fold_seal :=
  if (tp_steps p =? 0)%N then Err Empty
  else
    let stmt := ticket_statement beacon cluster sample_count in
    proof ← ok_or DecideFailed (zdecide (tp_acc p) stmt);
    if negb (verify_seal (tp_acc p) proof stmt) then Err VerifyFailed
    else Ok (mk_fold_seal (tp_acc p) proof stmt (tp_steps p)).

Definition verify_fold_seal (s : fold_seal) : bool :=
  verify_seal (fs_acc s) (fs_proof s) (fs_statement s)
  && (step_count (fs_acc s) =? fs_steps s)%N && (0 <? fs_steps s)%N.

(** [prover.step(..)?]: the prover is dropped on an error. *)
Definition stepped (r : ticket_prover * result proof_error unit) : result proof_error ticket_prover :=
  _ ← r.2; Ok r.1.

Definition prove_settlement_batch (beacon cluster : particle) (tickets : list settlement_ticket)
    : result proof_error fold_seal :=
  match tickets with
  | [] => Err Empty
  | _ =>
      p ← try_fold (fun p t => stepped (fold_settlement p beacon cluster t)) tickets prover_new;
      seal p beacon cluster (as_u64 (N.of_nat (length tickets)))
  end.

(** The inner loop over one level: consecutive pairs, an odd one kept. *)
Fixpoint prove_level (beacon cluster : particle) (lvl : N) (p : ticket_prover)
    (level : list cluster_acc) : result proof_error (ticket_prover * list cluster_acc) :=
  match level with
  | a :: b :: rest =>
      let result_ := fold_acc a b in
      p ← stepped (fold_step_material p beacon cluster lvl (pair_id a b) a b result_);
      '(p, next) ← prove_level beacon cluster lvl p rest;
      Ok (p, result_ :: next)
  | rest => Ok (p, rest)
  end.

Fixpoint prove_levels (fuel : nat) (beacon cluster : particle) (lvl : N) (p : ticket_prover)
    (level : list cluster_acc) : option (result proof_error (ticket_prover * list cluster_acc)) :=
  if bool_decide (length level <= 1) then Some (Ok (p, level))
  else
    match fuel with
    | 0 => None
    | S fuel =>
        match prove_level beacon cluster lvl p level with
        | Err e => Some (Err e)
        | Ok (p, next) => prove_levels fuel beacon cluster (N.min (lvl + 1) u32_max) p next
        end
    end.

(** [None] when the fuel runs out. *)
Definition prove_fold_tree (beacon cluster : particle) (leaves : list cluster_acc)
    : option (result proof_error (cluster_acc * fold_seal)) :=
  match leaves with
  | [] => Some (Err Empty)
  | [root] =>
      let empty := acc_empty (length (ac_sum_m root)) in
      let pid := pair_id root empty in
      Some (p ← stepped (fold_step_material prover_new beacon cluster 0 pid root empty root);
            s ← seal p beacon cluster (ac_k root);
            Ok (root, s))
  | _ =>
      r ← prove_levels (length leaves) beacon cluster 0 prover_new leaves;
      Some ('(p, level) ← r;
            let root := default acc_default (head level) in
            s ← seal p beacon cluster (ac_k root);
            Ok (root, s))
  end.

(** ** The prover counts its steps *)

(** A prover that folded [n] steps. *)
Definition counts (n : nat) (p : ticket_prover) : Prop :=
  tp_steps p = N.of_nat n /\ step_count (tp_acc p) = N.of_nat n.

Context {ZL : ZhengLaws}.

Lemma counts_new : counts 0 prover_new.
Proof. split; [done | apply step_count_blank]. Qed.

Lemma fold_material_spec n p material :
  counts n p -> (N.of_nat (S n) <= u64_max)%N ->
  match stepped (fold_material p material) with
  | Ok p' => counts (S n) p'
  | Err e => e = FoldFailed
  end.
Proof.
  intros [Hs Ha] Hmax. unfold fold_material, stepped.
  destruct (zfold _ _ _) as [[acc t] []] eqn:E; simpl; [|done].
  split; simpl; [rewrite Hs, sat_add64_exact; lia|].
  rewrite (step_count_fold _ _ _ _ _ E), Ha. lia.
Qed.

Lemma seal_spec n p beacon cluster k :
  counts n p -> 0 < n ->
  match seal p beacon cluster k with
  | Ok s => verify_fold_seal s = true /\ fs_steps s = N.of_nat n /\
            fs_statement s = ticket_statement beacon cluster k
  | Err e => e = DecideFailed
  end.
Proof.
  intros [Hs Ha] Hn. unfold seal.
  rewrite (proj2 (N.eqb_neq (tp_steps p) 0)) by (rewrite Hs; lia).
  destruct (zdecide _ _) as [proof|] eqn:Hd; simpl; [|done].
  assert (verify_seal (tp_acc p) proof (ticket_statement beacon cluster k) = true) as Hv.
  { unfold verify_seal, verify_group. rewrite (proj2 (N.eqb_neq _ 0)) by (rewrite Ha; lia).
    by apply zdecide_verifies. }
  rewrite Hv; simpl. unfold verify_fold_seal; simpl. rewrite Hv, Ha, Hs, N.eqb_refl. simpl.
  split; [apply N.ltb_lt; lia | done].
Qed.

Lemma prove_level_spec beacon cluster lvl n p level :
  counts n p -> (N.of_nat (n + length level) <= u64_max)%N ->
  match prove_level beacon cluster lvl p level with
  | Ok (p', next) => next = fold_level fold_acc level /\ counts (n + (length level - length next)) p'
  | Err e => e = FoldFailed
  end.
Proof.
  assert (forall m n p level, length level <= m -> counts n p -> (N.of_nat (n + length level) <= u64_max)%N ->
    match prove_level beacon cluster lvl p level with
    | Ok (p', next) => next = fold_level fold_acc level /\ length next <= length level /\
        counts (n + (length level - length next)) p'
    | Err e => e = FoldFailed
    end) as H.
  { clear n p level. induction m as [|m IH]; intros n p level Hm Hc Hmax.
    - destruct level; [|simpl in Hm; lia]. split; [done|]. split; [done|]. by rewrite Nat.add_0_r.
    - destruct level as [|a [|b rest]]; simpl.
      + split; [done|]. split; [done|]. by rewrite Nat.add_0_r.
      + split; [done|]. split; [done|]. by rewrite Nat.add_0_r.
      + simpl in Hm, Hmax.
        pose proof (fold_material_spec n p
          (fold_step_bytes beacon cluster lvl (pair_id a b) a b (fold_acc a b)) Hc ltac:(lia)) as Hf.
        unfold fold_step_material. destruct (stepped _) as [p1|e]; simpl; [|done].
        specialize (IH (S n) p1 rest ltac:(lia) Hf ltac:(lia)).
        destruct (prove_level _ _ _ p1 rest) as [[p2 next]|e]; simpl; [|done].
        destruct IH as (-> & Hl & Hc2). split; [done|]. split; [lia|].
        replace (n + _) with (S n + (length rest - length (fold_level fold_acc rest))) by lia. done. }
  intros Hc Hmax. specialize (H (length level) n p level ltac:(lia) Hc Hmax).
  destruct (prove_level _ _ _ _ _) as [[p' next]|e]; [|done]. by destruct H as (? & _ & ?).
Qed.

Lemma fold_level_ext pair pair' level :
  (forall a b, pair a b = pair' a b) -> fold_level pair level = fold_level pair' level.
Proof.
  intros E. assert (forall m level, length level <= m -> fold_level pair level = fold_level pair' level) as H;
    [|by apply (H (length level))].
  clear level. induction m as [|m IH]; intros [|a [|b rest]] Hm; simpl in *; try done; [lia|].
  rewrite E, IH; [done|lia].
Qed.

Lemma fold_level_length pair level :
  2 <= length level -> 1 <= length (fold_level pair level) < length level.
Proof.
  assert (forall m level, length level <= m -> length (fold_level pair level) <= length level) as H.
  { induction m as [|m IH]; intros [|a [|b rest]] Hm; simpl in *; try lia.
    specialize (IH rest). lia. }
  destruct level as [|a [|b rest]]; simpl; [lia..|]. intros _. specialize (H (length rest) rest ltac:(lia)). lia.
Qed.

Lemma fold_levels_total beacon cluster miner target fuel lvl level :
  length level <= S fuel -> is_Some (fold_levels fuel beacon cluster miner target lvl level).
Proof.
  revert lvl level; induction fuel as [|fuel IH]; intros lvl level Hf; cbn [fold_levels].
  - rewrite bool_decide_eq_true_2 by lia. eauto.
  - case_bool_decide; [eauto|]. apply IH.
    pose proof (fold_level_length (fold_pair beacon cluster miner target lvl) level). lia.
Qed.

Lemma assemble_total beacon cluster miner leaves target :
  is_Some (assemble_fold_tree beacon cluster miner leaves target).
Proof.
  unfold assemble_fold_tree. destruct leaves as [|a leaves]; [eauto|].
  destruct (fold_levels_total beacon cluster miner target (length (a :: leaves)) 0 (a :: leaves))
    as [lv ->]; [lia | eauto].
Qed.

Lemma prove_levels_spec beacon cluster miner target fuel lvl n p level :
  counts n p -> 1 <= length level -> length level <= S fuel -> (N.of_nat (n + length level) <= u64_max)%N ->
  exists r, prove_levels fuel beacon cluster lvl p level = Some r /\
    match r with
    | Ok (p', lv) => fold_levels fuel beacon cluster miner target lvl level = Some lv /\
        length lv = 1 /\ counts (n + (length level - 1)) p'
    | Err e => e = FoldFailed
    end.
Proof.
  revert lvl n p level; induction fuel as [|fuel IH]; intros lvl n p level Hc H1 Hf Hmax;
    cbn [prove_levels fold_levels].
  - rewrite bool_decide_eq_true_2 by lia. eexists; split; [done|]. split; [done|]. split; [lia|].
    by replace (n + (length level - 1)) with n by lia.
  - case_bool_decide as Hle.
    + eexists; split; [done|]. split; [done|]. split; [lia|].
      by replace (n + (length level - 1)) with n by lia.
    + pose proof (prove_level_spec beacon cluster lvl n p level Hc Hmax) as Hl.
      destruct (prove_level _ _ _ _ _) as [[p1 next]|e]; [|by eexists].
      destruct Hl as [-> Hc1]. pose proof (fold_level_length fold_acc level ltac:(lia)) as Hlen.
      rewrite (fold_level_ext (fold_pair beacon cluster miner target lvl) fold_acc)
        by apply fold_pair_fold.
      destruct (IH (N.min (lvl + 1) u32_max) _ p1 (fold_level fold_acc level) Hc1) as (r & Hr & Hpost);
        [lia..|].
      exists r. split; [done|]. destruct r as [[p2 lv]|e]; [|done].
      destruct Hpost as (? & ? & Hc2). split; [done|]. split; [done|].
      by replace (n + (length level - 1)) with
        (n + (length level - length (fold_level fold_acc level)) + (length (fold_level fold_acc level) - 1)) by lia.
Qed.

Lemma batch_spec beacon cluster n p tickets :
  counts n p -> (N.of_nat (n + length tickets) <= u64_max)%N ->
  match try_fold (fun p t => stepped (fold_settlement p beacon cluster t)) tickets p with
  | Ok p' => counts (n + length tickets) p'
  | Err e => e = FoldFailed
  end.
Proof.
  revert n p; induction tickets as [|t tickets IH]; intros n p Hc Hmax; simpl.
  { by rewrite Nat.add_0_r. }
  simpl in Hmax. pose proof (fold_material_spec n p (settlement_material beacon cluster t) Hc ltac:(lia)) as Hf.
  unfold fold_settlement. destruct (stepped _) as [p1|e]; simpl; [|done].
  specialize (IH (S n) p1 Hf ltac:(lia)). by rewrite Nat.add_succ_r.
Qed.

(** A sealed batch verifies and counts its tickets. *)
Lemma prove_batch_spec beacon cluster tickets :
  tickets <> [] -> (N.of_nat (length tickets) <= u64_max)%N ->
  match prove_settlement_batch beacon cluster tickets with
  | Ok s => verify_fold_seal s = true /\ fs_steps s = N.of_nat (length tickets) /\
      fs_statement s = ticket_statement beacon cluster (N.of_nat (length tickets))
  | Err e => e = FoldFailed \/ e = DecideFailed
  end.
Proof.
  intros Hne Hmax. unfold prove_settlement_batch. destruct tickets as [|t tickets]; [done|].
  pose proof (batch_spec beacon cluster 0 prover_new (t :: tickets) counts_new Hmax) as Hb.
  destruct (try_fold _ _ _) as [p|e]; simpl; [|by left].
  rewrite as_u64_id by done.
  pose proof (seal_spec (length (t :: tickets)) p beacon cluster (N.of_nat (length (t :: tickets))) Hb
    ltac:(simpl; lia)) as Hs.
  destruct (seal _ _ _ _); [done | by right].
Qed.

Lemma prove_fold_tree_spec beacon cluster miner target leaves :
  leaves <> [] -> (N.of_nat (length leaves) <= u64_max)%N ->
  exists r, prove_fold_tree beacon cluster leaves = Some r /\
    match r with
    | Ok (root, s) => assemble_fold_tree beacon cluster miner leaves target = Some root /\
        verify_fold_seal s = true /\ fs_steps s = N.of_nat (Nat.max 1 (length leaves - 1)) /\
        fs_statement s = ticket_statement beacon cluster (ac_k root)
    | Err e => e = FoldFailed \/ e = DecideFailed
    end.
Proof.
  intros Hne Hmax. destruct leaves as [|a [|b rest]]; [done|..].
  - cbn [prove_fold_tree]. eexists. split; [done|]. unfold fold_step_material.
    pose proof (fold_material_spec 0 prover_new
      (fold_step_bytes beacon cluster 0 (pair_id a (acc_empty (length (ac_sum_m a)))) a
         (acc_empty (length (ac_sum_m a))) a) counts_new ltac:(unfold u64_max; lia)) as Hf.
    destruct (stepped _) as [p|e]; simpl; [|by left].
    pose proof (seal_spec 1 p beacon cluster (ac_k a) Hf ltac:(lia)) as Hs.
    destruct (seal _ _ _ _); simpl; [done | by right].
  - unfold prove_fold_tree, assemble_fold_tree.
    destruct (prove_levels_spec beacon cluster miner target (length (a :: b :: rest)) 0 0 prover_new
      (a :: b :: rest) counts_new) as (r & -> & Hr); [simpl; lia..|done|].
    eexists. split; [done|]. destruct r as [[p lv]|e]; [|by left].
    destruct Hr as (Hlv & Hl1 & Hc). rewrite Hlv. simpl.
    pose proof (seal_spec _ p beacon cluster (ac_k (default acc_default (head lv))) Hc ltac:(simpl; lia)) as Hs.
    destruct (seal _ _ _ _); simpl; [|by right].
    split; [done|]. destruct Hs as (? & -> & ?). split; [done|]. split; [|done].
    f_equal; simpl; lia.
Qed.

End seals.

(** ** Properties *)

Section seals_properties.
Context {HM : Hemera} {NB : Nebu} {FX : Fixed} {TR : Tru} {ZH : Zheng} {ZL : ZhengLaws}.

End seals_properties.

(** ** Witnesses *)

