(* ===== verification/Marginal.v ===== *)
(** * Marginal: certified marginals (src/marginal_cert.rs)

    [replay_marginals] recomputes a ticket's marginals from the public graph;
    [certify_ticket] replays and seals, [verify_certified_ticket] replays and
    checks.  Indexing inside [marginals] may panic, so every operation that
    replays is a [result] with that fault. *)

From S2P Require Import Prelude Order Bytes Externals Goldilocks Instances Settlement Tickets Seals.

Section marginal.
Context {HM : Hemera} {NB : Nebu} {FX : Fixed} {TR : Tru} {ZH : Zheng}.

Definition MARGINAL_PROG : particle :=
  default zero32 (list_to_arr 32 (str_bytes "foculus-marginal-cert-v1" ++ replicate 8 x00)).

Record certified_ticket := mk_certified {
  ce_ticket : settlement_ticket;
  ce_seal : fold_seal;
  ce_order : list nat
}.

Inductive cert_error := ReplayFailed | CProof (e : proof_error).

Definition same_raws (m published : list fx) : bool :=
  forallb (fun ab => (gf_as_u64 (fx_raw ab.1) =? gf_as_u64 (fx_raw ab.2))%N) (zip m published).

Definition replay_marginals (base : list link) (contribs : list contribution) (ctx : context)
    (params : focusing_params) (beacon : particle) (t : settlement_ticket)
    : result (fault Empty_set) (option (list fx)) :=
  let n := length contribs in
  if bool_decide (n = 0) || negb (bool_decide (length (tk_marginals t) = n)) then Ok None
  else
    let order := ordering n beacon (tk_nonce t) in
    m ← marginals base contribs order ctx params;
    if negb (bool_decide (commit_marginals m = tk_commitment t)) then Ok None
    else if negb (same_raws m (tk_marginals t)) then Ok None
    else Ok (Some m).

(** A fault of the replay is a fault of its caller. *)
Definition lift_fault {E A} (r : result (fault Empty_set) A) : result (fault E) A :=
  match r with
  | Ok a => Ok a
  | Err Panicked => Err Panicked
  | Err (Failed e) => match e with end
  end.

Definition certify_ticket (base : list link) (contribs : list contribution) (ctx : context)
    (params : focusing_params) (beacon cluster : particle) (t : settlement_ticket)
    : result (fault cert_error) certified_ticket :=
  let order := ordering (length contribs) beacon (tk_nonce t) in
  replayed ← lift_fault (replay_marginals base contribs ctx params beacon t);
  _ ← may_fail (ok_or ReplayFailed replayed);
  p ← may_fail (map_err CProof (stepped (fold_settlement prover_new beacon cluster t)));
  s ← may_fail (map_err CProof (seal p beacon cluster 1));
  if negb (verify_fold_seal s) then Err (Failed (CProof VerifyFailed))
  else Ok (mk_certified t s order).

Definition verify_certified_ticket (base : list link) (contribs : list contribution) (ctx : context)
    (params : focusing_params) (beacon cluster : particle) (target : N) (cert : certified_ticket)
    : result (fault Empty_set) bool :=
  let t := ce_ticket cert in
  let score := settle_score beacon cluster (tk_nonce t) (tk_miner t) (tk_commitment t) in
  if negb (score =? tk_score t)%N || (target <=? score)%N then Ok false
  else
    replayed ← replay_marginals base contribs ctx params beacon t;
    if negb (bool_decide (is_Some replayed)) then Ok false
    else if negb (verify_fold_seal (ce_seal cert)) then Ok false
    else
      let order := ordering (length contribs) beacon (tk_nonce t) in
      Ok (bool_decide (order = ce_order cert)).

Definition certify_batch (base : list link) (contribs : list contribution) (ctx : context)
    (params : focusing_params) (beacon cluster : particle) (tickets : list settlement_ticket)
    : result (fault cert_error) (list certified_ticket) :=
  collect (map (certify_ticket base contribs ctx params beacon cluster) tickets).

Definition replay_step (base : list link) (contribs : list contribution) (ctx : context)
    (params : focusing_params) (beacon : particle) (st : unit) (t : settlement_ticket)
    : result (fault cert_error) unit :=
  replayed ← lift_fault (replay_marginals base contribs ctx params beacon t);
  match replayed with None => Err (Failed ReplayFailed) | Some _ => Ok () end.

Definition prove_replayed_batch (base : list link) (contribs : list contribution) (ctx : context)
    (params : focusing_params) (beacon cluster : particle) (tickets : list settlement_ticket)
    : result (fault cert_error) fold_seal :=
  _ ← try_fold (replay_step base contribs ctx params beacon) tickets ();
  may_fail (map_err CProof (prove_settlement_batch beacon cluster tickets)).

Definition marginal_program_hash : particle := MARGINAL_PROG.

(** ** What replaying decides *)

(** The ticket lists and commits to the marginals of its nonce's ordering. *)
Definition genuine (base : list link) (contribs : list contribution) (ctx : context)
    (params : focusing_params) (beacon : particle) (t : settlement_ticket) : Prop :=
  contribs <> [] /\ commit_marginals (tk_marginals t) = tk_commitment t /\
  marginals base contribs (ordering (length contribs) beacon (tk_nonce t)) ctx params = Ok (tk_marginals t).

Context {FA : FxAddLaws} {NL : NebuLaws} {FR : FxRawLaws}.

Lemma same_raws_spec m published :
  length m = length published -> same_raws m published = true <-> m = published.
Proof.
  unfold same_raws. revert published; induction m as [|a m IH]; intros [|b published]; simpl; try done.
  intros [= Hl]. rewrite andb_true_iff, N.eqb_eq, IH by done. split; [|by intros [= -> ->]].
  intros [E ->]. f_equal. rewrite <-(fx_from_raw_raw a), <-(fx_from_raw_raw b).
  by rewrite <-(gf_new_as_u64 (fx_raw a)), <-(gf_new_as_u64 (fx_raw b)), E.
Qed.

Lemma replay_spec base contribs ctx params beacon t :
  exists r, replay_marginals base contribs ctx params beacon t = Ok r /\
    (r = None \/ r = Some (tk_marginals t)) /\
    (is_Some r <-> genuine base contribs ctx params beacon t).
Proof.
  unfold replay_marginals, genuine.
  destruct (marginals_ok base contribs ctx params (ordering (length contribs) beacon (tk_nonce t))
    (ordering_perm _ _ _)) as (m & Hm & Hlen & _).
  case_bool_decide as H0; simpl.
  { exists None. split; [done|]. split; [by left|]. split; [by intros []|]. intros [Hne _]. by destruct contribs. }
  case_bool_decide as Hl; simpl.
  2: { exists None. split; [done|]. split; [by left|]. split; [by intros []|].
       intros (_ & _ & Hm'). congruence. }
  rewrite Hm. simpl. case_bool_decide as Hc; simpl.
  - destruct (same_raws m (tk_marginals t)) eqn:Hs; simpl.
    + apply same_raws_spec in Hs as ->; [|congruence]. eexists. split; [done|]. split; [by right|].
      split; [|eauto]. intros _. split; [by intros -> | done].
    + exists None. split; [done|]. split; [by left|]. split; [by intros []|].
      intros (_ & _ & [= ->]). assert (same_raws (tk_marginals t) (tk_marginals t) = true); [|congruence].
      by apply same_raws_spec.
  - exists None. split; [done|]. split; [by left|]. split; [by intros []|].
    intros (_ & Hc' & [= ->]). done.
Qed.

Lemma replay_genuine base contribs ctx params beacon t :
  genuine base contribs ctx params beacon t ->
  replay_marginals base contribs ctx params beacon t = Ok (Some (tk_marginals t)).
Proof.
  intros Hg. destruct (replay_spec base contribs ctx params beacon t) as (r & -> & [->| ->] & Hr); [|done].
  by apply Hr in Hg as [? ?].
Qed.

Lemma replay_not_genuine base contribs ctx params beacon t :
  ~ genuine base contribs ctx params beacon t ->
  replay_marginals base contribs ctx params beacon t = Ok None.
Proof.
  intros Hg. destruct (replay_spec base contribs ctx params beacon t) as (r & -> & [->| ->] & Hr); [done|].
  destruct Hg. by apply Hr.
Qed.

Lemma replay_batch base contribs ctx params beacon tickets :
  try_fold (replay_step base contribs ctx params beacon) tickets () = Ok () /\
    Forall (genuine base contribs ctx params beacon) tickets \/
  try_fold (replay_step base contribs ctx params beacon) tickets () = Err (Failed ReplayFailed) /\
    ~ Forall (genuine base contribs ctx params beacon) tickets.
Proof.
  induction tickets as [|t tickets IH]; [by left|]. cbn [try_fold].
  destruct (replay_spec base contribs ctx params beacon t) as (r & E & _ & Hr).
  assert (replay_step base contribs ctx params beacon () t =
    match r with None => Err (Failed ReplayFailed) | Some _ => Ok () end) as ->.
  { unfold replay_step. by rewrite E. }
  destruct r as [m|]; simpl.
  - destruct IH as [[-> ?]|[-> Hn]]; [left|right]; (split; [done|]).
    + constructor; [by apply Hr | done].
    + by intros [_ ?]%Forall_cons.
  - right. split; [done|]. intros [Hg _]%Forall_cons. by apply Hr in Hg as [? ?].
Qed.

Lemma prove_replayed_genuine base contribs ctx params beacon cluster tickets :
  match prove_replayed_batch base contribs ctx params beacon cluster tickets with
  | Ok s => Forall (genuine base contribs ctx params beacon) tickets
  | Err e => e <> Panicked
  end.
Proof.
  unfold prove_replayed_batch.
  destruct (replay_batch base contribs ctx params beacon tickets) as [[-> Hg]|[-> Hg]]; simpl; [|done].
  by destruct (prove_settlement_batch _ _ _).
Qed.

Context {ZL : ZhengLaws}.

Lemma prove_replayed_spec base contribs ctx params beacon cluster tickets :
  tickets <> [] -> (N.of_nat (length tickets) <= u64_max)%N ->
  match prove_replayed_batch base contribs ctx params beacon cluster tickets with
  | Ok s => Forall (genuine base contribs ctx params beacon) tickets /\ verify_fold_seal s = true /\
      fs_statement s = ticket_statement beacon cluster (N.of_nat (length tickets))
  | Err (Failed ReplayFailed) => ~ Forall (genuine base contribs ctx params beacon) tickets
  | Err (Failed (CProof e)) => e = FoldFailed \/ e = DecideFailed
  | Err Panicked => False
  end.
Proof.
  intros Hne Hmax. unfold prove_replayed_batch.
  destruct (replay_batch base contribs ctx params beacon tickets) as [[-> Hg]|[-> Hg]]; simpl; [|done].
  pose proof (prove_batch_spec beacon cluster tickets Hne Hmax) as Hb.
  destruct (prove_settlement_batch _ _ _); simpl; [|done]. naive_solver.
Qed.
End marginal.

(** ** Properties *)

Section marginal_properties.
Context {HM : Hemera} {NB : Nebu} {FX : Fixed} {TR : Tru} {ZH : Zheng}.
Context {FA : FxAddLaws} {NL : NebuLaws} {FR : FxRawLaws} {ZL : ZhengLaws}.

Lemma verify_ticket_spec t beacon cluster target :
  verify_settlement_ticket t beacon cluster target = true <->
  commit_marginals (tk_marginals t) = tk_commitment t /\
  settle_score beacon cluster (tk_nonce t) (tk_miner t) (tk_commitment t) = tk_score t /\
  (settle_score beacon cluster (tk_nonce t) (tk_miner t) (tk_commitment t) < target)%N.
Proof.
  unfold verify_settlement_ticket. case_bool_decide as Hc; simpl; [|by split; [|intros [? _]]].
  rewrite andb_true_iff, N.eqb_eq, N.ltb_lt. split; [done|]. by intros [_ ?].
Qed.

Lemma verify_cert_spec base contribs ctx params beacon cluster target cert :
  exists b, verify_certified_ticket base contribs ctx params beacon cluster target cert = Ok b /\
    (b = true <-> verify_settlement_ticket (ce_ticket cert) beacon cluster target = true /\
     genuine base contribs ctx params beacon (ce_ticket cert) /\
     verify_fold_seal (ce_seal cert) = true /\
     ce_order cert = ordering (length contribs) beacon (tk_nonce (ce_ticket cert))).
Proof.
  setoid_rewrite verify_ticket_spec. unfold verify_certified_ticket. set (score := settle_score _ _ _ _ _).
  destruct (N.eqb_spec score (tk_score (ce_ticket cert))) as [Es|Ns]; simpl;
    [|exists false; split; [done|]; by split; [|intros [(_ & ? & _) _]]].
  destruct (N.leb_spec target score) as [Hle|Hlt]; simpl;
    [exists false; split; [done|]; split; [done|intros [(_ & _ & ?) _]; lia]|].
  destruct (replay_spec base contribs ctx params beacon (ce_ticket cert)) as (r & -> & _ & Hr). simpl.
  case_bool_decide as Hs; simpl.
  2: { exists false. split; [done|]. split; [done|]. intros (_ & Hg & _). by apply Hr in Hg. }
  apply Hr in Hs. destruct (verify_fold_seal (ce_seal cert)); simpl;
    [|exists false; split; [done|]; by split; [|intros (_ & _ & ? & _)]].
  eexists. split; [done|]. rewrite bool_decide_eq_true. split.
  - intros <-. split; [|done]. split; [apply Hs | done].
  - by intros (_ & _ & _ & ->).
Qed.

Lemma certify_spec base contribs ctx params beacon cluster t :
  match certify_ticket base contribs ctx params beacon cluster t with
  | Ok cert => genuine base contribs ctx params beacon t /\ ce_ticket cert = t /\
      verify_fold_seal (ce_seal cert) = true /\
      ce_order cert = ordering (length contribs) beacon (tk_nonce t)
  | Err (Failed ReplayFailed) => ~ genuine base contribs ctx params beacon t
  | Err (Failed (CProof e)) => e = FoldFailed \/ e = DecideFailed
  | Err Panicked => False
  end.
Proof.
  unfold certify_ticket. destruct (replay_spec base contribs ctx params beacon t) as (r & -> & _ & Hr). simpl.
  destruct r as [m|]; simpl; [|intros Hg; by apply Hr in Hg as [? ?]].
  pose proof (fold_material_spec 0 prover_new (settlement_material beacon cluster t) counts_new
    ltac:(unfold u64_max; lia)) as Hf. unfold fold_settlement.
  destruct (stepped _) as [p|e]; simpl; [|by left].
  pose proof (seal_spec 1 p beacon cluster 1 Hf ltac:(lia)) as Hs.
  destruct (seal _ _ _ _) as [s|e]; simpl; [|by right].
  destruct Hs as (Hv & _). rewrite Hv. simpl. split; [apply Hr; eauto | done].
Qed.

End marginal_properties.

(** ** Witnesses *)

Definition ex_genuine : settlement_ticket :=
  match try_settlement_ticket [] ex_contribs context_none params_default zero32 zero32 zero32 0 u64_max with
  | Ok (Some t) => t
  | _ => ex_ticket x01 0
  end.

