(* ===== verification/Rewards.v ===== *)
(** * Rewards: claims, settlement and the receipt (src/rewards.rs)

    Claims become ρ-weighted contributions ([contributions_with_rho]); an
    epoch is settled either by Monte-Carlo shares ([settle_epoch]) or by
    tickets and a fold tree ([settle_with_peer_accs]); [allocate_budget]
    splits the budget by the shares that tok conserves, and [verify_receipt]
    checks a receipt's hash and the artifacts it carries.  [None] is a fuel
    exhausted in the fold tree, which never happens. *)

From S2P Require Import Prelude Order Bytes Externals Goldilocks Instances Settlement Tickets Seals Marginal Beacon.

Section rewards.
Context {HM : Hemera} {NB : Nebu} {FX : Fixed} {TR : Tru} {ZH : Zheng} {TK : Tok}.

Record reward_claim := mk_claim {
  rc_id : particle;
  rc_neuron : particle;
  rc_links : list link;
  rc_belief : fx;
  rc_prediction : fx
}.

Record settled_share := mk_share { sh_neuron : particle; sh_share : fx; sh_amount : N }.

Record settle_receipt := mk_receipt {
  sr_epoch : N;
  sr_beacon : particle;
  sr_claims_root : particle;
  sr_receipt_hash : particle;
  sr_directed_total : fx;
  sr_budget : N;
  sr_shares : list settled_share;
  sr_beacon_artifact : option beacon_artifact;
  sr_ticket_seal : option fold_seal;
  sr_fold_seal : option fold_seal;
  sr_sample_count : N
}.

Inductive reward_error :=
| EmptyClaims
| NoPositiveShare
| BudgetZero
| NoTickets
| InsufficientPrecision (k k_min : N).

Record ticket_policy := mk_policy {
  po_want : nat;
  po_max_attempts : nat;
  po_start_nonce : N;
  po_settle_target : N;
  po_fold_target : N;
  po_miner : particle;
  po_precision_epsilon : fx;
  po_precision_delta : fx
}.

Definition policy_default : ticket_policy :=
  mk_policy 8 256 0 easy_target easy_target zero32 fx_one fx_one.

Definition valence_to_prediction (v : Z) : fx :=
  if (v =? 1)%Z then fx_from_ratio 3 4
  else if (v =? -1)%Z then fx_from_ratio 1 4
  else fx_from_ratio 1 2.

Definition claim_from_links (id neuron : particle) (links : list link) (valence : Z) : reward_claim :=
  mk_claim id neuron links (fx_from_ratio 3 4) (valence_to_prediction valence).

(** The largest score, at least one. *)
Definition score_max (scores : list fx) : fx :=
  let s_max := fold_left (fun m s => if fx_ltb m s then s else m) scores fx_one in
  if fx_leb s_max fx_zero then fx_one else s_max.

Definition claim_rhos (claims : list reward_claim) : list fx :=
  let reports := map (fun c => mk_report (rc_neuron c) (rc_belief c) (rc_prediction c)) claims in
  let scores := bts_scores reports in
  let s_max := score_max scores in
  let n := length claims in
  let rhos := if bool_decide (n < 2) then [fx_one] else map (fun s => surprise_of s s_max) scores in
  if bool_decide (2 <= n) && forallb (fun r => fx_leb r fx_zero) rhos then replicate n fx_one else rhos.

Definition contributions_with_rho (claims : list reward_claim)
    : result (fault Empty_set) (list contribution) :=
  let rhos := claim_rhos claims in
  collect (map (fun ic =>
    rho ← index_or_panic rhos ic.1;
    Ok (mk_contribution (rc_neuron ic.2) (rc_links ic.2) rho))
    (zip (seq 0 (length claims)) claims)).

Definition propose_claim (base : list link) (claim : reward_claim) (ctx : context)
    (params : focusing_params) : fx :=
  propose base (rc_links claim) ctx params.

(** ** Splitting the budget *)

Definition fx_weight (x : fx) : N := if fx_leb x fx_zero then 0%N else gf_as_u64 (fx_raw x).

(** The loop over the conserved shares; [rest = []] is [i + 1 == len].  The
    products and the sum of weights stay below [2^128], the amounts at most
    the budget, so the unchecked arithmetic of the source never wraps. *)
Fixpoint alloc_loop (budget sum_w allocated : N) (conserved : list (particle * fx)) : list settled_share :=
  match conserved with
  | [] => []
  | (neuron, share) :: rest =>
      let w := fx_weight share in
      let '(amt, allocated) :=
        if bool_decide (rest = []) then (sat_sub64 budget allocated, allocated)
        else let a := as_u64 (w * budget / sum_w) in (a, sat_add64 allocated a) in
      mk_share neuron share (if (w =? 0)%N then 0 else amt)%N :: alloc_loop budget sum_w allocated rest
  end.

Definition zero_weightless (s : settled_share) : settled_share :=
  if (fx_weight (sh_share s) =? 0)%N then mk_share (sh_neuron s) (sh_share s) 0 else s.

(** The remainder goes to the first share of positive weight. *)
Fixpoint add_first (extra : N) (out : list settled_share) : list settled_share :=
  match out with
  | [] => []
  | s :: out =>
      if (0 <? fx_weight (sh_share s))%N
      then mk_share (sh_neuron s) (sh_share s) (sat_add64 (sh_amount s) extra) :: out
      else s :: add_first extra out
  end.

Definition sum_N (l : list N) : N := foldr N.add 0%N l.

Definition clip_error (e : conserve_error) : reward_error :=
  match e with CEmpty => EmptyClaims | CNoPositiveShare => NoPositiveShare | CBudgetZero => BudgetZero end.

Definition allocate_budget (raw : list (particle * fx)) (budget : N) (directed_total : fx)
    : result reward_error (list settled_share) :=
  conserved ← map_err clip_error (clip_shares raw directed_total);
  let sum_w := sum_N (map (fun s => fx_weight s.2) conserved) in
  if (sum_w =? 0)%N then Err NoPositiveShare
  else
    let out := map zero_weightless (alloc_loop budget sum_w 0 conserved) in
    let paid := sum_N (map sh_amount out) in
    Ok (if (paid <? budget)%N then add_first (budget - paid) out else out).

Definition allocate_budget_pub := allocate_budget.

(** ** Receipts *)

Definition share_bytes (s : settled_share) : list byte := arr_bytes (sh_neuron s) ++ u64_le (sh_amount s).

Definition receipt_bytes (epoch : N) (beacon : particle) (shares : list settled_share) : list byte :=
  u64_le epoch ++ arr_bytes beacon ++ concat (map share_bytes (sort_by sh_neuron shares)).
Definition receipt_hash (epoch : N) (beacon : particle) (shares : list settled_share) : particle :=
  hemera_hash (receipt_bytes epoch beacon shares).
Definition receipt_hash_pub := receipt_hash.

Definition seal_ok (s : option fold_seal) : bool :=
  match s with Some s => verify_fold_seal s | None => true end.

Definition verify_receipt (r : settle_receipt) : bool :=
  if negb (bool_decide (sr_receipt_hash r = receipt_hash (sr_epoch r) (sr_beacon r) (sr_shares r)))
  then false
  else if match sr_beacon_artifact r with
          | Some art => negb (verify_beacon art) || negb (bool_decide (ba_beacon art = sr_beacon r))
          | None => false
          end then false
  else if negb (seal_ok (sr_ticket_seal r)) then false
  else if negb (seal_ok (sr_fold_seal r)) then false
  else true.

Definition share_of (r : settle_receipt) (neuron : particle) : N :=
  from_option sh_amount 0%N (List.find (fun s => bool_decide (sh_neuron s = neuron)) (sr_shares r)).

Definition DEFAULT_EMISSION_SCALE : N := 1000000000.

Definition mint_receipt_to_ledger (ledger : mint_ledger) (token : token_id) (r : settle_receipt)
    (emission_scale : N) : mint_ledger * result mint_error mint_receipt :=
  let raw := map (fun s => (sh_neuron s, sh_share s)) (sr_shares r) in
  execute_settle_mints ledger token raw (sr_directed_total r) emission_scale (sr_budget r)
    (sr_receipt_hash r).

(** ** Settling an epoch *)

(** Guards, claims root and quiet beacon, shared by both paths. *)
Definition open_epoch (epoch : N) (prev_beacon : particle) (claims : list reward_claim) (budget : N)
    : result (fault reward_error) (particle * beacon_artifact) :=
  match claims with
  | [] => Err (Failed EmptyClaims)
  | _ =>
      if (budget =? 0)%N then Err (Failed BudgetZero)
      else
        let cr := claims_root (map rc_id claims) in
        let art := open_beacon epoch prev_beacon cr [] TEST_OUTER_T in
        if negb (verify_beacon art) then Err (Failed NoTickets) else Ok (cr, art)
  end.

(** Contributions and the impulse of all claims together. *)
Definition weigh_claims (base : list link) (claims : list reward_claim) (ctx : context)
    (params : focusing_params) : result (fault reward_error) (list contribution * fx) :=
  contribs ← lift_fault (contributions_with_rho claims);
  let all_links := concat (map rc_links claims) in
  Ok (contribs, impulse_directed base all_links ctx params (params_epsilon params)).

Definition settle_epoch (epoch : N) (prev_beacon : particle) (base : list link)
    (claims : list reward_claim) (ctx : context) (params : focusing_params) (samples : nat) (budget : N)
    : result (fault reward_error) settle_receipt :=
  '(cr, art) ← open_epoch epoch prev_beacon claims budget;
  let b_e := ba_beacon art in
  '(contribs, directed_total) ← weigh_claims base claims ctx params;
  raw_shares ← lift_fault (shapley base contribs ctx params samples b_e);
  shares ← may_fail (allocate_budget raw_shares budget directed_total);
  Ok {| sr_epoch := epoch; sr_beacon := b_e; sr_claims_root := cr;
        sr_receipt_hash := receipt_hash epoch b_e shares;
        sr_directed_total := directed_total; sr_budget := budget; sr_shares := shares;
        sr_beacon_artifact := Some art; sr_ticket_seal := None; sr_fold_seal := None;
        sr_sample_count := N.of_nat samples |}.

(** Replaying and sealing the local tickets, if there are any. *)
Definition seal_tickets (base : list link) (contribs : list contribution) (ctx : context)
    (params : focusing_params) (b_e cr : particle) (tickets : list settlement_ticket)
    : result (fault reward_error) (option fold_seal) :=
  match tickets with
  | [] => Ok None
  | _ =>
      match prove_replayed_batch base contribs ctx params b_e cr tickets with
      | Err Panicked => Err Panicked
      | Err (Failed _) => Err (Failed NoTickets)
      | Ok s => if negb (verify_fold_seal s) then Err (Failed NoTickets) else Ok (Some s)
      end
  end.

(** The proven fold tree, or the plain assembly when proving fails. *)
Definition fold_leaves (b_e cr : particle) (policy : ticket_policy) (leaves : list cluster_acc)
    : option (cluster_acc * option fold_seal) :=
  proved ← prove_fold_tree b_e cr leaves;
  let assembled :=
    r ← assemble_fold_tree b_e cr (po_miner policy) leaves (po_fold_target policy);
    Some (r, None) in
  match proved with
  | Ok (r, s) => if verify_fold_seal s then Some (r, Some s) else assembled
  | Err _ => assembled
  end.

Definition settle_with_peer_accs (epoch : N) (prev_beacon : particle) (base : list link)
    (claims : list reward_claim) (ctx : context) (params : focusing_params) (budget : N)
    (policy : ticket_policy) (peer_accs : list cluster_acc)
    : option (result (fault reward_error) settle_receipt) :=
  let prefix :=
    '(cr, art) ← open_epoch epoch prev_beacon claims budget;
    let b_e := ba_beacon art in
    '(contribs, directed_total) ← weigh_claims base claims ctx params;
    tickets ← lift_fault (grind_settlement base contribs ctx params b_e cr (po_miner policy)
                (po_start_nonce policy) (po_max_attempts policy) (po_want policy) (po_settle_target policy));
    if bool_decide (tickets = []) && bool_decide (peer_accs = []) then Err (Failed NoTickets)
    else
      ticket_seal ← seal_tickets base contribs ctx params b_e cr tickets;
      Ok (cr, art, contribs, directed_total, tickets, ticket_seal) in
  match prefix with
  | Err e => Some (Err e)
  | Ok (cr, art, contribs, directed_total, tickets, ticket_seal) =>
      let b_e := ba_beacon art in
      let local := self_fold (length contribs) tickets in
      '(root, fold_seal) ← fold_leaves b_e cr policy (local :: peer_accs);
      Some (
        if (ac_k root =? 0)%N then Err (Failed NoTickets)
        else if negb (meets_precision root (po_precision_epsilon policy) (po_precision_delta policy))
        then Err (Failed (InsufficientPrecision (ac_k root)
               (k_min (po_precision_epsilon policy) (po_precision_delta policy))))
        else
          let raw_shares := mean_shares root (map cb_neuron contribs) in
          shares ← may_fail (allocate_budget raw_shares budget directed_total);
          Ok {| sr_epoch := epoch; sr_beacon := b_e; sr_claims_root := cr;
                sr_receipt_hash := receipt_hash epoch b_e shares;
                sr_directed_total := directed_total; sr_budget := budget; sr_shares := shares;
                sr_beacon_artifact := Some art; sr_ticket_seal := ticket_seal;
                sr_fold_seal := fold_seal; sr_sample_count := ac_k root |})
  end.

Definition settle_epoch_tickets (epoch : N) (prev_beacon : particle) (base : list link)
    (claims : list reward_claim) (ctx : context) (params : focusing_params) (budget : N)
    (policy : ticket_policy) : option (result (fault reward_error) settle_receipt) :=
  settle_with_peer_accs epoch prev_beacon base claims ctx params budget policy [].

Definition banded_settle_target (policy : ticket_policy) (claims : list reward_claim) (base_n : nat)
    : result (fault Empty_set) N :=
  contribs ← contributions_with_rho claims;
  Ok (banded_target (po_settle_target policy) (length contribs) base_n).

Definition settle_epoch_tickets_banded (epoch : N) (prev_beacon : particle) (base : list link)
    (claims : list reward_claim) (ctx : context) (params : focusing_params) (budget : N)
    (policy : ticket_policy) (base_n : nat) : option (result (fault reward_error) settle_receipt) :=
  match banded_settle_target policy claims base_n with
  | Err Panicked => Some (Err Panicked)
  | Err (Failed e) => match e with end
  | Ok target =>
      let banded := mk_policy (po_want policy) (po_max_attempts policy) (po_start_nonce policy) target
        (po_fold_target policy) (po_miner policy) (po_precision_epsilon policy) (po_precision_delta policy) in
      settle_epoch_tickets epoch prev_beacon base claims ctx params budget banded
  end.

End rewards.

(** ** The budget split *)

Section budget.
Context {HM : Hemera} {NB : Nebu} {FX : Fixed} {TR : Tru} {ZH : Zheng} {TK : Tok}.

Definition share_key (s : settled_share) : particle * fx := (sh_neuron s, sh_share s).

(** The proportional amount, rounded down. *)
Definition floor_of (budget sum_w : N) (share : fx) : N := (fx_weight share * budget / sum_w)%N.
Definition floors (budget sum_w : N) (l : list (particle * fx)) : N :=
  sum_N (map (fun s => floor_of budget sum_w s.2) l).
Definition total_weight (l : list (particle * fx)) : N := sum_N (map (fun s => fx_weight s.2) l).

Definition at_floor (budget sum_w : N) (s : settled_share) : Prop :=
  sh_amount s = floor_of budget sum_w (sh_share s).
(** At most [extra] above the floor, and nothing without weight. *)
Definition near_floor (budget sum_w extra : N) (s : settled_share) : Prop :=
  (floor_of budget sum_w (sh_share s) <= sh_amount s <= floor_of budget sum_w (sh_share s) + extra)%N /\
  (fx_weight (sh_share s) = 0%N -> sh_amount s = 0%N).

Lemma floor_of_zero budget sum_w share : fx_weight share = 0%N -> floor_of budget sum_w share = 0%N.
Proof. unfold floor_of. intros ->. by rewrite N.mul_0_l, N.Div0.div_0_l. Qed.

Lemma floors_bounds budget sum_w l :
  (0 < sum_w)%N ->
  (sum_w * floors budget sum_w l <= budget * total_weight l)%N /\
  (budget * total_weight l <= sum_w * (floors budget sum_w l + N.of_nat (length l)))%N.
Proof.
  intros Hw. unfold floors, total_weight, sum_N, floor_of. induction l as [|[n s] l [IH1 IH2]]; simpl; [lia|].
  rewrite Nat2N.inj_succ.
  pose proof (N.div_mod (fx_weight s * budget) sum_w ltac:(lia)).
  pose proof (N.mod_lt (fx_weight s * budget) sum_w ltac:(lia)).
  set (q := (_ / _)%N) in *. set (r := (_ mod _)%N) in *. clearbody q r.
  nia.
Qed.

Lemma floors_le budget l : (0 < total_weight l)%N -> (floors budget (total_weight l) l <= budget)%N.
Proof. intros Hw. pose proof (floors_bounds budget _ l Hw). nia. Qed.

Lemma budget_le_floors budget l :
  (0 < total_weight l)%N -> (budget <= floors budget (total_weight l) l + N.of_nat (length l))%N.
Proof. intros Hw. pose proof (floors_bounds budget _ l Hw). nia. Qed.

Lemma alloc_loop_spec budget sum_w allocated l :
  is_u64 budget -> l <> [] -> (allocated + floors budget sum_w l <= budget)%N ->
  let out := alloc_loop budget sum_w allocated l in
  map share_key out = l /\
  ((sum_N (map sh_amount out) = (budget - allocated)%N /\
    Forall (near_floor budget sum_w (budget - (allocated + floors budget sum_w l))) out) \/
   Forall (at_floor budget sum_w) out).
Proof.
  intros Hb. revert allocated; induction l as [|[neuron share] l IH]; intros allocated Hne Hle; [done|].
  unfold floors in Hle. cbn [map sum_N foldr snd] in Hle.
  change (foldr N.add 0%N (map (fun s => floor_of budget sum_w s.2) l)) with (floors budget sum_w l) in Hle.
  cbn [alloc_loop]. destruct (decide (l = [])) as [->|Hl].
  - rewrite bool_decide_eq_true_2 by done. cbn [alloc_loop map share_key sh_neuron sh_share]. split; [done|].
    unfold floors in *. cbn [map sum_N foldr snd] in *. unfold sat_sub64.
    destruct (N.eqb_spec (fx_weight share) 0) as [H0|H0].
    + right. repeat constructor. unfold at_floor; simpl. symmetry. by apply floor_of_zero.
    + left. split; [simpl; lia|]. repeat constructor; simpl; [lia..|done].
  - rewrite bool_decide_eq_false_2 by done.
    assert (as_u64 (fx_weight share * budget / sum_w) = floor_of budget sum_w share) as Ha.
    { apply as_u64_id. unfold is_u64 in *. change (floor_of budget sum_w share <= u64_max)%N. lia. }
    rewrite Ha, sat_add64_exact by (unfold is_u64 in Hb; lia).
    destruct (IH (allocated + floor_of budget sum_w share)%N Hl ltac:(lia)) as [Hk Hcase].
    cbn [map]. rewrite Hk. split; [done|].
    assert ((if fx_weight share =? 0 then 0 else floor_of budget sum_w share)%N = floor_of budget sum_w share) as ->.
    { destruct (N.eqb_spec (fx_weight share) 0); [|done]. by rewrite floor_of_zero. }
    destruct Hcase as [[Hs Hn]|Hf]; [left|right].
    + split; [cbn [sum_N foldr sh_amount]; unfold sum_N in Hs; lia|].
      unfold floors at 1. cbn [map sum_N foldr snd].
      change (foldr N.add 0%N (map (fun s => floor_of budget sum_w s.2) l)) with (floors budget sum_w l).
      rewrite N.add_assoc. constructor; [|done]. split; simpl; [lia|].
      intros H0. by apply floor_of_zero.
    + by constructor.
Qed.

Lemma zero_weightless_id budget sum_w extra out :
  Forall (near_floor budget sum_w extra) out -> map zero_weightless out = out.
Proof.
  induction 1 as [|s out [_ Hz] _ IH]; simpl; [done|]. rewrite IH. f_equal. unfold zero_weightless.
  destruct (N.eqb_spec (fx_weight (sh_share s)) 0) as [E|]; [|done]. rewrite <-(Hz E). by destruct s.
Qed.

Lemma at_floor_near budget sum_w extra s : at_floor budget sum_w s -> near_floor budget sum_w extra s.
Proof. unfold at_floor. intros E. split; [lia|]. rewrite E. apply floor_of_zero. Qed.

Lemma at_floor_sum budget sum_w out :
  Forall (at_floor budget sum_w) out ->
  sum_N (map sh_amount out) = floors budget sum_w (map share_key out).
Proof.
  unfold floors, sum_N. induction 1 as [|s out Hs _ IH]; simpl; [done|]. by rewrite IH, Hs.
Qed.

Lemma add_first_key extra out : map share_key (add_first extra out) = map share_key out.
Proof. induction out as [|s out IH]; simpl; [done|]. case_match; simpl; [done|by rewrite IH]. Qed.

Lemma add_first_spec budget sum_w extra out :
  Forall (at_floor budget sum_w) out -> (sum_N (map sh_amount out) + extra <= u64_max)%N ->
  (0 < total_weight (map share_key out))%N ->
  sum_N (map sh_amount (add_first extra out)) = (sum_N (map sh_amount out) + extra)%N /\
  Forall (near_floor budget sum_w extra) (add_first extra out).
Proof.
  unfold total_weight, sum_N. induction 1 as [|s out Hs Hout IH]; simpl; [lia|]. intros Hmax Hw.
  destruct (N.ltb_spec 0 (fx_weight (sh_share s))) as [Hp|Hz]; simpl.
  - rewrite sat_add64_exact by lia. split; [lia|]. constructor.
    + unfold at_floor in Hs. split; simpl; [lia|]. lia.
    + eapply Forall_impl; [exact Hout|]. apply at_floor_near.
  - destruct IH as [IH1 IH2]; [lia..|]. split; [lia|].
    constructor; [by apply at_floor_near | done].
Qed.

Lemma allocate_spec raw budget total :
  is_u64 budget ->
  match allocate_budget raw budget total with
  | Ok out => exists conserved, clip_shares raw total = Ok conserved /\ (0 < total_weight conserved)%N /\
      map share_key out = conserved /\ sum_N (map sh_amount out) = budget /\
      Forall (near_floor budget (total_weight conserved) (N.of_nat (length conserved))) out
  | Err e => (exists ce, clip_shares raw total = Err ce /\ e = clip_error ce) \/
      exists conserved, clip_shares raw total = Ok conserved /\ total_weight conserved = 0%N /\
        e = NoPositiveShare
  end.
Proof.
  intros Hb. unfold allocate_budget. destruct (clip_shares raw total) as [l|ce]; simpl; [|left; eauto].
  change (sum_N (map (fun s => fx_weight s.2) l)) with (total_weight l).
  destruct (N.eqb_spec (total_weight l) 0) as [H0|Hpos]; [right; eauto|].
  assert (0 < total_weight l)%N as Hw by lia.
  assert (l <> []) as Hne by (intros ->; done).
  pose proof (floors_le budget l Hw) as Hle. pose proof (budget_le_floors budget l Hw) as Hge.
  destruct (alloc_loop_spec budget (total_weight l) 0 l Hb Hne Hle) as [Hk Hcase].
  exists l. split; [done|]. split; [done|]. set (out := alloc_loop _ _ _ _) in *.
  assert (forall extra, (extra <= N.of_nat (length l))%N -> forall out,
    Forall (near_floor budget (total_weight l) extra) out ->
    Forall (near_floor budget (total_weight l) (N.of_nat (length l))) out) as Hweak.
  { intros extra Hx o Ho. eapply Forall_impl; [exact Ho|]. intros s [? ?]. split; [lia|done]. }
  destruct Hcase as [[Hs Hn]|Hf].
  - rewrite (zero_weightless_id _ _ _ _ Hn), Hs, N.sub_0_r, (proj2 (N.ltb_ge budget budget)) by lia.
    split; [done|]. split; [lia|]. eapply Hweak; [|exact Hn]. lia.
  - rewrite (zero_weightless_id budget (total_weight l) 0)
      by (eapply Forall_impl; [exact Hf|]; apply at_floor_near).
    pose proof (at_floor_sum _ _ _ Hf) as Hs. rewrite Hk in Hs. rewrite Hs.
    destruct (N.ltb_spec (floors budget (total_weight l) l) budget) as [Hlt|Hge2].
    + destruct (add_first_spec budget (total_weight l) (budget - floors budget (total_weight l) l) out Hf)
        as [Hsum Hnear]; [unfold is_u64 in Hb; lia|by rewrite Hk|].
      rewrite add_first_key. split; [done|]. split; [lia|]. eapply Hweak; [|exact Hnear]. lia.
    + split; [done|]. split; [lia|]. apply (Hweak 0%N); [lia|].
      eapply Forall_impl; [exact Hf|]. apply at_floor_near.
Qed.
End budget.

(** ** Settling *)

Section settling.
Context {HM : Hemera} {NB : Nebu} {FX : Fixed} {TR : Tru} {ZH : Zheng} {TK : Tok}.
Context {FA : FxAddLaws} {NL : NebuLaws} {FR : FxRawLaws} {TL : TruLaws} {ZL : ZhengLaws}.

Lemma claim_rhos_length claims : length claims <= length (claim_rhos claims).
Proof.
  unfold claim_rhos. destruct (decide (length claims < 2)) as [Hn|Hn].
  - rewrite (bool_decide_eq_false_2 (2 <= length claims)), (bool_decide_eq_true_2 (length claims < 2)) by lia.
    simpl. lia.
  - rewrite (bool_decide_eq_false_2 (length claims < 2)) by done.
    destruct (bool_decide (2 <= _) && _); [by rewrite length_replicate|].
    by rewrite length_map, bts_scores_length, length_map.
Qed.

Lemma contributions_ok claims :
  exists contribs, contributions_with_rho claims = Ok contribs /\ length contribs = length claims.
Proof.
  unfold contributions_with_rho.
  assert (exists contribs, collect (map (fun ic => rho ← index_or_panic (claim_rhos claims) ic.1;
    Ok (mk_contribution (rc_neuron ic.2) (rc_links ic.2) rho)) (zip (seq 0 (length claims)) claims))
    = Ok contribs :> result (fault Empty_set) _) as [contribs E].
  - apply collect_is_Ok. intros [i c] (j & Hj)%list_elem_of_lookup.
    apply lookup_zip_Some in Hj as [Hi Hc]. apply lookup_seq in Hi as [-> Hlt]. simpl.
    destruct (lookup_lt_is_Some_2 (claim_rhos claims) j) as [rho Hr].
    { pose proof (claim_rhos_length claims). lia. }
    rewrite (index_or_panic_Some _ _ _ Hr). simpl. eauto.
  - exists contribs. split; [done|]. apply collect_map_ok, Forall2_length in E.
    rewrite length_zip_with, length_seq, Nat.min_id in E. done.
Qed.

Lemma weigh_ok base claims ctx params :
  exists contribs total, weigh_claims base claims ctx params = Ok (contribs, total).
Proof.
  unfold weigh_claims. destruct (contributions_ok claims) as (contribs & -> & _). simpl. eauto.
Qed.

Lemma grind_ok base contribs ctx params beacon cluster miner start attempts want target :
  exists out, grind_settlement base contribs ctx params beacon cluster miner start attempts want target = Ok out /\
    length out <= want.
Proof.
  unfold grind_settlement.
  destruct (grind_loop_spec (fun nonce => try_settlement_ticket base contribs ctx params beacon cluster miner nonce target)
    (honest_ticket base contribs ctx params beacon cluster miner target) start want 0 attempts [])
    as (new & E & _ & Hl & _); [intros nonce; apply try_ticket_ok|done|simpl; lia|eauto].
Qed.

Lemma open_epoch_spec epoch prev claims budget :
  match open_epoch epoch prev claims budget with
  | Ok (cr, art) => cr = claims_root (map rc_id claims) /\ ba_epoch art = epoch /\
      ba_claims_root art = cr /\ verify_beacon art = true /\ budget <> 0%N
  | Err e => e <> Panicked
  end.
Proof.
  unfold open_epoch. destruct claims as [|c claims]; [done|]. destruct (N.eqb_spec budget 0); [done|].
  destruct (verify_beacon _) eqn:Hv; cbn [negb]; [|done]. by split_and!.
Qed.

Lemma seal_tickets_spec base contribs ctx params b_e cr tickets :
  match seal_tickets base contribs ctx params b_e cr tickets with
  | Ok s => seal_ok s = true /\ (tickets <> [] -> is_Some s) /\
      Forall (genuine base contribs ctx params b_e) tickets
  | Err e => e <> Panicked
  end.
Proof.
  unfold seal_tickets. destruct tickets as [|t tickets]; [by repeat constructor|].
  pose proof (prove_replayed_genuine base contribs ctx params b_e cr (t :: tickets)) as Hg.
  destruct (prove_replayed_batch _ _ _ _ _ _ _) as [s|[]]; [|done|done].
  destruct (verify_fold_seal s) eqn:Hv; cbn [negb]; [|done]. split; [done|]. split; [eauto|done].
Qed.

Lemma fold_leaves_spec b_e cr policy leaves :
  leaves <> [] -> (N.of_nat (length leaves) <= u64_max)%N ->
  exists root s, fold_leaves b_e cr policy leaves = Some (root, s) /\ seal_ok s = true /\
    assemble_fold_tree b_e cr (po_miner policy) leaves (po_fold_target policy) = Some root.
Proof.
  intros Hne Hmax. unfold fold_leaves.
  destruct (prove_fold_tree_spec b_e cr (po_miner policy) (po_fold_target policy) leaves Hne Hmax)
    as (r & -> & Hr). simpl.
  destruct r as [[root s]|e]; simpl.
  - destruct Hr as (Ha & Hv & _). rewrite Hv. by exists root, (Some s).
  - destruct (assemble_total b_e cr (po_miner policy) leaves (po_fold_target policy)) as [root E].
    rewrite E. simpl. by exists root, None.
Qed.

(** The receipt verifies, is about the frozen claims and pays the budget. *)
Definition sound_receipt (epoch budget : N) (claims : list reward_claim) (r : settle_receipt) : Prop :=
  verify_receipt r = true /\ sr_epoch r = epoch /\ sr_budget r = budget /\
  sr_claims_root r = claims_root (map rc_id claims) /\
  (exists art, sr_beacon_artifact r = Some art /\ verify_beacon art = true /\
     ba_epoch art = epoch /\ ba_claims_root art = sr_claims_root r) /\
  sum_N (map sh_amount (sr_shares r)) = budget.

(** The record both paths build is sound. *)
Lemma receipt_sound epoch budget claims art total shares tseal fseal k :
  ba_epoch art = epoch -> ba_claims_root art = claims_root (map rc_id claims) -> verify_beacon art = true ->
  seal_ok tseal = true -> seal_ok fseal = true -> sum_N (map sh_amount shares) = budget ->
  sound_receipt epoch budget claims
    {| sr_epoch := epoch; sr_beacon := ba_beacon art; sr_claims_root := claims_root (map rc_id claims);
       sr_receipt_hash := receipt_hash epoch (ba_beacon art) shares;
       sr_directed_total := total; sr_budget := budget; sr_shares := shares;
       sr_beacon_artifact := Some art; sr_ticket_seal := tseal; sr_fold_seal := fseal;
       sr_sample_count := k |}.
Proof.
  intros He Hc Hv Ht Hf Hs. split; [|naive_solver]. unfold verify_receipt; simpl.
  rewrite bool_decide_eq_true_2, Hv, bool_decide_eq_true_2, Ht, Hf by done. done.
Qed.

Lemma allocate_not_panicked raw budget total :
  is_u64 budget ->
  match may_fail (allocate_budget raw budget total) with
  | Ok shares => sum_N (map sh_amount shares) = budget
  | Err e => e <> Panicked
  end.
Proof.
  intros Hb. pose proof (allocate_spec raw budget total Hb) as H.
  destruct (allocate_budget raw budget total); simpl; [|done]. by destruct H as (? & _ & _ & _ & ? & _).
Qed.

Lemma settle_epoch_spec epoch prev base claims ctx params samples budget :
  is_u64 budget ->
  match settle_epoch epoch prev base claims ctx params samples budget with
  | Ok r => sound_receipt epoch budget claims r
  | Err e => e <> Panicked
  end.
Proof.
  intros Hb. unfold settle_epoch. pose proof (open_epoch_spec epoch prev claims budget) as Ho.
  destruct (open_epoch _ _ _ _) as [[cr art]|]; simpl; [|done]. destruct Ho as (-> & He & Hc & Hv & _).
  destruct (weigh_ok base claims ctx params) as (contribs & total & ->). simpl.
  destruct (shapley_ok base contribs ctx params samples (ba_beacon art)) as (raw & -> & _). simpl.
  pose proof (allocate_not_panicked raw budget total Hb) as Ha.
  destruct (may_fail _); simpl; [|done]. by apply receipt_sound.
Qed.

Lemma settle_with_peers_spec epoch prev base claims ctx params budget policy peers :
  is_u64 budget -> (N.of_nat (S (length peers)) <= u64_max)%N ->
  exists o, settle_with_peer_accs epoch prev base claims ctx params budget policy peers = Some o /\
    match o with
    | Ok r => sound_receipt epoch budget claims r /\ sr_sample_count r <> 0%N /\
        (k_min (po_precision_epsilon policy) (po_precision_delta policy) <= sr_sample_count r)%N
    | Err e => e <> Panicked
    end.
Proof.
  intros Hb Hp. unfold settle_with_peer_accs. pose proof (open_epoch_spec epoch prev claims budget) as Ho.
  destruct (open_epoch _ _ _ _) as [[cr art]|]; simpl; [|by eexists; split]. destruct Ho as (-> & He & Hc & Hv & _).
  destruct (weigh_ok base claims ctx params) as (contribs & total & ->). simpl.
  destruct (grind_ok base contribs ctx params (ba_beacon art) (claims_root (map rc_id claims)) (po_miner policy)
    (po_start_nonce policy) (po_max_attempts policy) (po_want policy) (po_settle_target policy))
    as (tickets & -> & _). simpl.
  destruct (_ && _); simpl; [by eexists; split|].
  pose proof (seal_tickets_spec base contribs ctx params (ba_beacon art) (claims_root (map rc_id claims)) tickets)
    as Ht.
  destruct (seal_tickets _ _ _ _ _ _ _) as [tseal|]; simpl; [|by eexists; split]. destruct Ht as [Ht _].
  destruct (fold_leaves_spec (ba_beacon art) (claims_root (map rc_id claims)) policy
    (self_fold (length contribs) tickets :: peers) ltac:(done) Hp) as (root & fseal & -> & Hf & _). simpl.
  eexists. split; [done|]. destruct (N.eqb_spec (ac_k root) 0) as [|Hk]; [done|].
  unfold meets_precision. destruct (N.leb_spec (k_min (po_precision_epsilon policy) (po_precision_delta policy))
    (ac_k root)); simpl; [|done].
  pose proof (allocate_not_panicked (mean_shares root (map cb_neuron contribs)) budget total Hb) as Ha.
  destruct (may_fail _); simpl; [|done]. split; [by apply receipt_sound | done].
Qed.
End settling.

(** ** Receipts *)

Section receipts.
Context {HM : Hemera} {NB : Nebu} {FX : Fixed} {TR : Tru} {ZH : Zheng} {TK : Tok}.

(** What the hash covers of a share. *)
Definition payment (s : settled_share) : particle * N := (sh_neuron s, sh_amount s).
Definition payment_bytes (p : particle * N) : list byte := arr_bytes p.1 ++ u64_le p.2.

Lemma receipt_bytes_payments epoch beacon shares :
  receipt_bytes epoch beacon shares =
  u64_le epoch ++ arr_bytes beacon ++ concat (map payment_bytes (sort_by fst (map payment shares))).
Proof.
  unfold receipt_bytes. rewrite <-(sort_by_map sh_neuron fst payment) by done. by rewrite map_map.
Qed.

Lemma payment_bytes_length p : length (payment_bytes p) = 40.
Proof. unfold payment_bytes. by autorewrite with foculus_rw. Qed.

Lemma receipt_bytes_inj e1 b1 s1 e2 b2 s2 :
  is_u64 e1 -> is_u64 e2 -> Forall (fun s => is_u64 (sh_amount s)) s1 -> Forall (fun s => is_u64 (sh_amount s)) s2 ->
  receipt_bytes e1 b1 s1 = receipt_bytes e2 b2 s2 ->
  e1 = e2 /\ b1 = b2 /\ map payment s1 ≡ₚ map payment s2.
Proof.
  intros He1 He2 Hs1 Hs2. rewrite !receipt_bytes_payments. intros E. split_bytes E.
  apply u64_le_inj in E0; [|done..]. apply (inj arr_bytes) in E1. split; [done|]. split; [done|].
  set (l1 := sort_by fst (map payment s1)) in E. set (l2 := sort_by fst (map payment s2)) in E.
  assert (length l1 = length l2) as Hl.
  { apply (f_equal length) in E. rewrite !(concat_fixed_length payment_bytes 40) in E
      by apply payment_bytes_length. lia. }
  rewrite <-(app_nil_r (concat (map payment_bytes l1))), <-(app_nil_r (concat (map payment_bytes l2))) in E.
  apply (concat_fixed_inj payment_bytes 40) in E as [HF _]; [|apply payment_bytes_length|done].
  rewrite <-(sort_by_perm fst (map payment s1)), <-(sort_by_perm fst (map payment s2)).
  fold l1 l2. replace l2 with l1; [done|]. apply list_eq_Forall2.
  assert (forall s, Forall (fun s => is_u64 (sh_amount s)) s ->
    Forall (fun p => is_u64 p.2) (sort_by fst (map payment s))) as Hu.
  { intros s Hs. rewrite (sort_by_perm fst (map payment s)), Forall_map. done. }
  pose proof (Hu s1 Hs1) as H1. pose proof (Hu s2 Hs2) as H2. fold l1 in H1. fold l2 in H2.
  clearbody l1 l2. clear E0. induction HF as [|[n1 a1] [n2 a2] m1 m2 Hab HF IH]; [constructor|].
  apply Forall_cons in H1 as [Ha1 H1]. apply Forall_cons in H2 as [Ha2 H2].
  constructor; [|apply IH; [by injection Hl|done..]].
  unfold payment_bytes in Hab. simpl in *. split_bytes Hab. apply (inj arr_bytes) in Hab0.
  apply u64_le_inj in Hab; [by subst|done..].
Qed.

Lemma verify_receipt_spec r :
  verify_receipt r = true <->
  sr_receipt_hash r = receipt_hash (sr_epoch r) (sr_beacon r) (sr_shares r) /\
  (forall art, sr_beacon_artifact r = Some art -> verify_beacon art = true /\ ba_beacon art = sr_beacon r) /\
  seal_ok (sr_ticket_seal r) = true /\ seal_ok (sr_fold_seal r) = true.
Proof.
  unfold verify_receipt. case_bool_decide as Hh; cbn [negb]; [|by split; [|intros [? _]]].
  destruct (sr_beacon_artifact r) as [art|].
  - destruct (verify_beacon art) eqn:Hv; simpl; [|split; [done|]; intros (_ & H & _); destruct (H art eq_refl); congruence].
    case_bool_decide as Hb; simpl; [|split; [done|]; intros (_ & H & _); by destruct (H art eq_refl)].
    destruct (seal_ok _); simpl; [|by split; [|intros (_ & _ & ? & _)]].
    destruct (seal_ok _); simpl; [|by split; [|intros (_ & _ & _ & ?)]].
    split; [intros _; split_and!; [done| |done|done]|done]. by intros ? [= <-].
  - destruct (seal_ok _); simpl; [|by split; [|intros (_ & _ & ? & _)]].
    destruct (seal_ok _); simpl; [|by split; [|intros (_ & _ & _ & ?)]]. done.
Qed.
End receipts.

(** ** Properties *)

Section rewards_properties.
Context {HM : Hemera} {NB : Nebu} {FX : Fixed} {TR : Tru} {ZH : Zheng} {TK : Tok}.

(** C18: The budget is split exactly: when tok conserves shares of some
    positive weight, the amounts are those shares' in order, add up to the
    budget to the unit, give nothing to a share without weight and are never
    more than the number of shares away from the proportional amount; it
    fails exactly when tok does or when no share has weight. *)
Theorem budget_split_exact (raw : list (particle * fx)) (budget : N) (total : fx) :
  is_u64 budget ->
  match allocate_budget raw budget total with
  | Ok out => exists conserved, clip_shares raw total = Ok conserved /\ (0 < total_weight conserved)%N /\
      map share_key out = conserved /\ sum_N (map sh_amount out) = budget /\
      Forall (near_floor budget (total_weight conserved) (N.of_nat (length conserved))) out
  | Err e => (exists ce, clip_shares raw total = Err ce /\ e = clip_error ce) \/
      exists conserved, clip_shares raw total = Ok conserved /\ total_weight conserved = 0%N /\
        e = NoPositiveShare
  end.
Proof. apply allocate_spec. Qed.

(** What [verify_receipt] binds: two verified receipts with the same hash
    have the same epoch, beacon and payments up to order, or a hash collision
    is exhibited; but it binds nothing else, for any receipt with the same
    epoch, beacon, payments, hash and beacon artifact and any valid seals
    verifies too, whatever its claims root, budget, directed total, field
    shares and sample count. *)
Lemma receipt_binding (r r' : settle_receipt) :
  is_u64 (sr_epoch r) -> is_u64 (sr_epoch r') ->
  Forall (fun s => is_u64 (sh_amount s)) (sr_shares r) -> Forall (fun s => is_u64 (sh_amount s)) (sr_shares r') ->
  verify_receipt r = true ->
  (verify_receipt r' = true -> sr_receipt_hash r = sr_receipt_hash r' ->
     (sr_epoch r = sr_epoch r' /\ sr_beacon r = sr_beacon r' /\
      map payment (sr_shares r) ≡ₚ map payment (sr_shares r')) \/ exists x y, collides x y) /\
  (sr_epoch r' = sr_epoch r -> sr_beacon r' = sr_beacon r ->
   map payment (sr_shares r') = map payment (sr_shares r) ->
   sr_receipt_hash r' = sr_receipt_hash r -> sr_beacon_artifact r' = sr_beacon_artifact r ->
   seal_ok (sr_ticket_seal r') = true -> seal_ok (sr_fold_seal r') = true -> verify_receipt r' = true).
Proof.
  intros He He' Hs Hs' (Hh & Ha & Ht & Hf)%verify_receipt_spec. split.
  - intros (Hh' & _)%verify_receipt_spec E. rewrite Hh, Hh' in E. unfold receipt_hash in E.
    destruct (decide (receipt_bytes (sr_epoch r) (sr_beacon r) (sr_shares r) =
                      receipt_bytes (sr_epoch r') (sr_beacon r') (sr_shares r'))) as [Eb|Nb].
    + left. by apply receipt_bytes_inj.
    + right. eexists _, _. by split.
  - intros Ee Eb Ep Eh Ea Ht' Hf'. apply verify_receipt_spec. rewrite Ea, Eb, Ee, Eh. split_and!; [|done..].
    rewrite Hh. unfold receipt_hash. by rewrite !receipt_bytes_payments, Ep.
Qed.

End rewards_properties.

(** ** Witnesses *)

Definition ex_claims : list reward_claim :=
  [claim_from_links (arr_rep 32 x01) (arr_rep 32 x0a) [link_stake (arr_rep 32 x01) (arr_rep 32 x02) 3] 1;
   claim_from_links (arr_rep 32 x02) (arr_rep 32 x0b) [link_stake (arr_rep 32 x02) (arr_rep 32 x03) 5] 0].

Lemma budget_split_exact_witness :
  match allocate_budget [(arr_rep 32 x01, fx_one); (arr_rep 32 x02, fx_one); (arr_rep 32 x03, fx_one);
                         (arr_rep 32 x04, fx_zero)] 10 fx_one with
  | Ok out => sum_N (map sh_amount out) = 10%N
  | Err _ => False
  end.
Proof.
  pose proof (budget_split_exact [(arr_rep 32 x01, fx_one); (arr_rep 32 x02, fx_one); (arr_rep 32 x03, fx_one);
    (arr_rep 32 x04, fx_zero)] 10 fx_one ltac:(by vm_compute)) as H.
  assert (is_ok (allocate_budget [(arr_rep 32 x01, fx_one); (arr_rep 32 x02, fx_one); (arr_rep 32 x03, fx_one);
    (arr_rep 32 x04, fx_zero)] 10 fx_one) = true) as Hok by by_vm.
  destruct (allocate_budget _ _ _); [|done]. by destruct H as (? & _ & _ & _ & ? & _).
Defined.


Definition ex_receipt : settle_receipt :=
  {| sr_epoch := 1; sr_beacon := zero32; sr_claims_root := zero32;
     sr_receipt_hash := receipt_hash 1 zero32 [mk_share (arr_rep 32 x01) fx_one 100];
     sr_directed_total := fx_one; sr_budget := 100; sr_shares := [mk_share (arr_rep 32 x01) fx_one 100];
     sr_beacon_artifact := None; sr_ticket_seal := None; sr_fold_seal := None; sr_sample_count := 4 |}.

(** The same receipt under another claims root, budget and sample count. *)
Definition ex_relabelled : settle_receipt :=
  {| sr_epoch := 1; sr_beacon := zero32; sr_claims_root := arr_rep 32 xff;
     sr_receipt_hash := sr_receipt_hash ex_receipt;
     sr_directed_total := fx_zero; sr_budget := 7; sr_shares := [mk_share (arr_rep 32 x01) fx_zero 100];
     sr_beacon_artifact := None; sr_ticket_seal := None; sr_fold_seal := None; sr_sample_count := 0 |}.

Lemma receipt_binding_witness : verify_receipt ex_relabelled = true.
Proof.
  refine (proj2 (receipt_binding ex_receipt ex_relabelled _ _ _ _ _) _ _ _ _ _ _ _).
  1-2: by vm_compute.
  1-2: repeat constructor; by vm_compute.
  all: by_vm.
Defined.
