(* ===== verification/Partition.v ===== *)
(** * Partition: clusters of claims (src/partition.rs)

    [epsilon_support] is the breadth-first neighbourhood of a claim's
    particles, [partition_into_clusters] the union-find over claims whose
    supports overlap.  [find] compresses paths in the parent list it is
    given; it recurses on a fuel (an element's parent never exceeds it, so an
    element's own number is enough) and, like indexing, faults when it runs
    out. *)

From S2P Require Import Prelude Order Bytes Externals Goldilocks Instances Settlement Tickets Seals Beacon Rewards.
From stdpp Require Import relations.

Section partition.
Context {HM : Hemera} {NB : Nebu} {FX : Fixed} {TR : Tru} {ZH : Zheng} {TK : Tok}.

Definition CLUSTER_DOMAIN : list byte := str_bytes "foculus-cluster-v0".

Definition adjacency : Type := gmap particle (list particle).

Definition claim_particles (claim : reward_claim) : gset particle :=
  fold_left (fun particles l => {[l_to l]} ∪ ({[l_from l]} ∪ particles)) (rc_links claim) ∅.

(** [if support.insert(n) { next.push(n) }]. *)
Definition visit (st : gset particle * list particle) (n : particle) : gset particle * list particle :=
  if decide (n ∈ st.1) then st else ({[n]} ∪ st.1, st.2 ++ [n]).

Definition visit_neighbors (adj : adjacency) (st : gset particle * list particle) (p : particle)
    : gset particle * list particle :=
  match adj !! p with Some neighbors => fold_left visit neighbors st | None => st end.

Fixpoint support_loop (adj : adjacency) (radius : nat) (support : gset particle) (frontier : list particle)
    : gset particle :=
  match radius with
  | 0 => support
  | S radius =>
      let '(support, next) := fold_left (visit_neighbors adj) frontier (support, []) in
      match next with [] => support | _ => support_loop adj radius support next end
  end.

Definition epsilon_support (seed : gset particle) (adj : adjacency) (radius : nat) : gset particle :=
  support_loop adj radius seed (sorted_elements seed).

(** ** Union-find *)

Fixpoint find (fuel : nat) (parent : list nat) (x : nat) : result (fault Empty_set) (list nat * nat) :=
  match fuel with
  | 0 => Err Panicked
  | S fuel =>
      px ← index_or_panic parent x;
      if bool_decide (px <> x) then
        '(parent, root) ← find fuel parent px;
        Ok (<[x := root]> parent, root)
      else Ok (parent, px)
  end.

(** [find] at its caller: the fuel is one more than the element. *)
Definition find_root (parent : list nat) (x : nat) : result (fault Empty_set) (list nat * nat) :=
  find (S x) parent x.

Definition union_ (parent : list nat) (a b : nat) : result (fault Empty_set) (list nat) :=
  '(parent, ra) ← find_root parent a;
  '(parent, rb) ← find_root parent b;
  Ok (if bool_decide (ra <> rb) then <[Nat.max ra rb := Nat.min ra rb]> parent else parent).

(** [for i in 0..n { for j in i + 1..n { .. } }]. *)
Definition pairs (n : nat) : list (nat * nat) :=
  concat (map (fun i => map (pair i) (seq (i + 1) (n - (i + 1)))) (seq 0 n)).

Definition merge_step (supports : list (gset particle)) (parent : list nat) (ij : nat * nat)
    : result (fault Empty_set) (list nat) :=
  si ← index_or_panic supports ij.1;
  sj ← index_or_panic supports ij.2;
  if negb (bool_decide (si ∩ sj = ∅)) then union_ parent ij.1 ij.2 else Ok parent.

Definition group_step (st : list nat * gmap nat (list nat)) (i : nat)
    : result (fault Empty_set) (list nat * gmap nat (list nat)) :=
  '(parent, root) ← find_root st.1 i;
  Ok (parent, <[root := default [] (st.2 !! root) ++ [i]]> st.2).

Definition claim_key (claims : list reward_claim) (i : nat) : option particle := rc_id <$> claims !! i.

Definition first_key (claims : list reward_claim) (members : list nat) : option particle :=
  i ← head members; claim_key claims i.

Definition partition_into_clusters (claims : list reward_claim) (adj : adjacency) (radius : nat)
    : result (fault Empty_set) (list (list nat)) :=
  let supports := map (fun c => epsilon_support (claim_particles c) adj radius) claims in
  parent ← try_fold (merge_step supports) (pairs (length supports)) (seq 0 (length claims));
  '(_, groups) ← try_fold group_step (seq 0 (length claims)) (parent, ∅);
  let clusters := map (sort_by (claim_key claims)) (sorted_values groups) in
  Ok (sort_by (first_key claims) clusters).

Definition cluster_id (claims : list reward_claim) (members : list nat) : result (fault Empty_set) particle :=
  ids ← collect (map (fun i => rc_id <$> index_or_panic claims i) members);
  let ids := sort ids in
  Ok (hemera_hash (CLUSTER_DOMAIN ++ u64_le (as_u64 (N.of_nat (length ids))) ++ concat (map arr_bytes ids))).

(** ** Supports *)

Definition hop (adj : adjacency) (x y : particle) : Prop := exists l, adj !! x = Some l /\ y ∈ l.

Definition within (adj : adjacency) (seed : gset particle) (r : nat) (x : particle) : Prop :=
  exists s k, s ∈ seed /\ k <= r /\ nsteps (hop adj) k s x.

Lemma visit_spec l st :
  (forall x, x ∈ (fold_left visit l st).1 <-> x ∈ st.1 \/ x ∈ l) /\
  forall x, x ∈ (fold_left visit l st).2 <-> x ∈ st.2 \/ (x ∈ l /\ x ∉ st.1).
Proof.
  revert st; induction l as [|n l IH]; intros [s next]; cbn [fold_left].
  { split; intros x; rewrite elem_of_nil; tauto. }
  unfold visit at 2 4; simpl. destruct (decide (n ∈ s)) as [Hn|Hn];
    [destruct (IH (s, next)) as [H1 H2] | destruct (IH ({[n]} ∪ s, next ++ [n])) as [H1 H2]];
    split; intros x; rewrite ?H1, ?H2, elem_of_cons; simpl;
    rewrite ?elem_of_app, ?list_elem_of_singleton, ?elem_of_union, ?elem_of_singleton;
    destruct (decide (x = n)) as [->|]; tauto.
Qed.

Lemma visit_neighbors_spec adj l st :
  (forall x, x ∈ (fold_left (visit_neighbors adj) l st).1 <-> x ∈ st.1 \/ exists y, y ∈ l /\ hop adj y x) /\
  (forall x, x ∈ (fold_left (visit_neighbors adj) l st).2 <->
     x ∈ st.2 \/ (x ∉ st.1 /\ exists y, y ∈ l /\ hop adj y x)).
Proof.
  revert st; induction l as [|p l IH]; intros st; cbn [fold_left].
  { split; intros x; split; auto; intros [?|H]; auto; [|destruct H as [_ H]]; destruct H as (y & Hy & _); by apply elem_of_nil in Hy. }
  destruct (IH (visit_neighbors adj st p)) as [H1 H2]. clear IH.
  assert (forall x, x ∈ (visit_neighbors adj st p).1 <-> x ∈ st.1 \/ hop adj p x) as V1.
  { intros x. unfold visit_neighbors, hop. destruct (adj !! p) as [nb|].
    - destruct (visit_spec nb st) as [-> _].
      split; [intros [?|?]; eauto|]. intros [?|(? & [= <-] & ?)]; auto.
    - split; [auto|]. by intros [?|(? & [=] & _)]. }
  assert (forall x, x ∈ (visit_neighbors adj st p).2 <-> x ∈ st.2 \/ (x ∉ st.1 /\ hop adj p x)) as V2.
  { intros x. unfold visit_neighbors, hop. destruct (adj !! p) as [nb|].
    - destruct (visit_spec nb st) as [_ E]. rewrite E.
      split; [intros [?|[? ?]]; eauto|]. intros [?|(? & ? & [= <-] & ?)]; auto.
    - split; [auto|]. by intros [?|(_ & ? & [=] & _)]. }
  split; intros x.
  - rewrite H1, V1. setoid_rewrite elem_of_cons. split.
    + intros [[?|?]|(y & ? & ?)]; eauto 6.
    + intros [?|(y & [->|?] & ?)]; eauto.
  - rewrite H2, V2, V1. setoid_rewrite elem_of_cons. split.
    + intros [[?|[? ?]]|[? (y & ? & ?)]]; [by left|right; eauto|right; split; [tauto|eauto]].
    + intros [?|[Hx (y & [->|?] & ?)]]; [auto|auto|].
      destruct (decide (x ∈ (visit_neighbors adj st p).1)) as [[?|?]%V1|Hn]; [done|auto|].
      right. split; [by rewrite V1 in Hn|eauto].
Qed.

Lemma within_mono adj seed r r' x : r <= r' -> within adj seed r x -> within adj seed r' x.
Proof. intros Hr (s & k & ? & ? & ?). exists s, k. split_and!; [done|lia|done]. Qed.

Lemma within_step adj seed r x :
  within adj seed (S r) x <-> within adj seed r x \/ exists y, within adj seed r y /\ hop adj y x.
Proof.
  split.
  - intros (s & k & Hs & Hk & Hn). destruct (decide (k <= r)) as [|Hgt]; [left; by exists s, k|].
    replace k with (S r) in Hn by lia. right. apply nsteps_inv_r in Hn as (y & Hy & Hxy).
    exists y. split; [|done]. exists s, r. split_and!; done.
  - intros [H|(y & (s & k & Hs & Hk & Hn) & Hxy)]; [eapply within_mono; [|exact H]; lia|].
    exists s, (S k). split_and!; [done|lia|]. by eapply nsteps_r.
Qed.

Lemma within_stable adj seed r r' x :
  (forall y, within adj seed (S r) y -> within adj seed r y) -> r <= r' ->
  within adj seed r' x -> within adj seed r x.
Proof.
  intros Hst Hr. revert x. induction Hr as [|r' Hr IH]; intros x; [done|].
  intros [H|(y & Hy & Hxy)]%within_step; [auto|]. apply Hst, within_step. right. eauto.
Qed.

Lemma support_loop_spec adj seed radius t support frontier :
  (forall x, x ∈ support <-> within adj seed t x) ->
  (forall x, x ∈ frontier -> within adj seed t x) ->
  (forall x y, within adj seed t x -> hop adj x y -> x ∈ frontier \/ within adj seed t y) ->
  forall x, x ∈ support_loop adj radius support frontier <-> within adj seed (t + radius) x.
Proof.
  revert t support frontier; induction radius as [|radius IH]; intros t support frontier Hs Hf Hc x; simpl.
  { by rewrite Nat.add_0_r. }
  destruct (visit_neighbors_spec adj frontier (support, [])) as [H1 H2]. simpl in H1, H2.
  destruct (fold_left _ _ _) as [support' next]. simpl in H1, H2.
  assert (forall y, y ∈ support' <-> within adj seed (S t) y) as Hs'.
  { intros y. rewrite H1, Hs, within_step. split; [naive_solver|].
    intros [?|(z & Hz & Hzy)]; [by left|]. destruct (Hc z y Hz Hzy); [right; eauto|by left]. }
  assert (forall y, y ∈ next <-> within adj seed (S t) y /\ ~ within adj seed t y) as Hn.
  { intros y. rewrite H2, <-Hs', H1, Hs, elem_of_nil. naive_solver. }
  destruct next as [|z next].
  - rewrite Hs'. split; [apply within_mono; lia|].
    apply within_stable; [|lia]. intros y [H|(w & Hw & Hwy)]%within_step; [done|].
    destruct (decide (y ∈ support)) as [Hy|Hy].
    + apply Hs in Hy. eapply within_mono; [|exact Hy]. lia.
    + exfalso. apply (not_elem_of_nil y), Hn. rewrite <-Hs. split; [|done].
      assert (forall v, within adj seed (S t) v -> within adj seed t v) as Hall.
      { intros v Hv. destruct (decide (v ∈ support)) as [?|Hv']; [by apply Hs|].
        exfalso. apply (not_elem_of_nil v), Hn. by rewrite <-Hs. }
      apply within_step. right. exists w. split; [by apply Hall | done].
  - replace (t + S radius) with (S t + radius) by lia. apply IH; [done| |].
    + intros y Hy. by apply Hn in Hy as [? _].
    + intros y w Hy Hyw. destruct (decide (y ∈ support)) as [Hin|Hin].
      * right. apply within_step. right. exists y. split; [by apply Hs | done].
      * left. apply Hn. split; [done|]. by rewrite <-Hs.
Qed.

Lemma epsilon_support_spec seed adj radius x :
  x ∈ epsilon_support seed adj radius <-> within adj seed radius x.
Proof.
  unfold epsilon_support. apply (support_loop_spec adj seed radius 0).
  - intros y. split.
    + intros Hy. exists y, 0. split_and!; [done|done|constructor].
    + intros (s & k & Hs & Hk & Hn). replace k with 0 in Hn by lia. by inversion Hn; subst.
  - intros y. rewrite elem_of_sorted_elements. intros Hy. exists y, 0. split_and!; [done|done|constructor].
  - intros y w (s & k & Hs & Hk & Hn) _. left. replace k with 0 in Hn by lia.
    inversion Hn; subst. by rewrite elem_of_sorted_elements.
Qed.

(** ** Union-find *)

Definition wf (parent : list nat) : Prop := forall x p, parent !! x = Some p -> p <= x.

(** The root of [x], following parents down. *)
Fixpoint root_fuel (fuel : nat) (parent : list nat) (x : nat) : nat :=
  match fuel, parent !! x with
  | S fuel, Some p => if decide (p = x) then x else root_fuel fuel parent p
  | _, _ => x
  end.
Definition root_of (parent : list nat) (x : nat) : nat := root_fuel (S x) parent x.

Lemma root_fuel_enough parent f g x : wf parent -> x < f -> x < g -> root_fuel f parent x = root_fuel g parent x.
Proof.
  intros Hwf. revert g x; induction f as [|f IH]; intros [|g] x Hf Hg; try lia. simpl.
  destruct (parent !! x) as [p|] eqn:Hp; [|done]. destruct (decide (p = x)); [done|].
  pose proof (Hwf x p Hp). apply IH; lia.
Qed.

Lemma root_of_unfold parent x p :
  wf parent -> parent !! x = Some p -> root_of parent x = if decide (p = x) then x else root_of parent p.
Proof.
  intros Hwf Hp. unfold root_of at 1. simpl. rewrite Hp. destruct (decide (p = x)); [done|].
  pose proof (Hwf x p Hp). apply root_fuel_enough; [done|lia..].
Qed.

Lemma root_of_None parent x : parent !! x = None -> root_of parent x = x.
Proof. unfold root_of. simpl. by intros ->. Qed.

Lemma root_of_spec parent x :
  wf parent -> root_of parent x <= x /\
  (x < length parent -> parent !! root_of parent x = Some (root_of parent x)).
Proof.
  intros Hwf. induction x as [x IH] using lt_wf_ind. destruct (parent !! x) as [p|] eqn:Hp.
  - rewrite (root_of_unfold parent x p) by done. destruct (decide (p = x)) as [->|Hne]; [auto|].
    pose proof (Hwf x p Hp). destruct (IH p ltac:(lia)) as [Hle Hr]. split; [lia|]. intros Hx. apply Hr. lia.
  - rewrite root_of_None by done. split; [lia|]. apply lookup_ge_None_1 in Hp. lia.
Qed.

Lemma root_of_idemp parent x : wf parent -> x < length parent -> root_of parent (root_of parent x) = root_of parent x.
Proof.
  intros Hwf Hx. destruct (root_of_spec parent x Hwf) as [_ Hr]. specialize (Hr Hx).
  rewrite (root_of_unfold _ _ _ Hwf Hr). by case_decide.
Qed.

(** Redirecting a root [M] to a smaller root [m]. *)
Lemma root_of_redirect parent M m y :
  wf parent -> parent !! M = Some M -> parent !! m = Some m -> m < M ->
  wf (<[M := m]> parent) /\
  root_of (<[M := m]> parent) y = if decide (root_of parent y = M) then m else root_of parent y.
Proof.
  intros Hwf HMx Hm Hlt.
  assert (wf (<[M := m]> parent)) as Hwf'.
  { intros x p. destruct (decide (x = M)) as [->|].
    - rewrite list_lookup_insert_eq by (by eapply lookup_lt_Some). intros [= <-]. lia.
    - rewrite list_lookup_insert_ne by done. apply Hwf. }
  split; [done|]. induction y as [y IH] using lt_wf_ind. destruct (decide (y = M)) as [->|HyM].
  - rewrite (root_of_unfold (<[M := m]> parent) M m), (root_of_unfold parent M M) by
      (done || (apply list_lookup_insert_eq; by eapply lookup_lt_Some)).
    assert (root_of (<[M := m]> parent) m = m) as ->.
    { rewrite (root_of_unfold _ m m); [by rewrite decide_True|done|]. by rewrite list_lookup_insert_ne by lia. }
    repeat case_decide; done || lia.
  - destruct (parent !! y) as [p|] eqn:Hp.
    + rewrite (root_of_unfold (<[M := m]> parent) y p), (root_of_unfold parent y p)
        by (done || (by rewrite list_lookup_insert_ne)).
      destruct (decide (p = y)) as [->|Hne]; [by rewrite decide_False|].
      pose proof (Hwf y p Hp). apply IH. lia.
    + rewrite !root_of_None by (done || by rewrite list_lookup_insert_ne). by rewrite decide_False.
Qed.

(** Compressing a path changes no root. *)
Lemma root_of_compress parent x :
  wf parent -> x < length parent ->
  wf (<[x := root_of parent x]> parent) /\
  forall y, root_of (<[x := root_of parent x]> parent) y = root_of parent y.
Proof.
  intros Hwf Hx. destruct (root_of_spec parent x Hwf) as [Hle Hr]. specialize (Hr Hx).
  set (r := root_of parent x) in *.
  assert (wf (<[x := r]> parent)) as Hwf'.
  { intros z p. destruct (decide (z = x)) as [->|].
    - rewrite list_lookup_insert_eq by done. by intros [= <-].
    - rewrite list_lookup_insert_ne by done. apply Hwf. }
  split; [done|]. intros y. induction y as [y IH] using lt_wf_ind. destruct (decide (y = x)) as [->|Hyx].
  - rewrite (root_of_unfold _ x r) by (done || by apply list_lookup_insert_eq).
    destruct (decide (r = x)) as [E|Hne]; [done|]. rewrite IH by lia. by apply root_of_idemp.
  - destruct (parent !! y) as [p|] eqn:Hp.
    + rewrite (root_of_unfold (<[x := r]> parent) y p), (root_of_unfold parent y p)
        by (done || (by rewrite list_lookup_insert_ne)).
      destruct (decide (p = y)); [done|]. pose proof (Hwf y p Hp). apply IH. lia.
    + rewrite !root_of_None by (done || by rewrite list_lookup_insert_ne). done.
Qed.

(** [p'] has the roots of [p] and its length. *)
Definition same_roots (p p' : list nat) : Prop :=
  wf p' /\ length p' = length p /\ forall y, root_of p' y = root_of p y.

Lemma find_spec fuel parent x :
  wf parent -> x < length parent -> x < fuel ->
  exists parent', find fuel parent x = Ok (parent', root_of parent x) /\ same_roots parent parent'.
Proof.
  revert parent x; induction fuel as [|fuel IH]; intros parent x Hwf Hx Hf; [lia|]. cbn [find].
  destruct (lookup_lt_is_Some_2 parent x Hx) as [p Hp]. rewrite (index_or_panic_Some _ _ _ Hp). simpl.
  rewrite (root_of_unfold parent x p) by done. pose proof (Hwf x p Hp).
  case_bool_decide as Hne; simpl.
  - destruct (IH parent p Hwf ltac:(lia) ltac:(lia)) as (parent' & E & Hwf' & Hl & Hr). rewrite E. simpl.
    rewrite decide_False by done. eexists. split; [done|].
    assert (root_of parent p = root_of parent' x) as ->.
    { rewrite Hr, (root_of_unfold parent x p) by done. by rewrite decide_False. }
    destruct (root_of_compress parent' x Hwf' ltac:(lia)) as [Hw Hr'].
    split; [done|]. split; [by rewrite length_insert|]. intros y. by rewrite Hr'.
  - subst p. rewrite decide_True by done. eexists. split; [done|]. done.
Qed.

Lemma union_spec parent a b :
  wf parent -> a < length parent -> b < length parent ->
  exists parent', union_ parent a b = Ok parent' /\ wf parent' /\ length parent' = length parent /\
    forall y, root_of parent' y =
      if decide (root_of parent y = Nat.max (root_of parent a) (root_of parent b))
      then Nat.min (root_of parent a) (root_of parent b) else root_of parent y.
Proof.
  intros Hwf Ha Hb. unfold union_, find_root.
  destruct (find_spec (S a) parent a Hwf Ha ltac:(lia)) as (p1 & -> & Hw1 & Hl1 & Hr1). simpl.
  destruct (find_spec (S b) p1 b Hw1 ltac:(lia) ltac:(lia)) as (p2 & E & Hw2 & Hl2 & Hr2).
  simpl in E. rewrite E. simpl. rewrite Hr1. eexists. split; [done|].
  assert (forall y, root_of p2 y = root_of parent y) as Hr by (intros; by rewrite Hr2, Hr1).
  destruct (root_of_spec parent a Hwf) as [_ Hra]. destruct (root_of_spec parent b Hwf) as [_ Hrb].
  assert (forall z, z < length parent -> p2 !! root_of parent z = Some (root_of parent z)) as Hroot.
  { intros z Hz. rewrite <-Hr. apply root_of_spec; [done|lia]. }
  case_bool_decide as Hne; simpl.
  - set (ra := root_of parent a) in *. set (rb := root_of parent b) in *.
    assert (p2 !! Nat.max ra rb = Some (Nat.max ra rb)) as HMx.
    { destruct (Nat.max_spec ra rb) as [[_ ->]|[_ ->]]; by apply Hroot. }
    assert (p2 !! Nat.min ra rb = Some (Nat.min ra rb)) as Hm.
    { destruct (Nat.min_spec ra rb) as [[_ ->]|[_ ->]]; by apply Hroot. }
    split_and!.
    + by apply root_of_redirect; [..|lia].
    + rewrite length_insert. lia.
    + intros y. destruct (root_of_redirect p2 (Nat.max ra rb) (Nat.min ra rb) y) as [_ ->]; [done..|lia|].
      by rewrite Hr.
  - split_and!; [done|lia|]. intros y. rewrite Hr, Hne, Nat.max_id, Nat.min_id.
    by case_decide.
Qed.

(** ** Merging *)

Definition overlaps (supports : list (gset particle)) (i j : nat) : Prop :=
  exists si sj, supports !! i = Some si /\ supports !! j = Some sj /\ si ∩ sj <> ∅.
(** The overlaps among the pairs processed so far. *)
Definition linked (supports : list (gset particle)) (l : list (nat * nat)) (i j : nat) : Prop :=
  (i, j) ∈ l /\ overlaps supports i j.

Lemma overlaps_sym supports i j : overlaps supports i j -> overlaps supports j i.
Proof. intros (si & sj & ? & ? & Hd). exists sj, si. split_and!; [done|done|]. by rewrite (comm_L (∩)). Qed.

Lemma overlaps_lt supports i j : overlaps supports i j -> i < length supports /\ j < length supports.
Proof. intros (si & sj & Hi & Hj & _). split; by eapply lookup_lt_Some. Qed.

(** The roots of [parent] are the components of the processed overlaps. *)
Definition components (supports : list (gset particle)) (l : list (nat * nat)) (parent : list nat) : Prop :=
  wf parent /\ length parent = length supports /\
  forall x y, x < length supports -> y < length supports ->
    root_of parent x = root_of parent y <-> rtsc (linked supports l) x y.

Lemma rtsc_mono {A} (R R' : relation A) x y : (forall a b, R a b -> R' a b) -> rtsc R x y -> rtsc R' x y.
Proof. intros HR. apply rtc_subrel. intros a b [?|?]; [left|right]; auto. Qed.

Lemma rtsc_trans_mid {A} (R : relation A) x y z w : rtsc R x y -> sc R y z -> rtsc R z w -> rtsc R x w.
Proof. intros Hxy Hyz Hzw. etrans; [exact Hxy|]. by eapply rtc_l. Qed.

Lemma rtsc_symmetric {A} (R : relation A) x y : rtsc R x y -> rtsc R y x.
Proof. apply rtsc_equivalence. Qed.

Lemma rtsc_map {A B} (R : relation A) (f : A -> B) x y :
  (forall a b, R a b -> f a = f b) -> rtsc R x y -> f x = f y.
Proof. intros Hf. induction 1 as [|x y z [H|H] _ IH]; [done|..]; apply Hf in H; congruence. Qed.

(** A root after the union of [M] into [m]. *)
Definition redirect (M m r : nat) : nat := if decide (r = M) then m else r.

Lemma components_union supports l parent a b parent' :
  components supports l parent -> overlaps supports a b ->
  wf parent' -> length parent' = length parent ->
  (forall y, root_of parent' y =
     redirect (Nat.max (root_of parent a) (root_of parent b)) (Nat.min (root_of parent a) (root_of parent b))
       (root_of parent y)) ->
  components supports (l ++ [(a, b)]) parent'.
Proof.
  intros (Hwf & Hl & Hc) Hab Hwf' Hl' Hr. destruct (overlaps_lt _ _ _ Hab) as [Ha Hb].
  assert (forall u v, linked supports l u v -> linked supports (l ++ [(a, b)]) u v) as Hmono.
  { intros u v [? ?]. split; [|done]. apply elem_of_app. by left. }
  assert (linked supports (l ++ [(a, b)]) a b) as Hlab.
  { split; [|done]. apply elem_of_app. right. by apply list_elem_of_singleton. }
  split; [done|]. split; [congruence|]. intros x y Hx Hy. rewrite !Hr. split.
  - assert (root_of parent x = root_of parent y -> rtsc (linked supports (l ++ [(a, b)])) x y) as Heq.
    { intros E%Hc; [|done..]. by eapply rtsc_mono. }
    assert (forall u v, u < length supports -> v < length supports -> root_of parent u = root_of parent v ->
      rtsc (linked supports (l ++ [(a, b)])) u v) as Hrt.
    { intros u v Hu Hv E%Hc; [|done..]. by eapply rtsc_mono. }
    unfold redirect. destruct (decide _) as [Ex|Nx], (decide _) as [Ey|Ny]; intros E; try (apply Heq; congruence).
    + destruct (Nat.max_spec (root_of parent a) (root_of parent b)) as [[Hlt Hm]|[Hle Hm]]; rewrite Hm in Ex.
      * rewrite Nat.min_l in E by lia.
        eapply (rtsc_trans_mid _ x b a y); [by apply Hrt|by right|by apply Hrt].
      * rewrite Nat.min_r in E by lia.
        eapply (rtsc_trans_mid _ x a b y); [by apply Hrt|by left|by apply Hrt].
    + destruct (Nat.max_spec (root_of parent a) (root_of parent b)) as [[Hlt Hm]|[Hle Hm]]; rewrite Hm in Ey.
      * rewrite Nat.min_l in E by lia.
        eapply (rtsc_trans_mid _ x a b y); [by apply Hrt|by left|by apply Hrt].
      * rewrite Nat.min_r in E by lia.
        eapply (rtsc_trans_mid _ x b a y); [by apply Hrt|by right|by apply Hrt].
  - apply (rtsc_map _ (fun y => redirect (Nat.max (root_of parent a) (root_of parent b))
      (Nat.min (root_of parent a) (root_of parent b)) (root_of parent y))).
    intros u v [[Huv|Huv]%elem_of_app Ho].
    + destruct (overlaps_lt _ _ _ Ho) as [Hu Hv].
      assert (root_of parent u = root_of parent v) as ->; [|done].
      apply Hc; [done..|]. apply rtc_once. left. by split.
    + apply list_elem_of_singleton in Huv as [= -> ->].
      unfold redirect. repeat case_decide; lia.
Qed.

Lemma merge_step_spec supports l parent i j :
  components supports l parent -> i < length supports -> j < length supports ->
  exists parent', merge_step supports parent (i, j) = Ok parent' /\
    components supports (l ++ [(i, j)]) parent'.
Proof.
  intros Hc Hi Hj. unfold merge_step; simpl.
  destruct (lookup_lt_is_Some_2 supports i Hi) as [si Hsi], (lookup_lt_is_Some_2 supports j Hj) as [sj Hsj].
  rewrite (index_or_panic_Some _ _ _ Hsi), (index_or_panic_Some _ _ _ Hsj). simpl.
  case_bool_decide as Hd; simpl.
  - eexists. split; [done|]. destruct Hc as (Hwf & Hl & Hc). split; [done|]. split; [done|].
    intros x y Hx Hy. rewrite (Hc x y Hx Hy). split; apply rtsc_mono.
    + intros u v [? ?]. split; [|done]. apply elem_of_app. by left.
    + intros u v [[?|[= -> ->]%list_elem_of_singleton]%elem_of_app Ho]; [by split|].
      destruct Ho as (? & ? & ? & ? & ?). congruence.
  - destruct Hc as (Hwf & Hl & Hc).
    destruct (union_spec parent i j Hwf) as (parent' & -> & Hw & Hl' & Hr); [lia..|].
    exists parent'. split; [done|]. apply (components_union supports l parent i j parent'); [by split_and!| |done..]. by exists si, sj.
Qed.

Lemma merge_all supports todo l parent :
  components supports l parent ->
  (forall i j, (i, j) ∈ todo -> i < length supports /\ j < length supports) ->
  exists parent', try_fold (merge_step supports) todo parent = Ok parent' /\
    components supports (l ++ todo) parent'.
Proof.
  revert l parent; induction todo as [|[i j] todo IH]; intros l parent Hc Hin; cbn [try_fold].
  { exists parent. by rewrite app_nil_r. }
  destruct (Hin i j) as [Hi Hj]; [constructor|].
  destruct (merge_step_spec supports l parent i j Hc Hi Hj) as (p1 & -> & Hc1). simpl.
  destruct (IH (l ++ [(i, j)]) p1 Hc1) as (p2 & -> & Hc2).
  { intros i' j' H. apply Hin. by constructor. }
  exists p2. split; [done|]. by rewrite <-app_assoc in Hc2.
Qed.

Lemma elem_of_pairs n i j : (i, j) ∈ pairs n <-> i < j < n.
Proof.
  unfold pairs. rewrite <-flat_map_concat_map, list_elem_of_In, in_flat_map. split.
  - intros (k & Hk%in_seq & Hm). apply in_map_iff in Hm as (m & [= -> ->] & Hm%in_seq). lia.
  - intros Hij. exists i. split; [apply in_seq; lia|]. apply in_map_iff. exists j. split; [done|].
    apply in_seq. lia.
Qed.

Lemma components_start supports : components supports [] (seq 0 (length supports)).
Proof.
  assert (wf (seq 0 (length supports))) as Hwf.
  { intros x p [-> ?]%lookup_seq. lia. }
  split; [done|]. split; [by rewrite length_seq|]. intros x y Hx Hy.
  assert (forall z, z < length supports -> root_of (seq 0 (length supports)) z = z) as Hid.
  { intros z Hz. rewrite (root_of_unfold _ z z) by (done || by apply lookup_seq_lt). by rewrite decide_True. }
  rewrite !Hid by done. split; [intros ->; apply rtc_refl|].
  apply (rtsc_map _ id). intros u v [H%elem_of_nil _]. done.
Qed.

Lemma linked_pairs supports x y :
  rtsc (linked supports (pairs (length supports))) x y <-> rtsc (overlaps supports) x y.
Proof.
  split.
  - apply rtsc_mono. by intros a b [_ ?].
  - intros H. induction H as [|x y z H _ IH]; [apply rtc_refl|].
    assert (overlaps supports x y) as Ho by (destruct H as [?|?]; [done|by apply overlaps_sym]).
    destruct (overlaps_lt _ _ _ Ho) as [Hx Hy].
    destruct (lt_eq_lt_dec x y) as [[Hlt| ->]|Hgt]; [|done|].
    + eapply rtc_l; [left; split; [apply elem_of_pairs|]|exact IH]; [lia|done].
    + eapply rtc_l; [right; split; [apply elem_of_pairs|by apply overlaps_sym]|exact IH]. lia.
Qed.

(** ** Grouping *)

Definition members_of (groups : gmap nat (list nat)) : list nat := concat (map snd (map_to_list groups)).

Lemma concat_perm {A} (l l' : list (list A)) : l ≡ₚ l' -> concat l ≡ₚ concat l'.
Proof.
  induction 1 as [|x l l' _ IH|x y l|l l' l'' _ IH _ IH']; simpl; [done|by rewrite IH| |by rewrite IH].
  rewrite !app_assoc. f_equiv. apply Permutation_app_comm.
Qed.

Lemma members_of_push groups r i :
  members_of (<[r := default [] (groups !! r) ++ [i]]> groups) ≡ₚ i :: members_of groups.
Proof.
  unfold members_of. destruct (groups !! r) as [c|] eqn:Hr; simpl.
  - rewrite <-insert_delete_eq.
    rewrite (concat_perm _ (map snd ((r, c ++ [i]) :: map_to_list (delete r groups)))).
    2: { apply fmap_Permutation, map_to_list_insert, lookup_delete_eq. }
    rewrite (concat_perm (map snd (map_to_list groups)) (map snd ((r, c) :: map_to_list (delete r groups)))).
    2: { apply fmap_Permutation. by rewrite map_to_list_delete. }
    simpl. rewrite <-app_assoc. simpl. by rewrite <-Permutation_middle.
  - rewrite (concat_perm _ (map snd ((r, [i]) :: map_to_list groups))).
    2: { by apply fmap_Permutation, map_to_list_insert. }
    done.
Qed.

(** Every group is the members of one component, in index order. *)
Definition grouped (root : nat -> nat) (seen : list nat) (groups : gmap nat (list nat)) : Prop :=
  members_of groups ≡ₚ seen /\
  forall r, match groups !! r with
            | Some c => c <> [] /\ forall i, i ∈ c <-> i ∈ seen /\ root i = r
            | None => forall i, i ∈ seen -> root i <> r
            end.

Lemma grouped_push root seen groups i :
  grouped root seen groups ->
  grouped root (seen ++ [i]) (<[root i := default [] (groups !! root i) ++ [i]]> groups).
Proof.
  intros [Hm Hg]. split.
  - rewrite members_of_push, Hm. apply Permutation_cons_append.
  - intros r. destruct (decide (r = root i)) as [->|Hne].
    + rewrite lookup_insert_eq. split; [by destruct (groups !! root i) as [[|]|]|]. intros j.
      rewrite !elem_of_app, list_elem_of_singleton. specialize (Hg (root i)).
      destruct (groups !! root i) as [c|]; simpl.
      * destruct Hg as [_ Hg]. rewrite Hg. split; [|tauto]. intros [[? ?]| ->]; auto.
      * rewrite elem_of_nil. split; [intros [[]| ->]; auto|]. intros [[Hj|?] E]; [by apply Hg in Hj|auto].
    + rewrite lookup_insert_ne by done. specialize (Hg r). destruct (groups !! r) as [c|].
      * destruct Hg as [? Hg]. split; [done|]. intros j. rewrite Hg, elem_of_app, list_elem_of_singleton.
        split; [tauto|]. by intros [[?| ->] ?].
      * intros j [Hj| ->%list_elem_of_singleton]%elem_of_app; auto.
Qed.

Lemma group_all parent0 todo seen parent groups :
  wf parent0 -> same_roots parent0 parent -> (forall i, i ∈ todo -> i < length parent0) ->
  grouped (root_of parent0) seen groups ->
  exists parent' groups', try_fold group_step todo (parent, groups) = Ok (parent', groups') /\
    grouped (root_of parent0) (seen ++ todo) groups'.
Proof.
  intros Hwf0. revert seen parent groups; induction todo as [|i todo IH]; intros seen parent groups Hs Hin Hg;
    cbn [try_fold].
  { eexists _, _. split; [done|]. by rewrite app_nil_r. }
  destruct Hs as (Hwf & Hl & Hr).
  destruct (find_spec (S i) parent i Hwf) as (p1 & E & Hwf1 & Hl1 & Hr1);
    [rewrite Hl; apply Hin; constructor|lia|].
  assert (group_step (parent, groups) i =
    Ok (p1, <[root_of parent0 i := default [] (groups !! root_of parent0 i) ++ [i]]> groups)) as ->.
  { unfold group_step, find_root. cbn [fst snd]. rewrite Hr in E. by rewrite E. }
  cbn.
  destruct (IH (seen ++ [i]) p1 (<[root_of parent0 i := default [] (groups !! root_of parent0 i) ++ [i]]> groups))
    as (p2 & g2 & E2 & Hg2).
  - split; [done|]. split; [congruence|]. intros y. by rewrite Hr1, Hr.
  - intros j Hj. apply Hin. by constructor.
  - by apply grouped_push.
  - exists p2, g2. split; [done|]. by rewrite <-app_assoc in Hg2.
Qed.
End partition.

(** ** Properties *)

Section partition_properties.
Context {HM : Hemera} {NB : Nebu} {FX : Fixed} {TR : Tru} {ZH : Zheng} {TK : Tok}.

(** The supports of claims [i] and [j] share a particle. *)
Definition supports_meet (claims : list reward_claim) (adj : adjacency) (radius i j : nat) : Prop :=
  exists ci cj p, claims !! i = Some ci /\ claims !! j = Some cj /\
    within adj (claim_particles ci) radius p /\ within adj (claim_particles cj) radius p.

Lemma overlaps_meet claims adj radius i j :
  overlaps (map (fun c => epsilon_support (claim_particles c) adj radius) claims) i j
  <-> supports_meet claims adj radius i j.
Proof.
  unfold overlaps, supports_meet. split.
  - intros (si & sj & Hi & Hj & Hd). rewrite list_lookup_fmap in Hi, Hj.
    apply fmap_Some in Hi as (ci & Hi & ->). apply fmap_Some in Hj as (cj & Hj & ->).
    apply set_choose_L in Hd as [p [H1 H2]%elem_of_intersection].
    exists ci, cj, p. rewrite <-!epsilon_support_spec. done.
  - intros (ci & cj & p & Hi & Hj & H1 & H2). rewrite !list_lookup_fmap, Hi, Hj. eexists _, _.
    split; [done|]. split; [done|]. rewrite <-epsilon_support_spec in H1, H2.
    intros E. apply (not_elem_of_empty (C := gset particle) p). rewrite <-E. by apply elem_of_intersection.
Qed.

Lemma rtsc_iff {A} (R R' : relation A) x y : (forall a b, R a b <-> R' a b) -> rtsc R x y <-> rtsc R' x y.
Proof. intros HR. split; apply rtsc_mono; intros a b; apply HR. Qed.

(** The clusters in terms of the groups. *)
Lemma partition_groups claims adj radius :
  exists parent groups,
    partition_into_clusters claims adj radius =
      Ok (sort_by (first_key claims) (map (sort_by (claim_key claims)) (sorted_values groups))) /\
    components (map (fun c => epsilon_support (claim_particles c) adj radius) claims)
      (pairs (length claims)) parent /\
    grouped (root_of parent) (seq 0 (length claims)) groups.
Proof.
  unfold partition_into_clusters. set (supports := map _ claims).
  assert (length supports = length claims) as Hl by apply length_map.
  destruct (merge_all supports (pairs (length supports)) [] (seq 0 (length supports)) (components_start supports))
    as (parent & E & Hc).
  { intros i j H%elem_of_pairs. lia. }
  rewrite <-Hl, E. simpl in Hc |- *.
  assert (grouped (root_of parent) [] ∅) as Hg0.
  { split; [done|]. intros r. rewrite lookup_empty. by intros i ?%elem_of_nil. }
  destruct (group_all parent (seq 0 (length supports)) [] parent ∅) as (p' & groups & E' & Hg);
    [apply Hc|by split; [apply Hc|]| |exact Hg0|].
  { intros i Hi%elem_of_seq. destruct Hc as (_ & -> & _). lia. }
  rewrite E'. simpl. by exists parent, groups.
Qed.

(** C22: Clusters are the connected components of overlapping supports: the
    partition never faults, lists every claim exactly once, in non-empty
    clusters whose members are sorted by claim id and which are sorted by
    their smallest id; two claims share a cluster exactly when a chain of
    claims with pairwise meeting supports connects them, where a support is
    every particle within [radius] hops of the claim's. *)
Theorem clusters_are_components (claims : list reward_claim) (adj : adjacency) (radius : nat) :
  exists clusters, partition_into_clusters claims adj radius = Ok clusters /\
    concat clusters ≡ₚ seq 0 (length claims) /\
    Forall (fun c => c <> [] /\ SortedBy (claim_key claims) c) clusters /\
    SortedBy (first_key claims) clusters /\
    forall i j, i < length claims -> j < length claims ->
      (exists c, c ∈ clusters /\ i ∈ c /\ j ∈ c) <-> rtsc (supports_meet claims adj radius) i j.
Proof.
  destruct (partition_groups claims adj radius) as (parent & groups & -> & Hc & Hm & Hg).
  eexists. split; [done|].
  assert (forall c, c ∈ sort_by (first_key claims) (map (sort_by (claim_key claims)) (sorted_values groups)) <->
    exists r m, groups !! r = Some m /\ c = sort_by (claim_key claims) m) as Hin.
  { intros c. rewrite sort_by_elem_of, list_elem_of_fmap. setoid_rewrite elem_of_sorted_values. naive_solver. }
  split; [|split; [|split]].
  - rewrite (concat_perm _ _ (sort_by_perm _ _)), <-Hm. unfold members_of, sorted_values, sorted_entries.
    rewrite (concat_perm (map snd (map_to_list groups)) (map snd (sort_by fst (map_to_list groups)))).
    2: { apply fmap_Permutation. by rewrite sort_by_perm. }
    generalize (sort_by fst (map_to_list groups)) as l. induction l as [|m l IH]; simpl; [done|].
    by rewrite IH, sort_by_perm.
  - apply Forall_forall. intros c (r & m & Hr & ->)%Hin. specialize (Hg r). rewrite Hr in Hg.
    split; [|apply sort_by_sorted]. intros E. destruct Hg as [Hne _]. apply Hne.
    apply Permutation_nil. rewrite <-(sort_by_perm (claim_key claims) m). by rewrite E.
  - apply sort_by_sorted.
  - intros i j Hi Hj. rewrite <-(rtsc_iff _ _ i j (overlaps_meet claims adj radius)), <-linked_pairs.
    rewrite length_map. destruct Hc as (_ & _ & Hc). rewrite length_map in Hc. rewrite <-Hc by done. split.
    + intros (c & (r & m & Hr & ->)%Hin & Hic & Hjc). specialize (Hg r). rewrite Hr in Hg.
      destruct Hg as [_ Hg]. rewrite sort_by_elem_of, Hg in Hic, Hjc.
      destruct Hic as [_ ->]. by destruct Hjc as [_ ->].
    + intros E. specialize (Hg (root_of parent i)).
      assert (i ∈ seq 0 (length claims)) as Hi' by (apply elem_of_seq; lia).
      assert (j ∈ seq 0 (length claims)) as Hj' by (apply elem_of_seq; lia).
      destruct (groups !! root_of parent i) as [m|] eqn:Hr; [|by destruct (Hg i Hi')].
      destruct Hg as [_ Hg]. exists (sort_by (claim_key claims) m). split; [apply Hin; eauto|].
      rewrite !sort_by_elem_of, !Hg. done.
Qed.
End partition_properties.

(** ** Examples *)

Lemma clusters_example :
  partition_into_clusters
    [claim_from_links (arr_rep 32 x05) zero32 [link_stake (arr_rep 32 x01) (arr_rep 32 x02) 1] 1;
     claim_from_links (arr_rep 32 x04) zero32 [link_stake (arr_rep 32 x07) (arr_rep 32 x08) 1] 1;
     claim_from_links (arr_rep 32 x03) zero32 [link_stake (arr_rep 32 x02) (arr_rep 32 x03) 1] 1] ∅ 0
  = Ok [[2; 0]; [1]].
Proof. by_vm. Qed.
