(* ===== verification/Epoch.v ===== *)
(** * Epoch: the live epoch runner (src/epoch.rs)

    An [epoch_runner] goes through propose, freeze, beacon and settlement;
    every operation returns the runner afterwards and its result.
    [epoch_step] are the calls a user of the runner can make, with the two
    public settings (outer delay, budget) it may assign; the phase, the
    claims and what they lead to change only through the operations.
    [None] is a fuel exhausted in the fold tree, which never happens. *)

From S2P Require Import Prelude Order Bytes Externals Goldilocks Instances Settlement Tickets Seals Marginal.
From S2P Require Import Vdf Beacon Rewards Partition.
From stdpp Require Import relations.

Section epoch.
Context {HM : Hemera} {NB : Nebu} {FX : Fixed} {TR : Tru} {ZH : Zheng} {TK : Tok}.

Inductive epoch_phase := Propose | Frozen | BeaconReady | Settled.
#[global] Instance epoch_phase_eq_dec : EqDecision epoch_phase.
Proof. solve_decision. Defined.

Inductive epoch_error :=
| WrongPhase
| EEmptyClaims
| NotFrozen
| NoBeacon
| BeaconInvalid
| EBudgetZero
| ENoTickets
| EProof (e : proof_error)
| EReward (e : reward_error)
| EInsufficientPrecision (k k_min : N).

Record epoch_runner := mk_runner {
  ep_epoch : N;
  ep_prev_beacon : particle;
  ep_phase : epoch_phase;
  ep_claims : list reward_claim;
  ep_claims_root : option particle;
  ep_beacon : option beacon_artifact;
  ep_receipt : option settle_receipt;
  ep_outer_t : N;
  ep_budget : N
}.

Definition runner_new (epoch : N) (prev_beacon : particle) : epoch_runner :=
  mk_runner epoch prev_beacon Propose [] None None None TEST_OUTER_T 1000.
Definition genesis (epoch : N) : epoch_runner := runner_new epoch GENESIS_PREV.

Definition clusters (r : epoch_runner) (adj : adjacency) (radius : nat)
    : result (fault Empty_set) (list (list nat)) :=
  partition_into_clusters (ep_claims r) adj radius.

Definition propose_runner (r : epoch_runner) (claim : reward_claim)
    : epoch_runner * result epoch_error unit :=
  if bool_decide (ep_phase r <> Propose) then (r, Err WrongPhase)
  else (mk_runner (ep_epoch r) (ep_prev_beacon r) (ep_phase r) (ep_claims r ++ [claim]) (ep_claims_root r)
          (ep_beacon r) (ep_receipt r) (ep_outer_t r) (ep_budget r), Ok ()).

Definition freeze (r : epoch_runner) : epoch_runner * result epoch_error particle :=
  if bool_decide (ep_phase r <> Propose) then (r, Err WrongPhase)
  else if bool_decide (length (ep_claims r) = 0) then (r, Err EEmptyClaims)
  else
    let cr := claims_root (map rc_id (ep_claims r)) in
    (mk_runner (ep_epoch r) (ep_prev_beacon r) Frozen (ep_claims r) (Some cr)
       (ep_beacon r) (ep_receipt r) (ep_outer_t r) (ep_budget r), Ok cr).

Definition open_runner_beacon (r : epoch_runner) (signal_vdfs : list vdf_proof)
    : epoch_runner * result epoch_error beacon_artifact :=
  if bool_decide (ep_phase r <> Frozen) then (r, Err WrongPhase)
  else
    match ep_claims_root r with
    | None => (r, Err NotFrozen)
    | Some cr =>
        let outputs := collect_signal_outputs signal_vdfs in
        let art := open_beacon (ep_epoch r) (ep_prev_beacon r) cr outputs (ep_outer_t r) in
        if negb (verify_beacon art) then (r, Err BeaconInvalid)
        else (mk_runner (ep_epoch r) (ep_prev_beacon r) BeaconReady (ep_claims r) (ep_claims_root r)
                (Some art) (ep_receipt r) (ep_outer_t r) (ep_budget r), Ok art)
    end.

Definition open_quiet_beacon (r : epoch_runner) : epoch_runner * result epoch_error beacon_artifact :=
  open_runner_beacon r [].

(** Sealing the local tickets after replaying them. *)
Definition epoch_ticket_seal (base : list link) (contribs : list contribution) (ctx : context)
    (params : focusing_params) (b_e cr : particle) (tickets : list settlement_ticket)
    : result (fault epoch_error) (option fold_seal) :=
  match tickets with
  | [] => Ok None
  | _ =>
      match prove_replayed_batch base contribs ctx params b_e cr tickets with
      | Ok s => Ok (Some s)
      | Err (Failed ReplayFailed) => Err (Failed ENoTickets)
      | Err (Failed (CProof p)) => Err (Failed (EProof p))
      | Err Panicked => Err Panicked
      end
  end.

(** Everything [settle_with_peers] does before the fold tree. *)
Definition epoch_prepare (r : epoch_runner) (base : list link) (ctx : context) (params : focusing_params)
    (policy : ticket_policy) (peer_accs : list cluster_acc)
    : result (fault epoch_error)
        (beacon_artifact * list contribution * fx * list cluster_acc * option fold_seal) :=
  if bool_decide (ep_phase r <> BeaconReady) then Err (Failed WrongPhase)
  else if (ep_budget r =? 0)%N then Err (Failed EBudgetZero)
  else
    art ← may_fail (ok_or NoBeacon (ep_beacon r));
    if negb (verify_beacon art) then Err (Failed BeaconInvalid)
    else
      let b_e := ba_beacon art in
      let cr := ba_claims_root art in
      contribs ← lift_fault (contributions_with_rho (ep_claims r));
      let all_links := concat (map rc_links (ep_claims r)) in
      let directed_total := impulse_directed base all_links ctx params (params_epsilon params) in
      tickets ← lift_fault (grind_settlement base contribs ctx params b_e cr (po_miner policy)
                  (po_start_nonce policy) (po_max_attempts policy) (po_want policy) (po_settle_target policy));
      let local := self_fold (length contribs) tickets in
      let leaves := local :: peer_accs in
      if forallb (fun a => (ac_k a =? 0)%N) leaves then Err (Failed ENoTickets)
      else
        ticket_seal ← epoch_ticket_seal base contribs ctx params b_e cr tickets;
        Ok (art, contribs, directed_total, leaves, ticket_seal).

(** From the proven fold tree to the receipt. *)
Definition epoch_receipt (r : epoch_runner) (policy : ticket_policy) (art : beacon_artifact)
    (contribs : list contribution) (directed_total : fx) (ticket_seal : option fold_seal)
    (proved : result proof_error (cluster_acc * fold_seal)) : result (fault epoch_error) settle_receipt :=
  '(root, fseal) ← may_fail (map_err EProof proved);
  if negb (verify_fold_seal fseal) then Err (Failed (EProof VerifyFailed))
  else if negb (meets_precision root (po_precision_epsilon policy) (po_precision_delta policy))
  then Err (Failed (EInsufficientPrecision (ac_k root)
         (k_min (po_precision_epsilon policy) (po_precision_delta policy))))
  else
    let raw_shares := mean_shares root (map cb_neuron contribs) in
    shares ← may_fail (map_err EReward (allocate_budget_pub raw_shares (ep_budget r) directed_total));
    Ok {| sr_epoch := ep_epoch r; sr_beacon := ba_beacon art; sr_claims_root := ba_claims_root art;
          sr_receipt_hash := receipt_hash_pub (ep_epoch r) (ba_beacon art) shares;
          sr_directed_total := directed_total; sr_budget := ep_budget r; sr_shares := shares;
          sr_beacon_artifact := Some art; sr_ticket_seal := ticket_seal; sr_fold_seal := Some fseal;
          sr_sample_count := ac_k root |}.

Definition settle_with_peers (r : epoch_runner) (base : list link) (ctx : context) (params : focusing_params)
    (policy : ticket_policy) (peer_accs : list cluster_acc)
    : option (epoch_runner * result (fault epoch_error) settle_receipt) :=
  match epoch_prepare r base ctx params policy peer_accs with
  | Err e => Some (r, Err e)
  | Ok (art, contribs, directed_total, leaves, ticket_seal) =>
      proved ← prove_fold_tree (ba_beacon art) (ba_claims_root art) leaves;
      Some (match epoch_receipt r policy art contribs directed_total ticket_seal proved with
            | Err e => (r, Err e)
            | Ok receipt =>
                (mk_runner (ep_epoch r) (ep_prev_beacon r) Settled (ep_claims r) (ep_claims_root r)
                   (ep_beacon r) (Some receipt) (ep_outer_t r) (ep_budget r), Ok receipt)
            end)
  end.

Definition settle (r : epoch_runner) (base : list link) (ctx : context) (params : focusing_params)
    (policy : ticket_policy) : option (epoch_runner * result (fault epoch_error) settle_receipt) :=
  settle_with_peers r base ctx params policy [].

Definition run_to_settle (r : epoch_runner) (base : list link) (ctx : context) (params : focusing_params)
    (signal_vdfs : list vdf_proof) (policy : ticket_policy)
    : option (epoch_runner * result (fault epoch_error) settle_receipt) :=
  let '(r, frozen) := if bool_decide (ep_phase r = Propose) then let '(r, x) := freeze r in (r, _ ← x; Ok ())
                      else (r, Ok ()) in
  match frozen with
  | Err e => Some (r, Err (Failed e))
  | Ok _ =>
      let '(r, opened) :=
        if bool_decide (ep_phase r = Frozen) then let '(r, x) := open_runner_beacon r signal_vdfs in (r, _ ← x; Ok ())
        else (r, Ok ()) in
      match opened with
      | Err e => Some (r, Err (Failed e))
      | Ok _ => settle r base ctx params policy
      end
  end.

Definition next_epoch (r : epoch_runner) : result epoch_error epoch_runner :=
  art ← ok_or NoBeacon (ep_beacon r);
  if bool_decide (ep_phase r <> Settled) then Err WrongPhase
  else Ok (runner_new (sat_add64 (ep_epoch r) 1) (ba_beacon art)).

Definition verify_live_receipt (r : settle_receipt) : bool :=
  if negb (verify_receipt r) then false
  else if match sr_beacon_artifact r with
          | Some art => negb (verify_beacon art) || negb (bool_decide (ba_beacon art = sr_beacon r))
          | None => true
          end then false
  else if match sr_ticket_seal r with Some s => negb (verify_fold_seal s) | None => true end then false
  else if match sr_fold_seal r with Some s => negb (verify_fold_seal s) | None => true end then false
  else true.

(** ** The runner as a state machine *)

Definition set_outer_t (r : epoch_runner) (t : N) : epoch_runner :=
  mk_runner (ep_epoch r) (ep_prev_beacon r) (ep_phase r) (ep_claims r) (ep_claims_root r) (ep_beacon r)
    (ep_receipt r) t (ep_budget r).
Definition set_budget (r : epoch_runner) (b : N) : epoch_runner :=
  mk_runner (ep_epoch r) (ep_prev_beacon r) (ep_phase r) (ep_claims r) (ep_claims_root r) (ep_beacon r)
    (ep_receipt r) (ep_outer_t r) b.

Inductive epoch_step : epoch_runner -> epoch_runner -> Prop :=
| step_propose r claim : epoch_step r (propose_runner r claim).1
| step_freeze r : epoch_step r (freeze r).1
| step_open r vdfs : epoch_step r (open_runner_beacon r vdfs).1
| step_settle r base ctx params policy peers r' res :
    (N.of_nat (S (length peers)) <= u64_max)%N -> (N.of_nat (po_want policy) <= u64_max)%N ->
    settle_with_peers r base ctx params policy peers = Some (r', res) -> epoch_step r r'
| step_run r base ctx params vdfs policy r' res :
    (N.of_nat (po_want policy) <= u64_max)%N ->
    run_to_settle r base ctx params vdfs policy = Some (r', res) -> epoch_step r r'
| step_outer_t r t : is_u64 t -> epoch_step r (set_outer_t r t)
| step_budget r b : is_u64 b -> epoch_step r (set_budget r b).

(** A runner of epoch [e] after beacon [prev], phase by phase. *)
Definition frozen_over (r : epoch_runner) : Prop :=
  ep_claims r <> [] /\ ep_claims_root r = Some (claims_root (map rc_id (ep_claims r))).
Definition opened_over (r : epoch_runner) (art : beacon_artifact) : Prop :=
  ep_beacon r = Some art /\ verify_beacon art = true /\ ba_epoch art = ep_epoch r /\
  ba_prev art = ep_prev_beacon r /\ ba_claims_root art = claims_root (map rc_id (ep_claims r)).

Definition consistent (e : N) (prev : particle) (r : epoch_runner) : Prop :=
  ep_epoch r = e /\ ep_prev_beacon r = prev /\ is_u64 (ep_budget r) /\
  match ep_phase r with
  | Propose => ep_claims_root r = None /\ ep_beacon r = None /\ ep_receipt r = None
  | Frozen => frozen_over r /\ ep_beacon r = None /\ ep_receipt r = None
  | BeaconReady => frozen_over r /\ (exists art, opened_over r art) /\ ep_receipt r = None
  | Settled => frozen_over r /\ exists art rc, opened_over r art /\ ep_receipt r = Some rc /\
      sr_beacon_artifact rc = Some art /\ sound_receipt e (sr_budget rc) (ep_claims r) rc /\
      (verify_live_receipt rc = true <-> is_Some (sr_ticket_seal rc))
  end.
End epoch.

(** ** Preservation *)

Section epoch_lemmas.
Context {HM : Hemera} {NB : Nebu} {FX : Fixed} {TR : Tru} {ZH : Zheng} {TK : Tok}.
Context {FA : FxAddLaws} {NL : NebuLaws} {FR : FxRawLaws} {TL : TruLaws} {ZL : ZhengLaws}.

Lemma propose_consistent e prev r claim : consistent e prev r -> consistent e prev (propose_runner r claim).1.
Proof.
  unfold propose_runner. case_bool_decide as Hp; [done|].
  unfold consistent. simpl. by rewrite Hp.
Qed.

Lemma freeze_spec e prev r :
  consistent e prev r ->
  consistent e prev (freeze r).1 /\
  match (freeze r).2 with
  | Ok _ => ep_phase r = Propose /\ ep_phase (freeze r).1 = Frozen
  | Err _ => (freeze r).1 = r
  end.
Proof.
  intros Hc. unfold freeze. case_bool_decide as Hp; [done|]. case_bool_decide as Hl; [done|]. simpl.
  split; [|done]. unfold consistent in *. simpl. rewrite Hp in Hc. destruct Hc as (? & ? & ? & ? & ? & ?).
  split_and!; [done..| |done|done]. split; [intros E; apply Hl; cbn in E; by rewrite E | done].
Qed.

Lemma open_spec e prev r vdfs :
  consistent e prev r ->
  consistent e prev (open_runner_beacon r vdfs).1 /\
  match (open_runner_beacon r vdfs).2 with
  | Ok _ => ep_phase r = Frozen /\ ep_phase (open_runner_beacon r vdfs).1 = BeaconReady
  | Err _ => (open_runner_beacon r vdfs).1 = r
  end.
Proof.
  intros Hc. unfold open_runner_beacon. case_bool_decide as Hp; [done|].
  destruct (ep_claims_root r) as [cr|] eqn:Hcr; [|done].
  destruct (verify_beacon _) eqn:Hv; simpl; [|done]. split; [|done].
  unfold consistent in *. simpl. rewrite Hp in Hc. destruct Hc as (? & ? & ? & [Hne Hroot] & ? & ?).
  rewrite Hroot in Hcr. injection Hcr as <-.
  split_and!; [done..|by split| |done]. eexists. by split_and!.
Qed.

Lemma epoch_ticket_seal_spec base contribs ctx params b_e cr tickets :
  (N.of_nat (length tickets) <= u64_max)%N ->
  match epoch_ticket_seal base contribs ctx params b_e cr tickets with
  | Ok s => seal_ok s = true
  | Err e => e <> Panicked
  end.
Proof.
  intros Hmax. unfold epoch_ticket_seal. destruct tickets as [|t tickets]; [done|].
  pose proof (prove_replayed_spec base contribs ctx params b_e cr (t :: tickets) ltac:(done) Hmax) as H.
  destruct (prove_replayed_batch _ _ _ _ _ _ _) as [s|[|[]]]; [apply H|done..].
Qed.

Lemma epoch_prepare_spec e prev r base ctx params policy peers :
  consistent e prev r -> (N.of_nat (po_want policy) <= u64_max)%N ->
  match epoch_prepare r base ctx params policy peers with
  | Ok (art, _, _, leaves, ts) => ep_phase r = BeaconReady /\ opened_over r art /\
      length leaves = S (length peers) /\ seal_ok ts = true
  | Err e => e <> Panicked
  end.
Proof.
  intros Hc Hw. unfold epoch_prepare. case_bool_decide as Hp; [done|]. destruct (_ =? 0)%N; [done|].
  unfold consistent in Hc. rewrite Hp in Hc. destruct Hc as (_ & _ & _ & _ & (art & Ho) & _).
  destruct Ho as (Hb & Hv & Ho). rewrite Hb. cbn. rewrite Hv. cbn.
  destruct (contributions_ok (ep_claims r)) as (contribs & -> & _). cbn.
  destruct (grind_ok base contribs ctx params (ba_beacon art) (ba_claims_root art) (po_miner policy)
    (po_start_nonce policy) (po_max_attempts policy) (po_want policy) (po_settle_target policy))
    as (tickets & -> & Hlen). cbn.
  destruct (_ && _); [done|].
  pose proof (epoch_ticket_seal_spec base contribs ctx params (ba_beacon art) (ba_claims_root art) tickets
    ltac:(lia)) as Hs.
  destruct (epoch_ticket_seal _ _ _ _ _ _ _); cbn; [|done]. by split_and!.
Qed.

Lemma live_receipt_spec rc art fs :
  verify_receipt rc = true -> sr_beacon_artifact rc = Some art -> sr_fold_seal rc = Some fs ->
  verify_live_receipt rc = true <-> is_Some (sr_ticket_seal rc).
Proof.
  intros Hv Ha Hf. unfold verify_live_receipt. rewrite Hv. cbn.
  apply verify_receipt_spec in Hv as (_ & Hart & Ht & Hfs). destruct (Hart art Ha) as [Hva Hb].
  rewrite Ha, Hva, bool_decide_eq_true_2 by done. cbn. rewrite Hf in *. simpl in Hfs. rewrite Hfs.
  destruct (sr_ticket_seal rc) as [s|]; simpl in *; [rewrite Ht; simpl; by split; eauto|].
  split; [done|by intros []].
Qed.

Lemma epoch_receipt_spec r policy art contribs total ts proved :
  is_u64 (ep_budget r) -> opened_over r art -> seal_ok ts = true ->
  match epoch_receipt r policy art contribs total ts proved with
  | Ok rc => sr_beacon_artifact rc = Some art /\ sound_receipt (ep_epoch r) (sr_budget rc) (ep_claims r) rc /\
      (verify_live_receipt rc = true <-> is_Some (sr_ticket_seal rc))
  | Err err => err <> Panicked
  end.
Proof.
  intros Hb (Hb' & Hv & He & Hprev & Hcr) Hts. unfold epoch_receipt.
  destruct proved as [[root fs]|pe]; cbn; [|done].
  destruct (verify_fold_seal fs) eqn:Hfs; cbn; [|done]. destruct (meets_precision _ _ _); cbn; [|done].
  unfold allocate_budget_pub.
  pose proof (allocate_spec (mean_shares root (map cb_neuron contribs)) (ep_budget r) total Hb) as Ha.
  destruct (allocate_budget _ _ _) as [shares|ae]; cbn; [|done].
  destruct Ha as (_ & _ & _ & _ & Hsum & _). rewrite Hcr.
  pose proof (receipt_sound (ep_epoch r) (ep_budget r) (ep_claims r) art total shares ts (Some fs) (ac_k root)
    He Hcr Hv Hts Hfs Hsum) as Hsr.
  split; [done|]. split; [exact Hsr|]. eapply live_receipt_spec; [apply Hsr|done|done].
Qed.

Lemma settle_peers_spec e prev r base ctx params policy peers :
  consistent e prev r -> (N.of_nat (S (length peers)) <= u64_max)%N -> (N.of_nat (po_want policy) <= u64_max)%N ->
  exists r' res, settle_with_peers r base ctx params policy peers = Some (r', res) /\
    consistent e prev r' /\
    match res with
    | Ok rc => ep_phase r = BeaconReady /\ ep_phase r' = Settled /\ ep_receipt r' = Some rc
    | Err err => r' = r /\ err <> Panicked
    end.
Proof.
  intros Hc Hp Hw. unfold settle_with_peers.
  pose proof (epoch_prepare_spec e prev r base ctx params policy peers Hc Hw) as Hprep.
  destruct (epoch_prepare _ _ _ _ _ _) as [[[[[art contribs] total] leaves] ts]|err]; [|by exists r, (Err err)].
  destruct Hprep as (Hph & Ho & Hl & Hts).
  destruct (prove_fold_tree_spec (ba_beacon art) (ba_claims_root art) zero32 0 leaves) as (proved & -> & _);
    [by intros ->|by rewrite Hl|]. cbn.
  pose proof (epoch_receipt_spec r policy art contribs total ts proved) as Hr.
  pose proof Hc as Hc0. unfold consistent in Hc. rewrite Hph in Hc.
  destruct Hc as (<- & <- & Hb & Hfz & _ & Hrec). specialize (Hr Hb Ho Hts).
  destruct (epoch_receipt _ _ _ _ _ _ _) as [rc|err]; eexists _, _; (split; [done|]); [|done].
  split; [|done]. destruct Hr as (Ha & Hs & Hlive). unfold consistent; simpl. split; [done|]. split; [done|]. split; [done|]. split; [done|].
  exists art, rc. split_and!; done.
Qed.

Lemma run_spec e prev r base ctx params vdfs policy :
  consistent e prev r -> (N.of_nat (po_want policy) <= u64_max)%N ->
  exists r' res, run_to_settle r base ctx params vdfs policy = Some (r', res) /\ consistent e prev r' /\
    match res with
    | Ok rc => ep_phase r' = Settled /\ ep_receipt r' = Some rc
    | Err err => err <> Panicked
    end.
Proof.
  intros Hc Hw. unfold run_to_settle, settle.
  assert (exists r1 f, (if bool_decide (ep_phase r = Propose) then let '(r, x) := freeze r in (r, _ ← x; Ok ())
      else (r, Ok ())) = (r1, f) /\ consistent e prev r1) as (r1 & f & E1 & Hc1).
  { case_bool_decide; [|eauto]. destruct (freeze_spec e prev r Hc) as [Hf _].
    destruct (freeze r) as [r1 x]. eexists _, _. split; [done | exact Hf]. }
  rewrite E1. destruct f as [[]|err]; [|by eexists _, _].
  assert (exists r2 f, (if bool_decide (ep_phase r1 = Frozen)
      then let '(r, x) := open_runner_beacon r1 vdfs in (r, _ ← x; Ok ()) else (r1, Ok ())) = (r2, f) /\
      consistent e prev r2) as (r2 & f & E2 & Hc2).
  { destruct (bool_decide (ep_phase r1 = Frozen)); [|eauto]. destruct (open_spec e prev r1 vdfs Hc1) as [Ho _].
    destruct (open_runner_beacon r1 vdfs) as [r2 x]. eexists _, _. split; [done | exact Ho]. }
  rewrite E2. destruct f as [[]|err]; [|by eexists _, _].
  destruct (settle_peers_spec e prev r2 base ctx params policy [] Hc2) as (r' & res & E & Hc' & Hres);
    [simpl; unfold u64_max; lia|done|].
  exists r', res. split; [done|]. split; [done|]. destruct res; by destruct Hres.
Qed.

Lemma step_consistent e prev r r' : consistent e prev r -> epoch_step r r' -> consistent e prev r'.
Proof.
  intros Hc Hs. destruct Hs as [r claim|r|r vdfs|r base ctx params policy peers r' res Hp Hw E|
    r base ctx params vdfs policy r' res Hw E|r t Ht|r b Hb].
  - by apply propose_consistent.
  - by apply freeze_spec.
  - by apply open_spec.
  - destruct (settle_peers_spec e prev r base ctx params policy peers Hc Hp Hw) as (? & ? & E' & ? & _).
    rewrite E in E'. by injection E' as -> _.
  - destruct (run_spec e prev r base ctx params vdfs policy Hc Hw) as (? & ? & E' & ? & _).
    rewrite E in E'. by injection E' as -> _.
  - exact Hc.
  - unfold consistent in *. simpl. by destruct Hc as (? & ? & _ & ?).
Qed.

Lemma new_consistent e prev : consistent e prev (runner_new e prev).
Proof. split_and!; [done|done|by vm_compute|]. simpl. done. Qed.

Lemma reachable_consistent e prev r : rtc epoch_step (runner_new e prev) r -> consistent e prev r.
Proof.
  pose proof (new_consistent e prev) as Hn. intros H. revert Hn.
  induction H as [x|x y z Hxy _ IH]; [done|]. intros Hx. apply IH. by eapply step_consistent.
Qed.
End epoch_lemmas.

(** ** Properties *)

Section epoch_properties.
Context {HM : Hemera} {NB : Nebu} {FX : Fixed} {TR : Tru} {ZH : Zheng} {TK : Tok}.
Context {FA : FxAddLaws} {NL : NebuLaws} {FR : FxRawLaws} {TL : TruLaws} {ZL : ZhengLaws}.

(** C24: The epoch life cycle: after any calls, a runner has claims root and
    beacon exactly from the phase that sets them on, the root is that of its
    claims, the beacon is verified and opened over that root and the epoch's
    parent; a settled runner holds a sound receipt of those claims and that
    beacon, which the live verifier accepts exactly when it carries a ticket
    seal; and the next epoch starts fresh from this epoch's beacon, only once
    settled. *)
Theorem epoch_lifecycle (e : N) (prev : particle) (r : epoch_runner) :
  rtc epoch_step (runner_new e prev) r ->
  consistent e prev r /\
  match next_epoch r with
  | Ok r' => ep_phase r = Settled /\ exists art, opened_over r art /\
      r' = runner_new (sat_add64 e 1) (ba_beacon art)
  | Err err => ep_phase r <> Settled
  end.
Proof.
  intros H%reachable_consistent. split; [done|]. unfold next_epoch.
  destruct H as (He & Hp & Hb & Hph). destruct (ep_phase r) eqn:Ep.
  - destruct Hph as (_ & -> & _). done.
  - destruct Hph as (_ & -> & _). done.
  - destruct Hph as (_ & (art & Ha) & _). destruct (Ha) as (-> & _). done.
  - destruct Hph as (_ & art & rc & Ha & _). pose proof Ha as (-> & _). cbn.
    rewrite He. split; [done|]. eauto.
Qed.

End epoch_properties.

(** ** Witnesses *)

Definition ex_runner : epoch_runner :=
  fold_left (fun r c => (propose_runner r c).1) ex_claims (runner_new 1 zero32).

Lemma epoch_lifecycle_witness :
  exists r, ep_phase r = Settled /\ consistent 1 zero32 r.
Proof.
  assert (match run_to_settle ex_runner [] context_none params_default [] policy_default with
          | Some (r, _) => bool_decide (ep_phase r = Settled) | None => false end = true) as Hs by by_vm.
  destruct (run_to_settle ex_runner [] context_none params_default [] policy_default) as [[r res]|] eqn:E;
    [|discriminate Hs].
  exists r. split; [by apply bool_decide_eq_true in Hs|].
  apply (epoch_lifecycle 1 zero32 r).
  eapply rtc_l; [apply (step_propose _ (nth 0 ex_claims (mk_claim zero32 zero32 [] fx_one fx_one)))|].
  eapply rtc_l; [apply (step_propose _ (nth 1 ex_claims (mk_claim zero32 zero32 [] fx_one fx_one)))|].
  apply rtc_once, (step_run ex_runner [] context_none params_default [] policy_default r res);
    [by vm_compute | exact E].
Defined.
