(* ===== verification/Gossip.v ===== *)
(** * Gossip: settlement messages, their compact codec and the mesh (src/gossip.rs)

    [settle_msg] are the messages, [content_id] their identity for
    deduplication.  [decode_self_acc] checks lengths before it slices: a
    reader that fails after its check is a panic of the source, so the
    decoder is an [outcome].  [settle_mesh] is the in-process mesh of peers
    with their inboxes, seen sets and subscriptions. *)

From S2P Require Import Prelude Order Bytes Externals Goldilocks Instances Settlement Tickets Seals Vdf Beacon Rewards.

Section gossip.
Context {HM : Hemera} {NB : Nebu} {FX : Fixed} {TR : Tru} {ZH : Zheng} {TK : Tok}.

Inductive settle_msg :=
| ClaimAnnounce (topic claim_id neuron : particle) (claim : reward_claim)
| SelfAcc (topic miner : particle) (acc : cluster_acc)
| ReceiptHash (topic receipt_hash : particle) (epoch : N).

Definition content_id (m : settle_msg) : particle :=
  match m with
  | ClaimAnnounce _ claim_id _ _ => claim_id
  | SelfAcc topic miner acc =>
      hemera_hash (str_bytes "selfacc" ++ arr_bytes topic ++ arr_bytes miner
        ++ arr_bytes (ac_commitment acc) ++ u64_le (ac_k acc))
  | ReceiptHash topic receipt_hash epoch =>
      hemera_hash (str_bytes "rcpt" ++ arr_bytes topic ++ arr_bytes receipt_hash ++ u64_le epoch)
  end.

Definition msg_topic (m : settle_msg) : particle :=
  match m with ClaimAnnounce t _ _ _ | SelfAcc t _ _ | ReceiptHash t _ _ => t end.

(** ** The compact codec of an accumulator *)

Definition FSC1 : list byte := str_bytes "FSC1".

Definition encode_self_acc (topic miner : particle) (acc : cluster_acc) : list byte :=
  FSC1 ++ arr_bytes topic ++ arr_bytes miner ++ u64_le (ac_k acc)
    ++ u32_le (as_u32 (N.of_nat (length (ac_sum_m acc)))) ++ concat (map fx_bytes (ac_sum_m acc))
    ++ u32_le (as_u32 (N.of_nat (size (ac_seen acc)))) ++ concat (map seen_bytes (sorted_elements (ac_seen acc)))
    ++ arr_bytes (ac_commitment acc).

Definition read_fx : reader fx := raw ← read_u64; mret (fx_from_raw (gf_new raw)).
Definition read_seen : reader (particle * N) := mid ← read_arr 32; nonce ← read_u64; mret (mid, nonce).

Definition fsc1_header : reader (particle * particle * N * N) :=
  topic ← read_arr 32; miner ← read_arr 32; k ← read_u64; n ← read_u32; mret (topic, miner, k, n).
Definition fsc1_sums (n : nat) : reader (list fx * N) :=
  sum_m ← read_many n read_fx; sn ← read_u32; mret (sum_m, sn).
Definition fsc1_seen (sn : nat) : reader (list (particle * N) * particle) :=
  seen ← read_many sn read_seen; commitment ← read_arr 32; mret (seen, commitment).

Definition decode_self_acc (bytes : list byte) : outcome (option (particle * particle * cluster_acc)) :=
  if bool_decide (length bytes < 4 + 32 + 32 + 8 + 4) then Done None
  else if negb (bool_decide (take 4 bytes = FSC1)) then Done None
  else
    match fsc1_header bytes 4 with
    | None => Panic
    | Some ((topic, miner, k, n), off) =>
        let n := N.to_nat n in
        if bool_decide (length bytes < off + n * 8 + 4) then Done None
        else
          match fsc1_sums n bytes off with
          | None => Panic
          | Some ((sum_m, sn), off) =>
              let sn := N.to_nat sn in
              if bool_decide (length bytes < off + sn * 40 + 32) then Done None
              else
                match fsc1_seen sn bytes off with
                | None => Panic
                | Some ((seen, commitment), _) =>
                    Done (Some (topic, miner, mk_acc sum_m k (list_to_set seen) commitment))
                end
          end
    end.

(** ** The mesh *)

Record peer_state := mk_peer {
  ps_inbox : list settle_msg;
  ps_seen : gset particle;
  ps_subs : gset particle
}.

Record settle_mesh := mk_mesh { sm_peers : gmap particle peer_state; sm_fanout : nat }.

Definition mesh_new (fanout : nat) : settle_mesh := mk_mesh ∅ (Nat.max fanout 2).

Definition peer_default : peer_state := mk_peer [] ∅ ∅.

Definition join (m : settle_mesh) (peer : particle) : settle_mesh :=
  match sm_peers m !! peer with
  | Some _ => m
  | None => mk_mesh (<[peer := peer_default]> (sm_peers m)) (sm_fanout m)
  end.

Definition subscribe (m : settle_mesh) (peer topic : particle) : settle_mesh :=
  match sm_peers m !! peer with
  | Some p => mk_mesh (<[peer := mk_peer (ps_inbox p) (ps_seen p) ({[topic]} ∪ ps_subs p)]> (sm_peers m))
                (sm_fanout m)
  | None => m
  end.

(** [if p.seen.insert(cid) { p.inbox.push_back(msg); delivered += 1 }] at one
    peer, if it exists. *)
Definition deliver (msg : settle_msg) (st : gmap particle peer_state * nat) (t : particle)
    : gmap particle peer_state * nat :=
  match st.1 !! t with
  | None => st
  | Some p =>
      if decide (content_id msg ∈ ps_seen p) then st
      else (<[t := mk_peer (ps_inbox p ++ [msg]) ({[content_id msg]} ∪ ps_seen p) (ps_subs p)]> st.1, st.2 + 1)
  end.

(** Peer [id] subscribes to everything or to the topic. *)
Definition wants (peers : gmap particle peer_state) (topic id : particle) : bool :=
  match peers !! id with
  | Some p => bool_decide (ps_subs p = ∅) || bool_decide (topic ∈ ps_subs p)
  | None => false
  end.

(** The first [fanout] other peers, by id, that want the topic. *)
Definition candidates (peers : gmap particle peer_state) (from topic : particle) : list particle :=
  List.filter (fun id => negb (bool_decide (id = from)) && wants peers topic id) (sorted_keys peers).
Definition targets (peers : gmap particle peer_state) (fanout : nat) (from topic : particle) : list particle :=
  take fanout (candidates peers from topic).

Definition publish (m : settle_mesh) (from : particle) (msg : settle_msg) : settle_mesh * nat :=
  let '(peers, delivered) := deliver msg (sm_peers m, 0) from in
  let ts := targets peers (sm_fanout m) from (msg_topic msg) in
  let '(peers, delivered) := fold_left (deliver msg) ts (peers, delivered) in
  (mk_mesh peers (sm_fanout m), delivered).

Definition set_inbox (m : settle_mesh) (peer : particle) (inbox : list settle_msg) : settle_mesh :=
  match sm_peers m !! peer with
  | Some p => mk_mesh (<[peer := mk_peer inbox (ps_seen p) (ps_subs p)]> (sm_peers m)) (sm_fanout m)
  | None => m
  end.

Definition drain (m : settle_mesh) (peer : particle) : settle_mesh * list settle_msg :=
  (set_inbox m peer [], from_option ps_inbox [] (sm_peers m !! peer)).

(** Extract the matching messages of the inbox and queue the others again. *)
Definition extract {A} (pick : settle_msg -> option A) (m : settle_mesh) (peer : particle)
    : settle_mesh * list A :=
  let '(m, msgs) := drain m peer in
  (set_inbox m peer (List.filter (fun x => bool_decide (pick x = None)) msgs), omap pick msgs).

Definition peer_accs (m : settle_mesh) (peer topic : particle) : settle_mesh * list cluster_acc :=
  extract (fun x => match x with SelfAcc t _ acc => if decide (t = topic) then Some acc else None | _ => None end)
    m peer.
Definition peer_claims (m : settle_mesh) (peer topic : particle) : settle_mesh * list reward_claim :=
  extract (fun x => match x with ClaimAnnounce t _ _ c => if decide (t = topic) then Some c else None | _ => None end)
    m peer.

Definition peer_count (m : settle_mesh) : nat := size (sm_peers m).

(** ** Delivery *)

(** The peer exists and has not seen the content. *)
Definition unseen (peers : gmap particle peer_state) (cid t : particle) : Prop :=
  match peers !! t with Some p => cid ∉ ps_seen p | None => False end.
#[global] Instance unseen_dec peers cid t : Decision (unseen peers cid t).
Proof. unfold unseen. destruct (peers !! t); apply _. Defined.

Definition receive (msg : settle_msg) (p : peer_state) : peer_state :=
  mk_peer (ps_inbox p ++ [msg]) ({[content_id msg]} ∪ ps_seen p) (ps_subs p).

Lemma deliver_all msg ts peers d :
  NoDup ts ->
  exists peers', fold_left (deliver msg) ts (peers, d)
      = (peers', d + length (filter (unseen peers (content_id msg)) ts)) /\
    forall p, peers' !! p = if decide (p ∈ filter (unseen peers (content_id msg)) ts)
                            then receive msg <$> peers !! p else peers !! p.
Proof.
  intros Hnd. revert peers d. induction Hnd as [|t ts Ht Hnd IH]; intros peers d; cbn [fold_left].
  { exists peers. split; [by rewrite Nat.add_0_r|]. intros p. by rewrite decide_False by apply not_elem_of_nil. }
  rewrite filter_cons. unfold deliver at 2. cbn [fst snd]. destruct (decide (unseen peers (content_id msg) t)) as [Hu|Hu].
  - unfold unseen in Hu. destruct (peers !! t) as [p|] eqn:Hp; [|done]. rewrite (decide_False _ _ Hu).
    fold (receive msg p). destruct (IH (<[t := receive msg p]> peers) (d + 1)) as (peers' & E & Hl).
    assert (filter (unseen (<[t := receive msg p]> peers) (content_id msg)) ts
      = filter (unseen peers (content_id msg)) ts) as Ef.
    { apply filter_agree. intros x Hx. unfold unseen. by rewrite lookup_insert_ne by (intros ->; done). }
    rewrite Ef in E, Hl. exists peers'. rewrite E. cbn [length]. split; [f_equal; lia|]. intros q.
    rewrite Hl. destruct (decide (q = t)) as [->|Hq].
    + rewrite decide_False by (intros [_ ?]%list_elem_of_filter; done).
      rewrite lookup_insert_eq, Hp, decide_True by constructor. done.
    + rewrite lookup_insert_ne by done. destruct (decide (q ∈ filter _ ts)) as [Hi|Hi].
      * by rewrite decide_True by (by constructor).
      * rewrite decide_False; [done|]. by intros [?|?]%elem_of_cons.
  - assert (match peers !! t with
            | Some p => if decide (content_id msg ∈ ps_seen p) then (peers, d)
                        else (<[t := mk_peer (ps_inbox p ++ [msg]) ({[content_id msg]} ∪ ps_seen p) (ps_subs p)]> peers, d + 1)
            | None => (peers, d) end = (peers, d)) as ->.
    { unfold unseen in Hu. destruct (peers !! t); [|done]. apply dec_stable in Hu. by rewrite decide_True. }
    apply IH.
Qed.

(** Who receives a publication: the publisher and its targets, unless they
    have seen it. *)
Definition receivers (m : settle_mesh) (from : particle) (msg : settle_msg) : list particle :=
  filter (unseen (sm_peers m) (content_id msg)) (from :: targets (sm_peers m) (sm_fanout m) from (msg_topic msg)).

Lemma candidates_insert peers from topic p p' :
  peers !! from = Some p -> candidates (<[from := p']> peers) from topic = candidates peers from topic.
Proof.
  intros Hp. unfold candidates. rewrite (sorted_keys_ext (<[from := p']> peers) peers).
  - apply filter_ext_in. intros id _. unfold wants.
    destruct (bool_decide_reflect (id = from)) as [->|Hne]; simpl; [done|]. by rewrite lookup_insert_ne.
  - intros k. destruct (decide (k = from)) as [->|Hne]; [by rewrite lookup_insert_eq, Hp|].
    by rewrite lookup_insert_ne.
Qed.

Lemma elem_of_candidates peers from topic id :
  id ∈ candidates peers from topic <-> id <> from /\ wants peers topic id = true.
Proof.
  unfold candidates. rewrite list_elem_of_In, filter_In, <-list_elem_of_In, andb_true_iff, negb_true_iff,
    bool_decide_eq_false, elem_of_sorted_keys. unfold wants. split; [tauto|].
  destruct (peers !! id); [eauto|by intros [_ ?]].
Qed.

Lemma targets_NoDup peers fanout from topic : NoDup (from :: targets peers fanout from topic).
Proof.
  constructor.
  - unfold targets. intros H. apply (fun H => elem_of_sublist _ (candidates peers from topic) _ H) in H; [|apply sublist_take].
    by apply elem_of_candidates in H as [? _].
  - apply (sublist_NoDup _ (candidates peers from topic)); [|apply sublist_take].
    apply NoDup_ListNoDup, List.NoDup_filter, NoDup_ListNoDup, sorted_keys_NoDup.
Qed.

Lemma publish_spec m from msg :
  (publish m from msg).2 = length (receivers m from msg) /\
  sm_fanout (publish m from msg).1 = sm_fanout m /\
  forall p, sm_peers (publish m from msg).1 !! p =
    if decide (p ∈ receivers m from msg) then receive msg <$> sm_peers m !! p else sm_peers m !! p.
Proof.
  unfold publish. destruct (deliver msg (sm_peers m, 0) from) as [peers1 d1] eqn:E1.
  assert (targets peers1 (sm_fanout m) from (msg_topic msg) = targets (sm_peers m) (sm_fanout m) from (msg_topic msg)) as ->.
  { unfold deliver in E1. simpl in E1. unfold targets. destruct (sm_peers m !! from) as [p|] eqn:Hp; [|by injection E1 as <- _].
    destruct (decide _); injection E1 as <- _; [done|]. by rewrite (candidates_insert _ _ _ _ _ Hp). }
  destruct (deliver_all msg (from :: targets (sm_peers m) (sm_fanout m) from (msg_topic msg)) (sm_peers m) 0
    (targets_NoDup _ _ _ _)) as (peers2 & E2 & Hl).
  cbn [fold_left] in E2. rewrite E1 in E2. rewrite E2. simpl. done.
Qed.

(** ** Runs of the mesh, with the log of deliveries *)

Inductive mesh_run : settle_mesh -> list (particle * particle) -> Prop :=
| run_new fanout : mesh_run (mesh_new fanout) []
| run_join m log peer : mesh_run m log -> mesh_run (join m peer) log
| run_subscribe m log peer topic : mesh_run m log -> mesh_run (subscribe m peer topic) log
| run_publish m log from msg : mesh_run m log ->
    mesh_run (publish m from msg).1 (log ++ map (fun t => (t, content_id msg)) (receivers m from msg))
| run_drain m log peer : mesh_run m log -> mesh_run (drain m peer).1 log
| run_accs m log peer topic : mesh_run m log -> mesh_run (peer_accs m peer topic).1 log
| run_claims m log peer topic : mesh_run m log -> mesh_run (peer_claims m peer topic).1 log.

(** The log has no repetition and is the seen sets; inboxes hold distinct
    seen contents. *)
Definition mesh_inv (m : settle_mesh) (log : list (particle * particle)) : Prop :=
  NoDup log /\
  (forall t cid, (t, cid) ∈ log <-> exists p, sm_peers m !! t = Some p /\ cid ∈ ps_seen p) /\
  (forall t p, sm_peers m !! t = Some p ->
     NoDup (map content_id (ps_inbox p)) /\ forall x, x ∈ ps_inbox p -> content_id x ∈ ps_seen p).

(** Replacing an inbox by some of its messages keeps the invariant. *)
Lemma set_inbox_inv m log peer inbox :
  mesh_inv m log -> (forall p, sm_peers m !! peer = Some p -> inbox `sublist_of` ps_inbox p) ->
  mesh_inv (set_inbox m peer inbox) log.
Proof.
  intros (Hnd & Hlog & Hin) Hsub. unfold set_inbox. destruct (sm_peers m !! peer) as [p|] eqn:Hp; [|done].
  specialize (Hsub p eq_refl). split; [done|]. split.
  - intros t cid. rewrite Hlog. simpl. destruct (decide (t = peer)) as [->|Hne].
    + rewrite lookup_insert_eq. split; intros (q & E & Hq).
      * rewrite Hp in E. injection E as <-. eauto.
      * injection E as <-. eauto.
    + by rewrite lookup_insert_ne.
  - intros t q. simpl. destruct (decide (t = peer)) as [->|Hne].
    + rewrite lookup_insert_eq. intros [= <-]. simpl. destruct (Hin peer p Hp) as [Hn Hs]. split.
      * eapply sublist_NoDup; [exact Hn|]. by apply fmap_sublist.
      * intros x Hx. apply Hs. by eapply elem_of_sublist.
    + rewrite lookup_insert_ne by done. apply Hin.
Qed.

Lemma list_filter_sublist {A} (f : A -> bool) l : List.filter f l `sublist_of` l.
Proof. induction l as [|x l IH]; simpl; [done|]. destruct (f x); by constructor. Qed.

Lemma drain_inv m log peer : mesh_inv m log -> mesh_inv (drain m peer).1 log.
Proof. intros H. apply set_inbox_inv; [done|]. intros p _. apply sublist_nil_l. Qed.

Lemma extract_inv {A} (pick : settle_msg -> option A) m log peer :
  mesh_inv m log -> mesh_inv (extract pick m peer).1 log.
Proof.
  intros H. unfold extract, drain. cbn [fst]. unfold set_inbox at 2.
  destruct (sm_peers m !! peer) as [p|] eqn:Hp; simpl.
  - unfold set_inbox. simpl. rewrite lookup_insert_eq. simpl. rewrite insert_insert_eq.
    pose proof (set_inbox_inv m log peer (List.filter (fun x => bool_decide (pick x = None)) (ps_inbox p)) H) as Hs.
    unfold set_inbox in Hs. rewrite Hp in Hs. apply Hs. intros q [= <-]. apply list_filter_sublist.
  - unfold set_inbox. by rewrite Hp.
Qed.

Lemma unseen_not_logged m log t cid : mesh_inv m log -> unseen (sm_peers m) cid t -> (t, cid) ∉ log.
Proof.
  intros (_ & Hlog & _) Hu (p & Hp & Hc)%Hlog. unfold unseen in Hu. by rewrite Hp in Hu.
Qed.

Lemma publish_inv m log from msg :
  mesh_inv m log ->
  mesh_inv (publish m from msg).1 (log ++ map (fun t => (t, content_id msg)) (receivers m from msg)).
Proof.
  intros H. pose proof H as (Hnd & Hlog & Hin). destruct (publish_spec m from msg) as (_ & _ & Hl).
  assert (forall t, t ∈ receivers m from msg -> unseen (sm_peers m) (content_id msg) t) as Hr.
  { intros t [? _]%list_elem_of_filter. done. }
  split; [|split].
  - apply NoDup_app. split; [done|]. split.
    + intros x Hx (t & -> & Ht)%list_elem_of_fmap. by apply (unseen_not_logged m log t (content_id msg) H) in Hx; [|auto].
    + apply (NoDup_fmap_2 (fun t => (t, content_id msg))). apply NoDup_filter, targets_NoDup.
  - intros t cid. rewrite elem_of_app, Hlog, Hl, list_elem_of_fmap.
    destruct (decide (t ∈ receivers m from msg)) as [Ht|Ht].
    + pose proof (Hr t Ht) as Hu. unfold unseen in Hu. destruct (sm_peers m !! t) as [p|]; [|done]. simpl. split.
      * intros [(q & [= <-] & Hq)|(t' & [= <- ->] & _)]; eexists; (split; [done|]); simpl;
          rewrite elem_of_union, elem_of_singleton; auto.
      * intros (q & [= <-] & Hq). simpl in Hq. apply elem_of_union in Hq as [->%elem_of_singleton|Hq];
          [right; by exists t|left; eauto].
    + split; [intros [?|(t' & [= <- ->] & ?)]; done|by left].
  - intros t p. rewrite Hl. destruct (decide (t ∈ receivers m from msg)) as [Ht|Ht]; [|apply Hin].
    pose proof (Hr t Ht) as Hu. unfold unseen in Hu. destruct (sm_peers m !! t) as [q|] eqn:Hq; [|done].
    intros [= <-]. destruct (Hin t q Hq) as [Hn Hs]. simpl. split.
    + rewrite map_app. apply NoDup_app. split; [done|]. split; [|apply NoDup_singleton].
      intros cid (x & E & Hx)%list_elem_of_fmap ->%list_elem_of_singleton. apply Hu. rewrite E. auto.
    + intros x [Hx| ->%list_elem_of_singleton]%elem_of_app; rewrite elem_of_union, elem_of_singleton; auto.
Qed.

Lemma run_inv m log : mesh_run m log -> mesh_inv m log.
Proof.
  induction 1 as [fanout|m log peer _ IH|m log peer topic _ IH|m log from msg _ IH|m log peer _ IH|
    m log peer topic _ IH|m log peer topic _ IH].
  - split; [constructor|]. cbn [sm_peers mesh_new]. split; [|by intros t p ?%lookup_empty_Some].
    intros t cid. split; [by intros ?%elem_of_nil|]. by intros (p & ?%lookup_empty_Some & _).
  - unfold join. destruct (sm_peers m !! peer) as [p|] eqn:Hp; [done|].
    destruct IH as (Hnd & Hlog & Hin). split; [done|]. split.
    + intros t cid. rewrite Hlog. simpl. destruct (decide (t = peer)) as [->|Hne].
      * rewrite lookup_insert_eq, Hp. split; [by intros (? & [=] & _)|]. intros (q & [= <-] & Hq). by apply elem_of_empty in Hq.
      * by rewrite lookup_insert_ne.
    + intros t q. simpl. destruct (decide (t = peer)) as [->|Hne]; [|rewrite lookup_insert_ne by done; apply Hin].
      rewrite lookup_insert_eq. intros [= <-]. split; [constructor|]. by intros x ?%elem_of_nil.
  - unfold subscribe. destruct (sm_peers m !! peer) as [p|] eqn:Hp; [|done].
    destruct IH as (Hnd & Hlog & Hin). split; [done|]. split.
    + intros t cid. rewrite Hlog. simpl. destruct (decide (t = peer)) as [->|Hne].
      * rewrite lookup_insert_eq, Hp. split; intros (q & [= <-] & Hq); eauto.
      * by rewrite lookup_insert_ne.
    + intros t q. simpl. destruct (decide (t = peer)) as [->|Hne]; [|rewrite lookup_insert_ne by done; apply Hin].
      rewrite lookup_insert_eq. intros [= <-]. apply (Hin peer p Hp).
  - by apply publish_inv.
  - by apply drain_inv.
  - by apply extract_inv.
  - by apply extract_inv.
Qed.
End gossip.

(** ** Properties *)

Section gossip_properties.
Context {HM : Hemera} {NB : Nebu} {FX : Fixed} {TR : Tru} {ZH : Zheng} {TK : Tok}.

(** Epidemic delivery: in every run of the mesh each peer receives each
    content at most once, an inbox holds only contents its peer has seen, each
    once; and a publication reaches exactly the publisher and the [fanout]
    subscribed peers with the smallest ids among the others, less those that
    have seen it, counts them, and changes nothing at any other peer. *)
Lemma mesh_at_most_once (m : settle_mesh) (log : list (particle * particle)) (from : particle) (msg : settle_msg) :
  mesh_run m log ->
  mesh_inv m log /\
  (publish m from msg).2 = length (receivers m from msg) /\
  length (targets (sm_peers m) (sm_fanout m) from (msg_topic msg))
    = Nat.min (sm_fanout m) (length (candidates (sm_peers m) from (msg_topic msg))) /\
  (forall id, id ∈ candidates (sm_peers m) from (msg_topic msg) <->
     id <> from /\ wants (sm_peers m) (msg_topic msg) id = true) /\
  forall p, sm_peers (publish m from msg).1 !! p =
    if decide (p ∈ receivers m from msg) then receive msg <$> sm_peers m !! p else sm_peers m !! p.
Proof.
  intros H. destruct (publish_spec m from msg) as (Hc & _ & Hl).
  split; [by apply run_inv|]. split; [done|]. split; [apply length_take|]. split; [apply elem_of_candidates|done].
Qed.
End gossip_properties.

(** ** Witnesses *)

(** Three peers besides the publisher and a fanout of two: the peer with the
    largest id never hears of the publication. *)
Definition ex_mesh : settle_mesh :=
  join (join (join (join (mesh_new 2) (arr_rep 32 x01)) (arr_rep 32 x02)) (arr_rep 32 x03)) (arr_rep 32 x04).
Definition ex_msg : settle_msg := ReceiptHash (arr_rep 32 x09) (arr_rep 32 x0a) 7.

Lemma mesh_at_most_once_witness :
  (publish ex_mesh (arr_rep 32 x01) ex_msg).2 = 3 /\
  sm_peers (publish ex_mesh (arr_rep 32 x01) ex_msg).1 !! arr_rep 32 x04 = Some peer_default.
Proof.
  destruct (mesh_at_most_once ex_mesh [] (arr_rep 32 x01) ex_msg) as (_ & Hc & _ & _ & Hl).
  { repeat constructor. }
  split; [rewrite Hc; by_vm|]. rewrite Hl. by_vm.
Defined.
