(* ===== verification/Agreement.v ===== *)
(** * Agreement: what the root of a fold tree holds, and miners that settle alike

    [represents] relates an accumulator to the tickets its leaves were folded
    from, counted as often as they occur: it is coarser than equality, since
    the commitment of an empty accumulator differs from that of a joined one.
    Every fold keeps it, so that a root depends on the tickets of its leaves
    only, and miners that exchanged their accumulators settle the same. *)

From S2P Require Import Prelude Order Bytes Externals Goldilocks Instances Settlement Tickets Seals Marginal Vdf Beacon Rewards Gossip.

Section roots.
Context {HM : Hemera} {NB : Nebu} {FX : Fixed} {TR : Tru} {FA : FxAddLaws}.

(** ** Accumulators and the tickets behind them *)

Definition keys_of (l : list settlement_ticket) : gset (particle * N) := list_to_set (map ticket_key l).
Definition of_dim (n : nat) (l : list settlement_ticket) : Prop := Forall (fun t => length (tk_marginals t) = n) l.

Record represents (n : nat) (a : cluster_acc) (l : list settlement_ticket) : Prop := mk_represents {
  rp_sum : ac_sum_m a = vec_sum n l;
  rp_seen : ac_seen a = keys_of l;
  rp_count : ac_k a = N.of_nat (size (keys_of l))
}.

Lemma keys_of_app l1 l2 : keys_of (l1 ++ l2) = keys_of l1 ∪ keys_of l2.
Proof. unfold keys_of. by rewrite map_app, list_to_set_app_L. Qed.

Lemma keys_of_perm l1 l2 : l1 ≡ₚ l2 -> keys_of l1 = keys_of l2.
Proof. intros H. unfold keys_of. by apply list_to_set_perm_L, Permutation_map. Qed.

Lemma keys_of_size l : size (keys_of l) <= length l.
Proof.
  unfold keys_of. induction l as [|t l IH]; [done|]. cbn [map list_to_set length].
  pose proof (size_union_alt {[ticket_key t]} (list_to_set (map ticket_key l) : gset (particle * N))) as E.
  rewrite size_singleton in E. rewrite union_comm_L, size_union_alt.
  assert (size ({[ticket_key t]} ∖ (list_to_set (map ticket_key l) : gset (particle * N))) <= 1); [|lia].
  rewrite <-(size_singleton (C := gset (particle * N)) (ticket_key t)). apply subseteq_size. set_solver.
Qed.

Lemma keys_of_distinct l : distinct_keys l -> size (keys_of l) = length l.
Proof. intros H. unfold keys_of. by rewrite size_list_to_set, length_map. Qed.

#[export] Instance represents_proper n a : Proper ((≡ₚ) ==> iff) (represents n a).
Proof.
  intros l1 l2 H. split; intros [H1 H2 H3]; split; rewrite ?H1, ?H2, ?H3;
    by rewrite ?(vec_sum_perm n _ _ H), ?(keys_of_perm _ _ H).
Qed.

Lemma represents_length n a l : of_dim n l -> represents n a l -> length (ac_sum_m a) = n.
Proof. intros Hd [H _ _]. rewrite H. by apply vec_sum_length. Qed.

(** Joining appends: overlapping leaves are summed again and counted once. *)
Lemma represents_join n a b l1 l2 :
  of_dim n l1 -> of_dim n l2 -> (N.of_nat (length (l1 ++ l2)) <= u64_max)%N ->
  represents n a l1 -> represents n b l2 -> represents n (fold_acc a b) (l1 ++ l2).
Proof.
  intros H1 H2 Hmax Ha Hb. pose proof (represents_length n a l1 H1 Ha) as La. pose proof (represents_length n b l2 H2 Hb) as Lb.
  destruct Ha as [Sa Ka Ca], Hb as [Sb Kb Cb]. pose proof (keys_of_size l1). pose proof (keys_of_size l2).
  rewrite length_app in Hmax. unfold fold_acc. rewrite La, Lb, Nat.max_id, (bool_decide_eq_true_2 (n = n)) by done. cbn [andb].
  case_bool_decide as Hi.
  - split; cbn [with_commitment ac_sum_m ac_seen ac_k].
    + by rewrite Sa, Sb, vec_sum_app.
    + by rewrite Ka, Kb, keys_of_app.
    + rewrite Ca, Cb, sat_add64_exact by lia. rewrite keys_of_app, size_union; [lia|].
      rewrite Ka, Kb in Hi. apply disjoint_intersection, size_empty_inv, Hi.
  - assert ((0 <? ac_k a + ac_k b)%N = true) as ->.
    { apply N.ltb_lt. rewrite Ca, Cb. rewrite Ka, Kb in Hi.
      assert (size (keys_of l1 ∩ keys_of l2) <= size (keys_of l1)) by (apply subseteq_size, intersection_subseteq_l). lia. }
    split; cbn [with_commitment ac_sum_m ac_seen ac_k].
    + by rewrite Sa, Sb, vec_sum_app.
    + by rewrite Ka, Kb, keys_of_app.
    + by rewrite Ka, Kb, keys_of_app.
Qed.

Lemma self_fold_distinct n l : of_dim n l -> distinct_keys l -> self_fold n l = canon n l.
Proof.
  intros Hd Hk. assert (NoDup l) as Hnd by (by apply NoDup_fmap_1 in Hk).
  apply self_fold_canon; [|done|done]. split; [done|]. intros t t' Ht Ht' E.
  apply list_elem_of_lookup in Ht as [i Hi], Ht' as [j Hj]. assert (i = j) as ->; [|congruence].
  unfold distinct_keys in Hk. rewrite NoDup_alt in Hk. apply (Hk i j (ticket_key t)); rewrite list_lookup_fmap, ?Hi, ?Hj; [done|].
  cbn. by rewrite E.
Qed.

Lemma represents_self_fold n l : of_dim n l -> distinct_keys l -> (N.of_nat (length l) <= u64_max)%N -> represents n (self_fold n l) l.
Proof.
  intros Hd Hk Hmax. rewrite self_fold_distinct by done.
  split; [apply canon_sum|apply canon_seen|]. rewrite canon_k, keys_of_distinct by done. lia.
Qed.

(** ** The fold tree *)

Lemma fold_level_represents n pair level bs :
  (forall a b, pair a b = fold_acc a b) -> of_dim n (concat bs) -> (N.of_nat (length (concat bs)) <= u64_max)%N ->
  Forall2 (represents n) level bs -> Forall2 (represents n) (fold_level pair level) (pair_up bs).
Proof.
  intros Hp. revert level. induction bs as [|l|l1 l2 bs IH] using pair_up_ind; intros level Hd Hmax Hr.
  - by inversion Hr.
  - by inversion Hr as [|a ? rest ? Ha Hrest]; subst; inversion Hrest; subst.
  - inversion Hr as [|a ? rest ? Ha Hrest]; subst. inversion Hrest as [|b ? rest' ? Hb Hrest']; subst.
    cbn [concat] in Hd, Hmax. unfold of_dim in Hd. rewrite !Forall_app in Hd. destruct Hd as (H1 & H2 & H3).
    rewrite !length_app in Hmax. cbn [fold_level pair_up]. constructor.
    + rewrite Hp. apply represents_join; [done..| |done|done]. rewrite length_app. lia.
    + apply IH; [done|lia|done].
Qed.

Lemma fold_levels_represents n beacon cluster miner target fuel lvl level bs :
  level <> [] -> length level <= S fuel -> of_dim n (concat bs) -> (N.of_nat (length (concat bs)) <= u64_max)%N ->
  Forall2 (represents n) level bs ->
  exists r, fold_levels fuel beacon cluster miner target lvl level = Some [r] /\ represents n r (concat bs).
Proof.
  revert lvl level bs. induction fuel as [|fuel IH]; intros lvl level bs Hne Hf Hd Hmax Hr;
    cbn [fold_levels]; case_bool_decide as Hl; try lia.
  1-2: destruct level as [|a [|]]; [done| |simpl in *; lia]; inversion Hr as [|? l ? ? Ha Hn]; subst; inversion Hn; subst;
    exists a; cbn [concat]; by rewrite app_nil_r.
  pose proof (fold_level_represents n (fold_pair beacon cluster miner target lvl) level bs
    (fold_pair_fold beacon cluster miner target lvl) Hd Hmax Hr) as Hr'.
  pose proof (Forall2_length _ _ _ Hr) as L. pose proof (Forall2_length _ _ _ Hr') as L'.
  pose proof (pair_up_length bs ltac:(lia)).
  destruct (IH (N.min (lvl + 1) u32_max) (fold_level (fold_pair beacon cluster miner target lvl) level) (pair_up bs))
    as (r & E & Hrr); rewrite ?pair_up_concat in *; [|lia|done..|].
  - destruct (fold_level _ level); [simpl in *; lia|done].
  - by exists r.
Qed.

Lemma root_represents n beacon cluster miner target leaves bs :
  leaves <> [] -> of_dim n (concat bs) -> (N.of_nat (length (concat bs)) <= u64_max)%N ->
  Forall2 (represents n) leaves bs ->
  exists r, assemble_fold_tree beacon cluster miner leaves target = Some r /\ represents n r (concat bs).
Proof.
  intros Hne Hd Hmax Hr. unfold assemble_fold_tree. destruct leaves as [|a leaves]; [done|].
  destruct (fold_levels_represents n beacon cluster miner target (length (a :: leaves)) 0 (a :: leaves) bs) as (r & -> & H);
    [done|lia|done..|]. by exists r.
Qed.
End roots.

(** ** Settling over exchanged accumulators *)

Section settling.
Context {HM : Hemera} {NB : Nebu} {FX : Fixed} {TR : Tru} {ZH : Zheng} {TK : Tok}.
Context {FA : FxAddLaws} {NL : NebuLaws} {FR : FxRawLaws} {TL : TruLaws} {ZL : ZhengLaws}.
(** One epoch, as every miner sees it. *)
Variables (epoch : N) (prev : particle) (base : list link) (claims : list reward_claim) (ctx : context)
  (params : focusing_params) (budget : N).

Definition settle_with (p : ticket_policy) (peers : list cluster_acc) : option (result (fault reward_error) settle_receipt) :=
  settle_with_peer_accs epoch prev base claims ctx params budget p peers.

(** What a miner grinds under its policy, and the accumulator it shares. *)
Definition mined (p : ticket_policy) : list settlement_ticket :=
  match open_epoch epoch prev claims budget, contributions_with_rho claims with
  | Ok (cr, art), Ok contribs =>
      unwrap_or [] (grind_settlement base contribs ctx params (ba_beacon art) cr (po_miner p) (po_start_nonce p)
        (po_max_attempts p) (po_want p) (po_settle_target p))
  | _, _ => []
  end.
Definition shared (p : ticket_policy) : cluster_acc := self_fold (length claims) (mined p).

(** Whether the miner could prove its own tickets. *)
Definition proved (p : ticket_policy) : bool :=
  match open_epoch epoch prev claims budget, contributions_with_rho claims with
  | Ok (cr, art), Ok contribs => is_ok (seal_tickets base contribs ctx params (ba_beacon art) cr (mined p))
  | _, _ => true
  end.

(** A receipt without its two proofs. *)
Definition unsealed (r : settle_receipt) : settle_receipt :=
  mk_receipt (sr_epoch r) (sr_beacon r) (sr_claims_root r) (sr_receipt_hash r) (sr_directed_total r) (sr_budget r)
    (sr_shares r) (sr_beacon_artifact r) None None (sr_sample_count r).

(** What a root pays. *)
Definition pays (cr : particle) (art : beacon_artifact) (contribs : list contribution) (total eps delta : fx) (root : cluster_acc)
    : result (fault reward_error) settle_receipt :=
  if (ac_k root =? 0)%N then Err (Failed NoTickets)
  else if negb (meets_precision root eps delta) then Err (Failed (InsufficientPrecision (ac_k root) (k_min eps delta)))
  else
    shares ← may_fail (allocate_budget (mean_shares root (map cb_neuron contribs)) budget total);
    Ok (mk_receipt epoch (ba_beacon art) cr (receipt_hash epoch (ba_beacon art) shares) total budget shares (Some art)
          None None (ac_k root)).

(** It depends on the sums and the count alone. *)
Lemma pays_content cr art contribs total eps delta r r' :
  ac_sum_m r = ac_sum_m r' -> ac_k r = ac_k r' -> pays cr art contribs total eps delta r = pays cr art contribs total eps delta r'.
Proof. unfold pays, meets_precision, mean_shares. by intros -> ->. Qed.

Lemma seal_tickets_error contribs b_e cr tickets e :
  seal_tickets base contribs ctx params b_e cr tickets = Err e -> e = Failed NoTickets.
Proof.
  intros H. pose proof (seal_tickets_spec base contribs ctx params b_e cr tickets) as Hs. rewrite H in Hs.
  unfold seal_tickets in H. destruct tickets; [done|].
  destruct (prove_replayed_batch _ _ _ _ _ _ _) as [sl|[|]]; [destruct (negb _)| |]; by inv_res.
Qed.

(** A settlement pays what the root of its own and the received leaves pays,
    if the miner can prove its own tickets. *)
Lemma settle_pays p peers cr art contribs total :
  (N.of_nat (S (length peers)) <= u64_max)%N ->
  open_epoch epoch prev claims budget = Ok (cr, art) -> weigh_claims base claims ctx params = Ok (contribs, total) ->
  exists o, settle_with p peers = Some o /\
    if proved p
    then exists root, assemble_fold_tree (ba_beacon art) cr (po_miner p) (shared p :: peers) (po_fold_target p) = Some root /\
           unsealed <$> o = pays cr art contribs total (po_precision_epsilon p) (po_precision_delta p) root
    else o = Err (Failed NoTickets).
Proof.
  intros Hmax Ho Hw. unfold settle_with, settle_with_peer_accs, shared, proved, mined. rewrite Ho, Hw.
  assert (contributions_with_rho claims = Ok contribs /\ length contribs = length claims) as [Hc Hl].
  { destruct (contributions_ok claims) as (cs & E & L). unfold weigh_claims in Hw. rewrite E in Hw. cbn in Hw. inv_res. }
  rewrite Hc. cbn [mbind result_bind].
  destruct (grind_ok base contribs ctx params (ba_beacon art) cr (po_miner p) (po_start_nonce p) (po_max_attempts p)
    (po_want p) (po_settle_target p)) as (tickets & Eg & _). rewrite Eg. cbn [lift_fault mbind result_bind unwrap_or].
  destruct (bool_decide (tickets = []) && bool_decide (peers = [])) eqn:Hempty.
  { apply andb_true_iff in Hempty as [->%bool_decide_eq_true ->%bool_decide_eq_true]. eexists. split; [done|].
    exists (acc_empty (length claims)). by split. }
  destruct (seal_tickets base contribs ctx params (ba_beacon art) cr tickets) as [seal|e] eqn:Es; cbn [mbind result_bind is_ok].
  2: { eexists. split; [done|]. by rewrite (seal_tickets_error _ _ _ _ _ Es). }
  destruct (fold_leaves_spec (ba_beacon art) cr p (self_fold (length contribs) tickets :: peers)) as (root & sl & Ef & _ & Ea);
    [done|exact Hmax|]. rewrite Ef. cbn [mbind option_bind].
  eexists. split; [done|]. exists root. rewrite <-Hl. split; [done|]. unfold pays.
  destruct (ac_k root =? 0)%N; [done|]. destruct (negb _); [done|].
  by destruct (may_fail (allocate_budget _ _ _)).
Qed.

(** ** The tickets of several miners *)

Definition unsaturated (p : ticket_policy) : Prop := (po_start_nonce p + N.of_nat (po_max_attempts p) <= u64_max)%N.

Lemma mined_spec p :
  length (mined p) <= po_want p /\ of_dim (length claims) (mined p) /\
  Forall (fun t => tk_miner t = po_miner p) (mined p) /\ (unsaturated p -> NoDup (map tk_nonce (mined p))).
Proof.
  unfold mined. destruct (open_epoch epoch prev claims budget) as [[cr art]|].
  2: { cbn. repeat split; [lia|constructor|constructor|intros _; constructor]. }
  destruct (contributions_ok claims) as (contribs & -> & Hl).
  destruct (grind_sound base contribs ctx params (ba_beacon art) cr (po_miner p) (po_start_nonce p) (po_max_attempts p)
    (po_want p) (po_settle_target p)) as (out & -> & Hlen & Hall & Hnd). cbn [unwrap_or]. split; [done|].
  rewrite <-Hl. unfold of_dim. rewrite Forall_forall in Hall. split; [|split; [|done]]; apply Forall_forall; intros t Ht.
  - destruct (Hall t Ht) as (_ & _ & Hm).
    destruct (marginals_ok base contribs ctx params (ordering (length contribs) (ba_beacon art) (tk_nonce t))
      (ordering_perm _ _ _)) as (m & E & Lm & _). congruence.
  - by destruct (Hall t Ht).
Qed.

Lemma mined_keys p : unsaturated p -> distinct_keys (mined p).
Proof.
  intros Hu. destruct (mined_spec p) as (_ & _ & _ & Hnd). specialize (Hnd Hu). unfold distinct_keys.
  apply (NoDup_fmap_1 snd). rewrite <-list_fmap_compose. exact Hnd.
Qed.

(** The tickets of miners with different names. *)
Definition all_mined (miners : list ticket_policy) : list settlement_ticket := concat (map mined miners).

Lemma all_mined_dim miners : of_dim (length claims) (all_mined miners).
Proof.
  unfold all_mined, of_dim. apply Forall_concat, Forall_map, Forall_forall. intros p _. by destruct (mined_spec p) as (_ & ? & _).
Qed.

Lemma all_mined_length miners : length (all_mined miners) <= sum_list_with po_want miners.
Proof.
  unfold all_mined. induction miners as [|p miners IH]; [done|]. cbn [map concat sum_list_with]. rewrite length_app.
  destruct (mined_spec p) as (? & _). lia.
Qed.

Lemma all_mined_distinct miners : NoDup (map po_miner miners) -> Forall unsaturated miners -> distinct_keys (all_mined miners).
Proof.
  unfold distinct_keys, all_mined. induction miners as [|p miners IH]; cbn [map concat]; [intros; constructor|].
  intros [Hp Hm]%NoDup_cons [Hu Hus]%Forall_cons. rewrite map_app. apply NoDup_app.
  split; [by apply mined_keys|]. split; [|by apply IH]. intros k Hk Hk'.
  apply list_elem_of_fmap in Hk as (t & -> & Ht), Hk' as (t' & E & Ht').
  apply list_elem_of_In, in_concat in Ht' as (l & Hl & Ht'). apply list_elem_of_In, list_elem_of_fmap in Hl as (q & -> & Hq).
  apply Hp, list_elem_of_fmap. exists q. split; [|done].
  destruct (mined_spec p) as (_ & _ & Hmp & _), (mined_spec q) as (_ & _ & Hmq & _). rewrite Forall_forall in Hmp, Hmq.
  rewrite <-(Hmp t Ht), <-(Hmq t'); [by injection E|by apply list_elem_of_In].
Qed.

Lemma shared_represents p : unsaturated p -> (N.of_nat (po_want p) <= u64_max)%N -> represents (length claims) (shared p) (mined p).
Proof.
  intros Hu Hw. destruct (mined_spec p) as (Hl & Hd & _). apply represents_self_fold; [done|by apply mined_keys|lia].
Qed.

Lemma shared_all miners : Forall unsaturated miners -> (N.of_nat (sum_list_with po_want miners) <= u64_max)%N ->
  Forall2 (represents (length claims)) (map shared miners) (map mined miners).
Proof.
  induction miners as [|p miners IH]; intros Hu Hs; cbn [map]; constructor; apply Forall_cons in Hu as [Hp Hu]; cbn [sum_list_with] in Hs.
  - apply shared_represents; [done|lia].
  - apply IH; [done|lia].
Qed.

(** ** Agreement *)

Definition same_precision (p q : ticket_policy) : Prop :=
  po_precision_epsilon p = po_precision_epsilon q /\ po_precision_delta p = po_precision_delta q.

(** A coordinator looks for no tickets of its own. *)
Definition idle (p : ticket_policy) : Prop := po_want p = 0.

(** The policies behind one settlement: all miners, each once, in any order,
    and coordinators. *)
Definition gathered (miners l : list ticket_policy) : Prop :=
  exists others, l ≡ₚ miners ++ others /\ Forall idle others.

Lemma idle_mined p : idle p -> mined p = [].
Proof. intros Hi. destruct (mined_spec p) as [Hl _]. apply nil_length_inv. unfold idle in Hi. lia. Qed.

Lemma idle_proved p : idle p -> proved p = true.
Proof.
  intros Hi. unfold proved. rewrite (idle_mined p Hi).
  destruct (open_epoch epoch prev claims budget) as [[cr art]|]; [|done]. by destruct (contributions_with_rho claims).
Qed.

Lemma gathered_tickets miners l : gathered miners l -> all_mined l ≡ₚ all_mined miners.
Proof.
  intros (others & Hp & Ho). unfold all_mined. rewrite Hp, map_app, concat_app. clear Hp.
  assert (concat (map mined others) = []) as ->; [|by rewrite app_nil_r].
  induction Ho as [|p others Hp _ IH]; [done|]. cbn [map concat]. by rewrite idle_mined.
Qed.

Lemma gathered_want miners l : gathered miners l -> sum_list_with po_want l = sum_list_with po_want miners.
Proof.
  intros (others & Hp & Ho).
  assert (sum_list_with po_want l = sum_list_with po_want (miners ++ others)) as -> by (clear -Hp; induction Hp; simpl; lia).
  rewrite sum_list_with_app. enough (sum_list_with po_want others = 0) by lia. clear Hp.
  induction Ho as [|p others Hi _ IH]; [done|]. cbn [sum_list_with]. unfold idle in Hi. lia.
Qed.

Lemma gathered_represented miners l : gathered miners l -> Forall unsaturated miners -> 
  (N.of_nat (sum_list_with po_want miners) <= u64_max)%N -> Forall2 (represents (length claims)) (map shared l) (map mined l).
Proof.
  intros Hg Hu Hs. pose proof (gathered_want _ _ Hg) as Hw. destruct Hg as (others & Hp & Ho).
  apply (Forall2_fmap_2 shared mined), Forall_Forall2_diag, Forall_forall. intros p Hin.
  assert (po_want p <= sum_list_with po_want l) as Hle.
  { by apply sum_list_with_in. }
  rewrite Hp in Hin. apply elem_of_app in Hin as [Hin|Hin].
  - apply shared_represents; [by apply (proj1 (Forall_forall _ _) Hu)|lia].
  - assert (mined p = []) as E by (by apply idle_mined, (proj1 (Forall_forall _ _) Ho)).
    unfold shared. rewrite E. by apply represents_self_fold; [constructor|constructor|].
Qed.

(** The root over the accumulators of all miners, in any order. *)
Lemma root_of_miners beacon cluster miner target leaves miners :
  gathered miners leaves -> leaves <> [] -> Forall unsaturated miners -> (N.of_nat (sum_list_with po_want miners) <= u64_max)%N ->
  exists r, assemble_fold_tree beacon cluster miner (map shared leaves) target = Some r /\
    represents (length claims) r (all_mined miners).
Proof.
  intros Hg Hne Hu Hs. pose proof (all_mined_length leaves) as Hlen. rewrite (gathered_want _ _ Hg) in Hlen.
  destruct (root_represents (length claims) beacon cluster miner target (map shared leaves) (map mined leaves)) as (r & E & Hr).
  - intros H. by destruct leaves.
  - apply all_mined_dim.
  - unfold all_mined in Hlen. lia.
  - by apply (gathered_represented miners).
  - exists r. split; [done|]. rewrite <-(gathered_tickets _ _ Hg). exact Hr.
Qed.

(** What a settlement over gathered accumulators comes to. *)
Lemma settle_gathered miners p ps :
  (N.of_nat (S (length ps)) <= u64_max)%N -> (N.of_nat (sum_list_with po_want miners) <= u64_max)%N ->
  NoDup (map po_miner miners) -> Forall unsaturated miners -> gathered miners (p :: ps) -> proved p = true ->
  exists o, settle_with p (map shared ps) = Some o /\
    (forall r, o = Ok r -> sr_sample_count r = N.of_nat (length (all_mined miners))) /\
    match open_epoch epoch prev claims budget, weigh_claims base claims ctx params with
    | Ok (cr, art), Ok (contribs, total) =>
        unsealed <$> o = pays cr art contribs total (po_precision_epsilon p) (po_precision_delta p)
          (mk_acc (vec_sum (length claims) (all_mined miners)) (N.of_nat (length (all_mined miners))) ∅ zero32)
    | Err e, _ => o = Err e
    | _, Err _ => False
    end.
Proof.
  intros Hm Hs Hnd Hu Hg Hp. destruct (open_epoch epoch prev claims budget) as [[cr art]|e] eqn:Ho.
  2: { exists (Err e). unfold settle_with, settle_with_peer_accs. rewrite Ho. by split_and!. }
  destruct (weigh_ok base claims ctx params) as (contribs & total & Hw). rewrite Hw.
  destruct (settle_pays p (map shared ps) cr art contribs total) as (o & Eo & Hpay); [by rewrite length_map|done|done|].
  rewrite Hp in Hpay. destruct Hpay as (r & Er & Hpay).
  destruct (root_of_miners (ba_beacon art) cr (po_miner p) (po_fold_target p) (p :: ps) miners Hg ltac:(done) Hu Hs) as (r' & Er' & [S1 _ K1]).
  assert (r' = r) as -> by (cbn [map] in Er'; congruence). rewrite keys_of_distinct in K1 by (by apply all_mined_distinct).
  exists o. split; [done|]. split; [|by rewrite Hpay; apply pays_content].
  intros rc ->. rewrite <-K1. clear -Hpay. unfold pays in Hpay. destruct (_ =? _)%N; [done|]. destruct (negb _); [done|].
  destruct (may_fail _); [|done]. cbn in Hpay. by injection Hpay.
Qed.

(** Two parties over the same miners. *)
Lemma settle_alike miners p ps q qs :
  (N.of_nat (S (length ps)) <= u64_max)%N -> (N.of_nat (S (length qs)) <= u64_max)%N ->
  (N.of_nat (sum_list_with po_want miners) <= u64_max)%N -> NoDup (map po_miner miners) -> Forall unsaturated miners ->
  gathered miners (p :: ps) -> gathered miners (q :: qs) -> same_precision p q ->
  (idle p \/ proved p = true) -> (idle q \/ proved q = true) ->
  exists op oq, settle_with p (map shared ps) = Some op /\ settle_with q (map shared qs) = Some oq /\
    unsealed <$> op = unsealed <$> oq /\
    (forall r, op = Ok r -> sr_sample_count r = N.of_nat (length (all_mined miners))).
Proof.
  intros Hlp Hlq Hs Hnd Hu Hp Hq [Ee Ed] Hpp Hpq.
  assert (proved p = true) as Pp by (destruct Hpp; [by apply idle_proved|done]).
  assert (proved q = true) as Pq by (destruct Hpq; [by apply idle_proved|done]).
  destruct (settle_gathered miners p ps Hlp Hs Hnd Hu Hp Pp) as (op & Eop & Cp & Hop).
  destruct (settle_gathered miners q qs Hlq Hs Hnd Hu Hq Pq) as (oq & Eoq & _ & Hoq).
  exists op, oq. split; [done|]. split; [done|]. split; [|done].
  destruct (open_epoch _ _ _ _) as [[cr art]|e]; [|by subst]. destruct (weigh_claims _ _ _ _) as [[contribs total]|]; [|done].
  by rewrite Hop, Hoq, Ee, Ed.
Qed.

(** C12: miners that exchanged their accumulators settle alike: of miners with
    different names, any two parties that received the accumulators of all the
    miners but themselves, each once and in any order - miners that proved
    their own tickets, or coordinators that look for none - end with the same
    receipt up to its two proofs, or with the same error. *)
Theorem miners_agree (miners ps qs : list ticket_policy) (p q : ticket_policy) :
  (N.of_nat (S (length ps)) <= u64_max)%N -> (N.of_nat (S (length qs)) <= u64_max)%N ->
  (N.of_nat (sum_list_with po_want miners) <= u64_max)%N ->
  NoDup (map po_miner miners) -> Forall unsaturated miners ->
  gathered miners (p :: ps) -> gathered miners (q :: qs) -> same_precision p q ->
  (idle p \/ proved p = true) -> (idle q \/ proved q = true) ->
  exists op oq, settle_with p (map shared ps) = Some op /\ settle_with q (map shared qs) = Some oq /\
    unsealed <$> op = unsealed <$> oq /\
    forall rp rq, op = Ok rp -> oq = Ok rq -> sr_receipt_hash rp = sr_receipt_hash rq /\
      sr_sample_count rp = N.of_nat (length (all_mined miners)).
Proof.
  intros Hlp Hlq Hs Hnd Hu Hp Hq Hpr Hpp Hpq.
  destruct (settle_alike miners p ps q qs) as (op & oq & Eop & Eoq & E & Cp); [done..|].
  exists op, oq. split; [done|]. split; [done|]. split; [done|].
  intros rp rq -> ->. split; [|by apply Cp]. cbn in E. by injection E.
Qed.

(** A miner that folds its own accumulator once more, as one received from
    the mesh: its marginals are summed twice and its tickets counted once. *)
Lemma own_acc_counts_twice beacon cluster miner target p ps :
  Forall unsaturated (p :: ps) -> NoDup (map po_miner (p :: ps)) ->
  (N.of_nat (po_want p + sum_list_with po_want (p :: ps)) <= u64_max)%N ->
  exists r, assemble_fold_tree beacon cluster miner (shared p :: shared p :: map shared ps) target = Some r /\
    ac_sum_m r = zip_with fx_add (vec_sum (length claims) (mined p)) (vec_sum (length claims) (all_mined (p :: ps))) /\
    ac_k r = N.of_nat (length (all_mined (p :: ps))).
Proof.
  intros Hu Hnd Hs. pose proof Hu as [Hp _]%Forall_cons. pose proof (all_mined_length (p :: p :: ps)) as Hlen. cbn [sum_list_with] in *.
  destruct (root_represents (length claims) beacon cluster miner target (map shared (p :: p :: ps)) (map mined (p :: p :: ps)))
    as (r & E & [R1 _ R3]).
  - done.
  - apply all_mined_dim.
  - unfold all_mined in Hlen. lia.
  - apply shared_all; [by constructor|]. cbn [sum_list_with]. lia.
  - exists r. split; [done|]. rewrite R1, R3. cbn [map concat]. change (mined p ++ concat (map mined ps)) with (all_mined (p :: ps)).
    split; [by apply vec_sum_app, all_mined_dim|]. f_equal. rewrite <-keys_of_distinct by (by apply all_mined_distinct).
    f_equal. rewrite keys_of_app. apply subseteq_union_1_L. unfold all_mined. cbn [map concat]. rewrite keys_of_app. apply union_subseteq_l.
Qed.
End settling.

(** What a peer publishes on the mesh is among the accumulators it collects. *)
Lemma mesh_returns_own {HM : Hemera} {NB : Nebu} {FX : Fixed} m from topic miner acc p :
  sm_peers m !! from = Some p -> content_id (SelfAcc topic miner acc) ∉ ps_seen p ->
  acc ∈ (peer_accs (publish m from (SelfAcc topic miner acc)).1 from topic).2.
Proof.
  intros Hp Hc. unfold peer_accs, extract, drain. cbn [snd].
  destruct (publish_spec m from (SelfAcc topic miner acc)) as (_ & _ & Hl). rewrite Hl.
  rewrite decide_True.
  - rewrite Hp. cbn. apply list_elem_of_omap. exists (SelfAcc topic miner acc).
    split; [apply elem_of_app; right; constructor|]. by rewrite decide_True.
  - unfold receivers. apply list_elem_of_filter. split; [|constructor]. unfold unseen. by rewrite Hp.
Qed.

(** ** Witness *)

Definition ex_miner (name : byte) : ticket_policy := mk_policy 2 4 0 easy_target easy_target (arr_rep 32 name) fx_one fx_one.
Definition ex_miners : list ticket_policy := [ex_miner x01; ex_miner x02; ex_miner x03].
(** The first miner settles with the folds of the others, a coordinator with
    the folds of all. *)
Definition ex_coordinator : ticket_policy := mk_policy 0 4 0 easy_target easy_target (arr_rep 32 x09) fx_one fx_one.

Lemma miners_agree_witness :
  exists op oq,
    settle_with 1 zero32 [] ex_claims context_none params_default 100 (ex_miner x01)
      (map (shared 1 zero32 [] ex_claims context_none params_default 100) [ex_miner x02; ex_miner x03]) = Some (Ok op) /\
    settle_with 1 zero32 [] ex_claims context_none params_default 100 ex_coordinator
      (map (shared 1 zero32 [] ex_claims context_none params_default 100) [ex_miner x03; ex_miner x02; ex_miner x01]) = Some (Ok oq) /\
    sr_receipt_hash op = sr_receipt_hash oq.
Proof.
  destruct (miners_agree 1 zero32 [] ex_claims context_none params_default 100 ex_miners
    [ex_miner x02; ex_miner x03] [ex_miner x03; ex_miner x02; ex_miner x01] (ex_miner x01) ex_coordinator)
    as (op & oq & Ep & Eq & E & Hr).
  1-3: by vm_compute.
  - apply (bool_decide_eq_true_1 _). by_vm.
  - repeat constructor; by vm_compute.
  - exists []. split; [done|constructor].
  - exists [ex_coordinator]. split; [|by repeat constructor].
    exact (Permutation_rev [ex_coordinator; ex_miner x03; ex_miner x02; ex_miner x01]).
  - done.
  - right. by_vm.
  - by left.
  - assert (match settle_with 1 zero32 [] ex_claims context_none params_default 100 (ex_miner x01)
      (map (shared 1 zero32 [] ex_claims context_none params_default 100) [ex_miner x02; ex_miner x03]) with Some (Ok _) => true | _ => false end = true) as Hok by by_vm.
    rewrite Ep in Hok. destruct op as [rp|]; [|discriminate Hok]. destruct oq as [rq|]; [|discriminate E].
    exists rp, rq. split; [done|]. split; [done|]. by destruct (Hr rp rq eq_refl eq_refl).
Defined.
