(* ===== verification/Wire.v ===== *)
(** * Wire: the binary codec of settlement messages (src/wire.rs)

    A frame is a [u32] length and a body; a body is the magic, a version, a
    type byte and the fields of the message.  Every read checks the remaining
    length, so the decoder is a reader that fails but never panics.  The
    preallocations are definitions of their own, since they are sized by a
    count the sender chose. *)

From S2P Require Import Prelude Order Bytes Externals Goldilocks Instances Settlement Tickets Seals Vdf Beacon Rewards Gossip.

Section wire.
Context {HM : Hemera} {NB : Nebu} {FX : Fixed} {TR : Tru} {ZH : Zheng} {TK : Tok}.

Definition MAGIC : list byte := str_bytes "FSET".
Definition VERSION : byte := x01.
Definition TY_CLAIM : byte := x01.
Definition TY_SELF_ACC : byte := x02.
Definition TY_RECEIPT : byte := x03.
Definition LINK_MIN_BYTES : nat := 32 + 32 + 32 + 16 + 1 + 8.

(** ** Encoding *)

Definition header (ty : byte) : list byte := MAGIC ++ [VERSION] ++ [ty].

Definition encode_link (l : link) : list byte :=
  arr_bytes (l_neuron l) ++ arr_bytes (l_from l) ++ arr_bytes (l_to l) ++ u128_le (l_amount l)
    ++ [u8_of_i8 (l_valence l)] ++ fx_bytes (l_price l).

Definition encode_claim_body (c : reward_claim) : list byte :=
  fx_bytes (rc_belief c) ++ fx_bytes (rc_prediction c)
    ++ u32_le (as_u32 (N.of_nat (length (rc_links c)))) ++ concat (map encode_link (rc_links c)).

Definition encode_acc_body (acc : cluster_acc) : list byte :=
  u64_le (ac_k acc)
    ++ u32_le (as_u32 (N.of_nat (length (ac_sum_m acc)))) ++ concat (map fx_bytes (ac_sum_m acc))
    ++ u32_le (as_u32 (N.of_nat (size (ac_seen acc)))) ++ concat (map seen_bytes (sorted_elements (ac_seen acc)))
    ++ arr_bytes (ac_commitment acc).

Definition encode_settle_msg (msg : settle_msg) : list byte :=
  match msg with
  | ClaimAnnounce topic claim_id neuron claim =>
      header TY_CLAIM ++ arr_bytes topic ++ arr_bytes claim_id ++ arr_bytes neuron ++ encode_claim_body claim
  | SelfAcc topic miner acc =>
      header TY_SELF_ACC ++ arr_bytes topic ++ arr_bytes miner ++ encode_acc_body acc
  | ReceiptHash topic receipt_hash epoch =>
      header TY_RECEIPT ++ arr_bytes topic ++ arr_bytes receipt_hash ++ u64_le epoch
  end.

(** ** Decoding *)

Definition decode_link : reader link :=
  neuron ← read_arr 32; from ← read_arr 32; to ← read_arr 32; amount ← read_u128;
  valence ← read_byte; price ← read_fx;
  mret (mk_link neuron from to amount (i8_of_u8 valence) price).

Definition decode_claim_body (id neuron : particle) : reader reward_claim :=
  belief ← read_fx; prediction ← read_fx; n ← read_u32;
  links ← read_many (N.to_nat n) decode_link;
  mret (mk_claim id neuron links belief prediction).

Definition decode_acc_body : reader cluster_acc :=
  k ← read_u64; n ← read_u32; sum_m ← read_many (N.to_nat n) read_fx;
  sn ← read_u32; seen ← read_many (N.to_nat sn) read_seen; commitment ← read_arr 32;
  mret (mk_acc sum_m k (list_to_set seen) commitment).

(** The entries [Vec::with_capacity] reserves for the links of a claim and
    the sums of an accumulator, given the count read before the cursor. *)
Definition link_capacity (bytes : list byte) (off n : nat) : nat :=
  Nat.min n ((length bytes - off) / LINK_MIN_BYTES).
Definition sum_capacity (bytes : list byte) (off n : nat) : nat := Nat.min n ((length bytes - off) / 8).

Definition decode_payload (ty : byte) : reader settle_msg :=
  if Byte.eqb ty TY_CLAIM then
    topic ← read_arr 32; claim_id ← read_arr 32; neuron ← read_arr 32;
    claim ← decode_claim_body claim_id neuron;
    mret (ClaimAnnounce topic claim_id neuron claim)
  else if Byte.eqb ty TY_SELF_ACC then
    topic ← read_arr 32; miner ← read_arr 32; acc ← decode_acc_body;
    mret (SelfAcc topic miner acc)
  else if Byte.eqb ty TY_RECEIPT then
    topic ← read_arr 32; receipt_hash ← read_arr 32; epoch ← read_u64;
    mret (ReceiptHash topic receipt_hash epoch)
  else read_fail.

Definition decode_settle_msg (bytes : list byte) : option settle_msg :=
  if bool_decide (length bytes < 6) then None
  else if negb (bool_decide (take 4 bytes = MAGIC)) || negb (bool_decide (bytes !! 4 = Some VERSION)) then None
  else ty ← bytes !! 5; fst <$> decode_payload ty bytes 6.

Definition encode_frame (body : list byte) : list byte := u32_le (as_u32 (N.of_nat (length body))) ++ body.

Definition split_frame (buf : list byte) : option (list byte * list byte) :=
  if bool_decide (length buf < 4) then None
  else
    let n := N.to_nat (le_num (take 4 buf)) in
    if bool_decide (length buf < 4 + n) then None
    else Some (take n (drop 4 buf), drop (4 + n) buf).

Definition claim_announce (topic : particle) (claim : reward_claim) : settle_msg :=
  ClaimAnnounce topic (rc_id claim) (rc_neuron claim) claim.
Definition topic_from_claims_root (claims_root : particle) : particle := claims_root.

(** ** Messages the codec carries *)

Definition tru_link_wf (l : link) : Prop := is_u128 (l_amount l) /\ is_i8 (l_valence l).
Definition claim_wf (c : reward_claim) : Prop :=
  Forall tru_link_wf (rc_links c) /\ is_u32 (N.of_nat (length (rc_links c))).
Definition acc_wf (acc : cluster_acc) : Prop :=
  is_u64 (ac_k acc) /\ is_u32 (N.of_nat (length (ac_sum_m acc))) /\ is_u32 (N.of_nat (size (ac_seen acc))) /\
  forall e, e ∈ ac_seen acc -> is_u64 e.2.
(** Integers within their types, fewer than [2^32] entries, and the
    envelope's identity that of the claim. *)
Definition msg_wf (m : settle_msg) : Prop :=
  match m with
  | ClaimAnnounce _ claim_id neuron claim =>
      claim_wf claim /\ claim_id = rc_id claim /\ neuron = rc_neuron claim
  | SelfAcc _ _ acc => acc_wf acc
  | ReceiptHash _ _ epoch => is_u64 epoch
  end.

Context {NL : NebuLaws} {FR : FxRawLaws}.

Lemma reads_fx m : reads read_fx (fx_bytes m) m.
Proof.
  unfold read_fx, fx_bytes.
  pose proof (reads_bind_ret read_u64 (fun raw => fx_from_raw (gf_new raw)) (u64_le (gf_as_u64 (fx_raw m)))
    (gf_as_u64 (fx_raw m))) as H. cbv beta in H. rewrite gf_new_as_u64, fx_from_raw_raw in H. apply H, reads_u64.
  pose proof (gf_as_u64_lt (fx_raw m)). rewrite gf_P_value in *. unfold is_u64, u64_max. lia.
Qed.

Lemma reads_seen e : is_u64 e.2 -> reads read_seen (seen_bytes e) e.
Proof.
  destruct e as [mid nonce]. intros Hn. unfold read_seen, seen_bytes. simpl in *.
  eapply reads_bind; [apply reads_arr|]. by apply (reads_bind_ret _ (pair mid)), reads_u64.
Qed.

Lemma reads_tru_link l : tru_link_wf l -> reads decode_link (encode_link l) l.
Proof.
  destruct l as [nu fr to am va pr]. intros [Ha Hv]. unfold decode_link, encode_link. simpl in *.
  do 3 (eapply reads_bind; [apply reads_arr|]).
  eapply reads_bind; [by apply reads_u128|].
  eapply (reads_bind _ _ [_]); [apply reads_byte|].
  rewrite i8_round_trip by done.
  apply (reads_bind_ret read_fx (fun p => mk_link nu fr to am va p)), reads_fx.
Qed.

(** A counted sequence. *)
Lemma reads_counted {A B} (r : reader A) (e : A -> list byte) l (k : list A -> reader B) bs b :
  is_u32 (N.of_nat (length l)) -> Forall (fun a => reads r (e a) a) l -> reads (k l) bs b ->
  reads (n ← read_u32; l ← read_many (N.to_nat n) r; k l)
    (u32_le (as_u32 (N.of_nat (length l))) ++ concat (map e l) ++ bs) b.
Proof.
  intros Hn Hl Hk. rewrite as_u32_id by done. eapply reads_bind; [by apply reads_u32|].
  rewrite Nat2N.id. eapply reads_bind; [by apply reads_many | done].
Qed.

Lemma reads_claim_body c :
  claim_wf c -> reads (decode_claim_body (rc_id c) (rc_neuron c)) (encode_claim_body c) c.
Proof.
  destruct c as [id nu ls be pr]. intros [Hl Hn]. unfold decode_claim_body, encode_claim_body. simpl in *.
  do 2 (eapply reads_bind; [apply reads_fx|]).
  rewrite <-(app_nil_r (concat _)).
  apply (reads_counted decode_link encode_link ls (fun l => mret (mk_claim id nu l be pr))); [done| |apply reads_ret].
  eapply Forall_impl; [exact Hl|]. apply reads_tru_link.
Qed.

Lemma reads_acc_tail (sum_m : list fx) k seen commitment :
  is_u32 (N.of_nat (size seen)) -> (forall e, e ∈ seen -> is_u64 e.2) ->
  reads (sn ← read_u32; seen ← read_many (N.to_nat sn) read_seen; commitment ← read_arr 32;
         mret (mk_acc sum_m k (list_to_set seen) commitment))
    (u32_le (as_u32 (N.of_nat (size seen))) ++ concat (map seen_bytes (sorted_elements seen)) ++ arr_bytes commitment)
    (mk_acc sum_m k seen commitment).
Proof.
  intros Hs Hu.
  assert (length (sorted_elements seen) = size seen) as Hlen.
  { apply sorted_elements_length. }
  rewrite <-Hlen in *.
  apply (reads_counted read_seen seen_bytes (sorted_elements seen)
    (fun l => commitment ← read_arr 32; mret (mk_acc sum_m k (list_to_set l) commitment))); [done| |].
  - apply Forall_forall. intros e He. apply reads_seen, Hu. by apply elem_of_sorted_elements.
  - assert (seen = list_to_set (sorted_elements seen)) as Eseen.
    { apply leibniz_equiv. intros e. by rewrite elem_of_list_to_set, elem_of_sorted_elements. }
    replace (mk_acc sum_m k seen commitment) with (mk_acc sum_m k (list_to_set (sorted_elements seen)) commitment)
      by (by rewrite <-Eseen).
    apply (reads_bind_ret (read_arr 32) (fun c => mk_acc sum_m k (list_to_set (sorted_elements seen)) c)), reads_arr.
Qed.

Lemma reads_acc_body acc : acc_wf acc -> reads decode_acc_body (encode_acc_body acc) acc.
Proof.
  destruct acc as [sm k seen co]. intros (Hk & Hn & Hs & Hu). unfold decode_acc_body, encode_acc_body. simpl in *.
  eapply reads_bind; [by apply reads_u64|].
  apply (reads_counted read_fx fx_bytes sm (fun sum_m => sn ← read_u32;
    seen ← read_many (N.to_nat sn) read_seen; commitment ← read_arr 32;
    mret (mk_acc sum_m k (list_to_set seen) commitment))); [done| |by apply reads_acc_tail].
  apply Forall_forall. intros m _. apply reads_fx.
Qed.

Definition msg_type (m : settle_msg) : byte :=
  match m with ClaimAnnounce _ _ _ _ => TY_CLAIM | SelfAcc _ _ _ => TY_SELF_ACC | ReceiptHash _ _ _ => TY_RECEIPT end.
Definition payload (m : settle_msg) : list byte :=
  match m with
  | ClaimAnnounce topic claim_id neuron claim =>
      arr_bytes topic ++ arr_bytes claim_id ++ arr_bytes neuron ++ encode_claim_body claim
  | SelfAcc topic miner acc => arr_bytes topic ++ arr_bytes miner ++ encode_acc_body acc
  | ReceiptHash topic receipt_hash epoch => arr_bytes topic ++ arr_bytes receipt_hash ++ u64_le epoch
  end.

Lemma reads_payload m : msg_wf m -> reads (decode_payload (msg_type m)) (payload m) m.
Proof.
  destruct m as [t ci nu c|t mi acc|t rh ep]; unfold decode_payload, payload; cbn [msg_type msg_wf].
  - intros (Hc & -> & ->). cbn [Byte.eqb]. do 3 (eapply reads_bind; [apply reads_arr|]).
    by apply (reads_bind_ret _ (ClaimAnnounce t (rc_id c) (rc_neuron c))), reads_claim_body.
  - intros Ha. cbn [Byte.eqb]. do 2 (eapply reads_bind; [apply reads_arr|]).
    by apply (reads_bind_ret _ (SelfAcc t mi)), reads_acc_body.
  - intros He. cbn [Byte.eqb]. do 2 (eapply reads_bind; [apply reads_arr|]).
    by apply (reads_bind_ret _ (ReceiptHash t rh)), reads_u64.
Qed.

Lemma encode_settle_msg_parts m : encode_settle_msg m = header (msg_type m) ++ payload m.
Proof. by destruct m. Qed.

Lemma decode_encode_msg m rest : msg_wf m -> decode_settle_msg (encode_settle_msg m ++ rest) = Some m.
Proof.
  intros Hm. rewrite encode_settle_msg_parts. unfold decode_settle_msg.
  rewrite bool_decide_eq_false_2 by (rewrite !length_app; simpl; lia).
  assert (take 4 ((header (msg_type m) ++ payload m) ++ rest) = MAGIC) as -> by done.
  rewrite !bool_decide_eq_true_2 by done. cbn [negb orb].
  assert (((header (msg_type m) ++ payload m) ++ rest) !! 5 = Some (msg_type m)) as -> by done.
  cbn [mbind option_bind]. rewrite <-app_assoc.
  pose proof (reads_payload m Hm (header (msg_type m)) rest) as E. cbn [length header] in E.
  change (length (header (msg_type m))) with 6 in E. by rewrite E.
Qed.

Lemma split_encode_frame body rest :
  is_u32 (N.of_nat (length body)) -> split_frame (encode_frame body ++ rest) = Some (body, rest).
Proof.
  intros Hb. unfold split_frame, encode_frame. rewrite as_u32_id by done.
  rewrite <-!app_assoc. assert (length (u32_le (N.of_nat (length body))) = 4) as Hl by apply u32_le_length.
  rewrite take_app_length', drop_app_length', u32_le_num, Nat2N.id by done.
  rewrite !bool_decide_eq_false_2 by (rewrite !length_app, Hl; lia).
  rewrite take_app_length, app_assoc, drop_app_length' by (by rewrite length_app, Hl). done.
Qed.

Lemma truncated_frame body n :
  is_u32 (N.of_nat (length body)) -> n < length (encode_frame body) -> split_frame (take n (encode_frame body)) = None.
Proof.
  intros Hb. unfold split_frame, encode_frame. rewrite as_u32_id by done.
  assert (length (u32_le (N.of_nat (length body))) = 4) as Hl by apply u32_le_length.
  rewrite length_app, Hl, length_take, length_app, Hl. intros Hn.
  destruct (bool_decide_reflect (Nat.min n (4 + length body) < 4)) as [|Hn4]; [done|].
  rewrite take_take, (take_app_length' _ _ (Nat.min 4 n)), u32_le_num, Nat2N.id by (done || lia).
  by rewrite bool_decide_eq_true_2 by lia.
Qed.

Lemma split_frame_cut buf frame rest :
  split_frame buf = Some (frame, rest) ->
  exists len, buf = len ++ frame ++ rest /\ length len = 4 /\ le_num len = N.of_nat (length frame).
Proof.
  unfold split_frame. destruct (bool_decide_reflect (length buf < 4)) as [|H4]; [done|].
  destruct (bool_decide_reflect (length buf < 4 + N.to_nat (le_num (take 4 buf)))) as [|Hn]; [done|].
  intros E. apply (inj Some), pair_equal_spec in E as [<- <-]. exists (take 4 buf).
  rewrite length_take, length_take, length_drop. split; [|lia].
  by rewrite <-drop_drop, !take_drop.
Qed.

(** ** Locality, truncation and sizes *)

Lemma local_fx : local_read read_fx.
Proof. unfold read_fx. auto with readers. Qed.
Lemma local_seen : local_read read_seen.
Proof. unfold read_seen. auto with readers. Qed.
#[local] Hint Resolve local_fx local_seen : readers.

Lemma local_link : local_read decode_link.
Proof. unfold decode_link. auto 12 with readers. Qed.
#[local] Hint Resolve local_link : readers.

Lemma local_claim_body id neuron : local_read (decode_claim_body id neuron).
Proof. unfold decode_claim_body. auto 12 with readers. Qed.
Lemma local_acc_body : local_read decode_acc_body.
Proof. unfold decode_acc_body. auto 16 with readers. Qed.
#[local] Hint Resolve local_claim_body local_acc_body : readers.

Lemma local_payload ty : local_read (decode_payload ty).
Proof.
  unfold decode_payload. destruct (Byte.eqb ty TY_CLAIM); [|destruct (Byte.eqb ty TY_SELF_ACC)];
    [..|destruct (Byte.eqb ty TY_RECEIPT)]; auto 12 with readers.
Qed.

Lemma truncated_msg m n :
  msg_wf m -> n < length (encode_settle_msg m) -> decode_settle_msg (take n (encode_settle_msg m)) = None.
Proof.
  intros Hm Hn. unfold decode_settle_msg. destruct (bool_decide_reflect (length (take n (encode_settle_msg m)) < 6)) as [|Hl]; [done|].
  destruct (negb _ || negb _); [done|].
  rewrite length_take in Hl. rewrite lookup_take_lt by lia.
  rewrite encode_settle_msg_parts in *. change ((header (msg_type m) ++ payload m) !! 5) with (Some (msg_type m)).
  cbn [mbind option_bind]. destruct (decode_payload _ _ 6) as [[m' p]|] eqn:E; [|done]. exfalso.
  apply local_payload in E as [Hp Hx]; [|rewrite length_take; lia].
  specialize (Hx (drop n (header (msg_type m) ++ payload m))). rewrite take_drop in Hx.
  pose proof (reads_payload m Hm (header (msg_type m)) []) as E. rewrite app_nil_r in E.
  change (length (header (msg_type m))) with 6 in E. rewrite Hx in E. injection E as _ ->.
  rewrite length_take, length_app in *. change (length (header (msg_type m))) with 6 in *. lia.
Qed.

Lemma fixed_byte : fixed_read read_byte 1.
Proof.
  intros buf p Hp. unfold read_byte. destruct (lookup_lt_is_Some_2 buf p) as [b ->]; [lia|]. simpl. eauto.
Qed.
Lemma fixed_fx : fixed_read read_fx 8.
Proof. apply fixed_bind_ret, fixed_u64. Qed.
Lemma fixed_seen : fixed_read read_seen 40.
Proof. apply (fixed_bind _ _ 32 8); [apply fixed_arr|]. intros mid. apply fixed_bind_ret, fixed_u64. Qed.

Lemma takes_link : takes decode_link LINK_MIN_BYTES.
Proof.
  apply fixed_takes; [apply local_link|].
  apply (fixed_bind _ _ 32 89); [apply fixed_arr|intros ?]. apply (fixed_bind _ _ 32 57); [apply fixed_arr|intros ?].
  apply (fixed_bind _ _ 32 25); [apply fixed_arr|intros ?].
  apply (fixed_bind _ _ 16 9); [apply fixed_bind_ret, fixed_bytes|intros ?].
  apply (fixed_bind _ _ 1 8); [apply fixed_byte|intros ?]. apply fixed_bind_ret, fixed_fx.
Qed.
Lemma takes_fx : takes read_fx 8.
Proof. apply fixed_takes; [apply local_fx | apply fixed_fx]. Qed.
Lemma takes_u32 : takes read_u32 4.
Proof. apply fixed_takes; [apply local_u32 | apply fixed_u32]. Qed.
Lemma takes_u64 : takes read_u64 8.
Proof. apply fixed_takes; [apply local_u64 | apply fixed_u64]. Qed.

(** [n] entries of [k] bytes each that were read fit the capacity computed
    from the bytes left. *)
Lemma capacity_fits n k left : 0 < k -> n * k <= left -> Nat.min n (left / k) = n.
Proof. intros Hk Hn. apply Nat.min_l. apply Nat.div_le_lower_bound; lia. Qed.
Lemma capacity_bounded n k left : 0 < k -> Nat.min n (left / k) * k <= left.
Proof. intros Hk. pose proof (Nat.Div0.mul_div_le left k). nia. Qed.

Lemma claim_body_sizes id neuron bytes off c off' :
  off <= length bytes -> decode_claim_body id neuron bytes off = Some (c, off') ->
  off' = off + 20 + length (rc_links c) * LINK_MIN_BYTES /\ off' <= length bytes.
Proof.
  intros Ho. unfold decode_claim_body, mbind, reader_bind, mret, reader_ret.
  destruct (read_fx bytes off) as [[b o1]|] eqn:E1; [|done]. apply takes_fx in E1 as [-> H1]; [|done].
  destruct (read_fx bytes (off + 8)) as [[p o2]|] eqn:E2; [|done]. apply takes_fx in E2 as [-> H2]; [|done].
  destruct (read_u32 bytes _) as [[n o3]|] eqn:E3; [|done]. apply takes_u32 in E3 as [-> H3]; [|done].
  destruct (read_many _ _ _ _) as [[l o4]|] eqn:E4; [|done].
  apply (takes_many _ _ _ _ _ _ _ takes_link) in E4 as (Hl & -> & Hb); [|done]. intros [= <- <-]. simpl rc_links. lia.
Qed.

Lemma acc_body_sums bytes off acc off' :
  off <= length bytes -> decode_acc_body bytes off = Some (acc, off') ->
  off + 12 + length (ac_sum_m acc) * 8 <= length bytes.
Proof.
  intros Ho. unfold decode_acc_body, mbind, reader_bind, mret, reader_ret.
  destruct (read_u64 bytes off) as [[k o1]|] eqn:E1; [|done]. apply takes_u64 in E1 as [-> H1]; [|done].
  destruct (read_u32 bytes _) as [[n o2]|] eqn:E2; [|done]. apply takes_u32 in E2 as [-> H2]; [|done].
  destruct (read_many _ _ _ _) as [[l o3]|] eqn:E3; [|done].
  apply (takes_many _ _ _ _ _ _ _ takes_fx) in E3 as (Hl & -> & Hb); [|done].
  destruct (read_u32 bytes _) as [[sn o4]|]; [|done]. destruct (read_many _ _ _ _) as [[seen o5]|]; [|done].
  destruct (read_arr 32 bytes o5) as [[co o6]|]; [|done]. intros [= <- <-]. simpl ac_sum_m. lia.
Qed.

(** ** The compact accumulator codec of gossip.rs *)

Lemma fixed_fsc1_header : fixed_read fsc1_header 76.
Proof.
  apply (fixed_bind _ _ 32 44); [apply fixed_arr|intros ?]. apply (fixed_bind _ _ 32 12); [apply fixed_arr|intros ?].
  apply (fixed_bind _ _ 8 4); [apply fixed_u64|intros ?]. apply fixed_bind_ret, fixed_u32.
Qed.
Lemma fixed_fsc1_sums n : fixed_read (fsc1_sums n) (n * 8 + 4).
Proof. apply fixed_bind; [apply fixed_many, fixed_fx|intros ?]. apply fixed_bind_ret, fixed_u32. Qed.
Lemma fixed_fsc1_seen n : fixed_read (fsc1_seen n) (n * 40 + 32).
Proof. apply fixed_bind; [apply fixed_many, fixed_seen|intros ?]. apply fixed_bind_ret, fixed_arr. Qed.

Lemma decode_self_acc_total bytes : decode_self_acc bytes <> Panic.
Proof.
  unfold decode_self_acc. destruct (bool_decide_reflect (length bytes < 4 + 32 + 32 + 8 + 4)) as [|H1]; [done|].
  destruct (negb _); [done|].
  destruct (fixed_fsc1_header bytes 4) as [[[[t mi] k] n] E1]; [lia|]. rewrite E1. cbv zeta.
  destruct (bool_decide_reflect (length bytes < 4 + 76 + N.to_nat n * 8 + 4)) as [|H2]; [done|].
  destruct (fixed_fsc1_sums (N.to_nat n) bytes (4 + 76)) as [[sm sn] E2]; [lia|]. rewrite E2.
  destruct (bool_decide_reflect (length bytes < 4 + 76 + (N.to_nat n * 8 + 4) + N.to_nat sn * 40 + 32)) as [|H3]; [done|].
  destruct (fixed_fsc1_seen (N.to_nat sn) bytes (4 + 76 + (N.to_nat n * 8 + 4))) as [[seen co] E3]; [lia|].
  by rewrite E3.
Qed.

Lemma reads_fsc1_header t mi k n :
  is_u64 k -> is_u32 n ->
  reads fsc1_header (arr_bytes t ++ arr_bytes mi ++ u64_le k ++ u32_le n) (t, mi, k, n).
Proof.
  intros Hk Hn. unfold fsc1_header. do 2 (eapply reads_bind; [apply reads_arr|]).
  eapply reads_bind; [by apply reads_u64|]. by apply (reads_bind_ret _ (pair (t, mi, k))), reads_u32.
Qed.
Lemma reads_fsc1_sums sm sn :
  is_u32 sn -> reads (fsc1_sums (length sm)) (concat (map fx_bytes sm) ++ u32_le sn) (sm, sn).
Proof.
  intros Hs. unfold fsc1_sums. eapply reads_bind.
  - apply (reads_many _ fx_bytes), Forall_forall. intros m _. apply reads_fx.
  - by apply (reads_bind_ret _ (pair sm)), reads_u32.
Qed.
Lemma reads_fsc1_seen (l : list (particle * N)) co :
  Forall (fun e => is_u64 e.2) l ->
  reads (fsc1_seen (length l)) (concat (map seen_bytes l) ++ arr_bytes co) (l, co).
Proof.
  intros Hl. unfold fsc1_seen. eapply reads_bind.
  - apply (reads_many _ seen_bytes). eapply Forall_impl; [exact Hl|]. apply reads_seen.
  - by apply (reads_bind_ret _ (pair l)), reads_arr.
Qed.

Lemma seen_bytes_length e : length (seen_bytes e) = 40.
Proof. unfold seen_bytes. rewrite length_app, arr_length, u64_le_length. done. Qed.
Lemma fx_bytes_length m : length (fx_bytes m) = 8.
Proof. apply u64_le_length. Qed.

(** The buffer in the three parts the decoder takes it in. *)
Lemma encode_self_acc_parts t mi acc :
  acc_wf acc ->
  encode_self_acc t mi acc = FSC1
    ++ (arr_bytes t ++ arr_bytes mi ++ u64_le (ac_k acc) ++ u32_le (N.of_nat (length (ac_sum_m acc))))
    ++ (concat (map fx_bytes (ac_sum_m acc)) ++ u32_le (N.of_nat (size (ac_seen acc))))
    ++ (concat (map seen_bytes (sorted_elements (ac_seen acc))) ++ arr_bytes (ac_commitment acc)).
Proof. intros (Hk & Hn & Hs & Hu). unfold encode_self_acc. rewrite !as_u32_id by done. by rewrite <-!app_assoc. Qed.

Lemma decode_encode_self_acc t mi acc rest :
  acc_wf acc -> decode_self_acc (encode_self_acc t mi acc ++ rest) = Done (Some (t, mi, acc)).
Proof.
  intros Hwf. pose proof Hwf as (Hk & Hn & Hs & Hu). rewrite encode_self_acc_parts by done.
  set (H := arr_bytes t ++ _). set (S := concat (map fx_bytes _) ++ _). set (T := concat (map seen_bytes _) ++ _).
  pose proof (reads_fsc1_header t mi _ _ Hk Hn) as R1. fold H in R1.
  pose proof (reads_fsc1_sums (ac_sum_m acc) _ Hs) as R2. fold S in R2.
  pose proof (reads_fsc1_seen (sorted_elements (ac_seen acc)) (ac_commitment acc)) as R3. fold T in R3.
  assert (length H = 76) as LH by (unfold H; by autorewrite with foculus_rw).
  assert (length S = length (ac_sum_m acc) * 8 + 4) as LS.
  { unfold S. rewrite length_app, u32_le_length. f_equal. apply concat_fixed_length, fx_bytes_length. }
  assert (length T = size (ac_seen acc) * 40 + 32) as LT.
  { unfold T. rewrite length_app, arr_length. f_equal. rewrite <-sorted_elements_length.
    apply concat_fixed_length, seen_bytes_length. }
  clearbody H S T. rewrite <-!app_assoc. unfold decode_self_acc.
  rewrite bool_decide_eq_false_2 by (rewrite !length_app, LH, LS; simpl; lia).
  assert (take 4 (FSC1 ++ H ++ S ++ T ++ rest) = FSC1) as -> by (by rewrite take_app_length').
  rewrite bool_decide_eq_true_2 by done. cbn [negb].
  specialize (R1 FSC1 (S ++ T ++ rest)). change (length FSC1) with 4 in R1. rewrite R1. cbv zeta. rewrite LH, !Nat2N.id.
  rewrite bool_decide_eq_false_2 by (rewrite !length_app, LH, LS; simpl; lia).
  specialize (R2 (FSC1 ++ H) (T ++ rest)). rewrite <-!app_assoc, length_app, LH in R2. change (length FSC1) with 4 in R2.
  rewrite R2, LS, !Nat2N.id.
  rewrite bool_decide_eq_false_2 by (rewrite !length_app, LH, LS, LT; simpl; lia).
  specialize (R3 ltac:(apply Forall_forall; intros e He; apply Hu; by apply elem_of_sorted_elements) (FSC1 ++ H ++ S) rest).
  rewrite sorted_elements_length, <-!app_assoc, !length_app, LH, LS in R3. change (length FSC1) with 4 in R3.
  rewrite <-Nat.add_assoc, R3. destruct acc as [sm k seen co]. simpl. f_equal. f_equal. f_equal. f_equal.
  apply leibniz_equiv. intros e. by rewrite elem_of_list_to_set, elem_of_sorted_elements.
Qed.
End wire.

(** ** Properties *)

Section wire_properties.
Context {HM : Hemera} {NB : Nebu} {FX : Fixed} {TR : Tru} {ZH : Zheng} {TK : Tok} {NL : NebuLaws} {FR : FxRawLaws}.

(** C23: What one miner encodes another decodes: a well-formed settlement
    message is recovered from its encoding whatever follows it, no strict
    prefix of an encoding decodes, a frame is split from a stream into its
    body and the exact rest, an incomplete frame waits, and the compact
    accumulator codec recovers topic, miner and accumulator. *)
Theorem wire_round_trip (m : settle_msg) (body rest : list byte) (topic miner : particle) (acc : cluster_acc) :
  msg_wf m -> is_u32 (N.of_nat (length body)) -> acc_wf acc ->
  decode_settle_msg (encode_settle_msg m ++ rest) = Some m /\
  (forall n, n < length (encode_settle_msg m) -> decode_settle_msg (take n (encode_settle_msg m)) = None) /\
  split_frame (encode_frame body ++ rest) = Some (body, rest) /\
  (forall n, n < length (encode_frame body) -> split_frame (take n (encode_frame body)) = None) /\
  decode_self_acc (encode_self_acc topic miner acc ++ rest) = Done (Some (topic, miner, acc)).
Proof.
  intros Hm Hb Ha. split; [by apply decode_encode_msg|]. split; [intros n; by apply truncated_msg|].
  split; [by apply split_encode_frame|]. split; [intros n; by apply truncated_frame|by apply decode_encode_self_acc].
Qed.

(** C29: Bytes off the wire can neither crash the decoders nor make them
    allocate more than was received: the compact decoder never panics, the
    links of a claim and the sums of an accumulator that decode lie within
    the buffer and fit the capacity reserved for them, that capacity is
    bounded by the bytes left for every claimed count, and a split frame is
    the buffer cut after its length and body. *)
Theorem wire_bounds (bytes : list byte) (off : nat) :
  off <= length bytes ->
  decode_self_acc bytes <> Panic /\
  (forall n, link_capacity bytes off n * LINK_MIN_BYTES <= length bytes - off /\
             sum_capacity bytes off n * 8 <= length bytes - off) /\
  (forall id neuron c off', decode_claim_body id neuron bytes off = Some (c, off') ->
     off' = off + 20 + length (rc_links c) * LINK_MIN_BYTES /\ off' <= length bytes /\
     link_capacity bytes (off + 20) (length (rc_links c)) = length (rc_links c)) /\
  (forall acc off', decode_acc_body bytes off = Some (acc, off') ->
     sum_capacity bytes (off + 12) (length (ac_sum_m acc)) = length (ac_sum_m acc)) /\
  (forall frame rest, split_frame bytes = Some (frame, rest) ->
     exists len, bytes = len ++ frame ++ rest /\ length len = 4 /\ le_num len = N.of_nat (length frame)).
Proof.
  intros Ho. split; [apply decode_self_acc_total|]. split.
  { intros n. unfold link_capacity, sum_capacity. split; apply capacity_bounded; [unfold LINK_MIN_BYTES|]; lia. }
  split; [|split; [|apply split_frame_cut]].
  - intros id neuron c off' E. apply claim_body_sizes in E as [-> Hb]; [|done]. split; [done|]. split; [done|].
    apply capacity_fits; [unfold LINK_MIN_BYTES|]; lia.
  - intros acc off' E. apply acc_body_sums in E; [|done]. apply capacity_fits; lia.
Qed.
End wire_properties.

(** ** Witnesses *)

Definition ex_wire_acc : cluster_acc := mk_acc [fx_one; fx_zero] 2 {[(arr_rep 32 x05, 9%N); (arr_rep 32 x03, 4%N)]} (arr_rep 32 x0b).
Definition ex_wire_claim : reward_claim :=
  mk_claim (arr_rep 32 x0a) (arr_rep 32 x0c)
    [mk_link (arr_rep 32 x01) (arr_rep 32 x02) (arr_rep 32 x03) 8000 (-1) fx_one] fx_one fx_zero.

Lemma ex_wire_claim_wf topic : msg_wf (claim_announce topic ex_wire_claim).
Proof. repeat constructor; try (unfold is_u32, is_u128, is_i8; simpl; lia); done. Qed.
Lemma ex_wire_acc_wf : acc_wf ex_wire_acc.
Proof.
  split; [by vm_compute|]. split; [by vm_compute|]. split; [by vm_compute|].
  unfold ex_wire_acc, ac_seen. intros e [->%elem_of_singleton| ->%elem_of_singleton]%elem_of_union; by vm_compute.
Qed.

Lemma wire_round_trip_witness :
  decode_settle_msg (encode_settle_msg (claim_announce (arr_rep 32 x0d) ex_wire_claim) ++ [x00])
    = Some (claim_announce (arr_rep 32 x0d) ex_wire_claim).
Proof.
  apply (wire_round_trip (claim_announce (arr_rep 32 x0d) ex_wire_claim) [x01] [x00]
    (arr_rep 32 x0d) (arr_rep 32 x0e) ex_wire_acc); [apply ex_wire_claim_wf | by vm_compute | apply ex_wire_acc_wf].
Defined.

(** A claim body that announces 1000 links and holds none reserves nothing
    for them. *)
Definition ex_short_claim : list byte := replicate 16 x00 ++ u32_le 1000.
Lemma wire_bounds_witness : link_capacity ex_short_claim 20 1000 = 0.
Proof.
  pose proof (wire_bounds ex_short_claim 20) as H. change (length ex_short_claim) with 20 in H.
  destruct (H (le_n 20)) as (_ & Hc & _). destruct (Hc 1000) as [Hl _].
  revert Hl. generalize (link_capacity ex_short_claim 20 1000). unfold LINK_MIN_BYTES. lia.
Defined.
