(* ===== verification/Tip.v ===== *)
(** * Tip: trusted tips of light, cell and full nodes (src/tip.rs)

    A [tip] is a height, a root and how they are trusted.  [join_checkpoint]
    and [redecide] trust an accumulator that zheng decides and verifies;
    [advance_fold] folds one more height into it; a [tip_prover] folds every
    height for export.  An operation on [&mut self] returns the state it
    leaves, also when it fails. *)

From Stdlib Require Import Sorting.Sorted.
From S2P Require Import Prelude Order Bytes Externals Goldilocks Instances Settlement Tickets Seals.

Section tips.
Context {HM : Hemera} {NB : Nebu} {FX : Fixed} {TR : Tru} {ZH : Zheng}.

Inductive tip_trust := LocalApplied | FoldDecided | Untrusted.
#[global] Instance tip_trust_eq_dec : EqDecision tip_trust.
Proof. solve_decision. Defined.

(** [trust as u8]. *)
Definition trust_byte (t : tip_trust) : byte :=
  match t with LocalApplied => x01 | FoldDecided => x02 | Untrusted => x00 end.

Record tip := mk_tip {
  t_height : N;
  t_root : particle;
  t_folding_acc : option accumulator;
  t_trust : tip_trust;
  t_statement : option statement
}.

Inductive tip_error :=
| NotFoldMode | HeightRegression | FoldFailed | NoAccumulator | EmptyAccumulator | DecideFailed | VerifyFailed.

Definition grade4 (t : tip) : bool :=
  match t_trust t with LocalApplied | FoldDecided => true | Untrusted => false end.

Definition from_local (ck : checkpoint) : tip :=
  mk_tip (ck_height ck) (ck_root ck) (ck_acc ck) LocalApplied None.
Definition untrusted : tip := mk_tip 0 zero32 None Untrusted None.
Definition untrusted_at (ck : checkpoint) : tip :=
  mk_tip (ck_height ck) (ck_root ck) (ck_acc ck) Untrusted None.

Definition TIP_PROGRAM : particle :=
  default zero32 (list_to_arr 32 (str_bytes "foculus-tip-fold-v0" ++ replicate 13 x00)).
Definition statement_for_root (root : particle) (height : N) : statement :=
  {| st_program_hash := TIP_PROGRAM;
     st_input_hash := default zero32 (list_to_arr 32 (u64_le height ++ replicate 24 x00));
     st_output_hash := root;
     st_focus_bound := 0;
     st_bbg_root := zero32 |}.
Definition verify_decide (acc : accumulator) (proof : zproof) (stmt : statement) : bool :=
  verify_group acc proof stmt.

Definition join_checkpoint (ck : checkpoint) : tip :=
  match ck_acc ck with
  | None => untrusted_at ck
  | Some acc =>
      if (step_count acc =? 0)%N then untrusted_at ck
      else
        let stmt := statement_for_root (ck_root ck) (ck_height ck) in
        match zdecide acc stmt with
        | None => untrusted_at ck
        | Some proof =>
            if negb (verify_decide acc proof stmt) then untrusted_at ck
            else mk_tip (ck_height ck) (ck_root ck) (Some acc) FoldDecided (Some stmt)
        end
  end.

Definition advance_local (t : tip) (ck : checkpoint) : tip :=
  mk_tip (ck_height ck) (ck_root ck)
    (match ck_acc ck with Some acc => Some acc | None => t_folding_acc t end) LocalApplied (t_statement t).

Definition block_witness (height : N) (root leaves : particle) : ccs_witness :=
  add_step (u64_le height ++ arr_bytes root ++ arr_bytes leaves).

Definition advance_fold (t : tip) (height : N) (root : particle) : tip * result tip_error unit :=
  if negb (bool_decide (t_trust t = FoldDecided)) then (t, Err NotFoldMode)
  else if (height <? t_height t)%N then (t, Err HeightRegression)
  else
    let acc := default blank_acc (t_folding_acc t) in
    let '(acc, _, ok) := zfold acc (block_witness height root zero32) transcript_new in
    if ok : bool then (mk_tip height root (Some acc) (t_trust t) (Some (statement_for_root root height)), Ok tt)
    else (mk_tip (t_height t) (t_root t) (Some acc) (t_trust t) (t_statement t), Err FoldFailed).

Definition redecide (t : tip) : tip * result tip_error zproof :=
  match t_folding_acc t with
  | None => (t, Err NoAccumulator)
  | Some acc =>
      if (step_count acc =? 0)%N then (t, Err EmptyAccumulator)
      else
        let stmt := statement_for_root (t_root t) (t_height t) in
        match zdecide acc stmt with
        | None => (t, Err DecideFailed)
        | Some proof =>
            if negb (verify_decide acc proof stmt) then (t, Err VerifyFailed)
            else (mk_tip (t_height t) (t_root t) (Some acc) FoldDecided (Some stmt), Ok proof)
        end
  end.

Definition to_checkpoint (t : tip) : checkpoint := mk_checkpoint (t_root t) (t_folding_acc t) (t_height t).

(** ** The prover side *)

Record tip_prover := mk_tprover {
  tpr_acc : accumulator;
  tpr_transcript : transcript;
  tpr_height : N;
  tpr_root : particle
}.

Definition tip_prover_new : tip_prover := mk_tprover blank_acc transcript_new 0 zero32.

Definition fold_block (p : tip_prover) (height : N) (root root_leaves_hash : particle)
    : tip_prover * result tip_error unit :=
  if (height <? tpr_height p)%N && (0 <? step_count (tpr_acc p))%N then (p, Err HeightRegression)
  else
    let t := if (step_count (tpr_acc p) =? 0)%N then transcript_new else tpr_transcript p in
    let '(acc, t, ok) := zfold (tpr_acc p) (block_witness height root root_leaves_hash) t in
    if ok : bool then (mk_tprover acc t height root, Ok tt)
    else (mk_tprover acc t (tpr_height p) (tpr_root p), Err FoldFailed).

Definition fold_height (p : tip_prover) (height : N) (root : particle) : tip_prover * result tip_error unit :=
  fold_block p height root zero32.

Definition prover_checkpoint (p : tip_prover) : checkpoint :=
  mk_checkpoint (tpr_root p) (Some (tpr_acc p)) (tpr_height p).

Definition seal_tip (p : tip_prover) : result tip_error tip :=
  let t := join_checkpoint (prover_checkpoint p) in
  if negb (grade4 t) then Err VerifyFailed else Ok t.

Definition join_with_demo_fold (root : particle) (height : N) : outcome tip :=
  match fold_height tip_prover_new height root with
  | (_, Err _) => Panic
  | (p, Ok _) => match seal_tip p with Ok t => Done t | Err _ => Panic end
  end.
Definition demo_fold_accumulator : outcome accumulator :=
  match fold_height tip_prover_new 0 zero32 with (p, Ok _) => Done (tpr_acc p) | _ => Panic end.

(** ** Runs *)

(** Every tip a node can hold. *)
Inductive tip_run : tip -> Prop :=
| tip_run_local ck : tip_run (from_local ck)
| tip_run_untrusted : tip_run untrusted
| tip_run_join ck : tip_run (join_checkpoint ck)
| tip_run_advance_local t ck : tip_run t -> tip_run (advance_local t ck)
| tip_run_advance_fold t h r : tip_run t -> tip_run (advance_fold t h r).1
| tip_run_redecide t : tip_run t -> tip_run (redecide t).1.

(** A decided tip carries an accumulator and the statement of its own height
    and root. *)
Definition tip_wf (t : tip) : Prop :=
  t_trust t = FoldDecided ->
  is_Some (t_folding_acc t) /\ t_statement t = Some (statement_for_root (t_root t) (t_height t)).

(** What zheng accepted for a root at a height. *)
Definition decided (acc : accumulator) (root : particle) (height : N) (p : zproof) : Prop :=
  step_count acc <> 0%N /\ zdecide acc (statement_for_root root height) = Some p /\
  zverify acc p (statement_for_root root height) = true.

Lemma verify_decide_spec acc p s :
  step_count acc <> 0%N -> verify_decide acc p s = zverify acc p s.
Proof. intros H. unfold verify_decide, verify_group. by rewrite (proj2 (N.eqb_neq _ _) H). Qed.

Lemma join_cases ck :
  (exists acc p, ck_acc ck = Some acc /\ decided acc (ck_root ck) (ck_height ck) p /\
     join_checkpoint ck = mk_tip (ck_height ck) (ck_root ck) (Some acc) FoldDecided
       (Some (statement_for_root (ck_root ck) (ck_height ck)))) \/
  ((forall acc p, ck_acc ck = Some acc -> ~ decided acc (ck_root ck) (ck_height ck) p) /\
   join_checkpoint ck = untrusted_at ck).
Proof.
  unfold join_checkpoint, decided. destruct (ck_acc ck) as [acc|] eqn:Ea; [|right; split; [by intros ?? [=]|done]].
  destruct (N.eqb_spec (step_count acc) 0) as [E0|E0].
  { right. split; [|done]. intros a p [= <-]. tauto. }
  cbv zeta. destruct (zdecide acc _) as [p|] eqn:Ed.
  - rewrite verify_decide_spec by done. destruct (zverify acc p _) eqn:Ev; simpl.
    + left. exists acc, p. auto.
    + right. split; [|done]. intros a q [= <-] (_ & Eq & Hv). congruence.
  - right. split; [|done]. intros a q [= <-] (_ & Eq & _). congruence.
Qed.

Lemma redecide_cases t :
  (exists acc p, t_folding_acc t = Some acc /\ decided acc (t_root t) (t_height t) p /\
     redecide t = (mk_tip (t_height t) (t_root t) (Some acc) FoldDecided
       (Some (statement_for_root (t_root t) (t_height t))), Ok p)) \/
  exists e, redecide t = (t, Err e).
Proof.
  unfold redecide, decided. destruct (t_folding_acc t) as [acc|] eqn:Ea; [|eauto].
  destruct (N.eqb_spec (step_count acc) 0) as [E0|E0]; [eauto|].
  cbv zeta. destruct (zdecide acc _) as [p|] eqn:Ed; [|eauto].
  rewrite verify_decide_spec by done. destruct (zverify acc p _) eqn:Ev; simpl; [|eauto].
  left. exists acc, p. auto.
Qed.

Lemma tip_run_wf t : tip_run t -> tip_wf t.
Proof.
  induction 1 as [ck| |ck|t ck _ IH|t h r _ IH|t _ IH].
  - done.
  - done.
  - destruct (join_cases ck) as [(acc & p & _ & _ & ->)|[_ ->]]; [|done]. intros _. simpl. eauto.
  - done.
  - unfold advance_fold. destruct (bool_decide_reflect (t_trust t = FoldDecided)) as [Ht|Ht]; simpl; [|done].
    destruct (N.ltb_spec h (t_height t)); [done|].
    destruct (zfold _ _ _) as [[acc tr] ok]. destruct ok; simpl.
    + intros _. simpl. eauto.
    + intros _. simpl. destruct (IH Ht). eauto.
  - destruct (redecide_cases t) as [(acc & p & _ & _ & ->)|[e ->]]; [|done]. intros _. simpl. eauto.
Qed.

Lemma advance_fold_ok t h r t' :
  advance_fold t h r = (t', Ok tt) ->
  t_trust t = FoldDecided /\ (t_height t <= h)%N /\ t_height t' = h /\ t_root t' = r /\ t_trust t' = FoldDecided.
Proof.
  unfold advance_fold. destruct (bool_decide_reflect (t_trust t = FoldDecided)) as [Ht|Ht]; simpl; [|done].
  destruct (N.ltb_spec h (t_height t)); [done|]. destruct (zfold _ _ _) as [[acc tr] ok].
  destruct ok; intros [= <-]. simpl. auto.
Qed.

Lemma advance_fold_err t h r t' e :
  advance_fold t h r = (t', Err e) ->
  t_height t' = t_height t /\ t_root t' = t_root t /\ t_trust t' = t_trust t /\ t_statement t' = t_statement t.
Proof.
  unfold advance_fold. destruct (negb _); [by intros [= <- _]|]. destruct (_ <? _)%N; [by intros [= <- _]|].
  destruct (zfold _ _ _) as [[acc tr] ok]. destruct ok; [done|]. by intros [= <- _].
Qed.

(** ** Chains of folded blocks *)

Definition fold_one (p : tip_prover) (b : N * particle * particle) : result tip_error tip_prover :=
  let '(h, root, leaves) := b in
  match fold_block p h root leaves with (p', Ok _) => Ok p' | (_, Err e) => Err e end.
Definition fold_blocks (bs : list (N * particle * particle)) (p : tip_prover) : result tip_error tip_prover :=
  try_fold fold_one bs p.

Context {ZL : ZhengLaws}.

Lemma fold_one_spec p h root leaves p' :
  fold_one p (h, root, leaves) = Ok p' ->
  step_count (tpr_acc p') = N.succ (step_count (tpr_acc p)) /\ tpr_height p' = h /\ tpr_root p' = root /\
  (step_count (tpr_acc p) = 0 \/ tpr_height p <= h)%N.
Proof.
  unfold fold_one, fold_block.
  destruct (N.ltb_spec h (tpr_height p)) as [Hh|Hh], (N.ltb_spec 0 (step_count (tpr_acc p))) as [H0|H0]; simpl; try done;
    destruct (zfold _ _ _) as [[acc t] ok] eqn:Ef; destruct ok; intros [= <-]; apply step_count_fold in Ef;
    (split; [done|]); simpl; (split; [done|]); (split; [done|]); lia.
Qed.

(** The heights are in order, the steps count the blocks and the prover
    stands at the last of them. *)
Lemma fold_blocks_spec bs p p' :
  fold_blocks bs p = Ok p' ->
  step_count (tpr_acc p') = (step_count (tpr_acc p) + N.of_nat (length bs))%N /\
  Sorted N.le (map (fun b => b.1.1) bs) /\
  (step_count (tpr_acc p) <> 0%N -> Forall (fun b => tpr_height p <= b.1.1)%N bs) /\
  forall b, last bs = Some b -> tpr_height p' = b.1.1 /\ tpr_root p' = b.1.2.
Proof.
  unfold fold_blocks. revert p. induction bs as [|[[h root] leaves] bs IH]; intros p; cbn [try_fold].
  { intros [= <-]. simpl. split; [lia|]. split; [constructor|]. split; [constructor|done]. }
  destruct (fold_one p (h, root, leaves)) as [p1|e] eqn:E1; [|done]. cbn [mbind result_bind].
  intros E. apply fold_one_spec in E1 as (Hs & Hh & Hr & Hm). destruct (IH p1 E) as (Hs' & Hsort & Hall & Hl).
  specialize (Hall ltac:(lia)). rewrite Hh in Hall. split; [rewrite Hs', Hs; simpl; lia|]. split.
  { constructor; [done|]. destruct bs as [|b bs]; simpl; constructor. by inversion Hall. }
  split.
  - intros H0. destruct Hm as [?|Hm]; [done|]. constructor; [done|]. eapply Forall_impl; [exact Hall|].
    simpl. intros b Hb. lia.
  - intros b. destruct bs as [|b' bs].
    + intros [= <-]. unfold fold_blocks in E. simpl in E. injection E as <-. done.
    + cbn [last]. apply Hl.
Qed.

Lemma fold_blocks_enough bs p :
  (forall a w t, (zfold a w t).2 = true) ->
  Sorted N.le (map (fun b => b.1.1) bs) ->
  (forall b, head bs = Some b -> tpr_height p <= b.1.1)%N -> exists p', fold_blocks bs p = Ok p'.
Proof.
  intros Hz. unfold fold_blocks. revert p. induction bs as [|[[h root] leaves] bs IH]; intros p Hs Hh; cbn [try_fold]; [eauto|].
  specialize (Hh _ eq_refl). simpl in Hh.
  assert (exists p1, fold_one p (h, root, leaves) = Ok p1 /\ tpr_height p1 = h) as (p1 & -> & Hp1).
  { unfold fold_one, fold_block. rewrite (proj2 (N.ltb_ge _ _) Hh). simpl.
    match goal with |- context [zfold ?a ?w ?t] => pose proof (Hz a w t) as Hok; destruct (zfold a w t) as [[acc t'] ok] end.
    simpl in Hok. subst ok. eauto. }
  cbn [mbind result_bind]. inversion Hs as [|? ? Hs' Hhd]; subst. apply IH; [done|].
  intros b Hb. destruct bs; [done|]. injection Hb as <-. inversion Hhd; subst. done.
Qed.

Lemma seal_tip_spec p :
  match seal_tip p with
  | Ok t => exists pr, decided (tpr_acc p) (tpr_root p) (tpr_height p) pr /\
      t = mk_tip (tpr_height p) (tpr_root p) (Some (tpr_acc p)) FoldDecided
            (Some (statement_for_root (tpr_root p) (tpr_height p)))
  | Err e => e = VerifyFailed /\ forall pr, ~ decided (tpr_acc p) (tpr_root p) (tpr_height p) pr
  end.
Proof.
  unfold seal_tip. destruct (join_cases (prover_checkpoint p)) as [(acc & pr & [= <-] & Hd & E)|[Hn E]]; rewrite E; simpl.
  - eauto.
  - split; [done|]. intros pr. by apply Hn.
Qed.

(** With a proof system that decides its own accumulators, sealing works as
    soon as a block is folded. *)
Lemma decided_complete acc root h p :
  step_count acc <> 0%N -> zdecide acc (statement_for_root root h) = Some p -> decided acc root h p.
Proof. intros H E. split; [done|]. split; [done|]. by apply zdecide_verifies. Qed.
End tips.

(** ** Properties *)

Section tip_properties.
Context {HM : Hemera} {NB : Nebu} {FX : Fixed} {TR : Tru} {ZH : Zheng} {ZL : ZhengLaws}.

(** C33: Trust in a tip is typed: every tip any sequence of operations leaves
    carries, when it is fold-decided, an accumulator and the statement of its
    own height and root; a checkpoint is joined as decided exactly when zheng
    decides and verifies its non-empty accumulator for that root and height,
    and untrusted otherwise; following by folds never lowers the height, and
    a failed step or a failed audit keeps height, root and trust. *)
Theorem tip_trust_sound (t : tip) (ck : checkpoint) (h : N) (root : particle) :
  tip_run t ->
  tip_wf t /\
  (t_trust (join_checkpoint ck) = FoldDecided <->
     exists acc p, ck_acc ck = Some acc /\ decided acc (ck_root ck) (ck_height ck) p) /\
  (grade4 (join_checkpoint ck) = false -> join_checkpoint ck = untrusted_at ck) /\
  (forall t', advance_fold t h root = (t', Ok tt) -> t_trust t = FoldDecided /\ (t_height t <= t_height t')%N /\
     t_height t' = h /\ t_root t' = root) /\
  (forall t' e, advance_fold t h root = (t', Err e) ->
     t_height t' = t_height t /\ t_root t' = t_root t /\ t_trust t' = t_trust t) /\
  (forall t' p, redecide t = (t', Ok p) -> t_trust t' = FoldDecided /\
     exists acc, t_folding_acc t' = Some acc /\ decided acc (t_root t) (t_height t) p) /\
  (forall t' e, redecide t = (t', Err e) -> t' = t).
Proof.
  intros Hr. split; [by apply tip_run_wf|]. split; [|split; [|split; [|split; [|split]]]].
  - destruct (join_cases ck) as [(acc & p & Ea & Hd & ->)|[Hn ->]]; simpl; split; try done; [eauto|].
    intros (acc & p & Ea & Hd). by destruct (Hn acc p Ea).
  - destruct (join_cases ck) as [(acc & p & Ea & Hd & ->)|[Hn ->]]; done.
  - intros t' E. apply advance_fold_ok in E as (? & ? & Eh & ? & ?). by rewrite Eh.
  - intros t' e E. apply advance_fold_err in E as (? & ? & ? & _). done.
  - intros t' p. destruct (redecide_cases t) as [(acc & q & Ea & Hd & ->)|[e ->]]; intros [= <- <-]. simpl. eauto.
  - intros t' e. destruct (redecide_cases t) as [(acc & q & Ea & Hd & ->)|[e' ->]]; by intros [= <- _].
Qed.

(** Every finalized height reaches the light clients: folding blocks
    from a new prover succeeds exactly for blocks in height order (given a
    proof system that folds), counts one step per block and stands at the
    last one; and then, when zheng decides, the checkpoint joins as a decided
    tip of the last block, which continues with the next fold. *)
Lemma prover_exports_tip (bs : list (N * particle * particle)) (b : N * particle * particle) :
  (forall a w t, (zfold a w t).2 = true) -> last bs = Some b ->
  ((exists p, fold_blocks bs tip_prover_new = Ok p) <-> Sorted N.le (map (fun x => x.1.1) bs)) /\
  forall p pr, fold_blocks bs tip_prover_new = Ok p ->
    step_count (tpr_acc p) = N.of_nat (length bs) /\
    (zdecide (tpr_acc p) (statement_for_root b.1.2 b.1.1) = Some pr ->
     exists t, seal_tip p = Ok t /\ join_checkpoint (prover_checkpoint p) = t /\
       t_trust t = FoldDecided /\ t_height t = b.1.1 /\ t_root t = b.1.2 /\
       forall h root, (b.1.1 <= h)%N -> exists t', advance_fold t h root = (t', Ok tt) /\
         (t_height t' = h /\ t_root t' = root /\ t_trust t' = FoldDecided) /\
         exists acc, t_folding_acc t' = Some acc /\ step_count acc = N.of_nat (S (length bs))).
Proof.
  intros Hz Hlast. split.
  - split; [intros [p Hp]; by apply fold_blocks_spec in Hp as (_ & ? & _)|].
    intros Hs. apply (fold_blocks_enough bs tip_prover_new Hz Hs). intros x _. simpl. lia.
  - intros p pr Hp. apply fold_blocks_spec in Hp as (Hc & _ & _ & Hl). simpl in Hc. rewrite step_count_blank in Hc.
    destruct (Hl b Hlast) as [Hh Hr]. split; [lia|]. rewrite <-Hh, <-Hr. intros Hd.
    assert (length bs <> 0) as Hne by (by destruct bs).
    assert (decided (tpr_acc p) (tpr_root p) (tpr_height p) pr) as Hdec by (apply decided_complete; [lia|done]).
    pose proof (seal_tip_spec p) as Hseal. unfold seal_tip in *. destruct (negb (grade4 _)) eqn:Eg.
    { destruct Hseal as [_ Hn]. by destruct (Hn pr). }
    destruct Hseal as (pr' & _ & E). rewrite E. eexists. split; [done|]. split; [done|]. simpl. split; [done|].
    split; [done|]. split; [done|]. intros h root Hle. unfold advance_fold. simpl.
    rewrite (proj2 (N.ltb_ge _ _) Hle).
    match goal with |- context [zfold ?a ?w ?t] => pose proof (Hz a w t) as Hok; destruct (zfold a w t) as [[acc t'] ok] eqn:Ef end.
    simpl in Hok. subst ok. apply step_count_fold in Ef. eexists. split; [done|]. split; [done|]. simpl.
    exists acc. split; [done|]. lia.
Qed.
End tip_properties.

(** ** Witnesses *)

Lemma tip_trust_sound_witness :
  t_height (advance_fold (join_checkpoint (prover_checkpoint
    (fold_height tip_prover_new 3 (arr_rep 32 x07)).1)) 4 (arr_rep 32 x08)).1 = 4%N.
Proof.
  set (ck := prover_checkpoint (fold_height tip_prover_new 3 (arr_rep 32 x07)).1).
  destruct (tip_trust_sound (join_checkpoint ck) ck 4 (arr_rep 32 x08) (tip_run_join ck))
    as (_ & _ & _ & Hok & _).
  destruct (advance_fold (join_checkpoint ck) 4 (arr_rep 32 x08)) as [t' r] eqn:E.
  assert (is_ok (advance_fold (join_checkpoint ck) 4 (arr_rep 32 x08)).2 = true) as Hr by by_vm.
  rewrite E in Hr. destruct r as [[]|e]; [|done]. by destruct (Hok t' eq_refl) as (_ & _ & ? & _).
Defined.

Definition ex_blocks : list (N * particle * particle) :=
  [(0, zero32, zero32); (1, arr_rep 32 x01, zero32); (1, arr_rep 32 x02, zero32)]%N.
Lemma prover_exports_tip_witness : exists p, fold_blocks ex_blocks tip_prover_new = Ok p.
Proof.
  apply (prover_exports_tip ex_blocks (1%N, arr_rep 32 x02, zero32)); [done|done|].
  repeat constructor; simpl; lia.
Defined.
