(* ===== verification/EpochCert.v ===== *)
(** * EpochCert: epoch certificates (src/epoch_cert.rs)

    A certificate binds a tip, a beacon and optionally a settled receipt by
    the hash of some of its fields.  Verification goes through contributions,
    whose indexing could panic, so it is a [result] with that fault. *)

From S2P Require Import Prelude Order Bytes Externals Goldilocks Instances Settlement Tickets Seals Marginal.
From S2P Require Import Vdf Beacon Rewards Tip.

Section epoch_cert.
Context {HM : Hemera} {NB : Nebu} {FX : Fixed} {TR : Tru} {ZH : Zheng} {TK : Tok} {PH : Phi}.

Record epoch_certificate := mk_cert {
  ec_epoch : N;
  ec_tip_height : N;
  ec_tip_root : particle;
  ec_tip_trust : tip_trust;
  ec_claims_root : particle;
  ec_beacon : beacon_artifact;
  ec_phi_star_hash : option particle;
  ec_settle : option settle_receipt;
  ec_ticket_batch_seal : option fold_seal;
  ec_cert_hash : particle
}.

Record settle_verify_inputs := mk_inputs {
  si_base : list link;
  si_claims : list reward_claim;
  si_ctx : context;
  si_params : focusing_params
}.

Definition cert_bytes (c : epoch_certificate) : list byte :=
  str_bytes "foculus-epoch-cert-v2" ++ u64_le (ec_epoch c) ++ u64_le (ec_tip_height c)
    ++ arr_bytes (ec_tip_root c) ++ [trust_byte (ec_tip_trust c)] ++ arr_bytes (ec_claims_root c)
    ++ arr_bytes (ba_beacon (ec_beacon c))
    ++ match ec_settle c with Some s => arr_bytes (sr_receipt_hash s) | None => [] end
    ++ match ec_phi_star_hash c with Some h => x01 :: arr_bytes h | None => [x00] end
    ++ match ec_ticket_batch_seal c with
       | Some seal => u64_le (fs_steps seal) ++ u64_le (step_count (fs_acc seal))
       | None => []
       end.
Definition cert_hash (c : epoch_certificate) : particle := hemera_hash (cert_bytes c).

Definition with_hash (c : epoch_certificate) (h : particle) : epoch_certificate :=
  mk_cert (ec_epoch c) (ec_tip_height c) (ec_tip_root c) (ec_tip_trust c) (ec_claims_root c) (ec_beacon c)
    (ec_phi_star_hash c) (ec_settle c) (ec_ticket_batch_seal c) h.

Definition issue_epoch_cert (epoch : N) (t : tip) (beacon : beacon_artifact) (claims_root : particle)
    (settle : option settle_receipt) (ticket_batch_seal : option fold_seal) (phi : option phi_proof)
    : epoch_certificate :=
  let c := mk_cert epoch (t_height t) (t_root t) (t_trust t) claims_root beacon (phi_star_hash <$> phi)
             settle ticket_batch_seal zero32 in
  with_hash c (cert_hash c).

(** The inputs' check: the directed total recomputed from base and claims. *)
Definition inputs_ok (inp : settle_verify_inputs) (rec : settle_receipt) : result (fault Empty_set) bool :=
  contribs ← contributions_with_rho (si_claims inp);
  if bool_decide (length contribs = 0) then Ok false
  else
    let all := concat (map rc_links (si_claims inp)) in
    let directed := impulse_directed (si_base inp) all (si_ctx inp) (si_params inp) (params_epsilon (si_params inp)) in
    Ok (gf_as_u64 (fx_raw directed) =? gf_as_u64 (fx_raw (sr_directed_total rec)))%N.

Definition verify_epoch_cert (c : epoch_certificate) (settle_inputs : option settle_verify_inputs)
    : result (fault Empty_set) bool :=
  if negb (bool_decide (ec_cert_hash c = cert_hash c)) then Ok false
  else if negb (match ec_tip_trust c with LocalApplied | FoldDecided => true | Untrusted => false end) then Ok false
  else if negb (verify_beacon (ec_beacon c)) then Ok false
  else if negb (bool_decide (ba_claims_root (ec_beacon c) = ec_claims_root c))
          || negb (ba_epoch (ec_beacon c) =? ec_epoch c)%N then Ok false
  else
    match ec_settle c with
    | None => Ok true
    | Some rec =>
        if negb (verify_receipt rec) then Ok false
        else if negb (sr_epoch rec =? ec_epoch c)%N
                || negb (bool_decide (sr_beacon rec = ba_beacon (ec_beacon c))) then Ok false
        else if negb (bool_decide (sr_claims_root rec = ec_claims_root c)) then Ok false
        else if match ec_ticket_batch_seal c with Some seal => negb (verify_fold_seal seal) | None => false end
        then Ok false
        else
          match settle_inputs with
          | None => Ok true
          | Some inp => inputs_ok inp rec
          end
    end.

Definition verify_phi_on_cert (c : epoch_certificate) (proof : phi_proof) (transition sym : sparse_graph)
    (degree teleport phi0 : list gf) (params : phi_params) : bool :=
  match ec_phi_star_hash c with
  | Some h => if bool_decide (h = phi_star_hash proof)
              then verify_phi_star transition sym degree teleport phi0 proof params else false
  | None => false
  end.

Definition seal_settle_tickets (base : list link) (claims : list reward_claim) (ctx : context)
    (params : focusing_params) (beacon cluster : particle) (tickets : list settlement_ticket)
    : result (fault cert_error) fold_seal :=
  contribs ← lift_fault (contributions_with_rho claims);
  _ ← try_fold (replay_step base contribs ctx params beacon) tickets ();
  prove_replayed_batch base contribs ctx params beacon cluster tickets.

Definition test_settle_target : N := easy_target.

(** ** What verification decides *)

Definition settle_matches (c : epoch_certificate) (rec : settle_receipt) : Prop :=
  verify_receipt rec = true /\ sr_epoch rec = ec_epoch c /\ sr_beacon rec = ba_beacon (ec_beacon c) /\
  sr_claims_root rec = ec_claims_root c /\
  forall seal, ec_ticket_batch_seal c = Some seal -> verify_fold_seal seal = true.

Definition inputs_match (inp : settle_verify_inputs) (rec : settle_receipt) : Prop :=
  si_claims inp <> [] /\
  sr_directed_total rec = impulse_directed (si_base inp) (concat (map rc_links (si_claims inp))) (si_ctx inp)
    (si_params inp) (params_epsilon (si_params inp)).

Definition cert_accepted (c : epoch_certificate) (inputs : option settle_verify_inputs) : Prop :=
  ec_cert_hash c = cert_hash c /\ ec_tip_trust c <> Untrusted /\ verify_beacon (ec_beacon c) = true /\
  ba_claims_root (ec_beacon c) = ec_claims_root c /\ ba_epoch (ec_beacon c) = ec_epoch c /\
  forall rec, ec_settle c = Some rec -> settle_matches c rec /\ forall inp, inputs = Some inp -> inputs_match inp rec.
End epoch_cert.

(** ** Lemmas *)

Section epoch_cert_lemmas.
Context {HM : Hemera} {NB : Nebu} {FX : Fixed} {TR : Tru} {ZH : Zheng} {TK : Tok} {PH : Phi}.
Context {NL : NebuLaws} {FR : FxRawLaws} {TL : TruLaws}.

Lemma raw_eqb x y : (gf_as_u64 (fx_raw x) =? gf_as_u64 (fx_raw y))%N = true <-> x = y.
Proof.
  rewrite N.eqb_eq. split; [|by intros ->]. intros E.
  by rewrite <-(fx_from_raw_raw x), <-(fx_from_raw_raw y), <-(gf_new_as_u64 (fx_raw x)), E, gf_new_as_u64.
Qed.

Lemma inputs_ok_spec inp rec :
  exists b, inputs_ok inp rec = Ok b /\ (b = true <-> inputs_match inp rec).
Proof.
  unfold inputs_ok, inputs_match. destruct (contributions_ok (si_claims inp)) as (cs & -> & Hl). cbn [mbind result_bind].
  destruct (bool_decide_reflect (length cs = 0)) as [H0|H0].
  - exists false. split; [done|]. split; [done|]. intros [Hne _]. destruct (si_claims inp); [done|]. simpl in Hl. lia.
  - eexists. split; [done|]. rewrite raw_eqb. split; [|by intros [_ ->]]. intros <-. split; [|done].
    intros E. by rewrite E in Hl.
Qed.

(** A check that failed: the certificate is not accepted. *)
Ltac refused := exists false; split; [done|]; split; [done|]; intros H; decompose [and] H; done.
Ltac refused_by rec :=
  exists false; split; [done|]; split; [done|]; intros (_ & _ & _ & _ & _ & H);
  destruct (H rec eq_refl) as [(? & ? & ? & ? & _) _]; congruence.

Lemma verify_epoch_cert_spec c inputs :
  exists b, verify_epoch_cert c inputs = Ok b /\ (b = true <-> cert_accepted c inputs).
Proof.
  unfold verify_epoch_cert, cert_accepted.
  destruct (bool_decide_reflect (ec_cert_hash c = cert_hash c)) as [Hh|]; cbn [negb]; [|refused].
  assert (match ec_tip_trust c with LocalApplied | FoldDecided => true | Untrusted => false end
    = bool_decide (ec_tip_trust c <> Untrusted)) as -> by by destruct (ec_tip_trust c).
  destruct (bool_decide_reflect (ec_tip_trust c <> Untrusted)) as [Ht|]; cbn [negb]; [|refused].
  destruct (verify_beacon (ec_beacon c)); cbn [negb]; [|refused].
  destruct (bool_decide_reflect (ba_claims_root (ec_beacon c) = ec_claims_root c)) as [Hc|]; cbn [negb orb]; [|refused].
  destruct (N.eqb_spec (ba_epoch (ec_beacon c)) (ec_epoch c)) as [He|]; cbn [negb]; [|refused].
  destruct (ec_settle c) as [rec|]; [|exists true; naive_solver].
  enough (exists b, match inputs with None => Ok true | Some inp => inputs_ok inp rec end = Ok b :> result (fault Empty_set) bool /\
    (b = true <-> forall inp, inputs = Some inp -> inputs_match inp rec)) as (b & Hb & Hi).
  { unfold settle_matches. destruct (verify_receipt rec) eqn:Hv; cbn [negb]; [|refused_by rec].
    destruct (N.eqb_spec (sr_epoch rec) (ec_epoch c)); cbn [negb orb]; [|refused_by rec].
    destruct (bool_decide_reflect (sr_beacon rec = ba_beacon (ec_beacon c))); cbn [negb]; [|refused_by rec].
    destruct (bool_decide_reflect (sr_claims_root rec = ec_claims_root c)); cbn [negb]; [|refused_by rec].
    assert (match ec_ticket_batch_seal c with Some seal => negb (verify_fold_seal seal) | None => false end = true \/
      match ec_ticket_batch_seal c with Some seal => negb (verify_fold_seal seal) | None => false end = false /\
      forall seal, ec_ticket_batch_seal c = Some seal -> verify_fold_seal seal = true) as [Es|[-> Hs]].
    { destruct (ec_ticket_batch_seal c) as [s|]; [|naive_solver]. destruct (verify_fold_seal s) eqn:Es; naive_solver. }
    - rewrite Es. exists false. split; [done|]. split; [done|]. intros (_ & _ & _ & _ & _ & H). exfalso.
      destruct (H rec eq_refl) as [(_ & _ & _ & _ & Hs) _]. destruct (ec_ticket_batch_seal c) as [s|]; [|done].
      by rewrite (Hs s eq_refl) in Es.
    - exists b. split; [exact Hb|]. rewrite Hi. split.
      + intros Hm. split_and!; try done. intros r [= <-]. by split_and!.
      + intros (_ & _ & _ & _ & _ & H). by destruct (H rec eq_refl). }
  destruct inputs as [inp|]; [|exists true; split; [done|]; split; [|done]; by intros _ inp [=]].
  destruct (inputs_ok_spec inp rec) as (b & -> & Hb). exists b. split; [done|]. rewrite Hb. naive_solver.
Qed.

(** Dropping the inputs only weakens the check. *)
Lemma cert_accepted_weaken c inputs : cert_accepted c inputs -> cert_accepted c None.
Proof. intros (? & ? & ? & ? & ? & H). split_and!; try done. intros rec Hr. by destruct (H rec Hr). Qed.

Lemma cert_accepted_verify c inputs : cert_accepted c inputs <-> verify_epoch_cert c inputs = Ok true.
Proof.
  destruct (verify_epoch_cert_spec c inputs) as (b & -> & <-). split; [by intros ->|by intros [= ->]].
Qed.

(** ** What the hash binds *)

Definition seal_tail (s : option fold_seal) : list byte :=
  match s with Some seal => u64_le (fs_steps seal) ++ u64_le (step_count (fs_acc seal)) | None => [] end.

Lemma cert_bytes_inj c1 c2 :
  is_u64 (ec_epoch c1) -> is_u64 (ec_epoch c2) -> is_u64 (ec_tip_height c1) -> is_u64 (ec_tip_height c2) ->
  (is_Some (ec_settle c1) <-> is_Some (ec_settle c2)) ->
  cert_bytes c1 = cert_bytes c2 ->
  ec_epoch c1 = ec_epoch c2 /\ ec_tip_height c1 = ec_tip_height c2 /\ ec_tip_root c1 = ec_tip_root c2 /\
  ec_tip_trust c1 = ec_tip_trust c2 /\ ec_claims_root c1 = ec_claims_root c2 /\
  ba_beacon (ec_beacon c1) = ba_beacon (ec_beacon c2) /\
  sr_receipt_hash <$> ec_settle c1 = sr_receipt_hash <$> ec_settle c2 /\
  ec_phi_star_hash c1 = ec_phi_star_hash c2 /\
  seal_tail (ec_ticket_batch_seal c1) = seal_tail (ec_ticket_batch_seal c2).
Proof.
  intros He1 He2 Hh1 Hh2 Hs E. unfold cert_bytes in E. apply (app_inv_head (str_bytes "foculus-epoch-cert-v2")) in E.
  fold (seal_tail (ec_ticket_batch_seal c1)) in E. fold (seal_tail (ec_ticket_batch_seal c2)) in E.
  apply app_inj_1 in E as [E1 E]; [|by rewrite !u64_le_length]. apply u64_le_inj in E1; [|done..].
  apply app_inj_1 in E as [E2 E]; [|by rewrite !u64_le_length]. apply u64_le_inj in E2; [|done..].
  apply app_inj_1 in E as [E3 E]; [|by rewrite !arr_length]. apply (inj arr_bytes) in E3.
  apply app_inj_1 in E as [E4 E]; [|done].
  apply app_inj_1 in E as [E5 E]; [|by rewrite !arr_length]. apply (inj arr_bytes) in E5.
  apply app_inj_1 in E as [E6 E]; [|by rewrite !arr_length]. apply (inj arr_bytes) in E6.
  assert (ec_tip_trust c1 = ec_tip_trust c2) as E4' by (by destruct (ec_tip_trust c1), (ec_tip_trust c2)).
  apply app_inj_1 in E as [E7 E].
  2: { destruct (ec_settle c1), (ec_settle c2); rewrite ?arr_length; try done; exfalso; destruct Hs as [H1 H2];
       [destruct (H1 (ex_intro _ _ eq_refl)) | destruct (H2 (ex_intro _ _ eq_refl))]; done. }
  assert (sr_receipt_hash <$> ec_settle c1 = sr_receipt_hash <$> ec_settle c2) as E7'.
  { destruct (ec_settle c1) as [s1|], (ec_settle c2) as [s2|]; simpl; try done.
    - apply (inj arr_bytes) in E7. by rewrite E7.
    - apply (f_equal length) in E7. by rewrite arr_length in E7.
    - apply (f_equal length) in E7. by rewrite arr_length in E7. }
  destruct (ec_phi_star_hash c1) as [p1|], (ec_phi_star_hash c2) as [p2|]; simpl in E; try discriminate E.
  - injection E as E. apply app_inj_1 in E as [E8 E]; [|by rewrite !arr_length]. apply (inj arr_bytes) in E8. subst.
    done.
  - injection E as E. done.
Qed.
End epoch_cert_lemmas.

(** ** Properties *)

Section epoch_cert_properties.
Context {HM : Hemera} {NB : Nebu} {FX : Fixed} {TR : Tru} {ZH : Zheng} {TK : Tok} {PH : Phi}.
Context {NL : NebuLaws} {FR : FxRawLaws} {TL : TruLaws}.

End epoch_cert_properties.

(** ** Witnesses *)

Definition ex_art : beacon_artifact := open_beacon 1 zero32 (arr_rep 32 x09) [] TEST_OUTER_T.
Definition ex_settled : settle_receipt :=
  {| sr_epoch := 1; sr_beacon := ba_beacon ex_art; sr_claims_root := arr_rep 32 x09;
     sr_receipt_hash := receipt_hash 1 (ba_beacon ex_art) [mk_share (arr_rep 32 x01) fx_one 100];
     sr_directed_total := fx_one; sr_budget := 100; sr_shares := [mk_share (arr_rep 32 x01) fx_one 100];
     sr_beacon_artifact := Some ex_art; sr_ticket_seal := None; sr_fold_seal := None; sr_sample_count := 4 |}.
Definition ex_cert_tip : tip := from_local (mk_checkpoint (arr_rep 32 x02) None 5).

