(* ===== verification/Live.v ===== *)
(** * Live: the full, cell and light node (src/live.rs)

    A [live_node] ingests signals, runs epochs, credits rewards and follows a
    tip.  Every method returns the node it leaves and its result; a fault is a
    panic of the source.  [None] is a fuel exhausted in the fold tree, which
    never happens.  A method of several fallible steps is a bind of the
    node monad [live_m], which keeps the state of the failing step. *)

From S2P Require Import Prelude Order Bytes Externals Goldilocks Instances Settlement Tickets Seals Marginal.
From S2P Require Import Vdf Beacon Rewards Partition Epoch Tip EpochCert.
From stdpp Require Import relations.

Section live.
Context {HM : Hemera} {NB : Nebu} {FX : Fixed} {TR : Tru} {ZH : Zheng} {TK : Tok} {PH : Phi}.

Inductive node_mode := Full | Cell | Light.
#[global] Instance node_mode_eq_dec : EqDecision node_mode.
Proof. solve_decision. Defined.

Record live_signal := mk_live_signal {
  ls_id : particle;
  ls_neuron : particle;
  ls_links : list link;
  ls_valence : Z;
  ls_vdf : vdf_proof
}.

Record live_node := mk_live {
  lv_mode : node_mode;
  lv_neuron : particle;
  lv_tip : tip;
  lv_tip_prover : option tip_prover;
  lv_signals : gmap particle live_signal;
  lv_reward_base : list link;
  lv_epoch : epoch_runner;
  lv_last_cert : option epoch_certificate;
  lv_peer_accs : list cluster_acc;
  lv_budget : N;
  lv_settle_depth : N;
  lv_pending_rewards : list (N * particle * N);
  lv_credited_receipts : gset particle;
  lv_matured_reward : N
}.

Inductive live_error :=
| WrongMode | TipUntrusted | TipAdvanceFailed | EpochError | LEmptyClaims | BeaconNotReady | SettleFailed | CertInvalid.

(** Field updates of [&mut self]. *)
Definition set_tip (n : live_node) (t : tip) (p : option tip_prover) : live_node :=
  mk_live (lv_mode n) (lv_neuron n) t p (lv_signals n) (lv_reward_base n) (lv_epoch n) (lv_last_cert n)
    (lv_peer_accs n) (lv_budget n) (lv_settle_depth n) (lv_pending_rewards n) (lv_credited_receipts n)
    (lv_matured_reward n).
Definition set_signals (n : live_node) (s : gmap particle live_signal) : live_node :=
  mk_live (lv_mode n) (lv_neuron n) (lv_tip n) (lv_tip_prover n) s (lv_reward_base n) (lv_epoch n) (lv_last_cert n)
    (lv_peer_accs n) (lv_budget n) (lv_settle_depth n) (lv_pending_rewards n) (lv_credited_receipts n)
    (lv_matured_reward n).
Definition set_epoch (n : live_node) (e : epoch_runner) : live_node :=
  mk_live (lv_mode n) (lv_neuron n) (lv_tip n) (lv_tip_prover n) (lv_signals n) (lv_reward_base n) e (lv_last_cert n)
    (lv_peer_accs n) (lv_budget n) (lv_settle_depth n) (lv_pending_rewards n) (lv_credited_receipts n)
    (lv_matured_reward n).
Definition set_cert (n : live_node) (c : option epoch_certificate) (accs : list cluster_acc) : live_node :=
  mk_live (lv_mode n) (lv_neuron n) (lv_tip n) (lv_tip_prover n) (lv_signals n) (lv_reward_base n) (lv_epoch n) c
    accs (lv_budget n) (lv_settle_depth n) (lv_pending_rewards n) (lv_credited_receipts n)
    (lv_matured_reward n).
Definition set_rewards (n : live_node) (pending : list (N * particle * N)) (credited : gset particle) (matured : N)
    : live_node :=
  mk_live (lv_mode n) (lv_neuron n) (lv_tip n) (lv_tip_prover n) (lv_signals n) (lv_reward_base n) (lv_epoch n)
    (lv_last_cert n) (lv_peer_accs n) (lv_budget n) (lv_settle_depth n) pending credited matured.

(** The public settings a user assigns. *)
Definition configure (n : live_node) (base : list link) (budget depth : N) : live_node :=
  mk_live (lv_mode n) (lv_neuron n) (lv_tip n) (lv_tip_prover n) (lv_signals n) base (lv_epoch n) (lv_last_cert n)
    (lv_peer_accs n) budget depth (lv_pending_rewards n) (lv_credited_receipts n) (lv_matured_reward n).

(** ** The node monad *)

Definition live_m (A : Type) : Type := live_node -> live_node * result (fault live_error) A.
#[global] Instance live_ret : MRet live_m := fun A a n => (n, Ok a).
#[global] Instance live_bind : MBind live_m := fun A B f m n =>
  match m n with (n', Ok a) => f a n' | (n', Err e) => (n', Err e) end.
Definition fail {A} (e : live_error) : live_m A := fun n => (n, Err (Failed e)).
Definition modify (f : live_node -> live_node) : live_m unit := fun n => (f n, Ok tt).
Definition skip : live_m unit := fun n => (n, Ok tt).
Definition guard_not_light : live_m unit := fun n =>
  if bool_decide (lv_mode n = Light) then fail WrongMode n else skip n.

(** ** Construction and tips *)

Definition live_new (mode : node_mode) (neuron : particle) : live_node :=
  let '(t, prover) :=
    match mode with
    | Light => (untrusted, None)
    | Full | Cell =>
        let prover := (fold_height tip_prover_new 0 zero32).1 in
        let t := unwrap_or (from_local (mk_checkpoint zero32 None 0)) (seal_tip prover) in
        (t, Some prover)
    end in
  mk_live mode neuron t prover ∅ [] (genesis 1) None [] 1000 2 [] ∅ 0.

Definition live_grade4 (n : live_node) : bool := grade4 (lv_tip n).
Definition live_epoch_phase (n : live_node) : epoch_phase := ep_phase (lv_epoch n).
Definition live_claims (n : live_node) : list reward_claim := ep_claims (lv_epoch n).
Definition export_tip (n : live_node) : tip := lv_tip n.

Definition light_join (t : tip) : live_m unit := fun n =>
  if negb (bool_decide (lv_mode n = Light)) then fail WrongMode n
  else if negb (grade4 t) then fail TipUntrusted n
  else (set_tip n t (lv_tip_prover n), Ok tt).

Definition light_advance (height : N) (root : particle) : live_m unit := fun n =>
  if negb (bool_decide (lv_mode n = Light)) then fail WrongMode n
  else
    let '(t, r) := advance_fold (lv_tip n) height root in
    (set_tip n t (lv_tip_prover n), map_err (fun _ => Failed TipAdvanceFailed) r).

(** ** Rewards *)

(** One pending reward: it matures or is kept. *)
Definition mature_one (h depth : N) (st : N * list (N * particle * N)) (p : N * particle * N)
    : N * list (N * particle * N) :=
  let '(amt, reason, mint_h) := p in
  if (sat_add64 mint_h depth <=? h)%N then (sat_add64 st.1 amt, st.2) else (st.1, st.2 ++ [p]).

Definition mature_rewards (n : live_node) : live_node :=
  let '(matured, keep) := fold_left (mature_one (t_height (lv_tip n)) (lv_settle_depth n)) (lv_pending_rewards n)
                            (lv_matured_reward n, []) in
  set_rewards n keep (lv_credited_receipts n) matured.

Definition credit_receipt (rec : settle_receipt) (mint_height : N) (n : live_node) : live_node :=
  if bool_decide (sr_receipt_hash rec ∈ lv_credited_receipts n) then n
  else
    let amt := share_of rec (lv_neuron n) in
    let pending := if (0 <? amt)%N then lv_pending_rewards n ++ [(amt, sr_receipt_hash rec, mint_height)]
                   else lv_pending_rewards n in
    set_rewards n pending ({[sr_receipt_hash rec]} ∪ lv_credited_receipts n) (lv_matured_reward n).

(** ** Signals *)

Definition tip_root_bytes (h : N) (signals : nat) : particle :=
  default zero32 (list_to_arr 32 (u64_le h ++ [byte_of_N (N.of_nat signals)] ++ replicate 23 x00)).

Definition bump_tip : live_m unit := fun n =>
  let h := sat_add64 (t_height (lv_tip n)) 1 in
  let root := tip_root_bytes h (size (lv_signals n)) in
  match lv_tip_prover n with
  | Some prover =>
      match fold_height prover h root with
      | (prover, Err _) => (set_tip n (lv_tip n) (Some prover), Err (Failed TipAdvanceFailed))
      | (prover, Ok _) =>
          match seal_tip prover with
          | Err _ => (set_tip n (lv_tip n) (Some prover), Err (Failed TipAdvanceFailed))
          | Ok t => (mature_rewards (set_tip n t (Some prover)), Ok tt)
          end
      end
  | None => (mature_rewards (set_tip n (from_local (mk_checkpoint root None h)) None), Ok tt)
  end.

(** Propose the signal's claim while the epoch is open. *)
Definition propose_signal (s : live_signal) : live_m unit := fun n =>
  if bool_decide (ep_phase (lv_epoch n) = Propose) then
    let claim := claim_from_links (ls_id s) (ls_neuron s) (ls_links s) (ls_valence s) in
    let '(e, r) := propose_runner (lv_epoch n) claim in
    (set_epoch n e, map_err (fun _ => Failed EpochError) r)
  else skip n.

(** A signal not seen before. *)
Definition ingest_new (s : live_signal) : live_m unit :=
  _ ← propose_signal s;
  _ ← modify (fun n => set_signals n (<[ls_id s := s]> (lv_signals n)));
  bump_tip.
Definition ingest_body (s : live_signal) : live_m unit := fun n =>
  if bool_decide (is_Some (lv_signals n !! ls_id s)) then skip n else ingest_new s n.
Definition ingest_signal (s : live_signal) : live_m unit := _ ← guard_not_light; ingest_body s.

(** The id [link] gives a signal: its number and the neuron's first byte. *)
Definition link_id (signals : nat) (neuron : particle) : particle :=
  default zero32 (list_to_arr 32 (u64_le (as_u64 (N.of_nat signals + 1)) ++ take 1 (arr_bytes neuron) ++ replicate 23 x00)).

Definition live_link (from to : particle) (amount : N) (valence : Z) : live_m particle := fun n =>
  let id := link_id (size (lv_signals n)) (lv_neuron n) in
  let vdf_p := evaluate (challenge_from_hash id) 16 in
  let l := link_stake from to amount in
  let l := mk_link (lv_neuron n) (l_from l) (l_to l) (l_amount l) valence (l_price l) in
  (_ ← ingest_signal (mk_live_signal id (lv_neuron n) [l] valence vdf_p); live_ret _ id) n.

Definition absorb_peer_acc (acc : cluster_acc) (n : live_node) : live_node :=
  if bool_decide (lv_mode n = Light) then n else set_cert n (lv_last_cert n) (lv_peer_accs n ++ [acc]).

(** ** Epochs *)

Definition freeze_epoch : live_m unit := fun n =>
  if bool_decide (ep_phase (lv_epoch n) = Propose) then
    let '(e, r) := freeze (lv_epoch n) in (set_epoch n e, map_err (fun _ => Failed EpochError) (_ ← r; Ok tt))
  else skip n.

Definition signal_vdfs (n : live_node) : list vdf_proof :=
  map ls_vdf (sorted_values (lv_signals n)).

Definition open_epoch_beacon : live_m unit := fun n =>
  if bool_decide (ep_phase (lv_epoch n) = Frozen) then
    let '(e, r) := open_runner_beacon (lv_epoch n) (signal_vdfs n) in
    (set_epoch n e, map_err (fun _ => Failed EpochError) (_ ← r; Ok tt))
  else skip n.

(** An open epoch without claims is refused before it is frozen. *)
Definition claims_nonempty : live_m unit := fun n =>
  if bool_decide (ep_phase (lv_epoch n) = Propose) && bool_decide (length (ep_claims (lv_epoch n)) = 0)
  then fail LEmptyClaims n else skip n.

Definition live_policy (n : live_node) : ticket_policy :=
  mk_policy 4 64 (po_start_nonce policy_default) easy_target (po_fold_target policy_default) (lv_neuron n)
    (po_precision_epsilon policy_default) (po_precision_delta policy_default).

Definition prepare_epoch : live_m unit :=
  _ ← guard_not_light;
  _ ← modify (fun n => set_epoch n (set_outer_t (set_budget (lv_epoch n) (lv_budget n)) TEST_OUTER_T));
  _ ← claims_nonempty;
  _ ← freeze_epoch;
  open_epoch_beacon.

(** From the receipt to the certificate and the next epoch. *)
Definition conclude_epoch (rec : settle_receipt) : live_m epoch_certificate := fun n =>
  if negb (verify_receipt rec) then fail SettleFailed n
  else
    let n := credit_receipt rec (t_height (lv_tip n)) n in
    match ep_beacon (lv_epoch n) with
    | None => fail EpochError n
    | Some art =>
        let cert := issue_epoch_cert (ep_epoch (lv_epoch n)) (lv_tip n) art (sr_claims_root rec) (Some rec)
                      (sr_ticket_seal rec) None in
        let inputs := mk_inputs (lv_reward_base n) (ep_claims (lv_epoch n)) context_none params_default in
        match verify_epoch_cert cert (Some inputs) with
        | Ok true =>
            let n := set_cert n (Some cert) [] in
            let n := match next_epoch (lv_epoch n) with
                     | Ok next => set_epoch n (set_budget next (lv_budget n))
                     | Err _ => n
                     end in
            (mature_rewards n, Ok cert)
        | Ok false => fail CertInvalid n
        | Err _ => (n, Err Panicked)
        end
    end.

(** With the peers' accumulators, when there are any. *)
Definition settle_live (n : live_node) : option (epoch_runner * result (fault epoch_error) settle_receipt) :=
  match lv_peer_accs n with
  | [] => settle (lv_epoch n) (lv_reward_base n) context_none params_default (live_policy n)
  | peers => settle_with_peers (lv_epoch n) (lv_reward_base n) context_none params_default (live_policy n) peers
  end.

Definition close_and_settle_epoch (n : live_node) : option (live_node * result (fault live_error) epoch_certificate) :=
  match prepare_epoch n with
  | (n, Err e) => Some (n, Err e)
  | (n, Ok _) =>
      settled ← settle_live n;
      let n := set_epoch n settled.1 in
      Some (match settled.2 with
            | Ok rec => conclude_epoch rec n
            | Err (Failed _) => fail SettleFailed n
            | Err Panicked => (n, Err Panicked)
            end)
  end.

(** The tip a light node takes from a certificate. *)
Definition import_tip (cert : epoch_certificate) (n : live_node) : live_node :=
  if bool_decide (lv_mode n = Light)
     && (bool_decide (ec_tip_trust cert = FoldDecided) || (t_height (lv_tip n) <=? ec_tip_height cert)%N)
  then set_tip n (from_local (mk_checkpoint (ec_tip_root cert) None (ec_tip_height cert))) (lv_tip_prover n)
  else n.

Definition accept_epoch_cert (cert : epoch_certificate) (claims : option (list reward_claim)) : live_m unit := fun n =>
  let inputs := (fun c => mk_inputs (lv_reward_base n) c context_none params_default) <$> claims in
  match verify_epoch_cert cert inputs with
  | Err _ => (n, Err Panicked)
  | Ok false => fail CertInvalid n
  | Ok true =>
      let n := import_tip cert n in
      let n := match ec_settle cert with
               | Some rec => credit_receipt rec (ec_tip_height cert) n
               | None => n
               end in
      (mature_rewards (set_cert n (Some cert) (lv_peer_accs n)), Ok tt)
  end.

Definition mine_self_acc (n : live_node) : result (fault live_error) cluster_acc :=
  if bool_decide (lv_mode n = Light) then Err (Failed WrongMode)
  else if bool_decide (ep_phase (lv_epoch n) <> BeaconReady) then Err (Failed BeaconNotReady)
  else
    art ← may_fail (ok_or BeaconNotReady (ep_beacon (lv_epoch n)));
    let claims := ep_claims (lv_epoch n) in
    if bool_decide (length claims = 0) then Err (Failed LEmptyClaims)
    else
      contribs ← lift_fault (contributions_with_rho claims);
      tickets ← lift_fault (grind_settlement (lv_reward_base n) contribs context_none params_default (ba_beacon art)
                  (ba_claims_root art) (lv_neuron n) 0 64 3 easy_target);
      if bool_decide (length tickets = 0) then Err (Failed SettleFailed)
      else Ok (self_fold (length contribs) tickets).

Definition current_root : live_m particle := fun n => (n, Ok (default zero32 (ep_claims_root (lv_epoch n)))).
Definition freeze_and_beacon : live_m particle :=
  _ ← guard_not_light; _ ← freeze_epoch; _ ← open_epoch_beacon; current_root.
End live.

(** ** Rewards: what is credited, pending and matured *)

Section live_rewards.
Context {HM : Hemera} {NB : Nebu} {FX : Fixed} {TR : Tru} {ZH : Zheng} {TK : Tok} {PH : Phi}.

Definition pending_sum (l : list (N * particle * N)) : N := sum_N (map (fun p => p.1.1) l).
(** Everything the node owns or is owed, capped like the balance. *)
Definition reward_value (n : live_node) : N := N.min (lv_matured_reward n + pending_sum (lv_pending_rewards n)) u64_max.
Definition reasons (n : live_node) : list particle := map (fun p => p.1.2) (lv_pending_rewards n).

Definition rewards_wf (n : live_node) : Prop :=
  is_u64 (lv_matured_reward n) /\ NoDup (reasons n) /\ forall h, h ∈ reasons n -> h ∈ lv_credited_receipts n.

Definition is_mature (h depth : N) (p : N * particle * N) : bool := (sat_add64 p.2 depth <=? h)%N.

(** The node's reward books, which most methods leave alone. *)
Definition books (n : live_node) : N * list (N * particle * N) * gset particle * particle :=
  (lv_matured_reward n, lv_pending_rewards n, lv_credited_receipts n, lv_neuron n).

(** A step of the books: unchanged in value, or one receipt more of those
    that may be credited. *)
Definition paid_by (may : settle_receipt -> Prop) (n n' : live_node) : Prop :=
  lv_neuron n' = lv_neuron n /\
  ((lv_credited_receipts n' = lv_credited_receipts n /\ reward_value n' = reward_value n) \/
   exists rec, may rec /\ sr_receipt_hash rec ∉ lv_credited_receipts n /\
     lv_credited_receipts n' = {[sr_receipt_hash rec]} ∪ lv_credited_receipts n /\
     reward_value n' = sat_add64 (reward_value n) (share_of rec (lv_neuron n))).
Definition paid_step : live_node -> live_node -> Prop := paid_by (fun rec => verify_receipt rec = true).

Lemma paid_by_mono (may may' : settle_receipt -> Prop) n n' : (forall rec, may rec -> may' rec) -> paid_by may n n' -> paid_by may' n n'.
Proof. intros H [Hn [Hs|(rec & Hm & ? & ? & ?)]]; (split; [done|]); [by left|right]. exists rec. by split_and!; [apply H|..]. Qed.

Lemma pending_sum_cons p l : pending_sum (p :: l) = (p.1.1 + pending_sum l)%N.
Proof. done. Qed.
Lemma pending_sum_app l1 l2 : pending_sum (l1 ++ l2) = (pending_sum l1 + pending_sum l2)%N.
Proof. induction l1 as [|p l1 IH]; [done|]. cbn [app]. rewrite !pending_sum_cons, IH. lia. Qed.

Lemma mature_fold h d l m k :
  is_u64 m ->
  exists m', fold_left (mature_one h d) l (m, k) = (m', k ++ List.filter (fun p => negb (is_mature h d p)) l) /\
    is_u64 m' /\
    N.min (m' + pending_sum (List.filter (fun p => negb (is_mature h d p)) l)) u64_max = N.min (m + pending_sum l) u64_max.
Proof.
  revert m k. induction l as [|[[a r] mh] l IH]; intros m k Hm; cbn [fold_left List.filter].
  { exists m. by rewrite app_nil_r. }
  change (is_mature h d (a, r, mh)) with (sat_add64 mh d <=? h)%N.
  unfold mature_one at 2. cbn [fst snd]. destruct (sat_add64 mh d <=? h)%N; cbn [negb].
  - destruct (IH (sat_add64 m a) k) as (m' & -> & Hm' & E); [unfold is_u64; apply sat_add64_le|].
    exists m'. split; [done|]. split; [done|]. rewrite E. rewrite pending_sum_cons. unfold sat_add64. cbn [fst]. lia.
  - destruct (IH m (k ++ [(a, r, mh)]) Hm) as (m' & -> & Hm' & E). exists m'. rewrite <-app_assoc. split; [done|].
    split; [done|]. rewrite !pending_sum_cons. cbn [fst]. lia.
Qed.

Lemma mature_spec n :
  is_u64 (lv_matured_reward n) ->
  exists m', mature_rewards n = set_rewards n
      (List.filter (fun p => negb (is_mature (t_height (lv_tip n)) (lv_settle_depth n) p)) (lv_pending_rewards n))
      (lv_credited_receipts n) m' /\
    is_u64 m' /\ reward_value (mature_rewards n) = reward_value n.
Proof.
  intros Hm. unfold mature_rewards.
  destruct (mature_fold (t_height (lv_tip n)) (lv_settle_depth n) (lv_pending_rewards n) _ [] Hm) as (m' & -> & Hm' & E).
  exists m'. split; [done|]. split; [done|]. exact E.
Qed.

Lemma rewards_wf_books n n' : books n' = books n -> rewards_wf n -> rewards_wf n'.
Proof. unfold books, rewards_wf, reasons. intros [= -> -> -> _]. done. Qed.

Lemma reward_value_books n n' : books n' = books n -> reward_value n' = reward_value n.
Proof. unfold books, reward_value. by intros [= -> -> _ _]. Qed.

Lemma filter_reasons_wf (f : N * particle * N -> bool) l :
  NoDup (map (fun p => p.1.2) l) -> NoDup (map (fun p : N * particle * N => p.1.2) (List.filter f l)) /\
  forall h, h ∈ map (fun p : N * particle * N => p.1.2) (List.filter f l) -> h ∈ map (fun p => p.1.2) l.
Proof.
  intros H. assert (map (fun p : N * particle * N => p.1.2) (List.filter f l) `sublist_of` map (fun p => p.1.2) l) as Hs.
  { apply fmap_sublist. induction l as [|x l IH]; simpl; [done|]. inversion H; subst. destruct (f x); constructor; auto. }
  split; [by eapply sublist_NoDup|]. intros h Hh. by eapply elem_of_sublist.
Qed.

Lemma mature_wf n : rewards_wf n -> rewards_wf (mature_rewards n).
Proof.
  intros (Hm & Hnd & Hin). destruct (mature_spec n Hm) as (m' & -> & Hm' & _).
  unfold rewards_wf, reasons in *. simpl.
  destruct (filter_reasons_wf (fun p => negb (is_mature (t_height (lv_tip n)) (lv_settle_depth n) p)) _ Hnd) as [Hn' Hs].
  split; [done|]. split; [done|]. auto.
Qed.

Lemma mature_paid may n : rewards_wf n -> paid_by may n (mature_rewards n).
Proof.
  intros (Hm & _). destruct (mature_spec n Hm) as (m' & E & _ & Hv).
  split; [by rewrite E|]. left. split; [by rewrite E|done].
Qed.

Lemma credit_wf rec mh n : rewards_wf n -> rewards_wf (credit_receipt rec mh n).
Proof.
  intros (Hm & Hnd & Hin). unfold credit_receipt. case_bool_decide as Hc; [done|].
  unfold rewards_wf, reasons in *. cbn [lv_matured_reward lv_pending_rewards lv_credited_receipts set_rewards].
  destruct (0 <? share_of rec (lv_neuron n))%N.
  - rewrite map_app. split; [done|]. split.
    + apply NoDup_app. split; [done|]. split; [|apply NoDup_singleton].
      intros h Hh ->%list_elem_of_singleton. by apply Hc, Hin.
    + intros h [Hh| ->%list_elem_of_singleton]%elem_of_app; [apply elem_of_union_r; auto|].
      apply elem_of_union_l, elem_of_singleton. done.
  - split; [done|]. split; [done|]. intros h Hh. apply elem_of_union_r. auto.
Qed.

Lemma credit_paid (may : settle_receipt -> Prop) rec mh n : may rec -> paid_by may n (credit_receipt rec mh n).
Proof.
  intros Hv. unfold credit_receipt. case_bool_decide as Hc; [by split; [|left]|].
  split; [done|]. right. exists rec. split; [done|]. split; [done|]. split; [done|].
  unfold reward_value. cbn [lv_matured_reward lv_pending_rewards set_rewards].
  destruct (N.ltb_spec 0 (share_of rec (lv_neuron n))).
  - rewrite pending_sum_app, pending_sum_cons. unfold sat_add64. cbn. lia.
  - unfold sat_add64. lia.
Qed.

(** Maturing after a step of the books. *)
Lemma paid_then_mature may n n1 : rewards_wf n1 -> paid_by may n n1 -> paid_by may n (mature_rewards n1).
Proof.
  intros Hw [Hn Hp]. destruct (mature_paid may n1 Hw) as [Hn1 Hm].
  assert (lv_credited_receipts (mature_rewards n1) = lv_credited_receipts n1) as Ec.
  { destruct Hw as [Hw _]. by destruct (mature_spec n1 Hw) as (m' & -> & _). }
  assert (reward_value (mature_rewards n1) = reward_value n1) as Ev.
  { destruct Hw as [Hw _]. by destruct (mature_spec n1 Hw) as (m' & _ & _ & ?). }
  split; [congruence|]. rewrite Ec, Ev. exact Hp.
Qed.

Lemma paid_books may n n1 : books n1 = books n -> paid_by may n n1.
Proof.
  intros E. split; [by injection E|]. left. split; [by injection E|]. by apply reward_value_books.
Qed.
Lemma paid_books_l may n n0 n1 : books n0 = books n -> paid_by may n0 n1 -> paid_by may n n1.
Proof.
  intros E. pose proof (reward_value_books _ _ E) as Ev. unfold books in E. injection E as Em Ep Ec En.
  unfold paid_by. by rewrite Ec, En, Ev.
Qed.
Lemma paid_books_r may n n0 n1 : books n1 = books n0 -> paid_by may n n0 -> paid_by may n n1.
Proof.
  intros E. pose proof (reward_value_books _ _ E) as Ev. unfold books in E. injection E as Em Ep Ec En.
  unfold paid_by. by rewrite Ec, En, Ev.
Qed.
End live_rewards.

(** ** The node as a state machine *)

Section live_runs.
Context {HM : Hemera} {NB : Nebu} {FX : Fixed} {TR : Tru} {ZH : Zheng} {TK : Tok} {PH : Phi}.

Definition few_peers (n : live_node) : Prop := (N.of_nat (S (length (lv_peer_accs n))) <= u64_max)%N.

(** The calls of a node's user; a [Vec] of peers is no longer than memory. *)
Inductive live_step : live_node -> live_node -> Prop :=
| live_step_join n t : live_step n (light_join t n).1
| live_step_advance n h root : live_step n (light_advance h root n).1
| live_step_ingest n s : live_step n (ingest_signal s n).1
| live_step_link n from to amount valence : live_step n (live_link from to amount valence n).1
| live_step_absorb n acc : live_step n (absorb_peer_acc acc n)
| live_step_close n n' r : few_peers n -> close_and_settle_epoch n = Some (n', r) -> live_step n n'
| live_step_accept n cert claims : live_step n (accept_epoch_cert cert claims n).1
| live_step_freeze n : live_step n (freeze_and_beacon n).1
| live_step_configure n base budget depth : is_u64 budget -> live_step n (configure n base budget depth).

Definition live_ok (n : live_node) : Prop :=
  rewards_wf n /\ is_u64 (lv_budget n) /\ exists e prev, consistent e prev (lv_epoch n).

(** A method that leaves the books alone, and one that moves them by at most
    one verified receipt; both keep the node consistent and never panic. *)
Definition quiet {A} (m : live_m A) : Prop :=
  forall n, live_ok n -> live_ok (m n).1 /\ books (m n).1 = books n /\ (m n).2 <> Err Panicked.
Definition live_op {A} (m : live_m A) : Prop :=
  forall n, live_ok n -> live_ok (m n).1 /\ paid_step n (m n).1 /\ (m n).2 <> Err Panicked.

Lemma quiet_op {A} (m : live_m A) : quiet m -> live_op m.
Proof. intros H n Hn. destruct (H n Hn) as (? & ? & ?). split; [done|]. split; [by apply paid_books|done]. Qed.

Lemma quiet_bind {A B} (m : live_m A) (k : A -> live_m B) : quiet m -> (forall a, quiet (k a)) -> quiet (a ← m; k a).
Proof.
  intros Hm Hk n Hn. unfold mbind, live_bind. destruct (Hm n Hn) as (H1 & H2 & H3).
  destruct (m n) as [n1 [a|e]]; simpl in *; [|split; [done|]; split; [done|congruence]].
  destruct (Hk a n1 H1) as (? & E & ?). split; [done|]. split; [congruence|done].
Qed.

Lemma op_bind {A B} (m : live_m A) (k : A -> live_m B) : quiet m -> (forall a, live_op (k a)) -> live_op (a ← m; k a).
Proof.
  intros Hm Hk n Hn. unfold mbind, live_bind. destruct (Hm n Hn) as (H1 & H2 & H3).
  destruct (m n) as [n1 [a|e]]; simpl in *; [|split; [done|]; split; [by apply paid_books|congruence]].
  destruct (Hk a n1 H1) as (? & E & ?). split; [done|]. split; [by eapply paid_books_l|done].
Qed.

Lemma op_bind_ret {A B} (m : live_m A) (b : B) : live_op m -> live_op (_ ← m; live_ret _ b).
Proof.
  intros Hm n Hn. unfold mbind, live_bind. destruct (Hm n Hn) as (H1 & H2 & H3).
  destruct (m n) as [n1 [a|e]]; simpl in *; [done|]. split; [done|]. split; [done|congruence].
Qed.

Lemma quiet_skip : quiet skip.
Proof. intros n Hn. done. Qed.
Lemma quiet_guard : quiet guard_not_light.
Proof. intros n Hn. unfold guard_not_light. by case_bool_decide. Qed.

(** Replacing the runner by a consistent one. *)
Lemma ok_set_epoch n e prev r : live_ok n -> consistent e prev r -> live_ok (set_epoch n r).
Proof. intros (Hw & Hb & _) Hc. split; [done|]. split; [done|]. by exists e, prev. Qed.

Lemma ok_set_tip n t p : live_ok n -> live_ok (set_tip n t p).
Proof. done. Qed.

Lemma quiet_propose s : quiet (propose_signal s).
Proof.
  intros n Hn. unfold propose_signal. case_bool_decide as Hp; [|done].
  set (claim := claim_from_links _ _ _ _). pose proof Hn as (_ & _ & e & prev & Hc).
  pose proof (propose_consistent e prev (lv_epoch n) claim Hc) as Hc'.
  destruct (propose_runner (lv_epoch n) claim) as [r res]. simpl in *.
  split; [by eapply ok_set_epoch|]. split; [done|]. by destruct res.
Qed.

Lemma quiet_signals s : quiet (modify (fun n => set_signals n (<[ls_id s := s]> (lv_signals n)))).
Proof. intros n Hn. done. Qed.

Lemma ok_mature n : live_ok n -> live_ok (mature_rewards n).
Proof.
  intros (Hw & Hb & Hc). pose proof (mature_wf n Hw) as Hw'. destruct Hw as [Hm _].
  destruct (mature_spec n Hm) as (m' & E & _). rewrite E in *. done.
Qed.

Lemma ok_books n n' : books n' = books n -> is_u64 (lv_budget n') -> lv_epoch n' = lv_epoch n -> live_ok n -> live_ok n'.
Proof. intros E Hb Ee (Hw & _ & Hc). split; [by eapply rewards_wf_books|]. split; [done|]. by rewrite Ee. Qed.

Lemma op_bump : live_op bump_tip.
Proof.
  intros n Hn. unfold bump_tip. destruct (lv_tip_prover n) as [p|].
  - destruct (fold_height p _ _) as [p' [[]|e]]; [|by split; [|split; [apply paid_books|]]].
    destruct (seal_tip p') as [t|e]; [|by split; [|split; [apply paid_books|]]].
    split; [by apply ok_mature|]. split; [|done]. apply paid_then_mature; [apply Hn|by apply paid_books].
  - split; [by apply ok_mature|]. split; [|done]. apply paid_then_mature; [apply Hn|by apply paid_books].
Qed.

Lemma op_ingest s : live_op (ingest_signal s).
Proof.
  unfold ingest_signal. apply op_bind; [apply quiet_guard|]. intros _ n Hn. unfold ingest_body.
  case_bool_decide; [by apply (quiet_op skip quiet_skip)|].
  assert (live_op (ingest_new s)) as H0; [|by apply H0].
  unfold ingest_new. apply op_bind; [apply quiet_propose|]. intros _.
  apply op_bind; [apply quiet_signals|]. intros _. apply op_bump.
Qed.

Lemma op_link from to amount valence : live_op (live_link from to amount valence).
Proof. intros n Hn. unfold live_link. apply op_bind_ret; [apply op_ingest|done]. Qed.

Lemma quiet_freeze : quiet freeze_epoch.
Proof.
  intros n Hn. unfold freeze_epoch. case_bool_decide; [|done].
  pose proof Hn as (_ & _ & e & prev & Hc). pose proof (proj1 (freeze_spec e prev _ Hc)) as Hc'.
  destruct (freeze (lv_epoch n)) as [r res]. simpl in *.
  split; [by eapply ok_set_epoch|]. split; [done|]. by destruct res.
Qed.

Lemma quiet_open : quiet open_epoch_beacon.
Proof.
  intros n Hn. unfold open_epoch_beacon. case_bool_decide; [|done].
  pose proof Hn as (_ & _ & e & prev & Hc). pose proof (proj1 (open_spec e prev _ (signal_vdfs n) Hc)) as Hc'.
  destruct (open_runner_beacon (lv_epoch n) (signal_vdfs n)) as [r res]. simpl in *.
  split; [by eapply ok_set_epoch|]. split; [done|]. by destruct res.
Qed.

Lemma quiet_freeze_and_beacon : quiet freeze_and_beacon.
Proof.
  unfold freeze_and_beacon. apply quiet_bind; [apply quiet_guard|]. intros _.
  apply quiet_bind; [apply quiet_freeze|]. intros _. apply quiet_bind; [apply quiet_open|]. by intros _ n Hn.
Qed.

Lemma quiet_claims_nonempty : quiet claims_nonempty.
Proof. intros n Hn. unfold claims_nonempty. by destruct (_ && _). Qed.

Lemma quiet_settings : quiet (modify (fun n => set_epoch n (set_outer_t (set_budget (lv_epoch n) (lv_budget n)) TEST_OUTER_T))).
Proof.
  intros n Hn. pose proof Hn as (_ & Hb & e & prev & Hc). split; [|done]. apply (ok_set_epoch n e prev); [done|].
  unfold consistent in *. simpl. by destruct Hc as (? & ? & _ & ?).
Qed.

Lemma quiet_prepare : quiet prepare_epoch.
Proof.
  unfold prepare_epoch. apply quiet_bind; [apply quiet_guard|]. intros _. apply quiet_bind; [apply quiet_settings|].
  intros _. apply quiet_bind; [apply quiet_claims_nonempty|]. intros _.
  apply quiet_bind; [apply quiet_freeze|]. intros _. apply quiet_open.
Qed.

Lemma quiet_light_join t : quiet (light_join t).
Proof. intros n Hn. unfold light_join. destruct (negb _); [done|]. by destruct (negb _). Qed.
Lemma quiet_light_advance h root : quiet (light_advance h root).
Proof.
  intros n Hn. unfold light_advance. destruct (negb _); [done|].
  destruct (advance_fold _ _ _) as [t r]. simpl. split; [done|]. split; [done|]. by destruct r.
Qed.

Lemma ok_credit rec mh n : live_ok n -> live_ok (credit_receipt rec mh n).
Proof.
  intros (Hw & Hb & Hc). split; [by apply credit_wf|]. unfold credit_receipt. by case_bool_decide.
Qed.
End live_runs.

Section live_epochs.
Context {HM : Hemera} {NB : Nebu} {FX : Fixed} {TR : Tru} {ZH : Zheng} {TK : Tok} {PH : Phi}.
Context {FA : FxAddLaws} {NL : NebuLaws} {FR : FxRawLaws} {TL : TruLaws} {ZL : ZhengLaws}.

Lemma import_tip_books cert n : books (import_tip cert n) = books n.
Proof. unfold import_tip. by destruct (_ && _). Qed.
Lemma import_tip_ok cert n : live_ok n -> live_ok (import_tip cert n).
Proof. unfold import_tip. by destruct (_ && _). Qed.

(** Crediting, then recording a certificate, then maturing. *)
Lemma credit_then_mature (may : settle_receipt -> Prop) n0 n rec mh c accs :
  live_ok n -> books n = books n0 -> may rec ->
  live_ok (mature_rewards (set_cert (credit_receipt rec mh n) c accs)) /\
  paid_by may n0 (mature_rewards (set_cert (credit_receipt rec mh n) c accs)).
Proof.
  intros Hn Hb Hv. pose proof (ok_credit rec mh n Hn) as Hc. split; [by apply ok_mature|].
  apply paid_then_mature; [apply Hc|].
  apply (paid_books_r may n0 (credit_receipt rec mh n)); [done|]. apply (paid_books_l may n0 n); [done|]. by apply credit_paid.
Qed.

(** What accepting a certificate credits is the receipt it carries. *)
Definition carried (cert : epoch_certificate) (rec : settle_receipt) : Prop := verify_receipt rec = true /\ ec_settle cert = Some rec.
Lemma accept_spec cert claims n : live_ok n ->
  live_ok (accept_epoch_cert cert claims n).1 /\ paid_by (carried cert) n (accept_epoch_cert cert claims n).1 /\
  (accept_epoch_cert cert claims n).2 <> Err Panicked.
Proof.
  intros Hn. unfold accept_epoch_cert.
  destruct (verify_epoch_cert_spec cert ((fun c => mk_inputs (lv_reward_base n) c context_none params_default) <$> claims))
    as (b & -> & Hb). destruct b; [|by split; [|split; [apply paid_books|]]].
  destruct (proj1 Hb eq_refl) as (_ & _ & _ & _ & _ & Hrec).
  pose proof (import_tip_ok cert n Hn) as Hi. pose proof (import_tip_books cert n) as Ei.
  destruct (ec_settle cert) as [rec|] eqn:Es; simpl.
  - destruct (Hrec rec eq_refl) as [(Hv & _) _].
    destruct (credit_then_mature (carried cert) n (import_tip cert n) rec (ec_tip_height cert) (Some cert)
      (lv_peer_accs (credit_receipt rec (ec_tip_height cert) (import_tip cert n))) Hi Ei (conj Hv Es)). done.
  - split; [by apply ok_mature|]. split; [|done]. apply paid_then_mature; [apply Hi|by apply paid_books].
Qed.

Lemma op_accept cert claims : live_op (accept_epoch_cert cert claims).
Proof.
  intros n Hn. destruct (accept_spec cert claims n Hn) as (? & Hp & ?). split; [done|]. split; [|done].
  eapply paid_by_mono; [|exact Hp]. by intros rec [? _].
Qed.

(** The end of an epoch whose runner has settled. *)
Lemma conclude_spec rec n e prev :
  live_ok n -> consistent e prev (lv_epoch n) -> ep_phase (lv_epoch n) = Settled ->
  let res := conclude_epoch rec n in
  live_ok res.1 /\ paid_by (fun r => verify_receipt r = true /\ r = rec) n res.1 /\
  match res.2 with
  | Ok cert => cert_accepted cert None /\ ec_epoch cert = e /\ ec_settle cert = Some rec /\
      lv_last_cert res.1 = Some cert /\ lv_peer_accs res.1 = [] /\
      sr_receipt_hash rec ∈ lv_credited_receipts res.1 /\
      lv_epoch res.1 = set_budget (runner_new (sat_add64 e 1) (ba_beacon (ec_beacon cert))) (lv_budget n)
  | Err err => err <> Panicked
  end.
Proof.
  intros Hn Hc Hph. unfold conclude_epoch. destruct (verify_receipt rec) eqn:Hv; cbn [negb];
    [|by split; [|split; [apply paid_books|]]].
  set (n1 := credit_receipt rec (t_height (lv_tip n)) n). pose proof (ok_credit rec (t_height (lv_tip n)) n Hn) as Hn1. fold n1 in Hn1.
  pose proof (credit_paid (fun r => verify_receipt r = true /\ r = rec) rec (t_height (lv_tip n)) n (conj Hv eq_refl)) as Hp. fold n1 in Hp.
  assert (lv_epoch n1 = lv_epoch n) as Ee by (unfold n1, credit_receipt; by case_bool_decide).
  assert (sr_receipt_hash rec ∈ lv_credited_receipts n1) as Hin.
  { unfold n1, credit_receipt. case_bool_decide; [done|]. simpl. by apply elem_of_union_l, elem_of_singleton. }
  assert (lv_budget n1 = lv_budget n) as Eb by (unfold n1, credit_receipt; by case_bool_decide).
  rewrite Ee. destruct (ep_beacon (lv_epoch n)) as [art|] eqn:Ea; [|by split; [|split]].
  set (cert := issue_epoch_cert _ _ _ _ _ _ _).
  destruct (verify_epoch_cert_spec cert (Some (mk_inputs (lv_reward_base n1) (ep_claims (lv_epoch n)) context_none params_default)))
    as (b & -> & Hb). destruct b; [|by split; [|split]].
  pose proof (cert_accepted_weaken _ _ (proj1 Hb eq_refl)) as Hacc.
  pose proof Hc as (He & _ & _ & Hst). rewrite Hph in Hst.
  unfold next_epoch. change (lv_epoch (set_cert n1 (Some cert) [])) with (lv_epoch n1).
  rewrite Ee, Ea, bool_decide_eq_false_2 by (by intros H; apply H). cbn [ok_or mbind result_bind].
  change (lv_budget (set_cert n1 (Some cert) [])) with (lv_budget n1).
  rewrite He, Eb. destruct (credit_then_mature (fun r => verify_receipt r = true /\ r = rec) n n rec (t_height (lv_tip n)) (Some cert) [] Hn eq_refl (conj Hv eq_refl)) as [Hok Hpaid].
  fold n1 in Hok, Hpaid. set (next := set_budget (runner_new (sat_add64 e 1) (ba_beacon art)) (lv_budget n)).
  assert (mature_rewards (set_epoch (set_cert n1 (Some cert) []) next)
    = set_epoch (mature_rewards (set_cert n1 (Some cert) [])) next) as ->.
  { unfold mature_rewards. simpl. by destruct (fold_left _ _ _). }
  destruct Hn1 as (Hw1 & Hbud & _). destruct (mature_spec (set_cert n1 (Some cert) []) (proj1 Hw1)) as (m' & Em & _).
  cbn [fst snd]. split.
  - destruct Hok as (Hw & Hb' & _). split; [done|]. split; [done|]. exists (sat_add64 e 1), (ba_beacon art).
    pose proof (new_consistent (sat_add64 e 1) (ba_beacon art)) as (? & ? & _ & ?). split_and!; try done. simpl. by rewrite <-Eb.
  - split; [exact Hpaid|]. split; [done|]. split; [done|]. split; [done|].
    rewrite Em. split; [done|]. split; [done|]. split; [done|done].
Qed.

(** The receipt that closing settles on, if it gets that far. *)
Definition settled_on (n : live_node) : option settle_receipt :=
  match prepare_epoch n with
  | (n, Ok _) => match settle_live n with Some (_, Ok rec) => Some rec | _ => None end
  | _ => None
  end.
Definition settles (n : live_node) (rec : settle_receipt) : Prop := verify_receipt rec = true /\ settled_on n = Some rec.

Lemma prepare_keeps n : lv_peer_accs (prepare_epoch n).1 = lv_peer_accs n /\ lv_budget (prepare_epoch n).1 = lv_budget n.
Proof.
  unfold prepare_epoch, mbind, live_bind, guard_not_light, claims_nonempty, freeze_epoch, open_epoch_beacon, modify, fail, skip.
  repeat (case_bool_decide || destruct (freeze _) as [? [?|?]] || destruct (open_runner_beacon _ _) as [? [?|?]]; simpl; try done).
Qed.

(** Settling a prepared node. *)
Lemma settle_live_spec n e prev :
  consistent e prev (lv_epoch n) -> few_peers n ->
  exists r' res, settle_live n = Some (r', res) /\ consistent e prev r' /\
    match res with
    | Ok rec => ep_phase r' = Settled /\ sum_N (map sh_amount (sr_shares rec)) = sr_budget rec
    | Err err => err <> Panicked
    end.
Proof.
  intros Hc Hp. assert (N.of_nat (po_want (live_policy n)) <= u64_max)%N as Hw by by vm_compute.
  assert (settle_live n = settle_with_peers (lv_epoch n) (lv_reward_base n) context_none params_default
    (live_policy n) (lv_peer_accs n)) as -> by (unfold settle_live; by destruct (lv_peer_accs n)).
  destruct (settle_peers_spec e prev (lv_epoch n) (lv_reward_base n) context_none params_default (live_policy n) (lv_peer_accs n) Hc Hp Hw)
    as (r' & res & -> & Hc' & Hres).
  exists r', res. split; [done|]. split; [done|]. destruct res as [rec|err]; [|by destruct Hres].
  destruct Hres as (_ & Hset & Hrc). split; [done|]. pose proof Hc' as (_ & _ & _ & Hst). rewrite Hset in Hst.
  destruct Hst as (_ & art & rc & _ & Erc & _ & Hs & _). rewrite Hrc in Erc. injection Erc as ->. apply Hs.
Qed.

(** The receipt pays its budget. *)
Lemma settled_pays n rec : live_ok n -> few_peers n -> settled_on n = Some rec -> sum_N (map sh_amount (sr_shares rec)) = sr_budget rec.
Proof.
  intros Hn Hp. unfold settled_on. destruct (quiet_prepare n Hn) as ((_ & _ & e & prev & Hc) & _ & _).
  pose proof (prepare_keeps n) as [Epeers _]. destruct (prepare_epoch n) as [n1 [[]|err]]; [|done]. cbn [fst] in *.
  destruct (settle_live_spec n1 e prev Hc) as (r' & res & -> & _ & Hres); [unfold few_peers in *; by rewrite Epeers|].
  destruct res as [rc|]; [|done]. intros [= ->]. apply Hres.
Qed.

(** Closing never runs out of fuel and never panics, and a successful close
    leaves a certificate and the next epoch. *)
Lemma close_spec n :
  live_ok n -> few_peers n ->
  exists n' r, close_and_settle_epoch n = Some (n', r) /\ live_ok n' /\ paid_by (settles n) n n' /\
    match r with
    | Ok cert => cert_accepted cert None /\ lv_last_cert n' = Some cert /\ lv_peer_accs n' = [] /\
        (exists rec, ec_settle cert = Some rec /\ sr_receipt_hash rec ∈ lv_credited_receipts n') /\
        lv_epoch n' = set_budget (runner_new (sat_add64 (ec_epoch cert) 1) (ba_beacon (ec_beacon cert))) (lv_budget n)
    | Err err => err <> Panicked
    end.
Proof.
  intros Hn Hp. unfold close_and_settle_epoch. destruct (quiet_prepare n Hn) as (H1 & E1 & N1). unfold settles, settled_on.
  pose proof (prepare_keeps n) as [Epeers Ebud].
  destruct (prepare_epoch n) as [n1 [[]|err]]; cbn [fst snd] in *.
  2: { eexists _, _. split; [done|]. split; [done|]. split; [by apply paid_books|congruence]. }
  pose proof H1 as (_ & _ & e & prev & Hc).
  destruct (settle_live_spec n1 e prev Hc) as (r' & res & E & Hc' & Hres); [unfold few_peers in *; by rewrite Epeers|].
  rewrite E. cbn [mbind option_bind fst snd].
  pose proof (ok_set_epoch n1 e prev r' H1 Hc') as H2.
  destruct res as [rec|err].
  - destruct Hres as [Hset _]. destruct (conclude_spec rec (set_epoch n1 r') e prev H2 Hc' Hset) as (Hk & Hpaid & Hr).
    destruct (conclude_epoch rec (set_epoch n1 r')) as [n2 r2]. cbn [fst snd] in *. eexists _, _. split; [done|]. split; [done|].
    split.
    { apply (paid_books_l _ n (set_epoch n1 r')); [done|]. eapply paid_by_mono; [|exact Hpaid]. intros r [Hv ->].
      by split. }
    destruct r2 as [cert|err]; [|done].
    destruct Hr as (? & <- & ? & ? & ? & ? & E3). cbn [lv_budget set_epoch] in E3. rewrite Ebud in E3. split; [done|]. split; [done|].
    split; [done|]. split; [eauto|done].
  - destruct err as [|err]; [done|]. eexists _, _. split; [done|]. split; [done|].
    split; [|done]. by apply paid_books.
Qed.

Lemma new_ok mode neuron : live_ok (live_new mode neuron).
Proof.
  assert (rewards_wf (live_new mode neuron) /\ is_u64 (lv_budget (live_new mode neuron)) /\
    lv_epoch (live_new mode neuron) = genesis 1) as (Hw & Hb & He).
  { destruct mode; (split; [split; [by vm_compute|split; [constructor|by intros h ?%not_elem_of_nil]]|split; [by vm_compute|done]]). }
  split; [done|]. split; [done|]. rewrite He. exists 1%N, GENESIS_PREV. apply new_consistent.
Qed.

Lemma live_step_spec n n' : live_ok n -> live_step n n' -> live_ok n' /\ paid_step n n'.
Proof.
  intros Hn Hs. destruct Hs as [n t|n h root|n s|n from to amount valence|n acc|n n' r Hp E|n cert claims|n|n base budget depth Hb].
  - destruct (quiet_op _ (quiet_light_join t) n Hn) as (? & ? & _). done.
  - destruct (quiet_op _ (quiet_light_advance h root) n Hn) as (? & ? & _). done.
  - destruct (op_ingest s n Hn) as (? & ? & _). done.
  - destruct (op_link from to amount valence n Hn) as (? & ? & _). done.
  - unfold absorb_peer_acc. case_bool_decide; (split; [done|by apply paid_books]).
  - destruct (close_spec n Hn Hp) as (n1 & r1 & E1 & ? & Hpay & _). rewrite E in E1. injection E1 as -> _. split; [done|].
    eapply paid_by_mono; [|exact Hpay]. by intros rec [? _].
  - destruct (op_accept cert claims n Hn) as (? & ? & _). done.
  - destruct (quiet_op _ quiet_freeze_and_beacon n Hn) as (? & ? & _). done.
  - split; [|by apply paid_books]. destruct Hn as (? & _ & ?). done.
Qed.

Lemma reachable_ok mode neuron n : rtc live_step (live_new mode neuron) n -> live_ok n.
Proof.
  intros H. pose proof (new_ok mode neuron) as H0. revert H0.
  induction H as [x|x y z Hxy _ IH]; [done|]. intros Hx. apply IH. by destruct (live_step_spec x y Hx Hxy).
Qed.
End live_epochs.

(** ** The tip a full node follows *)

Section live_tips.
Context {HM : Hemera} {NB : Nebu} {FX : Fixed} {TR : Tru} {ZH : Zheng} {TK : Tok} {PH : Phi} {ZL : ZhengLaws}.
(** A proof system that folds and decides what it folded. *)
Hypothesis zfold_works : forall a w t, (zfold a w t).2 = true.
Hypothesis zdecide_works : forall a s, step_count a <> 0%N -> is_Some (zdecide a s).

Definition tip_view (n : live_node) : node_mode * tip * option tip_prover := (lv_mode n, lv_tip n, lv_tip_prover n).

(** The prover stands at the node's tip and has folded it. *)
Definition tracks (n : live_node) : Prop :=
  lv_mode n <> Light /\ is_u64 (t_height (lv_tip n)) /\
  exists p, lv_tip_prover n = Some p /\ tpr_height p = t_height (lv_tip n) /\ step_count (tpr_acc p) <> 0%N.

Lemma tracks_view n n' : tip_view n' = tip_view n -> tracks n -> tracks n'.
Proof. unfold tip_view, tracks. by intros [= -> -> ->]. Qed.

Lemma seal_works p : step_count (tpr_acc p) <> 0%N -> exists t, seal_tip p = Ok t /\ t_height t = tpr_height p.
Proof.
  intros Hs. destruct (zdecide_works (tpr_acc p) (statement_for_root (tpr_root p) (tpr_height p)) Hs) as [pr Hpr].
  pose proof (seal_tip_spec p) as H. destruct (seal_tip p) as [t|e].
  - destruct H as (? & _ & ->). eauto.
  - destruct H as [_ H]. by destruct (H pr (decided_complete _ _ _ _ Hs Hpr)).
Qed.

Lemma fold_works p h root :
  (step_count (tpr_acc p) = 0 \/ tpr_height p <= h)%N ->
  exists p', fold_height p h root = (p', Ok tt) /\ tpr_height p' = h /\ step_count (tpr_acc p') <> 0%N.
Proof.
  intros Hh. unfold fold_height, fold_block.
  assert ((h <? tpr_height p)%N && (0 <? step_count (tpr_acc p))%N = false) as ->.
  { apply andb_false_iff. rewrite !N.ltb_ge. lia. }
  match goal with |- context [zfold ?a ?w ?t] =>
    pose proof (zfold_works a w t) as Hok; destruct (zfold a w t) as [[acc t'] ok] eqn:Ef end.
  simpl in Hok. subst ok. apply step_count_fold in Ef. eexists. split; [done|]. simpl. split; [done|lia].
Qed.

Lemma mature_view n : tip_view (mature_rewards n) = tip_view n.
Proof. unfold mature_rewards. by destruct (fold_left _ _ _). Qed.
Lemma credit_view rec mh n : tip_view (credit_receipt rec mh n) = tip_view n.
Proof. unfold credit_receipt. by case_bool_decide. Qed.

Lemma bump_spec n :
  tracks n ->
  exists t p, bump_tip n = (mature_rewards (set_tip n t (Some p)), Ok tt) /\
    t_height t = sat_add64 (t_height (lv_tip n)) 1 /\ tracks (mature_rewards (set_tip n t (Some p))).
Proof.
  intros (Hm & Hu & p & Hp & Hh & Hs). unfold bump_tip. rewrite Hp.
  destruct (fold_works p (sat_add64 (t_height (lv_tip n)) 1)
    (tip_root_bytes (sat_add64 (t_height (lv_tip n)) 1) (size (lv_signals n)))) as (p' & -> & Hh' & Hs').
  { right. rewrite Hh. unfold sat_add64, is_u64 in *. lia. }
  destruct (seal_works p' Hs') as (t & -> & Ht). exists t, p'. split; [done|]. split; [congruence|].
  eapply tracks_view; [apply mature_view|]. split; [done|]. split.
  - simpl. rewrite Ht, Hh'. unfold is_u64. apply sat_add64_le.
  - exists p'. split; [done|]. split; [simpl; congruence|done].
Qed.

Lemma propose_signal_frame s n :
  exists e, propose_signal s n = (set_epoch n e, Ok tt).
Proof.
  unfold propose_signal. case_bool_decide as Hp.
  - unfold propose_runner. rewrite bool_decide_eq_false_2 by (by intros H). simpl. eauto.
  - exists (lv_epoch n). unfold skip. by destruct n.
Qed.

(** A fresh signal raises the tip by one height and matures what is due. *)
Lemma ingest_fresh s n :
  tracks n -> lv_signals n !! ls_id s = None ->
  exists n1, ingest_signal s n = (mature_rewards n1, Ok tt) /\ books n1 = books n /\ lv_settle_depth n1 = lv_settle_depth n /\ lv_signals n1 = <[ls_id s := s]> (lv_signals n) /\ t_height (lv_tip n1) = sat_add64 (t_height (lv_tip n)) 1 /\ tracks (mature_rewards n1).
Proof.
  intros Ht Hf. pose proof Ht as (Hm & _). unfold ingest_signal, mbind, live_bind, guard_not_light.
  rewrite bool_decide_eq_false_2 by done. unfold skip at 1, ingest_body. rewrite bool_decide_eq_false_2 by (rewrite Hf; by intros [? ?]).
  unfold ingest_new, mbind, live_bind. destruct (propose_signal_frame s n) as [e ->]. unfold modify.
  set (n0 := set_signals (set_epoch n e) _).
  destruct (bump_spec n0) as (t & p & -> & Hh & Htr); [by eapply (tracks_view n)|].
  eexists. split; [done|]. done.
Qed.

(** Methods that leave mode, tip and prover alone. *)
Definition tipless {A} (m : live_m A) : Prop := forall n, tip_view (m n).1 = tip_view n.

Lemma tipless_bind {A B} (m : live_m A) (k : A -> live_m B) :
  tipless m -> (forall a, tipless (k a)) -> tipless (a ← m; k a).
Proof.
  intros Hm Hk n. unfold mbind, live_bind. specialize (Hm n). destruct (m n) as [n1 [a|e]]; simpl in *; [|done].
  by rewrite Hk.
Qed.
Lemma tipless_guard : tipless guard_not_light.
Proof. intros n. unfold guard_not_light. by case_bool_decide. Qed.
Lemma tipless_freeze : tipless freeze_epoch.
Proof. intros n. unfold freeze_epoch. case_bool_decide; [|done]. by destruct (freeze _). Qed.
Lemma tipless_open : tipless open_epoch_beacon.
Proof. intros n. unfold open_epoch_beacon. case_bool_decide; [|done]. by destruct (open_runner_beacon _ _). Qed.
Lemma tipless_prepare : tipless prepare_epoch.
Proof.
  unfold prepare_epoch. apply tipless_bind; [apply tipless_guard|]. intros _. apply tipless_bind; [done|]. intros _.
  apply tipless_bind; [intros n; unfold claims_nonempty; by destruct (_ && _)|]. intros _.
  apply tipless_bind; [apply tipless_freeze|]. intros _. apply tipless_open.
Qed.
Lemma tipless_freeze_and_beacon : tipless freeze_and_beacon.
Proof.
  unfold freeze_and_beacon. apply tipless_bind; [apply tipless_guard|]. intros _.
  apply tipless_bind; [apply tipless_freeze|]. intros _. by apply tipless_bind; [apply tipless_open|].
Qed.
Lemma tipless_conclude rec : tipless (conclude_epoch rec).
Proof.
  intros n. unfold conclude_epoch. destruct (negb _); [done|]. pose proof (credit_view rec (t_height (lv_tip n)) n) as Ec.
  destruct (ep_beacon _); [|done]. destruct (verify_epoch_cert _ _) as [[]|]; [|done..]. cbn [fst]. rewrite mature_view.
  by destruct (next_epoch _).
Qed.
Lemma close_view n n' r : close_and_settle_epoch n = Some (n', r) -> tip_view n' = tip_view n.
Proof.
  unfold close_and_settle_epoch. pose proof (tipless_prepare n) as Hp. destruct (prepare_epoch n) as [n1 [[]|e]]; simpl in Hp.
  2: { by intros [= <- _]. }
  destruct (settle_live n1) as [[ep res]|]; cbn [mbind option_bind fst snd]; [|done]. intros E. apply (inj Some) in E.
  destruct res as [rec|[|e]]; [|by injection E as <- _..].
  pose proof (tipless_conclude rec (set_epoch n1 ep)) as Hc. rewrite E in Hc. simpl in Hc. by rewrite Hc, <-Hp.
Qed.

Lemma tracks_step n n' : tracks n -> live_step n n' -> tracks n'.
Proof.
  intros Ht Hs. pose proof Ht as (Hm & _).
  assert (forall s, tracks (ingest_signal s n).1) as Hing.
  { intros s. destruct (lv_signals n !! ls_id s) as [s'|] eqn:Es.
    - unfold ingest_signal, mbind, live_bind, guard_not_light. rewrite bool_decide_eq_false_2 by done.
      unfold skip, ingest_body. by rewrite bool_decide_eq_true_2 by (rewrite Es; eauto).
    - by destruct (ingest_fresh s n Ht Es) as (n1 & -> & _ & _ & _ & _ & ?). }
  destruct Hs as [n t|n h root|n s|n from to amount valence|n acc|n n' r Hp E|n cert claims|n|n base budget depth Hb].
  - unfold light_join. by rewrite bool_decide_eq_false_2 by done.
  - unfold light_advance. by rewrite bool_decide_eq_false_2 by done.
  - apply Hing.
  - unfold live_link, mbind, live_bind. set (sg := mk_live_signal _ _ _ _ _). specialize (Hing sg).
    by destruct (ingest_signal sg n) as [n1 [[]|e]].
  - unfold absorb_peer_acc. by case_bool_decide.
  - by eapply tracks_view; [eapply close_view|].
  - unfold accept_epoch_cert. destruct (verify_epoch_cert _ _) as [[]|]; [|done..]. cbn [fst].
    assert (import_tip cert n = n) as -> by (unfold import_tip; by rewrite bool_decide_eq_false_2).
    eapply tracks_view; [|done]. rewrite mature_view. destruct (ec_settle cert); [|done].
    apply (credit_view _ (ec_tip_height cert)).
  - eapply tracks_view; [apply tipless_freeze_and_beacon|done].
  - done.
Qed.

Lemma new_tracks mode neuron : mode <> Light -> tracks (live_new mode neuron).
Proof.
  intros Hm. unfold live_new.
  destruct (fold_works tip_prover_new 0 zero32) as (p & E & Hh & Hs); [right; done|].
  rewrite E. cbn [fst]. destruct (seal_works p Hs) as (t & Et & Ht). rewrite Et.
  destruct mode; [..|done]; (split; [done|]; split; [simpl; by rewrite Ht, Hh|]; exists p; split; [done|]; split; [simpl; congruence|done]).
Qed.

Lemma reachable_tracks mode neuron n : mode <> Light -> rtc live_step (live_new mode neuron) n -> tracks n.
Proof.
  intros Hm H. pose proof (new_tracks mode neuron Hm) as H0. revert H0.
  induction H as [x|x y z Hxy _ IH]; [done|]. intros Hx. apply IH. by eapply tracks_step.
Qed.

(** Ingesting one signal after the other. *)
Fixpoint ingest_all (ss : list live_signal) (n : live_node) : live_node :=
  match ss with [] => n | s :: ss => ingest_all ss (ingest_signal s n).1 end.

Definition due (n : live_node) (height : N) (p : N * particle * N) : bool :=
  is_mature height (lv_settle_depth n) p.

Lemma filter_due_twice h1 h2 d l :
  (h1 <= h2)%N ->
  List.filter (fun p => negb (is_mature h2 d p)) (List.filter (fun p => negb (is_mature h1 d p)) l)
    = List.filter (fun p => negb (is_mature h2 d p)) l.
Proof.
  intros Hle. induction l as [|p l IH]; simpl; [done|].
  destruct (is_mature h1 d p) eqn:E1; simpl; [|by destruct (is_mature h2 d p); simpl; rewrite IH].
  assert (is_mature h2 d p = true) as ->; [|done]. unfold is_mature in *. rewrite N.leb_le in *. lia.
Qed.

Lemma ingest_all_spec ss s n :
  tracks n -> live_ok n -> NoDup (map ls_id (s :: ss)) -> Forall (fun x => lv_signals n !! ls_id x = None) (s :: ss) ->
  (t_height (lv_tip n) + N.of_nat (S (length ss)) <= u64_max)%N ->
  let n' := ingest_all (s :: ss) n in
  t_height (lv_tip n') = (t_height (lv_tip n) + N.of_nat (S (length ss)))%N /\ lv_pending_rewards n' = List.filter (fun p => negb (due n (t_height (lv_tip n')) p)) (lv_pending_rewards n) /\ lv_credited_receipts n' = lv_credited_receipts n /\ reward_value n' = reward_value n /\ lv_settle_depth n' = lv_settle_depth n /\ tracks n' /\ live_ok n'.
Proof.
  revert s n. induction ss as [|s2 ss IH]; intros s n Ht Hok Hnd Hall Hmax; cbv zeta; cbn [ingest_all].
  all: inversion Hall as [|? ? Hs Hrest]; subst; destruct (ingest_fresh s n Ht Hs) as (n1 & E & Hb & Hd & Hsig & Hh & Ht1);
    pose proof (op_ingest s n Hok) as (Hok1 & _ & _); rewrite E in *; cbn [fst] in *;
    pose proof (rewards_wf_books _ _ Hb (proj1 Hok)) as Hw1; destruct (mature_spec n1 (proj1 Hw1)) as (m' & Em & _ & Ev);
    rewrite (reward_value_books _ _ Hb) in Ev; unfold books in Hb; injection Hb as Hb1 Hb2 Hb3 Hb4;
    rewrite sat_add64_exact in Hh by lia.
  - assert (t_height (lv_tip (mature_rewards n1)) = t_height (lv_tip n1)) as -> by by rewrite Em.
    split; [rewrite Hh; done|]. split; [rewrite Em; unfold due; simpl; by rewrite Hb2, Hd|].
    split; [by rewrite Em|]. split; [done|]. split; [by rewrite Em|done].
  - destruct (IH s2 (mature_rewards n1)) as (H1 & H2 & H3 & H4 & H5 & H6 & H7); [done|done|by inversion Hnd| | |].
    + rewrite Em. simpl. rewrite Hsig. inversion Hnd as [|? ? Hni _]; subst.
      apply Forall_forall. intros x Hx. rewrite lookup_insert_ne; [by eapply Forall_forall in Hrest|].
      intros Ex. apply Hni. rewrite Ex. by apply (list_elem_of_fmap_2 ls_id (s2 :: ss)).
    + rewrite Em. simpl. simpl in Hmax. lia.
    + change (ingest_all ss (ingest_signal s2 (mature_rewards n1)).1) with (ingest_all (s2 :: ss) (mature_rewards n1)).
      rewrite H2, H1, H3, H4, H5, Ev. unfold due.
      assert (t_height (lv_tip (mature_rewards n1)) = (t_height (lv_tip n) + 1)%N) as -> by (by rewrite Em).
      assert (lv_settle_depth (mature_rewards n1) = lv_settle_depth n) as -> by (by rewrite Em).
      assert (lv_credited_receipts (mature_rewards n1) = lv_credited_receipts n) as -> by (by rewrite Em).
      split; [simpl; lia|]. split; [|done].
      rewrite Em. cbn [lv_pending_rewards set_rewards]. rewrite Hb2, Hd, Hh.
      apply filter_due_twice. lia.
Qed.
End live_tips.

(** ** Properties *)

Section live_properties.
Context {HM : Hemera} {NB : Nebu} {FX : Fixed} {TR : Tru} {ZH : Zheng} {TK : Tok} {PH : Phi}.
Context {FA : FxAddLaws} {NL : NebuLaws} {FR : FxRawLaws} {TL : TruLaws} {ZL : ZhengLaws}.

(** A certificate is accepted a second time without moving the books. *)
Lemma accept_again n cert claims n1 :
  live_ok n -> accept_epoch_cert cert claims n = (n1, Ok tt) ->
  exists n2, accept_epoch_cert cert claims n1 = (n2, Ok tt) /\
    lv_credited_receipts n2 = lv_credited_receipts n1 /\ reward_value n2 = reward_value n1.
Proof.
  intros Hn E. destruct (op_accept cert claims n Hn) as (Hn1 & _ & _). rewrite E in Hn1. simpl in Hn1.
  unfold accept_epoch_cert in E. set (inp := (fun c => mk_inputs (lv_reward_base n) c context_none params_default) <$> claims) in E.
  destruct (verify_epoch_cert cert inp) as [[]|] eqn:Ev; [|done..]. injection E as E.
  set (n0 := match ec_settle cert with Some rec => credit_receipt rec (ec_tip_height cert) (import_tip cert n)
             | None => import_tip cert n end) in E.
  assert (lv_reward_base n0 = lv_reward_base n) as Eb.
  { unfold n0, credit_receipt, import_tip. destruct (ec_settle cert); [case_bool_decide|]; by destruct (_ && _). }
  assert (forall rec, ec_settle cert = Some rec -> sr_receipt_hash rec ∈ lv_credited_receipts n0) as Hin.
  { intros rec Hrec. unfold n0. rewrite Hrec. unfold credit_receipt. case_bool_decide; [done|]. simpl.
    by apply elem_of_union_l, elem_of_singleton. }
  assert (lv_reward_base n1 = lv_reward_base n0 /\ lv_credited_receipts n1 = lv_credited_receipts n0) as [Eb1 Ec1].
  { rewrite <-E. unfold mature_rewards. by destruct (fold_left _ _ _). }
  unfold accept_epoch_cert. rewrite Eb1, Eb. fold inp. rewrite Ev.
  assert (match ec_settle cert with Some rec => credit_receipt rec (ec_tip_height cert) (import_tip cert n1)
          | None => import_tip cert n1 end = import_tip cert n1) as ->.
  { destruct (ec_settle cert) as [rec|]; [|done]. unfold credit_receipt. rewrite bool_decide_eq_true_2; [done|].
    pose proof (import_tip_books cert n1) as Ei. injection Ei as _ _ -> _. rewrite Ec1. by apply Hin. }
  eexists. split; [done|]. pose proof (import_tip_books cert n1) as Ei.
  set (n2 := set_cert (import_tip cert n1) _ _). assert (books n2 = books n1) as E2 by exact Ei.
  destruct (mature_spec n2) as (m' & Em & _ & Hv).
  { assert (lv_matured_reward n2 = lv_matured_reward n1) as -> by (by injection E2). apply Hn1. }
  rewrite Hv, (reward_value_books _ _ E2). split; [|done]. rewrite Em. simpl. by injection E2.
Qed.

(** A light node that takes the tip of a certificate holds it as locally
    applied, so it can no longer follow by folds. *)
Lemma light_accept_stops_following (n n1 : live_node) (cert : epoch_certificate) (claims : option (list reward_claim)) h root :
  lv_mode n = Light -> (ec_tip_trust cert = FoldDecided \/ t_height (lv_tip n) <= ec_tip_height cert)%N ->
  accept_epoch_cert cert claims n = (n1, Ok tt) ->
  t_height (lv_tip n1) = ec_tip_height cert /\ (light_advance h root n1).2 = Err (Failed TipAdvanceFailed).
Proof.
  intros Hm Hc. unfold accept_epoch_cert. destruct (verify_epoch_cert _ _) as [[]|]; [|done..]. intros [= <-].
  set (n0 := set_cert _ _ _).
  assert (tip_view n0 = (Light, from_local (mk_checkpoint (ec_tip_root cert) None (ec_tip_height cert)), lv_tip_prover n)) as E.
  { unfold n0. transitivity (tip_view (import_tip cert n)).
    - destruct (ec_settle cert); [|done]. apply (credit_view _ (ec_tip_height cert)).
    - unfold import_tip. rewrite (bool_decide_eq_true_2 _ Hm).
      replace (bool_decide (ec_tip_trust cert = FoldDecided) || (t_height (lv_tip n) <=? ec_tip_height cert)%N) with true.
      + unfold tip_view. simpl. by rewrite Hm.
      + symmetry. apply orb_true_iff. rewrite bool_decide_eq_true, N.leb_le. done. }
  pose proof (mature_view n0) as Ev. rewrite E in Ev. unfold tip_view in Ev. injection Ev as Em Et Ep.
  rewrite Et. split; [done|]. unfold light_advance. rewrite Em, Et. done.
Qed.

(** C9: Rewards are booked once: in every run of a node the pending rewards
    carry distinct receipts, all marked as credited, and every call leaves the
    node's balance plus what it is owed as it was, or adds its share of one
    verified receipt never credited before; accepting a certificate again
    adds nothing. *)
Theorem rewards_credited_once (mode : node_mode) (neuron : particle) (n n' : live_node) :
  rtc live_step (live_new mode neuron) n -> live_step n n' ->
  rewards_wf n' /\ paid_step n n' /\
  forall cert claims n1, accept_epoch_cert cert claims n = (n1, Ok tt) ->
    exists n2, accept_epoch_cert cert claims n1 = (n2, Ok tt) /\
      lv_credited_receipts n2 = lv_credited_receipts n1 /\ reward_value n2 = reward_value n1.
Proof.
  intros Hr%reachable_ok Hs. destruct (live_step_spec n n' Hr Hs) as [[Hw _] Hp].
  split; [done|]. split; [done|]. intros cert claims n1. by apply accept_again.
Qed.


End live_properties.

(** ** Witnesses *)

(** A full node with one linked signal, and the node after closing. *)
Definition ex_live : live_node :=
  (live_link (arr_rep 32 x01) (arr_rep 32 x02) 8000 1 (live_new Full (arr_rep 32 x07))).1.
Definition ex_live_signal (b : byte) : live_signal :=
  mk_live_signal (arr_rep 32 b) (arr_rep 32 x07) [] 1 (evaluate 1 16).

Lemma ex_live_run : rtc live_step (live_new Full (arr_rep 32 x07)) ex_live.
Proof. apply rtc_once, live_step_link. Qed.


Lemma rewards_credited_once_witness :
  exists n r, close_and_settle_epoch ex_live = Some (n, r) /\ rewards_wf n.
Proof.
  assert (match close_and_settle_epoch ex_live with Some _ => true | _ => false end = true) as Hs by by_vm.
  destruct (close_and_settle_epoch ex_live) as [[n r]|] eqn:E; [|discriminate Hs].
  exists n, r. split; [reflexivity|].
  apply (rewards_credited_once Full (arr_rep 32 x07) ex_live n ex_live_run).
  apply (live_step_close ex_live n r); [clear; by vm_compute | exact E].
Defined.

