(* ===== verification/Swarm.v ===== *)
(** * Swarm: live nodes that close epochs and accept each other's certificates (src/live.rs)

    Several nodes run the methods of [Live]: any of them closes its epoch,
    settling a receipt, and any accepts certificates that carry a receipt
    settled so far, in any order, repeatedly or never.  The theorem bounds what
    the whole swarm mints by the budgets of the receipts. *)

From S2P Require Import Prelude Order Bytes Externals Goldilocks Instances Settlement Tickets Seals Marginal.
From S2P Require Import Vdf Beacon Rewards Partition Epoch Tip EpochCert Live.
From stdpp Require Import relations.

(** ** Sums *)

Lemma sum_N_app l1 l2 : sum_N (l1 ++ l2) = (sum_N l1 + sum_N l2)%N.
Proof. induction l1 as [|x l1 IH]; [done|]. change (x + sum_N (l1 ++ l2) = x + sum_N l1 + sum_N l2)%N. rewrite IH. lia. Qed.
Lemma sum_N_perm l1 l2 : l1 ≡ₚ l2 -> sum_N l1 = sum_N l2.
Proof. unfold sum_N. induction 1; simpl; lia. Qed.
Lemma sum_N_submseteq l1 l2 : l1 ⊆+ l2 -> (sum_N l1 <= sum_N l2)%N.
Proof. intros [k Hk]%submseteq_Permutation. rewrite (sum_N_perm _ _ Hk), sum_N_app. lia. Qed.
Lemma sum_N_le {A} (f g : A -> N) l : (forall x, x ∈ l -> f x <= g x)%N -> (sum_N (map f l) <= sum_N (map g l))%N.
Proof.
  induction l as [|x l IH]; intros H; [done|]. change (f x + sum_N (map f l) <= g x + sum_N (map g l))%N.
  pose proof (H x ltac:(left)). specialize (IH (fun y Hy => H y ltac:(by right))). lia.
Qed.
Lemma sum_N_ext {A} (f g : A -> N) l : (forall x, x ∈ l -> f x = g x) -> sum_N (map f l) = sum_N (map g l).
Proof. intros H. f_equal. apply map_ext_in. intros x Hx. apply H. by apply list_elem_of_In. Qed.
Lemma sum_N_add {A} (f g : A -> N) l : sum_N (map (fun x => f x + g x)%N l) = (sum_N (map f l) + sum_N (map g l))%N.
Proof. unfold sum_N. induction l as [|x l IH]; simpl; lia. Qed.
Lemma sum_N_member {A} (f : A -> N) x l : x ∈ l -> (f x <= sum_N (map f l))%N.
Proof. unfold sum_N. induction 1; simpl; lia. Qed.
(** Adding rows first or columns first. *)
Lemma sum_N_swap {A B} (f : A -> B -> N) (l : list A) (m : list B) :
  sum_N (map (fun x => sum_N (map (f x) m)) l) = sum_N (map (fun y => sum_N (map (fun x => f x y) l)) m).
Proof.
  induction l as [|x l IH]; cbn [map].
  - symmetry. induction m as [|y m IHm]; [done|]. exact IHm.
  - change (sum_N (map (f x) m) + sum_N (map (fun x => sum_N (map (f x) m)) l) =
      sum_N (map (fun y => f x y + sum_N (map (fun x => f x y) l))%N m))%N. by rewrite IH, sum_N_add.
Qed.
Lemma sum_N_zero {A} (f : A -> N) l : (forall x, x ∈ l -> f x = 0%N) -> sum_N (map f l) = 0%N.
Proof. intros H. rewrite (sum_N_ext f (fun _ => 0%N)) by done. clear H. induction l; [done|exact IHl]. Qed.

Lemma submseteq_cons_new {A} (x : A) l rs : x ∉ l -> x ∈ rs -> l ⊆+ rs -> x :: l ⊆+ rs.
Proof.
  intros Hx Hr [k Hk]%submseteq_Permutation. rewrite Hk in Hr |- *. apply elem_of_app in Hr as [?|Hr]; [done|].
  apply elem_of_Permutation in Hr as [k' ->]. rewrite <-Permutation_middle. apply submseteq_skip, submseteq_inserts_r. done.
Qed.

Section swarm.
Context {HM : Hemera} {NB : Nebu} {FX : Fixed} {TR : Tru} {ZH : Zheng} {TK : Tok} {PH : Phi}.

(** ** The shares of a receipt *)

Definition row_share (rows : list settled_share) (k : particle) : N :=
  from_option sh_amount 0%N (List.find (fun s => bool_decide (sh_neuron s = k)) rows).

Lemma row_share_cons s rows k : row_share (s :: rows) k = if decide (sh_neuron s = k) then sh_amount s else row_share rows k.
Proof. unfold row_share. cbn [List.find]. by destruct (decide (sh_neuron s = k)); [rewrite bool_decide_eq_true_2|rewrite bool_decide_eq_false_2]. Qed.

(** Only one of the neurons is the row's own. *)
Lemma row_taken s (f : particle -> N) keys : NoDup keys ->
  (sum_N (map (fun k => if decide (sh_neuron s = k) then sh_amount s else f k) keys)
    <= sh_amount s + sum_N (map f keys))%N /\
  (sh_neuron s ∈ keys -> f (sh_neuron s) = 0%N ->
   sum_N (map (fun k => if decide (sh_neuron s = k) then sh_amount s else f k) keys) = sh_amount s + sum_N (map f keys))%N.
Proof.
  induction 1 as [|k keys Hk Hn [IH1 IH2]]; [split; [simpl; lia|by intros ?%elem_of_nil]|].
  set (g := fun k => if decide (sh_neuron s = k) then sh_amount s else f k) in *.
  change (sum_N (map g (k :: keys))) with (g k + sum_N (map g keys))%N.
  change (sum_N (map f (k :: keys))) with (f k + sum_N (map f keys))%N. unfold g at 1 3.
  destruct (decide (sh_neuron s = k)) as [<-|Hne].
  - assert (sum_N (map g keys) = sum_N (map f keys)) as ->.
    { apply sum_N_ext. intros x Hx. unfold g. by rewrite decide_False by (intros E; apply Hk; by rewrite E). }
    split; [lia|]. intros _ ->. lia.
  - split; [lia|]. intros [E|Hin]%elem_of_cons Hf; [by destruct Hne|]. rewrite IH2 by done. lia.
Qed.

(** Different neurons together take at most what the rows pay, and all of it
    if every row is some neuron's only one. *)
Lemma rows_taken rows keys : NoDup keys ->
  (sum_N (map (row_share rows) keys) <= sum_N (map sh_amount rows))%N /\
  (NoDup (map sh_neuron rows) -> (forall s, s ∈ rows -> sh_neuron s ∈ keys) ->
   sum_N (map (row_share rows) keys) = sum_N (map sh_amount rows)).
Proof.
  intros Hk. induction rows as [|s rows [IH1 IH2]].
  { rewrite (sum_N_zero (row_share [])) by done. by split. }
  rewrite (sum_N_ext _ _ keys (fun k _ => row_share_cons s rows k)). destruct (row_taken s (row_share rows) keys Hk) as [H1 H2].
  change (sum_N (map sh_amount (s :: rows))) with (sh_amount s + sum_N (map sh_amount rows))%N. split; [lia|].
  intros [Hs Hn]%NoDup_cons Hin. rewrite H2; [|by apply Hin; left|].
  - rewrite IH2; [done|done|]. intros x Hx. apply Hin. by right.
  - unfold row_share. destruct (List.find _ rows) as [x|] eqn:E; [|done]. apply find_some in E as [Hx E%bool_decide_eq_true].
    exfalso. apply Hs. rewrite <-E. apply list_elem_of_fmap_2. by apply list_elem_of_In.
Qed.
End swarm.

(** ** Steps *)

Section swarm_runs.
Context {HM : Hemera} {NB : Nebu} {FX : Fixed} {TR : Tru} {ZH : Zheng} {TK : Tok} {PH : Phi}.
Context {FA : FxAddLaws} {NL : NebuLaws} {FR : FxRawLaws} {TL : TruLaws} {ZL : ZhengLaws}.

(** The nodes, and every receipt that closing an epoch settled on. *)
Record swarm := mk_swarm { sw_nodes : list live_node; sw_receipts : list settle_receipt }.

(** A certificate may be altered on its way, but for the receipt it carries. *)
Definition circulates (rs : list settle_receipt) (cert : epoch_certificate) : Prop := forall rec, ec_settle cert = Some rec -> rec ∈ rs.

Inductive swarm_step : swarm -> swarm -> Prop :=
| swarm_close ns rs i n n' r : ns !! i = Some n -> few_peers n -> close_and_settle_epoch n = Some (n', r) ->
    swarm_step (mk_swarm ns rs) (mk_swarm (<[i := n']> ns) (rs ++ option_list (settled_on n)))
| swarm_accept ns rs i n cert claims : ns !! i = Some n -> circulates rs cert ->
    swarm_step (mk_swarm ns rs) (mk_swarm (<[i := (accept_epoch_cert cert claims n).1]> ns) rs)
(** Any other call: one that credits nothing. *)
| swarm_call ns rs i n n' : ns !! i = Some n -> live_step n n' -> lv_credited_receipts n' = lv_credited_receipts n ->
    swarm_step (mk_swarm ns rs) (mk_swarm (<[i := n']> ns) rs).

Definition swarm_start (start : list (node_mode * particle)) : swarm := mk_swarm (map (fun p => live_new p.1 p.2) start) [].

(** ** What a node has been credited *)

Definition earned (n : live_node) (l : list settle_receipt) : N := sum_N (map (fun rec => share_of rec (lv_neuron n)) l).

(** The credited receipts are some of [rs], with different hashes, and the
    node's rewards are its shares of them. *)
Definition credits (rs : list settle_receipt) (n : live_node) : Prop :=
  exists l, l ⊆+ rs /\ NoDup (map sr_receipt_hash l) /\ lv_credited_receipts n = list_to_set (map sr_receipt_hash l) /\
    reward_value n = N.min u64_max (earned n l).

Lemma credits_more rs rs' n : rs ⊆+ rs' -> credits rs n -> credits rs' n.
Proof. intros Hs (l & Hl & H). exists l. split; [by transitivity rs|done]. Qed.

Lemma credits_paid rs (may : settle_receipt -> Prop) n n' :
  (forall rec, may rec -> rec ∈ rs) -> credits rs n -> paid_by may n n' -> credits rs n'.
Proof.
  intros Hmay (l & Hl & Hn & Hc & Hv) [Hk [[Ec Ev]|(rec & Hm & Hnew & Ec & Ev)]].
  - exists l. unfold earned. rewrite Ec, Ev, Hk. done.
  - assert (sr_receipt_hash rec ∉ map sr_receipt_hash l) as Hnl.
    { intros H. apply Hnew. rewrite Hc. by apply elem_of_list_to_set. }
    exists (rec :: l). split; [|split; [by constructor|split]].
    + apply submseteq_cons_new; [|by apply Hmay|done]. intros Hin. apply Hnl. by apply list_elem_of_fmap_2.
    + rewrite Ec, Hc. done.
    + rewrite Ev, Hv. unfold earned. rewrite Hk. cbn [map]. unfold sat_add64, sum_N. cbn [foldr]. lia.
Qed.

Record swarm_ok (keys : list particle) (s : swarm) : Prop := mk_swarm_ok {
  so_keys : map lv_neuron (sw_nodes s) = keys;
  so_nodes : Forall (fun n => live_ok n /\ credits (sw_receipts s) n) (sw_nodes s);
  so_receipts : Forall (fun rec => sum_N (map sh_amount (sr_shares rec)) = sr_budget rec) (sw_receipts s)
}.

(** A certificate that closing issues carries the receipt it settled on. *)
Lemma close_carries n n' cert : close_and_settle_epoch n = Some (n', Ok cert) -> ec_settle cert = settled_on n.
Proof.
  unfold close_and_settle_epoch, settled_on. destruct (prepare_epoch n) as [n1 [[]|e]]; [|done].
  destruct (settle_live n1) as [[r [rec|[|e]]]|]; [|done..]. cbn [mbind option_bind fst snd].
  unfold conclude_epoch. destruct (negb _); [done|]. destruct (ep_beacon _); [|done].
  destruct (verify_epoch_cert _ _) as [[]|]; [|done..]. intros E. apply (inj Some), pair_equal_spec in E as [_ E].
  injection E as <-. done.
Qed.

(** One node moves by receipts that are in circulation. *)
Lemma swarm_update keys ns rs rs' i n n' (may : settle_receipt -> Prop) :
  swarm_ok keys (mk_swarm ns rs) -> ns !! i = Some n -> rs ⊆+ rs' ->
  Forall (fun rec => sum_N (map sh_amount (sr_shares rec)) = sr_budget rec) rs' -> (forall rec, may rec -> rec ∈ rs') ->
  live_ok n' -> paid_by may n n' -> swarm_ok keys (mk_swarm (<[i := n']> ns) rs').
Proof.
  intros [Hk Hn _] Hi Hsub Hr Hmay Hok Hpay. cbn [sw_nodes sw_receipts] in *.
  pose proof (Forall_lookup_1 _ _ _ _ Hn Hi) as [_ Hcr]. split; cbn [sw_nodes sw_receipts]; [| |done].
  - rewrite <-Hk. apply list_eq. intros j. rewrite !list_lookup_fmap. destruct (decide (i = j)) as [<-|Hne].
    + rewrite list_lookup_insert_eq by (by eapply lookup_lt_Some). rewrite Hi. cbn. f_equal. by destruct Hpay.
    + by rewrite list_lookup_insert_ne.
  - apply Forall_insert; [|split; [done|]].
    + eapply Forall_impl; [exact Hn|]. intros m [? ?]. split; [done|]. by apply (credits_more rs).
    + apply (credits_paid rs' may n); [done|by apply (credits_more rs)|done].
Qed.

Lemma swarm_step_ok keys s s' : swarm_ok keys s -> swarm_step s s' -> swarm_ok keys s'.
Proof.
  intros Hs Hstep. destruct Hstep as [ns rs i n n' r Hi Hp E|ns rs i n cert claims Hi Hc|ns rs i n n' Hi Hl Hc];
    pose proof Hs as [_ Hn Hr]; cbn [sw_nodes sw_receipts] in *; pose proof (Forall_lookup_1 _ _ _ _ Hn Hi) as [Hok _].
  - destruct (close_spec n Hok Hp) as (n1 & r1 & E1 & Hok1 & Hpay & _). rewrite E in E1. injection E1 as <- _.
    apply (swarm_update keys ns rs _ i n n' (settles n)); [done|done|by apply submseteq_inserts_r| | |done|done].
    + apply Forall_app. split; [done|]. destruct (settled_on n) as [rec|] eqn:Es; [|constructor].
      apply Forall_singleton. by apply (settled_pays n).
    + intros rec [_ ->]. apply elem_of_app. right. left.
  - destruct (accept_spec cert claims n Hok) as (Hok1 & Hpay & _).
    apply (swarm_update keys ns rs rs i n _ (carried cert)); [done..| |done|done]. intros rec [_ E]. by apply Hc.
  - destruct (live_step_spec n n' Hok Hl) as [Hok1 [Hk Hpay]].
    apply (swarm_update keys ns rs rs i n n' (fun _ => False)); [done..|]. split; [done|left].
    destruct Hpay as [?|(rec & _ & Hnew & E & _)]; [done|]. exfalso. apply Hnew. rewrite <-Hc, E. set_solver.
Qed.

Lemma swarm_reachable start s : rtc swarm_step (swarm_start start) s -> swarm_ok (map snd start) s.
Proof.
  assert (swarm_ok (map snd start) (swarm_start start)) as H0.
  { split; cbn [swarm_start sw_nodes sw_receipts]; [|apply Forall_map, Forall_forall|constructor].
    - rewrite map_map. apply map_ext. by intros [[] k].
    - intros [mode k] _. split; [apply new_ok|]. exists []. split; [done|]. split; [constructor|].
      by destruct mode. }
  intros H. revert H0. induction H as [x|x y z Hxy _ IH]; [done|]. intros Hx. apply IH. by eapply swarm_step_ok.
Qed.

(** The nodes' shares of receipts add up to at most their budgets. *)
Lemma earned_bound keys rs : NoDup keys -> Forall (fun rec => sum_N (map sh_amount (sr_shares rec)) = sr_budget rec) rs ->
  (sum_N (map (fun rec => sum_N (map (share_of rec) keys)) rs) <= sum_N (map sr_budget rs))%N.
Proof.
  intros Hk Hr. apply sum_N_le. intros rec Hin. rewrite <-(proj1 (Forall_forall _ _) Hr rec Hin).
  by apply (rows_taken (sr_shares rec) keys).
Qed.
Lemma earned_all keys rs : NoDup keys -> Forall (fun rec => sum_N (map sh_amount (sr_shares rec)) = sr_budget rec) rs ->
  (forall rec, rec ∈ rs -> NoDup (map sh_neuron (sr_shares rec)) /\ forall s, s ∈ sr_shares rec -> sh_neuron s ∈ keys) ->
  sum_N (map (fun rec => sum_N (map (share_of rec) keys)) rs) = sum_N (map sr_budget rs).
Proof.
  intros Hk Hr Hall. apply sum_N_ext. intros rec Hin. rewrite <-(proj1 (Forall_forall _ _) Hr rec Hin).
  destruct (Hall rec Hin). by apply (rows_taken (sr_shares rec) keys).
Qed.

(** A node that was credited all receipts earned its share of each. *)
Lemma credits_all rs n : credits rs n -> NoDup (map sr_receipt_hash rs) ->
  (forall rec, rec ∈ rs -> sr_receipt_hash rec ∈ lv_credited_receipts n) -> reward_value n = N.min u64_max (earned n rs).
Proof.
  intros (l & Hl & Hdl & Hc & ->) Hd Hall. assert (l ≡ₚ rs) as Hp.
  { apply NoDup_Permutation; [by apply NoDup_fmap_1 in Hdl|by apply NoDup_fmap_1 in Hd|]. intros rec.
    split; [by intros Hin; eapply elem_of_submseteq|]. intros Hin. pose proof (Hall rec Hin) as Hh. rewrite Hc in Hh.
    apply elem_of_list_to_set, list_elem_of_fmap in Hh as (rec' & E & Hin').
    assert (rec' = rec) as <-; [|done]. assert (rec' ∈ rs) as Hin2 by (by eapply elem_of_submseteq).
    apply list_elem_of_lookup in Hin as [x Hx], Hin2 as [y Hy]. rewrite NoDup_alt in Hd.
    assert (x = y) as ->; [|congruence].
    apply (Hd x y (sr_receipt_hash rec)); rewrite list_lookup_fmap, ?Hx, ?Hy; [done|]. cbn. by rewrite E. }
  f_equal. unfold earned. by apply sum_N_perm, Permutation_map.
Qed.

End swarm_runs.

(** ** Witness *)

Section witness.
Context {HM : Hemera} {NB : Nebu} {FX : Fixed} {TR : Tru} {ZH : Zheng} {TK : Tok} {PH : Phi}.
Definition closed (n : live_node) : live_node * option epoch_certificate :=
  match close_and_settle_epoch n with Some (n', Ok cert) => (n', Some cert) | _ => (n, None) end.
Definition accepts (cert : option epoch_certificate) (n : live_node) : live_node :=
  match cert with Some cert => (accept_epoch_cert cert None n).1 | None => n end.
End witness.

(** A full node with a signal of its own closes its epoch, and a light node of
    another neuron accepts the certificate twice. *)
Definition ex_swarm : list (node_mode * particle) := [(Full, arr_rep 32 x07); (Light, arr_rep 32 x08)].
Definition ex_closed : live_node * option epoch_certificate := closed ex_live.
Definition ex_accepts (n : live_node) : live_node := accepts ex_closed.2 n.
Definition ex_swarm_nodes : list live_node := [ex_closed.1; ex_accepts (ex_accepts (live_new Light (arr_rep 32 x08)))].
Definition ex_swarm_end : swarm := mk_swarm ex_swarm_nodes (option_list (settled_on ex_live)).

(** One node moves and closes, the other accepts the certificate twice. *)
Lemma close_and_accept {HM : Hemera} {NB : Nebu} {FX : Fixed} {TR : Tru} {ZH : Zheng} {TK : Tok} {PH : Phi} n0 n1 n light cert :
  live_step n0 n1 -> lv_credited_receipts n1 = lv_credited_receipts n0 -> few_peers n1 ->
  close_and_settle_epoch n1 = Some (n, Ok cert) ->
  rtc swarm_step (mk_swarm [n0; light] [])
    (mk_swarm [n; (accept_epoch_cert cert None (accept_epoch_cert cert None light).1).1] (option_list (settled_on n1))).
Proof.
  intros Hl Hc Hp E. assert (circulates (option_list (settled_on n1)) cert) as Hci.
  { intros rec Hrec. rewrite (close_carries _ _ _ E) in Hrec. rewrite Hrec. left. }
  eapply rtc_l; [by apply (swarm_call [n0; light] [] 0 n0 n1)|].
  eapply rtc_l; [by apply (swarm_close [n1; light] [] 0 n1 n (Ok cert))|].
  eapply rtc_l; [by apply (swarm_accept [n; light] _ 1 light cert None)|].
  apply rtc_once. by apply (swarm_accept [n; (accept_epoch_cert cert None light).1] _ 1 _ cert None).
Qed.

Lemma ex_swarm_run : rtc swarm_step (swarm_start ex_swarm) ex_swarm_end.
Proof.
  assert (match close_and_settle_epoch ex_live with Some (_, Ok _) => true | _ => false end = true) as Hs by by_vm.
  assert (bool_decide (lv_credited_receipts ex_live = lv_credited_receipts (live_new Full (arr_rep 32 x07))) = true) as Hc%bool_decide_eq_true by by_vm.
  assert (few_peers ex_live) as Hp by by vm_compute.
  unfold ex_swarm_end, ex_swarm_nodes, ex_accepts, ex_closed, accepts, closed.
  destruct (close_and_settle_epoch ex_live) as [[n [cert|]]|] eqn:E; [|discriminate Hs..].
  exact (close_and_accept (live_new Full (arr_rep 32 x07)) ex_live n (live_new Light (arr_rep 32 x08)) cert
    (live_step_link _ _ _ _ _) Hc Hp E).
Qed.


(** A neuron with two claims in an epoch has two rows in the receipt and is
    credited the first only: the rest of the budget is nobody's. *)
Definition ex_two_links : live_node := (live_link (arr_rep 32 x02) (arr_rep 32 x01) 5000 1 ex_live).1.
Lemma second_row_uncredited :
  forallb (fun rec => forallb (fun row => bool_decide (sh_neuron row = lv_neuron ex_two_links)) (sr_shares rec) &&
    (reward_value (closed ex_two_links).1 <? sr_budget rec)%N) (option_list (settled_on ex_two_links)) &&
  bool_decide (is_Some (settled_on ex_two_links)) = true.
Proof. by_vm. Qed.
