(* ===== verification/Pay.v ===== *)
(** * Pay: pay proofs (src/pay_proof.rs)

    A pay proof folds one step over content id, total and leg count and is
    decided under a statement of the same data; the verifier re-derives the
    whole and compares. *)

From S2P Require Import Prelude Order Bytes Externals Goldilocks Instances Settlement Tickets Seals.

Section pay.
Context {HM : Hemera} {NB : Nebu} {FX : Fixed} {TR : Tru} {ZH : Zheng}.

Definition PAY_PROGRAM : particle :=
  default zero32 (list_to_arr 32 (str_bytes "foculus-pay-proof-v0..........." ++ [x00])).

Record pay_statement := mk_pay { ps_content_id : particle; ps_total_out : N; ps_leg_count : N }.

Definition material (s : pay_statement) : list byte :=
  arr_bytes (ps_content_id s) ++ u64_le (ps_total_out s) ++ u32_le (ps_leg_count s).

Definition to_zheng (s : pay_statement) : statement :=
  {| st_program_hash := PAY_PROGRAM;
     st_input_hash := hemera_hash (material s);
     st_output_hash := ps_content_id s;
     st_focus_bound := ps_total_out s;
     st_bbg_root := zero32 |}.

Inductive pay_proof_error := FoldFailed | DecideFailed | VerifyFailed | Empty.

Definition pay_acc (s : pay_statement) : result pay_proof_error accumulator :=
  if (ps_leg_count s =? 0)%N then Err Empty
  else
    let '(acc, _, ok) := zfold blank_acc (add_step (material s)) transcript_new in
    if ok : bool then Ok acc else Err FoldFailed.

Definition prove_pay (s : pay_statement) : result pay_proof_error zproof :=
  acc ← pay_acc s; ok_or DecideFailed (zdecide acc (to_zheng s)).

Definition verify_pay (proof : zproof) (s : pay_statement) : bool :=
  match pay_acc s with
  | Err _ => false
  | Ok acc =>
      match zdecide acc (to_zheng s) with
      | None => false
      | Some expected =>
          bool_decide (proof_commitment proof = proof_commitment expected)
          && bool_decide (proof_eval_value proof = proof_eval_value expected)
          && verify_group acc proof (to_zheng s)
      end
  end.

Definition nullifier_bytes (nullifiers : list particle) : list byte :=
  u64_le (as_u64 (N.of_nat (length nullifiers))) ++ concat (map arr_bytes nullifiers).
Definition nullifier_set_hash (nullifiers : list particle) : particle := hemera_hash (nullifier_bytes nullifiers).

Definition pay_wf (s : pay_statement) : Prop := is_u64 (ps_total_out s) /\ is_u32 (ps_leg_count s).

Lemma u32_le_inj v w : is_u32 v -> is_u32 w -> u32_le v = u32_le w -> v = w.
Proof. intros Hv Hw E. by rewrite <-(u32_le_num v), <-(u32_le_num w), E. Qed.

Lemma material_inj s1 s2 : pay_wf s1 -> pay_wf s2 -> material s1 = material s2 -> s1 = s2.
Proof.
  destruct s1, s2. unfold pay_wf, material. simpl. intros [H1 H2] [H3 H4] E. split_bytes E.
  apply u32_le_inj in E; [|done..]. apply (inj arr_bytes) in E0. apply u64_le_inj in E1; [|done..]. congruence.
Qed.

Lemma nullifier_bytes_inj l1 l2 :
  is_u64 (N.of_nat (length l1)) -> is_u64 (N.of_nat (length l2)) ->
  nullifier_bytes l1 = nullifier_bytes l2 -> l1 = l2.
Proof.
  unfold nullifier_bytes. intros H1 H2 E. rewrite !as_u64_id in E by done.
  apply app_inj_1 in E as [E1 E]; [|by rewrite !u64_le_length]. apply u64_le_inj in E1; [|done..].
  rewrite <-(app_nil_r (concat (map arr_bytes l1))), <-(app_nil_r (concat (map arr_bytes l2))) in E.
  apply (concat_fixed_inj arr_bytes 32) in E as [E _]; [|intros a; apply arr_length|lia].
  clear -E. induction E as [|a b l1 l2 Ea _ IH]; [done|]. f_equal; [by apply arr_eq|done].
Qed.

Context {ZL : ZhengLaws}.

Lemma pay_acc_counts s acc : pay_acc s = Ok acc -> step_count acc = 1%N.
Proof.
  unfold pay_acc. destruct (_ =? 0)%N; [done|]. destruct (zfold _ _ _) as [[a t] ok] eqn:E. destruct ok; [|done].
  intros [= <-]. apply step_count_fold in E. rewrite E, step_count_blank. done.
Qed.

Lemma prove_pay_Ok s p :
  prove_pay s = Ok p <-> exists acc, pay_acc s = Ok acc /\ zdecide acc (to_zheng s) = Some p.
Proof.
  unfold prove_pay. destruct (pay_acc s) as [acc|e]; simpl; [|by split; [|intros (? & [=] & _)]].
  destruct (zdecide acc (to_zheng s)) as [q|] eqn:E; simpl; split.
  - intros [= <-]. eauto.
  - intros (? & [= <-] & E'). congruence.
  - done.
  - intros (? & [= <-] & E'). congruence.
Qed.

Lemma verify_pay_spec p s :
  verify_pay p s = true <->
  exists acc expected, pay_acc s = Ok acc /\ zdecide acc (to_zheng s) = Some expected /\
    proof_commitment p = proof_commitment expected /\ proof_eval_value p = proof_eval_value expected /\
    zverify acc p (to_zheng s) = true.
Proof.
  unfold verify_pay. destruct (pay_acc s) as [acc|e] eqn:Ea; [|split; [done|]; by intros (? & ? & [=] & _)].
  assert (verify_group acc p (to_zheng s) = zverify acc p (to_zheng s)) as Ev.
  { unfold verify_group. by rewrite (pay_acc_counts s acc Ea). }
  destruct (zdecide acc (to_zheng s)) as [ex|] eqn:Ed.
  - rewrite !andb_true_iff, !bool_decide_eq_true, Ev. split.
    + intros [[? ?] ?]. exists acc, ex. by split_and!.
    + intros (? & ? & [= <-] & E & ? & ? & ?). rewrite Ed in E. injection E as <-. by split_and!.
  - split; [done|]. intros (? & ? & [= <-] & E & _). congruence.
Qed.
End pay.

(** ** Properties *)

Section pay_properties.
Context {HM : Hemera} {NB : Nebu} {FX : Fixed} {TR : Tru} {ZH : Zheng} {ZL : ZhengLaws}.

(** Pay proofs are accepted for their payment alone: a proof that proving
    returns verifies; a proof verifies exactly when zheng accepts it for the
    statement's own accumulator and it shows the commitment and value of the
    one proof an honest prover emits; nothing verifies without legs; and two
    payments with the same zheng statement are the same payment, and two
    nullifier lists with one hash the same list, unless the hash collides. *)
Lemma pay_proof_sound (s s' : pay_statement) (l l' : list particle) :
  pay_wf s -> pay_wf s' -> is_u64 (N.of_nat (length l)) -> is_u64 (N.of_nat (length l')) ->
  (forall p, prove_pay s = Ok p -> verify_pay p s = true) /\
  (forall p, verify_pay p s = true <-> exists acc expected, prove_pay s = Ok expected /\ pay_acc s = Ok acc /\
     proof_commitment p = proof_commitment expected /\ proof_eval_value p = proof_eval_value expected /\
     zverify acc p (to_zheng s) = true) /\
  (ps_leg_count s = 0%N -> prove_pay s = Err Empty /\ forall p, verify_pay p s = false) /\
  (to_zheng s = to_zheng s' -> s = s' \/ exists x y, collides x y) /\
  (nullifier_set_hash l = nullifier_set_hash l' -> l = l' \/ exists x y, collides x y).
Proof.
  intros Hs Hs' Hl Hl'. split; [|split; [|split; [|split]]].
  - intros p (acc & Ha & Hd)%prove_pay_Ok. apply verify_pay_spec. exists acc, p. split_and!; try done.
    by apply zdecide_verifies.
  - intros p. rewrite verify_pay_spec. split.
    + intros (acc & ex & Ha & Hd & ? & ? & ?). exists acc, ex. split_and!; try done. apply prove_pay_Ok. eauto.
    + intros (acc & ex & (acc' & Ha' & Hd)%prove_pay_Ok & Ha & ? & ? & ?). exists acc, ex.
      rewrite Ha in Ha'. injection Ha' as <-. by split_and!.
  - intros H0. unfold prove_pay, verify_pay, pay_acc. by rewrite H0.
  - intros E. unfold to_zheng in E. injection E as E1 E2 E3.
    destruct (decide (material s = material s')) as [Em|Nm]; [left; by apply material_inj|right; eexists _, _; by split].
  - intros E. destruct (decide (nullifier_bytes l = nullifier_bytes l')) as [Em|Nm];
      [left; by apply nullifier_bytes_inj|right; eexists _, _; by split].
Qed.
End pay_properties.

(** ** Witnesses *)

Definition ex_pay : pay_statement := mk_pay (arr_rep 32 x03) 700 2.

Lemma pay_proof_sound_witness : exists p, prove_pay ex_pay = Ok p /\ verify_pay p ex_pay = true.
Proof.
  destruct (pay_proof_sound ex_pay ex_pay [] []) as (Hv & _); [split; by vm_compute..|by vm_compute|by vm_compute|].
  assert (is_ok (prove_pay ex_pay) = true) as Hok by by_vm.
  destruct (prove_pay ex_pay) as [p|e] eqn:E; [|discriminate Hok]. exists p. split; [reflexivity|]. by apply Hv.
Defined.
