(* ===== verification/Finality.v ===== *)
(** * Finality: domain-local finality and its evidence (src/finality.rs, src/finality_evidence.rs)

    A [domain] is the ε-support of a focus vector; [finalizes] is the adaptive
    threshold and the certification gate.  [finality_evidence] binds a signal
    to a tip of a book by a digest. *)

From S2P Require Import Prelude Order Bytes Externals Goldilocks Instances Settlement Tickets Seals Tip Pay.

Section finality.
Context {HM : Hemera} {NB : Nebu} {FX : Fixed} {TR : Tru} {ZH : Zheng}.

Record domain := mk_domain { dm_particles : list particle; dm_focus : list fx }.

(** The loop of [epsilon_support] from position [i]; an index past the focus
    vector is a panic. *)
Fixpoint support_loop (focus : list fx) (epsilon : fx) (i : nat) (node_ids : list particle)
    : outcome (list particle * list fx) :=
  match node_ids with
  | [] => Done ([], [])
  | id :: rest =>
      match focus !! i with
      | None => Panic
      | Some f =>
          '(ps, fs) ← support_loop focus epsilon (S i) rest;
          if fx_leb epsilon f then Done (id :: ps, f :: fs) else Done (ps, fs)
      end
  end.
Definition epsilon_support (focus : list fx) (node_ids : list particle) (epsilon : fx) : outcome domain :=
  '(ps, fs) ← support_loop focus epsilon 0 node_ids; Done (mk_domain ps fs).

Definition from_focus (particles : list particle) (focus : list fx) : outcome domain :=
  if bool_decide (length particles = length focus) then Done (mk_domain particles focus) else Panic.

Definition dm_len (d : domain) : nat := length (dm_particles d).
Definition dm_is_empty (d : domain) : bool := bool_decide (dm_particles d = []).

(** [focus.len() as i64]. *)
Definition focus_count (d : domain) : fx := fx_from_int (Z.of_nat (length (dm_focus d))).

Definition mean (d : domain) : fx :=
  match dm_focus d with
  | [] => fx_zero
  | _ => fx_div (fold_left fx_add (dm_focus d) fx_zero) (focus_count d)
  end.

Definition variance (d : domain) : fx :=
  match dm_focus d with
  | [] => fx_zero
  | _ =>
      let mu := mean d in
      let mean_sq := fx_div (fold_left (fun sq f => fx_add sq (fx_mul f f)) (dm_focus d) fx_zero) (focus_count d) in
      let mu_sq := fx_mul mu mu in
      if fx_leb mu_sq mean_sq then fx_sub mean_sq mu_sq else fx_zero
  end.

(** [iter().position(..)]. *)
Fixpoint position (p : particle) (l : list particle) : option nat :=
  match l with
  | [] => None
  | q :: l => if bool_decide (q = p) then Some 0 else S <$> position p l
  end.
Definition focus_of (d : domain) (p : particle) : outcome (option fx) :=
  match position p (dm_particles d) with
  | None => Done None
  | Some i => match dm_focus d !! i with Some f => Done (Some f) | None => Panic end
  end.

Definition crosses_threshold (phi_i : fx) (d : domain) (kappa_prime : fx) : bool :=
  let mu := mean d in
  if fx_leb phi_i mu then false
  else
    let excess := fx_sub phi_i mu in
    let lhs := fx_mul excess excess in
    let rhs := fx_mul (fx_mul kappa_prime kappa_prime) (variance d) in
    fx_ltb rhs lhs.

Definition certified (uncert_mass gap kappa_d c kappa_prime : fx) : bool :=
  let numer := fx_mul (fx_sub fx_one kappa_d) gap in
  let denom := fx_mul c (fx_add fx_one kappa_prime) in
  fx_ltb (fx_mul uncert_mass denom) numer.

Inductive finality := Final | Pending.
#[global] Instance finality_eq_dec : EqDecision finality.
Proof. solve_decision. Defined.

Definition finalizes (phi_i : fx) (d : domain) (uncert_mass gap kappa_d c kappa_prime : fx) : finality :=
  if crosses_threshold phi_i d kappa_prime && certified uncert_mass gap kappa_d c kappa_prime
  then Final else Pending.

(** ** Evidence *)

Definition DOMAIN_LOCAL : list byte := str_bytes "foculus-finality-v1-local".
Definition DOMAIN_CERT : list byte := str_bytes "foculus-finality-v1-cert".

Inductive finality_kind := LocalApplied | Certified.
#[global] Instance finality_kind_eq_dec : EqDecision finality_kind.
Proof. solve_decision. Defined.

Record finality_evidence := mk_evidence {
  fe_book_id : particle;
  fe_signal_id : particle;
  fe_height : N;
  fe_root : particle;
  fe_nullifier_hash : particle;
  fe_kind : finality_kind;
  fe_binding : particle
}.

Definition bind_bytes (dom : list byte) (book_id signal_id : particle) (height : N) (root nullifier_hash : particle)
    (g4 : bool) : list byte :=
  dom ++ arr_bytes book_id ++ arr_bytes signal_id ++ u64_le height ++ arr_bytes root ++ arr_bytes nullifier_hash
    ++ [if g4 then x01 else x00].
Definition bind (dom : list byte) (book_id signal_id : particle) (height : N) (root nullifier_hash : particle)
    (g4 : bool) : particle :=
  hemera_hash (bind_bytes dom book_id signal_id height root nullifier_hash g4).

Definition kind_domain (k : finality_kind) : list byte :=
  match k with LocalApplied => DOMAIN_LOCAL | Certified => DOMAIN_CERT end.

Definition issue_local (book_id signal_id : particle) (t : tip) (nullifiers : list particle) : finality_evidence :=
  let nullifier_hash := nullifier_set_hash nullifiers in
  mk_evidence book_id signal_id (t_height t) (t_root t) nullifier_hash LocalApplied
    (bind DOMAIN_LOCAL book_id signal_id (t_height t) (t_root t) nullifier_hash (grade4 t)).

Definition issue_certified (book_id signal_id : particle) (t : tip) (nullifiers : list particle) : finality_evidence :=
  let nullifier_hash := nullifier_set_hash nullifiers in
  mk_evidence book_id signal_id (t_height t) (t_root t) nullifier_hash Certified
    (bind DOMAIN_CERT book_id signal_id (t_height t) (t_root t) nullifier_hash (grade4 t)).

Definition issue_from_domain (book_id signal_id : particle) (t : tip) (nullifiers : list particle) (phi_i : fx)
    (d : domain) (uncert_mass gap kappa_d c kappa_prime : fx) : option finality_evidence :=
  match finalizes phi_i d uncert_mass gap kappa_d c kappa_prime with
  | Final => Some (issue_certified book_id signal_id t nullifiers)
  | Pending => None
  end.

Definition verify_evidence (e : finality_evidence) (t : tip) : bool :=
  if negb (grade4 t) then false
  else if negb (t_height t =? fe_height e)%N || negb (bool_decide (t_root t = fe_root e)) then false
  else
    let expect := bind (kind_domain (fe_kind e)) (fe_book_id e) (fe_signal_id e) (fe_height e) (fe_root e)
                    (fe_nullifier_hash e) true in
    bool_decide (fe_binding e = expect).

(** ** Domains *)

Lemma domain_loop_spec focus eps i ids :
  i + length ids <= length focus ->
  support_loop focus eps i ids = Done
    (map fst (List.filter (fun q => fx_leb eps q.2) (zip ids (drop i focus))),
     map snd (List.filter (fun q => fx_leb eps q.2) (zip ids (drop i focus)))).
Proof.
  revert i. induction ids as [|id ids IH]; intros i Hl; simpl; [done|]. simpl in Hl.
  destruct (lookup_lt_is_Some_2 focus i) as [f Hf]; [lia|]. rewrite Hf, (drop_S _ _ _ Hf). simpl.
  rewrite IH by lia. simpl. by destruct (fx_leb eps f).
Qed.

Lemma support_loop_panics focus eps i ids : length focus < i + length ids -> support_loop focus eps i ids = Panic \/ ids = [].
Proof.
  revert i. induction ids as [|id ids IH]; intros i Hl; [by right|]. left. simpl in *.
  destruct (focus !! i) as [f|] eqn:Hf; [|done]. apply lookup_lt_Some in Hf.
  destruct (IH (S i)) as [->| ->]; [lia|done|simpl in Hl; lia].
Qed.

Lemma position_lt p l i : position p l = Some i -> i < length l.
Proof.
  revert i. induction l as [|q l IH]; intros i; simpl; [done|]. case_bool_decide; [intros [= <-]; lia|].
  destruct (position p l) as [j|]; simpl; [|done]. intros [= <-]. specialize (IH j eq_refl). lia.
Qed.

Lemma position_spec p l :
  match position p l with
  | Some i => l !! i = Some p /\ p ∉ take i l
  | None => p ∉ l
  end.
Proof.
  induction l as [|q l IH]; simpl; [apply not_elem_of_nil|]. case_bool_decide as Hq.
  - subst. split; [done|apply not_elem_of_nil].
  - destruct (position p l) as [i|]; simpl.
    + destruct IH as [? Hn]. split; [done|]. by intros [->|?]%elem_of_cons.
    + by intros [->|?]%elem_of_cons.
Qed.

Definition parallel (d : domain) : Prop := length (dm_particles d) = length (dm_focus d).

Lemma focus_of_parallel d p :
  parallel d ->
  focus_of d p <> Panic /\
  forall f, focus_of d p = Done (Some f) <-> exists i, position p (dm_particles d) = Some i /\ dm_focus d !! i = Some f.
Proof.
  intros Hp. unfold focus_of. destruct (position p (dm_particles d)) as [i|] eqn:Ei.
  - pose proof (position_lt _ _ _ Ei) as Hlt. rewrite Hp in Hlt.
    destruct (lookup_lt_is_Some_2 _ _ Hlt) as [f Hf]. rewrite Hf. split; [done|]. intros g. split.
    + intros [= ->]. by exists i.
    + intros (j & [= <-] & E). congruence.
  - split; [done|]. intros f. split; [done|]. by intros (j & [=] & _).
Qed.

(** ** Bindings *)

Lemma kind_domain_length k : length (kind_domain k) = match k with LocalApplied => 25 | Certified => 24 end.
Proof. by destruct k. Qed.

Lemma bind_bytes_inj k1 b1 s1 h1 r1 n1 g1 k2 b2 s2 h2 r2 n2 g2 :
  is_u64 h1 -> is_u64 h2 ->
  bind_bytes (kind_domain k1) b1 s1 h1 r1 n1 g1 = bind_bytes (kind_domain k2) b2 s2 h2 r2 n2 g2 ->
  k1 = k2 /\ b1 = b2 /\ s1 = s2 /\ h1 = h2 /\ r1 = r2 /\ n1 = n2 /\ g1 = g2.
Proof.
  intros H1 H2 E. unfold bind_bytes in E.
  assert (k1 = k2) as ->.
  { apply (f_equal length) in E. rewrite !length_app, !arr_length, !u64_le_length, !kind_domain_length in E. by destruct k1, k2. }
  apply app_inv_head in E. split_bytes E. apply (inj arr_bytes) in E0, E1, E3, E4. apply u64_le_inj in E2; [|done..].
  split_and!; try done. by destruct g1, g2.
Qed.

Lemma verify_evidence_spec e t :
  verify_evidence e t = true <->
  grade4 t = true /\ t_height t = fe_height e /\ t_root t = fe_root e /\
  fe_binding e = bind (kind_domain (fe_kind e)) (fe_book_id e) (fe_signal_id e) (fe_height e) (fe_root e)
                   (fe_nullifier_hash e) true.
Proof.
  unfold verify_evidence. destruct (grade4 t); simpl; [|split; [done|by intros [? _]]].
  destruct (N.eqb_spec (t_height t) (fe_height e)); simpl; [|split; [done|by intros (_ & ? & _)]].
  destruct (bool_decide_reflect (t_root t = fe_root e)); simpl; [|split; [done|by intros (_ & _ & ? & _)]].
  rewrite bool_decide_eq_true. split; [auto|by intros (_ & _ & _ & ?)].
Qed.
End finality.

(** ** Properties *)

Section finality_properties.
Context {HM : Hemera} {NB : Nebu} {FX : Fixed} {TR : Tru} {ZH : Zheng}.

(** Local reads decide finality and never panic on well-formed data: the
    support of a focus vector keeps exactly the particles at or above epsilon
    with their focus, in order, and panics only when a node has no focus;
    looking a particle up gives the focus of its first occurrence; a particle
    at or below the mean is pending whatever the gate, and certified evidence
    is issued exactly when threshold and gate both hold. *)
Lemma finality_gate (focus : list fx) (ids : list particle) (eps : fx) (book signal : particle) (t : tip)
    (nulls : list particle) (phi : fx) (d : domain) (uncert gap kappa c kappa' : fx) :
  (length ids <= length focus ->
   epsilon_support focus ids eps = Done
     (mk_domain (map fst (List.filter (fun q => fx_leb eps q.2) (zip ids focus)))
                (map snd (List.filter (fun q => fx_leb eps q.2) (zip ids focus))))) /\
  (length focus < length ids -> epsilon_support focus ids eps = Panic) /\
  (forall d', epsilon_support focus ids eps = Done d' -> forall p, focus_of d' p <> Panic /\
     forall f, focus_of d' p = Done (Some f) ->
       (p, f) ∈ zip ids focus /\ fx_leb eps f = true) /\
  (fx_leb phi (mean d) = true -> finalizes phi d uncert gap kappa c kappa' = Pending) /\
  (is_Some (issue_from_domain book signal t nulls phi d uncert gap kappa c kappa') <->
     crosses_threshold phi d kappa' = true /\ certified uncert gap kappa c kappa' = true).
Proof.
  assert (length ids <= length focus -> epsilon_support focus ids eps = Done
     (mk_domain (map fst (List.filter (fun q => fx_leb eps q.2) (zip ids focus)))
                (map snd (List.filter (fun q => fx_leb eps q.2) (zip ids focus))))) as Hs.
  { intros Hl. unfold epsilon_support. by rewrite domain_loop_spec, drop_0. }
  assert (length focus < length ids -> epsilon_support focus ids eps = Panic) as Hpan.
  { intros Hl. unfold epsilon_support. destruct (support_loop_panics focus eps 0 ids) as [->| ->]; [lia|done|simpl in Hl; lia]. }
  split; [done|]. split; [done|]. split; [|split].
  - intros d' E p. destruct (decide (length ids <= length focus)) as [Hl|Hl]; [|rewrite Hpan in E by lia; done].
    rewrite Hs in E by done. injection E as <-. set (sel := List.filter _ _).
    assert (parallel (mk_domain (map fst sel) (map snd sel))) as Hp by (unfold parallel; simpl; by rewrite !length_map).
    destruct (focus_of_parallel _ p Hp) as [Hnp Hf]. split; [done|]. intros f (i & Hi & Hfi)%Hf. simpl in *.
    pose proof (position_spec p (map fst sel)) as Hpos. rewrite Hi in Hpos. destruct Hpos as [Hpi _].
    apply list_lookup_fmap_Some in Hpi as (q & -> & Hq). apply list_lookup_fmap_Some in Hfi as (q' & -> & Hq').
    rewrite Hq in Hq'. injection Hq' as <-. apply list_elem_of_lookup_2, list_elem_of_In, filter_In in Hq as [Hin Hle].
    split; [|done]. apply list_elem_of_In. by destruct q.
  - intros Hle. unfold finalizes, crosses_threshold. by rewrite Hle.
  - unfold issue_from_domain, finalizes. destruct (crosses_threshold _ _ _), (certified _ _ _ _ _); simpl;
      split; try done; try (by intros [? [=]]); try (by intros []); eauto.
Qed.

(** Evidence is bound to its book and tip: evidence issued at a trusted
    tip verifies at that tip and at no tip that is untrusted or of another
    height or root; evidence issued at an untrusted tip verifies nowhere; and
    two pieces of evidence that verify with one binding have the same book,
    signal, height, root, nullifiers and kind, unless the hash collides. *)
Lemma evidence_binding (book signal : particle) (t t' : tip) (nulls : list particle) (e e' : finality_evidence) :
  is_u64 (fe_height e) -> is_u64 (fe_height e') -> is_u64 (t_height t) ->
  (forall issue, issue = issue_local \/ issue = issue_certified ->
     (grade4 t = true -> verify_evidence (issue book signal t nulls) t' = true <->
        grade4 t' = true /\ t_height t' = t_height t /\ t_root t' = t_root t) /\
     (grade4 t = false -> verify_evidence (issue book signal t nulls) t' = true -> exists x y, collides x y)) /\
  (verify_evidence e t = true -> verify_evidence e' t' = true -> fe_binding e = fe_binding e' ->
     e = e' \/ exists x y, collides x y).
Proof.
  intros He He' Ht. split.
  - intros issue Hi.
    assert (exists k, issue book signal t nulls = mk_evidence book signal (t_height t) (t_root t) (nullifier_set_hash nulls) k
      (bind (kind_domain k) book signal (t_height t) (t_root t) (nullifier_set_hash nulls) (grade4 t))) as [k ->].
    { destruct Hi as [->| ->]; [exists LocalApplied|exists Certified]; done. }
    split; intros Hg; rewrite verify_evidence_spec; simpl; rewrite Hg.
    + split; [intros (? & ? & ? & _)|intros (? & ? & ?)]; by split_and!.
    + intros (_ & _ & _ & E). unfold bind in E.
      destruct (decide (bind_bytes (kind_domain k) book signal (t_height t) (t_root t) (nullifier_set_hash nulls) false
        = bind_bytes (kind_domain k) book signal (t_height t) (t_root t) (nullifier_set_hash nulls) true)) as [Eb|Nb].
      * by apply bind_bytes_inj in Eb as (_ & _ & _ & _ & _ & _ & ?).
      * eexists _, _. by split.
  - intros (_ & _ & _ & Hb)%verify_evidence_spec (_ & _ & _ & Hb')%verify_evidence_spec E.
    pose proof E as E0. rewrite Hb, Hb' in E. unfold bind in E.
    match type of E with hemera_hash ?x = hemera_hash ?y => destruct (decide (x = y)) as [Eb|Nb] end; [|right; eexists _, _; by split].
    left. apply bind_bytes_inj in Eb as (? & ? & ? & ? & ? & ? & _); [|done..].
    destruct e, e'; simpl in *. congruence.
Qed.
End finality_properties.

(** ** Witnesses *)

Definition ex_local_tip : tip := from_local (mk_checkpoint (arr_rep 32 x01) None 7).

Lemma evidence_binding_witness :
  verify_evidence (issue_local (arr_rep 32 x05) (arr_rep 32 x06) ex_local_tip []) ex_local_tip = true.
Proof.
  set (e := issue_local (arr_rep 32 x05) (arr_rep 32 x06) ex_local_tip []).
  destruct (evidence_binding (arr_rep 32 x05) (arr_rep 32 x06) ex_local_tip ex_local_tip [] e e) as [Hi _];
    [by vm_compute..|].
  apply (proj1 (Hi issue_local (or_introl eq_refl))); [by_vm|]. split_and!; by_vm.
Defined.

Lemma finality_gate_witness :
  epsilon_support [fx_one; fx_zero] [arr_rep 32 x01; arr_rep 32 x02] fx_one
    = Done (mk_domain [arr_rep 32 x01] [fx_one]).
Proof.
  destruct (finality_gate [fx_one; fx_zero] [arr_rep 32 x01; arr_rep 32 x02] fx_one zero32 zero32 ex_local_tip []
    fx_one (mk_domain [] []) fx_zero fx_zero fx_zero fx_zero fx_zero) as (Hs & _).
  rewrite Hs by (simpl; lia). by_vm.
Defined.
