(* ===== verification/VDisk.v ===== *)
(** * VDisk: the virtual disk manager (src/vdisk.rs)

    Disks, the devices attached to them, the chunk store of every device and
    the file registry.  [put_file] codes a file into shards, spreads them over
    the devices and registers it; [get_file] collects what shards it finds and
    decodes; [rechunk] and [rebalance] move files to other parameters and
    devices.  A [HashMap] iterates in an order of its own: [iter_stores] and
    [iter_files] are arguments, any permutation.  Error strings are the
    constructors of [vdisk_error]; a fault is a panic (an underflow of
    [usize], a failed assertion).  Floats are [SpecFloat]'s binary64. *)

From Stdlib Require Import Floats.SpecFloat.
From S2P Require Import Prelude Order Bytes Externals Goldilocks Instances Erasure Store Das.

(** ** Binary64 *)

Definition f64_of_u64 (v : N) : spec_float := binary_normalize 53 1024 (Z.of_N v) 0 false.
Definition f64_mul (x y : spec_float) : spec_float := SFmul 53 1024 x y.
Definition f64_div (x y : spec_float) : spec_float := SFdiv 53 1024 x y.
(** [x as u64]: truncated and saturated, zero for a NaN. *)
Definition u64_of_f64 (x : spec_float) : N :=
  match x with
  | S754_finite false m e => N.min (Z.to_N (if (0 <=? e)%Z then Z.shiftl (Z.pos m) e else Z.shiftr (Z.pos m) (- e))) u64_max
  | S754_infinity false => u64_max
  | _ => 0%N
  end.
(** [v as i64]. *)
Definition as_i64 (v : N) : Z :=
  if (v <? 9223372036854775808)%N then Z.of_N v else (Z.of_N v - 18446744073709551616)%Z.

(** [n.next_power_of_two()]. *)
Definition next_power_of_two (n : nat) : nat := 2 ^ Nat.log2_up n.

(** [iter().sum::<u64>()], which panics on overflow. *)
Definition sum_u64 (l : list N) : outcome N :=
  fold_left (fun s v => s ← s; if (s + v <=? u64_max)%N then Done (s + v)%N else Panic) l (Done 0%N).

Section vdisk.
Context {HM : Hemera} {NB : Nebu} {NT : Ntt}.

Inductive cache_policy := Lru | Cold | Hot.
Inductive tier := Critical | Active | Archive.
Inductive redundancy := Tolerate (f : nat) | Max.

Record disk_config := mk_config {
  dk_name : string;
  dk_redundancy : redundancy;
  dk_tier : tier;
  dk_cache_policy : cache_policy;
  dk_shard_copies : nat
}.

Record device_attachment := mk_attachment { da_device_name : string; da_disk_name : string; da_capacity : N }.

Inductive status_message := NoDevicesAttached | NeedMore (devices f : nat) | NoRedundancy | HealthyWith (f : nat).
Record disk_status := mk_status {
  ds_name : string;
  ds_devices : nat;
  ds_total_capacity : N;
  ds_k : nat;
  ds_n : nat;
  ds_f : nat;
  ds_per_file_overhead : spec_float;
  ds_healthy : bool;
  ds_message : status_message
}.

Record vdisk := mk_vdisk {
  vd_disks : gmap string disk_config;
  vd_attachments : list device_attachment;
  vd_stores : gmap string Chunks.chunk_store;
  vd_registry : Registry.gset_crdt
}.

Inductive vdisk_error :=
| DiskExists | NoDisk | NoDevices | StoreError (e : Chunks.io_error) | FileNotFound
| OnlyShards (available required : nat) | BadHash | DecodeFailed (e : decode_error).

Definition vdisk_new : vdisk := mk_vdisk ∅ [] ∅ Registry.gset_new.

Definition set_stores (v : vdisk) (st : gmap string Chunks.chunk_store) : vdisk :=
  mk_vdisk (vd_disks v) (vd_attachments v) st (vd_registry v).
Definition set_registry (v : vdisk) (g : Registry.gset_crdt) : vdisk :=
  mk_vdisk (vd_disks v) (vd_attachments v) (vd_stores v) g.

Definition create_disk (v : vdisk) (config : disk_config) : vdisk * result vdisk_error unit :=
  if bool_decide (is_Some (vd_disks v !! dk_name config)) then (v, Err DiskExists)
  else (mk_vdisk (<[dk_name config := config]> (vd_disks v)) (vd_attachments v) (vd_stores v) (vd_registry v), Ok tt).

(** [dir] is what the device's directory already holds. *)
Definition attach (v : vdisk) (dir : gmap string (list byte)) (device_name disk_name : string) (capacity : N)
    : vdisk * result vdisk_error unit :=
  if negb (bool_decide (is_Some (vd_disks v !! disk_name))) then (v, Err NoDisk)
  else
    let attachments := vd_attachments v ++ [mk_attachment device_name disk_name capacity] in
    let stores := if bool_decide (is_Some (vd_stores v !! device_name)) then vd_stores v
                  else <[device_name := Chunks.store_new dir capacity]> (vd_stores v) in
    (mk_vdisk (vd_disks v) attachments stores (vd_registry v), Ok tt).

Definition devices_of (v : vdisk) (disk_name : string) : list device_attachment :=
  List.filter (fun a => bool_decide (da_disk_name a = disk_name)) (vd_attachments v).
Definition device_names (v : vdisk) (disk_name : string) : list string := map da_device_name (devices_of v disk_name).

Definition status (v : vdisk) (disk_name : string) : result (fault vdisk_error) disk_status :=
  config ← may_fail (ok_or NoDisk (vd_disks v !! disk_name));
  let devices := devices_of v disk_name in
  let n := length devices in
  match sum_u64 (map da_capacity devices) with
  | Panic => Err Panicked
  | Done total_capacity =>
      let f := match dk_redundancy config with Max => if bool_decide (0 < n) then n - 1 else 0 | Tolerate f => f end in
      let k := if bool_decide (f < n) then n - f else 1 in
      let per_file_overhead :=
        if bool_decide (0 < k) then f64_div (f64_of_u64 (N.of_nat n)) (f64_of_u64 (N.of_nat k)) else S754_zero false in
      let healthy := bool_decide (f < n) && bool_decide (0 < f) in
      let message := if bool_decide (n = 0) then NoDevicesAttached
                     else if bool_decide (n <= f) then NeedMore (f - n + 1) f
                     else if bool_decide (f = 0) then NoRedundancy
                     else HealthyWith f in
      Ok (mk_status disk_name n total_capacity k n f per_file_overhead healthy message)
  end.

(** ** Storing *)

(** [n_devices - f], which underflows when [f] is larger. *)
Definition data_shards (config : disk_config) (n_devices : nat) : outcome nat :=
  let f := match dk_redundancy config with Max => n_devices - 1 | Tolerate f => f end in
  if bool_decide (f <= n_devices) then Done (n_devices - f) else Panic.

(** The loop that puts the shards round-robin: the stores afterwards, and the
    hashes or the first failure. *)
Fixpoint distribute (names : list string) (stores : gmap string Chunks.chunk_store) (shards : list shard)
    : gmap string Chunks.chunk_store * result (fault vdisk_error) (list string) :=
  match shards with
  | [] => (stores, Ok [])
  | s :: rest =>
      match names !! (sh_index s mod length names) with
      | None => (stores, Err Panicked)
      | Some device =>
          match stores !! device with
          | None => distribute names stores rest
          | Some c =>
              match Chunks.put c s with
              | Err e => (stores, Err (Failed (StoreError e)))
              | Ok (h, c') =>
                  let '(stores, r) := distribute names (<[device := c']> stores) rest in
                  (stores, hs ← r; Ok (to_hex h :: hs))
              end
          end
      end
  end.

Definition file_entry_of (name : string) (len k n : nat) (hashes : list string) (timestamp : N)
    (c : das_commitment) (copies : nat) : Registry.file_entry :=
  {| Registry.fe_name := name; Registry.fe_original_len := len; Registry.fe_k := k; Registry.fe_n := n;
     Registry.fe_shard_hashes := hashes; Registry.fe_timestamp := timestamp;
     Registry.fe_entry_hash := Registry.compute_hash name hashes timestamp "vdisk";
     Registry.fe_device_id := "vdisk"; Registry.fe_das_root := hash_debug (dc_root c);
     Registry.fe_shard_copies := copies; Registry.fe_deleted := false |}.

(** Encode, distribute and register: what [put_file] and [rechunk] share. *)
Definition write_file (v : vdisk) (names : list string) (k n_ntt : nat) (name : string) (data : list byte)
    (timestamp : N) (copies : nat) : vdisk * result (fault vdisk_error) das_commitment :=
  match encode data k n_ntt with
  | Panic => (v, Err Panicked)
  | Done shards =>
      let c := das_commit shards k (length data) in
      let '(stores, r) := distribute names (vd_stores v) shards in
      let v := set_stores v stores in
      match r with
      | Err e => (v, Err e)
      | Ok hashes =>
          (set_registry v (Registry.insert (vd_registry v)
             (file_entry_of name (length data) k n_ntt hashes timestamp c copies)), Ok c)
      end
  end.

Definition put_file (v : vdisk) (disk_name file_name : string) (data : list byte) (now : N)
    : vdisk * result (fault vdisk_error) das_commitment :=
  match vd_disks v !! disk_name with
  | None => (v, Err (Failed NoDisk))
  | Some config =>
      let names := device_names v disk_name in
      let n_devices := length names in
      if bool_decide (n_devices = 0) then (v, Err (Failed NoDevices))
      else
        match data_shards config n_devices with
        | Panic => (v, Err Panicked)
        | Done k => write_file v names k (next_power_of_two n_devices) file_name data now 1
        end
  end.

(** ** Reading *)

(** [u8::from_str_radix(pair, 16)], which also takes a plus sign. *)
Definition hex_digit_value (c : Ascii.ascii) : option N :=
  let v := Ascii.N_of_ascii c in
  if (48 <=? v)%N && (v <=? 57)%N then Some (v - 48)%N
  else if (97 <=? v)%N && (v <=? 102)%N then Some (v - 87)%N
  else if (65 <=? v)%N && (v <=? 70)%N then Some (v - 55)%N
  else None.
Definition hex_pair_value (c1 c2 : Ascii.ascii) : option N :=
  match hex_digit_value c1, hex_digit_value c2 with
  | Some a, Some b => Some (16 * a + b)%N
  | None, Some b => if (Ascii.N_of_ascii c1 =? 43)%N then Some b else None
  | _, _ => None
  end.
Fixpoint hex_bytes (s : string) : option (list byte) :=
  match s with
  | EmptyString => Some []
  | String c1 (String c2 rest) => v ← hex_pair_value c1 c2; bs ← hex_bytes rest; Some (byte_of_N v :: bs)
  | String _ EmptyString => None
  end.
Definition is_ascii (s : string) : bool :=
  forallb (fun c => (Ascii.N_of_ascii c <? 128)%N) (String.list_ascii_of_string s).
Definition hex_to_hash (hex : string) : result vdisk_error particle :=
  if negb (bool_decide (String.length hex = 64)) || negb (is_ascii hex) then Err BadHash
  else ok_or BadHash (bs ← hex_bytes hex; list_to_arr 32 bs).

(** The first store, in iteration order, that returns the chunk. *)
Fixpoint find_chunk (order : list Chunks.chunk_store) (h : particle) : option (list byte) :=
  match order with
  | [] => None
  | c :: order => match Chunks.get_chunk c h with Ok bytes => Some bytes | Err _ => find_chunk order h end
  end.

Fixpoint gather (order : list Chunks.chunk_store) (i : nat) (hashes : list string) : result vdisk_error (list shard) :=
  match hashes with
  | [] => Ok []
  | hex :: rest =>
      h ← hex_to_hash hex;
      shards ← gather order (S i) rest;
      Ok (match find_chunk order h with Some bytes => Chunks.bytes_to_shard i bytes :: shards | None => shards end)
  end.

Definition get_file (v : vdisk) (order : list Chunks.chunk_store) (file_name : string)
    : result (fault vdisk_error) (list byte) :=
  entry ← may_fail (ok_or FileNotFound (Registry.get (vd_registry v) file_name));
  available ← may_fail (gather order 0 (Registry.fe_shard_hashes entry));
  if bool_decide (length available < Registry.fe_k entry)
  then Err (Failed (OnlyShards (length available) (Registry.fe_k entry)))
  else
    match decode available (Registry.fe_k entry) (Registry.fe_n entry) (Registry.fe_original_len entry) with
    | Ok data => Ok data
    | Err Panicked => Err Panicked
    | Err (Failed e) => Err (Failed (DecodeFailed e))
    end.

Definition list_files (v : vdisk) : list string := Registry.list_names (vd_registry v).
Definition list_disks (v : vdisk) : list string := sorted_keys (vd_disks v).
Definition merge_registry (v : vdisk) (values : list Registry.file_entry) : vdisk :=
  set_registry v (Registry.merge (vd_registry v) values).

(** ** Rechunking *)

(** The iteration orders of the stores, of the registry's entries and of its
    names, and the clock when a file is rewritten. *)
Variable iter_stores : gmap string Chunks.chunk_store -> list Chunks.chunk_store.
Variable iter_files : gmap string Registry.file_entry -> list Registry.file_entry.
Variable iter_names : gmap string Registry.file_entry -> list string.
Variable clock : string -> N.

(** A rewrite is stamped strictly later than what it rewrites. *)
Definition supersede (v : vdisk) (name : string) : N :=
  let prev_ts := from_option Registry.fe_timestamp 0%N (Registry.files (vd_registry v) !! name) in
  N.max (clock name) (sat_add64 prev_ts 1).

Fixpoint rechunk_loop (names : list string) (new_k new_n copies : nat) (v : vdisk) (files : list string)
    : vdisk * result (fault vdisk_error) (nat * nat) :=
  match files with
  | [] => (v, Ok (0, 0))
  | name :: rest =>
      match get_file v (iter_stores (vd_stores v)) name with
      | Ok data =>
          match write_file v names new_k new_n name data (supersede v name) copies with
          | (v, Err e) => (v, Err e)
          | (v, Ok _) => let '(v, r) := rechunk_loop names new_k new_n copies v rest in
                         (v, '(rechunked, skipped) ← r; Ok (S rechunked, skipped))
          end
      | Err Panicked => (v, Err Panicked)
      | Err (Failed _) => let '(v, r) := rechunk_loop names new_k new_n copies v rest in
                          (v, '(rechunked, skipped) ← r; Ok (rechunked, S skipped))
      end
  end.

Definition rechunk (v : vdisk) (disk_name : string) : vdisk * result (fault vdisk_error) (nat * nat) :=
  match vd_disks v !! disk_name with
  | None => (v, Err (Failed NoDisk))
  | Some config =>
      let names := device_names v disk_name in
      let n_devices := length names in
      if bool_decide (n_devices < 2) then (v, Ok (0, 0))
      else
        match data_shards config n_devices with
        | Panic => (v, Err Panicked)
        | Done new_k =>
            let new_n := next_power_of_two n_devices in
            let files_to_rechunk := map Registry.fe_name
              (List.filter (fun e => negb (bool_decide (Registry.fe_k e = new_k)) || negb (bool_decide (Registry.fe_n e = new_n)))
                 (iter_files (Registry.files (vd_registry v)))) in
            rechunk_loop names new_k new_n (dk_shard_copies config) v files_to_rechunk
        end
  end.

(** ** Rebalancing *)

Definition device_load (v : vdisk) (name : string) : string * N * N :=
  match vd_stores v !! name with
  | Some c => (name, Chunks.used c, Chunks.capacity c)
  | None => (name, 0%N, 0%N)
  end.

(** A device's distance from its share, [used as i64 - target as i64]. *)
Definition load_delta (total_used total_cap : N) (l : string * N * N) : outcome (string * Z) :=
  let '(name, used, cap) := l in
  let target := u64_of_f64 (f64_div (f64_mul (f64_of_u64 total_used) (f64_of_u64 cap)) (f64_of_u64 total_cap)) in
  let delta := (as_i64 used - as_i64 target)%Z in
  if ((-9223372036854775808 <=? delta) && (delta <=? 9223372036854775807))%Z then Done (name, delta) else Panic.

Fixpoint collect_outcome {A} (l : list (outcome A)) : outcome (list A) :=
  match l with [] => Done [] | x :: l => a ← x; r ← collect_outcome l; Done (a :: r) end.

Definition holds_chunk (stores : gmap string Chunks.chunk_store) (h : particle) (device : string) : bool :=
  match stores !! device with Some c => Chunks.has c h | None => false end.

(** The loop over the devices with room: the first that lacks the chunk gets
    a copy. *)
Fixpoint copy_chunk (stores : gmap string Chunks.chunk_store) (source : string) (i : nat) (h : particle)
    (under : list string) : gmap string Chunks.chunk_store * nat :=
  match under with
  | [] => (stores, 0)
  | dest :: rest =>
      match stores !! dest with
      | None => copy_chunk stores source i h rest
      | Some dest_store =>
          if Chunks.has dest_store h then copy_chunk stores source i h rest
          else
            match (s ← stores !! source; match Chunks.get_chunk s h with Ok b => Some b | Err _ => None end) with
            | None => copy_chunk stores source i h rest
            | Some bytes =>
                match Chunks.put dest_store (Chunks.bytes_to_shard i bytes) with
                | Ok (_, c) => (<[dest := c]> stores, 1)
                | Err _ => (stores, 0)
                end
            end
      end
  end.

Definition rebalance_shard (over under : list string) (st : gmap string Chunks.chunk_store * nat) (ih : nat * string)
    : gmap string Chunks.chunk_store * nat :=
  match hex_to_hash ih.2 with
  | Err _ => st
  | Ok h =>
      match List.find (holds_chunk st.1 h) over with
      | None => st
      | Some source => let '(stores, migrated) := copy_chunk st.1 source ih.1 h under in (stores, st.2 + migrated)
      end
  end.

Definition rebalance_file (g : Registry.gset_crdt) (over under : list string)
    (st : gmap string Chunks.chunk_store * nat) (name : string) : gmap string Chunks.chunk_store * nat :=
  match Registry.get g name with
  | None => st
  | Some entry =>
      let hashes := Registry.fe_shard_hashes entry in
      fold_left (rebalance_shard over under) (zip (seq 0 (length hashes)) hashes) st
  end.

Definition rebalance (v : vdisk) (disk_name : string) : vdisk * result (fault vdisk_error) nat :=
  let names := device_names v disk_name in
  if bool_decide (length names < 2) then (v, Ok 0)
  else
    let loads := map (device_load v) names in
    match sum_u64 (map (fun l => l.2) loads), sum_u64 (map (fun l => l.1.2) loads) with
    | Done total_cap, Done total_used =>
        if (total_cap =? 0)%N || (total_used =? 0)%N then (v, Ok 0)
        else
          match collect_outcome (map (load_delta total_used total_cap) loads) with
          | Panic => (v, Err Panicked)
          | Done targets =>
              let targets := sort_by (fun t => (- t.2)%Z) targets in
              let over := map fst (List.filter (fun t => (0 <? t.2)%Z) targets) in
              let under := map fst (List.filter (fun t => (t.2 <? 0)%Z) targets) in
              let '(stores, migrated) := fold_left (rebalance_file (vd_registry v) over under)
                (iter_names (Registry.files (vd_registry v))) (vd_stores v, 0) in
              (set_stores v stores, Ok migrated)
          end
    | _, _ => (v, Err Panicked)
    end.
End vdisk.

(** ** Digests in hexadecimal *)

(** [Hash::to_hex] prints two lower-case digits per byte. *)
Class HexDigits {HM : Hemera} : Prop := to_hex_digits : forall h, to_hex h = hex_of_bytes (arr_bytes h).
#[global] Instance toy_hex_digits : HexDigits.
Proof. done. Qed.

Section hex.
Context {HM : Hemera} {HD : HexDigits}.

Lemma hex_pair_byte b :
  hex_pair_value (hex_digit (Byte.to_N b / 16)) (hex_digit (Byte.to_N b mod 16)) = Some (Byte.to_N b).
Proof. destruct b; reflexivity. Qed.
Lemma hex_digit_ascii b :
  (Ascii.N_of_ascii (hex_digit (Byte.to_N b / 16)) <? 128)%N && (Ascii.N_of_ascii (hex_digit (Byte.to_N b mod 16)) <? 128)%N = true.
Proof. destruct b; reflexivity. Qed.

Lemma hex_bytes_of l : hex_bytes (hex_of_bytes l) = Some l.
Proof.
  induction l as [|b l IH]; [done|]. cbn [hex_of_bytes hex_bytes]. rewrite hex_pair_byte, IH. cbn [mbind option_bind].
  by rewrite byte_of_N_to_N.
Qed.
Lemma hex_is_ascii l : is_ascii (hex_of_bytes l) = true.
Proof.
  unfold is_ascii. induction l as [|b l IH]; [done|]. cbn [hex_of_bytes String.list_ascii_of_string forallb].
  pose proof (hex_digit_ascii b) as [-> ->]%andb_true_iff. done.
Qed.

Lemma hex_to_hash_to_hex h : hex_to_hash (to_hex h) = Ok h.
Proof.
  unfold hex_to_hash. rewrite to_hex_digits, hex_of_bytes_length, arr_length, hex_is_ascii, hex_bytes_of. simpl.
  by rewrite list_to_arr_bytes.
Qed.
#[export] Instance digits_inj : Inj (=) (=) to_hex.
Proof.
  intros a b E. pose proof (hex_to_hash_to_hex a) as Ha. rewrite E, hex_to_hash_to_hex in Ha. by injection Ha.
Qed.
End hex.

(** ** Stores: what they hold and keep *)

Section stores.
Context {HM : Hemera} {HD : HexDigits} {NB : Nebu} {NT : Ntt}.
Abbreviation stores := (gmap string Chunks.chunk_store).

Definition shash (s : shard) : particle := hemera_hash (Chunks.shard_to_bytes s).

(** Every chunk is named by its digest. *)
Definition named (c : Chunks.chunk_store) : Prop :=
  map_Forall (fun name b => to_hex (hemera_hash b) = name) (Chunks.disk c) /\
  map_Forall (fun name b => to_hex (hemera_hash b) = name) (Chunks.cs_index c).
Definition all_named (st : stores) : Prop := map_Forall (fun _ c => named c) st.

Definition has_chunk (c : Chunks.chunk_store) (h : particle) : Prop := exists b, Chunks.get_chunk c h = Ok b.

(** Every device of [st] is in [st'] and holds at least what it held. *)
Definition grows (st st' : stores) : Prop :=
  forall dev c, st !! dev = Some c -> exists c', st' !! dev = Some c' /\ forall h, has_chunk c h -> has_chunk c' h.

#[export] Instance grows_preorder : PreOrder grows.
Proof.
  split.
  - intros st dev c Hc. eauto.
  - intros st1 st2 st3 H1 H2 dev c Hc. destruct (H1 dev c Hc) as (c2 & Hc2 & Hh2).
    destruct (H2 dev c2 Hc2) as (c3 & Hc3 & Hh3). exists c3. auto.
Qed.

Lemma has_chunk_spec c h :
  has_chunk c h <-> is_Some (Chunks.cs_index c !! to_hex h) \/ is_Some (Chunks.disk c !! to_hex h).
Proof.
  unfold has_chunk, Chunks.get_chunk. destruct (Chunks.cs_index c !! to_hex h) as [b|]; [split; eauto|].
  destruct (Chunks.disk c !! to_hex h) as [b|]; simpl; split; eauto.
  - by intros [b [=]].
  - by intros [[? [=]]|[? [=]]].
Qed.

Lemma named_get c h b : named c -> Chunks.get_chunk c h = Ok b -> hemera_hash b = h.
Proof.
  intros [Hd Hi]. unfold Chunks.get_chunk. destruct (Chunks.cs_index c !! to_hex h) as [b'|] eqn:E.
  - intros [= ->]. apply Hi in E. by apply (inj to_hex).
  - destruct (Chunks.disk c !! to_hex h) as [b'|] eqn:E'; simpl; [|done]. intros [= ->]. apply Hd in E'. by apply (inj to_hex).
Qed.

Lemma put_cases c s :
  (exists e, Chunks.put c s = Err e) \/
  exists c', Chunks.put c s = Ok (shash s, c') /\ (named c -> named c') /\ has_chunk c' (shash s) /\
    forall h, has_chunk c h -> has_chunk c' h.
Proof.
  unfold Chunks.put. destruct (andb _ _); [by left; eauto|]. right. fold (shash s). eexists. split; [done|].
  assert (forall h m (b : list byte), is_Some (m !! to_hex h) -> is_Some ((<[to_hex (shash s) := b]> m : gmap string (list byte)) !! to_hex h)) as Hins.
  { intros h m b Hm. rewrite lookup_insert. case_decide; eauto. }
  case_bool_decide as Hex; cbn [Chunks.disk Chunks.cs_index]; (split; [|split]).
  - intros [Hd Hi]. split; [done|]. by apply map_Forall_insert_2.
  - apply has_chunk_spec. left. simpl. rewrite lookup_insert_eq. eauto.
  - intros h. rewrite !has_chunk_spec. simpl. intros [?|?]; [left; by apply Hins|by right].
  - intros [Hd Hi]. split; by apply map_Forall_insert_2.
  - apply has_chunk_spec. left. simpl. rewrite lookup_insert_eq. eauto.
  - intros h. rewrite !has_chunk_spec. simpl. intros [?|?]; [left; by apply Hins|right; by apply Hins].
Qed.

(** Replacing a store by one that holds more. *)
Lemma grows_insert st dev c c' :
  st !! dev = Some c -> (forall h, has_chunk c h -> has_chunk c' h) -> grows st (<[dev := c']> st).
Proof.
  intros Hc Hh d x Hx. destruct (decide (d = dev)) as [->|Hne].
  - exists c'. rewrite lookup_insert_eq. split; [done|]. rewrite Hc in Hx. by injection Hx as <-.
  - exists x. by rewrite lookup_insert_ne.
Qed.

Lemma distribute_spec names st sh :
  all_named st -> (forall dev, dev ∈ names -> is_Some (st !! dev)) ->
  let '(st', r) := distribute names st sh in
  all_named st' /\ grows st st' /\
  match r with
  | Ok hs => hs = map (fun s => to_hex (shash s)) sh /\
      forall s, s ∈ sh -> exists dev c, names !! (sh_index s mod length names) = Some dev /\
        st' !! dev = Some c /\ has_chunk c (shash s)
  | Err e => (e = Panicked /\ names = []) \/ exists e', e = Failed (StoreError e')
  end.
Proof.
  revert st. induction sh as [|s sh IH]; intros st Hn Hd; cbn [distribute].
  { split; [done|]. split; [done|]. split; [done|]. intros s ?%elem_of_nil. done. }
  destruct (names !! _) as [dev|] eqn:Edev.
  2: { split; [done|]. split; [done|]. left. split; [done|]. apply lookup_ge_None in Edev.
       destruct names; [done|]. pose proof (Nat.mod_upper_bound (sh_index s) (length (s0 :: names)) ltac:(done)). lia. }
  destruct (Hd dev) as [c Hc]; [by eapply list_elem_of_lookup_2|]. rewrite Hc.
  destruct (put_cases c s) as [[e ->]|(c' & -> & Hn' & Hs & Hh)]; [split; [done|]; split; [done|]; right; eauto|].
  pose proof (grows_insert st dev c c' Hc Hh) as Hg.
  assert (all_named (<[dev := c']> st)) as Hn1.
  { apply map_Forall_insert_2; [apply Hn'; by eapply Hn|done]. }
  specialize (IH (<[dev := c']> st) Hn1). destruct (distribute names (<[dev := c']> st) sh) as [st' r].
  destruct IH as (H1 & H2 & H3).
  { intros d Hin. rewrite lookup_insert. case_decide; eauto. }
  split; [done|]. split; [by transitivity (<[dev := c']> st)|]. destruct r as [hs|e]; [|done]. cbn [mbind result_bind].
  destruct H3 as [-> H3]. split; [done|]. intros x [->|Hx]%elem_of_cons; [|by apply H3].
  destruct (H2 dev c') as (c2 & Hc2 & Hh2); [apply lookup_insert_eq|]. exists dev, c2. auto.
Qed.

(** ** Reading back *)

Definition held (order : list Chunks.chunk_store) (s : shard) : Prop := is_Some (find_chunk order (shash s)).
#[export] Instance held_dec order s : Decision (held order s).
Proof. unfold held. apply _. Defined.

Lemma find_chunk_named order h b : Forall named order -> find_chunk order h = Some b -> hemera_hash b = h.
Proof.
  induction 1 as [|c order Hc _ IH]; simpl; [done|]. destruct (Chunks.get_chunk c h) as [b'|e] eqn:E; [|done].
  intros [= <-]. by eapply named_get.
Qed.
Lemma find_chunk_held order h c : c ∈ order -> has_chunk c h -> is_Some (find_chunk order h).
Proof.
  intros Hc [b Hb]. induction order as [|c0 order IH]; [by apply elem_of_nil in Hc|]. simpl.
  destruct (Chunks.get_chunk c0 h) as [b0|e] eqn:E; [eauto|]. apply elem_of_cons in Hc as [->|Hc]; [congruence|auto].
Qed.

Context {NL : NebuLaws}.

(** What is gathered are the shards that are held, unless the hash collides. *)
Lemma gather_spec order i sh :
  Forall named order -> (forall j s, sh !! j = Some s -> sh_index s = i + j) ->
  (exists x y, collides x y) \/ gather order i (map (fun s => to_hex (shash s)) sh) = Ok (filter (held order) sh).
Proof.
  intros Hn. revert i. induction sh as [|s sh IH]; intros i Hi; [by right|]. cbn [map gather].
  rewrite hex_to_hash_to_hex. cbn [mbind result_bind].
  destruct (IH (S i)) as [?|E]; [|by left|].
  { intros j x Hx. rewrite (Hi (S j) x Hx). lia. }
  rewrite E. destruct (find_chunk order (shash s)) as [b|] eqn:Ef.
  - destruct (decide (b = Chunks.shard_to_bytes s)) as [->|Hne].
    + right. rewrite filter_cons, decide_True by (unfold held; rewrite Ef; eauto). rewrite bytes_to_shard_to_bytes.
      pose proof (Hi 0 s eq_refl) as Hs. rewrite Nat.add_0_r in Hs. destruct s; simpl in *. by subst.
    + left. exists b, (Chunks.shard_to_bytes s). split; [done|]. by apply (find_chunk_named order).
  - right. rewrite filter_cons, decide_False by (unfold held; rewrite Ef; by intros [? ?]). done.
Qed.
End stores.

(** ** Stored files *)

Section stored.
Context {HM : Hemera} {HD : HexDigits} {NB : Nebu} {NT : Ntt} {NL : NebuLaws} {TL : NttLaws}.

Definition on_device (st : gmap string Chunks.chunk_store) (s : shard) : Prop :=
  exists dev c, st !! dev = Some c /\ has_chunk c (shash s).

(** The entry is that of an encoding of the data, and the devices hold enough
    of its shards. *)
Definition coded (e : Registry.file_entry) (data : list byte) (shards : list shard) : Prop :=
  (exists m, m <= 32 /\ Registry.fe_n e = 2 ^ m) /\
  encode data (Registry.fe_k e) (Registry.fe_n e) = Done shards /\
  Registry.fe_shard_hashes e = map (fun s => to_hex (shash s)) shards /\
  Registry.fe_original_len e = length data.
Definition available (st : gmap string Chunks.chunk_store) (k : nat) (shards : list shard) : Prop :=
  exists l, l ⊆+ shards /\ k <= length l /\ Forall (on_device st) l.
Definition stored (v : vdisk) (name : string) (data : list byte) : Prop :=
  exists e shards, Registry.get (vd_registry v) name = Some e /\ coded e data shards /\
    available (vd_stores v) (Registry.fe_k e) shards.

Definition vd_ok (v : vdisk) : Prop :=
  all_named (vd_stores v) /\ forall a, a ∈ vd_attachments v -> is_Some (vd_stores v !! da_device_name a).

Lemma available_grows st st' k shards : grows st st' -> available st k shards -> available st' k shards.
Proof.
  intros Hg (l & Hl & Hk & Ho). exists l. split; [done|]. split; [done|]. eapply Forall_impl; [exact Ho|].
  intros s (dev & c & Hc & Hs). destruct (Hg dev c Hc) as (c' & Hc' & Hh). exists dev, c'. auto.
Qed.

Lemma encode_indices data k n shards :
  encode data k n = Done shards -> length shards = n /\ forall j s, shards !! j = Some s -> sh_index s = j.
Proof.
  rewrite encode_eq. destruct (_ && _); [|done]. intros [= <-]. split; [by rewrite length_map, length_seq|].
  intros j s Hs. rewrite list_lookup_fmap in Hs. destruct (decide (j < n)) as [Hj|Hj].
  - rewrite lookup_seq_lt in Hs by done. simpl in Hs. by injection Hs as <-.
  - by rewrite lookup_seq_ge in Hs by lia.
Qed.

Lemma encode_NoDup data k n shards : encode data k n = Done shards -> NoDup (map sh_index shards).
Proof.
  rewrite encode_eq. destruct (_ && _); [|done]. intros [= <-]. rewrite map_map. simpl. rewrite map_id. apply NoDup_seq.
Qed.

Definition values_of (st : gmap string Chunks.chunk_store) : list Chunks.chunk_store := (map_to_list st).*2.

Lemma on_device_held st order s : order ≡ₚ values_of st -> on_device st s -> held order s.
Proof.
  intros Hp (dev & c & Hc & Hs). apply (find_chunk_held _ _ c); [|done]. rewrite Hp. apply list_elem_of_fmap.
  exists (dev, c). split; [done|]. by apply elem_of_map_to_list.
Qed.

Lemma order_named st order : all_named st -> order ≡ₚ values_of st -> Forall named order.
Proof.
  intros Hn Hp. apply Forall_forall. intros c Hc. rewrite Hp in Hc. apply list_elem_of_fmap in Hc as ([dev c'] & -> & Hc').
  apply elem_of_map_to_list in Hc'. by eapply Hn.
Qed.

Lemma filter_submseteq {A} (P : A -> Prop) `{!forall x, Decision (P x)} (l k : list A) :
  l ⊆+ k -> filter P l ⊆+ filter P k.
Proof.
  induction 1 as [|x l k _ IH|x y l|x l k _ IH|l k j _ IH1 _ IH2].
  - done.
  - rewrite !filter_cons. case_decide; [by apply submseteq_skip|done].
  - rewrite !filter_cons. repeat case_decide; try done. apply submseteq_swap.
  - rewrite !filter_cons. case_decide; [by apply submseteq_cons|done].
  - by transitivity (filter P k).
Qed.

(** A stored file is read back. *)
Lemma stored_readable v order name data :
  all_named (vd_stores v) -> order ≡ₚ values_of (vd_stores v) -> stored v name data ->
  (exists x y, collides x y) \/ get_file v order name = Ok data.
Proof.
  intros Hn Hp (e & shards & He & ((m & Hm & Em) & Henc & Hhs & Hlen) & (l & Hl & Hk & Ho)).
  destruct (gather_spec order 0 shards) as [?|Eg]; [by eapply order_named| |by left|].
  { intros j s Hs. by apply (encode_indices _ _ _ _ Henc). }
  right. unfold get_file. rewrite He. cbn [ok_or may_fail map_err mbind result_bind]. rewrite Hhs, Eg.
  cbn [may_fail map_err mbind result_bind].
  assert (Registry.fe_k e <= length (filter (held order) shards)) as Hfk.
  { etransitivity; [exact Hk|]. apply submseteq_length.
    rewrite <-(filter_every (held order) l); [by apply filter_submseteq|].
    eapply Forall_impl; [exact Ho|]. intros s. by apply on_device_held. }
  rewrite bool_decide_eq_false_2 by lia. rewrite Hlen, Em. rewrite Em in Henc.
  rewrite (decode_recovers data (Registry.fe_k e) m shards (filter (held order) shards)); [done|done|done| | |done].
  - apply Forall_forall. intros s [_ Hs]%list_elem_of_filter. done.
  - eapply sublist_NoDup; [eapply encode_NoDup; exact Henc|]. apply fmap_sublist.
    induction shards as [|x shards IH]; [constructor|]. clear. generalize (x :: shards). intros l.
    induction l as [|y l IH]; [done|]. rewrite filter_cons. case_decide; by constructor.
Qed.

Lemma device_names_stored v disk dev : vd_ok v -> dev ∈ device_names v disk -> is_Some (vd_stores v !! dev).
Proof.
  intros [_ Ha] Hd. unfold device_names, devices_of in Hd. apply list_elem_of_fmap in Hd as (a & -> & Hin).
  apply Ha. apply list_elem_of_In, filter_In in Hin as [Hin _]. by apply list_elem_of_In.
Qed.

(** The registry after a write: the new entry if it is later, and every
    other name untouched. *)
Lemma insert_get g e name :
  Registry.get (Registry.insert g e) name =
    if decide (name = Registry.fe_name e) then
      match Registry.files g !! name with
      | Some old => if Registry.lww_newer e old then (if decide (Registry.live e) then Some e else None)
                    else Registry.get g name
      | None => if decide (Registry.live e) then Some e else None
      end
    else Registry.get g name.
Proof.
  unfold Registry.insert, Registry.lww_insert, Registry.get. case_decide as Hn.
  - subst. destruct (Registry.files g !! Registry.fe_name e) as [old|] eqn:Eo.
    + destruct (Registry.lww_newer e old); [simpl; by rewrite lookup_insert_eq|by rewrite Eo].
    + simpl. by rewrite lookup_insert_eq.
  - destruct (Registry.files g !! Registry.fe_name e) as [old|];
      [destruct (Registry.lww_newer e old); [|done]|]; simpl; by rewrite lookup_insert_ne.
Qed.

Lemma all_shards_available st k shards :
  k <= length shards -> (forall s, s ∈ shards -> on_device st s) -> available st k shards.
Proof. intros Hk Hs. exists shards. split; [done|]. split; [done|]. by apply Forall_forall. Qed.

Lemma encode_k data k n shards : encode data k n = Done shards -> 1 <= k <= n.
Proof.
  rewrite encode_eq. destruct (is_power_of_two n); [|done].
  destruct (bool_decide_reflect (1 <= k)), (bool_decide_reflect (k <= n)); simpl; done.
Qed.

(** Writing: stores grow, attachments and disks stay, the file is stored if
    its entry won, and every other stored file stays stored. *)
Lemma write_spec v disk k m name data ts copies :
  vd_ok v -> m <= 32 ->
  let '(v', r) := write_file v (device_names v disk) k (2 ^ m) name data ts copies in
  vd_ok v' /\ vd_attachments v' = vd_attachments v /\ vd_disks v' = vd_disks v /\
  grows (vd_stores v) (vd_stores v') /\
  (forall other data', other <> name -> stored v other data' -> stored v' other data') /\
  (stored v name data -> stored v' name data) /\
  match r with
  | Ok c => exists shards, encode data k (2 ^ m) = Done shards /\ c = das_commit shards k (length data) /\
      (forall s, s ∈ shards -> exists dev st, device_names v disk !! (sh_index s mod length (device_names v disk)) = Some dev /\
         vd_stores v' !! dev = Some st /\ has_chunk st (shash s)) /\
      vd_registry v' = Registry.insert (vd_registry v)
        (file_entry_of name (length data) k (2 ^ m) (map (fun s => to_hex (shash s)) shards) ts c copies)
  | Err e => vd_registry v' = vd_registry v /\
      ((exists e', e = Failed (StoreError e')) \/
       (e = Panicked /\ v' = v /\ (encode data k (2 ^ m) = Panic \/ device_names v disk = [])))
  end.
Proof.
  intros Hok Hm. pose proof Hok as [Hn Ha]. unfold write_file. destruct (encode data k (2 ^ m)) as [shards|] eqn:Henc.
  2: { split; [done|]. split; [done|]. split; [done|]. split; [done|]. split; [done|]. split; [done|]. split; [done|]. auto. }
  pose proof (distribute_spec (device_names v disk) (vd_stores v) shards Hn (fun dev H => device_names_stored v disk dev Hok H)) as Hd.
  destruct (distribute _ _ shards) as [st' r] eqn:Edist. destruct Hd as (Hn' & Hg & Hr).
  assert (forall a, a ∈ vd_attachments v -> is_Some (st' !! da_device_name a)) as Ha'.
  { intros a Hin. destruct (Ha a Hin) as [c Hc]. destruct (Hg _ c Hc) as (c' & -> & _). eauto. }
  assert (forall g other data', Registry.get g other = Registry.get (vd_registry v) other -> stored v other data' ->
    stored (mk_vdisk (vd_disks v) (vd_attachments v) st' g) other data') as Hkeep.
  { intros g other data' Eg (e & sh & He & Hc & Hav). exists e, sh. split; [by rewrite <-He|]. split; [done|].
    by apply (available_grows (vd_stores v)). }
  destruct r as [hs|e].
  - destruct Hr as [-> Hpl]. set (c := das_commit shards k (length data)).
    set (en := file_entry_of name (length data) k (2 ^ m) _ ts c copies).
    split; [done|]. split; [done|]. split; [done|]. split; [done|]. split; [|split].
    + intros other data' Hne. apply Hkeep. rewrite insert_get. by rewrite decide_False.
    + intros Hst. destruct (decide (Registry.get (Registry.insert (vd_registry v) en) name = Registry.get (vd_registry v) name)) as [E|E];
        [by apply Hkeep|].
      exists en, shards. split; [|split].
      * change (Registry.get (Registry.insert (vd_registry v) en) name = Some en).
        rewrite insert_get, decide_True in E by done. rewrite insert_get, decide_True by done.
        destruct (Registry.files (vd_registry v) !! name) as [old|]; [destruct (Registry.lww_newer en old); [|done]|]; done.
      * split_and!; try done. by exists m.
      * apply all_shards_available; [|intros s Hs; destruct (Hpl s Hs) as (dev & x & _ & ? & ?); by exists dev, x].
        pose proof (encode_k _ _ _ _ Henc). destruct (encode_indices _ _ _ _ Henc) as [Hl _]. simpl. rewrite Hl. lia.
    + exists shards. split; [done|]. split; [done|]. split; [|done]. exact Hpl.
  - split; [done|]. split; [done|]. split; [done|]. split; [done|]. split; [intros other data' _; by apply Hkeep|].
    split; [by apply Hkeep|]. split; [done|]. destruct Hr as [[-> Hnil]|He]; [|by left]. right. split; [done|].
    split; [|by right]. rewrite Hnil in Edist. destruct shards; simpl in Edist; [done|]. injection Edist as <-. by destruct v.
Qed.
End stored.
