(* ===== verification/VDiskRun.v ===== *)
(** * VDiskRun: what a virtual disk keeps (src/vdisk.rs)

    The operations of [VDisk] as steps of a manager: which outcomes storing a
    file has, that a stored file survives the loss of devices up to the
    tolerance of its disk, and that no later operation on other files loses
    it.  Hash collisions are an explicit alternative. *)

From S2P Require Import Prelude Order Bytes Externals Goldilocks Instances Erasure Store Das VDisk.

Section run.
Context {HM : Hemera} {HD : HexDigits} {NB : Nebu} {NT : Ntt} {NL : NebuLaws} {TL : NttLaws}.
Abbreviation stores := (gmap string Chunks.chunk_store).

(** How many devices of [n] a configuration allows to fail. *)
Definition tolerance (config : disk_config) (n : nat) : nat :=
  match dk_redundancy config with Max => n - 1 | Tolerate f => f end.

Lemma data_shards_eq config n :
  data_shards config n = if decide (tolerance config n <= n) then Done (n - tolerance config n) else Panic.
Proof. unfold data_shards, tolerance. destruct (dk_redundancy config); case_bool_decide; by case_decide. Qed.

(** ** Stores only grow *)

Definition evolves (st st' : stores) : Prop := (all_named st -> all_named st') /\ grows st st'.
#[local] Instance evolves_preorder : PreOrder evolves.
Proof.
  split; [by intros st|]. intros st1 st2 st3 [H1 G1] [H2 G2]. split; [auto|]. by transitivity st2.
Qed.

Lemma evolves_put st dev c s h c' : st !! dev = Some c -> Chunks.put c s = Ok (h, c') -> evolves st (<[dev := c']> st).
Proof.
  intros Hc Hp. destruct (put_cases c s) as [[e E]|(c2 & E & Hn & _ & Hh)]; [congruence|].
  rewrite Hp in E. injection E as -> ->. split; [|by apply (grows_insert _ _ c)].
  intros Ha. apply map_Forall_insert_2; [|done]. apply Hn. by eapply Ha.
Qed.

Lemma copy_chunk_evolves st source i h under : evolves st (copy_chunk st source i h under).1.
Proof.
  induction under as [|dest rest IH]; [done|]. cbn [copy_chunk]. destruct (st !! dest) as [c|] eqn:Ec; [|done].
  destruct (Chunks.has c h); [done|].
  destruct (s ← st !! source; _) as [bytes|]; [|done].
  destruct (Chunks.put c _) as [[h' c']|e] eqn:Ep; [|done]. by eapply evolves_put.
Qed.

Lemma fold_left_evolves {B} (f : stores * nat -> B -> stores * nat) l st :
  (forall st b, evolves st.1 (f st b).1) -> evolves st.1 (fold_left f l st).1.
Proof.
  intros Hf. revert st. induction l as [|b l IH]; intros st; [done|]. simpl. transitivity (f st b).1; [apply Hf|apply IH].
Qed.

Lemma rebalance_shard_evolves over under st ih : evolves st.1 (rebalance_shard over under st ih).1.
Proof.
  unfold rebalance_shard. destruct (hex_to_hash _) as [h|]; [|done].
  destruct (List.find _ over) as [source|]; [|done].
  pose proof (copy_chunk_evolves st.1 source ih.1 h under) as H. by destruct (copy_chunk _ _ _ _ _).
Qed.

Lemma rebalance_file_evolves g over under st name : evolves st.1 (rebalance_file g over under st name).1.
Proof.
  unfold rebalance_file. destruct (Registry.get g name); [|done].
  apply fold_left_evolves. intros. apply rebalance_shard_evolves.
Qed.

(** ** Managers *)

(** Attachments and disks as before, stores grown. *)
Definition vd_evolves (v v' : vdisk) : Prop :=
  evolves (vd_stores v) (vd_stores v') /\ vd_attachments v' = vd_attachments v.

Lemma vd_ok_evolves v v' : vd_evolves v v' -> vd_ok v -> vd_ok v'.
Proof.
  intros [[Hn Hg] Ha] [H1 H2]. split; [auto|]. rewrite Ha. intros a Hin. destruct (H2 a Hin) as [c Hc].
  destruct (Hg _ c Hc) as (c' & -> & _). eauto.
Qed.

Lemma stored_grows v v' name data :
  grows (vd_stores v) (vd_stores v') -> Registry.get (vd_registry v') name = Registry.get (vd_registry v) name ->
  stored v name data -> stored v' name data.
Proof.
  intros Hg Er (e & sh & He & Hc & Hav). exists e, sh. rewrite Er. split; [done|]. split; [done|].
  by apply (available_grows (vd_stores v)).
Qed.

Lemma rebalance_evolves iter_names v disk :
  vd_evolves v (rebalance iter_names v disk).1 /\ vd_registry (rebalance iter_names v disk).1 = vd_registry v.
Proof.
  unfold rebalance. case_bool_decide; [done|]. destruct (sum_u64 _) as [tc|]; [|done]. destruct (sum_u64 _) as [tu|]; [|done].
  destruct (_ || _); [done|]. destruct (collect_outcome _) as [targets|]; [|done].
  set (over := map fst (List.filter (fun t => (0 <? t.2)%Z) _)). set (under := map fst (List.filter (fun t => (t.2 <? 0)%Z) _)).
  pose proof (fold_left_evolves (rebalance_file (vd_registry v) over under)
    (iter_names (Registry.files (vd_registry v))) (vd_stores v, 0) (fun st b => rebalance_file_evolves _ over under st b)) as Hev.
  destruct (fold_left _ _ _) as [st' n]. done.
Qed.

(** ** Rewriting *)

(** No more devices than the field has roots of unity for. *)
Definition small (v : vdisk) (disk : string) : Prop := Nat.log2_up (length (device_names v disk)) <= 32.

Lemma device_names_evolves v v' disk : vd_attachments v' = vd_attachments v -> device_names v' disk = device_names v disk.
Proof. unfold device_names, devices_of. by intros ->. Qed.

Lemma rechunk_loop_spec iter_stores clock disk k m copies files v :
  m <= 32 -> (forall st, iter_stores st ≡ₚ values_of st) -> vd_ok v ->
  let v' := (rechunk_loop iter_stores clock (device_names v disk) k (2 ^ m) copies v files).1 in
  vd_ok v' /\ vd_attachments v' = vd_attachments v /\
  forall name data, stored v name data -> (exists x y, collides x y) \/ stored v' name data.
Proof.
  intros Hm Hit. revert v. induction files as [|file files IH]; intros v Hok; [by auto|]. cbn [rechunk_loop].
  destruct (get_file v _ file) as [d|[|e]] eqn:Eg; [|by auto|].
  - pose proof (write_spec v disk k m file d (supersede clock v file) copies Hok Hm) as H.
    destruct (write_file _ _ _ _ _ _ _ _) as [v1 r]. destruct H as (Hok1 & Ha1 & _ & _ & Hoth & Hsame & _).
    assert (forall name data, stored v name data -> (exists x y, collides x y) \/ stored v1 name data) as H1.
    { intros name data Hst. destruct (decide (name = file)) as [->|Hne]; [|by right; apply Hoth].
      destruct (stored_readable v (iter_stores (vd_stores v)) file data (proj1 Hok) (Hit _) Hst) as [?|E]; [by left|].
      rewrite Eg in E. injection E as ->. right. by apply Hsame. }
    destruct r as [c|e]; [|done].
    specialize (IH v1 Hok1). rewrite (device_names_evolves v v1) in IH by done.
    destruct (rechunk_loop _ _ _ _ _ _ v1 files) as [v2 r2]. destruct IH as (Hok2 & Ha2 & H2).
    cbn [fst] in *. split; [done|]. split; [congruence|].
    intros name data Hst. destruct (H1 name data Hst) as [?|?]; [by left|by apply H2].
  - specialize (IH v Hok). destruct (rechunk_loop _ _ _ _ _ _ v files) as [v2 r2]. exact IH.
Qed.

Lemma rechunk_spec iter_stores iter_files clock v disk :
  small v disk -> (forall st, iter_stores st ≡ₚ values_of st) -> vd_ok v ->
  let v' := (rechunk iter_stores iter_files clock v disk).1 in
  vd_ok v' /\ forall name data, stored v name data -> (exists x y, collides x y) \/ stored v' name data.
Proof.
  intros Hsm Hit Hok. unfold rechunk. destruct (vd_disks v !! disk) as [config|]; [|by auto].
  case_bool_decide; [by auto|]. destruct (data_shards _ _) as [k|]; [|by auto].
  unfold next_power_of_two.
  set (copies := dk_shard_copies config). set (files := map _ _).
  by destruct (rechunk_loop_spec iter_stores clock disk k _ copies files v Hsm Hit Hok) as (H1 & _ & H2).
Qed.

(** ** Storing *)

Lemma put_file_eq v disk name data now :
  put_file v disk name data now =
    match vd_disks v !! disk with
    | None => (v, Err (Failed NoDisk))
    | Some config =>
        let n := length (device_names v disk) in
        if decide (n = 0) then (v, Err (Failed NoDevices))
        else if decide (n <= tolerance config n) then (v, Err Panicked)
        else write_file v (device_names v disk) (n - tolerance config n) (next_power_of_two n) name data now 1
    end.
Proof.
  unfold put_file. destruct (vd_disks v !! disk) as [config|]; [|done]. cbn zeta.
  case_bool_decide; case_decide; try done. rewrite data_shards_eq. repeat case_decide; try done; try lia.
  (* the tolerance is the number of devices: no data shard *)
  unfold write_file. rewrite encode_eq. rewrite (bool_decide_eq_false_2 (1 <= _)) by lia. by rewrite andb_false_r.
Qed.

Lemma next_power_ge n : 0 < n -> n <= next_power_of_two n.
Proof.
  intros Hn. unfold next_power_of_two. destruct (decide (n = 1)) as [->|]; [done|].
  pose proof (Nat.log2_up_spec n). lia.
Qed.

(** A valid number of data shards is coded without a panic. *)
Lemma encode_devices data k n : 1 <= k <= n -> exists shards, encode data k (next_power_of_two n) = Done shards.
Proof.
  intros Hk. rewrite encode_eq. replace (is_power_of_two _) with true
    by (symmetry; apply is_power_of_two_spec; unfold next_power_of_two; eauto).
  pose proof (next_power_ge n). rewrite !bool_decide_eq_true_2 by lia. eauto.
Qed.

Definition entry_of (v : vdisk) (disk name : string) (config : disk_config) (data : list byte) (now : N)
    (shards : list shard) : Registry.file_entry :=
  let n := length (device_names v disk) in
  file_entry_of name (length data) (n - tolerance config n) (next_power_of_two n)
    (map (fun s => to_hex (shash s)) shards) now (das_commit shards (n - tolerance config n) (length data)) 1.

(** Every shard of [shards] is on the device that its index names. *)
Definition placed (v v' : vdisk) (disk : string) (shards : list shard) : Prop :=
  forall s, s ∈ shards -> exists dev c, device_names v disk !! (sh_index s mod length (device_names v disk)) = Some dev /\
    vd_stores v' !! dev = Some c /\ has_chunk c (shash s).

Definition put_done (v v' : vdisk) (disk name : string) (data : list byte) (now : N) (c : das_commitment) : Prop :=
  exists config shards, let n := length (device_names v disk) in
    vd_disks v !! disk = Some config /\ tolerance config n < n /\
    encode data (n - tolerance config n) (next_power_of_two n) = Done shards /\
    c = das_commit shards (n - tolerance config n) (length data) /\ placed v v' disk shards /\
    vd_registry v' = Registry.insert (vd_registry v) (entry_of v disk name config data now shards).

Lemma put_spec v disk name data now :
  vd_ok v -> small v disk ->
  let '(v', r) := put_file v disk name data now in
  vd_ok v' /\ vd_attachments v' = vd_attachments v /\ vd_disks v' = vd_disks v /\
  grows (vd_stores v) (vd_stores v') /\
  (forall other data', other <> name -> stored v other data' -> stored v' other data') /\
  match r with
  | Ok c => put_done v v' disk name data now c
  | Err e => vd_registry v' = vd_registry v
  end.
Proof.
  intros Hok Hsm. rewrite put_file_eq. destruct (vd_disks v !! disk) as [config|] eqn:Ed; [|by split_and!]. cbn zeta.
  set (n := length (device_names v disk)). case_decide; [by split_and!|]. case_decide; [by split_and!|].
  pose proof (write_spec v disk (n - tolerance config n) _ name data now 1 Hok Hsm) as Hw.
  fold n in Hw. fold (next_power_of_two n) in Hw. destruct (write_file _ _ _ _ _ _ _ _) as [v' r].
  destruct Hw as (Hok' & Ha & Hd & Hg & Hoth & _ & Hr). do 5 (split; [done|]).
  destruct r as [c|e]; [|by destruct Hr]. destruct Hr as (shards & He & Hc & Hp & Hreg).
  exists config, shards. cbn zeta. fold n. split_and!; try done; [lia|]. unfold entry_of. fold n. by rewrite <-Hc.
Qed.

(** ** Losing devices *)

Definition alive (st : stores) (dev : string) : Prop := is_Some (st !! dev).
#[export] Instance alive_dec st dev : Decision (alive st dev).
Proof. unfold alive. apply _. Defined.

Lemma zip_filter_length {A B} (P : A -> Prop) `{!forall x, Decision (P x)} (l : list A) (k : list B) :
  length l = length k -> length (filter (fun p => P p.1) (zip l k)) = length (filter P l).
Proof.
  revert k. induction l as [|x l IH]; intros [|y k] Hl; try done. cbn [zip zip_with]. rewrite !filter_cons. cbn [fst].
  injection Hl as Hl. case_decide; simpl; by rewrite IH.
Qed.

(** What survives of a placed encoding: one shard for every attachment whose
    device survives. *)
Lemma placed_available v v' disk shards st k :
  st ⊆ vd_stores v' -> placed v v' disk shards ->
  (forall j s, shards !! j = Some s -> sh_index s = j) -> length (device_names v disk) <= length shards ->
  k <= length (filter (alive st) (device_names v disk)) -> available st k shards.
Proof.
  intros Hst Hp Hi Hl Hk. set (names := device_names v disk) in *. set (n := length names) in *.
  assert (length names = length (take n shards)) as Hlen by (rewrite length_take; lia).
  exists (snd <$> filter (fun p => alive st p.1) (zip names (take n shards))). split_and!.
  - apply sublist_submseteq. transitivity (take n shards); [|apply sublist_take].
    rewrite <-(snd_zip names (take n shards)) at 2 by lia. apply fmap_sublist, filter_sublist.
  - rewrite length_fmap, zip_filter_length; [done|exact Hlen].
  - apply Forall_fmap, Forall_forall. intros [dev s] [Halive Hin]%list_elem_of_filter. cbn [fst] in Halive. cbn [compose snd].
    apply list_elem_of_lookup in Hin as [j Hj]. apply lookup_zip_Some in Hj as [Hdev Hs].
    apply lookup_take_Some in Hs as [Hs Hjn]. pose proof (Hi j s Hs) as Hij.
    destruct (Hp s) as (dev' & c & Hdev' & Hc & Hh); [by eapply list_elem_of_lookup_2|].
    fold names n in Hdev'. rewrite Hij, Nat.mod_small in Hdev' by done. rewrite Hdev in Hdev'. injection Hdev' as <-.
    destruct Halive as [c' Hc']. exists dev, c'. split; [done|].
    assert (vd_stores v' !! dev = Some c') as E by (by eapply lookup_weaken). rewrite Hc in E. by injection E as ->.
Qed.

(** The clock has moved past the registered version of the file. *)
Definition later_than (v : vdisk) (name : string) (now : N) : Prop :=
  from_option (fun old => (Registry.fe_timestamp old < now)%N) True (Registry.files (vd_registry v) !! name).

Lemma put_stored v v' disk name data now c st :
  small v disk -> later_than v name now -> put_done v v' disk name data now c ->
  st ⊆ vd_stores v' -> dc_k c <= length (filter (alive st) (device_names v disk)) ->
  stored (set_stores v' st) name data.
Proof.
  intros Hsm Hl (config & shards & Hd & Ht & He & Hc & Hp & Hr) Hst Hk. set (n := length (device_names v disk)) in *.
  destruct (encode_indices _ _ _ _ He) as [Hlen Hi]. exists (entry_of v disk name config data now shards), shards. split_and!.
  - unfold set_stores. cbn [vd_registry]. rewrite Hr, insert_get, decide_True by done. unfold later_than in Hl.
    destruct (Registry.files (vd_registry v) !! name) as [old|]; [|done]. cbn [from_option] in Hl.
    unfold Registry.lww_newer. rewrite (proj2 (N.ltb_lt _ _)) by exact Hl. done.
  - split_and!; try done. by exists (Nat.log2_up n).
  - apply (placed_available v v' disk); try done; [rewrite Hlen; apply next_power_ge; lia|]. by rewrite Hc in Hk.
Qed.

Lemma all_alive v v' disk : vd_ok v' -> vd_attachments v' = vd_attachments v ->
  filter (alive (vd_stores v')) (device_names v disk) = device_names v disk.
Proof.
  intros Hok Ha. apply filter_every, Forall_forall. intros dev Hdev. apply (device_names_stored v' disk); [done|].
  by rewrite (device_names_evolves v).
Qed.

Lemma next_power_bounds n : 0 < n -> n <= next_power_of_two n < 2 * n.
Proof.
  intros Hn. split; [by apply next_power_ge|]. unfold next_power_of_two. destruct (decide (n = 1)) as [->|]; [simpl; lia|].
  destruct (Nat.log2_up_spec n ltac:(lia)) as [H _]. pose proof (Nat.log2_up_pos n ltac:(lia)).
  replace (Nat.log2_up n) with (S (Nat.pred (Nat.log2_up n))) by lia. rewrite Nat.pow_succ_r'. lia.
Qed.

(** ** Outcomes of storing *)

Lemma put_outcome v disk name data now :
  vd_ok v -> small v disk ->
  let '(v', r) := put_file v disk name data now in
  let n := length (device_names v disk) in
  match vd_disks v !! disk with
  | None => r = Err (Failed NoDisk) /\ v' = v
  | Some config =>
      (n = 0 -> r = Err (Failed NoDevices) /\ v' = v) /\
      (0 < n <= tolerance config n -> r = Err Panicked /\ v' = v) /\
      (tolerance config n < n ->
         (exists c, r = Ok c) \/ (exists e, r = Err (Failed (StoreError e)) /\ vd_registry v' = vd_registry v))
  end.
Proof.
  intros Hok Hsm. rewrite put_file_eq. destruct (vd_disks v !! disk) as [config|]; [|done]. cbn zeta.
  set (n := length (device_names v disk)). case_decide; [split_and!; [done|lia..]|].
  case_decide; [split_and!; [lia|done|lia]|].
  pose proof (write_spec v disk (n - tolerance config n) _ name data now 1 Hok Hsm) as Hw.
  fold n in Hw. fold (next_power_of_two n) in Hw. destruct (write_file _ _ _ _ _ _ _ _) as [v' r].
  split; [lia|]. split; [lia|]. intros _. destruct Hw as (_ & _ & _ & _ & _ & _ & Hr).
  destruct r as [c|e]; [left; eauto|right]. destruct Hr as [Hreg [[e' ->]|(_ & _ & [He|Hnil])]]; [eauto| |].
  - destruct (encode_devices data (n - tolerance config n) n) as [shards E]; [lia|congruence].
  - exfalso. subst n. rewrite Hnil in *. simpl in *. lia.
Qed.

Lemma status_message_panics v disk name data now s :
  vd_ok v -> small v disk -> status v disk = Ok s ->
  (put_file v disk name data now).2 = Err Panicked <-> exists more, ds_message s = NeedMore more (ds_f s).
Proof.
  intros Hok Hsm Hs. pose proof (put_outcome v disk name data now Hok Hsm) as Ho.
  destruct (put_file v disk name data now) as [v' r]. cbn [snd]. revert Hs. unfold status.
  destruct (vd_disks v !! disk) as [config|]; [|done]. cbn [ok_or may_fail map_err mbind result_bind].
  destruct (sum_u64 _); [|done]. intros [= <-]. cbn [ds_message ds_f].
  assert (length (devices_of v disk) = length (device_names v disk)) as -> by (symmetry; apply length_map).
  destruct Ho as (H1 & H2 & H3). set (n := length (device_names v disk)) in *.
  assert (match dk_redundancy config with Tolerate f => f | Max => if bool_decide (0 < n) then n - 1 else 0 end =
    tolerance config n) as -> by (unfold tolerance; destruct (dk_redundancy config); [done|]; case_bool_decide; lia).
  case_bool_decide as Hn0; [|case_bool_decide as Hn1].
  - destruct (H1 Hn0) as [-> _]. split; [done|]. by intros [? [=]].
  - destruct (H2 ltac:(lia)) as [-> _]. split; [by eauto|done].
  - split; [|case_bool_decide; by intros [? [=]]]. intros ->.
    destruct (H3 ltac:(lia)) as [[? [=]]|(? & [=] & _)].
Qed.

(** ** Runs *)

(** A directory holds chunks named by their digests. *)
Definition dir_named (dir : gmap string (list byte)) : Prop := map_Forall (fun name b => to_hex (hemera_hash b) = name) dir.

(** One operation on a manager, writing only files whose names satisfy [w]. *)
Inductive vd_step (w : string -> Prop) (v : vdisk) : vdisk -> Prop :=
| step_create config : vd_step w v (create_disk v config).1
| step_attach dir device disk capacity : dir_named dir -> vd_step w v (attach v dir device disk capacity).1
| step_put disk name data now : w name -> small v disk -> vd_step w v (put_file v disk name data now).1
| step_merge values : Forall (fun e => w (Registry.fe_name e)) values -> vd_step w v (merge_registry v values)
| step_rechunk iter_stores iter_files clock disk :
    small v disk -> (forall st, iter_stores st ≡ₚ values_of st) ->
    vd_step w v (rechunk iter_stores iter_files clock v disk).1
| step_rebalance iter_names disk : vd_step w v (rebalance iter_names v disk).1.

Lemma merge_other name g values :
  Forall (fun e => name <> Registry.fe_name e) values -> Registry.get (Registry.merge g values) name = Registry.get g name.
Proof.
  unfold Registry.merge. intros H. revert g. induction H as [|e values Hne _ IH]; intros g; [done|]. simpl. rewrite IH.
  change (Registry.lww_insert g e) with (Registry.insert g e). by rewrite insert_get, decide_False.
Qed.

Lemma attach_evolves v dir device disk capacity :
  dir_named dir -> let v' := (attach v dir device disk capacity).1 in
  vd_registry v' = vd_registry v /\ grows (vd_stores v) (vd_stores v') /\ (vd_ok v -> vd_ok v').
Proof.
  intros Hdir. unfold attach. destruct (negb _); [done|]. cbn zeta. split; [done|]. cbn [fst vd_stores].
  set (new := Chunks.store_new dir capacity). case_bool_decide as Hd; split.
  - done.
  - intros [Hn Ha]. split; [done|]. intros a [Hin| ->%list_elem_of_singleton]%elem_of_app; [by apply Ha|exact Hd].
  - intros d x Hx. exists x. split; [|done]. rewrite lookup_insert_ne; [done|]. intros ->. apply Hd. by exists x.
  - intros [Hn Ha]. split; [apply map_Forall_insert_2; [split; [exact Hdir|apply map_Forall_empty]|done]|].
    intros a Hin. cbn [vd_stores]. destruct (decide (da_device_name a = device)) as [E|Hne]; [rewrite E, lookup_insert_eq; eauto|].
    rewrite lookup_insert_ne by done. apply elem_of_app in Hin as [Hin| ->%list_elem_of_singleton]; [by apply Ha|done].
Qed.

Lemma step_ok w v v' : vd_step w v v' -> vd_ok v ->
  vd_ok v' /\ forall name data, ~ w name -> stored v name data -> (exists x y, collides x y) \/ stored v' name data.
Proof.
  intros [config|dir device disk capacity Hdir|disk name data now Hw Hsm|values Hv|ists ifl clock disk Hsm Hit|itn disk] Hok.
  - unfold create_disk. case_bool_decide; by auto.
  - destruct (attach_evolves v dir device disk capacity Hdir) as (Hr & Hg & Hok'). split; [by apply Hok'|].
    intros name data _ Hst. right. apply (stored_grows v); [done|by rewrite Hr|done].
  - pose proof (put_spec v disk name data now Hok Hsm) as Hp. destruct (put_file v disk name data now) as [v1 r].
    destruct Hp as (Hok' & _ & _ & _ & Hoth & _). split; [done|]. intros other d Hn Hst. right. apply Hoth; [|done]. by intros ->.
  - split; [done|]. intros name data Hn Hst. right. apply (stored_grows v); [done| |done]. apply merge_other.
    eapply Forall_impl; [exact Hv|]. by intros e He ->.
  - destruct (rechunk_spec ists ifl clock v disk Hsm Hit Hok) as [Hok' Hk]. split; [done|]. intros name data _. apply Hk.
  - destruct (rebalance_evolves itn v disk) as [He Hr]. split; [by eapply vd_ok_evolves|]. intros name data _ Hst. right.
    apply (stored_grows v); [by destruct He as [[_ ?] _]|by rewrite Hr|done].
Qed.

Lemma steps_ok w v v' : rtc (vd_step w) v v' -> vd_ok v ->
  vd_ok v' /\ forall name data, ~ w name -> stored v name data -> (exists x y, collides x y) \/ stored v' name data.
Proof.
  induction 1 as [v|v1 v2 v3 H12 _ IH]; intros Hok; [by auto|]. destruct (step_ok w v1 v2 H12 Hok) as [Hok2 H2].
  destruct (IH Hok2) as [Hok3 H3]. split; [done|]. intros name data Hn Hst.
  destruct (H2 name data Hn Hst) as [?|?]; [by left|by apply H3].
Qed.

Lemma vdisk_new_ok : vd_ok vdisk_new.
Proof. split; [apply map_Forall_empty|]. intros a Ha. by apply elem_of_nil in Ha. Qed.

(** ** Properties *)

(** C38: storing a file answers every manager in the documented way: an
    unknown disk and a disk without devices are refused and nothing changes; a
    tolerance that leaves no data shard panics, which is exactly when [status]
    asks for more devices; otherwise the file is coded over the devices and
    registered, or a device has no room and the registry stays as it was.
    Whatever happens, no device loses a chunk. *)
Theorem put_file_outcomes v disk name data now :
  vd_ok v -> small v disk ->
  let '(v', r) := put_file v disk name data now in
  let n := length (device_names v disk) in
  vd_ok v' /\ grows (vd_stores v) (vd_stores v') /\
  match vd_disks v !! disk with
  | None => r = Err (Failed NoDisk) /\ v' = v
  | Some config =>
      (n = 0 -> r = Err (Failed NoDevices) /\ v' = v) /\
      (0 < n <= tolerance config n -> r = Err Panicked /\ v' = v) /\
      (tolerance config n < n ->
         (exists c, r = Ok c /\ dc_k c + tolerance config n = n /\ n <= dc_n c < 2 * n /\ dc_original_len c = length data) \/
         (exists e, r = Err (Failed (StoreError e)) /\ vd_registry v' = vd_registry v))
  end /\
  forall s, status v disk = Ok s -> r = Err Panicked <-> exists more, ds_message s = NeedMore more (ds_f s).
Proof.
  intros Hok Hsm. pose proof (put_spec v disk name data now Hok Hsm) as Hp.
  pose proof (put_outcome v disk name data now Hok Hsm) as Ho.
  pose proof (fun s => status_message_panics v disk name data now s Hok Hsm) as Hs.
  destruct (put_file v disk name data now) as [v' r]. destruct Hp as (Hok' & _ & _ & Hg & _ & Hr).
  split; [done|]. split; [done|]. split; [|exact Hs].
  destruct (vd_disks v !! disk) as [config|] eqn:Ed; [|done]. destruct Ho as (H1 & H2 & H3).
  split; [done|]. split; [done|]. intros Ht. destruct (H3 Ht) as [[c ->]|?]; [left|by right].
  destruct Hr as (config' & shards & Hd & _ & He & -> & _). rewrite Ed in Hd. injection Hd as <-.
  destruct (encode_indices _ _ _ _ He) as [Hl _]. eexists. split; [done|]. cbn [das_commit dc_k dc_n dc_original_len].
  rewrite Hl. split; [lia|]. split; [|done]. by apply next_power_bounds; lia.
Qed.


End run.

(** ** A disk of three devices *)

Definition ex_data : list byte := [x01; x02; x03; x04; x05; x06; x07; x08; x09].
Definition ex_config : disk_config := mk_config "work" (Tolerate 1) Active Lru 1.
Definition ex_v1 : vdisk := (create_disk vdisk_new ex_config).1.
Definition ex_v2 : vdisk := (attach ex_v1 ∅ "laptop" "work" 1000).1.
Definition ex_v3 : vdisk := (attach ex_v2 ∅ "phone" "work" 1000).1.
Definition ex_disk : vdisk := (attach ex_v3 ∅ "server" "work" 1000).1.
Definition ex_put : vdisk := (put_file ex_disk "work" "notes" ex_data 100).1.
Definition ex_commitment : das_commitment :=
  match (put_file ex_disk "work" "notes" ex_data 100).2 with Ok c => c | Err _ => mk_das [] zero32 0 0 0 end.

Lemma ex_history : rtc (vd_step (fun _ => True)) vdisk_new ex_disk.
Proof.
  apply (rtc_l _ _ ex_v1); [apply step_create|].
  apply (rtc_l _ _ ex_v2); [apply step_attach, map_Forall_empty|].
  apply (rtc_l _ _ ex_v3); [apply step_attach, map_Forall_empty|].
  apply rtc_once, step_attach, map_Forall_empty.
Qed.
Lemma ex_small : small ex_disk "work".
Proof. unfold small. apply (bool_decide_eq_true_1 _). by_vm. Qed.
Lemma ex_put_ok : put_file ex_disk "work" "notes" ex_data 100 = (ex_put, Ok ex_commitment).
Proof. by_vm. Qed.

Lemma put_file_outcomes_witness :
  (put_file ex_disk "work" "notes" ex_data 100).2 = Err Panicked <->
  exists more, ds_message (mk_status "work" 3 3000 2 3 1 (f64_div (f64_of_u64 3) (f64_of_u64 2)) true (HealthyWith 1)) = NeedMore more 1.
Proof.
  pose proof (put_file_outcomes ex_disk "work" "notes" ex_data 100 (proj1 (steps_ok _ _ _ ex_history vdisk_new_ok)) ex_small) as H.
  rewrite (surjective_pairing (put_file _ _ _ _ _)) in H. destruct H as (_ & _ & _ & H). apply H. by_vm.
Defined.


