(* ===== verification/Radio.v ===== *)
(** * Radio: settlement gossip over iroh (src/radio_settle.rs)

    [radio_state] is the state a node shares between its inbound streams and
    its callers: inbox, seen set, subscriptions and peer book.
    [handle_inbound] reads a stream in pieces and ingests the messages of its
    frames; [publish_radio] ingests locally and pushes the frame to every
    peer.  iroh's identifiers and addresses are the class [Iroh]; a push to a
    peer is an argument, as is what arrives between two polls. *)

From S2P Require Import Prelude Order Bytes Externals Goldilocks Instances Settlement Tickets Seals Vdf Beacon Rewards Gossip Wire.

(** [EndpointId], [EndpointAddr], [addr.id] and [EndpointAddr::new]. *)
Class Iroh := {
  endpoint_id : Type;
  endpoint_id_dec :: EqDecision endpoint_id;
  endpoint_id_countable :: Countable endpoint_id;
  endpoint_addr : Type;
  addr_id : endpoint_addr -> endpoint_id;
  addr_new : endpoint_id -> endpoint_addr
}.

Section radio.
Context {HM : Hemera} {NB : Nebu} {FX : Fixed} {TR : Tru} {ZH : Zheng} {TK : Tok} {IR : Iroh}.

Record radio_state := mk_radio {
  rs_inbox : list settle_msg;
  rs_seen : gset particle;
  rs_subs : gset particle;
  rs_peers : gmap endpoint_id endpoint_addr
}.
Definition radio_default : radio_state := mk_radio [] ∅ ∅ ∅.

Definition set_radio_inbox (st : radio_state) (inbox : list settle_msg) : radio_state :=
  mk_radio inbox (rs_seen st) (rs_subs st) (rs_peers st).

(** The subscriptions admit the message. *)
Definition admits (st : radio_state) (m : settle_msg) : bool :=
  bool_decide (rs_subs st = ∅) || bool_decide (msg_topic m ∈ rs_subs st).

Definition ingest (st : radio_state) (m : settle_msg) : radio_state :=
  if negb (admits st m) then st
  else if bool_decide (content_id m ∈ rs_seen st) then st
  else mk_radio (rs_inbox st ++ [m]) ({[content_id m]} ∪ rs_seen st) (rs_subs st) (rs_peers st).

(** ** Inbound streams *)

(** What one read of the stream gives. *)
Inductive read_event := ReadData (bytes : list byte) | ReadEof | ReadFailed.

(** A frame whose body does not decode is dropped. *)
Definition ingest_frame (st : radio_state) (frame : list byte) : radio_state :=
  match decode_settle_msg frame with Some m => ingest st m | None => st end.

(** [while let Some((frame, rest)) = split_frame(&buf)]; a frame takes at
    least four bytes, so the length of the buffer is fuel enough. *)
Fixpoint split_loop (fuel : nat) (st : radio_state) (buf : list byte) : outcome (radio_state * list byte) :=
  match split_frame buf, fuel with
  | None, _ => Done (st, buf)
  | Some _, 0 => Panic
  | Some (frame, rest), S fuel => split_loop fuel (ingest_frame st frame) rest
  end.

(** The loop over the reads; an error ends it, and its caller ignores it. *)
Fixpoint inbound_loop (st : radio_state) (buf : list byte) (events : list read_event) : outcome radio_state :=
  match events with
  | ReadData [] :: _ | ReadEof :: _ | ReadFailed :: _ | [] => Done st
  | ReadData bytes :: events =>
      let buf := buf ++ bytes in
      '(st, buf) ← split_loop (length buf) st buf;
      inbound_loop st buf events
  end.
Definition handle_inbound (st : radio_state) (events : list read_event) : outcome radio_state := inbound_loop st [] events.

(** ** Operations *)

Definition add_peer_addr (st : radio_state) (addr : endpoint_addr) : radio_state :=
  mk_radio (rs_inbox st) (rs_seen st) (rs_subs st) (<[addr_id addr := addr]> (rs_peers st)).
Definition add_peer_id (st : radio_state) (id : endpoint_id) : radio_state :=
  match rs_peers st !! id with
  | Some _ => st
  | None => mk_radio (rs_inbox st) (rs_seen st) (rs_subs st) (<[id := addr_new id]> (rs_peers st))
  end.
Definition subscribe_radio (st : radio_state) (topic : particle) : radio_state :=
  mk_radio (rs_inbox st) (rs_seen st) ({[topic]} ∪ rs_subs st) (rs_peers st).

(** The peers' addresses; the order of the pushes is left to the map. *)
Definition peer_addrs (st : radio_state) : list endpoint_addr := (map_to_list (rs_peers st)).*2.

(** [push] tells which pushes of the frame succeed. *)
Definition publish_radio (me : endpoint_id) (push : endpoint_addr -> list byte -> bool) (st : radio_state) (m : settle_msg)
    : radio_state * nat :=
  let frame := encode_frame (encode_settle_msg m) in
  let st := ingest st m in
  let sent := List.filter (fun peer => negb (bool_decide (addr_id peer = me)) && push peer frame) (peer_addrs st) in
  (st, length sent).

Definition drain_radio (st : radio_state) : radio_state * list settle_msg := (set_radio_inbox st [], rs_inbox st).

(** Take the matching messages out and queue the others again; [arrived] is
    what is ingested between the two locks. *)
Definition collect_radio {A} (pick : settle_msg -> option A) (arrived : list settle_msg) (st : radio_state)
    : radio_state * list A :=
  let '(st, msgs) := drain_radio st in
  let rest := List.filter (fun m => bool_decide (pick m = None)) msgs in
  let st := fold_left ingest arrived st in
  (set_radio_inbox st (rs_inbox st ++ rest), omap pick msgs).

Definition pick_acc (topic : particle) (m : settle_msg) : option cluster_acc :=
  match m with SelfAcc t _ acc => if decide (t = topic) then Some acc else None | _ => None end.
Definition pick_claim (topic : particle) (m : settle_msg) : option reward_claim :=
  match m with ClaimAnnounce t _ _ c => if decide (t = topic) then Some c else None | _ => None end.
Definition collect_self_accs (arrived : list settle_msg) (st : radio_state) (topic : particle)
    : radio_state * list cluster_acc := collect_radio (pick_acc topic) arrived st.
Definition collect_claims (arrived : list settle_msg) (st : radio_state) (topic : particle)
    : radio_state * list reward_claim := collect_radio (pick_claim topic) arrived st.

(** [accs.retain(|a| seen.insert(a.commitment))] *)
Fixpoint retain_new (seen : gset particle) (accs : list cluster_acc) : list cluster_acc :=
  match accs with
  | [] => []
  | a :: accs =>
      if bool_decide (ac_commitment a ∈ seen) then retain_new seen accs
      else a :: retain_new ({[ac_commitment a]} ∪ seen) accs
  end.

(** One poll per element of [ticks] until the timeout: what is ingested during
    the poll and while the caller sleeps. *)
Fixpoint wait_loop (topic : particle) (want : nat) (ticks : list (list settle_msg * list settle_msg)) (accs : list cluster_acc)
    (st : radio_state) : radio_state * list cluster_acc :=
  match ticks with
  | [] => (st, accs)
  | (during, slept) :: ticks =>
      let '(st, batch) := collect_self_accs during st topic in
      let accs := retain_new ∅ (accs ++ batch) in
      if bool_decide (want <= length accs) then (st, accs)
      else wait_loop topic want ticks accs (fold_left ingest slept st)
  end.
Definition wait_self_accs (st : radio_state) (topic : particle) (want : nat) (ticks : list (list settle_msg * list settle_msg))
    : radio_state * list cluster_acc := wait_loop topic want ticks [] st.

(** ** Sessions *)

Record radio_session := mk_session { se_topic : particle; se_miner : particle }.

Definition join_topic (s : radio_session) (st : radio_state) : radio_state := subscribe_radio st (se_topic s).

Section session.
Variables (me : endpoint_id) (push : endpoint_addr -> list byte -> bool).
Definition announce_claim (s : radio_session) (st : radio_state) (claim : reward_claim) : radio_state * nat :=
  publish_radio me push st (claim_announce (se_topic s) claim).
Definition publish_self_acc (s : radio_session) (st : radio_state) (acc : cluster_acc) : radio_state * nat :=
  publish_radio me push st (SelfAcc (se_topic s) (se_miner s) acc).
Definition announce_receipt (s : radio_session) (st : radio_state) (receipt_hash : particle) (epoch : N) : radio_state * nat :=
  publish_radio me push st (ReceiptHash (se_topic s) receipt_hash epoch).
End session.
Definition session_peer_accs (s : radio_session) (st : radio_state) (want : nat) (ticks : list (list settle_msg * list settle_msg))
    : radio_state * list cluster_acc := wait_self_accs st (se_topic s) want ticks.
End radio.

(** ** Streams *)

Section streams.
Context {HM : Hemera} {NB : Nebu} {FX : Fixed} {TR : Tru} {ZH : Zheng} {TK : Tok} {IR : Iroh}.

(** [buf] is the frames [fs] followed by an incomplete one. *)
Inductive framed : list byte -> list (list byte) -> list byte -> Prop :=
| framed_end buf : split_frame buf = None -> framed buf [] buf
| framed_next buf f rest fs last : split_frame buf = Some (f, rest) -> framed rest fs last -> framed buf (f :: fs) last.

Lemma split_frame_shrinks buf f rest : split_frame buf = Some (f, rest) -> 4 + length rest <= length buf.
Proof. intros (len & -> & Hl & _)%split_frame_cut. rewrite !length_app. lia. Qed.

Lemma split_frame_app buf f rest more : split_frame buf = Some (f, rest) -> split_frame (buf ++ more) = Some (f, rest ++ more).
Proof.
  intros E. pose proof (split_frame_cut _ _ _ E) as (len & -> & Hl & Hn). unfold split_frame.
  rewrite <-!app_assoc, take_app_length' by done. rewrite Hn, Nat2N.id.
  rewrite !bool_decide_eq_false_2 by (rewrite !length_app; lia).
  rewrite (drop_app_length' len) by done. rewrite take_app_length.
  rewrite app_assoc, drop_app_length' by (rewrite length_app; lia). done.
Qed.

Lemma framed_total buf : exists fs last, framed buf fs last.
Proof.
  remember (length buf) as n eqn:E. revert buf E. induction n as [n IH] using lt_wf_ind. intros buf ->.
  destruct (split_frame buf) as [[f rest]|] eqn:Es; [|exists [], buf; by constructor].
  pose proof (split_frame_shrinks _ _ _ Es). destruct (IH (length rest) ltac:(lia) rest eq_refl) as (fs & last & Hf).
  exists (f :: fs), last. by econstructor.
Qed.

Lemma framed_app buf fs last more fs' last' :
  framed buf fs last -> framed (last ++ more) fs' last' -> framed (buf ++ more) (fs ++ fs') last'.
Proof.
  induction 1 as [buf Hb|buf f rest fs last Hs _ IH]; intros H'; [done|]. simpl. econstructor; [|by apply IH].
  by apply split_frame_app.
Qed.

Lemma framed_last buf fs last : framed buf fs last -> split_frame last = None.
Proof. by induction 1. Qed.

Lemma framed_length buf fs last : framed buf fs last -> length fs <= length buf.
Proof. induction 1 as [|buf f rest fs last Hs _ IH]; simpl; [lia|]. apply split_frame_shrinks in Hs. lia. Qed.

Lemma framed_det buf fs last fs' last' : framed buf fs last -> framed buf fs' last' -> fs = fs' /\ last = last'.
Proof.
  intros H. revert fs' last'. induction H as [buf Hb|buf f rest fs last Hs _ IH]; intros fs' last' H'; inversion H'; simplify_eq; try done.
  match goal with H : framed rest _ _ |- _ => destruct (IH _ _ H) as [-> ->] end. done.
Qed.

Lemma split_loop_framed fuel st buf fs last :
  framed buf fs last -> length fs <= fuel -> split_loop fuel st buf = Done (fold_left ingest_frame fs st, last).
Proof.
  intros H. revert fuel st. induction H as [buf Hb|buf f rest fs last Hs _ IH]; intros fuel st Hf.
  - destruct fuel; simpl; by rewrite Hb.
  - destruct fuel as [|fuel]; simpl in Hf; [lia|]. cbn [split_loop]. rewrite Hs. rewrite IH by lia. done.
Qed.

(** Reading in pieces ingests the frames of the whole, whatever ends it. *)
Lemma inbound_pieces st buf pieces tail fs last :
  split_frame buf = None -> Forall (fun p => p <> []) pieces -> framed (buf ++ concat pieces) fs last ->
  inbound_loop st buf (map ReadData pieces ++ tail) = inbound_loop (fold_left ingest_frame fs st) last tail.
Proof.
  intros Hb Hp. revert st buf fs last Hb. induction Hp as [|p pieces Hp _ IH]; intros st buf fs last Hb Hf.
  - simpl in *. rewrite app_nil_r in Hf. destruct (framed_det buf [] buf fs last) as [<- <-]; [by constructor|done|done].
  - cbn [map app concat] in *. destruct p as [|b p]; [done|]. cbn [inbound_loop].
    destruct (framed_total (buf ++ b :: p)) as (fs1 & last1 & H1).
    rewrite (split_loop_framed _ _ _ fs1 last1) by (done || by eapply framed_length).
    cbn [mbind outcome_bind]. destruct (framed_total (last1 ++ concat pieces)) as (fs2 & last2 & H2).
    assert (framed (buf ++ (b :: p) ++ concat pieces) (fs1 ++ fs2) last2) as H12.
    { rewrite app_assoc. by apply (framed_app _ _ last1). }
    destruct (framed_det _ _ _ _ _ H12 Hf) as [<- <-]. rewrite (IH _ _ fs2 last2); [|by eapply framed_last|done].
    by rewrite fold_left_app.
Qed.

Context {NL : NebuLaws} {FR : FxRawLaws}.

Definition frame_of (m : settle_msg) : list byte := encode_frame (encode_settle_msg m).
(** The codec carries the message and its frame. *)
Definition sendable (m : settle_msg) : Prop := msg_wf m /\ is_u32 (N.of_nat (length (encode_settle_msg m))).

Lemma framed_messages msgs partial :
  Forall sendable msgs -> split_frame partial = None ->
  framed (concat (map frame_of msgs) ++ partial) (map encode_settle_msg msgs) partial.
Proof.
  intros Hm Hp. induction Hm as [|m msgs [Hm Hl] _ IH]; [by constructor|]. cbn [map concat]. rewrite <-app_assoc.
  econstructor; [by apply split_encode_frame|done].
Qed.

Lemma ingest_encoded msgs st : Forall sendable msgs -> fold_left ingest_frame (map encode_settle_msg msgs) st = fold_left ingest msgs st.
Proof.
  intros Hm. revert st. induction Hm as [|m msgs [Hm _] _ IH]; intros st; [done|]. cbn [map fold_left]. rewrite IH. f_equal.
  unfold ingest_frame. rewrite <-(app_nil_r (encode_settle_msg m)). by rewrite decode_encode_msg.
Qed.
End streams.

(** ** Runs *)

Section runs.
Context {HM : Hemera} {NB : Nebu} {FX : Fixed} {TR : Tru} {ZH : Zheng} {TK : Tok} {IR : Iroh}.

(** The state after some calls, and the messages handed to callers. *)
Inductive radio_run : radio_state -> list settle_msg -> Prop :=
| run_new : radio_run radio_default []
| run_inbound st log events st' : radio_run st log -> handle_inbound st events = Done st' -> radio_run st' log
| run_subscribe st log topic : radio_run st log -> radio_run (subscribe_radio st topic) log
| run_peer_addr st log addr : radio_run st log -> radio_run (add_peer_addr st addr) log
| run_peer_id st log id : radio_run st log -> radio_run (add_peer_id st id) log
| run_publish st log me push m : radio_run st log -> radio_run (publish_radio me push st m).1 log
| run_drain st log : radio_run st log -> radio_run (drain_radio st).1 (log ++ (drain_radio st).2)
| run_accs st log arrived topic : radio_run st log ->
    radio_run (collect_self_accs arrived st topic).1
      (log ++ List.filter (fun m => negb (bool_decide (pick_acc topic m = None))) (rs_inbox st))
| run_claims st log arrived topic : radio_run st log ->
    radio_run (collect_claims arrived st topic).1
      (log ++ List.filter (fun m => negb (bool_decide (pick_claim topic m = None))) (rs_inbox st)).

(** Nothing twice, and what was seen is what was kept or handed out. *)
Definition radio_inv (st : radio_state) (log : list settle_msg) : Prop :=
  NoDup (map content_id (log ++ rs_inbox st)) /\
  forall id, id ∈ rs_seen st <-> id ∈ map content_id (log ++ rs_inbox st).

Lemma ingest_inv st log m : radio_inv st log -> radio_inv (ingest st m) log.
Proof.
  intros [Hn Hs]. unfold ingest. destruct (negb _); [done|]. case_bool_decide as Hc; [done|].
  unfold radio_inv. cbn [rs_inbox rs_seen]. rewrite app_assoc, map_app.
  change (map content_id [m]) with [content_id m]. split.
  - apply NoDup_app. split; [done|]. split; [|apply NoDup_singleton].
    intros x Hx ->%list_elem_of_singleton. by apply Hc, Hs.
  - intros id. rewrite elem_of_union, elem_of_singleton, Hs, elem_of_app, list_elem_of_singleton. tauto.
Qed.

Lemma fold_ingest_inv msgs st log : radio_inv st log -> radio_inv (fold_left ingest msgs st) log.
Proof. revert st. induction msgs as [|m msgs IH]; intros st Hi; [done|]. by apply IH, ingest_inv. Qed.

Lemma fold_frame_inv fs st log : radio_inv st log -> radio_inv (fold_left ingest_frame fs st) log.
Proof.
  revert st. induction fs as [|f fs IH]; intros st Hi; [done|]. apply IH. unfold ingest_frame.
  destruct (decode_settle_msg f); [by apply ingest_inv|done].
Qed.

(** Any events: the loop ends without exhausting its fuel. *)
Lemma inbound_frames st buf events : exists fs, inbound_loop st buf events = Done (fold_left ingest_frame fs st).
Proof.
  revert st buf. induction events as [|[[|b p]| |] events IH]; intros st buf; try by exists [].
  cbn [inbound_loop]. destruct (framed_total (buf ++ b :: p)) as (fs1 & last & H1).
  rewrite (split_loop_framed _ _ _ fs1 last) by (done || by eapply framed_length). cbn [mbind outcome_bind].
  destruct (IH (fold_left ingest_frame fs1 st) last) as [fs2 E]. exists (fs1 ++ fs2). rewrite E. by rewrite fold_left_app.
Qed.

Lemma filter_split {A} (p : A -> bool) (l : list A) : List.filter (fun x => negb (p x)) l ++ List.filter p l ≡ₚ l.
Proof.
  induction l as [|x l IH]; [done|]. simpl. destruct (p x); simpl; [|by rewrite IH].
  by rewrite <-Permutation_middle, IH.
Qed.

Lemma radio_inv_perm st st' log log' :
  log ++ rs_inbox st ≡ₚ log' ++ rs_inbox st' -> rs_seen st = rs_seen st' -> radio_inv st log -> radio_inv st' log'.
Proof.
  intros Hp Hs [Hn Hi]. split; [by rewrite <-(Permutation_map content_id Hp)|].
  intros id. rewrite <-Hs, Hi. by rewrite (Permutation_map content_id Hp).
Qed.

(** Between the two locks of a collection the other messages are in flight:
    neither in the inbox nor handed out. *)
Lemma collect_inv {A} (pick : settle_msg -> option A) arrived st log :
  radio_inv st log ->
  radio_inv (collect_radio pick arrived st).1 (log ++ List.filter (fun m => negb (bool_decide (pick m = None))) (rs_inbox st)).
Proof.
  intros Hi. unfold collect_radio, drain_radio. cbn [fst].
  set (p := fun m => bool_decide (pick m = None)).
  set (taken := List.filter (fun m => negb (bool_decide (pick m = None))) (rs_inbox st)).
  assert (radio_inv (set_radio_inbox st []) (log ++ taken ++ List.filter p (rs_inbox st))) as H0.
  { apply (radio_inv_perm st _ log); [|done|done]. simpl. rewrite app_nil_r. f_equiv. symmetry. apply filter_split. }
  apply (fold_ingest_inv arrived) in H0. refine (radio_inv_perm _ _ _ _ _ _ H0); [|done]. simpl.
  rewrite <-!app_assoc. f_equiv. f_equiv. apply Permutation_app_comm.
Qed.

Lemma radio_run_inv st log : radio_run st log -> radio_inv st log.
Proof.
  induction 1 as [|st log events st' _ IH E|st log topic _ IH|st log addr _ IH|st log id _ IH|st log me push m _ IH
    |st log _ IH|st log arrived topic _ IH|st log arrived topic _ IH].
  - split; [constructor|]. intros id. simpl. set_solver.
  - unfold handle_inbound in E. destruct (inbound_frames st [] events) as [fs E']. rewrite E' in E. injection E as <-.
    by apply fold_frame_inv.
  - done.
  - done.
  - unfold add_peer_id. by destruct (rs_peers st !! id).
  - by apply ingest_inv.
  - refine (radio_inv_perm _ _ _ _ _ _ IH); [|done]. simpl. by rewrite app_nil_r.
  - by apply collect_inv.
  - by apply collect_inv.
Qed.

Lemma retain_new_spec accs seen :
  NoDup (map ac_commitment (retain_new seen accs)) /\ forall a, a ∈ retain_new seen accs -> ac_commitment a ∉ seen.
Proof.
  revert seen. induction accs as [|a accs IH]; intros seen; simpl.
  { split; [constructor|]. intros x Hx. by apply elem_of_nil in Hx. }
  case_bool_decide as Hs; [apply IH|]. destruct (IH ({[ac_commitment a]} ∪ seen)) as [Hn Hf]. split.
  - simpl. constructor; [|done]. intros (x & E & Hx)%list_elem_of_fmap. apply Hf in Hx. set_solver.
  - intros x [->|Hx]%elem_of_cons; [done|]. apply Hf in Hx. set_solver.
Qed.

Lemma wait_loop_distinct topic want ticks accs st :
  NoDup (map ac_commitment accs) -> NoDup (map ac_commitment (wait_loop topic want ticks accs st).2).
Proof.
  revert accs st. induction ticks as [|[during slept] ticks IH]; intros accs st Hn; [done|]. cbn [wait_loop].
  destruct (collect_self_accs during st topic) as [st1 batch].
  assert (NoDup (map ac_commitment (retain_new ∅ (accs ++ batch)))) as H1 by apply retain_new_spec.
  case_bool_decide; [done|]. by apply IH.
Qed.

Lemma ingest_known st m : admits st m = false \/ content_id m ∈ rs_seen st -> ingest st m = st.
Proof. unfold ingest. intros [->|H]; [done|]. destruct (negb _); [done|]. by rewrite bool_decide_eq_true_2. Qed.
End runs.

(** ** Properties *)

Section properties.
Context {HM : Hemera} {NB : Nebu} {FX : Fixed} {TR : Tru} {ZH : Zheng} {TK : Tok} {IR : Iroh} {NL : NebuLaws} {FR : FxRawLaws}.

(** C34: however the network cuts a stream into pieces, the receiver ingests
    exactly the messages whose frames were sent, in order, once the stream
    ends or breaks, and an incomplete last frame is dropped; no stream of
    bytes can make the loop fail or run forever; and a publication pushes that
    frame to exactly the known peers other than the publisher itself, counting
    the pushes that succeed. *)
Theorem radio_streams (msgs : list settle_msg) (partial : list byte) (pieces : list (list byte)) (st : radio_state)
    (tail : list read_event) :
  Forall sendable msgs -> Forall (fun p => p <> []) pieces -> split_frame partial = None ->
  concat pieces = concat (map frame_of msgs) ++ partial -> (forall bytes rest, tail <> ReadData bytes :: rest) ->
  handle_inbound st (map ReadData pieces ++ tail) = Done (fold_left ingest msgs st) /\
  (forall events, handle_inbound st events <> Panic) /\
  (forall me push m, publish_radio me push st m =
     (ingest st m, length (List.filter (fun a => negb (bool_decide (addr_id a = me)) && push a (frame_of m)) (peer_addrs st)))).
Proof.
  intros Hm Hp Hpart Hcat Htail. split; [|split].
  - unfold handle_inbound. rewrite (inbound_pieces st [] pieces tail (map encode_settle_msg msgs) partial); [|done|done|].
    + rewrite ingest_encoded by done. destruct tail as [|[bytes| |] tail]; try done. by destruct (Htail bytes tail).
    + simpl. rewrite Hcat. by apply framed_messages.
  - intros events E. destruct (inbound_frames st [] events) as [fs E']. unfold handle_inbound in E. by rewrite E' in E.
  - intros me push m. unfold publish_radio. f_equal. f_equal. f_equal. unfold ingest.
    destruct (negb _); [done|]. by case_bool_decide.
Qed.

(** C36: in every run of a radio - inbound streams, publications, drains and
    collections, interleaved in any order - a content is handed to the callers
    or waiting in the inbox at most once, nothing seen is lost, an admitted
    message is available after it is ingested and a repeated or unsubscribed
    one changes nothing; collecting takes exactly the accumulators of the topic
    and keeps the rest; and waiting yields distinct commitments only. *)
Theorem radio_exactly_once (st : radio_state) (log : list settle_msg) :
  radio_run st log ->
  NoDup (map content_id (log ++ rs_inbox st)) /\
  (forall id, id ∈ rs_seen st <-> id ∈ map content_id (log ++ rs_inbox st)) /\
  (forall m, admits st m = true -> content_id m ∈ map content_id (log ++ rs_inbox (ingest st m))) /\
  (forall m, admits st m = false \/ content_id m ∈ rs_seen st -> ingest st m = st) /\
  (forall arrived topic m, m ∈ rs_inbox st ->
     let '(st', accs) := collect_self_accs arrived st topic in
     m ∈ rs_inbox st' \/ exists miner acc, m = SelfAcc topic miner acc /\ acc ∈ accs) /\
  (forall topic want ticks, NoDup (map ac_commitment (wait_self_accs st topic want ticks).2)).
Proof.
  intros Hrun. pose proof (radio_run_inv st log Hrun) as [Hn Hs]. split; [done|]. split; [done|]. split; [|split; [|split]].
  - intros m Ha. apply (ingest_inv st log m). { by split. }
    unfold ingest. rewrite Ha. cbn [negb]. case_bool_decide as Hc; [done|]. cbn [rs_seen]. set_solver.
  - intros m. apply ingest_known.
  - intros arrived topic m Hin. unfold collect_self_accs, collect_radio, drain_radio.
    destruct (pick_acc topic m) as [acc|] eqn:Ep.
    + right. unfold pick_acc in Ep. destruct m as [| t miner a |]; try done. case_decide as Et; [|done]. injection Ep as ->. subst t.
      exists miner, acc. split; [done|]. apply list_elem_of_omap. exists (SelfAcc topic miner acc). split; [done|].
      simpl. by rewrite decide_True.
    + left. simpl. apply elem_of_app. right. apply list_elem_of_In, filter_In. split; [by apply list_elem_of_In|].
      by rewrite Ep.
  - intros topic want ticks. apply wait_loop_distinct. constructor.
Qed.
End properties.

(** ** Witnesses *)

#[global] Instance toy_iroh : Iroh := {| endpoint_id := N; endpoint_addr := N; addr_id := fun a => a; addr_new := fun i => i |}.

Definition ex_receipt : settle_msg := ReceiptHash (arr_rep 32 x09) (arr_rep 32 x0a) 7.
Definition ex_acc_msg : settle_msg := SelfAcc (arr_rep 32 x09) (arr_rep 32 x0b) ex_wire_acc.
Definition ex_stream : list byte := frame_of ex_receipt ++ frame_of ex_acc_msg ++ [x05].

Lemma radio_streams_witness :
  handle_inbound radio_default [ReadData (take 7 ex_stream); ReadData (drop 7 ex_stream); ReadEof]
    = Done (fold_left ingest [ex_receipt; ex_acc_msg] radio_default).
Proof.
  apply (radio_streams [ex_receipt; ex_acc_msg] [x05] [take 7 ex_stream; drop 7 ex_stream] radio_default [ReadEof]).
  - apply Forall_cons. split; [split; by vm_compute|]. apply Forall_singleton. split; [apply ex_wire_acc_wf|by vm_compute].
  - apply (bool_decide_eq_true_1 _). by_vm.
  - by_vm.
  - by_vm.
  - done.
Defined.

Definition ex_radio : radio_state := (publish_radio 1%N (fun _ _ => true) (add_peer_id radio_default 2%N) ex_acc_msg).1.
Lemma radio_exactly_once_witness :
  NoDup (map content_id ([ex_acc_msg] ++ rs_inbox (collect_self_accs [ex_receipt] ex_radio (arr_rep 32 x09)).1)).
Proof.
  apply (radio_exactly_once (collect_self_accs [ex_receipt] ex_radio (arr_rep 32 x09)).1 [ex_acc_msg]).
  apply (run_accs ex_radio [] [ex_receipt] (arr_rep 32 x09)). apply run_publish, run_peer_id, run_new.
Defined.
