(* ===== verification/RadioNet.v ===== *)
(** * RadioNet: settlement radios on a network (src/radio_settle.rs)

    Several radios run [publish_radio] and [handle_inbound]: a publication
    leaves one stream in flight for every peer that is dialled, and a stream
    arrives at its target in pieces, in any order among the others, whole or
    cut off.  [net_run] runs a plan of such events.  Whatever the plan,
    coordinators that collect a fold of every miner settle alike; when no
    stream is cut off they do collect them. *)

From S2P Require Import Prelude Order Bytes Externals Goldilocks Instances Settlement Tickets Seals Marginal Vdf Beacon Rewards Gossip Wire Radio Agreement.

(** ** The network *)

Section radio_net.
Context {HM : Hemera} {NB : Nebu} {FX : Fixed} {TR : Tru} {ZH : Zheng} {TK : Tok} {IR : Iroh}.

(** The radios by their identifiers, and the streams on their way. *)
Record radio_net := mk_radio_net {
  rn_nodes : gmap endpoint_id radio_state;
  rn_flight : list (endpoint_id * list byte)
}.

Inductive net_event :=
| NetPublish (i : endpoint_id) (push : endpoint_addr -> list byte -> bool) (m : settle_msg)
| NetArrive (k : nat) (cut : list nat) (whole : bool).

(** The peers a publication dials. *)
Definition dialled (me : endpoint_id) (st : radio_state) : list endpoint_id :=
  map addr_id (List.filter (fun peer => negb (bool_decide (addr_id peer = me))) (peer_addrs st)).

(** Reads of the given sizes, then of the rest, or the connection fails. *)
Fixpoint read_pieces (cut : list nat) (whole : bool) (frame : list byte) : list read_event :=
  match cut with
  | [] => if whole then [ReadData frame; ReadEof] else [ReadFailed]
  | n :: cut => ReadData (take n frame) :: read_pieces cut whole (drop n frame)
  end.

Definition net_apply (net : radio_net) (ev : net_event) : outcome radio_net :=
  match ev with
  | NetPublish i push m =>
      match rn_nodes net !! i with
      | None => Done net
      | Some st =>
          let '(st', _) := publish_radio i push st m in
          Done (mk_radio_net (<[i := st']> (rn_nodes net))
                  (rn_flight net ++ map (fun j => (j, encode_frame (encode_settle_msg m))) (dialled i st)))
      end
  | NetArrive k cut whole =>
      match rn_flight net !! k with
      | None => Done net
      | Some (j, frame) =>
          match rn_nodes net !! j with
          | None => Done (mk_radio_net (rn_nodes net) (delete k (rn_flight net)))
          | Some st =>
              st ← handle_inbound st (read_pieces cut whole frame);
              Done (mk_radio_net (<[j := st]> (rn_nodes net)) (delete k (rn_flight net)))
          end
      end
  end.

Fixpoint net_run (net : radio_net) (plan : list net_event) : outcome radio_net :=
  match plan with
  | [] => Done net
  | ev :: plan => net ← net_apply net ev; net_run net plan
  end.

(** Where a run that does not panic ends. *)
Definition net_end (start : radio_net) (o : outcome radio_net) : radio_net := match o with Done net => net | Panic => start end.

(** Nothing received and nothing on its way. *)
Definition fresh_net (net : radio_net) : Prop :=
  rn_flight net = [] /\ forall i st, rn_nodes net !! i = Some st -> rs_inbox st = [] /\ rs_seen st = ∅.

(** No stream of the plan is cut off. *)
Definition uncut (ev : net_event) : Prop :=
  match ev with NetArrive _ cut whole => whole = true /\ Forall (fun n => 0 < n) cut | NetPublish _ _ _ => True end.

Definition event_msg (ev : net_event) : option settle_msg :=
  match ev with NetPublish _ _ m => Some m | NetArrive _ _ _ => None end.
Definition published (plan : list net_event) : list settle_msg := omap event_msg plan.

(** ** One stream *)

Definition ended (tail : list read_event) : Prop := forall st buf, inbound_loop st buf tail = Done st.

Lemma read_pieces_shape cut whole frame :
  exists pieces tail n, read_pieces cut whole frame = map ReadData pieces ++ tail /\
    Forall (fun p => p <> []) pieces /\ ended tail /\ concat pieces = take n frame /\
    (whole = true -> Forall (fun n => 0 < n) cut -> concat pieces = frame).
Proof.
  revert frame. induction cut as [|n cut IH]; intros frame; cbn [read_pieces].
  - destruct whole; [|exists [], [ReadFailed], 0; by split_and!]. destruct frame as [|b frame].
    + by exists [], [ReadData []; ReadEof], 0.
    + exists [b :: frame], [ReadEof], (length (b :: frame)). cbn [map app concat]. rewrite app_nil_r, firstn_all.
      split_and!; try done. by constructor.
  - destruct (take n frame) as [|b p] eqn:Et.
    + exists [], (ReadData [] :: read_pieces cut whole (drop n frame)), 0. split_and!; try done.
      intros _ [Hn _]%Forall_cons. destruct n as [|n]; [lia|]. by destruct frame.
    + destruct (IH (drop n frame)) as (pieces & tail & k & E & Hne & He & Hc & Hw).
      exists ((b :: p) :: pieces), tail, (n + k). cbn [map concat]. rewrite E. split_and!; [done|by constructor|done| |].
      * rewrite Hc, <-Et. by rewrite <-take_take_drop.
      * intros H1 [_ H2]%Forall_cons. rewrite (Hw H1 H2), <-Et. apply take_drop.
Qed.
End radio_net.

Section arrivals.
Context {HM : Hemera} {NB : Nebu} {FX : Fixed} {TR : Tru} {ZH : Zheng} {TK : Tok} {IR : Iroh} {NL : NebuLaws} {FR : FxRawLaws}.

(** A stream gives its message or nothing, and its message if it is whole. *)
Lemma arrival st m cut whole : sendable m ->
  exists st', handle_inbound st (read_pieces cut whole (frame_of m)) = Done st' /\ (st' = st \/ st' = ingest st m) /\
    (uncut (NetArrive 0 cut whole) -> st' = ingest st m).
Proof.
  intros Hm. destruct (read_pieces_shape cut whole (frame_of m)) as (pieces & tail & n & -> & Hne & He & Hc & Hw).
  unfold handle_inbound.
  assert (framed (frame_of m) [encode_settle_msg m] []) as Hf.
  { pose proof (framed_messages [m] []) as H. cbn [map concat] in H. rewrite !app_nil_r in H. apply H; [|done]. by constructor. }
  assert (concat pieces = frame_of m -> inbound_loop st [] (map ReadData pieces ++ tail) = Done (ingest st m)) as Hall.
  { intros E. rewrite (inbound_pieces st [] pieces tail [encode_settle_msg m] []); [|done|done|by rewrite E].
    rewrite He. pose proof (ingest_encoded [m] st) as H. cbn [map fold_left] in *. rewrite H; [done|by constructor]. }
  destruct (decide (length (frame_of m) <= n)) as [Hn|Hn].
  - rewrite take_ge in Hc by done. exists (ingest st m). split; [by apply Hall|]. split; [by right|done].
  - exists st. assert (inbound_loop st [] (map ReadData pieces ++ tail) = Done st) as E.
    { rewrite (inbound_pieces st [] pieces tail [] (take n (frame_of m))); [by apply He|done|done|].
      cbn [app]. rewrite Hc. constructor. apply truncated_frame; [by destruct Hm|unfold frame_of in Hn; lia]. }
    split; [done|]. split; [by left|]. intros [H1 H2]. specialize (Hall (Hw H1 H2)). congruence.
Qed.
End arrivals.

(** ** Runs *)

Section net_runs.
Context {HM : Hemera} {NB : Nebu} {FX : Fixed} {TR : Tru} {ZH : Zheng} {TK : Tok} {IR : Iroh} {NL : NebuLaws} {FR : FxRawLaws}.

(** What a radio has seen it keeps, and all of it was published. *)
Definition node_ok (msgs : list settle_msg) (st : radio_state) : Prop :=
  radio_inv st [] /\ Forall (fun m => m ∈ msgs) (rs_inbox st).
Record net_ok (msgs : list settle_msg) (net : radio_net) : Prop := mk_net_ok {
  no_nodes : forall i st, rn_nodes net !! i = Some st -> node_ok msgs st;
  no_flight : Forall (fun x => exists m, m ∈ msgs /\ x.2 = frame_of m) (rn_flight net)
}.

(** Subscriptions and peer books. *)
Definition books (st : radio_state) : gset particle * gmap endpoint_id endpoint_addr := (rs_subs st, rs_peers st).
Definition same_books (n1 n2 : radio_net) : Prop := books <$> rn_nodes n1 = books <$> rn_nodes n2.

Lemma ingest_books st m : books (ingest st m) = books st.
Proof. unfold ingest. destruct (negb _); [done|]. by case_bool_decide. Qed.
Lemma ingest_seen st m : rs_seen st ⊆ rs_seen (ingest st m).
Proof. unfold ingest. destruct (negb _); [done|]. case_bool_decide; [done|]. cbn [rs_seen]. set_solver. Qed.
Lemma ingest_hears st m : admits st m = true -> content_id m ∈ rs_seen (ingest st m).
Proof. unfold ingest. intros ->. cbn [negb]. case_bool_decide; [done|]. cbn [rs_seen]. set_solver. Qed.
Lemma ingest_ok msgs st m : m ∈ msgs -> node_ok msgs st -> node_ok msgs (ingest st m).
Proof.
  intros Hm [Hi Hin]. split; [by apply ingest_inv|]. unfold ingest. destruct (negb _); [done|]. case_bool_decide; [done|].
  cbn [rs_inbox]. apply Forall_app. split; [done|by apply Forall_singleton].
Qed.

Lemma same_books_lookup n1 n2 i : same_books n1 n2 -> books <$> rn_nodes n1 !! i = books <$> rn_nodes n2 !! i.
Proof. intros H. by rewrite <-!lookup_fmap, H. Qed.
Lemma same_books_insert net i st st' nodes flight :
  rn_nodes net !! i = Some st -> books st' = books st -> nodes = <[i := st']> (rn_nodes net) -> same_books (mk_radio_net nodes flight) net.
Proof.
  intros Hi E ->. unfold same_books. cbn [rn_nodes]. rewrite fmap_insert, E. apply insert_id. by rewrite lookup_fmap, Hi.
Qed.

Lemma admits_books st st' m : books st = books st' -> admits st m = admits st' m.
Proof. unfold books, admits. by intros [= -> _]. Qed.
Lemma dialled_books me st st' : books st = books st' -> dialled me st = dialled me st'.
Proof. unfold books, dialled, peer_addrs. by intros [= _ ->]. Qed.

(** A node has heard of a message, or its stream is on its way. *)
Definition told (net : radio_net) (i : endpoint_id) (m : settle_msg) : Prop :=
  exists st, rn_nodes net !! i = Some st /\ content_id m ∈ rs_seen st.
Definition tracked (net : radio_net) (i : endpoint_id) (m : settle_msg) : Prop := told net i m \/ (i, frame_of m) ∈ rn_flight net.

(** The node is there and its subscriptions admit the message. *)
Definition admitted (net : radio_net) (i : endpoint_id) (m : settle_msg) : Prop :=
  exists st, rn_nodes net !! i = Some st /\ admits st m = true.

Lemma told_insert net i m j st st' nodes flight :
  rn_nodes net !! j = Some st -> rs_seen st ⊆ rs_seen st' -> nodes = <[j := st']> (rn_nodes net) -> told net i m -> told (mk_radio_net nodes flight) i m.
Proof.
  intros Hj Hs -> (si & Hi & Hm). unfold told. cbn [rn_nodes]. destruct (decide (i = j)) as [->|Hne].
  - exists st'. rewrite lookup_insert_eq. split; [done|]. simplify_eq. by apply Hs.
  - exists si. by rewrite lookup_insert_ne.
Qed.

Lemma elem_of_delete_other {A} (l : list A) k x y : l !! k = Some y -> x ∈ l -> x ∈ delete k l \/ x = y.
Proof.
  intros Hk [n Hn]%list_elem_of_lookup. destruct (lt_eq_lt_dec n k) as [[Hlt| ->]|Hgt].
  - left. apply list_elem_of_lookup. exists n. by rewrite list_lookup_delete_lt.
  - right. congruence.
  - left. apply list_elem_of_lookup. exists (n - 1). rewrite list_lookup_delete_ge by lia. by replace (S (n - 1)) with n by lia.
Qed.

Lemma frame_of_inj m m' : sendable m -> sendable m' -> frame_of m = frame_of m' -> m = m'.
Proof.
  intros [Hm Hl] [Hm' Hl'] E. unfold frame_of in E.
  pose proof (split_encode_frame (encode_settle_msg m) [] Hl) as H. rewrite E, split_encode_frame in H by done.
  injection H as H. pose proof (decode_encode_msg m [] Hm) as D. rewrite <-H, decode_encode_msg in D by done. congruence.
Qed.

Lemma step_net_ok msgs net ev :
  Forall sendable msgs -> net_ok msgs net -> (forall m, event_msg ev = Some m -> m ∈ msgs) ->
  exists net', net_apply net ev = Done net' /\ net_ok msgs net' /\ same_books net' net /\
    (forall i m, m ∈ msgs -> uncut ev -> admitted net i m -> tracked net i m -> tracked net' i m).
Proof.
  intros Hs [Hn Hf] Hm. destruct ev as [i push m|k cut whole]; cbn [net_apply].
  - destruct (rn_nodes net !! i) as [st|] eqn:Ei; [|exists net; by split_and!].
    unfold publish_radio. eexists. split; [done|]. split_and!.
    + split; cbn [rn_nodes rn_flight].
      * intros j sj [[<- <-]|[_ Hj]]%lookup_insert_Some; [|by apply (Hn j)]. apply ingest_ok; [by apply Hm|by apply (Hn i)].
      * apply Forall_app. split; [done|]. apply Forall_map, Forall_forall. intros j _. exists m. split; [by apply Hm|done].
    + apply (same_books_insert net i st (ingest st m)); [done|apply ingest_books|done].
    + intros j m' _ _ _ [Ht|Hfl]; [left|right; apply elem_of_app; by left].
      by apply (told_insert net j m' i st (ingest st m)), Ht; [|apply ingest_seen|].
  - destruct (rn_flight net !! k) as [[j frame]|] eqn:Ek; [|exists net; by split_and!].
    pose proof (Forall_lookup_1 _ _ _ _ Hf Ek) as (m & Hin & E). cbn [snd] in E. subst frame.
    assert (Forall (fun x => exists m, m ∈ msgs /\ x.2 = frame_of m) (delete k (rn_flight net))) as Hf' by by apply Forall_delete.
    destruct (rn_nodes net !! j) as [st|] eqn:Ej.
    2: { eexists. split; [done|]. split_and!; [by split|done|]. intros i m' _ _ (si & Hi & _) [Ht|Hfl]; [by left|].
         destruct (elem_of_delete_other _ _ _ _ Ek Hfl) as [?|E]; [by right|]. congruence. }
    pose proof (proj1 (Forall_forall _ _) Hs m Hin) as Hsend.
    destruct (arrival st m cut whole Hsend) as (st' & -> & Hst & Hw). cbn [mbind outcome_bind].
    assert (node_ok msgs st' /\ books st' = books st /\ rs_seen st ⊆ rs_seen st') as (Hok & Hb & Hseen).
    { pose proof (Hn j st Ej) as Hj. destruct Hst as [->| ->]; [done|].
      split; [by apply ingest_ok|]. split; [apply ingest_books|apply ingest_seen]. }
    eexists. split; [done|]. split_and!.
    + split; cbn [rn_nodes rn_flight]; [|done]. intros x sx [[<- <-]|[_ Hx]]%lookup_insert_Some; [done|by apply (Hn x)].
    + by apply (same_books_insert net j st st').
    + intros i m' Hm' Hu (si & Hi & Ha) [Ht|Hfl]; [left; by apply (told_insert net i m' j st st')|].
      destruct (elem_of_delete_other _ _ _ _ Ek Hfl) as [?|[-> E]%pair_equal_spec]; [by right|left].
      exists st'. cbn [rn_nodes]. rewrite lookup_insert_eq. split; [done|]. rewrite (Hw Hu).
      assert (si = st) as -> by congruence.
      pose proof (frame_of_inj m' m (proj1 (Forall_forall _ _) Hs m' Hm') Hsend E) as ->. by apply ingest_hears.
Qed.

Lemma admitted_books net net' i m : same_books net' net -> admitted net i m -> admitted net' i m.
Proof.
  intros Hb (st & Hi & Ha). pose proof (same_books_lookup net' net i Hb) as Hl. rewrite Hi in Hl.
  destruct (rn_nodes net' !! i) as [st'|] eqn:E; [|done]. cbn in Hl. exists st'. split; [done|].
  rewrite <-Ha. apply admits_books. congruence.
Qed.

Lemma run_net_ok msgs net plan :
  Forall sendable msgs -> net_ok msgs net -> (forall m, m ∈ published plan -> m ∈ msgs) ->
  exists net', net_run net plan = Done net' /\ net_ok msgs net' /\ same_books net' net /\
    (forall i m, m ∈ msgs -> Forall uncut plan -> admitted net i m -> tracked net i m -> tracked net' i m).
Proof.
  intros Hs. revert net. induction plan as [|ev plan IH]; intros net Hok Hp; cbn [net_run]; [by exists net|].
  destruct (step_net_ok msgs net ev Hs Hok) as (net1 & -> & Hok1 & Hb1 & Ht1).
  { intros m Hm. apply Hp. unfold published. cbn [omap list_omap]. rewrite Hm. left. }
  cbn [mbind outcome_bind]. destruct (IH net1 Hok1) as (net2 & E2 & Hok2 & Hb2 & Ht2).
  { intros m Hm. apply Hp. unfold published in *. cbn [omap list_omap]. destruct (event_msg ev); [by right|done]. }
  exists net2. split; [done|]. split; [done|]. split; [by transitivity (books <$> rn_nodes net1)|].
  intros i m Hm [Hu Hus]%Forall_cons Ha Ht. apply Ht2; [done|done| |by apply Ht1].
  by apply (admitted_books net).
Qed.

(** Publishing tells the publisher and dials its peers. *)
Lemma publish_tracks net j push m st net' i :
  rn_nodes net !! j = Some st -> net_apply net (NetPublish j push m) = Done net' -> admitted net i m ->
  i = j \/ i ∈ dialled j st -> tracked net' i m.
Proof.
  intros Hj. cbn [net_apply]. rewrite Hj. unfold publish_radio. intros [= <-] (si & Hi & Ha) [->|Hd].
  - left. exists (ingest st m). cbn [rn_nodes]. rewrite lookup_insert_eq. split; [done|]. apply ingest_hears. congruence.
  - right. cbn [rn_flight]. apply elem_of_app. right. apply list_elem_of_fmap. by exists i.
Qed.

(** Some publication of the plan reaches the node, unless it is cut off. *)
Definition addressed (net : radio_net) (plan : list net_event) (i : endpoint_id) (m : settle_msg) : Prop :=
  exists j push st, NetPublish j push m ∈ plan /\ rn_nodes net !! j = Some st /\ (i = j \/ i ∈ dialled j st).

Lemma run_tracks msgs net plan net' i m :
  Forall sendable msgs -> net_ok msgs net -> (forall m, m ∈ published plan -> m ∈ msgs) ->
  net_run net plan = Done net' -> Forall uncut plan -> admitted net i m -> addressed net plan i m -> tracked net' i m.
Proof.
  intros Hs. revert net. induction plan as [|ev plan IH]; intros net Hok Hp Hrun Hun Ha (j & push & st & Hin & Hj & Hd).
  { by apply elem_of_nil in Hin. }
  apply Forall_cons in Hun as [Hu Hus].
  assert (forall m, m ∈ published plan -> m ∈ msgs) as Hp1.
  { intros m' Hm'. apply Hp. unfold published in *. cbn [omap list_omap]. destruct (event_msg ev); [by right|done]. }
  destruct (step_net_ok msgs net ev Hs Hok) as (net1 & E1 & Hok1 & Hb1 & _).
  { intros m' Hm. apply Hp. unfold published. cbn [omap list_omap]. rewrite Hm. left. }
  cbn [net_run] in Hrun. rewrite E1 in Hrun. cbn [mbind outcome_bind] in Hrun.
  pose proof (admitted_books net net1 i m Hb1 Ha) as Ha1. apply elem_of_cons in Hin as [<-|Hin].
  - destruct (run_net_ok msgs net1 plan Hs Hok1 Hp1) as (net2 & E2 & _ & _ & Ht). rewrite E2 in Hrun. injection Hrun as <-.
    apply Ht; [|done|done|by apply (publish_tracks net j push m st net1 i)]. apply Hp. left.
  - apply (IH net1); [done..|]. pose proof (same_books_lookup net1 net j Hb1) as Hl. rewrite Hj in Hl.
    destruct (rn_nodes net1 !! j) as [st1|] eqn:Ej1; [|done]. cbn in Hl. exists j, push, st1. split; [done|]. split; [done|].
    by rewrite (dialled_books j st1 st) by congruence.
Qed.
End net_runs.

(** ** Waiting *)

Section waiting.
Context {HM : Hemera} {NB : Nebu} {FX : Fixed} {TR : Tru} {ZH : Zheng} {TK : Tok} {IR : Iroh}.
Variable topic : particle.

(** What a message can hand to a wait satisfies [P]. *)
Definition hands (P : cluster_acc -> Prop) (m : settle_msg) : Prop := forall a, pick_acc topic m = Some a -> P a.
Definition hands_tick (P : cluster_acc -> Prop) (tick : list settle_msg * list settle_msg) : Prop :=
  Forall (hands P) tick.1 /\ Forall (hands P) tick.2.

Lemma ingest_all_hands P msgs st : Forall (hands P) msgs -> Forall (hands P) (rs_inbox st) -> Forall (hands P) (rs_inbox (fold_left ingest msgs st)).
Proof.
  intros Hm. revert st. induction Hm as [|m msgs Hm _ IH]; intros st Hs; [done|]. apply IH. unfold ingest.
  destruct (negb _); [done|]. case_bool_decide; [done|]. apply Forall_app. split; [done|by apply Forall_singleton].
Qed.

Lemma elem_of_retain a seen accs : a ∈ retain_new seen accs -> a ∈ accs.
Proof.
  revert seen. induction accs as [|b accs IH]; intros seen; cbn [retain_new]; [done|].
  case_bool_decide; [intros Ha; right; by apply (IH seen)|]. intros [->|Ha]%elem_of_cons; [left|right; by apply IH in Ha].
Qed.

(** Every commitment is kept once. *)
Lemma retain_keeps a seen accs : a ∈ accs -> ac_commitment a ∉ seen ->
  exists b, b ∈ retain_new seen accs /\ ac_commitment b = ac_commitment a.
Proof.
  intros Ha. revert seen. induction Ha as [a accs|a b accs Ha IH]; intros seen Hs; cbn [retain_new].
  - rewrite bool_decide_eq_false_2 by done. exists a. split; [left|done].
  - case_bool_decide as Hb; [by apply IH|]. destruct (decide (ac_commitment a = ac_commitment b)) as [E|Hne].
    + exists b. split; [left|done].
    + destruct (IH ({[ac_commitment b]} ∪ seen)) as (c & Hc & E); [set_solver|]. exists c. split; [by right|done].
Qed.

Lemma wait_loop_hands P want ticks accs st :
  Forall (hands P) (rs_inbox st) -> Forall (hands_tick P) ticks -> Forall P accs -> Forall P (wait_loop topic want ticks accs st).2.
Proof.
  intros Hs Ht. revert accs st Hs. induction Ht as [|[during slept] ticks [Hd Hsl] _ IH]; intros accs st Hs Ha; [done|].
  cbn [fst snd] in Hd, Hsl. cbn [wait_loop]. unfold collect_self_accs, collect_radio, drain_radio.
  assert (Forall P (retain_new ∅ (accs ++ omap (pick_acc topic) (rs_inbox st)))) as Hr.
  { apply Forall_forall. intros a Hin%elem_of_retain. apply elem_of_app in Hin as [Hin|Hin].
    - by apply (proj1 (Forall_forall _ _) Ha).
    - apply list_elem_of_omap in Hin as (m & Hm & E). by apply (proj1 (Forall_forall _ _) Hs m Hm). }
  case_bool_decide; [done|]. apply IH; [|done]. apply ingest_all_hands; [done|]. cbn [set_radio_inbox rs_inbox].
  apply Forall_app. split; [by apply ingest_all_hands|]. apply Forall_forall. intros m Hm.
  apply list_elem_of_In, filter_In in Hm as [Hm _]. apply (proj1 (Forall_forall _ _) Hs). by apply list_elem_of_In.
Qed.

(** A wait that collects as many accumulators as there are collects them all. *)
Lemma wait_gathers all want ticks st :
  Forall (hands (fun a => a ∈ all)) (rs_inbox st) -> Forall (hands_tick (fun a => a ∈ all)) ticks ->
  length all <= length (wait_self_accs st topic want ticks).2 -> (wait_self_accs st topic want ticks).2 ≡ₚ all.
Proof.
  intros Hs Ht Hl. unfold wait_self_accs in *. pose proof (wait_loop_hands _ want ticks [] st Hs Ht ltac:(constructor)) as Hin.
  pose proof (wait_loop_distinct topic want ticks [] st ltac:(constructor)) as Hn. apply NoDup_fmap_1 in Hn.
  apply submseteq_length_Permutation; [|done]. apply NoDup_submseteq; [done|]. by apply Forall_forall.
Qed.

(** All of them in the inbox: the first poll takes them. *)
Lemma wait_at_once all want tick ticks st :
  Forall (hands (fun a => a ∈ all)) (rs_inbox st) -> (forall a, a ∈ all -> exists m, m ∈ rs_inbox st /\ pick_acc topic m = Some a) ->
  NoDup (map ac_commitment all) -> want <= length all -> (wait_self_accs st topic want (tick :: ticks)).2 ≡ₚ all.
Proof.
  intros Hs Hall Hn Hw. destruct tick as [during slept]. unfold wait_self_accs. cbn [wait_loop].
  unfold collect_self_accs, collect_radio, drain_radio. cbn [app].
  set (batch := omap (pick_acc topic) (rs_inbox st)).
  assert (retain_new ∅ batch ≡ₚ all) as Hp.
  { destruct (retain_new_spec batch ∅) as [Hd _]. apply NoDup_Permutation; [by apply NoDup_fmap_1 in Hd|by apply NoDup_fmap_1 in Hn|].
    assert (forall a, a ∈ batch -> a ∈ all) as Hsub.
    { intros a (m & Hm & E)%list_elem_of_omap. by apply (proj1 (Forall_forall _ _) Hs m Hm). }
    intros a. split; [intros Ha%elem_of_retain; by apply Hsub|]. intros Ha.
    destruct (Hall a Ha) as (m & Hm & E). destruct (retain_keeps a ∅ batch) as (b & Hb & Ec).
    - apply list_elem_of_omap. by exists m.
    - set_solver.
    - assert (b = a) as <-; [|done]. apply elem_of_retain, Hsub in Hb.
      apply list_elem_of_lookup in Hb as [x Hx], Ha as [y Hy]. rewrite NoDup_alt in Hn.
      assert (x = y) as -> by (apply (Hn x y (ac_commitment a)); rewrite list_lookup_fmap; [by rewrite Hx; cbn; rewrite Ec|by rewrite Hy]).
      congruence. }
  rewrite bool_decide_eq_true_2; [done|]. by rewrite Hp.
Qed.
End waiting.

(** ** Coordinators *)

Lemma Forall_or_left {A} (C : Prop) (P : A -> Prop) l : (forall x, x ∈ l -> C \/ P x) -> C \/ Forall P l.
Proof.
  induction l as [|x l IH]; intros H; [right; constructor|].
  destruct (H x ltac:(left)) as [?|Hx]; [by left|]. destruct IH as [?|Hl]; [intros y Hy; apply H; by right|by left|right; by constructor].
Qed.

Section coordinators.
Context {HM : Hemera} {NB : Nebu} {FX : Fixed} {TR : Tru} {ZH : Zheng} {TK : Tok} {IR : Iroh}.
Context {FA : FxAddLaws} {NL : NebuLaws} {FR : FxRawLaws} {TL : TruLaws} {ZL : ZhengLaws}.
Variables (epoch : N) (prev : particle) (base : list link) (claims : list reward_claim) (ctx : context)
  (params : focusing_params) (budget : N) (topic : particle).

Abbreviation shared := (shared epoch prev base claims ctx params budget).
Abbreviation mined := (mined epoch prev base claims ctx params budget).
Abbreviation settle_with := (settle_with epoch prev base claims ctx params budget).

(** What a miner publishes. *)
Definition acc_msg (p : ticket_policy) : settle_msg := SelfAcc topic (po_miner p) (shared p).

Lemma hash_or_collides x y : hemera_hash x = hemera_hash y -> (exists x y, collides x y) \/ x = y.
Proof. intros E. destruct (decide (x = y)) as [|Hne]; [by right|left]. by exists x, y. Qed.

Lemma with_commitment_id a : ac_commitment (with_commitment a) = acc_commitment (with_commitment a).
Proof. by destruct a. Qed.
Lemma canon_commitment n l : l <> [] -> ac_commitment (canon n l) = acc_commitment (canon n l).
Proof. destruct l as [|t l]; [done|]. intros _. unfold canon. apply with_commitment_id. Qed.

(** An accumulator with a ticket names its miner in its commitment. *)
Lemma shared_commitment p q :
  unsaturated p -> unsaturated q -> mined p <> [] -> mined q <> [] ->
  ac_commitment (shared p) = ac_commitment (shared q) -> (exists x y, collides x y) \/ po_miner p = po_miner q.
Proof.
  intros Up Uq Np Nq E.
  assert (forall r, unsaturated r -> mined r <> [] -> length (ac_sum_m (shared r)) = length claims /\
    ac_commitment (shared r) = acc_commitment (shared r) /\
    exists e l, sorted_elements (ac_seen (shared r)) = e :: l /\ e.1 = po_miner r) as Hshape.
  { intros r Ur Nr. destruct (mined_spec epoch prev base claims ctx params budget r) as (_ & Hd & Hm & _).
    pose proof (mined_keys epoch prev base claims ctx params budget r Ur) as Hk.
    unfold Agreement.shared. rewrite self_fold_distinct by done. rewrite canon_sum, canon_seen, vec_sum_length by done.
    split; [done|]. split; [by apply canon_commitment|].
    destruct (sorted_elements (list_to_set (map ticket_key (mined r)))) as [|e l] eqn:El.
    - destruct (mined r) as [|t ts]; [done|]. exfalso. apply (not_elem_of_nil (ticket_key t)). rewrite <-El.
      apply elem_of_sorted_elements, elem_of_list_to_set. left.
    - exists e, l. split; [done|]. assert (e ∈ e :: l) as He by left. rewrite <-El in He.
      apply elem_of_sorted_elements, elem_of_list_to_set, list_elem_of_fmap in He as (t & -> & Ht).
      by apply (proj1 (Forall_forall _ _) Hm). }
  destruct (Hshape p Up Np) as (Lp & Cp & ep & lp & Sp & Mp), (Hshape q Uq Nq) as (Lq & Cq & eq' & lq & Sq & Mq).
  rewrite Cp, Cq in E. unfold acc_commitment in E. apply hash_or_collides in E as [?|E]; [by left|right].
  rewrite Sp, Sq, Lp, Lq in E. apply app_inv_head in E. apply app_inj_1 in E as [_ E]; [|by rewrite !u64_le_length].
  apply app_inv_head in E. apply app_inj_1 in E as [_ E].
  2: { by rewrite !(concat_fixed_length fx_bytes 8), Lp, Lq by apply fx_bytes_length. }
  cbn [map concat] in E. unfold seen_bytes in E. rewrite <-!app_assoc in E.
  apply app_inj_1 in E as [E _]; [|by rewrite !arr_length]. apply arr_bytes_inj in E. congruence.
Qed.

Lemma acc_msg_id p m : 
  (forall t id n c, m <> ClaimAnnounce t id n c) -> content_id m = content_id (acc_msg p) ->
  (exists x y, collides x y) \/ exists acc, m = SelfAcc topic (po_miner p) acc.
Proof.
  intros Hm E. destruct m as [t id n c|t mi acc|t rh ep]; [by destruct (Hm t id n c)|..]; unfold acc_msg, content_id in E;
    apply hash_or_collides in E as [?|E]; try (by left); right.
  apply app_inv_head in E. apply app_inj_1 in E as [->%arr_bytes_inj E]; [|by rewrite !arr_length].
  apply app_inj_1 in E as [->%arr_bytes_inj _]; [|by rewrite !arr_length]. by exists acc.
Qed.

(** A plan in which the accumulators on the topic are those of the miners,
    each under its name. *)
Definition honest_msg (miners : list ticket_policy) (m : settle_msg) : Prop :=
  match m with SelfAcc t _ _ => t = topic -> m ∈ map acc_msg miners | _ => True end.
(** No announced claim takes the identity of an accumulator. *)
Definition no_squatting (miners : list ticket_policy) (m : settle_msg) : Prop :=
  match m with ClaimAnnounce _ id _ _ => id ∉ map content_id (map acc_msg miners) | _ => True end.

Lemma honest_hands miners m : honest_msg miners m -> hands topic (fun a => a ∈ map shared miners) m.
Proof.
  intros Hm a. destruct m as [|t mi acc|]; [done| |done]. cbn [pick_acc]. case_decide as Ht; [|done]. intros [= <-].
  apply Hm in Ht. apply list_elem_of_fmap in Ht as (p & E & Hp). injection E as _ _ ->. apply list_elem_of_fmap. by exists p.
Qed.

(** Seen under its identity, a miner's accumulator is in the inbox. *)
Lemma seen_acc miners msgs st p :
  NoDup (map po_miner miners) -> Forall (honest_msg miners) msgs -> Forall (no_squatting miners) msgs ->
  node_ok msgs st -> p ∈ miners -> content_id (acc_msg p) ∈ rs_seen st ->
  (exists x y, collides x y) \/ acc_msg p ∈ rs_inbox st.
Proof.
  intros Hnd Hh Hq [[_ Hseen] Hin] Hp Hs. apply Hseen in Hs. cbn [app] in Hs.
  apply list_elem_of_fmap in Hs as (m & E & Hm). pose proof (proj1 (Forall_forall _ _) Hin m Hm) as Hmsg.
  pose proof (proj1 (Forall_forall _ _) Hh m Hmsg) as Hh'. pose proof (proj1 (Forall_forall _ _) Hq m Hmsg) as Hq'.
  destruct (acc_msg_id p m) as [?|[acc ->]]; [|done|by left|].
  - intros t id n c ->. apply Hq'. cbn [content_id] in E. rewrite <-E. by apply list_elem_of_fmap_2, list_elem_of_fmap_2.
  - right. apply (fun H => H eq_refl) in Hh'. apply list_elem_of_fmap in Hh' as (q & Eq & Hqm).
    assert (q = p) as ->; [|by rewrite <-Eq].
    apply list_elem_of_lookup in Hqm as [x Hx], Hp as [y Hy]. rewrite NoDup_alt in Hnd.
    assert (x = y) as ->; [|congruence]. apply (Hnd x y (po_miner p)); rewrite list_lookup_fmap, ?Hx, ?Hy; [|done].
    cbn. f_equal. by injection Eq.
Qed.
Lemma shared_distinct miners :
  NoDup (map po_miner miners) -> Forall unsaturated miners -> Forall (fun p => mined p <> []) miners ->
  (exists x y, collides x y) \/ NoDup (map ac_commitment (map shared miners)).
Proof.
  induction miners as [|p miners IH]; cbn [map]; [right; constructor|].
  intros [Hp Hn]%NoDup_cons [Up Um]%Forall_cons [Np Nm]%Forall_cons. destruct (IH Hn Um Nm) as [?|Hd]; [by left|].
  destruct (decide (ac_commitment (shared p) ∈ map ac_commitment (map shared miners))) as [Hin|Hin]; [|right; by constructor].
  apply list_elem_of_fmap in Hin as (a & E & Ha). apply list_elem_of_fmap in Ha as (q & -> & Hq).
  destruct (shared_commitment p q) as [?|Em]; [done|by apply (proj1 (Forall_forall _ _) Um)|done|by apply (proj1 (Forall_forall _ _) Nm)|done|by left|].
  exfalso. apply Hp. rewrite Em. by apply list_elem_of_fmap_2.
Qed.

Section agreement.
Variable miners : list ticket_policy.
Hypothesis names : NoDup (map po_miner miners).
Hypothesis nonces : Forall unsaturated miners.
Hypothesis few : (N.of_nat (S (length miners)) <= u64_max)%N.
Hypothesis bounded : (N.of_nat (sum_list_with po_want miners) <= u64_max)%N.

(** A coordinator that collected the accumulators of all the miners. *)
Lemma collected_all p accs : idle p -> accs ≡ₚ map shared miners ->
  exists ps, accs = map shared ps /\ gathered miners (p :: ps) /\ length ps = length miners.
Proof.
  intros Hi Hp. apply Permutation_map_inv in Hp as (ps & -> & Hps). exists ps. split; [done|].
  split; [|by rewrite Hps]. exists [p]. split; [|by repeat constructor]. rewrite <-Hps. by rewrite Permutation_app_comm.
Qed.

Definition honest_tick (tick : list settle_msg * list settle_msg) : Prop :=
  Forall (honest_msg miners) tick.1 /\ Forall (honest_msg miners) tick.2.

(** What a coordinator collects from an honest network. *)
Lemma coordinator_collects msgs st want ticks :
  Forall (honest_msg miners) msgs -> node_ok msgs st -> Forall honest_tick ticks ->
  length miners <= length (wait_self_accs st topic want ticks).2 -> (wait_self_accs st topic want ticks).2 ≡ₚ map shared miners.
Proof.
  intros Hh [_ Hin] Ht Hl. apply wait_gathers; [..|by rewrite length_map].
  - eapply Forall_impl; [exact Hin|]. intros m Hm. apply honest_hands. by apply (proj1 (Forall_forall _ _) Hh).
  - eapply Forall_impl; [exact Ht|]. intros [d sl] [H1 H2]. split; (eapply Forall_impl; [eassumption|]); intros m; apply honest_hands.
Qed.

(** A node that has seen every miner's accumulator has them all at the first poll. *)
Lemma coordinator_served msgs st want tick ticks :
  Forall (honest_msg miners) msgs -> Forall (no_squatting miners) msgs -> node_ok msgs st ->
  Forall (fun p => mined p <> []) miners -> Forall (fun p => content_id (acc_msg p) ∈ rs_seen st) miners -> want <= length miners ->
  (exists x y, collides x y) \/ (wait_self_accs st topic want (tick :: ticks)).2 ≡ₚ map shared miners.
Proof.
  intros Hh Hsq Hok Hmined Hseen Hw. destruct (shared_distinct miners names nonces Hmined) as [?|Hd]; [by left|].
  destruct (Forall_or_left (exists x y, collides x y) (fun p => acc_msg p ∈ rs_inbox st) miners) as [?|Hall]; [|by left|right].
  { intros p Hp. apply (seen_acc miners msgs); [done..|]. by apply (proj1 (Forall_forall _ _) Hseen). }
  apply wait_at_once; [..|done|by rewrite length_map].
  - eapply Forall_impl; [apply Hok|]. intros m Hm. apply honest_hands. by apply (proj1 (Forall_forall _ _) Hh).
  - intros a (p & -> & Hp)%list_elem_of_fmap. exists (acc_msg p). split; [by apply (proj1 (Forall_forall _ _) Hall)|].
    cbn [acc_msg pick_acc]. by rewrite decide_True.
Qed.

End agreement.
End coordinators.

(** ** Witness *)

(** Two miners that are peers of each other and of a third node; the third
    node and the second one settle. *)
Definition ex_air_topic : particle := arr_rep 32 x09.
Definition ex_air_miners : list ticket_policy := [ex_miner x01; ex_miner x02].
Definition ex_air_node (peers : list N) : radio_state :=
  fold_left add_peer_id peers (subscribe_radio radio_default ex_air_topic).
Definition ex_air : radio_net :=
  mk_radio_net (list_to_map [(1%N, ex_air_node [2%N; 3%N]); (2%N, ex_air_node [1%N; 3%N]); (3%N, ex_air_node [])]) [].
Definition ex_air_msg (p : ticket_policy) : settle_msg :=
  acc_msg 1 zero32 [] ex_claims context_none params_default 100 ex_air_topic p.
Definition ex_air_plan : list net_event :=
  [NetPublish 1%N (fun _ _ => true) (ex_air_msg (ex_miner x01)); NetPublish 2%N (fun _ _ => false) (ex_air_msg (ex_miner x02));
   NetArrive 3 [7; 40] true; NetArrive 0 [] true; NetArrive 1 [1; 1; 1] true; NetArrive 0 [] true].

Definition acc_fits (acc : cluster_acc) : bool :=
  (ac_k acc <=? u64_max)%N && (N.of_nat (length (ac_sum_m acc)) <=? u32_max)%N && (N.of_nat (size (ac_seen acc)) <=? u32_max)%N &&
  forallb (fun e => (e.2 <=? u64_max)%N) (elements (ac_seen acc)).
Lemma acc_fits_wf acc : acc_fits acc = true -> acc_wf acc.
Proof.
  unfold acc_fits, acc_wf, is_u64, is_u32. rewrite !andb_true_iff, !N.leb_le, forallb_forall. intros (((? & ?) & ?) & Hall).
  split_and!; try done. intros e He. apply N.leb_le, Hall. by apply list_elem_of_In, elem_of_elements.
Qed.

Lemma ex_air_published : published ex_air_plan = map ex_air_msg ex_air_miners.
Proof. done. Qed.
Lemma ex_air_sendable : Forall sendable (published ex_air_plan).
Proof.
  rewrite ex_air_published. apply Forall_map, Forall_forall. intros p Hp. 
  assert (forallb (fun p => acc_fits (shared 1 zero32 [] ex_claims context_none params_default 100 p) &&
    (N.of_nat (length (encode_settle_msg (ex_air_msg p))) <=? u32_max)%N) ex_air_miners = true) as H by by_vm.
  rewrite forallb_forall in H. apply list_elem_of_In, H, andb_true_iff in Hp as [H1 H2].
  split; [by apply acc_fits_wf|by apply N.leb_le].
Qed.
Lemma ex_air_fresh : fresh_net ex_air.
Proof.
  split; [done|]. intros i st Hi. apply (elem_of_list_to_map_2 (M := gmap N)) in Hi.
  repeat (apply elem_of_cons in Hi as [[= -> ->]|Hi]; [by split|]). by apply elem_of_nil in Hi.
Qed.
Lemma ex_air_honest : Forall (honest_msg 1 zero32 [] ex_claims context_none params_default 100 ex_air_topic ex_air_miners) (published ex_air_plan).
Proof.
  rewrite ex_air_published. apply Forall_map, Forall_forall. intros p Hp _. by apply list_elem_of_fmap_2.
Qed.

Definition ex_air_end : radio_net := net_end ex_air (net_run ex_air ex_air_plan).
Definition ex_air_wait (i : N) : list cluster_acc :=
  match rn_nodes ex_air_end !! i with Some st => (wait_self_accs st ex_air_topic 2 [([], [])]).2 | None => [] end.

Lemma ex_air_addressed p : p ∈ ex_air_miners -> addressed ex_air ex_air_plan 3%N (ex_air_msg p).
Proof.
  intros Hp. apply list_elem_of_In in Hp as [<-|[<-|[]]].
  - exists 1%N, (fun _ _ => true), (ex_air_node [2%N; 3%N]). split; [left|]. split; [by_vm|]. right. apply (bool_decide_eq_true_1 _). by_vm.
  - exists 2%N, (fun _ _ => false), (ex_air_node [1%N; 3%N]). split; [right; left|]. split; [by_vm|]. right. apply (bool_decide_eq_true_1 _). by_vm.
Qed.

