(* ===== verification/Placement.v ===== *)
(** * Placement: shards by capacity (src/node.rs)

    [capacity_weighted_placement] assigns the shards of a file to the node
    itself (device 0, of capacity [u64::MAX]) and its peers, and
    [compute_params] chooses the coding parameters for a number of devices.
    The products and sums are taken in [u128], where they cannot overflow for
    [u64] capacities and a [usize] count. *)

From Stdlib Require Import Sorting.Sorted.
From S2P Require Import Prelude Order.

(** [c.max(1)]. *)
Definition cap1 (c : N) : N := N.max c 1.
Definition node_caps (peer_capacities : list N) : list N := u64_max :: peer_capacities.
Definition sum_n (l : list N) : N := foldr N.add 0%N l.
Definition total_cap (caps : list N) : N := sum_n (map cap1 caps).

(** The share of one device, rounded down. *)
Definition share (n_shards : nat) (total c : N) : nat := N.to_nat (N.of_nat n_shards * cap1 c / total).

(** One shard more for each device in [order], while any remain. *)
Fixpoint give_remainder (order : list nat) (remainder : nat) (alloc : list nat) : list nat :=
  match order, remainder with
  | d :: order, S remainder => give_remainder order remainder (alter S d alloc)
  | _, _ => alloc
  end.

Definition placement_alloc (n_shards : nat) (caps : list N) : list nat :=
  let alloc := map (share n_shards (total_cap caps)) caps in
  let order := sort_by (fun d => (- Z.of_N (default 0%N (caps !! d)))%Z) (seq 0 (length caps)) in
  give_remainder order (n_shards - sum_list alloc) alloc.

(** Device [d], then the next ones, as often as shards were allocated. *)
Fixpoint spread (d : nat) (alloc : list nat) : list nat :=
  match alloc with [] => [] | count :: alloc => replicate count d ++ spread (S d) alloc end.

Definition capacity_weighted_placement (n_shards : nat) (peer_capacities : list N) : list nat :=
  if bool_decide (n_shards = 0) then []
  else take n_shards (spread 0 (placement_alloc n_shards (node_caps peer_capacities))).

(** [(k, n)] for a number of live devices. *)
Definition compute_params (alive_devices redundancy_f : nat) : nat * nat :=
  if bool_decide (alive_devices < 2) then (1, 1)
  else
    let n := 2 ^ Nat.log2_up (Nat.min alive_devices 8) in
    let f := Nat.min redundancy_f (n - 1) in
    (n - f, n).


(** ** Shares *)

Lemma sum_n_app l l' : sum_n (l ++ l') = (sum_n l + sum_n l')%N.
Proof. induction l as [|x l IH]; simpl; lia. Qed.

Lemma total_cap_pos c caps : (0 < total_cap (c :: caps))%N.
Proof. unfold total_cap. simpl. unfold cap1. lia. Qed.

Lemma share_floor n total c : (0 < total)%N ->
  (N.of_nat (share n total c) * total <= N.of_nat n * cap1 c < N.of_nat (S (share n total c)) * total)%N.
Proof.
  intros Ht. unfold share. rewrite Nat2N.inj_succ, N2Nat.id, N.mul_succ_l.
  pose proof (N.mod_lt (N.of_nat n * cap1 c) total ltac:(lia)) as Hr.
  pose proof (N.div_mod (N.of_nat n * cap1 c) total ltac:(lia)) as E. rewrite (N.mul_comm total) in E.
  revert Hr E. generalize (N.of_nat n * cap1 c)%N. intros x. generalize (x / total * total)%N (x mod total)%N. lia.
Qed.

Lemma shares_between n total caps : (0 < total)%N ->
  let s := sum_list (map (share n total) caps) in
  (N.of_nat s * total <= N.of_nat n * total_cap caps /\
   N.of_nat n * total_cap caps + N.of_nat (length caps) <= (N.of_nat s + N.of_nat (length caps)) * total)%N.
Proof.
  intros Ht. induction caps as [|c caps IH]; [unfold total_cap; simpl; lia|]. cbn zeta in *. cbn [map sum_list].
  pose proof (share_floor n total c Ht) as [H1 H2]. destruct IH as [IH1 IH2].
  assert (total_cap (c :: caps) = cap1 c + total_cap caps)%N as -> by done.
  change (length (c :: caps)) with (S (length caps)).
  rewrite !Nat2N.inj_succ, Nat2N.inj_add in *. rewrite N.mul_succ_l in H2. rewrite !N.mul_add_distr_l, !N.mul_add_distr_r in *.
  rewrite N.mul_succ_l. change (id (share n total c)) with (share n total c). lia.
Qed.

Lemma shares_sum n c caps :
  let s := sum_list (map (share n (total_cap (c :: caps))) (c :: caps)) in
  s <= n /\ n - s < length (c :: caps).
Proof.
  pose proof (shares_between n (total_cap (c :: caps)) (c :: caps) (total_cap_pos c caps)) as H.
  pose proof (total_cap_pos c caps). cbn zeta in *.
  set (T := total_cap (c :: caps)) in *. set (s := sum_list (map (share n T) (c :: caps))) in *.
  destruct H as [H1 H2]. assert (length (c :: caps) > 0) by (simpl; lia).
  set (len := length (c :: caps)) in *. split; nia.
Qed.

(** ** The remainder *)

Lemma give_remainder_length order r alloc : length (give_remainder order r alloc) = length alloc.
Proof.
  revert r alloc. induction order as [|d order IH]; intros [|r] alloc; try done. cbn [give_remainder]. by rewrite IH, length_alter.
Qed.

Lemma give_remainder_lookup order r alloc d x :
  NoDup order -> alloc !! d = Some x ->
  give_remainder order r alloc !! d = Some (if decide (d ∈ take r order) then S x else x).
Proof.
  intros Hn. revert r alloc x. induction Hn as [|o order Ho _ IH]; intros r alloc x Hx.
  - destruct r; cbn [give_remainder take]; by rewrite decide_False by apply not_elem_of_nil.
  - destruct r as [|r]; [rewrite decide_False by apply not_elem_of_nil; done|]. cbn [give_remainder take].
    destruct (decide (d = o)) as [->|Hne].
    + rewrite (IH r _ (S x)) by (by rewrite list_lookup_alter_eq, Hx).
      rewrite decide_False, decide_True; [done|constructor|]. intros Hin. apply Ho. by apply elem_of_take in Hin as (i & ? & _); eapply list_elem_of_lookup_2.
    + rewrite (IH r _ x) by (by rewrite list_lookup_alter_ne by congruence).
      f_equal. apply decide_ext. rewrite elem_of_cons. naive_solver.
Qed.

Lemma sum_list_alter d alloc : d < length alloc -> sum_list (alter S d alloc) = S (sum_list alloc).
Proof.
  revert d. induction alloc as [|x alloc IH]; intros d Hd; [simpl in Hd; lia|]. destruct d as [|d]; [done|].
  change (alter S (S d) (x :: alloc)) with (x :: alter S d alloc). simpl in *. rewrite IH by lia. lia.
Qed.

Lemma give_remainder_sum order r alloc :
  Forall (fun d => d < length alloc) order -> r <= length order -> sum_list (give_remainder order r alloc) = sum_list alloc + r.
Proof.
  revert r alloc. induction order as [|d order IH]; intros [|r] alloc Hf Hr; simpl in *; try lia.
  apply Forall_cons in Hf as [Hd Hf]. rewrite IH; [rewrite sum_list_alter by done; lia| |lia].
  by rewrite length_alter.
Qed.

Definition device_order (caps : list N) : list nat :=
  sort_by (fun d => (- Z.of_N (default 0%N (caps !! d)))%Z) (seq 0 (length caps)).
Lemma device_order_perm caps : device_order caps ≡ₚ seq 0 (length caps).
Proof. apply sort_by_perm. Qed.

Lemma placement_alloc_spec n c caps :
  let alloc := placement_alloc n (c :: caps) in
  length alloc = length (c :: caps) /\ sum_list alloc = n /\
  forall d x, (c :: caps) !! d = Some x ->
    alloc !! d = Some (share n (total_cap (c :: caps)) x) \/ alloc !! d = Some (S (share n (total_cap (c :: caps)) x)).
Proof.
  set (cs := c :: caps). unfold placement_alloc. fold (device_order cs). cbn zeta. set (shares := map (share n (total_cap cs)) cs).
  pose proof (shares_sum n c caps) as [Hle Hlt]. fold cs shares in Hle, Hlt.
  assert (length shares = length cs) as Hl by apply length_map.
  split; [by rewrite give_remainder_length|]. split.
  - rewrite give_remainder_sum; [lia| |rewrite (Permutation_length (device_order_perm cs)), length_seq; lia].
    apply Forall_forall. intros d Hd. rewrite device_order_perm, elem_of_seq in Hd. lia.
  - intros d x Hx. rewrite (give_remainder_lookup _ _ _ d (share n (total_cap cs) x)).
    + case_decide; auto.
    + rewrite device_order_perm. apply NoDup_seq.
    + unfold shares. by rewrite list_lookup_fmap, Hx.
Qed.

(** ** Spreading *)

Lemma spread_length d alloc : length (spread d alloc) = sum_list alloc.
Proof. revert d. induction alloc as [|x alloc IH]; intros d; [done|]. simpl. by rewrite length_app, length_replicate, IH. Qed.

Lemma spread_bounds d alloc x : x ∈ spread d alloc -> d <= x < d + length alloc.
Proof.
  revert d. induction alloc as [|y alloc IH]; intros d; simpl; [by intros ?%elem_of_nil|].
  intros [Hx|Hx]%elem_of_app; [apply elem_of_replicate_inv in Hx; lia|apply IH in Hx; lia].
Qed.

Lemma spread_sorted d alloc : StronglySorted le (spread d alloc).
Proof.
  revert d. induction alloc as [|y alloc IH]; intros d; [constructor|]. simpl. induction y as [|y IHy]; [apply IH|].
  simpl. constructor; [done|]. apply Forall_app. split; [by apply Forall_replicate|].
  apply Forall_forall. intros x Hx%spread_bounds. lia.
Qed.

Lemma count_replicate x d n : count_occ Nat.eq_dec (replicate n d) x = if decide (x = d) then n else 0.
Proof.
  induction n as [|n IH]; simpl; [by case_decide|]. rewrite IH. destruct (Nat.eq_dec d x); case_decide; congruence.
Qed.

Lemma spread_count d alloc i x : alloc !! i = Some x -> count_occ Nat.eq_dec (spread d alloc) (d + i) = x.
Proof.
  revert d i. induction alloc as [|y alloc IH]; intros d i Hx; [done|]. simpl. rewrite count_occ_app, count_replicate.
  destruct i as [|i].
  - injection Hx as ->. rewrite decide_True by lia. rewrite (proj1 (count_occ_not_In _ _ _)); [lia|].
    intros Hin%list_elem_of_In%spread_bounds. lia.
  - rewrite decide_False by lia. specialize (IH (S d) i Hx). by replace (d + S i) with (S d + i) by lia.
Qed.

Lemma count_all l x : count_occ Nat.eq_dec l x = length l -> l = replicate (length l) x.
Proof.
  induction l as [|y l IH]; [done|]. simpl. pose proof (count_occ_bound Nat.eq_dec x l).
  destruct (Nat.eq_dec y x) as [->|]; intros E; [|lia]. f_equal. apply IH. lia.
Qed.

Lemma placement_eq n peers : capacity_weighted_placement n peers = spread 0 (placement_alloc n (node_caps peers)).
Proof.
  destruct (placement_alloc_spec n u64_max peers) as (_ & Hs & _). unfold capacity_weighted_placement, node_caps in *.
  case_bool_decide as Hn.
  - symmetry. apply length_zero_iff_nil. by rewrite spread_length, Hs.
  - apply take_ge. by rewrite spread_length, Hs.
Qed.

(** ** Everything at home *)

Lemma device_order_head peers :
  Forall (fun c => (c <= u64_max)%N) peers -> exists rest, device_order (node_caps peers) = 0 :: rest.
Proof.
  intros Hp. unfold device_order, node_caps. cbn [length seq sort_by foldr].
  set (f := fun d => (- Z.of_N (default 0%N ((u64_max :: peers) !! d)))%Z).
  destruct (foldr (insert_by f) [] (seq 1 (length peers))) as [|y l] eqn:E; [by exists []|]. cbn [insert_by].
  assert (ole (f 0) (f y) = true) as ->; [|by eexists]. unfold ole. apply bool_decide_eq_true_2.
  assert (default 0%N ((u64_max :: peers) !! y) <= u64_max)%N as Hy.
  { destruct y as [|y]; [done|]. simpl. destruct (peers !! y) as [c|] eqn:Ec; [|done]. by apply (Forall_lookup_1 _ _ _ _ Hp Ec). }
  unfold ocmp, ord_Z. rewrite Z.compare_gt_iff. change (f 0) with (- Z.of_N u64_max)%Z. unfold f. lia.
Qed.

Lemma share_first n peers :
  0 < n -> ((N.of_nat n - 1) * sum_n (map cap1 peers) < u64_max)%N ->
  n - 1 <= share n (total_cap (node_caps peers)) u64_max.
Proof.
  intros Hn Hs. pose proof (share_floor n (total_cap (node_caps peers)) u64_max (total_cap_pos _ _)) as [_ H].
  unfold node_caps, total_cap in *. cbn [map sum_n foldr] in *. fold (sum_n (map cap1 peers)) in *.
  change (cap1 u64_max) with u64_max in *. set (S := sum_n (map cap1 peers)) in *.
  destruct n as [|n]; [lia|]. replace (N.of_nat (Datatypes.S n) - 1)%N with (N.of_nat n) in Hs by lia.
  set (q := share (Datatypes.S n) (u64_max + S) u64_max) in *. destruct (decide (Datatypes.S n - 1 <= q)) as [|Hq]; [done|]. exfalso.
  assert (N.of_nat (Datatypes.S q) * (u64_max + S) <= N.of_nat n * (u64_max + S))%N by (apply N.mul_le_mono_r; lia).
  rewrite N.mul_add_distr_l in *. rewrite (Nat2N.inj_succ n), N.mul_succ_l in *. lia.
Qed.

Lemma share_zero n peers c :
  c ∈ peers -> ((N.of_nat n - 1) * sum_n (map cap1 peers) < u64_max)%N -> share n (total_cap (node_caps peers)) c = 0.
Proof.
  intros Hc Hs. unfold share. rewrite N.div_small; [done|]. unfold node_caps, total_cap. cbn [map sum_n foldr].
  fold (sum_n (map cap1 peers)). change (cap1 u64_max) with u64_max.
  assert (cap1 c <= sum_n (map cap1 peers))%N as Hle.
  { clear Hs. induction Hc as [c l|c y l _ IH]; simpl; unfold sum_n in *; lia. }
  destruct n as [|n]; [unfold u64_max; simpl; lia|].
  replace (N.of_nat (S n) - 1)%N with (N.of_nat n) in Hs by lia. rewrite Nat2N.inj_succ, N.mul_succ_l.
  pose proof (N.mul_le_mono_l _ _ (N.of_nat n) Hle). lia.
Qed.

(** Peers whose capacities are small against this node's get no shard. *)
Lemma placement_home n peers :
  Forall (fun c => (c <= u64_max)%N) peers -> ((N.of_nat n - 1) * sum_n (map cap1 peers) < u64_max)%N ->
  capacity_weighted_placement n peers = replicate n 0.
Proof.
  intros Hp Hs. destruct (decide (n = 0)) as [->|Hn]; [done|]. rewrite placement_eq.
  destruct (placement_alloc_spec n u64_max peers) as (_ & Hsum & _). fold (node_caps peers) in Hsum.
  assert (placement_alloc n (node_caps peers) !! 0 = Some n) as H0.
  { unfold placement_alloc. fold (device_order (node_caps peers)). destruct (device_order_head peers Hp) as [rest ->].
    set (shares := map _ (node_caps peers)).
    assert (sum_list shares = share n (total_cap (node_caps peers)) u64_max) as Esum.
    { unfold shares, node_caps at 2. cbn [map sum_list_with]. unfold id at 1.
      assert (sum_list (map (share n (total_cap (node_caps peers))) peers) = 0) as E; [|simpl in *; lia].
      rewrite (map_ext_in _ (fun _ => 0)); [by clear; induction peers|].
      intros c Hc. apply share_zero; [by apply list_elem_of_In|done]. }
    pose proof (share_first n peers ltac:(lia) Hs). pose proof (shares_sum n u64_max peers) as [Hle _].
    fold (node_caps peers) shares in Hle. rewrite Esum in *.
    set (q := share n (total_cap (node_caps peers)) u64_max) in *.
    assert (shares !! 0 = Some q) as Hq by done.
    destruct (decide (q = n)) as [E|E].
    - replace (n - q) with 0 by lia. cbn [give_remainder]. by rewrite Hq, E.
    - replace (n - q) with 1 by lia. cbn [give_remainder]. assert (forall a, give_remainder rest 0 a = a) as -> by (by destruct rest).
      rewrite list_lookup_alter_eq, Hq. simpl. f_equal. lia. }
  rewrite <-Hsum at 2. rewrite <-(spread_length 0). apply count_all.
  pose proof (spread_count 0 _ _ _ H0) as Hc. rewrite spread_length, Hsum. exact Hc.
Qed.

(** ** Parameters *)

Lemma compute_params_spec alive f :
  let '(k, n) := compute_params alive f in
  1 <= k <= n /\ n <= 8 /\ is_power_of_two n = true /\ (2 <= alive -> Nat.min alive 8 <= n /\ k + Nat.min f (n - 1) = n).
Proof.
  unfold compute_params. case_bool_decide as Ha; [split_and!; try done; lia|].
  set (a := Nat.min alive 8). assert (2 <= a <= 8) as Hab by lia.
  assert (Nat.log2_up a <= 3) by (apply (Nat.log2_up_le_mono a 8); lia).
  pose proof (Nat.log2_up_spec a ltac:(lia)) as [_ Hup]. set (m := Nat.log2_up a) in *.
  assert (2 ^ m <= 8) by (apply (Nat.pow_le_mono_r 2 m 3); lia).
  split; [lia|]. split; [done|]. split; [apply is_power_of_two_spec; by exists m|]. intros _. lia.
Qed.

(** ** The property *)

(** every shard of a file is placed on exactly one known device, in
    device order; each device gets the number of shards proportional to its
    capacity to within one; and where the node's own capacity dominates, as it
    does for peers of any realistic size, every shard stays at home. *)
Lemma placement_exact (n : nat) (peers : list N) :
  let p := capacity_weighted_placement n peers in
  let total := total_cap (node_caps peers) in
  length p = n /\ StronglySorted le p /\ (forall d, d ∈ p -> d <= length peers) /\
  (forall d c, node_caps peers !! d = Some c ->
     let held := N.of_nat (count_occ Nat.eq_dec p d) in
     (N.of_nat n * cap1 c < (held + 1) * total /\ held * total <= N.of_nat n * cap1 c + total)%N) /\
  (Forall (fun c => (c <= u64_max)%N) peers -> ((N.of_nat n - 1) * sum_n (map cap1 peers) < u64_max)%N ->
     p = replicate n 0).
Proof.
  intros p total. destruct (placement_alloc_spec n u64_max peers) as (Hl & Hsum & Ha). fold (node_caps peers) in *.
  assert (p = spread 0 (placement_alloc n (node_caps peers))) as Ep by apply placement_eq.
  split; [by rewrite Ep, spread_length|]. split; [rewrite Ep; apply spread_sorted|]. split; [|split; [|apply placement_home]].
  - intros d Hd. rewrite Ep in Hd. apply spread_bounds in Hd. rewrite Hl in Hd. simpl in Hd. lia.
  - intros d c Hc held. pose proof (share_floor n total c (total_cap_pos _ _)) as [H1 H2]. unfold held. rewrite Ep.
    fold total in Ha. destruct (Ha d c Hc) as [E|E];
      pose proof (spread_count 0 _ d _ E) as Ec; change (0 + d) with d in Ec; rewrite Ec; rewrite ?Nat2N.inj_succ in *; lia.
Qed.

Lemma placement_exact_witness : capacity_weighted_placement 4 [1000; 0]%N = replicate 4 0.
Proof. apply (placement_exact 4 [1000; 0]%N); [repeat constructor; by vm_compute|by vm_compute]. Defined.
