(* ===== verification/Node.v ===== *)
(** * Node: the sync node (src/node.rs)

    [shared_state] is what a node keeps: the registry, the files of its data
    directory, its peers and their health.  What peers answer is an argument:
    [fetch] for chunks and a [registry_response] for registries, both of which
    may be forged.  Files of the chunk directory are named by the string the
    code joins to its path; writing and removing files succeeds.  The JSON
    texts of serde are the class [Json]; the wall clock is an argument. *)

From S2P Require Import Prelude Order Bytes Externals Goldilocks Instances Erasure Store Das VDisk Placement.

Record registry_response := mk_response { rr_registry : Registry.gset_crdt; rr_merkle_root : string }.

(** [serde_json]'s printing and parsing of the values that are stored or
    sent. *)
Class Json := {
  json_registry : Registry.gset_crdt -> string;
  parse_registry : string -> option Registry.gset_crdt;
  json_peers : list string -> string;
  parse_peers : string -> option (list string);
  json_capacities : list N -> string;
  parse_capacities : string -> option (list N);
  json_response : registry_response -> string;
  parse_response : string -> option registry_response
}.
Section node.
Context {HM : Hemera} {NB : Nebu} {NT : Ntt} {JS : Json}.

Record peer_health := mk_health { ph_last_seen : N; ph_consecutive_failures : N }.
Definition DEAD_AFTER_FAILURES : N := 3.

(** The files are those of [data_dir] and of its directory [chunks]. *)
Record shared_state := mk_node {
  nd_registry : Registry.gset_crdt;
  nd_files : gmap string string;
  nd_chunks : gmap string (list byte);
  nd_k : nat;
  nd_n : nat;
  nd_peers : list string;
  nd_peer_capacities : list N;
  nd_device_id : string;
  nd_peer_health : gmap string peer_health
}.

Inductive node_error :=
| FileMissing | AlreadyDeleted | TooFewShards (available required : nat) | Undecodable (e : decode_error)
| PeerUnreachable | RootMismatch.

Definition set_node_registry (s : shared_state) (g : Registry.gset_crdt) : shared_state :=
  mk_node g (nd_files s) (nd_chunks s) (nd_k s) (nd_n s) (nd_peers s) (nd_peer_capacities s) (nd_device_id s) (nd_peer_health s).
Definition set_node_chunks (s : shared_state) (c : gmap string (list byte)) : shared_state :=
  mk_node (nd_registry s) (nd_files s) c (nd_k s) (nd_n s) (nd_peers s) (nd_peer_capacities s) (nd_device_id s) (nd_peer_health s).
Definition write_node_file (s : shared_state) (name content : string) : shared_state :=
  mk_node (nd_registry s) (<[name := content]> (nd_files s)) (nd_chunks s) (nd_k s) (nd_n s) (nd_peers s)
    (nd_peer_capacities s) (nd_device_id s) (nd_peer_health s).
Definition set_node_health (s : shared_state) (h : gmap string peer_health) : shared_state :=
  mk_node (nd_registry s) (nd_files s) (nd_chunks s) (nd_k s) (nd_n s) (nd_peers s) (nd_peer_capacities s) (nd_device_id s) h.

Definition save_registry (s : shared_state) : shared_state :=
  write_node_file s "registry.json" (json_registry (nd_registry s)).
Definition save_peers (s : shared_state) : shared_state :=
  write_node_file (write_node_file s "peers.json" (json_peers (nd_peers s)))
    "capacities.json" (json_capacities (nd_peer_capacities s)).

(** The part of [start] after the endpoint is bound: the files of the data
    directory are read back, an unreadable one counting as empty. *)
Definition node_start (files : gmap string string) (chunks : gmap string (list byte)) (k n : nat) (device_id : string)
    : outcome shared_state :=
  assert_or_panic (is_power_of_two n);;
  assert_or_panic (bool_decide (1 <= k) && bool_decide (k <= n));;
  let registry := match files !! "registry.json" with
                  | Some s => default Registry.gset_new (parse_registry s)
                  | None => Registry.gset_new
                  end in
  let peers := match files !! "peers.json" with Some s => default [] (parse_peers s) | None => [] end in
  let peer_capacities := match files !! "capacities.json" with
                         | Some s => default [] (parse_capacities s)
                         | None => replicate (length peers) 0%N
                         end in
  Done (mk_node registry files chunks k n peers peer_capacities device_id ∅).

Definition add_peer (s : shared_state) (addr : string) (capacity : N) : shared_state :=
  if bool_decide (addr ∈ nd_peers s) then s
  else save_peers (mk_node (nd_registry s) (nd_files s) (nd_chunks s) (nd_k s) (nd_n s) (nd_peers s ++ [addr])
                     (nd_peer_capacities s ++ [capacity]) (nd_device_id s) (nd_peer_health s)).

(** ** Storing *)

(** One shard: its hash, and its bytes in the chunk directory if it is placed
    on this node, or if there is no peer. *)
Definition keep_shard (placement : list nat) (alone : bool) (st : gmap string (list byte) * list string) (s : shard)
    : gmap string (list byte) * list string :=
  let bytes := Chunks.shard_to_bytes s in
  let hex := to_hex (hemera_hash bytes) in
  let keep_local := bool_decide (default 0 (placement !! sh_index s) = 0) in
  (if keep_local || alone then <[hex := bytes]> st.1 else st.1, st.2 ++ [hex]).

Definition node_entry (s : shared_state) (name : string) (len : nat) (hashes : list string) (timestamp : N)
    (das_root : string) : Registry.file_entry :=
  {| Registry.fe_name := name; Registry.fe_original_len := len; Registry.fe_k := nd_k s; Registry.fe_n := nd_n s;
     Registry.fe_shard_hashes := hashes; Registry.fe_timestamp := timestamp;
     Registry.fe_entry_hash := Registry.compute_hash name hashes timestamp (nd_device_id s);
     Registry.fe_device_id := nd_device_id s; Registry.fe_das_root := das_root;
     Registry.fe_shard_copies := 1; Registry.fe_deleted := false |}.

Definition node_put (s : shared_state) (name : string) (data : list byte) (now : N) : outcome shared_state :=
  shards ← encode data (nd_k s) (nd_n s);
  let commitment := das_commit shards (nd_k s) (length data) in
  let placement := capacity_weighted_placement (nd_n s) (nd_peer_capacities s) in
  let '(chunks, hashes) := fold_left (keep_shard placement (bool_decide (nd_peers s = []))) shards (nd_chunks s, []) in
  let s := set_node_chunks s chunks in
  let s := set_node_registry s (Registry.insert (nd_registry s)
             (node_entry s name (length data) hashes now (hash_debug (dc_root commitment)))) in
  Done (save_registry s).

(** ** Reading *)

(** [&s[..16]], which panics on a shorter string or inside a character. *)
Definition is_continuation (c : Ascii.ascii) : bool :=
  let v := Ascii.N_of_ascii c in (128 <=? v)%N && (v <? 192)%N.
Definition prefix16 (s : string) : outcome unit :=
  assert_or_panic (bool_decide (16 <= String.length s) &&
    match String.get 16 s with Some c => negb (is_continuation c) | None => true end).

Section reading.
(** The answer of a peer to the request for the chunk of a shard. *)
Variable fetch : nat -> string -> string -> option (list byte).

(** The first peer whose answer verifies. *)
Fixpoint fetch_from_peers (peers : list string) (idx : nat) (expected : string) : outcome (option (list byte)) :=
  match peers with
  | [] => Done None
  | peer :: peers =>
      match fetch idx peer expected with
      | Some bytes =>
          if Chunks.verify_chunk bytes expected then Done (Some bytes)
          else prefix16 expected;; fetch_from_peers peers idx expected
      | None => fetch_from_peers peers idx expected
      end
  end.

Fixpoint gather_shards (peers : list string) (k : nat) (chunks : gmap string (list byte)) (available : list shard)
    (items : list (nat * string)) : gmap string (list byte) * outcome (list shard) :=
  match items with
  | [] => (chunks, Done available)
  | (idx, expected) :: items =>
      let continue_or_stop chunks available :=
        if bool_decide (k <= length available) then (chunks, Done available)
        else gather_shards peers k chunks available items in
      let from_peers chunks :=
        match fetch_from_peers peers idx expected with
        | Panic => (chunks, Panic)
        | Done (Some bytes) =>
            continue_or_stop (<[expected := bytes]> chunks) (available ++ [Chunks.bytes_to_shard idx bytes])
        | Done None => continue_or_stop chunks available
        end in
      match chunks !! expected with
      | Some bytes =>
          if Chunks.verify_chunk bytes expected
          then continue_or_stop chunks (available ++ [Chunks.bytes_to_shard idx bytes])
          else match prefix16 expected with
               | Panic => (chunks, Panic)
               | Done _ => from_peers (delete expected chunks)
               end
      | None => from_peers chunks
      end
  end.

Definition node_get (s : shared_state) (name : string) : shared_state * result (fault node_error) (list byte) :=
  match Registry.get (nd_registry s) name with
  | None => (s, Err (Failed FileMissing))
  | Some entry =>
      let hashes := Registry.fe_shard_hashes entry in
      let '(chunks, r) := gather_shards (nd_peers s) (Registry.fe_k entry) (nd_chunks s) []
                            (zip (seq 0 (length hashes)) hashes) in
      let s := set_node_chunks s chunks in
      match r with
      | Panic => (s, Err Panicked)
      | Done available =>
          if bool_decide (length available < Registry.fe_k entry)
          then (s, Err (Failed (TooFewShards (length available) (Registry.fe_k entry))))
          else
            (s, match decode available (Registry.fe_k entry) (Registry.fe_n entry) (Registry.fe_original_len entry) with
                | Ok data => Ok data
                | Err Panicked => Err Panicked
                | Err (Failed e) => Err (Failed (Undecodable e))
                end)
      end
  end.
End reading.
(** ** Syncing *)

(** [after - before], in [usize]. *)
Definition count_new (before after : nat) : outcome nat := if bool_decide (before <= after) then Done (after - before) else Panic.

(** The chunks an iteration over a registry's entries asks for. *)
Definition wanted (entries : list Registry.file_entry) : list string := concat (map Registry.fe_shard_hashes entries).

Section syncing.
(** The answer of the peer to the request for a chunk, the [i]-th one. *)
Variable fetch : nat -> string -> option (list byte).

Fixpoint fetch_missing (i : nat) (hashes : list string) (chunks : gmap string (list byte)) (fetched rejected : nat)
    : gmap string (list byte) * outcome (nat * nat) :=
  match hashes with
  | [] => (chunks, Done (fetched, rejected))
  | h :: hashes =>
      match chunks !! h with
      | Some _ => fetch_missing (S i) hashes chunks fetched rejected
      | None =>
          match fetch i h with
          | None => fetch_missing (S i) hashes chunks fetched rejected
          | Some bytes =>
              if Chunks.verify_chunk bytes h then fetch_missing (S i) hashes (<[h := bytes]> chunks) (S fetched) rejected
              else match prefix16 h with
                   | Panic => (chunks, Panic)
                   | Done _ => fetch_missing (S i) hashes chunks fetched (S rejected)
                   end
          end
      end
  end.

(** The same in the background: a chunk that does not verify is ignored. *)
Fixpoint fetch_quietly (i : nat) (hashes : list string) (chunks : gmap string (list byte)) (fetched : nat)
    : gmap string (list byte) * nat :=
  match hashes with
  | [] => (chunks, fetched)
  | h :: hashes =>
      match chunks !! h with
      | Some _ => fetch_quietly (S i) hashes chunks fetched
      | None =>
          match fetch i h with
          | Some bytes =>
              if Chunks.verify_chunk bytes h then fetch_quietly (S i) hashes (<[h := bytes]> chunks) (S fetched)
              else fetch_quietly (S i) hashes chunks fetched
          | None => fetch_quietly (S i) hashes chunks fetched
          end
      end
  end.
End syncing.

(** How maps are iterated: the values of a registry's map of files. *)
Variable iter : gmap string Registry.file_entry -> list Registry.file_entry.

(** New files, entries rejected, chunks fetched and rejected. *)
Definition sync_with (s : shared_state) (response : option registry_response) (fetch : nat -> string -> option (list byte))
    (now : N) : shared_state * result (fault node_error) (nat * nat * nat * nat) :=
  match response with
  | None => (s, Err (Failed PeerUnreachable))
  | Some r =>
      let computed_root := Registry.merkle_root (rr_registry r) in
      if negb (bool_decide (computed_root = rr_merkle_root r))
      then (s, match prefix16 (rr_merkle_root r);; prefix16 computed_root with
               | Panic => Err Panicked
               | Done _ => Err (Failed RootMismatch)
               end)
      else
        let before := Registry.live_len (nd_registry s) in
        let '(g, (_, merge_rejected)) :=
          Registry.validated_merge now (nd_registry s) (iter (Registry.files (rr_registry r))) in
        let after := Registry.live_len g in
        let s := save_registry (set_node_registry s g) in
        match count_new before after with
        | Panic => (s, Err Panicked)
        | Done new =>
            let '(chunks, r) := fetch_missing fetch 0 (wanted (iter (Registry.files g))) (nd_chunks s) 0 0 in
            (set_node_chunks s chunks,
             match r with
             | Panic => Err Panicked
             | Done (fetched, rejected) => Ok (new, merge_rejected, fetched, rejected)
             end)
        end
  end.

(** What the network and the clock answer while one peer is synced. *)
Record peer_answers := mk_answers {
  pa_response : option registry_response;
  pa_fetch : nat -> string -> option (list byte);
  pa_now : N
}.

(** An error with one peer is reported and the next one tried. *)
Fixpoint sync_peers (s : shared_state) (answers : list peer_answers) : shared_state * outcome unit :=
  match answers with
  | [] => (s, Done tt)
  | a :: answers =>
      match sync_with s (pa_response a) (pa_fetch a) (pa_now a) with
      | (s, Err Panicked) => (s, Panic)
      | (s, _) => sync_peers s answers
      end
  end.
Definition sync_all (s : shared_state) (answers : string -> peer_answers) : shared_state * outcome unit :=
  sync_peers s (map answers (nd_peers s)).

(** ** Background sync *)

Definition load_registry (s : shared_state) : shared_state :=
  match nd_files s !! "registry.json" with
  | Some text =>
      match parse_registry text with
      | Some g => set_node_registry s (Registry.merge (nd_registry s) (iter (Registry.files g)))
      | None => s
      end
  | None => s
  end.

Definition background_peer (s : shared_state) (a : peer_answers) : shared_state * outcome (nat * nat) :=
  match pa_response a with
  | None => (s, Done (0, 0))
  | Some r =>
      if negb (bool_decide (Registry.merkle_root (rr_registry r) = rr_merkle_root r)) then (s, Done (0, 0))
      else
        let before := Registry.live_len (nd_registry s) in
        let g := (Registry.validated_merge (pa_now a) (nd_registry s) (iter (Registry.files (rr_registry r)))).1 in
        let after := Registry.live_len g in
        let s := set_node_registry s g in
        match count_new before after with
        | Panic => (s, Panic)
        | Done new =>
            let s := if bool_decide (before < after) then save_registry s else s in
            let '(chunks, fetched) := fetch_quietly (pa_fetch a) 0 (wanted (iter (Registry.files g))) (nd_chunks s) 0 in
            (set_node_chunks s chunks, Done (new, fetched))
        end
  end.

Fixpoint background_peers (s : shared_state) (answers : list peer_answers) (total : nat * nat)
    : shared_state * outcome (nat * nat) :=
  match answers with
  | [] => (s, Done total)
  | a :: answers =>
      match background_peer s a with
      | (s, Panic) => (s, Panic)
      | (s, Done (new, fetched)) => background_peers s answers (total.1 + new, total.2 + fetched)
      end
  end.
Definition background_sync (s : shared_state) (answers : string -> peer_answers) : shared_state * outcome (nat * nat) :=
  let s := load_registry s in
  background_peers s (map answers (nd_peers s)) (0, 0).

(** ** Deletion, collection, audit, liveness *)

Definition tombstone (s : shared_state) (existing : Registry.file_entry) (name : string) (timestamp : N) : Registry.file_entry :=
  let hashes := Registry.fe_shard_hashes existing in
  {| Registry.fe_name := name; Registry.fe_original_len := 0; Registry.fe_k := Registry.fe_k existing;
     Registry.fe_n := Registry.fe_n existing; Registry.fe_shard_hashes := hashes; Registry.fe_timestamp := timestamp;
     Registry.fe_entry_hash := Registry.compute_hash name hashes timestamp (nd_device_id s);
     Registry.fe_device_id := nd_device_id s;
     Registry.fe_das_root := String.string_of_list_ascii (replicate 64 (Ascii.ascii_of_N 48));
     Registry.fe_shard_copies := 1; Registry.fe_deleted := true |}.

Definition delete_file (s : shared_state) (name : string) (now : N) : shared_state * result node_error unit :=
  match Registry.get_raw (nd_registry s) name with
  | None => (s, Err FileMissing)
  | Some existing =>
      if Registry.fe_deleted existing then (s, Err AlreadyDeleted)
      else (save_registry (set_node_registry s (Registry.insert (nd_registry s) (tombstone s existing name now))), Ok tt)
  end.

(** [listing] is the order in which the chunk directory is read. *)
Definition node_gc (s : shared_state) (listing : list string) : shared_state * (nat * N) :=
  let '(c, r) := Chunks.gc (Chunks.store_new (nd_chunks s) 0) (Registry.live_shard_hashes (nd_registry s)) listing in
  (set_node_chunks s (Chunks.disk c), r).

Definition node_audit (s : shared_state) (listing : list string) : shared_state * (nat * nat) :=
  let store := Chunks.store_new (nd_chunks s) 0 in
  let '(ok, corrupt, corrupt_hashes) := Chunks.audit store listing in
  let store := fold_left (fun c h => (Chunks.remove c h).2) corrupt_hashes store in
  (set_node_chunks s (Chunks.disk store), (ok, corrupt)).

(** One peer: its health after the ping, and whether it is counted alive or
    dead; the failure counter is a [u32]. *)
Definition beat (health : gmap string peer_health) (peer : string) (is_alive : bool) (now : N)
    : outcome (gmap string peer_health * bool * bool) :=
  let h := default (mk_health 0 0) (health !! peer) in
  if is_alive then Done (<[peer := mk_health now 0]> health, true, false)
  else
    let failures := (ph_consecutive_failures h + 1)%N in
    if (u32_max <? failures)%N then Panic
    else Done (<[peer := mk_health (ph_last_seen h) failures]> health, false, (DEAD_AFTER_FAILURES <=? failures)%N).

(** [pings] are the answers of the peers and the clock at each. *)
Fixpoint beats (health : gmap string peer_health) (pings : list (string * (bool * N)))
    : outcome (gmap string peer_health * nat * list string) :=
  match pings with
  | [] => Done (health, 0, [])
  | (peer, (is_alive, now)) :: pings =>
      match beat health peer is_alive now with
      | Panic => Panic
      | Done (health, up, down) =>
          '(health, alive, dead) ← beats health pings;
          Done (health, Nat.b2n up + alive, (if down : bool then [peer] else []) ++ dead)
      end
  end.
Definition heartbeat (s : shared_state) (pings : list (bool * N)) : outcome (shared_state * nat * list string) :=
  '(health, alive, dead) ← beats (nd_peer_health s) (zip (nd_peers s) pings);
  Done (set_node_health s health, alive, dead).

Definition node_status (s : shared_state) : nat * nat * nat * nat :=
  (Registry.live_len (nd_registry s), length (nd_peers s), size (nd_chunks s), 0).

(** ** The protocol *)

Definition MSG_PING : byte := x01.
Definition MSG_PONG : byte := x02.
Definition MSG_GET_CHUNK : byte := x05.
Definition MSG_CHUNK_DATA : byte := x06.
Definition MSG_CHUNK_NOT_FOUND : byte := x07.
Definition MSG_REGISTRY : byte := x08.
Definition MSG_REGISTRY_RESPONSE : byte := x09.

(** Big-endian, as tokio writes a [u32]. *)
Definition write_bytes (data : list byte) : list byte := rev (u32_le (as_u32 (N.of_nat (length data)))) ++ data.
(** [None] when the stream ends too early. *)
Definition read_bytes (stream : list byte) : option (list byte) :=
  if bool_decide (length stream < 4) then None
  else
    let len := N.to_nat (be_num (take 4 stream)) in
    if bool_decide (length stream < 4 + len) then None else Some (take len (drop 4 stream)).

(** [String::from_utf8]: the well-formed sequences of the Unicode standard. *)
Definition in_range (lo hi : N) (b : byte) : bool := (lo <=? Byte.to_N b)%N && (Byte.to_N b <=? hi)%N.
Definition cont (b : byte) : bool := in_range 128 191 b.
Fixpoint is_utf8 (l : list byte) : bool :=
  match l with
  | [] => true
  | a :: l =>
      if in_range 0 127 a then is_utf8 l
      else
        match l with
        | [] => false
        | b :: l =>
            if in_range 194 223 a then cont b && is_utf8 l
            else
              match l with
              | [] => false
              | c :: l =>
                  if in_range 224 239 a then
                    (if (Byte.to_N a =? 224)%N then in_range 160 191 b
                     else if (Byte.to_N a =? 237)%N then in_range 128 159 b else cont b)
                    && cont c && is_utf8 l
                  else
                    match l with
                    | [] => false
                    | d :: l =>
                        in_range 240 244 a &&
                        (if (Byte.to_N a =? 240)%N then in_range 144 191 b
                         else if (Byte.to_N a =? 244)%N then in_range 128 143 b else cont b)
                        && cont c && cont d && is_utf8 l
                    end
              end
        end
  end.
Definition from_utf8 (l : list byte) : option string :=
  if is_utf8 l then Some (String.string_of_list_byte l) else None.
Definition read_string (stream : list byte) : option string := bytes ← read_bytes stream; from_utf8 bytes.

(** What the node serves as its registry: the saved one, if there is one. *)
Definition served_registry (s : shared_state) : Registry.gset_crdt :=
  match nd_files s !! "registry.json" with
  | Some text => default Registry.gset_new (parse_registry text)
  | None => nd_registry s
  end.

(** The bytes answered to a request before the connection closes; a request
    that cannot be read is answered by nothing. *)
Definition handle_connection (s : shared_state) (request : list byte) : list byte :=
  match request with
  | [] => []
  | msg_type :: payload =>
      if Byte.eqb msg_type MSG_PING then [MSG_PONG]
      else if Byte.eqb msg_type MSG_GET_CHUNK then
        match read_string payload with
        | None => []
        | Some hash_hex =>
            match nd_chunks s !! hash_hex with
            | Some data => MSG_CHUNK_DATA :: write_bytes data
            | None => [MSG_CHUNK_NOT_FOUND]
            end
        end
      else if Byte.eqb msg_type MSG_REGISTRY then
        let registry := served_registry s in
        let response := mk_response registry (Registry.merkle_root registry) in
        MSG_REGISTRY_RESPONSE :: write_bytes (str_bytes (json_response response))
      else []
  end.

(** The client's requests, and how it reads the answers. *)
Definition chunk_request (hash_hex : string) : list byte := MSG_GET_CHUNK :: write_bytes (str_bytes hash_hex).
Definition read_chunk_reply (reply : list byte) : option (list byte) :=
  match reply with
  | response :: rest => if Byte.eqb response MSG_CHUNK_DATA then read_bytes rest else None
  | [] => None
  end.
Definition registry_request : list byte := [MSG_REGISTRY].
Definition read_registry_reply (reply : list byte) : option registry_response :=
  match reply with
  | response :: rest =>
      if Byte.eqb response MSG_REGISTRY_RESPONSE
      then data ← read_bytes rest; json ← from_utf8 data; parse_response json
      else None
  | [] => None
  end.
Definition ping_request : list byte := [MSG_PING].
Definition read_ping_reply (reply : list byte) : bool :=
  match reply with response :: _ => Byte.eqb response MSG_PONG | [] => false end.

(** The exchanges with a peer that answers by [server]. *)
Definition fetch_chunk_from_peer (server : list byte -> list byte) (hash_hex : string) : option (list byte) :=
  read_chunk_reply (server (chunk_request hash_hex)).
Definition fetch_registry_with_proof (server : list byte -> list byte) : option registry_response :=
  read_registry_reply (server registry_request).
Definition ping_peer (server : list byte -> list byte) : bool := read_ping_reply (server ping_request).
End node.
