(* ===== verification/NodeSync.v ===== *)
(** * NodeSync: what the sync node guarantees (src/node.rs)

    Against peers that answer anything: a file that is read is the file that
    was coded, and syncing takes only validated entries and verified chunks,
    and loses none.  With honest peers: an exchange transports chunks and
    registries exactly, and two nodes that sync each other agree.  A file put
    on a node survives its restart. *)

From S2P Require Import Prelude Order Bytes Externals Goldilocks Instances Erasure Store Das VDisk Placement Node.

(** ** Digests as chunk names *)

Section names.
Context {HM : Hemera} {HD : HexDigits}.

Lemma string_get_ascii s i c : is_ascii s = true -> String.get i s = Some c -> is_continuation c = false.
Proof.
  unfold is_ascii. revert i. induction s as [|a s IH]; intros i; [done|]. cbn [String.list_ascii_of_string forallb].
  intros [Ha Hs]%andb_true_iff. destruct i as [|i]; cbn [String.get]; [|by apply IH]. intros [= ->].
  unfold is_continuation. apply andb_false_iff. left. apply N.ltb_lt in Ha. apply N.leb_gt. lia.
Qed.

Lemma prefix16_hex h : prefix16 (to_hex h) = Done tt.
Proof.
  unfold prefix16, assert_or_panic. rewrite to_hex_digits, hex_of_bytes_length, arr_length.
  rewrite bool_decide_eq_true_2 by lia. cbn [andb]. destruct (String.get 16 _) as [c|] eqn:E; [|done].
  by rewrite (string_get_ascii _ _ _ (hex_is_ascii _) E).
Qed.

Lemma verify_chunk_spec b h : Chunks.verify_chunk b h = true <-> to_hex (hemera_hash b) = h.
Proof. unfold Chunks.verify_chunk. by rewrite bool_decide_eq_true. Qed.
End names.

(** ** Chunk directories *)

Section chunks.
Context {HM : Hemera}.
Abbreviation chunk_dir := (gmap string (list byte)).

(** Chunks that verify stay, and new ones verify. *)
Definition trusted_growth (c c' : chunk_dir) : Prop :=
  (forall h b, c !! h = Some b -> to_hex (hemera_hash b) = h -> c' !! h = Some b) /\
  (forall h b, c' !! h = Some b -> c !! h = Some b \/ to_hex (hemera_hash b) = h).

#[export] Instance trusted_growth_preorder : PreOrder trusted_growth.
Proof.
  split; [split; auto|]. intros c1 c2 c3 [H1 G1] [H2 G2]. split; [auto|].
  intros h b [Hb|Hb]%G2; auto.
Qed.

Lemma trusted_delete c h b : c !! h = Some b -> to_hex (hemera_hash b) <> h -> trusted_growth c (delete h c).
Proof.
  intros Hb Hv. split.
  - intros h' b' Hb' Hv'. rewrite lookup_delete_ne; [done|]. intros <-. congruence.
  - intros h' b' Hb'. left. by apply lookup_delete_Some in Hb' as [_ ?].
Qed.

Lemma trusted_insert c h b : c !! h = None -> to_hex (hemera_hash b) = h -> trusted_growth c (<[h := b]> c).
Proof.
  intros Hn Hv. split.
  - intros h' b' Hb' Hv'. rewrite lookup_insert_ne; [done|]. intros <-. congruence.
  - intros h' b' Hb'. apply lookup_insert_Some in Hb' as [[<- <-]|[_ ?]]; auto.
Qed.
End chunks.

(** ** Reading against any peers *)

Section reading.
Context {HM : Hemera} {HD : HexDigits} {NB : Nebu} {NT : Ntt} {JS : Json} {NL : NebuLaws} {TL : NttLaws}.
Variable fetch : nat -> string -> string -> option (list byte).

Definition hex_of_shard (s : shard) : string := to_hex (shash s).

(** The directory or some peer has the bytes of the shard. *)
Definition obtainable (peers : list string) (c : gmap string (list byte)) (s : shard) : Prop :=
  (exists b, c !! hex_of_shard s = Some b /\ to_hex (hemera_hash b) = hex_of_shard s) \/
  (exists peer b, peer ∈ peers /\ fetch (sh_index s) peer (hex_of_shard s) = Some b /\ to_hex (hemera_hash b) = hex_of_shard s).

Lemma obtainable_growth peers c c' s : trusted_growth c c' -> obtainable peers c s -> obtainable peers c' s.
Proof. intros [Hg _] [(b & Hb & Hv)|Hp]; [left; eauto|by right]. Qed.

Lemma fetch_from_peers_spec peers idx h :
  prefix16 h = Done tt ->
  exists r, fetch_from_peers fetch peers idx h = Done r /\
    match r with
    | Some b => to_hex (hemera_hash b) = h
    | None => forall peer b, peer ∈ peers -> fetch idx peer h = Some b -> to_hex (hemera_hash b) <> h
    end.
Proof.
  intros Hp. induction peers as [|peer peers (r & Hr & IH)]; cbn [fetch_from_peers].
  { exists None. split; [done|]. intros peer b Hin. by apply elem_of_nil in Hin. }
  destruct (fetch idx peer h) as [b|] eqn:Ef.
  - destruct (Chunks.verify_chunk b h) eqn:Ev; [exists (Some b); split; [done|]; by apply verify_chunk_spec|].
    rewrite Hp. cbn [mbind outcome_bind]. exists r. split; [done|]. destruct r; [done|].
    intros p b' [->|Hin]%elem_of_cons Hf; [|by eapply IH]. rewrite Ef in Hf. injection Hf as <-.
    intros E%verify_chunk_spec. congruence.
  - exists r. split; [done|]. destruct r; [done|]. intros p b' [->|Hin]%elem_of_cons Hf; [congruence|by eapply IH].
Qed.

(** Verified bytes of a shard's name are the shard. *)
Lemma verified_shard b s : to_hex (hemera_hash b) = hex_of_shard s ->
  (exists x y, collides x y) \/ Chunks.bytes_to_shard (sh_index s) b = s.
Proof.
  intros E%(inj to_hex). destruct (decide (b = Chunks.shard_to_bytes s)) as [->|Hne].
  - right. rewrite bytes_to_shard_to_bytes. by destruct s.
  - left. by exists b, (Chunks.shard_to_bytes s).
Qed.

(** The outcome of gathering the shards [sh] after [avail]: shards of [sh] in
    order, enough of them or all that can be had. *)
Definition gathered (peers : list string) (k : nat) (c : gmap string (list byte)) (avail sh : list shard)
    (res : gmap string (list byte) * outcome (list shard)) : Prop :=
  trusted_growth c res.1 /\
  ((exists x y, collides x y) \/
   exists got, res.2 = Done (avail ++ got) /\ sublist got sh /\
     (k <= length (avail ++ got) \/ forall s, s ∈ sh -> obtainable peers c s -> s ∈ got)).

Definition gather_rest (peers : list string) (k : nat) (c : gmap string (list byte)) (avail : list shard) (i : nat)
    (sh : list shard) : gmap string (list byte) * outcome (list shard) :=
  gather_shards fetch peers k c avail (zip (seq i (length sh)) (map hex_of_shard sh)).

(** One shard handled, then stop or go on. *)
Lemma gathered_next peers k c c1 avail new i s sh :
  (forall c avail, gathered peers k c avail sh (gather_rest peers k c avail i sh)) -> trusted_growth c c1 ->
  (new = [s] \/ (new = [] /\ ~ obtainable peers c s) \/ (exists x y, collides x y)) ->
  gathered peers k c avail (s :: sh)
    (if bool_decide (k <= length (avail ++ new)) then (c1, Done (avail ++ new)) else gather_rest peers k c1 (avail ++ new) i sh).
Proof.
  intros IH Hg Hnew. case_bool_decide as Hk.
  - split; [done|]. destruct Hnew as [->|[[-> _]|?]]; [| |by left]; right.
    + exists [s]. split; [done|]. split; [by apply sublist_skip, sublist_nil_l|by left].
    + exists []. split; [done|]. split; [apply sublist_nil_l|by left].
  - destruct (IH c1 (avail ++ new)) as [Hg' Hr]. split; [by transitivity c1|].
    destruct Hr as [?|(got & -> & Hsub & Hgot)]; [by left|].
    destruct Hnew as [->|[[-> Hno]|?]]; [| |by left]; right.
    + exists (s :: got). rewrite <-app_assoc in *. split; [done|]. split; [by apply sublist_skip|].
      destruct Hgot as [?|Hgot]; [by left|right]. intros s0 [->|Hs]%elem_of_cons Ho; [constructor|].
      right. apply Hgot; [done|]. by apply (obtainable_growth _ c).
    + exists got. rewrite app_nil_r in *. split; [done|]. split; [by apply sublist_cons|].
      destruct Hgot as [?|Hgot]; [by left|right]. intros s0 [->|Hs]%elem_of_cons Ho; [done|].
      apply Hgot; [done|]. by apply (obtainable_growth _ c).
Qed.

(** A shard the directory does not have, asked from the peers. *)
Lemma gathered_from_peers peers k c c1 avail i s sh :
  (forall c avail, gathered peers k c avail sh (gather_rest peers k c avail (S i) sh)) ->
  trusted_growth c c1 -> c1 !! hex_of_shard s = None -> sh_index s = i ->
  (forall b, c !! hex_of_shard s = Some b -> to_hex (hemera_hash b) <> hex_of_shard s) ->
  gathered peers k c avail (s :: sh)
    (match fetch_from_peers fetch peers i (hex_of_shard s) with
     | Panic => (c1, Panic)
     | Done (Some bytes) =>
         let avail2 := avail ++ [Chunks.bytes_to_shard i bytes] in let c2 := <[hex_of_shard s := bytes]> c1 in
         if bool_decide (k <= length avail2) then (c2, Done avail2) else gather_rest peers k c2 avail2 (S i) sh
     | Done None => if bool_decide (k <= length avail) then (c1, Done avail) else gather_rest peers k c1 avail (S i) sh
     end).
Proof.
  intros IH Hg Hn Hi Hbad. destruct (fetch_from_peers_spec peers i (hex_of_shard s)) as (r & -> & Hr); [apply prefix16_hex|].
  destruct r as [b|]; cbn zeta.
  - apply gathered_next; [done| |].
    + transitivity c1; [done|]. by apply trusted_insert.
    + destruct (verified_shard b s Hr) as [?|E]; [by right; right|]. left. by rewrite <-Hi, E.
  - pose proof (gathered_next peers k c c1 avail [] (S i) s sh IH Hg) as Hnext. rewrite app_nil_r in Hnext. apply Hnext. right. left. split; [done|].
    intros [(b & Hb & Hv)|(peer & b & Hp & Hf & Hv)]; [by apply (Hbad b)|]. rewrite Hi in Hf. by apply (Hr peer b).
Qed.

Lemma gather_shards_spec peers k i sh c avail :
  (forall j s, sh !! j = Some s -> sh_index s = i + j) -> gathered peers k c avail sh (gather_rest peers k c avail i sh).
Proof.
  revert i c avail. induction sh as [|s sh IH]; intros i c avail Hi.
  { split; [done|]. right. exists []. rewrite app_nil_r. split; [done|]. split; [done|]. right. intros s Hs. by apply elem_of_nil in Hs. }
  pose proof (Hi 0 s eq_refl) as Hs0. rewrite Nat.add_0_r in Hs0.
  assert (forall c avail, gathered peers k c avail sh (gather_rest peers k c avail (S i) sh)) as IHs.
  { intros c0 a0. apply IH. intros j s0 Hj. rewrite (Hi (S j) s0 Hj). lia. }
  unfold gather_rest. cbn [length seq map zip zip_with gather_shards]. fold (gather_rest peers k).
  destruct (c !! hex_of_shard s) as [b|] eqn:Eb.
  - destruct (Chunks.verify_chunk b (hex_of_shard s)) eqn:Ev.
    + apply verify_chunk_spec in Ev. apply gathered_next; [done|done|].
      destruct (verified_shard b s Ev) as [?|E]; [by right; right|]. left. by rewrite <-Hs0, E.
    + assert (to_hex (hemera_hash b) <> hex_of_shard s) as Hne by (intros E%verify_chunk_spec; congruence).
      assert (prefix16 (hex_of_shard s) = Done tt) as -> by apply prefix16_hex. apply gathered_from_peers; [done| | |done|].
      * by apply (trusted_delete _ _ b).
      * by rewrite lookup_delete_eq.
      * intros b' Hb'. rewrite Eb in Hb'. by injection Hb' as <-.
  - apply gathered_from_peers; [done|done|done|done|]. intros b' Hb'. by rewrite Eb in Hb'.
Qed.

(** Enough shards that can be had are gathered. *)
Lemma enough_gathered peers k c sh l got :
  NoDup sh -> l ⊆+ sh -> k <= length l -> Forall (obtainable peers c) l ->
  (k <= length got \/ forall s, s ∈ sh -> obtainable peers c s -> s ∈ got) -> k <= length got.
Proof.
  intros Hn Hl Hk Ho [?|Hgot]; [done|]. etransitivity; [exact Hk|]. apply submseteq_length, NoDup_submseteq.
  - apply submseteq_Permutation in Hl as [rest E]. rewrite E in Hn. by apply NoDup_app in Hn as (? & _ & _).
  - intros s Hs. apply Hgot; [by eapply elem_of_submseteq|]. by apply (proj1 (Forall_forall _ _) Ho).
Qed.
End reading.

(** The texts of serde_json: parsing recovers what was printed, and a printed
    text is UTF-8. *)
Class JsonLaws {JS : Json} : Prop := {
  parse_json_registry : forall g, parse_registry (json_registry g) = Some g;
  parse_json_peers : forall l, parse_peers (json_peers l) = Some l;
  parse_json_capacities : forall l, parse_capacities (json_capacities l) = Some l;
  parse_json_response : forall r, parse_response (json_response r) = Some r;
  json_response_utf8 : forall r, is_utf8 (str_bytes (json_response r)) = true
}.

(** ** Files put on a node *)

Section files.
Context {HM : Hemera} {HD : HexDigits} {NB : Nebu} {NT : Ntt} {JS : Json} {NL : NebuLaws} {TL : NttLaws}.

Lemma encode_distinct data k n shards : encode data k n = Done shards -> NoDup shards.
Proof. intros He. eapply NoDup_fmap_1, encode_NoDup, He. Qed.

Lemma node_get_spec fetch s name e data shards :
  Registry.get (nd_registry s) name = Some e -> coded e data shards ->
  let '(s', r) := node_get fetch s name in
  trusted_growth (nd_chunks s) (nd_chunks s') /\ nd_registry s' = nd_registry s /\
  ((exists x y, collides x y) \/
   (r = Ok data \/ exists a, r = Err (Failed (TooFewShards a (Registry.fe_k e))) /\ a < Registry.fe_k e) /\
   ((exists l, l ⊆+ shards /\ Registry.fe_k e <= length l /\ Forall (obtainable fetch (nd_peers s) (nd_chunks s)) l) ->
    r = Ok data)).
Proof.
  intros He ((m & Hm & Em) & Henc & Hhs & Hlen). unfold node_get. rewrite He. cbn zeta. rewrite Hhs, length_map.
  destruct (encode_indices _ _ _ _ Henc) as [_ Hi].
  pose proof (gather_shards_spec fetch (nd_peers s) (Registry.fe_k e) 0 shards (nd_chunks s) [] Hi) as [Hg Hr].
  unfold gather_rest in *. change (map (fun s0 => to_hex (shash s0)) shards) with (map hex_of_shard shards).
  destruct (gather_shards _ _ _ _ _ _) as [c' r]. cbn [fst snd] in *.
  destruct Hr as [Hc|(got & -> & Hsub & Hgot)]; [by destruct r; [case_bool_decide|]; (split; [done|]; split; [done|by left])|].
  cbn [app] in *. pose proof (encode_k _ _ _ _ Henc). case_bool_decide as Hk.
  - split; [done|]. split; [done|]. right. split; [right; by exists (length got)|].
    intros (l & Hl & Hlk & Ho). exfalso.
    pose proof (enough_gathered fetch _ _ _ _ _ _ (encode_distinct _ _ _ _ Henc) Hl Hlk Ho Hgot). lia.
  - split; [done|]. split; [done|]. right.
    assert (decode got (Registry.fe_k e) (Registry.fe_n e) (Registry.fe_original_len e) = Ok data) as ->; [|by auto].
    rewrite Hlen, Em. rewrite Em in Henc. apply (decode_recovers data (Registry.fe_k e) m shards got); [done|done| | |lia].
    + apply Forall_forall. intros x Hx. by eapply elem_of_sublist.
    + eapply sublist_NoDup; [eapply encode_NoDup; exact Henc|]. by apply fmap_sublist.
Qed.

(** The directory has a chunk of that name, and it verifies. *)
Definition verified_in (c : gmap string (list byte)) (h : string) : Prop :=
  exists b, c !! h = Some b /\ to_hex (hemera_hash b) = h.

Lemma keep_shards placement alone shards c hs :
  let '(c', hs') := fold_left (keep_shard placement alone) shards (c, hs) in
  hs' = hs ++ map hex_of_shard shards /\
  (forall h, verified_in c h -> verified_in c' h) /\
  forall s, s ∈ shards -> default 0 (placement !! sh_index s) = 0 \/ alone = true -> verified_in c' (hex_of_shard s).
Proof.
  revert c hs. induction shards as [|s shards IH]; intros c hs; cbn [fold_left].
  { rewrite app_nil_r. split; [done|]. split; [done|]. intros s Hs. by apply elem_of_nil in Hs. }
  unfold keep_shard at 2. cbn [fst snd]. fold (shash s). fold (hex_of_shard s).
  set (kept := _ || alone). set (c1 := if kept then _ else c).
  assert (forall h, verified_in c h -> verified_in c1 h) as Hk1.
  { intros h Hh. unfold c1. destruct kept; [|done]. destruct (decide (h = hex_of_shard s)) as [->|Hne].
    - exists (Chunks.shard_to_bytes s). by rewrite lookup_insert_eq.
    - destruct Hh as (b & Hb & Hv). exists b. by rewrite lookup_insert_ne. }
  specialize (IH c1 (hs ++ [hex_of_shard s])). destruct (fold_left _ shards _) as [c' hs']. destruct IH as (-> & Hk & Hs).
  split; [by rewrite <-app_assoc|]. split; [by auto|]. intros x [->|Hx]%elem_of_cons Hp; [|by apply Hs].
  apply Hk. unfold c1, kept. rewrite bool_decide_decide.
  replace ((if decide (default 0 (placement !! sh_index s) = 0) then true else false) || alone) with true
    by (destruct Hp as [Hp| ->]; [by rewrite decide_True|by rewrite orb_true_r]).
  exists (Chunks.shard_to_bytes s). by rewrite lookup_insert_eq.
Qed.

(** Every shard is placed on this node. *)
Definition keeps_all (s : shared_state) : Prop :=
  nd_peers s = [] \/ capacity_weighted_placement (nd_n s) (nd_peer_capacities s) = replicate (nd_n s) 0.
Definition newer_than (g : Registry.gset_crdt) (name : string) (now : N) : Prop :=
  from_option (fun old => (Registry.fe_timestamp old < now)%N) True (Registry.files g !! name).

(** Putting a file: its entry is registered and saved, and its shards are in
    the directory when they are all placed here. *)
Lemma node_put_spec s name data now s' :
  node_put s name data now = Done s' -> newer_than (nd_registry s) name now -> Nat.log2 (nd_n s) <= 32 ->
  exists e shards, Registry.get (nd_registry s') name = Some e /\ coded e data shards /\
    nd_files s' !! "registry.json" = Some (json_registry (nd_registry s')) /\
    (keeps_all s -> forall x, x ∈ shards -> verified_in (nd_chunks s') (hex_of_shard x)).
Proof.
  unfold node_put. destruct (encode data (nd_k s) (nd_n s)) as [shards|] eqn:Henc; [|done]. cbn [mbind outcome_bind].
  set (p := capacity_weighted_placement (nd_n s) (nd_peer_capacities s)).
  pose proof (keep_shards p (bool_decide (nd_peers s = [])) shards (nd_chunks s) []) as Hkeep.
  destruct (fold_left _ shards _) as [c hs]. destruct Hkeep as (-> & _ & Hs). cbn [app].
  intros E Hnew Hlog. injection E as <-.
  set (e := node_entry _ _ _ _ _ _). exists e, shards. split; [|split; [|split]].
  - unfold save_registry, write_node_file, set_node_registry. cbn [nd_registry].
    change (nd_registry (set_node_chunks s c)) with (nd_registry s). rewrite insert_get, decide_True by done.
    unfold newer_than in Hnew. destruct (Registry.files (nd_registry s) !! name) as [old|]; [|done]. cbn [from_option] in Hnew.
    unfold Registry.lww_newer. by rewrite (proj2 (N.ltb_lt _ _)) by exact Hnew.
  - assert (is_power_of_two (nd_n s) = true) as Hpow.
    { rewrite encode_eq in Henc. by destruct (is_power_of_two (nd_n s)). }
    split; [|by split_and!]. unfold is_power_of_two in Hpow. apply andb_true_iff in Hpow as [_ Hpow%bool_decide_eq_true].
    by exists (Nat.log2 (nd_n s)).
  - unfold save_registry, write_node_file. cbn [nd_files nd_registry]. by rewrite lookup_insert_eq.
  - intros Hall x Hx. apply (Hs x Hx). destruct Hall as [->|Hp]; [by right|left].
    unfold p. rewrite Hp. destruct (replicate (nd_n s) 0 !! sh_index x) as [y|] eqn:Ey; [|done].
    by apply lookup_replicate in Ey as [-> _].
Qed.
End files.

(** ** Registries that are merged *)

Section registries.
Context {HM : Hemera}.
Import Registry.

Definition live_names (g : gset_crdt) : list string := (filter (fun kv => live kv.2) (map_to_list (files g))).*1.

Lemma live_len_names g : live_len g = length (live_names g).
Proof.
  unfold live_len, live_names, values_of. rewrite !length_fmap. induction (map_to_list (files g)) as [|[n e] l IH]; [done|].
  cbn [fmap list_fmap snd]. rewrite !filter_cons. cbn [snd]. case_decide; simpl; by rewrite IH.
Qed.

Lemma live_names_NoDup g : NoDup (live_names g).
Proof. unfold live_names. eapply sublist_NoDup; [apply (NoDup_fst_map_to_list (files g))|]. apply fmap_sublist, filter_sublist. Qed.

Lemma elem_of_live_names g name : name ∈ live_names g <-> is_Some (get g name).
Proof.
  unfold live_names, get. rewrite list_elem_of_fmap. split.
  - intros ([n e] & -> & [Hl He%elem_of_map_to_list]%list_elem_of_filter). cbn [fst]. rewrite He. simpl. rewrite decide_True by done. eauto.
  - destruct (files g !! name) as [e|] eqn:E; simpl; [|by intros []]. case_decide as Hl; [|by intros []]. intros _.
    exists (name, e). split; [done|]. apply list_elem_of_filter. split; [done|]. by apply elem_of_map_to_list.
Qed.

(** No name loses its live entry: the count does not drop. *)
Lemma live_len_mono g g' : (forall name, is_Some (get g name) -> is_Some (get g' name)) -> live_len g <= live_len g'.
Proof.
  intros H. rewrite !live_len_names. apply submseteq_length, NoDup_submseteq; [apply live_names_NoDup|].
  intros name. rewrite !elem_of_live_names. apply H.
Qed.

(** What one validated insert does to a registry. *)
Lemma validated_insert_cases now g e g' :
  validated_insert now g e = Ok g' -> validate now e = Ok tt /\ g' = lww_insert g e.
Proof.
  unfold validated_insert. destruct (validate now e) as [[]|] eqn:Ev; simpl; [|done].
  destruct (_ && _); [done|]. by intros [= <-].
Qed.

(** [g'] is [g] with entries of [values] that passed validation, none of them
    older than what it replaced. *)
Definition merged_from (now : N) (values : list file_entry) (g g' : gset_crdt) : Prop :=
  (forall name e, files g' !! name = Some e -> files g !! name = Some e \/ (e ∈ values /\ validate now e = Ok tt /\ fe_name e = name)) /\
  (forall name old, files g !! name = Some old -> exists new, files g' !! name = Some new /\ (fe_timestamp old <= fe_timestamp new)%N).

Lemma merged_refl now values g : merged_from now values g g.
Proof. split; [auto|]. intros name old H. exists old. split; [done|lia]. Qed.

Lemma merged_trans now values g1 g2 g3 : merged_from now values g1 g2 -> merged_from now values g2 g3 -> merged_from now values g1 g3.
Proof.
  intros [A1 B1] [A2 B2]. split.
  - intros name e [He|He]%A2; [by apply A1|by right].
  - intros name old Ho. destruct (B1 name old Ho) as (mid & Hm & ?). destruct (B2 name mid Hm) as (new & Hn & ?).
    exists new. split; [done|lia].
Qed.

Lemma lww_insert_merged now values g e : e ∈ values -> validate now e = Ok tt -> merged_from now values g (lww_insert g e).
Proof.
  intros Hin Hv. unfold lww_insert. destruct (files g !! fe_name e) as [x|] eqn:Ex.
  - destruct (lww_newer e x) eqn:En; [|apply merged_refl]. split; simpl.
    + intros name y [[<- <-]|[_ ?]]%lookup_insert_Some; auto.
    + intros name old Ho. destruct (decide (name = fe_name e)) as [->|]; [|exists old; by rewrite lookup_insert_ne].
      exists e. rewrite lookup_insert_eq. split; [done|]. rewrite Ex in Ho. injection Ho as <-.
      unfold lww_newer in En. apply orb_true_iff in En as [?%N.ltb_lt|[E%bool_decide_eq_true _]%andb_true_iff]; lia.
  - split; simpl.
    + intros name y [[<- <-]|[_ ?]]%lookup_insert_Some; auto.
    + intros name old Ho. exists old. rewrite lookup_insert_ne; [done|]. congruence.
Qed.

Lemma validated_merge_merged now g values : merged_from now values g (validated_merge now g values).1.
Proof.
  unfold validated_merge. cut (forall vs st, (forall e, e ∈ vs -> e ∈ values) ->
    merged_from now values st.1 (fold_left (fun (st : gset_crdt * (nat * nat)) e =>
      match validated_insert now st.1 e with Ok g' => (g', (st.2.1 + 1, st.2.2)) | Err _ => (st.1, (st.2.1, st.2.2 + 1)) end) vs st).1).
  { intros H. by apply (H values (g, (0, 0))). }
  induction vs as [|e vs IH]; intros st Hin; [apply merged_refl|]. cbn [fold_left].
  assert (forall e', e' ∈ vs -> e' ∈ values) as Hin' by (intros; apply Hin; by right).
  destruct (validated_insert now st.1 e) as [g'|err] eqn:Ev; [|by apply (IH (st.1, _))].
  apply validated_insert_cases in Ev as [Hv ->]. eapply merged_trans; [|by apply (IH (_, _))].
  apply lww_insert_merged; [apply Hin; constructor|done].
Qed.

(** Without deletions among the entries, no file disappears. *)
Lemma merged_live now values g g' :
  Forall live values -> merged_from now values g g' -> live_len g <= live_len g'.
Proof.
  intros Hl [HA HB]. apply live_len_mono. intros name. unfold get. destruct (files g !! name) as [old|] eqn:E; simpl; [|by intros []].
  intros [x Hx]. case_decide as Ho; [|done]. destruct (HB name old E) as (new & Hn & _). rewrite Hn. simpl.
  assert (live new) as Hnew; [|rewrite decide_True by done; eauto].
  destruct (HA name new Hn) as [Hn'|(Hin & _)]; [|by apply (proj1 (Forall_forall _ _) Hl)]. rewrite E in Hn'. by injection Hn' as <-.
Qed.
End registries.

(** ** Syncing with any peer *)

Section syncing.
Context {HM : Hemera} {HD : HexDigits} {HL : HexLaws} {JS : Json}.

(** Files are only added, and only verified ones. *)
Definition extends (c c' : gmap string (list byte)) : Prop :=
  c ⊆ c' /\ forall h b, c' !! h = Some b -> c !! h = Some b \/ to_hex (hemera_hash b) = h.
#[export] Instance extends_preorder : PreOrder extends.
Proof.
  split; [by split; auto|]. intros c1 c2 c3 [H1 G1] [H2 G2]. split; [by transitivity c2|].
  intros h b [Hb|Hb]%G2; auto.
Qed.

Lemma extends_insert c h b : c !! h = None -> Chunks.verify_chunk b h = true -> extends c (<[h := b]> c).
Proof.
  intros Hn Hv%verify_chunk_spec. split; [by apply insert_subseteq|].
  intros h' b' [[<- <-]|[_ ?]]%lookup_insert_Some; auto.
Qed.

Lemma fetch_missing_spec fetch i hashes c f rj :
  let '(c', r) := fetch_missing fetch i hashes c f rj in
  extends c c' /\
  match r with
  | Panic => exists h, h ∈ hashes /\ prefix16 h = Panic
  | Done _ => forall j h b, hashes !! j = Some h -> fetch (i + j) h = Some b -> Chunks.verify_chunk b h = true -> is_Some (c' !! h)
  end.
Proof.
  revert i c f rj. induction hashes as [|h hashes IH]; intros i c f rj; cbn [fetch_missing]; [by split|].
  assert (forall c1 f rj, extends c c1 -> (is_Some (c1 !! h) \/ (forall b, fetch i h = Some b -> Chunks.verify_chunk b h <> true)) ->
    let '(c', r) := fetch_missing fetch (S i) hashes c1 f rj in
    extends c c' /\ match r with
      | Panic => exists h0, h0 ∈ h :: hashes /\ prefix16 h0 = Panic
      | Done _ => forall j h0 b, (h :: hashes) !! j = Some h0 -> fetch (i + j) h0 = Some b -> Chunks.verify_chunk b h0 = true -> is_Some (c' !! h0)
      end) as Hnext.
  { intros c1 f1 rj1 He Hh. specialize (IH (S i) c1 f1 rj1). destruct (fetch_missing fetch (S i) hashes c1 f1 rj1) as [c' r].
    destruct IH as [Hc' IH]. split; [by transitivity c1|]. destruct r as [p|].
    - intros [|j] h0 b Hj Hf Hv; [|apply (IH j h0 b); [done|by rewrite Nat.add_succ_r in Hf|done]].
      injection Hj as <-. rewrite Nat.add_0_r in Hf. destruct Hh as [[x Hx]|Hno]; [|by destruct (Hno b Hf)].
      exists x. by eapply lookup_weaken; [|apply Hc'].
    - destruct IH as (h0 & Hin & Hp). exists h0. split; [by right|done]. }
  destruct (c !! h) as [x|] eqn:Ec; [apply Hnext; [done|left; eauto]|].
  destruct (fetch i h) as [b|] eqn:Ef; [|by apply Hnext; [done|right]].
  destruct (Chunks.verify_chunk b h) eqn:Ev.
  - apply Hnext; [by apply extends_insert|]. left. rewrite lookup_insert_eq. eauto.
  - destruct (prefix16 h) as [u|] eqn:Ep; [|split; [done|]; exists h; by split; [constructor|]].
    apply Hnext; [done|]. right. intros b' [= <-]. by rewrite Ev.
Qed.

Lemma merkle_root_prefix g : prefix16 (Registry.merkle_root g) = Done tt.
Proof. unfold Registry.merkle_root. case_bool_decide; [reflexivity|apply prefix16_hex]. Qed.
End syncing.

(** ** Exchanges with an honest peer *)

Section exchange.
Context {HM : Hemera} {HD : HexDigits} {NB : Nebu} {NT : Ntt} {JS : Json} {JL : JsonLaws}.

Definition fits (l : list byte) : Prop := is_u32 (N.of_nat (length l)).

Lemma read_write_bytes data rest : fits data -> read_bytes (write_bytes data ++ rest) = Some data.
Proof.
  intros Hd. unfold read_bytes, write_bytes. rewrite as_u32_id by done. rewrite <-app_assoc.
  set (len := rev (u32_le (N.of_nat (length data)))). assert (length len = 4) as Hl by (unfold len; rewrite length_rev; apply u32_le_length).
  rewrite take_app_length', drop_app_length' by done. assert (be_num len = N.of_nat (length data)) as ->.
  { unfold be_num, len. rewrite rev_involutive. by apply u32_le_num. }
  rewrite Nat2N.id, !bool_decide_eq_false_2 by (rewrite !length_app; lia). by rewrite take_app_length.
Qed.

Lemma from_utf8_str s : is_utf8 (str_bytes s) = true -> from_utf8 (str_bytes s) = Some s.
Proof. unfold from_utf8. intros ->. f_equal. apply String.string_of_list_byte_of_string. Qed.

Lemma utf8_ascii l : Forall (fun b => (Byte.to_N b < 128)%N) l -> is_utf8 l = true.
Proof.
  induction 1 as [|b l Hb _ IH]; [done|]. cbn [is_utf8]. unfold in_range at 1.
  replace (Byte.to_N b <=? 127)%N with true by (symmetry; apply N.leb_le; lia). by rewrite (proj2 (N.leb_le _ _)) by lia.
Qed.

Lemma utf8_hex h : is_utf8 (str_bytes (to_hex h)) = true.
Proof.
  apply utf8_ascii. rewrite to_hex_digits. generalize (arr_bytes h) as l. intros l. induction l as [|b l IH]; [constructor|].
  cbn [hex_of_bytes]. unfold str_bytes in *. cbn [String.list_byte_of_string]. by destruct b; repeat constructor.
Qed.

Lemma fits_hex h : fits (str_bytes (to_hex h)).
Proof.
  unfold fits, str_bytes. assert (forall s, length (String.list_byte_of_string s) = String.length s) as E.
  { induction s as [|c s IH]; [done|]. cbn. f_equal. exact IH. }
  rewrite E, to_hex_digits, hex_of_bytes_length, arr_length. by vm_compute.
Qed.

(** A chunk request is answered by the chunk, if the peer has it. *)
Lemma exchange_chunk t h :
  map_Forall (fun _ b => fits b) (nd_chunks t) ->
  fetch_chunk_from_peer (handle_connection t) (to_hex h) = nd_chunks t !! to_hex h.
Proof.
  intros Hf. unfold fetch_chunk_from_peer, chunk_request, handle_connection. cbn [Byte.eqb].
  change (Byte.eqb MSG_GET_CHUNK MSG_PING) with false. change (Byte.eqb MSG_GET_CHUNK MSG_GET_CHUNK) with true. cbv iota.
  unfold read_string. rewrite <-(app_nil_r (write_bytes (str_bytes (to_hex h)))), read_write_bytes by apply fits_hex.
  cbn [mbind option_bind]. rewrite from_utf8_str by apply utf8_hex.
  destruct (nd_chunks t !! to_hex h) as [data|] eqn:E; [|done]. unfold read_chunk_reply.
  change (Byte.eqb MSG_CHUNK_DATA MSG_CHUNK_DATA) with true. cbv iota.
  rewrite <-(app_nil_r (write_bytes data)). apply read_write_bytes. by apply (Hf (to_hex h)).
Qed.

(** A registry request is answered by the served registry and its root. *)
Lemma exchange_registry t :
  let r := mk_response (served_registry t) (Registry.merkle_root (served_registry t)) in
  fits (str_bytes (json_response r)) -> fetch_registry_with_proof (handle_connection t) = Some r.
Proof.
  intros r Hf. unfold fetch_registry_with_proof, registry_request, handle_connection.
  change (Byte.eqb MSG_REGISTRY MSG_PING) with false. change (Byte.eqb MSG_REGISTRY MSG_GET_CHUNK) with false.
  change (Byte.eqb MSG_REGISTRY MSG_REGISTRY) with true. cbv iota zeta. fold r. unfold read_registry_reply.
  change (Byte.eqb MSG_REGISTRY_RESPONSE MSG_REGISTRY_RESPONSE) with true. cbv iota.
  rewrite <-(app_nil_r (write_bytes _)), read_write_bytes by done. cbn [mbind option_bind].
  rewrite from_utf8_str by apply json_response_utf8. cbn [mbind option_bind]. apply parse_json_response.
Qed.

Lemma exchange_ping t : ping_peer (handle_connection t) = true.
Proof. reflexivity. Qed.
End exchange.

(** ** Honest nodes *)

Section honest.
Context {HM : Hemera} {HD : HexDigits} {HL : HexLaws} {NB : Nebu} {NT : Ntt} {JS : Json} {JL : JsonLaws}.

(** The registry of a node that only stored files, seen at time [now]. *)
Definition sound_registry (now : N) (g : Registry.gset_crdt) : Prop :=
  map_Forall (fun name e => Registry.fe_name e = name /\ Registry.validate now e = Ok tt /\ Registry.live e /\
    forall h, h ∈ Registry.fe_shard_hashes e -> exists p, h = to_hex p) (Registry.files g).
Definition keyed (g : Registry.gset_crdt) : Prop := map_Forall (fun name e => Registry.fe_name e = name) (Registry.files g).
Definition honest_chunks (c : gmap string (list byte)) : Prop := map_Forall (fun h b => to_hex (hemera_hash b) = h /\ fits b) c.
Definition honest_answers (t : shared_state) (now : N) : peer_answers :=
  mk_answers (fetch_registry_with_proof (handle_connection t)) (fun _ => fetch_chunk_from_peer (handle_connection t)) now.

Lemma sound_value now g e : sound_registry now g -> e ∈ Registry.values_of g ->
  Registry.validate now e = Ok tt /\ Registry.live e /\ forall h, h ∈ Registry.fe_shard_hashes e -> exists p, h = to_hex p.
Proof. intros Hs (name & He)%Registry.elem_of_values_of. by destruct (Hs name e He) as (_ & ? & ? & ?). Qed.

Lemma keyed_winners g : keyed g -> Registry.holds_winners g (Registry.values_of g).
Proof.
  intros Hk name. destruct (Registry.files g !! name) as [e|] eqn:E.
  - pose proof (Hk name e E) as Hn. split; [apply Registry.elem_of_values_of; eauto|]. split; [done|].
    intros e' (n' & E')%Registry.elem_of_values_of Hn'. pose proof (Hk n' e' E') as Hk'. cbn in Hk'.
    simplify_eq. apply Registry.lww_newer_irrefl.
  - intros e (n & En)%Registry.elem_of_values_of Hn. pose proof (Hk n e En). congruence.
Qed.

(** Merging two registries in either direction gives the same one. *)
Lemma merge_agrees g g' vs vs' :
  keyed g -> keyed g' -> vs ≡ₚ Registry.values_of g -> vs' ≡ₚ Registry.values_of g' ->
  Registry.tie_free (Registry.values_of g ++ Registry.values_of g') -> Registry.merge g vs' = Registry.merge g' vs.
Proof.
  intros Hk Hk' Hv Hv' Ht. apply (Registry.holds_winners_unique _ _ (Registry.values_of g ++ Registry.values_of g')); [done| |].
  - eapply Registry.holds_winners_perm; [|by apply Registry.holds_winners_merge, keyed_winners].
    intros e. by rewrite Hv'.
  - eapply Registry.holds_winners_perm; [|by apply Registry.holds_winners_merge, keyed_winners].
    intros e. rewrite Hv, !elem_of_app. tauto.
Qed.

Lemma lww_insert_size g e : size (Registry.files (Registry.lww_insert g e)) <= S (size (Registry.files g)).
Proof.
  unfold Registry.lww_insert. destruct (Registry.files g !! Registry.fe_name e) as [x|] eqn:E.
  - destruct (Registry.lww_newer e x); [|lia]. simpl. rewrite map_size_insert_Some by eauto. lia.
  - simpl. rewrite map_size_insert_None by done. lia.
Qed.

Lemma validated_merge_all now g vs :
  Forall (fun e => Registry.validate now e = Ok tt) vs ->
  (N.of_nat (size (Registry.files g) + length vs) <= Registry.MAX_REGISTRY_ENTRIES)%N ->
  Registry.validated_merge now g vs = (Registry.merge g vs, (length vs, 0)).
Proof.
  unfold Registry.validated_merge, Registry.merge. set (step := fun st e => _). intros Hv Hmax.
  cut (forall acc, fold_left step vs (g, (acc, 0)) = (fold_left Registry.lww_insert vs g, (acc + length vs, 0))).
  { intros H. by rewrite H. }
  revert g Hmax. induction Hv as [|e vs He _ IH]; intros g Hmax acc; cbn [fold_left length]; [by rewrite Nat.add_0_r|].
  cbn [length] in Hmax. unfold step at 2. unfold Registry.validated_insert. cbn [fst snd]. rewrite He. cbn [mbind result_bind].
  replace (Registry.MAX_REGISTRY_ENTRIES <=? _)%N with false by (symmetry; apply N.leb_gt; lia). cbn [andb].
  pose proof (lww_insert_size g e). rewrite IH by lia. do 2 f_equal. lia.
Qed.

Lemma fetch_missing_honest fetch i hashes c f rj :
  (forall i h b, h ∈ hashes -> fetch i h = Some b -> Chunks.verify_chunk b h = true) ->
  exists c' f', fetch_missing fetch i hashes c f rj = (c', Done (f', rj)).
Proof.
  revert i c f. induction hashes as [|h hashes IH]; intros i c f Hv; cbn [fetch_missing]; [eauto|].
  assert (forall i h0 b, h0 ∈ hashes -> fetch i h0 = Some b -> Chunks.verify_chunk b h0 = true) as Hv'.
  { intros i0 h0 b Hin. apply Hv. by right. }
  destruct (c !! h); [by apply IH|]. destruct (fetch i h) as [b|] eqn:Ef; [|by apply IH].
  rewrite (Hv i h b); [by apply IH|constructor|done].
Qed.

(** Every chunk was there or came from the peer. *)
Lemma fetch_missing_origin fetch i hashes c f rj h b :
  (fetch_missing fetch i hashes c f rj).1 !! h = Some b ->
  c !! h = Some b \/ exists j, h ∈ hashes /\ fetch j h = Some b.
Proof.
  revert i c f rj. induction hashes as [|x hashes IH]; intros i c f rj; cbn [fetch_missing]; [by left|].
  assert (forall i c f rj, (fetch_missing fetch i hashes c f rj).1 !! h = Some b ->
    c !! h = Some b \/ exists j, h ∈ x :: hashes /\ fetch j h = Some b) as IH'.
  { intros i' c' f' rj' H. destruct (IH _ _ _ _ H) as [?|(j & ? & ?)]; [by left|]. right. exists j. by split; [right|]. }
  destruct (c !! x); [apply IH'|]. destruct (fetch i x) as [y|] eqn:Ef; [|apply IH'].
  destruct (Chunks.verify_chunk y x); [|destruct (prefix16 x); [apply IH'|by left]].
  intros H. destruct (IH' _ _ _ _ H) as [[[<- <-]|[_ ?]]%lookup_insert_Some|?]; [|by left|by right].
  right. exists i. split; [constructor|done].
Qed.

Lemma merged_sound now g g' vs :
  sound_registry now g -> Forall (fun e => Registry.validate now e = Ok tt /\ Registry.live e /\
    forall h, h ∈ Registry.fe_shard_hashes e -> exists p, h = to_hex p) vs ->
  merged_from now vs g g' -> sound_registry now g'.
Proof.
  intros Hg Hvs [HA _] name e He. destruct (HA name e He) as [He'|(Hin & Hv & Hn)]; [by apply Hg|].
  pose proof (proj1 (Forall_forall _ _) Hvs e Hin) as (_ & Hl & Hh). by split_and!.
Qed.

Lemma elem_of_wanted h entries : h ∈ wanted entries <-> exists e, e ∈ entries /\ h ∈ Registry.fe_shard_hashes e.
Proof.
  unfold wanted. rewrite list_elem_of_In, in_concat. setoid_rewrite in_map_iff. setoid_rewrite list_elem_of_In. naive_solver.
Qed.

(** Merging what an honest peer sends: everything is accepted, no file
    disappears and the result is sound. *)
Lemma honest_merge iter s t now :
  (forall g, iter (Registry.files g) ≡ₚ Registry.values_of g) ->
  sound_registry now (nd_registry s) -> sound_registry now (nd_registry t) ->
  (N.of_nat (size (Registry.files (nd_registry s)) + size (Registry.files (nd_registry t))) <= Registry.MAX_REGISTRY_ENTRIES)%N ->
  let vs := iter (Registry.files (nd_registry t)) in
  let g := Registry.merge (nd_registry s) vs in
  Registry.validated_merge now (nd_registry s) vs = (g, (length vs, 0)) /\ sound_registry now g /\
  Registry.live_len (nd_registry s) <= Registry.live_len g.
Proof.
  intros Hit Hs Ht Hmax vs g.
  assert (Forall (fun e => Registry.validate now e = Ok tt /\ Registry.live e /\
    forall h, h ∈ Registry.fe_shard_hashes e -> exists p, h = to_hex p) vs) as Hvs.
  { apply Forall_forall. intros e He. unfold vs in He. rewrite Hit in He. by apply (sound_value now (nd_registry t)). }
  assert (Registry.validated_merge now (nd_registry s) vs = (g, (length vs, 0))) as Hmerge.
  { apply validated_merge_all; [by eapply Forall_impl; [exact Hvs|intros e (? & _)]|].
    unfold vs. rewrite (Permutation_length (Hit _)). unfold Registry.values_of. by rewrite length_fmap, length_map_to_list. }
  pose proof (validated_merge_merged now (nd_registry s) vs) as Hm. rewrite Hmerge in Hm. cbn [fst] in Hm.
  split; [done|]. split; [by apply (merged_sound now (nd_registry s) g vs)|]. apply (merged_live now vs); [|done].
  eapply Forall_impl; [exact Hvs|]. by intros e (_ & ? & _).
Qed.

(** A sync with an honest peer: the node it leaves, and its chunks. *)
Lemma honest_sync_spec iter s t now :
  (forall g, iter (Registry.files g) ≡ₚ Registry.values_of g) ->
  sound_registry now (nd_registry s) -> sound_registry now (nd_registry t) -> honest_chunks (nd_chunks t) ->
  served_registry t = nd_registry t ->
  fits (str_bytes (json_response (mk_response (nd_registry t) (Registry.merkle_root (nd_registry t))))) ->
  (N.of_nat (size (Registry.files (nd_registry s)) + size (Registry.files (nd_registry t))) <= Registry.MAX_REGISTRY_ENTRIES)%N ->
  let a := honest_answers t now in
  let g := Registry.merge (nd_registry s) (iter (Registry.files (nd_registry t))) in
  sound_registry now g /\
  exists c' new fetched,
    sync_with iter s (pa_response a) (pa_fetch a) now
      = (set_node_chunks (save_registry (set_node_registry s g)) c', Ok (new, 0, fetched, 0)) /\
    nd_chunks s ⊆ c' /\
    (forall h b, c' !! h = Some b -> nd_chunks s !! h = Some b \/ nd_chunks t !! h = Some b) /\
    (forall e h, e ∈ Registry.values_of g -> h ∈ Registry.fe_shard_hashes e ->
       is_Some (nd_chunks s !! h) \/ is_Some (nd_chunks t !! h) -> is_Some (c' !! h)).
Proof.
  intros Hit Hs Ht Hc Hserved Hfit Hmax a.
  assert (pa_response a = Some (mk_response (nd_registry t) (Registry.merkle_root (nd_registry t)))) as Hresp.
  { unfold a, honest_answers. cbn [pa_response]. rewrite exchange_registry by (by rewrite Hserved). by rewrite Hserved. }
  assert (forall i p, pa_fetch a i (to_hex p) = nd_chunks t !! to_hex p) as Hfetch.
  { intros i p. apply exchange_chunk. intros h b Hb. by apply (Hc h b). }
  destruct (honest_merge iter s t now Hit Hs Ht Hmax) as (Hmerge & Hg & Hlive).
  set (vs := iter (Registry.files (nd_registry t))) in *. set (g := Registry.merge (nd_registry s) vs) in *.
  intros g'. change g' with g. clear g'. split; [done|].
  assert (forall h, h ∈ wanted (iter (Registry.files g)) -> exists p, h = to_hex p) as Hdig.
  { intros h (e & He & Hh)%elem_of_wanted. rewrite Hit in He. by apply (sound_value now g e Hg He). }
  destruct (fetch_missing_honest (pa_fetch a) 0 (wanted (iter (Registry.files g))) (nd_chunks s) 0 0) as (c' & f' & Ef).
  { intros i h b Hh Hb. destruct (Hdig h Hh) as [p ->]. rewrite Hfetch in Hb. apply verify_chunk_spec. by apply (Hc _ _ Hb). }
  pose proof (fetch_missing_spec (pa_fetch a) 0 (wanted (iter (Registry.files g))) (nd_chunks s) 0 0) as Hf. rewrite Ef in Hf.
  destruct Hf as [[Hsub _] Hgot].
  exists c', (Registry.live_len g - Registry.live_len (nd_registry s)), f'. split_and!.
  - unfold sync_with. rewrite Hresp. cbn [rr_registry rr_merkle_root]. fold vs.
    rewrite bool_decide_eq_true_2 by done. cbn [negb]. rewrite Hmerge. unfold count_new. rewrite bool_decide_eq_true_2 by done.
    cbn [nd_chunks save_registry write_node_file set_node_registry]. by rewrite Ef.
  - done.
  - intros h b Hb. destruct (fetch_missing_origin (pa_fetch a) 0 (wanted (iter (Registry.files g))) (nd_chunks s) 0 0 h b)
      as [?|(j & Hw & Hj)]; [by rewrite Ef|by left|]. destruct (Hdig h Hw) as [p ->]. rewrite Hfetch in Hj. by right.
  - intros e h He Hh Hhave. assert (h ∈ wanted (iter (Registry.files g))) as Hw by (apply elem_of_wanted; exists e; by rewrite Hit).
    destruct Hhave as [[b Hb]|[b Hb]]; [exists b; by eapply lookup_weaken|].
    destruct (Hdig h Hw) as [p ->]. apply list_elem_of_lookup in Hw as [j Hj]. apply (Hgot j _ b); [done| |].
    + by rewrite Hfetch.
    + apply verify_chunk_spec. by apply (Hc _ _ Hb).
Qed.
End honest.

(** ** Properties *)

Section properties.
Context {HM : Hemera} {HD : HexDigits} {HL : HexLaws} {NB : Nebu} {NT : Ntt} {JS : Json} {NL : NebuLaws} {TL : NttLaws}.


(** a file put on a node survives a restart: when its shards are placed
    on the node, a node started later on the same files reads back exactly the
    bytes put, whatever its peers answer - or two byte strings collide. *)
Lemma put_survives_restart `{!JsonLaws} fetch s s1 s2 name data now k n device :
  node_put s name data now = Done s1 -> newer_than (nd_registry s) name now -> Nat.log2 (nd_n s) <= 32 -> keeps_all s ->
  node_start (nd_files s1) (nd_chunks s1) k n device = Done s2 ->
  nd_registry s2 = nd_registry s1 /\
  ((exists x y, collides x y) \/ (node_get fetch s2 name).2 = Ok data).
Proof.
  intros Hput Hnew Hlog Hall Hstart. destruct (node_put_spec s name data now s1 Hput Hnew Hlog) as (e & shards & He & Hc & Hsave & Hv).
  unfold node_start, assert_or_panic in Hstart. destruct (is_power_of_two n); [|done]. destruct (_ && _); [|done].
  cbn [mbind outcome_bind] in Hstart. rewrite Hsave, parse_json_registry in Hstart. cbn [default from_option id] in Hstart.
  injection Hstart as <-. split; [done|]. set (s2 := mk_node _ _ _ _ _ _ _ _ _).
  pose proof (node_get_spec fetch s2 name e data shards He Hc) as Hg. destruct (node_get fetch s2 name) as [s3 r].
  destruct Hg as (_ & _ & [?|[_ Hg]]); [by left|right]. apply Hg. exists shards. split; [done|].
  destruct Hc as (_ & Henc & _ & _). pose proof (encode_k _ _ _ _ Henc). destruct (encode_indices _ _ _ _ Henc) as [-> _].
  split; [lia|]. apply Forall_forall. intros x Hx. left. by apply (Hv Hall).
Qed.

(** C10: syncing with any peer, however it answers, is safe: no chunk is
    lost or overwritten and every new one verifies; every new registry entry
    came from the peer, passed validation and matches the root the peer
    claimed, and no entry is replaced by an older one; when syncing succeeds
    the registry is saved and every chunk it wants that the peer answered
    truly is there; and it panics only on a deletion among the peer's entries,
    on a shard hash or a claimed root that is no digest. *)
Theorem sync_is_safe iter s response fetch now :
  let '(s', r) := sync_with iter s response fetch now in
  let values := from_option (fun x => iter (Registry.files (rr_registry x))) [] response in
  extends (nd_chunks s) (nd_chunks s') /\
  merged_from now values (nd_registry s) (nd_registry s') /\
  (nd_registry s' <> nd_registry s -> exists x, response = Some x /\ Registry.merkle_root (rr_registry x) = rr_merkle_root x) /\
  (forall counts, r = Ok counts ->
     nd_files s' !! "registry.json" = Some (json_registry (nd_registry s')) /\
     forall j h b, wanted (iter (Registry.files (nd_registry s'))) !! j = Some h -> fetch j h = Some b ->
       Chunks.verify_chunk b h = true -> is_Some (nd_chunks s' !! h)) /\
  (r = Err Panicked ->
     (exists e, e ∈ values /\ Registry.fe_deleted e = true) \/
     (exists h, h ∈ wanted (iter (Registry.files (nd_registry s'))) /\ prefix16 h = Panic) \/
     (exists x, response = Some x /\ prefix16 (rr_merkle_root x) = Panic)).
Proof.
  unfold sync_with. destruct response as [x|]; cbn [from_option]; [|split_and!; try done; apply merged_refl].
  set (values := iter (Registry.files (rr_registry x))). rewrite merkle_root_prefix. cbn [mbind outcome_bind].
  case_bool_decide as Hroot; cbn [negb].
  - pose proof (validated_merge_merged now (nd_registry s) values) as Hm.
    destruct (Registry.validated_merge now (nd_registry s) values) as [g [acc rej]]. cbn [fst] in Hm.
    unfold count_new. case_bool_decide as Hc.
    + pose proof (fetch_missing_spec fetch 0 (wanted (iter (Registry.files g))) (nd_chunks s) 0 0) as Hf.
      cbn [nd_chunks save_registry write_node_file set_node_registry]. destruct (fetch_missing _ _ _ _ _ _) as [c' r].
      destruct Hf as [He Hf]. cbn [set_node_chunks nd_chunks nd_registry nd_files save_registry write_node_file set_node_registry].
      split; [done|]. split; [done|]. split; [by exists x|]. split.
      * intros counts Hr. rewrite lookup_insert_eq. split; [done|]. by destruct r as [[? ?]|].
      * intros Hr. right. left. by destruct r as [[? ?]|].
    + split; [done|]. split; [done|]. split; [by exists x|]. split; [done|]. intros _. left.
      destruct (decide (Forall Registry.live values)) as [Hl|Hl]; [by pose proof (merged_live now values _ g Hl Hm)|].
      apply not_Forall_Exists, Exists_exists in Hl as (e & Hin & He); [|apply _]. exists e. split; [done|].
      unfold compose, Registry.live in He. by destruct (Registry.fe_deleted e).
  - split; [done|]. split; [apply merged_refl|]. split; [done|]. split; [by intros counts; destruct (prefix16 _)|].
    destruct (prefix16 (rr_merkle_root x)) eqn:Ep; [done|]. intros _. right. right. by exists x.
Qed.

End properties.

(** ** A concrete JSON *)

#[global] Instance file_entry_countable : Countable Registry.file_entry.
Proof.
  refine (inj_countable'
    (fun e => (Registry.fe_name e, Registry.fe_original_len e, Registry.fe_k e, Registry.fe_n e, Registry.fe_shard_hashes e,
               Registry.fe_timestamp e, Registry.fe_entry_hash e, Registry.fe_device_id e, Registry.fe_das_root e,
               Registry.fe_shard_copies e, Registry.fe_deleted e))
    (fun '(a, b, c, d, e, f, g, h, i, j, k) => Registry.mk_entry a b c d e f g h i j k) _). by intros [].
Defined.
#[global] Instance gset_crdt_eq_dec : EqDecision Registry.gset_crdt.
Proof. solve_decision. Defined.
#[global] Instance gset_crdt_countable : Countable Registry.gset_crdt.
Proof. refine (inj_countable' Registry.files Registry.mk_gset _). by intros []. Defined.
#[global] Instance response_eq_dec : EqDecision registry_response.
Proof. solve_decision. Defined.
#[global] Instance response_countable : Countable registry_response.
Proof. refine (inj_countable' (fun r => (rr_registry r, rr_merkle_root r)) (fun p => mk_response p.1 p.2) _). by intros []. Defined.

(** A value as the binary digits of its code. *)
Fixpoint digits (p : positive) : string :=
  match p with xH => "" | xO p => String (Ascii.ascii_of_N 48) (digits p) | xI p => String (Ascii.ascii_of_N 49) (digits p) end.
Fixpoint undigits (s : string) : positive :=
  match s with
  | EmptyString => xH
  | String c s => if Ascii.eqb c (Ascii.ascii_of_N 48) then xO (undigits s) else xI (undigits s)
  end.

(** One chosen value has the empty text; the others their digits after a
    mark. *)
Definition print {A} `{Countable A} (short a : A) : string :=
  if decide (a = short) then "" else String (Ascii.ascii_of_N 49) (digits (countable.encode a)).
Definition parse {A} `{Countable A} (short : A) (s : string) : option A :=
  match s with EmptyString => Some short | String _ s => countable.decode (undigits s) end.

Lemma undigits_digits p : undigits (digits p) = p.
Proof. induction p as [p IH|p IH|]; simpl; by rewrite ?IH. Qed.
Lemma parse_print {A} `{Countable A} (short a : A) : parse short (print short a) = Some a.
Proof.
  unfold print. case_decide as E; [by rewrite E|]. cbn [parse]. rewrite undigits_digits. apply decode_encode.
Qed.
Lemma print_utf8 {A} `{Countable A} (short a : A) : is_utf8 (str_bytes (print short a)) = true.
Proof.
  unfold print. case_decide; [done|]. apply utf8_ascii. constructor; [by vm_compute|].
  induction (countable.encode a) as [p IH|p IH|]; [| |constructor]; (constructor; [by vm_compute|exact IH]).
Qed.

(** ** A node alone, and its copy *)

Definition ex_bytes : list byte := [x01; x02; x03; x04; x05; x06; x07; x08; x09].
Definition ex_node (device : string) : shared_state := mk_node Registry.gset_new ∅ ∅ 2 4 [] [] device ∅.
Definition ex_coded : list shard := match Erasure.encode ex_bytes 2 4 with Done sh => sh | Panic => [] end.
Definition ex_node_entry : Registry.file_entry :=
  node_entry (ex_node "a") "notes" 9 (map hex_of_shard ex_coded) 100 (hash_debug (dc_root (das_commit ex_coded 2 9))).
Definition ex_gset : Registry.gset_crdt := Registry.mk_gset {["notes" := ex_node_entry]}.
Definition ex_response : registry_response := mk_response ex_gset (Registry.merkle_root ex_gset).

#[global] Instance toy_json : Json := {|
  json_registry := print ex_gset; parse_registry := parse ex_gset; json_peers := print []; parse_peers := parse [];
  json_capacities := print []; parse_capacities := parse []; json_response := print ex_response; parse_response := parse ex_response
|}.
#[global] Instance toy_json_laws : JsonLaws.
Proof. split; intros; [apply parse_print..|apply print_utf8]. Qed.

Definition ex_stored : shared_state :=
  match node_put (ex_node "a") "notes" ex_bytes 100 with Done s => s | Panic => ex_node "a" end.
(** A peer that answers every request with the same bytes. *)
Definition ex_liar : nat -> string -> string -> option (list byte) := fun _ _ _ => Some [x2a].
Definition ex_iter : gmap string Registry.file_entry -> list Registry.file_entry := fun m => (map_to_list m).*2.

Lemma ex_stored_eq : node_put (ex_node "a") "notes" ex_bytes 100 = Done ex_stored.
Proof. by_vm. Qed.
Lemma ex_stored_registry : nd_registry ex_stored = ex_gset.
Proof. by_vm. Qed.


Definition ex_restarted : shared_state :=
  mk_node ex_gset (nd_files ex_stored) (nd_chunks ex_stored) 1 8 [] [] "b" ∅.
Lemma put_survives_restart_witness : (exists x y, collides x y) \/ (node_get ex_liar ex_restarted "notes").2 = Ok ex_bytes.
Proof.
  apply (put_survives_restart ex_liar (ex_node "a") ex_stored ex_restarted "notes" ex_bytes 100 1 8 "b").
  - exact ex_stored_eq.
  - exact I.
  - vm_compute; lia.
  - by left.
  - by_vm.
Defined.

Lemma ex_sound : sound_registry 100 (nd_registry ex_stored).
Proof.
  intros name e He. rewrite ex_stored_registry in He. unfold ex_gset in He. cbn [Registry.files] in He.
  apply lookup_singleton_Some in He as [<- <-]. split; [by_vm|]. split; [by_vm|]. split; [unfold Registry.live; by_vm|]. intros h Hh.
  unfold ex_node_entry, node_entry in Hh. cbn [Registry.fe_shard_hashes] in Hh.
  apply list_elem_of_fmap in Hh as (s & -> & _). by exists (shash s).
Qed.


(** A deletion that arrives makes the count of files drop, and the report of
    the sync underflows. *)
Definition ex_deleted : shared_state := (delete_file ex_stored "notes" 200).1.
Lemma sync_deletion_panics :
  (delete_file ex_stored "notes" 200).2 = Ok tt /\
  (sync_with ex_iter ex_stored (Some (mk_response (nd_registry ex_deleted) (Registry.merkle_root (nd_registry ex_deleted))))
     (fun _ _ => None) 200).2 = Err Panicked.
Proof. split; by_vm. Qed.

(** A peer with the true registry that answers every chunk with garbage. *)
Lemma sync_is_safe_witness :
  let '(s', _) := sync_with ex_iter (ex_node "c") (Some ex_response) (fun _ _ => Some [x2a]) 100 in
  extends (nd_chunks (ex_node "c")) (nd_chunks s') /\ merged_from 100 [ex_node_entry] (nd_registry (ex_node "c")) (nd_registry s').
Proof.
  pose proof (sync_is_safe ex_iter (ex_node "c") (Some ex_response) (fun _ _ => Some [x2a]) 100) as H.
  destruct (sync_with _ _ _ _ _) as [s' r]. destruct H as (He & Hm & _). split; [exact He|exact Hm].
Defined.
