(* ===== verification/Network.v ===== *)
(** * Network: sync nodes syncing with each other (src/node.rs)

    Several nodes run the code of both ends: [sync_step] lets one of them sync
    with another, whose answers are those of [handle_connection].  A plan is a
    list of such syncs; [heard] follows which nodes' files each node has heard
    of, directly or through others.  Once every node has heard of every other,
    all registries are equal; after one more round each node reads every file
    of which enough shards exist anywhere. *)

From S2P Require Import Prelude Order Bytes Externals Goldilocks Instances Erasure Store Das VDisk Placement Node NodeSync.

(** ** Plans *)

Record sync_event := mk_sync { sy_node : nat; sy_peer : nat; sy_now : N }.

Section plans.
Context {HM : Hemera} {NB : Nebu} {NT : Ntt} {JS : Json}.
Variable iter : gmap string Registry.file_entry -> list Registry.file_entry.

Abbreviation network := (list shared_state).
Abbreviation sync_outcome := (option (result (fault node_error) (nat * nat * nat * nat))).

Definition sync_step (net : network) (ev : sync_event) : network * sync_outcome :=
  match net !! sy_node ev, net !! sy_peer ev with
  | Some s, Some t =>
      let a := honest_answers t (sy_now ev) in
      let '(s, r) := sync_with iter s (pa_response a) (pa_fetch a) (pa_now a) in
      (<[sy_node ev := s]> net, Some r)
  | _, _ => (net, None)
  end.

Fixpoint run_syncs (net : network) (plan : list sync_event) : network * list sync_outcome :=
  match plan with
  | [] => (net, [])
  | ev :: plan =>
      let '(net, r) := sync_step net ev in
      let '(net, rs) := run_syncs net plan in (net, r :: rs)
  end.

(** Every registry that is sent fits the length field of a message. *)
Fixpoint run_fits (net : network) (plan : list sync_event) : Prop :=
  match plan with
  | [] => True
  | ev :: plan =>
      match net !! sy_peer ev with
      | Some t => fits (str_bytes (json_response (mk_response (nd_registry t) (Registry.merkle_root (nd_registry t)))))
      | None => True
      end /\ run_fits (sync_step net ev).1 plan
  end.

Fixpoint fits_along (net : network) (plan : list sync_event) : bool :=
  match plan with
  | [] => true
  | ev :: plan =>
      match net !! sy_peer ev with
      | Some t =>
          (N.of_nat (length (str_bytes (json_response (mk_response (nd_registry t) (Registry.merkle_root (nd_registry t)))))) <=? u32_max)%N
      | None => true
      end && fits_along (sync_step net ev).1 plan
  end.
Lemma fits_along_fits net plan : fits_along net plan = true -> run_fits net plan.
Proof.
  revert net. induction plan as [|ev plan IH]; intros net; cbn [fits_along run_fits]; [done|].
  intros [Hf Hr]%andb_true_iff. split; [|by apply IH]. destruct (net !! sy_peer ev); [|done]. by apply N.leb_le in Hf.
Qed.

(** Which nodes each node has heard of. *)
Definition heard_step (k : list (gset nat)) (ev : sync_event) : list (gset nat) :=
  match k !! sy_node ev, k !! sy_peer ev with
  | Some a, Some b => <[sy_node ev := a ∪ b]> k
  | _, _ => k
  end.
Definition heard_start (n : nat) : list (gset nat) := map (fun i => {[i]}) (seq 0 n).
Definition heard (n : nat) (plan : list sync_event) : list (gset nat) := fold_left heard_step plan (heard_start n).

Definition heard_all (n : nat) (k : list (gset nat)) : Prop := forall i w j, k !! i = Some w -> j < n -> j ∈ w.
Definition in_network (n : nat) (ev : sync_event) : Prop := sy_node ev < n /\ sy_peer ev < n.
Definition covers (n : nat) (plan : list sync_event) : Prop :=
  forall i j, i < n -> j < n -> i <> j -> exists now, mk_sync i j now ∈ plan.

Lemma run_syncs_app net plan plan' :
  run_syncs net (plan ++ plan') =
    let '(net, rs) := run_syncs net plan in let '(net, rs') := run_syncs net plan' in (net, rs ++ rs').
Proof.
  revert net. induction plan as [|ev plan IH]; intros net; cbn [app run_syncs]; [by destruct (run_syncs net plan')|].
  destruct (sync_step net ev) as [net1 r]. rewrite IH. destruct (run_syncs net1 plan) as [net2 rs].
  by destruct (run_syncs net2 plan').
Qed.

Lemma run_fits_app net plan plan' : run_fits net (plan ++ plan') <-> run_fits net plan /\ run_fits (run_syncs net plan).1 plan'.
Proof.
  revert net. induction plan as [|ev plan IH]; intros net; cbn [app run_fits run_syncs]; [tauto|].
  rewrite IH. destruct (sync_step net ev) as [net1 r]. cbn [fst]. destruct (run_syncs net1 plan). cbn [fst]. tauto.
Qed.

Lemma heard_step_length k ev : length (heard_step k ev) = length k.
Proof. unfold heard_step. destruct (k !! sy_node ev), (k !! sy_peer ev); [apply length_insert|done..]. Qed.

Lemma heard_all_step n k ev : heard_all n k -> heard_all n (heard_step k ev).
Proof.
  intros H i w j Hi Hj. unfold heard_step in Hi. destruct (k !! sy_node ev) as [a|] eqn:Ea; [|by apply (H i)].
  destruct (k !! sy_peer ev) as [b|] eqn:Eb; [|by apply (H i)].
  apply list_lookup_insert_Some in Hi as [(<- & <- & _)|[_ Hi]]; [|by apply (H i)].
  apply elem_of_union_l. by apply (H (sy_node ev)).
Qed.
End plans.

(** ** Honest networks *)

Section honest_networks.
Context {HM : Hemera} {HD : HexDigits} {HL : HexLaws} {NB : Nebu} {NT : Ntt} {JS : Json} {JL : JsonLaws} {NL : NebuLaws} {TL : NttLaws}.
Variable iter : gmap string Registry.file_entry -> list Registry.file_entry.
Hypothesis iter_values : forall g, iter (Registry.files g) ≡ₚ Registry.values_of g.
(** The network at the start, and a clock no node is behind of. *)
Variables (init : list shared_state) (now0 : N).

Record honest_node (s : shared_state) : Prop := mk_honest {
  hn_registry : sound_registry now0 (nd_registry s);
  hn_served : served_registry s = nd_registry s;
  hn_chunks : honest_chunks (nd_chunks s)
}.

Definition entries_of (s : shared_state) : list Registry.file_entry := Registry.values_of (nd_registry s).
Definition all_entries : list Registry.file_entry := concat (map entries_of init).
Definition all_names : gset string := list_to_set (map Registry.fe_name all_entries).
Definition entries_at (w : gset nat) : list Registry.file_entry :=
  concat (map (fun i => from_option entries_of [] (init !! i)) (elements w)).

Hypothesis init_honest : Forall honest_node init.
Hypothesis names_fit : (N.of_nat (size all_names + size all_names) <= Registry.MAX_REGISTRY_ENTRIES)%N.

Lemma elem_of_entries_at e w : e ∈ entries_at w <-> exists i s, i ∈ w /\ init !! i = Some s /\ e ∈ entries_of s.
Proof.
  unfold entries_at. rewrite list_elem_of_In, in_concat. setoid_rewrite in_map_iff. split.
  - intros (l & (i & <- & Hi) & He). apply list_elem_of_In, elem_of_elements in Hi. apply list_elem_of_In in He.
    destruct (init !! i) as [s|] eqn:E; [eauto|by apply elem_of_nil in He].
  - intros (i & s & Hi & Es & He). exists (entries_of s). split; [|by apply list_elem_of_In].
    exists i. rewrite Es. split; [done|]. by apply list_elem_of_In, elem_of_elements.
Qed.

Lemma elem_of_all_entries e : e ∈ all_entries <-> exists i s, init !! i = Some s /\ e ∈ entries_of s.
Proof.
  unfold all_entries. rewrite list_elem_of_In, in_concat. setoid_rewrite in_map_iff. split.
  - intros (l & (s & <- & Hs) & He). apply list_elem_of_In, list_elem_of_lookup in Hs as [i Hi]. apply list_elem_of_In in He. eauto.
  - intros (i & s & Hi & He). exists (entries_of s). split; [|by apply list_elem_of_In]. exists s. split; [done|].
    apply list_elem_of_In, list_elem_of_lookup. eauto.
Qed.

Lemma entries_at_union e w w' : e ∈ entries_at (w ∪ w') <-> e ∈ entries_at w ++ entries_at w'.
Proof. rewrite elem_of_app, !elem_of_entries_at. setoid_rewrite elem_of_union. naive_solver. Qed.

Lemma entries_at_all e w : e ∈ entries_at w -> e ∈ all_entries.
Proof. rewrite elem_of_entries_at, elem_of_all_entries. naive_solver. Qed.

(** What a node holds, given whom it has heard of. *)
Record node_inv (w : gset nat) (s : shared_state) : Prop := mk_node_inv {
  ni_winners : Registry.holds_winners (nd_registry s) (entries_at w);
  ni_served : served_registry s = nd_registry s;
  ni_chunks : honest_chunks (nd_chunks s)
}.

Lemma node_inv_value w s name e : node_inv w s -> Registry.files (nd_registry s) !! name = Some e -> e ∈ entries_at w /\ Registry.fe_name e = name.
Proof. intros [Hw _ _] He. specialize (Hw name). rewrite He in Hw. by destruct Hw as (? & ? & _). Qed.

Lemma validate_later now e : (now0 <= now)%N -> Registry.validate now0 e = Ok tt -> Registry.validate now e = Ok tt.
Proof.
  intros Hn. unfold Registry.validate. destruct (bool_decide _); [done|]. destruct (bool_decide _); [done|]. destruct (negb _); [done|].
  destruct (N.ltb_spec (now0 + Registry.MAX_CLOCK_DRIFT_MS) (Registry.fe_timestamp e)); [done|].
  destruct (N.ltb_spec (now + Registry.MAX_CLOCK_DRIFT_MS) (Registry.fe_timestamp e)); [lia|done].
Qed.

Lemma node_inv_sound now w s : (now0 <= now)%N -> node_inv w s -> sound_registry now (nd_registry s).
Proof.
  intros Hn Hi name e He. destruct (node_inv_value w s name e Hi He) as [Hin Hname].
  apply elem_of_entries_at in Hin as (i & s0 & _ & Hs0 & Hv). pose proof (Forall_lookup_1 _ _ _ _ init_honest Hs0) as [Hreg _ _].
  destruct (sound_value now0 _ _ Hreg Hv) as (? & ? & ?). split; [done|]. split; [by apply validate_later|done].
Qed.

Lemma node_inv_size w s : node_inv w s -> size (Registry.files (nd_registry s)) <= size all_names.
Proof.
  intros Hi. rewrite <-size_dom. apply subseteq_size. intros name [e He]%elem_of_dom.
  destruct (node_inv_value w s name e Hi He) as [Hin%entries_at_all Hname]. unfold all_names.
  apply elem_of_list_to_set, list_elem_of_fmap. by exists e.
Qed.

(** ** One sync *)

Record net_inv (net : list shared_state) (k : list (gset nat)) : Prop := mk_net_inv {
  nv_length : length net = length init;
  nv_heard : length k = length init;
  nv_nodes : forall i s w, net !! i = Some s -> k !! i = Some w -> node_inv w s
}.

(** No node loses a chunk. *)
Definition chunks_le (net net' : list shared_state) : Prop :=
  forall i s, net !! i = Some s -> exists s', net' !! i = Some s' /\ nd_chunks s ⊆ nd_chunks s'.
#[local] Instance chunks_le_preorder : PreOrder chunks_le.
Proof.
  split; [intros net i s Hs; by exists s|]. intros n1 n2 n3 H1 H2 i s Hs.
  destruct (H1 i s Hs) as (s' & Hs' & Hsub). destruct (H2 i s' Hs') as (s'' & ? & ?). exists s''. split; [done|]. by transitivity (nd_chunks s').
Qed.

Lemma start_inv : net_inv init (heard_start (length init)).
Proof.
  split; [done|unfold heard_start; by rewrite length_map, length_seq|]. intros i s w Hs Hw.
  unfold heard_start in Hw. rewrite list_lookup_fmap in Hw. apply fmap_Some in Hw as (i' & Hi & ->).
  apply lookup_seq in Hi as [-> _]. rewrite Nat.add_0_l. pose proof (Forall_lookup_1 _ _ _ _ init_honest Hs) as [Hr Hv Hc]. split; [|done|done].
  eapply Registry.holds_winners_perm; [|apply keyed_winners; intros name e He; by destruct (Hr name e He)].
  intros e. rewrite elem_of_entries_at. setoid_rewrite elem_of_singleton. unfold entries_of.
  split; [intros He; by exists i, s|]. by intros (? & s' & -> & Hs' & He); simplify_eq.
Qed.

Definition pulled (net net' : list shared_state) (ev : sync_event) : Prop :=
  exists t s', net !! sy_peer ev = Some t /\ net' !! sy_node ev = Some s' /\
    forall e h, e ∈ entries_of s' -> h ∈ Registry.fe_shard_hashes e -> is_Some (nd_chunks t !! h) -> is_Some (nd_chunks s' !! h).

Lemma step_inv net k ev :
  net_inv net k -> in_network (length init) ev -> (now0 <= sy_now ev)%N -> run_fits iter net [ev] ->
  let '(net', r) := sync_step iter net ev in
  net_inv net' (heard_step k ev) /\ (exists new fetched, r = Some (Ok (new, 0, fetched, 0))) /\
  chunks_le net net' /\ pulled net net' ev.
Proof.
  intros [Ln Lk Hn] [Hi Hj] Hnow [Hfit _]. unfold sync_step, heard_step.
  destruct (lookup_lt_is_Some_2 net (sy_node ev)) as [s Es]; [lia|]. destruct (lookup_lt_is_Some_2 net (sy_peer ev)) as [t Et]; [lia|].
  destruct (lookup_lt_is_Some_2 k (sy_node ev)) as [a Ea]; [lia|]. destruct (lookup_lt_is_Some_2 k (sy_peer ev)) as [b Eb]; [lia|].
  rewrite Es, Et, Ea, Eb. rewrite Et in Hfit. pose proof (Hn _ _ _ Es Ea) as His. pose proof (Hn _ _ _ Et Eb) as Hit.
  pose proof (node_inv_size _ _ His). pose proof (node_inv_size _ _ Hit).
  destruct (honest_sync_spec iter s t (sy_now ev) iter_values) as (_ & c & new & fetched & E & Hsub & Horig & Hgot).
  { by apply (node_inv_sound _ a). } { by apply (node_inv_sound _ b). } { apply Hit. } { apply Hit. } { done. } { lia. }
  change (pa_now (honest_answers t (sy_now ev))) with (sy_now ev). rewrite E.
  set (g := Registry.merge (nd_registry s) (iter (Registry.files (nd_registry t)))) in *.
  assert (sy_node ev < length net) as Hlt by lia. assert (sy_node ev < length k) as Hlk by lia.
  split_and!.
  - split; [by rewrite length_insert|by rewrite length_insert|]. intros x sx w Hx Hw.
    apply list_lookup_insert_Some in Hx as [(<- & <- & _)|[Hne Hx]].
    + rewrite list_lookup_insert_eq in Hw by done. injection Hw as <-. split; cbn [nd_registry set_node_chunks].
      * eapply Registry.holds_winners_perm; [intros e; symmetry; apply entries_at_union|].
        apply (Registry.holds_winners_weaken g (entries_at a) (nd_registry t)); [apply Hit|].
        eapply Registry.holds_winners_perm; [|apply Registry.holds_winners_merge, His].
        intros e. by rewrite !elem_of_app, iter_values.
      * unfold served_registry, set_node_chunks, save_registry, write_node_file, set_node_registry. cbn [nd_files nd_registry].
        by rewrite lookup_insert_eq, parse_json_registry.
      * intros h x Hx. cbn [nd_chunks set_node_chunks] in Hx.
        destruct (Horig h x Hx) as [Ho|Ho]; [by apply (ni_chunks _ _ His)|by apply (ni_chunks _ _ Hit)].
    + rewrite list_lookup_insert_ne in Hw by done. by apply (Hn x).
  - by exists new, fetched.
  - intros x sx Hx. destruct (decide (x = sy_node ev)) as [->|Hne].
    + rewrite list_lookup_insert_eq by done. simplify_eq. eexists. split; [done|]. exact Hsub.
    + rewrite list_lookup_insert_ne by done. by exists sx.
  - eexists t, _. split; [done|]. split; [by apply list_lookup_insert_eq|]. cbn [nd_chunks set_node_chunks].
    intros e h He Hh Ht. apply (Hgot e h); [exact He|done|by right].
Qed.

(** ** Runs *)

Definition accepted (r : option (result (fault node_error) (nat * nat * nat * nat))) : Prop :=
  exists new fetched, r = Some (Ok (new, 0, fetched, 0)).
Definition timely (ev : sync_event) : Prop := (now0 <= sy_now ev)%N.

Lemma run_net_inv net k plan :
  net_inv net k -> Forall (in_network (length init)) plan -> Forall timely plan -> run_fits iter net plan ->
  let '(net', rs) := run_syncs iter net plan in
  net_inv net' (fold_left heard_step plan k) /\ Forall accepted rs /\ chunks_le net net'.
Proof.
  revert net k. induction plan as [|ev plan IH]; intros net k Hi Hin Ht Hf; cbn [run_syncs fold_left].
  { split; [done|]. split; [constructor|reflexivity]. }
  apply Forall_cons in Hin as [Hin Hins], Ht as [Ht Hts]. destruct Hf as [Hf Hfs].
  pose proof (step_inv net k ev Hi Hin Ht (conj Hf I)) as Hs. destruct (sync_step iter net ev) as [net1 r].
  destruct Hs as (Hi1 & Hr & Hle & _). specialize (IH net1 (heard_step k ev) Hi1 Hins Hts Hfs).
  destruct (run_syncs iter net1 plan) as [net2 rs]. destruct IH as (Hi2 & Hrs & Hle2).
  split; [done|]. split; [by constructor|]. by transitivity net1.
Qed.

Lemma heard_all_run k plan : heard_all (length init) k -> heard_all (length init) (fold_left heard_step plan k).
Proof. revert k. induction plan as [|ev plan IH]; intros k H; [done|]. by apply IH, heard_all_step. Qed.

(** Having heard of all, a node holds the winners of the whole network. *)
Lemma heard_all_winners net k i s : net_inv net k -> heard_all (length init) k -> net !! i = Some s ->
  Registry.holds_winners (nd_registry s) all_entries.
Proof.
  intros [Ln Lk Hn] Hall Hs. pose proof (lookup_lt_Some _ _ _ Hs). destruct (lookup_lt_is_Some_2 k i) as [w Hw]; [lia|].
  eapply Registry.holds_winners_perm; [|apply (ni_winners _ _ (Hn _ _ _ Hs Hw))]. intros e. split; [apply entries_at_all|].
  rewrite elem_of_all_entries, elem_of_entries_at. intros (j & t & Hj & He). exists j, t. split; [|done].
  apply (Hall i w j Hw). by apply lookup_lt_Some in Hj.
Qed.

Hypothesis no_ties : Registry.tie_free all_entries.

Lemma heard_all_agree net k net' k' i j s t :
  net_inv net k -> heard_all (length init) k -> net_inv net' k' -> heard_all (length init) k' ->
  net !! i = Some s -> net' !! j = Some t -> nd_registry s = nd_registry t.
Proof.
  intros H1 H2 H3 H4 Hs Ht. apply (Registry.holds_winners_unique _ _ all_entries no_ties);
    [by apply (heard_all_winners net k i)|by apply (heard_all_winners net' k' j)].
Qed.

(** In a sweep after that, a node pulls what the peer had at its start. *)
Lemma sweep_pulls net k plan i j now t h :
  net_inv net k -> heard_all (length init) k ->
  Forall (in_network (length init)) plan -> Forall timely plan -> run_fits iter net plan ->
  mk_sync i j now ∈ plan -> net !! j = Some t -> is_Some (nd_chunks t !! h) ->
  forall s' e, (run_syncs iter net plan).1 !! i = Some s' -> e ∈ entries_of s' -> h ∈ Registry.fe_shard_hashes e ->
    is_Some (nd_chunks s' !! h).
Proof.
  revert net k t. induction plan as [|ev plan IH]; intros net k t Hi Hall Hin Ht Hf Hev Hj Hh; [by apply elem_of_nil in Hev|].
  apply Forall_cons in Hin as [Hin Hins], Ht as [Ht Hts]. destruct Hf as [Hf Hfs]. cbn [run_syncs].
  pose proof (step_inv net k ev Hi Hin Ht (conj Hf I)) as Hs. destruct (sync_step iter net ev) as [net1 r] eqn:E1. cbn [fst] in Hfs.
  destruct Hs as (Hi1 & _ & Hle & Hpull). pose proof (heard_all_step _ _ ev Hall) as Hall1.
  pose proof (run_net_inv net1 _ plan Hi1 Hins Hts Hfs) as Hrun. apply elem_of_cons in Hev as [<-|Hev].
  - destruct (run_syncs iter net1 plan) as [net2 rs]. cbn [fst]. destruct Hrun as (Hi2 & _ & Hle2). intros s' e Hs' He Hhe.
    destruct Hpull as (t' & s1 & Ht' & Hs1 & Hp). cbn [sy_node sy_peer] in *. simplify_eq.
    destruct (Hle2 i s1 Hs1) as (s2 & Hs2 & Hsub). simplify_eq. destruct (Hp e h) as [b Hb]; [|done|done|].
    + unfold entries_of in *. rewrite (heard_all_agree net1 _ net2 _ i i s1 s' Hi1 Hall1 Hi2 (heard_all_run _ _ Hall1) Hs1 Hs'). exact He.
    + exists b. by eapply lookup_weaken.
  - destruct (Hle j t Hj) as (t1 & Ht1 & Hsub). destruct Hh as [b Hb].
    specialize (IH net1 (heard_step k ev) t1 Hi1 Hall1 Hins Hts Hfs Hev Ht1 (ex_intro _ b (lookup_weaken _ _ _ _ Hb Hsub))).
    by destruct (run_syncs iter net1 plan).
Qed.

(** Some node of the starting network has the bytes of the shard. *)
Definition somewhere (x : shard) : Prop := exists j t, init !! j = Some t /\ is_Some (nd_chunks t !! hex_of_shard x).

End honest_networks.

(** ** Witness *)

(** A node with a file and one without, syncing each other twice. *)
Definition ex_network : list shared_state := [ex_stored; ex_node "b"].
Definition ex_round : list sync_event := [mk_sync 1 0 100; mk_sync 0 1 100].

Lemma ex_network_honest : Forall (honest_node 100) ex_network.
Proof.
  constructor; [|constructor; [|constructor]]; split; [exact ex_sound|by_vm| |apply map_Forall_empty|by_vm|apply map_Forall_empty].
  apply map_Forall_to_list, (bool_decide_eq_true_1 _). by_vm.
Qed.

Lemma ex_network_entries : all_entries ex_network = [ex_node_entry].
Proof. unfold all_entries, ex_network, entries_of. cbn [map]. rewrite ex_stored_registry. by_vm. Qed.

Lemma ex_round_heard : heard_all 2 (heard 2 ex_round).
Proof.
  intros i w j Hw Hj. assert (heard 2 ex_round = [{[0; 1]}; {[0; 1]}]) as E by by_vm. rewrite E in Hw.
  assert (w = {[0; 1]}) as -> by (destruct i as [|[|i]]; [by injection Hw|by injection Hw|done]).
  apply elem_of_union. destruct j as [|[|j]]; [left|right|lia]; by apply elem_of_singleton.
Qed.

Lemma ex_network_fits : run_fits ex_iter ex_network (ex_round ++ ex_round).
Proof. apply fits_along_fits. by_vm. Qed.

Lemma ex_network_tie_free : Registry.tie_free (all_entries ex_network).
Proof. rewrite ex_network_entries. by intros e e' ->%list_elem_of_singleton ->%list_elem_of_singleton. Qed.

Lemma ex_network_names : (N.of_nat (size (all_names ex_network) + size (all_names ex_network)) <= Registry.MAX_REGISTRY_ENTRIES)%N.
Proof. apply N.leb_le. by_vm. Qed.

Lemma ex_round_inside : Forall (in_network 2) (ex_round ++ ex_round).
Proof. repeat constructor. Qed.
Lemma ex_round_timely : Forall (timely 100) (ex_round ++ ex_round).
Proof. by repeat constructor. Qed.
Lemma ex_round_covers : covers 2 ex_round.
Proof.
  intros [|[|i]] [|[|j]] Hi Hj Hij; try lia; exists 100%N; [by right; left|by left].
Qed.

