(* ===== verification/Text.v ===== *)
(** * Text: the string functions of Rust's standard library

    A [str] is the string of its UTF-8 bytes.  What the command line uses of
    them: [split], [split_once], [strip_suffix], [trim], [to_uppercase],
    [parse] of [u64] and [i64], and decimal printing ([pretty]).  The lemmas
    say that parsing undoes printing and splitting undoes joining. *)

From stdpp Require Import pretty.
From S2P Require Import Prelude Order Bytes Externals Goldilocks Instances.

Definition code (a : Ascii.ascii) : N := Ascii.N_of_ascii a.
Abbreviation chr v := (Ascii.ascii_of_N v).

(** ** Splitting *)

(** [s.split(c)], for an ASCII character: one piece more than separators. *)
Fixpoint split_on (c : Ascii.ascii) (s : string) : list string :=
  match s with
  | EmptyString => [EmptyString]
  | String a s =>
      if Ascii.eqb a c then EmptyString :: split_on c s
      else match split_on c s with
           | piece :: pieces => String a piece :: pieces
           | [] => [String a EmptyString]
           end
  end.

(** [s.split_once(c)]. *)
Fixpoint split_once (c : Ascii.ascii) (s : string) : option (string * string) :=
  match s with
  | EmptyString => None
  | String a s =>
      if Ascii.eqb a c then Some (EmptyString, s)
      else '(before, after) ← split_once c s; Some (String a before, after)
  end.

(** [s.strip_suffix(suffix)]. *)
Fixpoint strip_suffix (suffix s : string) : option string :=
  if String.eqb s suffix then Some EmptyString
  else match s with
       | EmptyString => None
       | String a s => String a <$> strip_suffix suffix s
       end.

(** [s.strip_prefix(prefix)], [s.starts_with(prefix)]. *)
Fixpoint strip_prefix (pre s : string) : option string :=
  match pre with
  | EmptyString => Some s
  | String p pre =>
      match s with
      | String a s => if Ascii.eqb p a then strip_prefix pre s else None
      | EmptyString => None
      end
  end.
Definition starts_with (pre s : string) : bool := bool_decide (is_Some (strip_prefix pre s)).

(** ** White space *)

(** The characters of Unicode's [White_Space], by the bytes of their UTF-8
    encodings. *)
Definition white1 (a : Ascii.ascii) : bool := ((9 <=? code a) && (code a <=? 13) || (code a =? 32))%N.
Definition white2 (a b : Ascii.ascii) : bool := ((code a =? 194) && ((code b =? 133) || (code b =? 160)))%N.
Definition white3 (a b c : Ascii.ascii) : bool :=
  ((code a =? 225) && (code b =? 154) && (code c =? 128)
   || (code a =? 226) && (code b =? 128) &&
      ((128 <=? code c) && (code c <=? 138) || (code c =? 168) || (code c =? 169) || (code c =? 175))
   || (code a =? 226) && (code b =? 129) && (code c =? 159)
   || (code a =? 227) && (code b =? 128) && (code c =? 128))%N.

Section skip_white.
Variables (w2 : Ascii.ascii -> Ascii.ascii -> bool) (w3 : Ascii.ascii -> Ascii.ascii -> Ascii.ascii -> bool).

Fixpoint skip_white (s : string) : string :=
  match s with
  | EmptyString => EmptyString
  | String a s1 =>
      if white1 a then skip_white s1
      else
        match s1 with
        | EmptyString => s
        | String b s2 =>
            if w2 a b then skip_white s2
            else
              match s2 with
              | EmptyString => s
              | String c s3 => if w3 a b c then skip_white s3 else s
              end
        end
  end.
End skip_white.

Definition string_rev (s : string) : string :=
  String.string_of_list_ascii (rev (String.list_ascii_of_string s)).
Definition trim_start (s : string) : string := skip_white white2 white3 s.
(** From the end, the bytes of a character are met in reverse. *)
Definition trim_end (s : string) : string :=
  string_rev (skip_white (fun b a => white2 a b) (fun c b a => white3 a b c) (string_rev s)).
Definition trim (s : string) : string := trim_end (trim_start s).

(** [to_uppercase] of the ASCII letters.  No other character has a digit or
    one of the letters of a unit as its upper case, so that a text with one is
    refused by the parsers below whatever becomes of it. *)
Definition upper (a : Ascii.ascii) : Ascii.ascii :=
  if ((97 <=? code a) && (code a <=? 122))%N then chr (code a - 32)%N else a.
Fixpoint to_uppercase (s : string) : string :=
  match s with EmptyString => EmptyString | String a s => String (upper a) (to_uppercase s) end.

(** ** Numbers *)

(** [std::num::IntErrorKind]. *)
Inductive int_error := IntEmpty | InvalidDigit | PosOverflow | NegOverflow.
#[global] Instance int_error_eq_dec : EqDecision int_error.
Proof. solve_decision. Defined.

Definition digit (a : Ascii.ascii) : option Z :=
  if ((48 <=? code a) && (code a <=? 57))%N then Some (Z.of_N (code a) - 48)%Z else None.

Definition within (lo hi v : Z) : bool := (lo <=? v)%Z && (v <=? hi)%Z.

(** The loop of [from_str]: every step is checked against the type's range. *)
Fixpoint parse_digits (neg : bool) (lo hi acc : Z) (s : string) : result int_error Z :=
  match s with
  | EmptyString => Ok acc
  | String a s =>
      match digit a with
      | None => Err InvalidDigit
      | Some d =>
          let scaled := (acc * 10)%Z in
          let next := if neg then (scaled - d)%Z else (scaled + d)%Z in
          if within lo hi scaled && within lo hi next then parse_digits neg lo hi next s
          else Err (if neg then NegOverflow else PosOverflow)
      end
  end.

Definition is_plus (a : Ascii.ascii) : bool := (code a =? 43)%N.
Definition is_minus (a : Ascii.ascii) : bool := (code a =? 45)%N.

Definition parse_int (signed : bool) (lo hi : Z) (s : string) : result int_error Z :=
  match s with
  | EmptyString => Err IntEmpty
  | String a rest =>
      if (is_plus a || is_minus a) && String.eqb rest EmptyString then Err InvalidDigit
      else if is_plus a then parse_digits false lo hi 0 rest
      else if signed && is_minus a then parse_digits true lo hi 0 rest
      else parse_digits false lo hi 0 s
  end.

Definition i64_min : Z := (-9223372036854775808)%Z.
Definition i64_max : Z := 9223372036854775807%Z.

Definition parse_u64 (s : string) : result int_error N := Z.to_N <$> parse_int false 0 (Z.of_N u64_max) s.
Definition parse_i64 (s : string) : result int_error Z := parse_int true i64_min i64_max s.

(** ** What a digit string denotes *)

Fixpoint digits_value (acc : Z) (s : string) : option Z :=
  match s with
  | EmptyString => Some acc
  | String a s => d ← digit a; digits_value (acc * 10 + d) s
  end.

(** A text without the character. *)
Fixpoint lacks (c : Ascii.ascii) (s : string) : bool :=
  match s with EmptyString => true | String a s => negb (Ascii.eqb a c) && lacks c s end.

(** Printable ASCII without the space: nothing to trim. *)
Definition solid (a : Ascii.ascii) : bool := (33 <=? code a)%N && (code a <=? 126)%N.
Fixpoint all_solid (s : string) : bool :=
  match s with EmptyString => true | String a s => solid a && all_solid s end.

(** ** Splitting joined texts *)

Lemma lacks_app c s t : lacks c (s ++ t) = lacks c s && lacks c t.
Proof. induction s as [|a s IH]; simpl; [done|]. by rewrite IH, andb_assoc. Qed.

Lemma split_on_lacks c s : lacks c s = true -> split_on c s = [s].
Proof.
  induction s as [|a s IH]; simpl; [done|]. intros [Ha Hs]%andb_true_iff. apply negb_true_iff in Ha.
  by rewrite Ha, IH.
Qed.

Lemma split_on_app c s t : lacks c s = true -> split_on c (s ++ String c t) = s :: split_on c t.
Proof.
  induction s as [|a s IH]; simpl; [by rewrite Ascii.eqb_refl|]. intros [Ha Hs]%andb_true_iff.
  apply negb_true_iff in Ha. by rewrite Ha, IH.
Qed.

Lemma split_on_not_nil c s : split_on c s <> [].
Proof. destruct s as [|a s]; simpl; [done|]. destruct (Ascii.eqb a c); [done|]. by destruct (split_on c s). Qed.

(** Joining the pieces gives the text back, and no piece has the separator. *)
Lemma split_on_pieces c s : Forall (fun p => lacks c p = true) (split_on c s).
Proof.
  induction s as [|a s IH]; simpl; [by repeat constructor|]. destruct (Ascii.eqb a c) eqn:E; [by constructor|].
  destruct (split_on c s) as [|p ps]; [by repeat constructor; simpl; rewrite E|].
  apply Forall_cons in IH as [Hp Hps]. constructor; [|done]. simpl. by rewrite E, Hp.
Qed.

Lemma split_once_app c s t : lacks c s = true -> split_once c (s ++ String c t) = Some (s, t).
Proof.
  induction s as [|a s IH]; simpl; [by rewrite Ascii.eqb_refl|]. intros [Ha Hs]%andb_true_iff.
  apply negb_true_iff in Ha. by rewrite Ha, IH.
Qed.

Lemma split_once_lacks c s : lacks c s = true -> split_once c s = None.
Proof.
  induction s as [|a s IH]; simpl; [done|]. intros [Ha Hs]%andb_true_iff. apply negb_true_iff in Ha. by rewrite Ha, IH.
Qed.

Lemma strip_suffix_all t : strip_suffix t t = Some EmptyString.
Proof. destruct t as [|a t]; [done|]. unfold strip_suffix. by destruct (String.eqb_spec (String a t) (String a t)). Qed.

Lemma string_length_app s t : String.length (s ++ t) = String.length s + String.length t.
Proof. induction s as [|a s IH]; [done|]. change (S (String.length (s ++ t)) = S (String.length s + String.length t)). by rewrite IH. Qed.

Lemma strip_suffix_app s t : strip_suffix t (s ++ t) = Some s.
Proof.
  induction s as [|a s IH]; [apply strip_suffix_all|]. change (String a s ++ t)%string with (String a (s ++ t)).
  unfold strip_suffix; fold strip_suffix. destruct (String.eqb_spec (String a (s ++ t)) t) as [E|_]; [exfalso|by rewrite IH].
  assert (String.length (String a (s ++ t)) = String.length t) as L by (by rewrite E).
  cbn [String.length] in L. rewrite string_length_app in L. lia.
Qed.

(** ** Trimming *)

Lemma solid_not_white a : solid a = true ->
  white1 a = false /\ (forall b, white2 a b = false) /\ (forall b, white2 b a = false) /\
  (forall b c, white3 a b c = false) /\ (forall b c, white3 b c a = false).
Proof.
  unfold solid, white1, white2, white3. intros [H1%N.leb_le H2%N.leb_le]%andb_true_iff.
  assert (forall v, (126 < v)%N -> (code a =? v)%N = false) as Hne by (intros; apply N.eqb_neq; lia).
  rewrite !(Hne 133%N), !(Hne 160%N), !(Hne 194%N), !(Hne 225%N), !(Hne 226%N), !(Hne 227%N), !(Hne 128%N),
    !(Hne 159%N), !(Hne 168%N), !(Hne 169%N), !(Hne 175%N) by lia.
  assert ((code a <=? 13) = false)%N as -> by (apply N.leb_gt; lia).
  assert ((code a =? 32) = false)%N as -> by (apply N.eqb_neq; lia).
  assert ((128 <=? code a) = false)%N as -> by (apply N.leb_gt; lia).
  rewrite !andb_false_r. repeat split; intros; simpl; rewrite ?andb_false_r; done.
Qed.

Lemma skip_white_solid w2 w3 s :
  (forall a b, solid a = true -> w2 a b = false) -> (forall a b c, solid a = true -> w3 a b c = false) ->
  all_solid s = true -> skip_white w2 w3 s = s.
Proof.
  intros H2 H3. destruct s as [|a s]; simpl; [done|]. intros [Ha _]%andb_true_iff.
  destruct (solid_not_white a Ha) as (-> & _). destruct s as [|b s]; [done|]. rewrite H2 by done.
  destruct s as [|c s]; [done|]. by rewrite H3.
Qed.

Lemma all_solid_forallb s : all_solid s = forallb solid (String.list_ascii_of_string s).
Proof. induction s as [|a s IH]; simpl; by rewrite ?IH. Qed.
Lemma all_solid_rev s : all_solid (string_rev s) = all_solid s.
Proof.
  unfold string_rev. rewrite !all_solid_forallb, String.list_ascii_of_string_of_list_ascii.
  apply eq_true_iff_eq. rewrite !forallb_forall. by setoid_rewrite <-in_rev.
Qed.
Lemma string_rev_rev s : string_rev (string_rev s) = s.
Proof.
  unfold string_rev. by rewrite String.list_ascii_of_string_of_list_ascii, rev_involutive,
    String.string_of_list_ascii_of_string.
Qed.

Lemma trim_solid s : all_solid s = true -> trim s = s.
Proof.
  intros Hs. unfold trim, trim_end, trim_start.
  rewrite (skip_white_solid white2 white3 s); [|intros a b Ha|intros a b c Ha|done].
  2: by destruct (solid_not_white a Ha) as (_ & H & _). 2: by destruct (solid_not_white a Ha) as (_ & _ & _ & H & _).
  rewrite skip_white_solid; [apply string_rev_rev| | |by rewrite all_solid_rev].
  - intros a b Ha. by destruct (solid_not_white a Ha) as (_ & _ & H & _).
  - intros a b c Ha. by destruct (solid_not_white a Ha) as (_ & _ & _ & _ & H).
Qed.

Lemma all_solid_app s t : all_solid (s ++ t) = all_solid s && all_solid t.
Proof. induction s as [|a s IH]; simpl; [done|]. by rewrite IH, andb_assoc. Qed.

(** ** Decimal numbers *)

Definition all_digits (s : string) : Prop := is_Some (digits_value 0 s).

Lemma digit_spec a d : digit a = Some d <-> (48 <= code a <= 57)%N /\ d = (Z.of_N (code a) - 48)%Z.
Proof.
  unfold digit. destruct (_ && _) eqn:E.
  - apply andb_true_iff in E as [?%N.leb_le ?%N.leb_le]. split; [by intros [= <-]|]. by intros [_ ->].
  - split; [done|]. intros [[H1%N.leb_le H2%N.leb_le] _]. by rewrite H1, H2 in E.
Qed.
Lemma digit_range a d : digit a = Some d -> (0 <= d <= 9)%Z.
Proof. intros [? ->]%digit_spec. lia. Qed.

Lemma digit_solid a d : digit a = Some d -> solid a = true /\ is_plus a = false /\ is_minus a = false.
Proof.
  intros [H _]%digit_spec. unfold solid, is_plus, is_minus. repeat split.
  - apply andb_true_iff. rewrite !N.leb_le. lia.
  - apply N.eqb_neq. lia.
  - apply N.eqb_neq. lia.
Qed.

Lemma digits_value_app acc s t : digits_value acc (s ++ t) = v ← digits_value acc s; digits_value v t.
Proof.
  revert acc. induction s as [|a s IH]; intros acc; simpl; [done|]. destruct (digit a); simpl; [|done]. apply IH.
Qed.

Lemma digits_value_shift acc s :
  digits_value acc s = (fun v => acc * 10 ^ Z.of_nat (String.length s) + v)%Z <$> digits_value 0 s.
Proof.
  revert acc. induction s as [|a s IH]; intros acc; cbn [digits_value String.length].
  { simpl. f_equal. lia. }
  destruct (digit a) as [d|]; simpl; [|done]. rewrite IH, (IH (0 * 10 + d)%Z).
  destruct (digits_value 0 s); simpl; [|done]. f_equal. rewrite Nat2Z.inj_succ, Z.pow_succ_r by lia. lia.
Qed.

Lemma digits_value_bounds acc s v : (0 <= acc)%Z -> digits_value acc s = Some v ->
  (acc <= v < (acc + 1) * 10 ^ Z.of_nat (String.length s))%Z.
Proof.
  revert acc. induction s as [|a s IH]; intros acc Hacc; cbn [digits_value String.length].
  { intros [= <-]. lia. }
  destruct (digit a) as [d|] eqn:Ed; simpl; [|done]. apply digit_range in Ed. intros Hv.
  apply IH in Hv; [|lia]. rewrite Nat2Z.inj_succ, Z.pow_succ_r by lia.
  assert (0 < 10 ^ Z.of_nat (String.length s))%Z by (apply Z.pow_pos_nonneg; lia). nia.
Qed.

Lemma digits_value_solid acc s v : digits_value acc s = Some v -> all_solid s = true.
Proof.
  revert acc. induction s as [|a s IH]; intros acc; simpl; [done|].
  destruct (digit a) as [d|] eqn:Ed; simpl; [|done]. intros Hv. apply digit_solid in Ed as (-> & _). by eapply IH.
Qed.

Lemma digits_value_lacks c acc s v : digit c = None -> digits_value acc s = Some v -> lacks c s = true.
Proof.
  intros Hc. revert acc. induction s as [|a s IH]; intros acc; simpl; [done|].
  destruct (digit a) as [d|] eqn:Ed; simpl; [|done]. intros Hv. apply andb_true_iff. split; [|by eapply IH].
  destruct (Ascii.eqb_spec a c); [congruence|done].
Qed.

(** The loop of the parser is the denotation cut at the type's bound. *)
Lemma parse_digits_value lo hi acc s : (lo <= 0 <= acc)%Z -> (acc <= hi)%Z ->
  parse_digits false lo hi acc s =
    match digits_value acc s with
    | Some v => if (v <=? hi)%Z then Ok v else Err PosOverflow
    | None => parse_digits false lo hi acc s
    end.
Proof.
  revert acc. induction s as [|a s IH]; intros acc Hacc Hhi; cbn [digits_value parse_digits].
  { by apply Z.leb_le in Hhi as ->. }
  destruct (digit a) as [d|] eqn:Ed; simpl; [|done]. pose proof (digit_range _ _ Ed) as Hd.
  destruct (digits_value (acc * 10 + d) s) as [v|] eqn:Ev; [|done].
  pose proof (digits_value_bounds (acc * 10 + d) _ _ ltac:(lia) Ev) as Hv. unfold within.
  destruct (Z.leb_spec (acc * 10 + d) hi) as [Hle|Hgt].
  - assert ((lo <=? acc * 10) = true)%Z as -> by (apply Z.leb_le; lia).
    assert ((acc * 10 <=? hi) = true)%Z as -> by (apply Z.leb_le; lia).
    assert ((lo <=? acc * 10 + d) = true)%Z as -> by (apply Z.leb_le; lia). simpl.
    rewrite IH by lia. by rewrite Ev.
  - rewrite !andb_false_r. assert ((v <=? hi) = false)%Z as -> by (apply Z.leb_gt; lia). done.
Qed.

Lemma parse_digits_neg lo hi acc s : (lo <= acc <= 0)%Z -> (0 <= hi)%Z ->
  parse_digits true lo hi acc s =
    match digits_value (- acc) s with
    | Some v => if (lo <=? - v)%Z then Ok (- v)%Z else Err NegOverflow
    | None => parse_digits true lo hi acc s
    end.
Proof.
  revert acc. induction s as [|a s IH]; intros acc Hacc Hhi; cbn [digits_value parse_digits].
  { rewrite Z.opp_involutive. assert ((lo <=? acc) = true)%Z as -> by (apply Z.leb_le; lia). done. }
  destruct (digit a) as [d|] eqn:Ed; simpl; [|done]. pose proof (digit_range _ _ Ed) as Hd.
  destruct (digits_value (- acc * 10 + d) s) as [v|] eqn:Ev; [|done].
  pose proof (digits_value_bounds (- acc * 10 + d) _ _ ltac:(lia) Ev) as Hv. unfold within.
  assert ((acc * 10 <=? hi) = true)%Z as -> by (apply Z.leb_le; lia).
  assert ((acc * 10 - d <=? hi) = true)%Z as -> by (apply Z.leb_le; lia).
  destruct (Z.leb_spec lo (acc * 10 - d)) as [Hle|Hgt].
  - assert ((lo <=? acc * 10) = true)%Z as -> by (apply Z.leb_le; lia). simpl.
    rewrite IH by lia. replace (- (acc * 10 - d))%Z with (- acc * 10 + d)%Z by lia. by rewrite Ev.
  - rewrite andb_false_r. assert ((lo <=? - v) = false)%Z as -> by (apply Z.leb_gt; lia). done.
Qed.

(** A text that is not all digits is refused, by one error or another. *)
Lemma parse_digits_junk neg lo hi acc s : digits_value acc s = None -> exists e, parse_digits neg lo hi acc s = Err e.
Proof.
  revert neg acc. assert (forall acc s, digits_value acc s = None -> digits_value 0 s = None) as Hz.
  { intros acc s0 H. rewrite digits_value_shift in H. by destruct (digits_value 0 s0). }
  induction s as [|a s IH]; intros neg acc; cbn [digits_value parse_digits]; [done|].
  destruct (digit a) as [d|]; simpl; [|eauto]. intros H. destruct (_ && _); [|eauto].
  apply IH. rewrite digits_value_shift. by rewrite (Hz _ _ H).
Qed.

Lemma parse_int_digits signed lo hi s v : (lo <= 0 <= hi)%Z -> s <> EmptyString -> digits_value 0 s = Some v ->
  parse_int signed lo hi s = if (v <=? hi)%Z then Ok v else Err PosOverflow.
Proof.
  intros Hb Hs Hv. pose proof (parse_digits_value lo hi 0 s ltac:(lia) ltac:(lia)) as Hp. rewrite Hv in Hp.
  destruct s as [|a s]; [done|]. unfold parse_int. cbn [digits_value] in Hv. destruct (digit a) as [d|] eqn:Ed; [|done].
  apply digit_solid in Ed as (_ & -> & ->). by rewrite andb_false_r.
Qed.

Lemma parse_u64_digits s v : s <> EmptyString -> digits_value 0 s = Some v ->
  parse_u64 s = if (v <=? Z.of_N u64_max)%Z then Ok (Z.to_N v) else Err PosOverflow.
Proof.
  intros Hs Hv. unfold parse_u64. rewrite (parse_int_digits _ _ _ _ v) by (done || (unfold u64_max; lia)). by destruct (v <=? _)%Z.
Qed.
Lemma parse_i64_digits s v : s <> EmptyString -> digits_value 0 s = Some v ->
  parse_i64 s = if (v <=? i64_max)%Z then Ok v else Err PosOverflow.
Proof. intros Hs Hv. unfold parse_i64. by rewrite (parse_int_digits _ _ _ _ v) by (done || (unfold i64_min, i64_max; lia)). Qed.

Lemma parse_i64_minus s v : s <> EmptyString -> digits_value 0 s = Some v ->
  parse_i64 (String (chr 45) s) = if (i64_min <=? - v)%Z then Ok (- v)%Z else Err NegOverflow.
Proof.
  intros Hs Hv. unfold parse_i64, parse_int. change (is_plus (chr 45)) with false. change (is_minus (chr 45)) with true.
  destruct (String.eqb_spec s EmptyString); [done|]. simpl.
  rewrite parse_digits_neg by (unfold i64_min, i64_max; lia). change (- 0)%Z with 0%Z. by rewrite Hv.
Qed.

(** ** Printed numbers *)

Lemma digit_pretty d : (d < 10)%N -> digit (pretty_N_char d) = Some (Z.of_N d).
Proof.
  intros Hd. assert (d = 0 \/ d = 1 \/ d = 2 \/ d = 3 \/ d = 4 \/ d = 5 \/ d = 6 \/ d = 7 \/ d = 8 \/ d = 9)%N by lia.
  destruct_or?; subst; done.
Qed.

Lemma digits_value_pretty_go n s : digits_value 0 (pretty_N_go n s) = digits_value (Z.of_N n) s.
Proof.
  revert s. induction (N.lt_wf_0 n) as [n _ IH]; intros s. destruct (decide (n = 0)%N) as [->|Hn]; [done|].
  rewrite pretty_N_go_step by lia. rewrite IH by (apply N.div_lt; lia). cbn [digits_value].
  pose proof (N.mod_lt n 10 ltac:(lia)). rewrite digit_pretty by done. simpl. f_equal.
  rewrite N2Z.inj_div, N2Z.inj_mod. change (Z.of_N 10) with 10%Z.
  pose proof (Z.div_mod (Z.of_N n) 10 ltac:(lia)). lia.
Qed.

Lemma digits_value_pretty (n : N) : digits_value 0 (pretty n) = Some (Z.of_N n).
Proof. unfold pretty, pretty_N. case_decide; [by subst|]. by rewrite digits_value_pretty_go. Qed.

Lemma pretty_not_empty (n : N) : pretty n <> EmptyString.
Proof. intros E. pose proof (digits_value_pretty n) as H. rewrite E in H. injection H as H. assert (n = 0%N) as -> by lia. done. Qed.

Lemma parse_u64_pretty (n : N) : is_u64 n -> parse_u64 (pretty n) = Ok n.
Proof.
  intros Hn. rewrite (parse_u64_digits _ (Z.of_N n)) by (apply pretty_not_empty || apply digits_value_pretty).
  assert ((Z.of_N n <=? Z.of_N u64_max) = true)%Z as -> by (apply Z.leb_le; unfold is_u64 in Hn; lia). by rewrite N2Z.id.
Qed.

Lemma parse_u64_range s v : parse_u64 s = Ok v -> is_u64 v.
Proof.
  unfold parse_u64. destruct (parse_int _ _ _ s) as [z|] eqn:E; [|done]. intros [= <-].
  enough (0 <= z <= Z.of_N u64_max)%Z by (unfold is_u64; lia). revert E. unfold parse_int.
  assert (forall neg acc t, (0 <= acc <= Z.of_N u64_max)%Z -> parse_digits neg 0 (Z.of_N u64_max) acc t = Ok z ->
    (0 <= z <= Z.of_N u64_max)%Z) as H.
  { intros neg acc t. revert acc. induction t as [|a t IH]; intros acc Hacc; cbn [parse_digits]; [by intros [= <-]|].
    destruct (digit a); [|done]. destruct (_ && _) eqn:Ew; [|done]. apply IH.
    apply andb_true_iff in Ew as [_ [?%Z.leb_le ?%Z.leb_le]%andb_true_iff]. done. }
  destruct s as [|a s]; [done|]. destruct (_ && _); [done|].
  destruct (is_plus a); [|destruct (false && _)]; apply H; unfold u64_max; lia.
Qed.

(** ** Suffixes *)

Lemma strip_suffix_Some t s r : strip_suffix t s = Some r -> s = (r ++ t)%string.
Proof.
  revert r. induction s as [|a s IH]; intros r; unfold strip_suffix; fold strip_suffix.
  - destruct (String.eqb_spec EmptyString t) as [<-|_]; [by intros [= <-]|done].
  - destruct (String.eqb_spec (String a s) t) as [<-|_]; [by intros [= <-]|].
    destruct (strip_suffix t s) as [r'|]; [|done]. cbn. intros [= <-]. change (String a s = String a (r' ++ t)). by rewrite <-(IH r').
Qed.

Lemma ascii_list_app s t : String.list_ascii_of_string (s ++ t) = String.list_ascii_of_string s ++ String.list_ascii_of_string t.
Proof. induction s as [|a s IH]; [done|]. change (a :: String.list_ascii_of_string (s ++ t) = (a :: String.list_ascii_of_string s) ++ String.list_ascii_of_string t). by rewrite IH. Qed.

(** The last character, seen from the end. *)
Definition last_char (s : string) : option Ascii.ascii := last (String.list_ascii_of_string s).
Lemma last_char_app s a : last_char (s ++ String a EmptyString) = Some a.
Proof. unfold last_char. rewrite ascii_list_app. apply last_snoc. Qed.

Lemma append_inj_r (s t u : string) : (s ++ u)%string = (t ++ u)%string -> s = t.
Proof.
  intros E. apply (f_equal String.list_ascii_of_string) in E. rewrite !ascii_list_app in E. apply app_inv_tail in E.
  apply (f_equal String.string_of_list_ascii) in E. by rewrite !String.string_of_list_ascii_of_string in E.
Qed.

Lemma digits_last s v : s <> EmptyString -> digits_value 0 s = Some v -> exists a d, last_char s = Some a /\ digit a = Some d.
Proof.
  intros Hne Hv. unfold last_char. destruct (last (String.list_ascii_of_string s)) as [a|] eqn:E.
  - apply last_Some in E as [l E]. apply (f_equal String.string_of_list_ascii) in E.
    rewrite String.string_of_list_ascii_of_string in E. exists a.
    assert (s = (String.string_of_list_ascii l ++ String a EmptyString)%string) as ->.
    { rewrite E. clear. induction l as [|x l IH]; [done|]. cbn [app String.string_of_list_ascii].
      change (String x (String.string_of_list_ascii l) ++ String a "")%string with (String x (String.string_of_list_ascii l ++ String a "")). by rewrite <-IH. }
    rewrite digits_value_app in Hv. destruct (digits_value 0 (String.string_of_list_ascii l)) as [w|]; [|done].
    cbn in Hv. destruct (digit a) as [d|]; [by exists d|done].
  - apply last_None in E. by destruct s.
Qed.

(** A text of digits does not end in a letter. *)
Lemma strip_suffix_digits s v t a : digits_value 0 s = Some v -> last_char t = Some a -> digit a = None -> strip_suffix t s = None.
Proof.
  intros Hv Ht Ha. destruct (strip_suffix t s) as [r|] eqn:E; [|done]. apply strip_suffix_Some in E as ->. exfalso.
  destruct (digits_last (r ++ t) v) as (b & d & Hb & Hd); [|done|].
  - intros E. apply (f_equal String.length) in E. rewrite string_length_app in E. destruct t; [done|]. simpl in E. lia.
  - unfold last_char in *. rewrite ascii_list_app in Hb. rewrite last_app, Ht in Hb. congruence.
Qed.

Lemma append_empty (s : string) : (s ++ EmptyString)%string = s.
Proof. induction s as [|a s IH]; [done|]. change (String a (s ++ "") = String a s). by rewrite IH. Qed.
Lemma append_assoc (s t u : string) : (s ++ (t ++ u))%string = ((s ++ t) ++ u)%string.
Proof. induction s as [|a s IH]; [done|]. change (String a (s ++ (t ++ u)) = String a ((s ++ t) ++ u)). by rewrite IH. Qed.

Lemma strip_suffix_cut x u s : last_char s <> Some x -> strip_suffix (String x u) (s ++ u) = None.
Proof.
  intros Hn. destruct (strip_suffix (String x u) (s ++ u)) as [r|] eqn:E; [|done]. apply strip_suffix_Some in E. exfalso. apply Hn.
  change (String x u) with (String x EmptyString ++ u)%string in E.
  rewrite append_assoc in E. apply append_inj_r in E as ->. apply last_char_app.
Qed.

Lemma to_uppercase_app s t : to_uppercase (s ++ t) = (to_uppercase s ++ to_uppercase t)%string.
Proof. induction s as [|a s IH]; [done|]. change (String (upper a) (to_uppercase (s ++ t)) = String (upper a) (to_uppercase s ++ to_uppercase t)). by rewrite IH. Qed.
Lemma upper_digits s v : digits_value 0 s = Some v -> to_uppercase s = s.
Proof.
  assert (forall acc, digits_value acc s = Some v -> to_uppercase s = s) as H; [|by apply H].
  induction s as [|a s IH]; intros acc; cbn [digits_value to_uppercase]; [done|]. destruct (digit a) as [d|] eqn:Ed; [|done].
  cbn [mbind option_bind]. intros Hv. rewrite (IH _ Hv). f_equal. apply digit_spec in Ed as [Hr _]. unfold upper.
  assert ((97 <=? code a) = false)%N as -> by (apply N.leb_gt; lia). done.
Qed.
