(* ===== verification/Cli.v ===== *)
(** * Cli: the command line over the engine (src/cli.rs)

    The core commands: [Labels] interns the texts of the arguments, the
    parsers read numbers, links and signals, and each command runs the modelled
    engine and returns its report.  A report has what the command prints, by
    rows; the text itself is in [Render].  An error ends the program, so that
    the labels interned before it are dropped.  The splitting of the arguments
    by clap is not modelled: a [command] is what it yields. *)

From stdpp Require Import pretty.
From S2P Require Import Prelude Order Bytes Externals Goldilocks Instances Chain Conflict Fork Reconcile Beacon Settlement Tickets Seals Rewards Finality Text.

Inductive cli_error :=
| FractionTooLong | BadIntegerPart (e : int_error) | BadFractionalPart (e : int_error) | BadInteger (e : int_error)
| BadLink (spec : string) | BadSignal (spec : string) | BadContrib (spec : string)
| BadAmount (e : int_error) | BadStep (e : int_error)
| UnknownStrategy (name : string) | ReconcileFailed (e : fork_error)
| SettleFailed (e : reward_error) | SelfCheckFailed.

Definition colon : Ascii.ascii := chr 58.
Definition dot : Ascii.ascii := chr 46.

(** ** Labels *)

Definition short_hex (id : particle) : string := hex_of_bytes (take 6 (arr_bytes id)).
(** The first sixteen characters and an ellipsis. *)
Definition hex32 (b : particle) : string :=
  (String.substring 0 16 (hex_of_bytes (arr_bytes b)) ++ String.string_of_list_byte [xe2; x80; xa6])%string.

Module Labels.
Record labels := mk_labels { to_id : gmap string particle; to_label : gmap particle string }.
Definition empty : labels := mk_labels ∅ ∅.

Section labels.
Context {HM : Hemera}.

Definition id (ls : labels) (label : string) : particle * labels :=
  match to_id ls !! label with
  | Some id => (id, ls)
  | None =>
      let id := hemera_hash (str_bytes label) in
      (id, mk_labels (<[label := id]> (to_id ls)) (<[id := label]> (to_label ls)))
  end.

Definition label (ls : labels) (id : particle) : string := default (short_hex id) (to_label ls !! id).
End labels.
End Labels.
Export Labels(labels).

(** ** Parsing *)

(** [i64] arithmetic that panics out of range. *)
Definition i64 {E} (v : Z) : result (fault E) Z := if within i64_min i64_max v then Ok v else Err Panicked.
(** [10i64.checked_pow(e)]. *)
Definition checked_pow10 (e : N) : option Z :=
  let v := (10 ^ Z.of_N e)%Z in if (v <=? i64_max)%Z then Some v else None.

Section parsing.
Context {HM : Hemera} {NB : Nebu} {FX : Fixed} {TR : Tru} {ZH : Zheng}.

Definition parse_fx (s : string) : result (fault cli_error) fx :=
  let s := trim s in
  match split_once dot s with
  | Some (int, frac) =>
      den ← may_fail (ok_or FractionTooLong (checked_pow10 (as_u32 (N.of_nat (String.length frac)))));
      int_v ← (if String.eqb int EmptyString || String.eqb int "-" then Ok 0%Z
               else may_fail (map_err BadIntegerPart (parse_i64 int)));
      frac_v ← (if String.eqb frac EmptyString then Ok 0%Z
                else may_fail (map_err BadFractionalPart (parse_i64 frac)));
      let sign := if starts_with "-" s then (-1)%Z else 1%Z in
      magnitude ← i64 (Z.abs int_v);
      scaled ← i64 (magnitude * den);
      num ← i64 (scaled + frac_v);
      signed ← i64 (sign * num);
      Ok (fx_div (fx_from_int signed) (fx_from_int den))
  | None =>
      v ← may_fail (map_err BadInteger (parse_i64 s));
      Ok (fx_from_int v)
  end.

Definition parse_link (spec : string) (ls : labels) : result cli_error (cyberlink * labels) :=
  match split_on colon spec with
  | [from; to; amount] =>
      amount ← map_err BadAmount (parse_u64 amount);
      let '(from, ls) := Labels.id ls from in
      let '(to, ls) := Labels.id ls to in
      Ok (mk_cyberlink from from to zero32 amount 1 0, ls)
  | _ => Err (BadLink spec)
  end.

Definition parse_signal (spec : string) (ls : labels) : result cli_error (signal * labels) :=
  match split_on colon spec with
  | [neuron; step; from; to] =>
      let '(neuron, ls) := Labels.id ls neuron in
      step ← map_err BadStep (parse_u64 step);
      let '(from, ls) := Labels.id ls from in
      let '(to, ls) := Labels.id ls to in
      Ok (mk_signal neuron SELF_NETWORK [mk_cyberlink neuron from to zero32 1 1 0] [] [] zero32 step 0 None, ls)
  | _ => Err (BadSignal spec)
  end.

(** One argument after the other, the labels threaded through. *)
Definition parse_one {A} (parse : string -> labels -> result cli_error (A * labels)) (st : list A * labels) (spec : string)
    : result cli_error (list A * labels) :=
  '(a, ls) ← parse spec st.2; Ok (st.1 ++ [a], ls).
Definition parse_all {A} (parse : string -> labels -> result cli_error (A * labels)) (specs : list string) (ls : labels)
    : result cli_error (list A * labels) :=
  try_fold (parse_one parse) specs ([], ls).

(** [Link::stake(l.from, l.to, l.amount as u128)]. *)
Definition staked (l : cyberlink) : link := link_stake (cl_from l) (cl_to l) (cl_amount l).
End parsing.

(** ** Commands *)

(** [r.b.1.cmp(&r.a.1).then(..)]: the higher focus first, then the label. *)
Section rows.
Context {NB : Nebu} {FX : Fixed}.
Definition fx_cmp (x y : fx) : comparison := if fx_ltb x y then Lt else if fx_ltb y x then Gt else Eq.
Definition row_cmp (a b : string * fx) : comparison :=
  match fx_cmp b.2 a.2 with Eq => ocmp a.1 b.1 | c => c end.
Definition sort_rows (rows : list (string * fx)) : list (string * fx) := @sort_by _ _ row_cmp (fun r => r) rows.
End rows.

Section commands.
Context {HM : Hemera} {NB : Nebu} {FX : Fixed} {TR : Tru} {ZH : Zheng} {TK : Tok}.

Definition cmd_focus (link_specs : list string) : result (fault cli_error) (list (string * fx)) :=
  '(parsed, ls) ← may_fail (parse_all parse_link link_specs Labels.empty);
  let graph := build_graph (map staked parsed) context_none in
  let focus := compute_focus graph params_default in
  rows ← collect (imap (fun i id => f ← index_or_panic focus i; Ok (Labels.label ls id, f)) (graph_node_ids graph));
  Ok (sort_rows rows).

(** One signal of the loop of [run_reconcile]: what it resolved is appended. *)
Definition reconcile_step {F} `{!ForkChoice F} (st : reconciler * list resolved) (s : signal)
    : result (fault cli_error) (reconciler * list resolved) :=
  match rc_observe st.1 s with
  | (Ok r, rec) => Ok (rec, st.2 ++ r)
  | (Err (Failed e), _) => Err (Failed (ReconcileFailed e))
  | (Err Panicked, _) => Err Panicked
  end.
Definition run_reconcile {F} `{!ForkChoice F} (fork : F) (signals : list signal)
    : result (fault cli_error) (list resolved) :=
  '(_, out) ← try_fold reconcile_step signals (reconciler_new fork, []);
  Ok out.

(** The rows of [cmd_reconcile]: the key and the winner. *)
Definition who (ls : labels) (s : signal) : string := (Labels.label ls (sg_neuron s) ++ ":" ++ pretty (sg_step s))%string.
Definition reconcile_row (ls : labels) (signals : list signal) (r : resolved) : string * string :=
  (short_hex (rs_key r),
   match List.find (fun s => bool_decide (content_id s = rs_winner r)) signals with
   | Some s => who ls s
   | None => short_hex (rs_winner r)
   end).

Definition cmd_reconcile (strategy : string) (signal_specs : list string)
    : result (fault cli_error) (list (string * string)) :=
  '(signals, ls) ← may_fail (parse_all parse_signal signal_specs Labels.empty);
  resolved ←
    (if String.eqb strategy "serialize" then run_reconcile serialize signals
     else if String.eqb strategy "minhash" then run_reconcile min_hash signals
     else if String.eqb strategy "focus" then run_reconcile focus_default signals
     else Err (Failed (UnknownStrategy strategy)));
  Ok (map (reconcile_row ls signals) resolved).

Definition cmd_conflicts (signal_specs : list string) : result (fault cli_error) (list (string * list string)) :=
  '(signals, ls) ← may_fail (parse_all parse_signal signal_specs Labels.empty);
  let index := observe_all index_new signals in
  collect (map (fun key =>
    g ← ok_or Panicked (group index key);
    Ok (short_hex key, map (who ls) (members g))) (conflicts index)).

(** *** Finality *)

Record finality_report := mk_finality_report {
  fr_particles : nat;
  fr_mean : fx;
  fr_variance : fx;
  fr_target : fx;
  fr_crosses : bool;
  fr_certified : bool;
  fr_verdict : finality
}.

(** [(0..len as u8).map(|b| [b; 32])]. *)
Definition numbered_particles (len : nat) : list particle :=
  map (fun b => arr_rep 32 (byte_of_N (N.of_nat b))) (seq 0 (N.to_nat (N.of_nat len mod 256))).

Definition cmd_finality (phi : list string) (target kappa_prime uncert gap kappa_d c : string)
    : result (fault cli_error) finality_report :=
  focus ← collect (map parse_fx phi);
  domain ← (match from_focus (numbered_particles (length focus)) focus with Done d => Ok d | Panic => Err Panicked end);
  target ← parse_fx target;
  kp ← parse_fx kappa_prime;
  uncert ← parse_fx uncert;
  gap ← parse_fx gap;
  kd ← parse_fx kappa_d;
  c ← parse_fx c;
  Ok (mk_finality_report (dm_len domain) (mean domain) (variance domain) target
        (crosses_threshold target domain kp) (certified uncert gap kd c kp)
        (finalizes target domain uncert gap kd c kp)).

(** *** Settlement *)

(** [neuron:from:to:amount]; the names are interned before the amount is read. *)
Definition parse_contrib (spec : string) (ls : labels)
    : result cli_error ((particle * particle * particle * N) * labels) :=
  match split_on colon spec with
  | [neuron; from; to; amount] =>
      let '(neuron, ls) := Labels.id ls neuron in
      let '(from, ls) := Labels.id ls from in
      let '(to, ls) := Labels.id ls to in
      amount ← map_err BadAmount (parse_u64 amount);
      Ok ((neuron, from, to, amount), ls)
  | _ => Err (BadContrib spec)
  end.

Definition raw_contribution (c : particle * particle * particle * N) : contribution :=
  let '(neuron, from, to, amount) := c in mk_contribution neuron [link_stake from to amount] fx_one.

(** [id[0] = (i as u8).wrapping_add(1)], [id[1..9]] the epoch, zeros after. *)
Definition claim_id (i : nat) (epoch : N) : particle :=
  default zero32 (list_to_arr 32
    (byte_of_N (N.of_nat i mod 256 + 1) :: u64_le epoch ++ replicate 23 x00)).
Definition contrib_claim (epoch : N) (i : nat) (c : particle * particle * particle * N) : reward_claim :=
  let '(neuron, from, to, amount) := c in claim_from_links (claim_id i epoch) neuron [link_stake from to amount] 1.

(** [iter().map(..).sum::<u64>()], which panics when it overflows. *)
Definition checked_sum {E} (l : list N) : result (fault E) N :=
  try_fold (fun acc v => if (acc + v <=? u64_max)%N then Ok (acc + v)%N else Err Panicked) l 0%N.

Inductive settle_report :=
| RawLottery (shares : list (string * fx))
| Settled (receipt : settle_receipt) (beacon claims_root receipt_hash : string)
    (rows : list (string * fx * N)) (mint : N).

Definition share_row (ls : labels) (s : settled_share) : string * fx * N :=
  (Labels.label ls (sh_neuron s), sh_share s, sh_amount s).

Definition cmd_settle (base_specs contrib_specs : list string) (samples epoch budget : N) (beacon_label : option string)
    : result (fault cli_error) settle_report :=
  '(parsed, ls) ← may_fail (parse_all parse_link base_specs Labels.empty);
  let base := map staked parsed in
  match beacon_label with
  | Some beacon =>
      '(parsed, ls) ← may_fail (parse_all parse_contrib contrib_specs ls);
      let contribs := map raw_contribution parsed in
      let '(beacon_id, ls) := Labels.id ls beacon in
      match shapley base contribs context_none params_default (N.to_nat samples) beacon_id with
      | Ok shares => Ok (RawLottery (map (fun s => (Labels.label ls s.1, s.2)) shares))
      | Err _ => Err Panicked
      end
  | None =>
      '(parsed, ls) ← may_fail (parse_all parse_contrib contrib_specs ls);
      let claims := imap (contrib_claim epoch) parsed in
      rec ←
        (match settle_epoch epoch GENESIS_PREV base claims context_none params_default (N.to_nat samples) budget with
         | Ok rec => Ok rec
         | Err (Failed e) => Err (Failed (SettleFailed e))
         | Err Panicked => Err Panicked
         end);
      if negb (verify_receipt rec) then Err (Failed SelfCheckFailed)
      else
        paid ← checked_sum (map sh_amount (sr_shares rec));
        Ok (Settled rec (hex32 (sr_beacon rec)) (hex32 (sr_claims_root rec)) (hex32 (sr_receipt_hash rec))
              (map (share_row ls) (sr_shares rec)) paid)
  end.

(** *** Chains *)

Inductive chain_event := Equivocated (neuron : string) | Rejected (neuron : string) (e : chain_error).

Record chain_state := mk_chain_state {
  cs_labels : labels;
  cs_chains : gmap particle signal_chain;
  cs_ok : nat;
  cs_equivocations : nat;
  cs_events : list chain_event
}.
Definition chain_start : chain_state := mk_chain_state Labels.empty ∅ 0 0 [].

(** One signal appended to its neuron's chain, the outcome counted. *)
Definition chain_step (st : chain_state) (sig : signal) : chain_state :=
  let neuron := sg_neuron sig in
  let chain := default chain_new (cs_chains st !! neuron) in
  match append chain sig with
  | Ok chain =>
      mk_chain_state (cs_labels st) (<[neuron := chain]> (cs_chains st)) (S (cs_ok st)) (cs_equivocations st) (cs_events st)
  | Err Equivocation =>
      mk_chain_state (cs_labels st) (<[neuron := chain]> (cs_chains st)) (cs_ok st) (S (cs_equivocations st))
        (cs_events st ++ [Equivocated (short_hex neuron)])
  | Err e =>
      mk_chain_state (cs_labels st) (<[neuron := chain]> (cs_chains st)) (cs_ok st) (cs_equivocations st)
        (cs_events st ++ [Rejected (short_hex neuron) e])
  end.
Definition set_labels (st : chain_state) (ls : labels) : chain_state :=
  mk_chain_state ls (cs_chains st) (cs_ok st) (cs_equivocations st) (cs_events st).
Definition chain_spec (st : chain_state) (spec : string) : result cli_error chain_state :=
  '(sig, ls) ← parse_signal spec (cs_labels st);
  Ok (chain_step (set_labels st ls) sig).

Record chain_report := mk_chain_report { cr_events : list chain_event; cr_chains : nat; cr_ok : nat; cr_equivocations : nat }.
Definition cmd_chain (signal_specs : list string) : result (fault cli_error) chain_report :=
  st ← may_fail (try_fold chain_spec signal_specs chain_start);
  Ok (mk_chain_report (cs_events st) (size (cs_chains st)) (cs_ok st) (cs_equivocations st)).

(** *** Dispatch *)

Inductive command :=
| CFocus (links : list string)
| CReconcile (strategy : string) (signals : list string)
| CConflicts (signals : list string)
| CFinality (phi : list string) (target kappa_prime uncert gap kappa_d c : string)
| CSettle (base contribs : list string) (samples epoch budget : N) (beacon : option string)
| CChain (signals : list string).

Inductive report :=
| RHelp
| RFocus (rows : list (string * fx))
| RReconcile (rows : list (string * string))
| RConflicts (groups : list (string * list string))
| RFinality (r : finality_report)
| RSettle (r : settle_report)
| RChain (r : chain_report).

(** [run], without the two network commands. *)
Definition run (c : option command) : result (fault cli_error) report :=
  match c with
  | None => Ok RHelp
  | Some (CFocus links) => RFocus <$> cmd_focus links
  | Some (CReconcile strategy signals) => RReconcile <$> cmd_reconcile strategy signals
  | Some (CConflicts signals) => RConflicts <$> cmd_conflicts signals
  | Some (CFinality phi target kappa_prime uncert gap kappa_d c) =>
      RFinality <$> cmd_finality phi target kappa_prime uncert gap kappa_d c
  | Some (CSettle base contribs samples epoch budget beacon) =>
      RSettle <$> cmd_settle base contribs samples epoch budget beacon
  | Some (CChain signals) => RChain <$> cmd_chain signals
  end.
End commands.
