(* ===== verification/CliArgs.v ===== *)
(** * CliArgs: the arguments of the command line (src/cli.rs)

    Decimals, links and signals are read exactly or refused, and the names of
    the arguments are the ones printed back. *)

From stdpp Require Import pretty.
From S2P Require Import Prelude Order Bytes Externals Goldilocks Instances Chain Conflict Fork Reconcile Beacon Settlement Tickets Seals Rewards Finality Text Cli.

(** ** Decimals *)

Section decimals.
Context {NB : Nebu} {FX : Fixed}.

Definition sign_text (neg : bool) : string := if neg then "-" else EmptyString.
Definition signed (neg : bool) (v : Z) : Z := if neg then (- v)%Z else v.
Definition decimal_text (neg : bool) (int frac : string) : string := (sign_text neg ++ int ++ String dot frac)%string.

(** The integer part fits an [i64] with its sign. *)
Definition int_fits (neg : bool) (v : Z) : bool := if neg then (v <=? - i64_min)%Z else (v <=? i64_max)%Z.
Definition int_overflow (neg : bool) : int_error := if neg then NegOverflow else PosOverflow.

(** What reading the decimal with integer part [i] and [n] fractional digits
    of value [f] comes to. *)
Definition decimal_outcome (neg : bool) (i f : Z) (n : nat) : result (fault cli_error) fx :=
  if 18 <? n then Err (Failed FractionTooLong)
  else if negb (int_fits neg i) then Err (Failed (BadIntegerPart (int_overflow neg)))
  else
    let num := (i * 10 ^ Z.of_nat n + f)%Z in
    if (num <=? i64_max)%Z then Ok (fx_div (fx_from_int (signed neg num)) (fx_from_int (10 ^ Z.of_nat n)))
    else Err Panicked.

Lemma parse_signed_i64 neg int i : digits_value 0 int = Some i -> int <> EmptyString ->
  parse_i64 (sign_text neg ++ int) = if int_fits neg i then Ok (signed neg i) else Err (int_overflow neg).
Proof.
  intros Hi Hne. destruct neg; cbn [sign_text int_fits signed int_overflow].
  - change ("-" ++ int)%string with (String (chr 45) int). rewrite (parse_i64_minus _ i) by done.
    assert ((i64_min <=? - i) = (i <=? - i64_min))%Z as ->; [|done].
    apply eq_true_iff_eq. rewrite !Z.leb_le. lia.
  - change ("" ++ int)%string with int. by rewrite (parse_i64_digits _ i).
Qed.

(** The integer part as the command reads it: nothing, or a bare minus, is 0. *)
Lemma int_part neg int i : digits_value 0 int = Some i ->
  (if String.eqb (sign_text neg ++ int) EmptyString || String.eqb (sign_text neg ++ int) "-" then Ok 0%Z
   else may_fail (map_err BadIntegerPart (parse_i64 (sign_text neg ++ int)))) =
  (if int_fits neg i then Ok (signed neg i) else Err (Failed (BadIntegerPart (int_overflow neg)))).
Proof.
  intros Hi. destruct (decide (int = EmptyString)) as [->|Hne].
  - injection Hi as <-. by destruct neg.
  - rewrite (parse_signed_i64 neg int i) by done.
    assert (String.eqb (sign_text neg ++ int) EmptyString || String.eqb (sign_text neg ++ int) "-" = false) as ->.
    { destruct int as [|a int]; [done|]. cbn [digits_value] in Hi. destruct (digit a) eqn:Ea; [|done].
      apply orb_false_iff. split; apply String.eqb_neq; destruct neg; intros [=]; by subst a. }
    by destruct (int_fits neg i).
Qed.

(** Texts of digits and a sign: nothing to trim, and where they split. *)
Lemma decimal_solid neg s v : digits_value 0 s = Some v -> all_solid (sign_text neg ++ s) = true.
Proof. intros Hv. rewrite all_solid_app, (digits_value_solid _ _ _ Hv). by destruct neg. Qed.
Lemma decimal_lacks_dot neg s v : digits_value 0 s = Some v -> lacks dot (sign_text neg ++ s) = true.
Proof. intros Hv. rewrite lacks_app, (digits_value_lacks dot 0 s v) by done. by destruct neg. Qed.
Lemma starts_with_sign neg int i rest : digits_value 0 int = Some i ->
  starts_with "-" (sign_text neg ++ int ++ String dot rest) = neg.
Proof.
  intros Hi. destruct neg; [unfold starts_with; apply bool_decide_eq_true_2; cbn; by eexists|].
  apply bool_decide_eq_false_2. destruct int as [|a int]; [intros [t Ht]; discriminate Ht|].
  cbn [digits_value] in Hi. destruct (digit a) eqn:Ea; [|done]. intros [t Ht]. revert Ht.
  change ((if Ascii.eqb (chr 45) a then Some (int ++ String dot rest)%string else None) = Some t -> False).
  destruct (Ascii.eqb_spec (chr 45) a); [by subst a|done].
Qed.

Lemma checked_pow10_nat n : (N.of_nat n <= u32_max)%N ->
  checked_pow10 (as_u32 (N.of_nat n)) = if 18 <? n then None else Some (10 ^ Z.of_nat n)%Z.
Proof.
  intros Hn. unfold checked_pow10. rewrite as_u32_id, nat_N_Z by done. destruct (Nat.ltb_spec 18 n) as [Hgt|Hle].
  - assert (10 ^ 19 <= 10 ^ Z.of_nat n)%Z by (apply Z.pow_le_mono_r; lia).
    assert ((10 ^ Z.of_nat n <=? i64_max) = false)%Z as -> by (apply Z.leb_gt; unfold i64_max; lia). done.
  - assert (10 ^ Z.of_nat n <= 10 ^ 18)%Z by (apply Z.pow_le_mono_r; lia).
    assert ((10 ^ Z.of_nat n <=? i64_max) = true)%Z as -> by (apply Z.leb_le; unfold i64_max; lia). done.
Qed.

(** The fraction's digits are an [i64] below the denominator. *)
Lemma frac_part frac f : digits_value 0 frac = Some f -> String.length frac <= 18 ->
  (if String.eqb frac EmptyString then Ok 0%Z else may_fail (map_err BadFractionalPart (parse_i64 frac))) = Ok f.
Proof.
  intros Hf Hl. destruct (String.eqb_spec frac EmptyString) as [->|Hne]; [by injection Hf as <-|].
  rewrite (parse_i64_digits _ f) by done. pose proof (digits_value_bounds 0 _ _ ltac:(lia) Hf) as Hb.
  assert (10 ^ Z.of_nat (String.length frac) <= 10 ^ 18)%Z by (apply Z.pow_le_mono_r; lia).
  assert ((f <=? i64_max) = true)%Z as -> by (apply Z.leb_le; unfold i64_max; lia). done.
Qed.

(** The checked arithmetic of the numerator. *)
Lemma numerator neg i f den : (0 <= i)%Z -> (0 <= f < den)%Z -> (den <= 10 ^ 18)%Z -> int_fits neg i = true ->
  (magnitude ← i64 (Z.abs (signed neg i)); scaled ← i64 (magnitude * den); num ← i64 (scaled + f);
   signed ← i64 ((if neg then -1 else 1) * num); Ok (fx_div (fx_from_int signed) (fx_from_int den)))
  = if (i * den + f <=? i64_max)%Z then Ok (fx_div (fx_from_int (signed neg (i * den + f))) (fx_from_int den))
    else Err Panicked :> result (fault cli_error) fx.
Proof.
  intros Hi Hf Hd Hfit. assert (Z.abs (signed neg i) = i) as -> by (destruct neg; simpl; lia).
  assert (forall v, (0 <= v)%Z -> @i64 cli_error v = if (v <=? i64_max)%Z then Ok v else Err Panicked) as Hpos.
  { intros v Hv. unfold i64, within. assert ((i64_min <=? v) = true)%Z as -> by (apply Z.leb_le; unfold i64_min; lia). done. }
  rewrite Hpos by done. destruct (Z.leb_spec (i * den + f) i64_max) as [Hle|Hgt].
  - assert ((i <=? i64_max) = true)%Z as -> by (apply Z.leb_le; nia). cbn [mbind result_bind]. rewrite Hpos by nia.
    assert ((i * den <=? i64_max) = true)%Z as -> by (apply Z.leb_le; lia). cbn [mbind result_bind]. rewrite Hpos by nia.
    assert ((i * den + f <=? i64_max) = true)%Z as -> by (apply Z.leb_le; lia). cbn [mbind result_bind].
    assert (((if neg then -1 else 1) * (i * den + f))%Z = signed neg (i * den + f)) as -> by (destruct neg; simpl; lia).
    unfold i64, within. assert (((i64_min <=? signed neg (i * den + f)) && (signed neg (i * den + f) <=? i64_max)) = true)%Z as ->; [|done].
    apply andb_true_iff. rewrite !Z.leb_le. unfold i64_min, i64_max in *. destruct neg; simpl; nia.
  - destruct (i <=? i64_max)%Z; [|done]. cbn [mbind result_bind]. rewrite Hpos by nia.
    destruct (i * den <=? i64_max)%Z; [|done]. cbn [mbind result_bind]. rewrite Hpos by nia.
    assert ((i * den + f <=? i64_max) = false)%Z as -> by (apply Z.leb_gt; lia). done.
Qed.

Lemma parse_fx_fraction neg int frac i f :
  digits_value 0 int = Some i -> digits_value 0 frac = Some f -> (N.of_nat (String.length frac) <= u32_max)%N ->
  parse_fx (decimal_text neg int frac) = decimal_outcome neg i f (String.length frac).
Proof.
  intros Hi Hf Hl. unfold parse_fx, decimal_text. rewrite trim_solid.
  2: { rewrite append_assoc, all_solid_app, (decimal_solid neg int i) by done.
       change (String dot frac) with (String dot "" ++ frac)%string. by rewrite all_solid_app, (digits_value_solid _ _ _ Hf). }
  rewrite starts_with_sign with (i := i) by done.
  rewrite append_assoc, split_once_app by (by apply (decimal_lacks_dot neg int i)).
  rewrite checked_pow10_nat, (int_part neg int i) by done. unfold decimal_outcome.
  destruct (Nat.ltb_spec 18 (String.length frac)) as [|Hn]; [done|]. cbn [ok_or may_fail map_err mbind result_bind].
  destruct (int_fits neg i) eqn:Efit; [|done]. cbn [negb mbind result_bind]. rewrite (frac_part frac f) by done.
  cbn [mbind result_bind]. pose proof (digits_value_bounds 0 _ _ ltac:(lia) Hi). pose proof (digits_value_bounds 0 _ _ ltac:(lia) Hf).
  apply numerator; [lia|lia| |done]. apply Z.pow_le_mono_r; lia.
Qed.

Lemma parse_fx_integer neg int i : digits_value 0 int = Some i -> int <> EmptyString ->
  parse_fx (sign_text neg ++ int) =
    if int_fits neg i then Ok (fx_from_int (signed neg i)) else Err (Failed (BadInteger (int_overflow neg))).
Proof.
  intros Hi Hne. unfold parse_fx. rewrite trim_solid by (by apply (decimal_solid neg int i)).
  rewrite split_once_lacks by (by apply (decimal_lacks_dot neg int i)). rewrite (parse_signed_i64 neg int i) by done.
  by destruct (int_fits neg i).
Qed.
End decimals.

(** ** Names *)

Section names.
Context {HM : Hemera}.

Definition name_id (t : string) : particle := hemera_hash (str_bytes t).

(** Every interned text is at its hash, which has some text of that hash. *)
Definition labels_wf (ls : labels) : Prop :=
  (forall t p, Labels.to_id ls !! t = Some p -> p = name_id t /\ is_Some (Labels.to_label ls !! p)) /\
  (forall p t, Labels.to_label ls !! p = Some t -> p = name_id t).

(** The text is known, as are all that were. *)
Definition knows (ls : labels) (t : string) : Prop := is_Some (Labels.to_label ls !! name_id t).
Definition grows (ls ls' : labels) : Prop :=
  forall p, is_Some (Labels.to_label ls !! p) -> is_Some (Labels.to_label ls' !! p).

#[export] Instance grows_preorder : PreOrder grows.
Proof. split; [intros ls p; auto|]. intros l1 l2 l3 H1 H2 p. auto. Qed.

Lemma empty_wf : labels_wf Labels.empty.
Proof. split; intros ? ?; cbn [Labels.to_id Labels.to_label Labels.empty]; by rewrite lookup_empty. Qed.

Lemma id_spec ls t : labels_wf ls ->
  exists ls', Labels.id ls t = (name_id t, ls') /\ labels_wf ls' /\ knows ls' t /\ grows ls ls'.
Proof.
  intros [Hi Hl]. unfold Labels.id. destruct (Labels.to_id ls !! t) as [p|] eqn:E.
  - destruct (Hi _ _ E) as [-> Hk]. exists ls. split; [done|]. split; [done|]. split; [exact Hk|by intros p Hp].
  - eexists. split; [done|]. split; [|split].
    + split; cbn [Labels.to_id Labels.to_label].
      * intros t' p [[-> <-]|[Hne Hp]]%lookup_insert_Some; (split; [first [done|by destruct (Hi _ _ Hp)]|]).
        { rewrite lookup_insert_eq. by eexists. }
        destruct (Hi _ _ Hp) as [_ Hs]. destruct (decide (hemera_hash (str_bytes t) = p)) as [->|];
          [rewrite lookup_insert_eq; by eexists|by rewrite lookup_insert_ne].
      * intros p t' [[<- <-]|[_ Hp]]%lookup_insert_Some; [done|by apply Hl].
    + unfold knows. cbn [Labels.to_label]. unfold name_id. rewrite lookup_insert_eq. by eexists.
    + intros p Hp. cbn [Labels.to_label]. destruct (decide (hemera_hash (str_bytes t) = p)) as [->|];
        [rewrite lookup_insert_eq; by eexists|by rewrite lookup_insert_ne].
Qed.

Lemma str_bytes_inj s t : str_bytes s = str_bytes t -> s = t.
Proof. unfold str_bytes. intros E. by rewrite <-(String.string_of_list_byte_of_string s), E, String.string_of_list_byte_of_string. Qed.

(** A known text is printed back. *)
Lemma label_known ls t : labels_wf ls -> knows ls t -> (exists x y, collides x y) \/ Labels.label ls (name_id t) = t.
Proof.
  intros [_ Hl] [t' Ht]. unfold Labels.label. rewrite Ht. cbn [default]. destruct (decide (t' = t)) as [->|Hne]; [by right|].
  left. exists (str_bytes t), (str_bytes t'). split; [by intros E%str_bytes_inj|]. exact (Hl _ _ Ht).
Qed.
Lemma knows_grows ls ls' t : knows ls t -> grows ls ls' -> knows ls' t.
Proof. intros Hk Hg. by apply Hg. Qed.
End names.

(** ** Arguments *)

Section arguments.
Context {HM : Hemera} {NB : Nebu} {FX : Fixed} {TR : Tru} {ZH : Zheng}.

Definition link_text (a : string * string * N) : string :=
  let '(from, to, amount) := a in (from ++ String colon (to ++ String colon (pretty amount)))%string.
Definition signal_text (a : string * N * string * string) : string :=
  let '(neuron, step, from, to) := a in
  (neuron ++ String colon (pretty step ++ String colon (from ++ String colon to)))%string.

Definition named_link (a : string * string * N) : cyberlink :=
  let '(from, to, amount) := a in mk_cyberlink (name_id from) (name_id from) (name_id to) zero32 amount 1 0.
Definition named_signal (a : string * N * string * string) : signal :=
  let '(neuron, step, from, to) := a in
  mk_signal (name_id neuron) SELF_NETWORK [mk_cyberlink (name_id neuron) (name_id from) (name_id to) zero32 1 1 0] [] []
    zero32 step 0 None.

(** Names without a colon, numbers of 64 bits. *)
Definition link_args (a : string * string * N) : Prop :=
  let '(from, to, amount) := a in lacks colon from = true /\ lacks colon to = true /\ is_u64 amount.
Definition signal_args (a : string * N * string * string) : Prop :=
  let '(neuron, step, from, to) := a in
  lacks colon neuron = true /\ lacks colon from = true /\ lacks colon to = true /\ is_u64 step.

Lemma pretty_lacks_colon (n : N) : lacks colon (pretty n) = true.
Proof. by apply (digits_value_lacks colon 0 _ (Z.of_N n)), digits_value_pretty. Qed.

Lemma parse_link_text ls a : labels_wf ls -> link_args a ->
  exists ls', parse_link (link_text a) ls = Ok (named_link a, ls') /\ labels_wf ls' /\ grows ls ls' /\ knows ls' a.1.1 /\ knows ls' a.1.2.
Proof.
  destruct a as [[from to] amount]. intros Hls (Hf & Ht & Ha). unfold parse_link, link_text.
  rewrite !split_on_app, split_on_lacks by (done || apply pretty_lacks_colon). rewrite parse_u64_pretty by done.
  cbn [map_err mbind result_bind]. destruct (id_spec ls from Hls) as (l1 & -> & Hl1 & Hk1 & Hg1).
  destruct (id_spec l1 to Hl1) as (l2 & -> & Hl2 & Hk2 & Hg2). exists l2.
  split; [done|]. split; [done|]. split; [by transitivity l1|]. split; [by eapply knows_grows|done].
Qed.

Lemma parse_signal_text ls a : labels_wf ls -> signal_args a ->
  exists ls', parse_signal (signal_text a) ls = Ok (named_signal a, ls') /\ labels_wf ls' /\ grows ls ls' /\ knows ls' a.1.1.1.
Proof.
  destruct a as [[[neuron step] from] to]. intros Hls (Hn & Hf & Ht & Hs). unfold parse_signal, signal_text.
  rewrite !split_on_app, split_on_lacks by (done || apply pretty_lacks_colon).
  destruct (id_spec ls neuron Hls) as (l1 & -> & Hl1 & Hk1 & Hg1). rewrite parse_u64_pretty by done.
  cbn [map_err mbind result_bind]. destruct (id_spec l1 from Hl1) as (l2 & -> & Hl2 & Hk2 & Hg2).
  destruct (id_spec l2 to Hl2) as (l3 & -> & Hl3 & Hk3 & Hg3). exists l3.
  split; [done|]. split; [done|]. split; [transitivity l1; [done|by transitivity l2]|].
  eapply knows_grows; [exact Hk1|]. by transitivity l2.
Qed.

(** Reading a list of printed arguments. *)
Lemma parse_all_texts {A B} (parse : string -> labels -> result cli_error (B * labels)) (text : A -> string) (named : A -> B)
    (names : A -> list string) (l : list A) ls :
  (forall ls a, labels_wf ls -> a ∈ l -> exists ls', parse (text a) ls = Ok (named a, ls') /\ labels_wf ls' /\ grows ls ls' /\
     Forall (knows ls') (names a)) ->
  labels_wf ls ->
  exists ls', parse_all parse (map text l) ls = Ok (map named l, ls') /\ labels_wf ls' /\ grows ls ls' /\
    forall a, a ∈ l -> Forall (knows ls') (names a).
Proof.
  intros Hp. unfold parse_all. change (map named l) with ([] ++ map named l). generalize (@nil B) as acc. revert ls.
  induction l as [|a l IH]; intros ls acc Hls; cbn [map try_fold].
  { exists ls. rewrite app_nil_r. split; [done|]. split; [done|]. split; [done|]. intros a Ha. by apply elem_of_nil in Ha. }
  destruct (Hp ls a Hls) as (l1 & Ha & Hl1 & Hg1 & Hk1); [constructor|]. unfold parse_one at 2. cbn [snd]. rewrite Ha.
  cbn [mbind result_bind fst]. destruct (IH ltac:(intros; apply Hp; [done|by constructor]) l1 (acc ++ [named a]) Hl1)
    as (l2 & -> & Hl2 & Hg2 & Hk2). exists l2. rewrite <-app_assoc. split; [done|]. split; [done|]. split; [by transitivity l1|].
  intros x [->|Hx]%elem_of_cons; [|by apply Hk2]. eapply Forall_impl; [exact Hk1|]. intros t Ht. by eapply knows_grows.
Qed.

Lemma parse_signals_read l : Forall signal_args l ->
  exists ls, parse_all parse_signal (map signal_text l) Labels.empty = Ok (map named_signal l, ls) /\
    ((exists x y, collides x y) \/
     forall a, a ∈ l -> who ls (named_signal a) = (a.1.1.1 ++ ":" ++ pretty a.1.1.2)%string).
Proof.
  intros Hl. rewrite Forall_forall in Hl.
  destruct (parse_all_texts parse_signal signal_text named_signal (fun a => [a.1.1.1]) l Labels.empty) as (ls & E & Hw & _ & Hk).
  { intros ls a Hls Ha. destruct (parse_signal_text ls a Hls (Hl a Ha)) as (ls' & ? & ? & ? & ?). exists ls'. by rewrite !Forall_cons, Forall_nil. }
  { apply empty_wf. }
  exists ls. split; [done|]. destruct (decide (Forall (fun a => Labels.label ls (name_id a.1.1.1) = a.1.1.1) l)) as [Ha|Hn].
  - right. intros a Hin. rewrite Forall_forall in Ha. specialize (Ha a Hin). destruct a as [[[neuron step] from] to].
    unfold who. cbn [named_signal sg_neuron sg_step fst snd] in *. by rewrite Ha.
  - left. apply not_Forall_Exists, Exists_exists in Hn as (a & Hin & Hne); [|apply _].
    specialize (Hk a Hin). apply Forall_cons in Hk as [Hk _]. destruct (label_known ls _ Hw Hk); [done|]. by destruct Hne.
Qed.

Lemma parse_links_read l ls : Forall link_args l -> labels_wf ls ->
  exists ls', parse_all parse_link (map link_text l) ls = Ok (map named_link l, ls') /\ labels_wf ls' /\ grows ls ls' /\
    forall a, a ∈ l -> knows ls' a.1.1 /\ knows ls' a.1.2.
Proof.
  intros Hl Hls. rewrite Forall_forall in Hl.
  destruct (parse_all_texts parse_link link_text named_link (fun a => [a.1.1; a.1.2]) l ls) as (ls' & E & Hw & Hg & Hk); [|done|].
  { intros l0 a Hl0 Ha. destruct (parse_link_text l0 a Hl0 (Hl a Ha)) as (l1 & ? & ? & ? & ? & ?). exists l1. by rewrite !Forall_cons, Forall_nil. }
  exists ls'. split; [done|]. split; [done|]. split; [done|]. intros a Ha. specialize (Hk a Ha). by apply Forall_cons in Hk as [? [? _]%Forall_cons].
Qed.
End arguments.


(** ** Properties *)

Section properties.
Context {HM : Hemera} {NB : Nebu} {FX : Fixed} {TR : Tru} {ZH : Zheng}.

(** Decimals are read exactly: a text of an optional minus, the digits of
    [i], a point and [n] digits of value [f] is the fixed-point quotient of
    [±(i * 10^n + f)] by [10^n], and a text without a point the integer; with
    more than 18 fractional digits, or an integer part outside [i64], it is
    refused by an error, and when only the numerator overflows the parser
    panics. *)
Lemma decimals_read (neg : bool) (int frac : string) (i f : Z) :
  digits_value 0 int = Some i -> digits_value 0 frac = Some f -> (N.of_nat (String.length frac) <= u32_max)%N ->
  parse_fx (decimal_text neg int frac) = decimal_outcome neg i f (String.length frac) /\
  (int <> EmptyString ->
   parse_fx (sign_text neg ++ int) =
     if int_fits neg i then Ok (fx_from_int (signed neg i)) else Err (Failed (BadInteger (int_overflow neg)))).
Proof. intros Hi Hf Hl. split; [by apply parse_fx_fraction|intros Hne; by apply parse_fx_integer]. Qed.

(** Arguments mean what they say: a list of links and signals written with
    names without a colon and decimal numbers parses to exactly those links
    and signals, a name standing for its hash, and the labels print every
    neuron back under its own name, unless two names collide under the hash. *)
Lemma arguments_named (links : list (string * string * N)) (signals : list (string * N * string * string)) :
  Forall link_args links -> Forall signal_args signals ->
  (exists ls, parse_all parse_link (map link_text links) Labels.empty = Ok (map named_link links, ls) /\
     forall a, a ∈ links -> (exists x y, collides x y) \/
       Labels.label ls (name_id a.1.1) = a.1.1 /\ Labels.label ls (name_id a.1.2) = a.1.2) /\
  (exists ls, parse_all parse_signal (map signal_text signals) Labels.empty = Ok (map named_signal signals, ls) /\
     ((exists x y, collides x y) \/
      forall a, a ∈ signals -> who ls (named_signal a) = (a.1.1.1 ++ ":" ++ pretty a.1.1.2)%string)).
Proof.
  intros Hl Hs. split; [|by apply parse_signals_read].
  destruct (parse_links_read links Labels.empty Hl empty_wf) as (ls & E & Hw & _ & Hk). exists ls. split; [done|].
  intros a Ha. destruct (Hk a Ha) as [H1 H2].
  destruct (label_known ls _ Hw H1); [by left|]. destruct (label_known ls _ Hw H2); [by left|]. by right.
Qed.
End properties.

(** ** Witnesses *)

Lemma decimals_read_witness :
  parse_fx "-3.25" = Ok (fx_div (fx_from_int (-325)) (fx_from_int 100)) /\ parse_fx "7" = Ok (fx_from_int 7).
Proof.
  split.
  - destruct (decimals_read true "3" "25" 3 25) as [H _]; [by vm_compute..|exact H].
  - destruct (decimals_read false "7" "" 7 0) as [_ H]; [by vm_compute..|exact (H ltac:(done))].
Defined.

Lemma arguments_named_witness :
  exists ls, parse_all parse_signal ["alice:0:x:y"%string; "bob:7:x:z"%string] Labels.empty =
    Ok (map named_signal [("alice"%string, 0%N, "x"%string, "y"%string); ("bob"%string, 7%N, "x"%string, "z"%string)], ls).
Proof.
  destruct (arguments_named [("a"%string, "b"%string, 100%N)]
    [("alice"%string, 0%N, "x"%string, "y"%string); ("bob"%string, 7%N, "x"%string, "z"%string)]) as [_ (ls & E & _)].
  - repeat constructor; by vm_compute.
  - repeat constructor; by vm_compute.
  - exists ls. exact E.
Defined.

(** A sign is taken inside the fraction too, a bare minus is no number, and a
    long number overflows. *)
Lemma parse_fx_quirks :
  parse_fx "1.-5" = Ok (fx_div (fx_from_int 95) (fx_from_int 100)) /\
  parse_fx "." = Ok (fx_div (fx_from_int 0) (fx_from_int 1)) /\
  parse_fx "-" = Err (Failed (BadInteger InvalidDigit)) /\
  parse_fx "9223372036854775807.5" = Err Panicked.
Proof. repeat split; by_vm. Qed.
