(* ===== verification/CliRun.v ===== *)
(** * CliRun: what the commands guarantee (src/cli.rs)

    The chain command is a count over its arguments; the reconcile command
    reports the batch winners last, under the names it was given; a settlement
    that is printed is sound and mints the budget. *)

From stdpp Require Import pretty.
From S2P Require Import Prelude Order Bytes Externals Goldilocks Instances Chain Conflict Fork Reconcile Beacon Settlement Tickets Seals Rewards Finality Text Cli CliArgs.

(** ** The chain command *)

Section parsed.
Context {HM : Hemera} {NB : Nebu} {FX : Fixed} {TR : Tru} {ZH : Zheng}.

Lemma parse_one_eq {A} (parse : string -> labels -> result cli_error (A * labels)) st spec :
  parse_one parse st spec = ('(a, ls) ← parse spec st.2; Ok (st.1 ++ [a], ls)).
Proof. done. Qed.

Lemma parse_one_acc {A} (parse : string -> labels -> result cli_error (A * labels)) specs acc ls :
  try_fold (parse_one parse) specs (acc, ls) = ('(l, ls') ← parse_all parse specs ls; Ok (acc ++ l, ls')).
Proof.
  unfold parse_all. assert (forall pre, try_fold (parse_one parse) specs (acc ++ pre, ls) =
    ('(l, ls') ← try_fold (parse_one parse) specs (pre, ls); Ok (acc ++ l, ls'))) as H; [|by rewrite <-H, app_nil_r].
  revert ls. induction specs as [|spec specs IH]; intros ls pre; [done|]. cbn [try_fold]. rewrite !parse_one_eq. cbn [fst snd].
  destruct (parse spec ls) as [[a ls']|e]; [|done]. cbn [mbind result_bind]. by rewrite <-app_assoc, IH.
Qed.

Lemma parse_all_cons {A} (parse : string -> labels -> result cli_error (A * labels)) spec specs ls :
  parse_all parse (spec :: specs) ls =
    ('(a, ls') ← parse spec ls; '(l, ls'') ← parse_all parse specs ls'; Ok (a :: l, ls'')).
Proof.
  unfold parse_all at 1. cbn [try_fold]. rewrite parse_one_eq. cbn [fst snd].
  destruct (parse spec ls) as [[a ls']|e]; [|done]. cbn [mbind result_bind]. apply (parse_one_acc parse specs [a]).
Qed.

Lemma parse_all_forall {A} (parse : string -> labels -> result cli_error (A * labels)) (P : A -> Prop) specs ls l ls' :
  (forall spec ls a ls', parse spec ls = Ok (a, ls') -> P a) -> parse_all parse specs ls = Ok (l, ls') -> Forall P l.
Proof.
  intros Hp. revert ls l. induction specs as [|spec specs IH]; intros ls l; [by intros [= <- <-]|]. rewrite parse_all_cons.
  destruct (parse spec ls) as [[a l1]|e] eqn:Ea; [|done]. cbn [mbind result_bind].
  destruct (parse_all parse specs l1) as [[l2 ls2]|e] eqn:El; [|done]. intros [= <- <-]. constructor; eauto.
Qed.

(** A signal of the command line: one link, and no predecessor. *)
Definition plain (s : signal) : Prop :=
  sg_network s = SELF_NETWORK /\ sg_prev s = zero32 /\ sg_delta_pi s = [] /\ sg_box_moves s = [] /\
  exists from to, sg_links s = [mk_cyberlink (sg_neuron s) from to zero32 1 1 0].

Lemma parse_signal_plain spec ls s ls' : parse_signal spec ls = Ok (s, ls') -> plain s /\ is_u64 (sg_step s).
Proof.
  unfold parse_signal. destruct (split_on colon spec) as [|neuron [|step [|from [|to [|? ?]]]]]; try done.
  destruct (Labels.id ls neuron) as [n l1]. destruct (parse_u64 step) as [v|] eqn:Ev; [|done]. cbn [map_err mbind result_bind].
  destruct (Labels.id l1 from) as [f l2]. destruct (Labels.id l2 to) as [t l3]. intros [= <- <-].
  split; [|by apply (parse_u64_range step)]. repeat split. by exists f, t.
Qed.

Lemma chain_spec_fold specs st :
  try_fold chain_spec specs st =
    ('(sigs, ls) ← parse_all parse_signal specs (cs_labels st); Ok (fold_left chain_step sigs (set_labels st ls))).
Proof.
  revert st. induction specs as [|spec specs IH]; intros st; [by destruct st|]. rewrite parse_all_cons. cbn [try_fold].
  unfold chain_spec at 2. destruct (parse_signal spec (cs_labels st)) as [[s ls]|e]; [|done]. cbn [mbind result_bind].
  assert (forall st ls, set_labels (chain_step st s) ls = chain_step (set_labels st ls) s) as Hstep.
  { intros st0 l0. unfold chain_step. cbn [cs_chains set_labels]. destruct (append _ s) as [?|[]]; done. }
  rewrite IH, <-(Hstep st ls). cbn [cs_labels set_labels].
  destruct (parse_all parse_signal specs ls) as [[l ls']|e]; [|done]. cbn [mbind result_bind fold_left]. by rewrite <-!Hstep.
Qed.
End parsed.

Section chain_command.
Context {HM : Hemera} {NB : Nebu} {FX : Fixed} {TR : Tru} {ZH : Zheng}.

(** What the command says of a signal once the neurons [seen] have a first
    signal; nothing when it is appended. *)
Definition chain_verdict (seen : gset particle) (s : signal) : option chain_event :=
  if decide (sg_step s = 0%N) then
    if decide (sg_neuron s ∈ seen) then Some (Equivocated (short_hex (sg_neuron s))) else None
  else Some (Rejected (short_hex (sg_neuron s))
               (if decide (sg_step s = 1%N /\ sg_neuron s ∈ seen) then PrevMismatch else StepNotSequential)).
Definition see (seen : gset particle) (s : signal) : gset particle :=
  if decide (sg_step s = 0%N) then {[sg_neuron s]} ∪ seen else seen.
Fixpoint chain_verdicts (seen : gset particle) (l : list signal) : list chain_event :=
  match l with
  | [] => []
  | s :: l => option_list (chain_verdict seen s) ++ chain_verdicts (see seen s) l
  end.

Definition neurons_of (l : list signal) : gset particle := list_to_set (sg_neuron <$> l).
Definition first_neurons (l : list signal) : gset particle := neurons_of (filter (fun s => sg_step s = 0%N) l).
Definition is_equivocation (e : chain_event) : Prop := match e with Equivocated _ => True | Rejected _ _ => False end.
#[export] Instance is_equivocation_dec e : Decision (is_equivocation e).
Proof. destruct e; apply _. Defined.
Definition equivocations (l : list chain_event) : nat := length (filter is_equivocation l).

Lemma equivocations_app l1 l2 : equivocations (l1 ++ l2) = equivocations l1 + equivocations l2.
Proof. unfold equivocations. by rewrite filter_app, length_app. Qed.

(** A chain holds the first signal of a seen neuron and no other. *)
Definition chain_holds (seen : gset particle) (neuron : particle) (c : signal_chain) : Prop :=
  if decide (neuron ∈ seen)
  then exists s, entries c = {[0%N := s]} /\ sg_neuron s = neuron /\ plain s /\ sg_step s = 0%N /\ hash s <> zero32
  else entries c = ∅.

Lemma append_plain seen c s : plain s -> chain_holds seen (sg_neuron s) c ->
  match chain_verdict seen s with
  | None => exists c', append c s = Ok c' /\ (hash s <> zero32 -> chain_holds (see seen s) (sg_neuron s) c') /\ sg_step s = 0%N /\ sg_neuron s ∉ seen
  | Some (Equivocated n) => append c s = Err Equivocation /\ n = short_hex (sg_neuron s) /\ sg_step s = 0%N /\ sg_neuron s ∈ seen
  | Some (Rejected n e) => append c s = Err e /\ e <> Equivocation /\ n = short_hex (sg_neuron s) /\ sg_step s <> 0%N
  end.
Proof.
  intros Hpl. unfold chain_holds, chain_verdict, see, append, check_equivocation.
  destruct (decide (sg_neuron s ∈ seen)) as [Hin|Hout].
  - intros (t & -> & Hn & Ht & Ht0 & Hg). destruct Hpl as (_ & Hp & _). destruct Ht as (_ & Hpt & _).
    rewrite map_size_singleton. destruct (decide (sg_step s = 0%N)) as [->|Hs].
    + rewrite lookup_singleton_eq. cbn [mbind option_bind]. rewrite Hn, Hp, Hpt, !bool_decide_eq_true_2 by done.
      cbn [andb]. repeat split; exact Hin.
    + rewrite lookup_singleton_ne by done. cbn [mbind option_bind]. change (N.of_nat 1) with 1%N.
      destruct (decide (sg_step s = 1%N)) as [->|Hs1].
      * rewrite (decide_True (P := _ /\ _)) by done. rewrite (bool_decide_eq_true_2 (1 = 1)%N) by done. cbn [negb].
        rewrite bool_decide_eq_false_2 by done. change (1 - 1)%N with 0%N. rewrite lookup_singleton_eq. cbn [ok_or mbind result_bind].
        rewrite Hp, bool_decide_eq_false_2 by (intros E; by apply Hg). done.
      * rewrite (decide_False (P := _ /\ _)) by tauto. by rewrite bool_decide_eq_false_2.
  - intros ->. rewrite lookup_empty, map_size_empty. cbn [mbind option_bind]. change (N.of_nat 0) with 0%N.
    destruct (decide (sg_step s = 0%N)) as [Hs|Hs].
    + rewrite Hs. rewrite !bool_decide_eq_true_2 by done. cbn [negb mbind result_bind]. destruct Hpl as (? & Hp & ?).
      rewrite Hp, bool_decide_eq_true_2 by done. cbn [negb]. eexists. split; [done|]. split; [|done].
      intros Hg. rewrite decide_True by set_solver. exists s. cbn [entries]. repeat split; try done; tauto.
    + rewrite (decide_False (P := _ /\ _)) by tauto. by rewrite bool_decide_eq_false_2.
Qed.

Lemma chain_holds_ext seen seen' n c : (n ∈ seen <-> n ∈ seen') -> chain_holds seen n c -> chain_holds seen' n c.
Proof. intros H. unfold chain_holds. repeat case_decide; tauto. Qed.

Lemma append_plain_seen seen c s : plain s -> chain_holds seen (sg_neuron s) c -> hash s <> zero32 ->
  chain_holds (see seen s) (sg_neuron s) (unwrap_or c (append c s)).
Proof.
  intros Hpl Hc Hh. pose proof (append_plain seen c s Hpl Hc) as H. unfold see. destruct (chain_verdict seen s) as [[n|n e]|].
  - destruct H as (-> & _ & -> & Hin). rewrite decide_True by done. cbn [unwrap_or].
    apply (chain_holds_ext seen); [set_solver|done].
  - destruct H as (-> & _ & _ & Hs). by rewrite decide_False.
  - destruct H as (c' & -> & H & Hs & _). cbn [unwrap_or]. by apply H.
Qed.

(** The state of the loop over the signals, against the neurons seen. *)
Definition chain_inv (seen : gset particle) (done_ : list signal) (st : chain_state) : Prop :=
  (forall neuron, chain_holds seen neuron (default chain_new (cs_chains st !! neuron))) /\
  dom (cs_chains st) = neurons_of done_ /\ seen = first_neurons done_ /\ cs_ok st = size seen /\
  cs_equivocations st = equivocations (cs_events st).

Lemma neurons_snoc l s : neurons_of (l ++ [s]) = {[sg_neuron s]} ∪ neurons_of l.
Proof. unfold neurons_of. rewrite fmap_app, list_to_set_app_L. set_solver. Qed.
Lemma first_snoc l s : first_neurons (l ++ [s]) = see (first_neurons l) s.
Proof.
  unfold first_neurons, see. rewrite filter_app, filter_cons, filter_nil. case_decide; [by rewrite neurons_snoc|by rewrite app_nil_r].
Qed.

Lemma chain_step_inv seen l st s : plain s -> hash s <> zero32 -> chain_inv seen l st ->
  chain_inv (see seen s) (l ++ [s]) (chain_step st s) /\
  cs_events (chain_step st s) = cs_events st ++ option_list (chain_verdict seen s).
Proof.
  intros Hpl Hh (Hc & Hdom & Hseen & Hok & Heq). set (c := default chain_new (cs_chains st !! sg_neuron s)).
  pose proof (append_plain seen c s Hpl (Hc _)) as Ha. pose proof (append_plain_seen seen c s Hpl (Hc _) Hh) as Hs.
  assert (forall c', chain_holds (see seen s) (sg_neuron s) c' -> forall neuron,
    chain_holds (see seen s) neuron (default chain_new (<[sg_neuron s := c']> (cs_chains st) !! neuron))) as Hins.
  { intros c' Hc' neuron. destruct (decide (neuron = sg_neuron s)) as [->|Hne]; [by rewrite lookup_insert_eq|].
    rewrite lookup_insert_ne by done. apply (chain_holds_ext seen); [|done]. unfold see. case_decide; set_solver. }
  assert (forall c', dom (<[sg_neuron s := c']> (cs_chains st)) = neurons_of (l ++ [s])) as Hd.
  { intros c'. by rewrite dom_insert_L, Hdom, neurons_snoc. }
  unfold chain_step. fold c. unfold chain_inv. rewrite first_snoc, <-Hseen. unfold see in *.
  destruct (chain_verdict seen s) as [[n|n e]|] eqn:Ev.
  - destruct Ha as (E & -> & Hs0 & Hin). rewrite E in *. cbn [unwrap_or] in Hs. rewrite decide_True in Hs, Hins |- * by done.
    replace ({[sg_neuron s]} ∪ seen) with seen in * by set_solver.
    cbn [cs_chains cs_ok cs_equivocations cs_events]. split; [|done]. split; [by apply Hins|]. split; [by apply Hd|].
    split; [done|]. split; [done|]. by rewrite equivocations_app, Heq, Nat.add_1_r.
  - destruct Ha as (E & Hne & -> & Hs0). rewrite E in *. cbn [unwrap_or] in Hs. rewrite decide_False in Hs, Hins |- * by done.
    destruct e; [| |done]; cbn [cs_chains cs_ok cs_equivocations cs_events];
      (split; [|done]; split; [by apply Hins|]; split; [by apply Hd|]; split; [done|]; split; [done|];
       by rewrite equivocations_app, Heq, Nat.add_0_r).
  - destruct Ha as (c' & E & Hc' & Hs0 & Hout). rewrite E in *. cbn [unwrap_or] in Hs. rewrite decide_True in Hs, Hins |- * by done.
    cbn [cs_chains cs_ok cs_equivocations cs_events option_list]. rewrite app_nil_r.
    split; [|done]. split; [by apply Hins|]. split; [by apply Hd|]. split; [done|].
    split; [|done]. rewrite size_union by set_solver. rewrite size_singleton. lia.
Qed.

Lemma chain_fold_inv sigs : forall seen l st, Forall plain sigs -> (forall s, s ∈ sigs -> hash s <> zero32) -> chain_inv seen l st ->
  chain_inv (first_neurons (l ++ sigs)) (l ++ sigs) (fold_left chain_step sigs st) /\
  cs_events (fold_left chain_step sigs st) = cs_events st ++ chain_verdicts seen sigs.
Proof.
  induction sigs as [|s sigs IH]; intros seen l st Hpl Hh Hinv; cbn [fold_left chain_verdicts].
  { rewrite !app_nil_r. split; [|done]. destruct Hinv as (? & ? & Hs & ?). by rewrite <-Hs. }
  apply Forall_cons in Hpl as [Hp Hpl]. destruct (chain_step_inv seen l st s Hp (Hh s ltac:(constructor)) Hinv) as [Hinv' He].
  destruct (IH (see seen s) (l ++ [s]) (chain_step st s) Hpl ltac:(intros; apply Hh; by constructor) Hinv') as [H1 H2].
  rewrite <-app_assoc in H1. split; [exact H1|]. by rewrite H2, He, <-app_assoc.
Qed.

Lemma chain_command specs :
  match parse_all parse_signal specs Labels.empty with
  | Err e => cmd_chain specs = Err (Failed e)
  | Ok (sigs, _) =>
      (exists s, s ∈ sigs /\ hash s = zero32) \/
      cmd_chain specs = Ok (mk_chain_report (chain_verdicts ∅ sigs) (size (neurons_of sigs)) (size (first_neurons sigs))
                              (equivocations (chain_verdicts ∅ sigs)))
  end.
Proof.
  unfold cmd_chain. rewrite chain_spec_fold. cbn [cs_labels chain_start].
  destruct (parse_all parse_signal specs Labels.empty) as [[sigs ls]|e] eqn:E; [|done]. cbn [mbind result_bind may_fail map_err].
  destruct (decide (Forall (fun s => hash s <> zero32) sigs)) as [Hh|Hh]; [right|left].
  - rewrite Forall_forall in Hh. destruct (chain_fold_inv sigs ∅ [] (set_labels chain_start ls)) as [(_ & Hd & _ & Hok & Heq) He].
    + apply (parse_all_forall parse_signal plain specs Labels.empty _ ls); [|done]. by intros ? ? ? ? [? _]%parse_signal_plain.
    + done.
    + split; [intros neuron; unfold chain_holds; cbn [cs_chains set_labels chain_start]; by rewrite lookup_empty, decide_False by set_solver|].
      split; [apply dom_empty_L|]. done.
    + cbn [app] in *. rewrite Heq, Hok, He, <-Hd, size_dom. done.
  - apply not_Forall_Exists, Exists_exists in Hh as (s & Hin & Hz); [|apply _]. exists s. split; [done|]. by destruct (decide (hash s = zero32)).
Qed.
End chain_command.

(** ** The reconcile command *)

Section reconcile_command.
Context {HM : Hemera} {NB : Nebu} {FX : Fixed} {TR : Tru} {ZH : Zheng}.

Lemma claimants_snoc l s k :
  claimants (l ++ [s]) k = (if decide (equivocation_key s = k) then {[content_id s]} else ∅) ∪ claimants l k.
Proof. rewrite (claimants_perm _ (s :: l)) by (by rewrite Permutation_app_comm). apply claimants_cons. Qed.

(** Observing a signal resolves its key when two signals claim it by then. *)
Lemma rc_observe_step {F} `{!ForkChoice F} (fork : F) l s :
  rc_observe (observed fork l) s =
    (collect (map (resolve_key (observed fork (l ++ [s])))
       (if decide (1 < size (claimants (l ++ [s]) (equivocation_key s))) then [equivocation_key s] else [])),
     observed fork (l ++ [s])).
Proof.
  pose proof (observed_snoc fork l s) as Hs. unfold rc_observe in *. rewrite !observed_index in *. cbn [rc_index rc_fork] in *.
  pose proof (observe_reported (observe_all index_new l) s) as Hr. rewrite ids_at_all in Hr.
  rewrite claimants_snoc, (decide_True (P := equivocation_key s = equivocation_key s)) by done. rewrite <-Hr.
  destruct (observe (observe_all index_new l) s) as [keys idx]. cbn [fst snd] in *. by rewrite Hs.
Qed.

Lemma reconcile_no_panic {F} `{!ForkChoice F, !ForkLaws F} (fork : F) signals : run_reconcile fork signals <> Err Panicked.
Proof.
  unfold run_reconcile.
  assert (forall l acc, try_fold reconcile_step signals (observed fork l, acc) <> Err Panicked) as H.
  { induction signals as [|s signals IH]; intros l acc; [done|]. cbn [try_fold]. unfold reconcile_step at 2. cbn [fst snd].
    pose proof (rc_observe_step fork l s) as Hr. pose proof (proj1 (proj2 (timings_agree fork l s))) as Hnp.
    destruct (rc_observe (observed fork l) s) as [[r|[|e]] rec]; cbn [fst] in Hnp; [|done|done].
    injection Hr as _ ->. cbn [mbind result_bind]. apply IH. }
  specialize (H [] []). change (observed fork []) with (reconciler_new fork) in H.
  destruct (try_fold _ signals _) as [[? ?]|[|e]]; done.
Qed.

(** MinHash's entry for a key, once two signals of [l] claim it. *)
Definition least_entry (l : list signal) (k : particle) : list resolved :=
  if decide (1 < size (claimants l k)) then [mk_resolved k (least_of (claimants l k))] else [].
Fixpoint least_entries (pre l : list signal) : list resolved :=
  match l with
  | [] => []
  | s :: l => least_entry (pre ++ [s]) (equivocation_key s) ++ least_entries (pre ++ [s]) l
  end.

Lemma run_min_hash signals : run_reconcile min_hash signals = Ok (least_entries [] signals).
Proof.
  unfold run_reconcile.
  assert (forall l acc, try_fold reconcile_step signals (observed min_hash l, acc) =
    Ok (observed min_hash (l ++ signals), acc ++ least_entries l signals)) as H.
  { induction signals as [|s signals IH]; intros l acc; cbn [try_fold least_entries]; [by rewrite !app_nil_r|].
    unfold reconcile_step at 2. cbn [fst snd]. rewrite rc_observe_step.
    assert (collect (map (resolve_key (observed min_hash (l ++ [s])))
       (if decide (1 < size (claimants (l ++ [s]) (equivocation_key s))) then [equivocation_key s] else [])) =
       Ok (least_entry (l ++ [s]) (equivocation_key s))) as ->.
    { unfold least_entry. case_decide as Hs; [|done]. cbn [map collect]. rewrite min_hash_resolve_key; [done|].
      intros E. rewrite E, size_empty in Hs. lia. }
    cbn [mbind result_bind]. by rewrite IH, <-!app_assoc. }
  specialize (H [] []). change (observed min_hash []) with (reconciler_new min_hash) in H. by rewrite H.
Qed.

Lemma least_entries_snoc pre l s :
  least_entries pre (l ++ [s]) = least_entries pre l ++ least_entry (pre ++ l ++ [s]) (equivocation_key s).
Proof.
  revert pre. induction l as [|x l IH]; intros pre; cbn [app least_entries]; [by rewrite app_nil_r|].
  by rewrite IH, <-!app_assoc.
Qed.

(** The last entry of a key is the batch's answer for it. *)
Lemma least_entries_last l k :
  last (filter (fun r => rs_key r = k) (least_entries [] l)) = head (least_entry l k).
Proof.
  induction l as [|s l IH] using rev_ind; [done|]. rewrite least_entries_snoc, filter_app, last_app. cbn [app].
  unfold least_entry in *. rewrite (claimants_snoc l s k).
  destruct (decide (equivocation_key s = k)) as [<-|Hne].
  - rewrite claimants_snoc, (decide_True (P := equivocation_key s = equivocation_key s)) by done.
    destruct (decide (1 < size ({[content_id s]} ∪ claimants l (equivocation_key s)))) as [Hs|Hs].
    + rewrite filter_cons, decide_True by done. by rewrite filter_nil.
    + rewrite filter_nil. cbn [last]. rewrite IH. rewrite decide_False; [done|]. intros Hl. apply Hs.
      eapply Nat.lt_le_trans; [exact Hl|]. apply subseteq_size. set_solver.
  - rewrite union_empty_l_L. destruct (decide (1 < size (claimants (l ++ [s]) (equivocation_key s)))); [|by rewrite filter_nil]. rewrite filter_cons, decide_False by done. by rewrite filter_nil.
Qed.

Lemma least_of_in (X : gset particle) : X <> ∅ -> least_of X ∈ X.
Proof.
  intros Hne. unfold least_of. destruct (sorted_elements X) as [|x l] eqn:E.
  - exfalso. apply Hne. apply set_eq. intros y. rewrite <-elem_of_sorted_elements, E. set_solver.
  - rewrite <-elem_of_sorted_elements, E. constructor.
Qed.

Lemma least_entries_winner l pre r : r ∈ least_entries pre l -> rs_winner r ∈ claimants (pre ++ l) (rs_key r).
Proof.
  revert pre. induction l as [|s l IH]; intros pre; cbn [least_entries]; [by intros ?%elem_of_nil|].
  intros [Hr|Hr]%elem_of_app.
  - unfold least_entry in Hr. case_decide as Hs; [|by apply elem_of_nil in Hr]. apply list_elem_of_singleton in Hr as ->.
    cbn [rs_key rs_winner]. assert (least_of (claimants (pre ++ [s]) (equivocation_key s)) ∈ claimants (pre ++ [s]) (equivocation_key s)) as Hin.
    { apply least_of_in. intros E. rewrite E, size_empty in Hs. lia. }
    apply elem_of_claimants in Hin as (t & Ht & Hk & Hid). apply elem_of_claimants. exists t. split; [|done].
    set_solver.
  - apply IH in Hr. by rewrite <-app_assoc in Hr.
Qed.

(** A winner among the signals is printed by its name. *)
Lemma reconcile_row_named ls signals r : rs_winner r ∈ claimants signals (rs_key r) ->
  exists s, s ∈ signals /\ content_id s = rs_winner r /\ reconcile_row ls signals r = (short_hex (rs_key r), who ls s).
Proof.
  intros (t & Ht & _ & Hid)%elem_of_claimants. unfold reconcile_row.
  destruct (List.find _ signals) as [s|] eqn:E.
  - apply List.find_some in E as [Hin Hb]. apply bool_decide_eq_true in Hb. exists s. split; [by apply list_elem_of_In|done].
  - apply list_elem_of_In in Ht. pose proof (List.find_none _ _ E t Ht) as Hn. apply bool_decide_eq_false in Hn. by destruct Hn.
Qed.
End reconcile_command.

Section serialize_command.
Context {HM : Hemera} {NB : Nebu} {FX : Fixed} {TR : Tru} {ZH : Zheng}.

Lemma serialize_resolve_key l k : 1 < size (claimants l k) ->
  resolve_key (observed serialize l) k = Err (Failed ConflictUnderSerialize).
Proof.
  intros Hs. rewrite observed_index. unfold resolve_key, group. cbn [rc_index rc_fork].
  rewrite <-ids_at_all in Hs. unfold ids_at in Hs. destruct (groups (observe_all index_new l) !! k) as [m|]; cbn in Hs.
  2: { rewrite dom_empty_L, size_empty in Hs. lia. }
  rewrite size_dom in Hs. cbn [fmap option_fmap option_map ok_or may_fail map_err mbind result_bind].
  assert (length (members (mk_group k m)) = size m) as Hl by apply sorted_values_length.
  unfold resolve, serialize_fork. rewrite Hl. destruct (size m) as [|[|n]]; [lia|lia|done].
Qed.

Lemma conflicts_none l : conflicts (observe_all index_new l) = [] <-> forall k, size (claimants l k) <= 1.
Proof.
  split.
  - intros E k. destruct (decide (1 < size (claimants l k))) as [Hs|]; [|lia].
    rewrite <-ids_at_all, <-elem_of_conflicts, E in Hs. by apply elem_of_nil in Hs.
  - intros H. destruct (conflicts _) as [|k ks] eqn:E; [done|]. specialize (H k).
    assert (k ∈ conflicts (observe_all index_new l)) as Hk by (rewrite E; constructor).
    rewrite elem_of_conflicts, ids_at_all in Hk. lia.
Qed.

Lemma claimants_mono l l' k : size (claimants l k) <= size (claimants (l ++ l') k).
Proof.
  apply subseteq_size. intros x (s & Hs & Hk)%elem_of_claimants. apply elem_of_claimants. exists s. split; [set_solver|done].
Qed.

(** The single-writer strategy refuses any conflict. *)
Lemma run_serialize signals :
  run_reconcile serialize signals =
    if decide (conflicts (observe_all index_new signals) = []) then Ok []
    else Err (Failed (ReconcileFailed ConflictUnderSerialize)).
Proof.
  unfold run_reconcile. assert (forall l, (forall k, size (claimants l k) <= 1) ->
    try_fold reconcile_step signals (observed serialize l, []) =
      if decide (conflicts (observe_all index_new (l ++ signals)) = []) then Ok (observed serialize (l ++ signals), [])
      else Err (Failed (ReconcileFailed ConflictUnderSerialize))) as H.
  { induction signals as [|s signals IH]; intros l Hl; cbn [try_fold].
    { rewrite app_nil_r, decide_True; [done|]. by apply conflicts_none. }
    unfold reconcile_step at 2. cbn [fst snd]. rewrite rc_observe_step.
    destruct (decide (1 < size (claimants (l ++ [s]) (equivocation_key s)))) as [Hs|Hs].
    - cbn [map collect]. rewrite serialize_resolve_key by done. cbn [mbind result_bind]. rewrite decide_False; [done|].
      rewrite conflicts_none. intros Hn. specialize (Hn (equivocation_key s)).
      pose proof (claimants_mono (l ++ [s]) signals (equivocation_key s)) as Hm. rewrite <-app_assoc in Hm. cbn [app] in Hm. lia.
    - cbn [map collect mbind result_bind app]. rewrite IH, <-app_assoc; [done|]. intros k. rewrite claimants_snoc.
      case_decide as Hk; [|by rewrite union_empty_l_L]. subst k. rewrite claimants_snoc in Hs.
      rewrite decide_True in Hs by done. lia. }
  specialize (H []). change (observed serialize []) with (reconciler_new serialize) in H. rewrite H; [cbn [app]; destruct (decide _); done|].
  intros k. change (claimants [] k) with (∅ : gset particle). rewrite size_empty. lia.
Qed.
End serialize_command.

(** ** The conflicts and focus commands *)

Section report_commands.
Context {HM : Hemera} {NB : Nebu} {FX : Fixed} {TR : Tru} {ZH : Zheng}.

(** The signals filed under a key, in ascending order of content id. *)
Definition claiming (l : list signal) (k : particle) : list signal :=
  match group (observe_all index_new l) k with Some g => members g | None => [] end.

Lemma claiming_ids l k : NoDup (map content_id (claiming l k)) /\
  (forall s, s ∈ claiming l k -> equivocation_key s = k) /\
  (forall x, x ∈ map content_id (claiming l k) <-> x ∈ claimants l k).
Proof.
  unfold claiming, group. rewrite <-ids_at_all. unfold ids_at.
  destruct (groups (observe_all index_new l) !! k) as [m|] eqn:Em; cbn [fmap option_fmap option_map default].
  2: { split; [constructor|]. split; [by intros s ?%elem_of_nil|]. intros x. rewrite dom_empty_L. split; [by intros ?%elem_of_nil|set_solver]. }
  assert (map content_id (members (mk_group k m)) = sorted_keys m) as E.
  { unfold members, sorted_values, sorted_keys. rewrite map_map. apply map_ext_in. intros [id s] Hin%list_elem_of_In.
    apply elem_of_sorted_entries in Hin. by destruct (observe_all_wf _ l index_new_wf k m id s Em Hin) as [? _]. }
  change (members {| cg_key := k; cg_members := m |}) with (members (mk_group k m)).
  rewrite E. split; [apply sorted_keys_NoDup|]. split.
  - intros s Hs. unfold members in Hs. apply elem_of_sorted_values in Hs as [id Hid].
    by destruct (observe_all_wf _ l index_new_wf k m id s Em Hid) as [_ ?].
  - intros x. by rewrite elem_of_sorted_keys, elem_of_dom.
Qed.

Lemma conflicts_command specs :
  cmd_conflicts specs =
    match parse_all parse_signal specs Labels.empty with
    | Err e => Err (Failed e)
    | Ok (sigs, ls) => Ok (map (fun k => (short_hex k, map (who ls) (claiming sigs k))) (conflicts (observe_all index_new sigs)))
    end.
Proof.
  unfold cmd_conflicts. destruct (parse_all parse_signal specs Labels.empty) as [[sigs ls]|e]; [|done].
  cbn [may_fail map_err mbind result_bind]. set (idx := observe_all index_new sigs).
  assert (forall ks, (forall k, k ∈ ks -> k ∈ conflicts idx) ->
    collect (map (fun key => g ← ok_or Panicked (group idx key); Ok (short_hex key, map (who ls) (members g))) ks) =
    Ok (map (fun k => (short_hex k, map (who ls) (claiming sigs k))) ks) :> result (fault cli_error) _) as H; [|by apply H].
  induction ks as [|k ks IH]; intros Hks; [done|]. cbn [map collect]. rewrite IH by (intros; apply Hks; by constructor).
  unfold claiming, group. fold idx. assert (k ∈ conflicts idx) as Hk by (apply Hks; constructor).
  apply elem_of_conflicts in Hk. unfold ids_at in Hk. destruct (groups idx !! k) as [m|]; [done|].
  cbn in Hk. rewrite dom_empty_L, size_empty in Hk. lia.
Qed.

(** *** Rows by focus *)

Section row_order.
Context {FL : FxOrdLaws}.

Lemma fx_cmp_eq x y : fx_cmp x y = Eq <-> x = y.
Proof.
  unfold fx_cmp. destruct (fx_ltb x y) eqn:E1; [|destruct (fx_ltb y x) eqn:E2]; (split; [try done|intros <-]).
  - by rewrite fx_ltb_irrefl in E1.
  - by rewrite fx_ltb_irrefl in E2.
  - intros _. by apply fx_ltb_total.
  - done.
Qed.
Lemma fx_ltb_asym x y : fx_ltb x y = true -> fx_ltb y x = false.
Proof.
  intros H. destruct (fx_ltb y x) eqn:E; [|done]. pose proof (fx_ltb_trans _ _ _ H E) as Hx. by rewrite fx_ltb_irrefl in Hx.
Qed.
Lemma fx_cmp_sym x y : fx_cmp y x = CompOpp (fx_cmp x y).
Proof.
  unfold fx_cmp. destruct (fx_ltb x y) eqn:E1, (fx_ltb y x) eqn:E2; try done. by rewrite (fx_ltb_asym _ _ E1) in E2.
Qed.
Lemma fx_cmp_lt x y : fx_cmp x y = Lt <-> fx_ltb x y = true.
Proof. unfold fx_cmp. destruct (fx_ltb x y), (fx_ltb y x); done. Qed.

Lemma row_laws : @OrdLaws (string * fx) row_cmp.
Proof.
  split.
  - intros [l x] [l' x']. unfold ocmp, row_cmp. cbn [fst snd]. destruct (fx_cmp x' x) eqn:E.
    + apply fx_cmp_eq in E as ->. rewrite ocmp_eq. split; [by intros ->|by intros [= ->]].
    + split; [done|]. intros [= _ ->]. pose proof (proj2 (fx_cmp_eq x' x') eq_refl). congruence.
    + split; [done|]. intros [= _ ->]. pose proof (proj2 (fx_cmp_eq x' x') eq_refl). congruence.
  - intros [l x] [l' x']. unfold ocmp, row_cmp. cbn [fst snd]. rewrite (fx_cmp_sym x' x).
    destruct (fx_cmp x' x); cbn [CompOpp]; [apply ocmp_sym|done|done].
  - intros [l x] [l' x'] [l'' x'']. unfold ocmp, row_cmp. cbn [fst snd].
    destruct (fx_cmp x' x) eqn:E1, (fx_cmp x'' x') eqn:E2; try done.
    + apply fx_cmp_eq in E1 as ->, E2 as ->. rewrite (proj2 (fx_cmp_eq x x) eq_refl). apply ocmp_lt_trans.
    + apply fx_cmp_eq in E1 as ->. by rewrite E2.
    + apply fx_cmp_eq in E2 as ->. by rewrite E1.
    + intros _ _. apply fx_cmp_lt in E1, E2. assert (fx_cmp x'' x = Lt) as -> by (apply fx_cmp_lt; by eapply fx_ltb_trans). done.
Qed.
End row_order.

(** Every particle of the graph has one row, by decreasing focus and then by
    name. *)
Lemma focus_command {FL : FxOrdLaws} {TL : TruLaws} specs :
  match parse_all parse_link specs Labels.empty with
  | Err e => cmd_focus specs = Err (Failed e)
  | Ok (links, ls) =>
      let graph := build_graph (map staked links) context_none in
      exists rows, cmd_focus specs = Ok rows /\
        rows ≡ₚ zip (map (Labels.label ls) (graph_node_ids graph)) (compute_focus graph params_default) /\
        @SortedBy _ _ row_cmp (fun r => r) rows
  end.
Proof.
  unfold cmd_focus. destruct (parse_all parse_link specs Labels.empty) as [[links ls]|e]; [|done].
  cbn [may_fail map_err mbind result_bind]. cbn zeta. set (graph := build_graph _ _).
  assert (forall (ids : list particle) (focus : list fx), length focus = length ids ->
    collect (imap (fun i id => f ← index_or_panic (E := cli_error) focus i; Ok (Labels.label ls id, f)) ids) =
    Ok (zip (map (Labels.label ls) ids) focus)) as H.
  { induction ids as [|p ids IH]; intros [|f focus] Hl; try done. rewrite imap_cons. injection Hl as Hl.
    cbn [map zip zip_with]. specialize (IH focus Hl). change (imap ?g ids) with (imap g ids).
    transitivity (l ← Ok (zip (map (Labels.label ls) ids) focus); Ok ((Labels.label ls p, f) :: l) : result (fault cli_error) _); [|done].
    by rewrite <-IH. }
  rewrite H by apply compute_focus_length. cbn [mbind result_bind]. eexists. split; [done|]. unfold sort_rows.
  pose proof row_laws. split; [apply sort_by_perm|apply sort_by_sorted].
Qed.
End report_commands.

(** ** The finality and settle commands *)

Section settle_command.
Context {HM : Hemera} {NB : Nebu} {FX : Fixed} {TR : Tru} {ZH : Zheng} {TK : Tok}.

(** The particles are numbered by a byte: from 256 values on there are fewer
    particles than values, which the domain refuses. *)
Lemma finality_domain (focus : list fx) :
  from_focus (numbered_particles (length focus)) focus =
    if decide (length focus < 256) then Done (mk_domain (numbered_particles (length focus)) focus) else Panic.
Proof.
  unfold from_focus. assert (length (numbered_particles (length focus)) = N.to_nat (N.of_nat (length focus) mod 256)) as ->.
  { unfold numbered_particles. by rewrite length_map, length_seq. }
  destruct (decide (length focus < 256)) as [Hl|Hl].
  - rewrite bool_decide_eq_true_2; [done|]. rewrite N.mod_small by lia. lia.
  - rewrite bool_decide_eq_false_2; [done|]. pose proof (N.mod_lt (N.of_nat (length focus)) 256 ltac:(lia)). lia.
Qed.

Lemma checked_sum_ok {E} l : (sum_N l <= u64_max)%N -> checked_sum (E := E) l = Ok (sum_N l).
Proof.
  unfold checked_sum. intros Hl.
  assert (forall acc, (acc + sum_N l <= u64_max)%N ->
    try_fold (fun acc v => if (acc + v <=? u64_max)%N then Ok (acc + v)%N else Err Panicked) l acc = Ok (acc + sum_N l)%N :> result (fault E) N) as H.
  { clear Hl. induction l as [|v l IH]; intros acc Hb; cbn [try_fold sum_N foldr] in *; [by rewrite N.add_0_r|].
    fold (sum_N l) in *. assert ((acc + v <=? u64_max) = true)%N as -> by (apply N.leb_le; lia).
    cbn [mbind result_bind]. rewrite IH by lia. f_equal. lia. }
  rewrite H by lia. done.
Qed.

(** Up to 256 contributions have distinct claim ids. *)
Lemma claim_id_bytes i epoch : arr_bytes (claim_id i epoch) = byte_of_N (N.of_nat i mod 256 + 1) :: u64_le epoch ++ replicate 23 x00.
Proof.
  unfold claim_id. destruct (list_to_arr 32 _) as [a|] eqn:E; [by apply list_to_arr_Some in E|].
  assert (is_Some (list_to_arr 32 (byte_of_N (N.of_nat i mod 256 + 1) :: u64_le epoch ++ replicate 23 x00))) as [a Ha]; [|congruence].
  apply list_to_arr_is_Some. cbn [length]. by rewrite length_app, u64_le_length, length_replicate.
Qed.
Lemma claim_id_inj i j epoch : i < 256 -> j < 256 -> claim_id i epoch = claim_id j epoch -> i = j.
Proof.
  intros Hi Hj E. apply (f_equal arr_bytes) in E. rewrite !claim_id_bytes in E. injection E as E.
  apply (f_equal Byte.to_N) in E. rewrite !to_N_byte_of_N, !(N.mod_small (N.of_nat _) 256) in E by lia.
  destruct (decide (i = 255)), (decide (j = 255)); subst; try lia.
  - rewrite (N.mod_small (N.of_nat j + 1)) in E by lia. change ((N.of_nat 255 + 1) mod 256)%N with 0%N in E. lia.
  - rewrite (N.mod_small (N.of_nat i + 1)) in E by lia. change ((N.of_nat 255 + 1) mod 256)%N with 0%N in E. lia.
  - rewrite !N.mod_small in E by lia. lia.
Qed.

Lemma contrib_claims_ids epoch (cs : list (particle * particle * particle * N)) :
  map rc_id (imap (contrib_claim epoch) cs) = imap (fun i _ => claim_id i epoch) cs.
Proof.
  change (map rc_id (imap (contrib_claim epoch) cs)) with (rc_id <$> imap (contrib_claim epoch) cs). rewrite fmap_imap.
  apply imap_ext. intros i [[[n f] t] a] _. done.
Qed.
Lemma contrib_claims_distinct epoch (cs : list (particle * particle * particle * N)) :
  length cs <= 256 -> NoDup (map rc_id (imap (contrib_claim epoch) cs)).
Proof.
  intros Hl. rewrite contrib_claims_ids. apply NoDup_alt. intros i j p Hi Hj. rewrite list_lookup_imap in Hi, Hj.
  destruct (cs !! i) eqn:Ei; [|done]. destruct (cs !! j) eqn:Ej; [|done]. apply lookup_lt_Some in Ei, Ej.
  apply (claim_id_inj _ _ epoch); [lia|lia|]. apply (inj Some). exact (eq_trans Hi (eq_sym Hj)).
Qed.

Section laws.
Context {FA : FxAddLaws} {NL : NebuLaws} {FR : FxRawLaws} {TL : TruLaws} {ZL : ZhengLaws}.

Lemma settle_command base_specs contrib_specs samples epoch budget links ls contribs ls' :
  parse_all parse_link base_specs Labels.empty = Ok (links, ls) -> parse_all parse_contrib contrib_specs ls = Ok (contribs, ls') ->
  is_u64 budget ->
  match settle_epoch epoch GENESIS_PREV (map staked links) (imap (contrib_claim epoch) contribs) context_none params_default
          (N.to_nat samples) budget with
  | Ok rec =>
      cmd_settle base_specs contrib_specs samples epoch budget None =
        Ok (Settled rec (hex32 (sr_beacon rec)) (hex32 (sr_claims_root rec)) (hex32 (sr_receipt_hash rec))
              (map (share_row ls') (sr_shares rec)) budget) /\
      sound_receipt epoch budget (imap (contrib_claim epoch) contribs) rec
  | Err (Failed e) => cmd_settle base_specs contrib_specs samples epoch budget None = Err (Failed (SettleFailed e))
  | Err Panicked => False
  end.
Proof.
  intros Hb Hc Hbud. unfold cmd_settle. rewrite Hb. cbn [may_fail map_err mbind result_bind]. rewrite Hc. cbn [may_fail map_err mbind result_bind].
  pose proof (settle_epoch_spec epoch GENESIS_PREV (map staked links) (imap (contrib_claim epoch) contribs) context_none params_default
    (N.to_nat samples) budget Hbud) as Hs.
  destruct (settle_epoch _ _ _ _ _ _ _ _) as [rec|[|e]]; cbn [mbind result_bind]; [|done|done].
  pose proof Hs as (Hv & _ & _ & _ & _ & Hsum). rewrite Hv. cbn [negb].
  rewrite checked_sum_ok by (rewrite Hsum; exact Hbud). cbn [mbind result_bind]. by rewrite Hsum.
Qed.

Lemma raw_settle_command base_specs contrib_specs samples epoch budget beacon links ls contribs ls' :
  parse_all parse_link base_specs Labels.empty = Ok (links, ls) -> parse_all parse_contrib contrib_specs ls = Ok (contribs, ls') ->
  exists shares,
    cmd_settle base_specs contrib_specs samples epoch budget (Some beacon) = Ok (RawLottery shares) /\
    map fst shares = map (fun c => Labels.label (Labels.id ls' beacon).2 c.1.1.1) contribs.
Proof.
  intros Hb Hc. unfold cmd_settle. rewrite Hb. cbn [may_fail map_err mbind result_bind]. rewrite Hc. cbn [may_fail map_err mbind result_bind].
  destruct (Labels.id ls' beacon) as [beacon_id ls2]. cbn [snd].
  destruct (shapley_ok (map staked links) (map raw_contribution contribs) context_none params_default (N.to_nat samples) beacon_id)
    as (shares & -> & Hn). eexists. split; [done|]. rewrite map_map. cbn [fst].
  transitivity (map (Labels.label ls2) (map fst shares)); [by rewrite map_map|]. rewrite Hn, !map_map.
  apply map_ext. by intros [[[n f] t] a].
Qed.
End laws.
End settle_command.

(** ** Properties *)

Section properties.
Context {HM : Hemera} {NB : Nebu} {FX : Fixed} {TR : Tru} {ZH : Zheng} {TK : Tok}.

Lemma chain_verdicts_length seen l :
  length (chain_verdicts seen l) + size (fold_left see l seen) = length l + size seen.
Proof.
  revert seen. induction l as [|s l IH]; intros seen; [done|]. cbn [chain_verdicts fold_left length]. specialize (IH (see seen s)).
  rewrite length_app. enough (length (option_list (chain_verdict seen s)) + size (see seen s) = S (size seen)) by lia.
  unfold chain_verdict, see. destruct (decide (sg_step s = 0%N)); [|done]. destruct (decide (sg_neuron s ∈ seen)).
  - cbn. by replace ({[sg_neuron s]} ∪ seen) with seen by set_solver.
  - cbn [option_list length]. rewrite size_union by set_solver. by rewrite size_singleton.
Qed.
Lemma first_neurons_fold l : fold_left see l ∅ = first_neurons l.
Proof. induction l as [|s l IH] using rev_ind; [done|]. by rewrite fold_left_app, IH, first_snoc. Qed.

(** The chain command is a count over its arguments: since a signal of the
    command line names no predecessor, a neuron's chain takes its first signal
    of step 0 and nothing after it.  Every further step 0 is reported as an
    equivocation, every other step as out of sequence or, right after the
    first signal, as a wrong predecessor; the totals are the neurons, those
    with a first signal, and the equivocations, and every signal is appended
    or reported.  (Unless some signal hashes to zero.) *)
Lemma chain_report_exact (specs : list string) :
  match parse_all parse_signal specs Labels.empty with
  | Err e => cmd_chain specs = Err (Failed e)
  | Ok (sigs, _) =>
      (exists s, s ∈ sigs /\ hash s = zero32) \/
      let events := chain_verdicts ∅ sigs in
      cmd_chain specs = Ok (mk_chain_report events (size (neurons_of sigs)) (size (first_neurons sigs)) (equivocations events)) /\
      length events + size (first_neurons sigs) = length sigs
  end.
Proof.
  pose proof (chain_command specs) as H. destruct (parse_all _ _ _) as [[sigs ls]|e]; [|done].
  destruct H as [H|H]; [by left|right]. split; [exact H|].
  pose proof (chain_verdicts_length ∅ sigs) as Hl. rewrite first_neurons_fold, size_empty in Hl. lia.
Qed.

(** C27: The reconcile command never panics and reports the truth: under
    MinHash it always succeeds, every row is a key and the name of a signal
    that claims it, and the last row of a key is the batch answer, the least
    content id among all its claimants, present exactly when two signals of
    different content claim the key; the single-writer strategy succeeds, with
    no row, exactly when there is no conflict; and the conflicts command lists
    each conflicting key once, in order, with all its claimants. *)
Theorem reconcile_reports_exact {TL : TruLaws} (specs : list string) (sigs : list signal) (ls : labels) :
  parse_all parse_signal specs Labels.empty = Ok (sigs, ls) ->
  (forall strategy, cmd_reconcile strategy specs <> Err Panicked) /\
  (exists out, cmd_reconcile "minhash" specs = Ok (map (reconcile_row ls sigs) out) /\
    (forall r, r ∈ out -> exists s, s ∈ sigs /\ content_id s = rs_winner r /\ rs_winner r ∈ claimants sigs (rs_key r) /\
       reconcile_row ls sigs r = (short_hex (rs_key r), who ls s)) /\
    (forall k, last (filter (fun r => rs_key r = k) out) =
       if decide (1 < size (claimants sigs k)) then Some (mk_resolved k (least_of (claimants sigs k))) else None)) /\
  cmd_reconcile "serialize" specs =
    (if decide (conflicts (observe_all index_new sigs) = []) then Ok []
     else Err (Failed (ReconcileFailed ConflictUnderSerialize))) /\
  cmd_conflicts specs = Ok (map (fun k => (short_hex k, map (who ls) (claiming sigs k))) (conflicts (observe_all index_new sigs))) /\
  (forall k x, x ∈ map content_id (claiming sigs k) <-> x ∈ claimants sigs k).
Proof.
  intros Hp. unfold cmd_reconcile. rewrite Hp. cbn [may_fail map_err mbind result_bind]. split; [|split; [|split; [|split]]].
  - intros strategy. pose proof (reconcile_no_panic serialize sigs). pose proof (reconcile_no_panic min_hash sigs).
    pose proof (reconcile_no_panic focus_default sigs).
    destruct (String.eqb strategy "serialize"); [by destruct (run_reconcile serialize sigs) as [?|[|?]]|].
    destruct (String.eqb strategy "minhash"); [by destruct (run_reconcile min_hash sigs) as [?|[|?]]|].
    destruct (String.eqb strategy "focus"); [by destruct (run_reconcile focus_default sigs) as [?|[|?]]|done].
  - exists (least_entries [] sigs). split; [change (String.eqb "minhash" "serialize") with false; change (String.eqb "minhash" "minhash") with true; cbn iota; by rewrite run_min_hash|].
    split; [|intros k; rewrite least_entries_last; unfold least_entry; by destruct (decide _)].
    intros r Hr. apply least_entries_winner in Hr. cbn [app] in Hr.
    destruct (reconcile_row_named ls sigs r Hr) as (s & ? & ? & ?). by exists s.
  - change (String.eqb "serialize" "serialize") with true. cbn iota. rewrite run_serialize. by destruct (decide _).
  - by rewrite conflicts_command, Hp.
  - intros k x. apply claiming_ids.
Qed.

(** A settlement that is printed is sound: when its arguments parse, the
    settle command either passes on the error of the settlement or prints a
    receipt that verifies, is about the claims of the arguments and the epoch,
    with one row per share, and whose minted total is exactly the budget; the
    self-check of the receipt never fails, nothing overflows, and up to 256
    contributions make claims with distinct ids.  With a beacon label it
    always prints the share of every contributor, in order. *)
Theorem settle_reports_sound {FA : FxAddLaws} {NL : NebuLaws} {FR : FxRawLaws} {TL : TruLaws} {ZL : ZhengLaws}
    (base_specs contrib_specs : list string) (samples epoch budget : N) (links : list cyberlink)
    (contribs : list (particle * particle * particle * N)) (ls ls' : labels) :
  parse_all parse_link base_specs Labels.empty = Ok (links, ls) ->
  parse_all parse_contrib contrib_specs ls = Ok (contribs, ls') -> is_u64 budget ->
  let claims := imap (contrib_claim epoch) contribs in
  match cmd_settle base_specs contrib_specs samples epoch budget None with
  | Ok (Settled rec beacon root receipt rows mint) =>
      sound_receipt epoch budget claims rec /\ mint = budget /\ rows = map (share_row ls') (sr_shares rec) /\
      beacon = hex32 (sr_beacon rec) /\ root = hex32 (claims_root (map rc_id claims)) /\ receipt = hex32 (sr_receipt_hash rec)
  | Ok (RawLottery _) => False
  | Err (Failed (SettleFailed e)) =>
      settle_epoch epoch GENESIS_PREV (map staked links) claims context_none params_default (N.to_nat samples) budget = Err (Failed e)
  | Err _ => False
  end /\
  (length contribs <= 256 -> NoDup (map rc_id claims)) /\
  forall beacon, exists shares,
    cmd_settle base_specs contrib_specs samples epoch budget (Some beacon) = Ok (RawLottery shares) /\
    map fst shares = map (fun c => Labels.label (Labels.id ls' beacon).2 c.1.1.1) contribs.
Proof.
  intros Hb Hc Hbud claims. split; [|split; [apply contrib_claims_distinct|intros beacon; by apply (raw_settle_command _ _ _ _ _ _ links ls)]].
  pose proof (settle_command base_specs contrib_specs samples epoch budget links ls contribs ls' Hb Hc Hbud) as H. fold claims in H.
  destruct (settle_epoch _ _ _ _ _ _ _ _) as [rec|[|e]]; [|done|by rewrite H].
  destruct H as [-> Hs]. split; [done|]. split; [done|]. split; [done|]. split; [done|]. split; [|done].
  by destruct Hs as (_ & _ & _ & -> & _).
Qed.
End properties.

(** ** Witnesses *)

Definition ex_signals : list string := ["alice:0:x:y"%string; "alice:0:x:z"%string; "bob:0:x:y"%string; "alice:1:y:z"%string].
Definition ex_parsed : list signal * labels :=
  match parse_all parse_signal ex_signals Labels.empty with Ok p => p | Err _ => ([], Labels.empty) end.
Lemma ex_parsed_eq : parse_all parse_signal ex_signals Labels.empty = Ok ex_parsed.
Proof. by_vm. Qed.

Lemma reconcile_reports_witness :
  exists out, cmd_reconcile "minhash" ex_signals = Ok (map (reconcile_row ex_parsed.2 ex_parsed.1) out) /\ length out = 1.
Proof.
  destruct (reconcile_reports_exact ex_signals ex_parsed.1 ex_parsed.2) as (_ & (out & E & _ & _) & _).
  - by_vm.
  - exists out. split; [exact E|].
    assert (length <$> cmd_reconcile "minhash" ex_signals = Ok 1) as H by by_vm. rewrite E in H. cbn in H. injection H as H.
    by rewrite length_map in H.
Defined.

(** The two signals of alice conflict, and the single writer refuses them. *)
Lemma ex_reports :
  cmd_reconcile "serialize" ex_signals = Err (Failed (ReconcileFailed ConflictUnderSerialize)) /\
  match cmd_chain ex_signals with
  | Ok r => (cr_chains r, cr_ok r, cr_equivocations r, length (cr_events r)) = (2, 2, 1, 2)
  | Err _ => False
  end.
Proof. split; [by_vm|by vm_compute]. Qed.

Definition ex_base : list string := ["a:b:3"%string].
Definition ex_contrib_specs : list string := ["alice:a:b:5"%string; "bob:b:c:2"%string].
Definition ex_links : list cyberlink * labels :=
  match parse_all parse_link ex_base Labels.empty with Ok p => p | Err _ => ([], Labels.empty) end.
Definition ex_contribs_parsed : list (particle * particle * particle * N) * labels :=
  match parse_all parse_contrib ex_contrib_specs ex_links.2 with Ok p => p | Err _ => ([], Labels.empty) end.

Lemma settle_reports_witness :
  exists rec b c h rows, cmd_settle ex_base ex_contrib_specs 4 1 1000 None = Ok (Settled rec b c h rows 1000) /\
    sum_N (map sh_amount (sr_shares rec)) = 1000%N.
Proof.
  destruct (settle_reports_sound ex_base ex_contrib_specs 4 1 1000 ex_links.1 ex_contribs_parsed.1 ex_links.2 ex_contribs_parsed.2)
    as [H _]; [by_vm|by_vm|by vm_compute|]. revert H.
  assert (is_ok (cmd_settle ex_base ex_contrib_specs 4 1 1000 None) = true) as Hok by by_vm. revert Hok.
  destruct (cmd_settle _ _ _ _ _ _) as [[shares|rec b c h rows mint]|e]; [by intros _|intros _|done].
  intros ((_ & _ & _ & _ & _ & Hsum) & -> & _). by exists rec, b, c, h, rows.
Defined.

(** From 256 values on the finality command panics. *)
Lemma finality_overflow : cmd_finality (repeat "0.1"%string 256) "1" "1.5" "0" "0.1" "0.5" "2" = Err Panicked.
Proof. by_vm. Qed.
