(* ===== verification/CliNode.v ===== *)
(** * CliNode: the [node] command (src/cli.rs, [mod node]; [start] of src/node.rs)

    One run of the program is a session: the node is started on its data
    directory, one command runs, and unless it failed the registry is saved.
    A machine is the user's files and the data directories; what the network,
    the clock, the directory listing and the random generator answer is the
    session's [surroundings].  A directory is named by its path; creating,
    reading and writing files that exist succeeds. *)

From stdpp Require Import pretty.
From S2P Require Import Prelude Order Bytes Externals Goldilocks Instances Erasure Store Das VDisk Placement Node Text.

Inductive command_error :=
| NodeFailed (e : node_error) | NoSuchFile | BadCapacity (e : int_error) | BadKeyFile | BindFailed.

(** ** Arguments *)

Definition slash : Ascii.ascii := chr 47.

(** [PathBuf::from(base).join(rest)]. *)
Definition path_join (base rest : string) : string :=
  if starts_with "/" rest then rest
  else if String.eqb base EmptyString || String.eqb (String.substring (String.length base - 1) 1 base) "/"
       then (base ++ rest)%string
       else (base ++ String slash rest)%string.
Definition expand_tilde (home : option string) (path : string) : string :=
  match strip_prefix "~/" path, home with
  | Some rest, Some home => path_join home rest
  | _, _ => path
  end.

(** [Path::file_name]: the last component, unless it is a [..]. *)
Definition file_name (path : string) : option string :=
  match last (filter (fun p => p <> EmptyString /\ p <> "."%string) (split_on slash path)) with
  | Some p => if String.eqb p ".." then None else Some p
  | None => None
  end.

Definition unit_of (s : string) : string * N :=
  match strip_suffix "GB" s with
  | Some n => (n, 1000000000%N)
  | None =>
      match strip_suffix "MB" s with
      | Some n => (n, 1000000%N)
      | None =>
          match strip_suffix "KB" s with
          | Some n => (n, 1000%N)
          | None => match strip_suffix "B" s with Some n => (n, 1%N) | None => (s, 1%N) end
          end
      end
  end.
Definition parse_capacity (s : string) : result (fault command_error) N :=
  let s := to_uppercase (trim s) in
  if String.eqb s "0" || String.eqb s EmptyString then Ok 0%N
  else
    let '(num_str, mult) := unit_of s in
    num ← may_fail (map_err BadCapacity (parse_u64 (trim num_str)));
    if (num * mult <=? u64_max)%N then Ok (num * mult)%N else Err Panicked.

(** ** Sessions *)

Inductive node_command :=
| Daemon (interval : N)
| Put (file : string) (name : option string)
| Get (name : string) (output : option string)
| Rm (name : string)
| Ls
| Status
| AddPeer (node_id capacity : string)
| Sync (peer : option string)
| Gc
| Audit.
#[global] Instance node_command_eq_dec : EqDecision node_command.
Proof. solve_decision. Defined.

Record node_args := mk_args { na_dir : string; na_k : nat; na_n : nat; na_cmd : node_command }.

Record surroundings := mk_surroundings {
  env_home : option string;
  (** The key a first start draws, and whether the endpoint binds. *)
  env_fresh_key : arr 32;
  env_binds : bool;
  env_now : N;
  env_fetch : nat -> string -> string -> option (list byte);
  env_answers : string -> peer_answers;
  (** What the peers answer at each tick of the daemon. *)
  env_ticks : list (string -> peer_answers);
  env_listing : list string
}.

Abbreviation data_dir := (gmap string string * gmap string (list byte))%type.
Record machine := mk_machine { user_files : gmap string (list byte); node_dirs : gmap string data_dir }.

(** What a command prints or writes. *)
Inductive node_report :=
| Quiet
| Wrote (len : nat) (path : string)
| Printed (data : list byte)
| Names (names : list string)
| StatusOf (node_id : string) (files peers chunks k n : nat).

Section sessions.
Context {HM : Hemera} {NB : Nebu} {NT : Ntt} {JS : Json}.
(** How maps are iterated, and the text of the public key of a secret key. *)
Variable iter : gmap string Registry.file_entry -> list Registry.file_entry.
Variable endpoint_id : arr 32 -> string.

(** The key of the data directory, drawn and saved by the first start. *)
Definition load_key (files : gmap string string) (fresh : arr 32) : result command_error (arr 32 * gmap string string) :=
  match files !! "secret.key" with
  | Some bytes => key ← ok_or BadKeyFile (list_to_arr 32 (str_bytes bytes)); Ok (key, files)
  | None => Ok (fresh, <["secret.key" := String.string_of_list_byte (arr_bytes fresh)]> files)
  end.

(** [SyncNode::start]: the files it leaves, and the node. *)
Definition start (su : surroundings) (dir : data_dir) (k n : nat)
    : gmap string string * result (fault command_error) shared_state :=
  if negb (is_power_of_two n) || negb (bool_decide (1 <= k) && bool_decide (k <= n)) then (dir.1, Err Panicked)
  else
    match load_key dir.1 (env_fresh_key su) with
    | Err e => (dir.1, Err (Failed e))
    | Ok (key, files) =>
        if negb (env_binds su) then (files, Err (Failed BindFailed))
        else
          match node_start files dir.2 k n (endpoint_id key) with
          | Done s => (files, Ok s)
          | Panic => (files, Err Panicked)
          end
    end.

(** [run_daemon] until it is interrupted; the task of the background syncs
    ends if one of them panics. *)
Fixpoint ticks (s : shared_state) (l : list (string -> peer_answers)) : shared_state :=
  match l with
  | [] => s
  | answers :: l =>
      match background_sync iter s answers with
      | (s, Panic) => s
      | (s, Done _) => ticks s l
      end
  end.
Definition run_daemon (s : shared_state) (interval : N) (l : list (string -> peer_answers)) : shared_state :=
  save_registry (if (0 <? interval)%N then ticks s l else s).

Definition lift_node {A} (r : result node_error A) : result (fault command_error) A := may_fail (map_err NodeFailed r).
Definition lift_panic {A} (r : result (fault node_error) A) : result (fault command_error) A :=
  match r with Ok a => Ok a | Err Panicked => Err Panicked | Err (Failed e) => Err (Failed (NodeFailed e)) end.

(** The command itself: the user's files, the node and the outcome. *)
Definition run_command (su : surroundings) (k n : nat) (user : gmap string (list byte)) (s : shared_state) (cmd : node_command)
    : gmap string (list byte) * shared_state * result (fault command_error) node_report :=
  match cmd with
  | Daemon interval => (user, run_daemon s interval (env_ticks su), Ok Quiet)
  | Put file name =>
      match user !! file with
      | None => (user, s, Err (Failed NoSuchFile))
      | Some data =>
          let name := default (default EmptyString (file_name file)) name in
          match node_put s name data (env_now su) with
          | Done s => (user, s, Ok Quiet)
          | Panic => (user, s, Err Panicked)
          end
      end
  | Get name output =>
      let '(s, r) := node_get (env_fetch su) s name in
      match lift_panic r with
      | Err e => (user, s, Err e)
      | Ok data =>
          match output with
          | Some path => (<[path := data]> user, s, Ok (Wrote (length data) path))
          | None => (user, s, Ok (Printed data))
          end
      end
  | Rm name => let '(s, r) := delete_file s name (env_now su) in (user, s, _ ← lift_node r; Ok Quiet)
  | Ls => (user, s, Ok (Names (Registry.list_names (nd_registry s))))
  | Status =>
      let '(files, peers, chunks, _) := node_status s in
      (user, s, Ok (StatusOf (nd_device_id s) files peers chunks k n))
  | AddPeer node_id capacity =>
      match parse_capacity capacity with
      | Err e => (user, s, Err e)
      | Ok cap => (user, add_peer s node_id cap, Ok Quiet)
      end
  | Sync (Some p) =>
      let a := env_answers su p in
      let '(s, r) := sync_with iter s (pa_response a) (pa_fetch a) (pa_now a) in
      (user, s, _ ← lift_panic r; Ok Quiet)
  | Sync None =>
      match sync_all iter s (env_answers su) with
      | (s, Done _) => (user, s, Ok Quiet)
      | (s, Panic) => (user, s, Err Panicked)
      end
  | Gc => (user, (node_gc s (env_listing su)).1, Ok Quiet)
  | Audit => (user, (node_audit s (env_listing su)).1, Ok Quiet)
  end.

(** [run_async]: the last save is skipped when the command fails. *)
Definition run_session (su : surroundings) (args : node_args) (m : machine)
    : machine * result (fault command_error) node_report :=
  let path := expand_tilde (env_home su) (na_dir args) in
  let dir := default (∅, ∅) (node_dirs m !! path) in
  match start su dir (na_k args) (na_n args) with
  | (files, Err e) => (mk_machine (user_files m) (<[path := (files, dir.2)]> (node_dirs m)), Err e)
  | (_, Ok s) =>
      let '(user, s, r) := run_command su (na_k args) (na_n args) (user_files m) s (na_cmd args) in
      let s := if is_ok r then save_registry s else s in
      (mk_machine user (<[path := (nd_files s, nd_chunks s)]> (node_dirs m)), r)
  end.

(** A sequence of sessions, each with its own surroundings. *)
Fixpoint run_sessions (l : list (surroundings * node_args)) (m : machine) : machine :=
  match l with [] => m | (su, args) :: l => run_sessions l (run_session su args m).1 end.
End sessions.
