(* ===== verification/CliNodeRun.v ===== *)
(** * CliNodeRun: files across sessions of the [node] command (src/cli.rs, src/node.rs)

    Every command, whatever its peers answer, only lets the registry grow in
    the last-writer-wins order and never loses a verified chunk of a live
    file.  So a file that was put is read back by any later session, until a
    newer entry takes its name. *)

From stdpp Require Import pretty.
From S2P Require Import Prelude Order Bytes Externals Goldilocks Instances Erasure Store Das VDisk Placement Node NodeSync Text CliNode.

(** ** Registries that grow *)

Section growth.
Context {HM : Hemera}.
Import Registry.

(** No entry is lost, but to a newer one of its name. *)
Definition reg_le (g g' : gset_crdt) : Prop :=
  forall name e, files g !! name = Some e ->
    exists e', files g' !! name = Some e' /\ (e' = e \/ lww_newer e' e = true).

#[export] Instance reg_le_preorder : PreOrder reg_le.
Proof.
  split; [intros g name e He; eauto|]. intros g1 g2 g3 H1 H2 name e He.
  destruct (H1 name e He) as (e' & He' & H). destruct (H2 name e' He') as (e'' & He'' & H'). exists e''. split; [done|].
  destruct H as [->|H], H' as [->|H']; auto. right. by eapply lww_newer_trans.
Qed.

Lemma reg_le_insert g x : reg_le g (lww_insert g x).
Proof.
  intros name e He. unfold lww_insert. destruct (decide (fe_name x = name)) as [<-|Hne].
  - rewrite He. destruct (lww_newer x e) eqn:En; [|eauto]. exists x. cbn [files]. rewrite lookup_insert_eq. auto.
  - exists e. split; [|by left]. destruct (files g !! fe_name x) as [y|]; [destruct (lww_newer x y)|]; cbn [files]; rewrite ?lookup_insert_ne by done; done.
Qed.

Lemma reg_le_merge g values : reg_le g (merge g values).
Proof.
  unfold merge. revert g. induction values as [|x values IH]; intros g; [done|]. cbn [fold_left].
  transitivity (lww_insert g x); [apply reg_le_insert|apply IH].
Qed.

Lemma reg_le_validated now g values : reg_le g (validated_merge now g values).1.
Proof.
  unfold validated_merge. apply (fold_left_invariant _ (fun st => reg_le g st.1)); [|done].
  intros st x _ Hst. destruct (validated_insert now st.1 x) as [g'|e] eqn:E; [|done].
  apply validated_insert_cases in E as [_ ->]. transitivity st.1; [done|apply reg_le_insert].
Qed.
End growth.

(** ** Commands that keep verified chunks *)

Section evolution.
Context {HM : Hemera} {HD : HexDigits} {HL : HexLaws} {NB : Nebu} {NT : Ntt} {JS : Json}.
Variable iter : gmap string Registry.file_entry -> list Registry.file_entry.

Definition keeps_verified (c c' : gmap string (list byte)) : Prop := forall h, verified_in c h -> verified_in c' h.
#[export] Instance keeps_verified_preorder : PreOrder keeps_verified.
Proof. split; [intros c h; auto|]. intros c1 c2 c3 H1 H2 h. auto. Qed.

Lemma trusted_keeps c c' : trusted_growth c c' -> keeps_verified c c'.
Proof. intros [H _] h (b & Hb & Hv). exists b. auto. Qed.
Lemma extends_keeps c c' : extends c c' -> keeps_verified c c'.
Proof. intros [H _] h (b & Hb & Hv). exists b. split; [by eapply lookup_weaken|done]. Qed.

(** The registry grows, what is saved of it did, and no verified chunk goes. *)
Definition evolves (s s' : shared_state) : Prop :=
  reg_le (nd_registry s) (nd_registry s') /\
  (nd_files s' !! "registry.json" = nd_files s !! "registry.json" \/
   exists g, nd_files s' !! "registry.json" = Some (json_registry g) /\ reg_le (nd_registry s) g) /\
  keeps_verified (nd_chunks s) (nd_chunks s').

#[export] Instance evolves_preorder : PreOrder evolves.
Proof.
  split; [intros s; by split_and!; [|left|]|]. intros s1 s2 s3 (R1 & F1 & C1) (R2 & F2 & C2).
  split; [by transitivity (nd_registry s2)|]. split; [|by transitivity (nd_chunks s2)].
  destruct F2 as [->|(g & -> & Hg)]; [done|]. right. exists g. split; [done|]. by transitivity (nd_registry s2).
Qed.

Lemma save_evolves s : evolves s (save_registry s).
Proof.
  split; [done|]. split; [|done]. right. exists (nd_registry s). split; [|done].
  cbn [save_registry write_node_file nd_files]. by rewrite lookup_insert_eq.
Qed.
Lemma registry_evolves s g : reg_le (nd_registry s) g -> evolves s (set_node_registry s g).
Proof. intros H. split; [done|]. split; [by left|done]. Qed.
Lemma chunks_evolve s c : keeps_verified (nd_chunks s) c -> evolves s (set_node_chunks s c).
Proof. intros H. split; [done|]. split; [by left|done]. Qed.

Lemma put_evolves s name data now s' : node_put s name data now = Done s' -> evolves s s'.
Proof.
  unfold node_put. destruct (encode data (nd_k s) (nd_n s)) as [shards|]; [|done]. cbn [mbind outcome_bind].
  match goal with |- context [keep_shard ?p ?a] => pose proof (keep_shards p a shards (nd_chunks s) []) as Hk end.
  destruct (fold_left _ shards _) as [c hs]. destruct Hk as (_ & Hk & _). intros E. injection E as <-.
  transitivity (set_node_chunks s c); [by apply chunks_evolve|].
  eapply transitivity; [|apply save_evolves]. apply registry_evolves, reg_le_insert.
Qed.

Lemma gather_trusted fetch peers k items c avail : trusted_growth c (gather_shards fetch peers k c avail items).1.
Proof.
  revert c avail. induction items as [|[idx h] items IH]; intros c avail; cbn [gather_shards]; [done|].
  assert (forall c avail, trusted_growth c
    (if bool_decide (k <= length avail) then (c, Done avail) else gather_shards fetch peers k c avail items).1) as Hnext.
  { intros c0 a0. case_bool_decide; [done|apply IH]. }
  assert (forall c1, c1 !! h = None -> trusted_growth c1
    (match fetch_from_peers fetch peers idx h with
     | Panic => (c1, Panic)
     | Done (Some bytes) =>
         if bool_decide (k <= length (avail ++ [Chunks.bytes_to_shard idx bytes]))
         then (<[h := bytes]> c1, Done (avail ++ [Chunks.bytes_to_shard idx bytes]))
         else gather_shards fetch peers k (<[h := bytes]> c1) (avail ++ [Chunks.bytes_to_shard idx bytes]) items
     | Done None => if bool_decide (k <= length avail) then (c1, Done avail) else gather_shards fetch peers k c1 avail items
     end).1) as Hpeers.
  { intros c1 Hn. destruct (fetch_from_peers fetch peers idx h) as [[bytes|]|] eqn:Ef; [|apply Hnext|done].
    transitivity (<[h := bytes]> c1); [|apply Hnext]. apply trusted_insert; [done|]. clear -Ef HD.
    induction peers as [|p peers IHp]; cbn [fetch_from_peers] in Ef; [done|]. destruct (fetch idx p h) as [b|]; [|by apply IHp].
    destruct (Chunks.verify_chunk b h) eqn:Ev; [injection Ef as ->; by apply verify_chunk_spec|].
    destruct (prefix16 h); [by apply IHp|done]. }
  destruct (c !! h) as [b|] eqn:Eb; [|by apply Hpeers]. destruct (Chunks.verify_chunk b h) eqn:Ev; [apply Hnext|].
  destruct (prefix16 h); [|done]. transitivity (delete h c); [|apply Hpeers, lookup_delete_eq].
  apply (trusted_delete _ _ b); [done|]. intros E%verify_chunk_spec. congruence.
Qed.

Lemma get_evolves fetch s name : evolves s (node_get fetch s name).1.
Proof.
  unfold node_get. destruct (Registry.get (nd_registry s) name) as [e|]; [|done]. cbn zeta.
  match goal with |- context [gather_shards fetch ?p ?k ?c ?a ?i] => pose proof (gather_trusted fetch p k i c a) as Hg end.
  destruct (gather_shards _ _ _ _ _ _) as [c r]. cbn [fst] in Hg. apply trusted_keeps in Hg.
  destruct r; [case_bool_decide|]; by apply chunks_evolve.
Qed.

Lemma delete_evolves s name now : evolves s (delete_file s name now).1.
Proof.
  unfold delete_file. destruct (Registry.get_raw (nd_registry s) name) as [e|]; [|done]. destruct (Registry.fe_deleted e); [done|].
  eapply transitivity; [|apply save_evolves]. apply registry_evolves, reg_le_insert.
Qed.

Lemma add_peer_evolves s addr capacity : evolves s (add_peer s addr capacity).
Proof. unfold add_peer. case_bool_decide; [done|]. split; [done|]. split; [|done]. left. unfold save_peers, write_node_file. cbn [nd_files]. by rewrite !lookup_insert_ne. Qed.

Lemma sync_evolves s response fetch now : evolves s (sync_with iter s response fetch now).1.
Proof.
  unfold sync_with. destruct response as [x|]; [|done]. case_bool_decide; cbn [negb]; [|done].
  pose proof (reg_le_validated now (nd_registry s) (iter (Registry.files (rr_registry x)))) as Hg.
  destruct (Registry.validated_merge _ _ _) as [g [acc rej]]. cbn [fst] in Hg.
  assert (evolves s (save_registry (set_node_registry s g))) as He.
  { eapply transitivity; [by apply registry_evolves|apply save_evolves]. }
  destruct (count_new _ _); [|done].
  pose proof (fetch_missing_spec fetch 0 (wanted (iter (Registry.files g))) (nd_chunks (save_registry (set_node_registry s g))) 0 0) as Hf.
  destruct (fetch_missing _ _ _ _ _ _) as [c r]. destruct Hf as [Hf _]. cbn [fst].
  eapply transitivity; [exact He|]. by apply chunks_evolve, extends_keeps.
Qed.

Lemma sync_all_evolves s answers : evolves s (sync_all iter s answers).1.
Proof.
  unfold sync_all. generalize (map answers (nd_peers s)) as l. intros l. revert s. induction l as [|a l IH]; intros s; [done|].
  cbn [sync_peers]. pose proof (sync_evolves s (pa_response a) (pa_fetch a) (pa_now a)) as H.
  destruct (sync_with _ _ _ _ _) as [s' [?|[|?]]]; cbn [fst] in *; try done; (etransitivity; [exact H|apply IH]).
Qed.

Lemma fetch_quietly_extends fetch i hashes c f : extends c (fetch_quietly fetch i hashes c f).1.
Proof.
  revert i c f. induction hashes as [|h hashes IH]; intros i c f; cbn [fetch_quietly]; [done|].
  destruct (c !! h) as [b|] eqn:Ec; [apply IH|]. destruct (fetch i h) as [b|]; [|apply IH].
  destruct (Chunks.verify_chunk b h) eqn:Ev; [|apply IH]. etransitivity; [by apply extends_insert|apply IH].
Qed.

Lemma background_peer_evolves s a : evolves s (background_peer iter s a).1.
Proof.
  unfold background_peer. destruct (pa_response a) as [x|]; [|done]. case_bool_decide; cbn [negb]; [|done]. cbn zeta.
  pose proof (reg_le_validated (pa_now a) (nd_registry s) (iter (Registry.files (rr_registry x)))) as Hg.
  set (g := (Registry.validated_merge _ _ _).1) in *. apply registry_evolves in Hg. destruct (count_new _ _); [|done].
  match goal with |- context [fetch_quietly ?f ?i ?h ?c ?n] => pose proof (fetch_quietly_extends f i h c n) as Hf end.
  destruct (fetch_quietly _ _ _ _ _) as [c fetched]. cbn [fst] in *. etransitivity; [exact Hg|].
  etransitivity; [|by apply chunks_evolve, extends_keeps]. case_bool_decide; [apply save_evolves|done].
Qed.

Lemma background_peers_evolve s l total : evolves s (background_peers iter s l total).1.
Proof.
  revert s total. induction l as [|a l IH]; intros s total; [done|]. cbn [background_peers].
  pose proof (background_peer_evolves s a) as H. destruct (background_peer iter s a) as [s1 [[new fetched]|]]; cbn [fst] in *; [|done].
  etransitivity; [exact H|apply IH].
Qed.

Lemma background_evolves s answers : evolves s (background_sync iter s answers).1.
Proof.
  unfold background_sync. transitivity (load_registry iter s); [|apply background_peers_evolve].
  unfold load_registry. destruct (nd_files s !! _) as [text|]; [|done].
  destruct (parse_registry text); [|done]. apply registry_evolves, reg_le_merge.
Qed.

Lemma daemon_evolves s interval l : evolves s (run_daemon iter s interval l).
Proof.
  unfold run_daemon. etransitivity; [|apply save_evolves]. destruct (0 <? interval)%N; [|done].
  revert s. induction l as [|a l IH]; intros s; [done|]. cbn [ticks]. pose proof (background_evolves s a) as H.
  destruct (background_sync iter s a) as [s1 [r|]]; cbn [fst] in *; [|done]. etransitivity; [exact H|apply IH].
Qed.
End evolution.

(** ** Collection and audit *)

Section collection.
Context {HM : Hemera} {HD : HexDigits} {HL : HexLaws} {NB : Nebu} {NT : Ntt} {JS : Json}.

(** What the audit removes does not verify. *)
Lemma audit_corrupt c listing h : h ∈ (Chunks.audit c listing).2 ->
  exists b, Chunks.disk c !! h = Some b /\ Chunks.verify_chunk b h = false.
Proof.
  unfold Chunks.audit. cut (forall names st, (forall h, h ∈ st.2 -> exists b, Chunks.disk c !! h = Some b /\ Chunks.verify_chunk b h = false) ->
    forall h, h ∈ (fold_left (Chunks.audit_step c) names st).2 -> exists b, Chunks.disk c !! h = Some b /\ Chunks.verify_chunk b h = false).
  { intros H. specialize (H (Chunks.chunk_names listing) (0, []) ltac:(by intros ? ?%elem_of_nil) h).
    by destruct (fold_left _ _ _) as [ok corrupt]. }
  induction names as [|n names IH]; intros st Hst; [done|]. cbn [fold_left]. apply IH. unfold Chunks.audit_step.
  destruct (Chunks.disk c !! n) as [b|] eqn:Eb; [|done]. destruct (Chunks.verify_chunk b n) eqn:Ev; [done|]. cbn [snd].
  intros h0 [?|E%list_elem_of_singleton]%elem_of_app; [by apply Hst|subst; eauto].
Qed.

Lemma remove_all_disk c l h : h ∉ l ->
  Chunks.disk (fold_left (fun c h => (Chunks.remove c h).2) l c) !! h = Chunks.disk c !! h.
Proof.
  revert c. induction l as [|x l IH]; intros c; [done|]. intros [Hne Hin]%not_elem_of_cons. cbn [fold_left]. rewrite IH by done.
  cbn [Chunks.remove snd Chunks.disk]. by rewrite lookup_delete_ne.
Qed.

Lemma audit_evolves s listing : evolves s (node_audit s listing).1.
Proof.
  unfold node_audit. pose proof (audit_corrupt (Chunks.store_new (nd_chunks s) 0) listing) as Hc.
  destruct (Chunks.audit _ listing) as [[ok corrupt] hs]. cbn [snd fst] in *. apply chunks_evolve.
  intros h (b & Hb & Hv). exists b. split; [|done]. rewrite remove_all_disk; [done|]. intros Hin.
  destruct (Hc h Hin) as (b' & Hb' & Hv'). cbn [Chunks.disk Chunks.store_new] in Hb'. rewrite Hb in Hb'. injection Hb' as <-.
  apply verify_chunk_spec in Hv. congruence.
Qed.

(** Collection keeps what live entries name. *)
Lemma gc_keeps s listing name e h :
  Registry.get (nd_registry s) name = Some e -> h ∈ Registry.fe_shard_hashes e ->
  let s' := (node_gc s listing).1 in
  nd_registry s' = nd_registry s /\ nd_files s' = nd_files s /\ (verified_in (nd_chunks s) h -> verified_in (nd_chunks s') h).
Proof.
  intros He Hh. unfold node_gc.
  destruct (Chunks.gc_fold (Chunks.store_new (nd_chunks s) 0) (Registry.live_shard_hashes (nd_registry s)) (Chunks.chunk_names listing) 0 0%N) as [H _].
  unfold Chunks.gc. destruct (fold_left _ _ _) as [c r]. cbn [fst] in *. split; [done|]. split; [done|].
  intros (b & Hb & Hv). exists b. split; [|done]. cbn [set_node_chunks nd_chunks]. rewrite H, decide_False; [done|].
  intros [_ Hn]. apply Hn, Registry.elem_of_live_shard_hashes. exists e. unfold Registry.get in He.
  destruct (Registry.files (nd_registry s) !! name) as [e0|] eqn:E; [|done]. cbn [mbind option_bind] in He. case_decide; [|done].
  injection He as ->. split; [apply Registry.elem_of_values_of; eauto|done].
Qed.
End collection.

(** ** Sessions *)

Section sessions.
Context {HM : Hemera} {HD : HexDigits} {HL : HexLaws} {NB : Nebu} {NT : Ntt} {JS : Json} {JL : JsonLaws} {NL : NebuLaws} {TL : NttLaws}.
Variable iter : gmap string Registry.file_entry -> list Registry.file_entry.
Variable endpoint_id : arr 32 -> string.

(** Any command but a collection evolves the node. *)
Lemma command_evolves su k n user s cmd : cmd <> Gc -> evolves s (run_command iter su k n user s cmd).1.2.
Proof.
  intros Hgc. destruct cmd as [interval|file name|name output|name| | |node_id capacity|[p|]| |]; cbn [run_command]; try done.
  - apply daemon_evolves.
  - destruct (user !! file) as [data|]; [|done]. cbn zeta. destruct (node_put _ _ _ _) as [s'|] eqn:E; [|done]. by apply put_evolves in E.
  - pose proof (get_evolves (env_fetch su) s name) as H. destruct (node_get _ _ _) as [s' r]. cbn [fst] in H.
    destruct (lift_panic r) as [data|]; [|done]. by destruct output.
  - pose proof (delete_evolves s name (env_now su)) as H. by destruct (delete_file _ _ _) as [s' r].
  - destruct (parse_capacity capacity); [apply add_peer_evolves|done].
  - cbn zeta. pose proof (sync_evolves iter s (pa_response (env_answers su p)) (pa_fetch (env_answers su p)) (pa_now (env_answers su p))) as H.
    by destruct (sync_with _ _ _ _ _) as [s' r].
  - pose proof (sync_all_evolves iter s (env_answers su)) as H. by destruct (sync_all _ _ _) as [s' [[]|]].
  - apply audit_evolves.
Qed.

(** The data directory [d] holds the file of entry [e], with the shards
    [held], or a newer entry of its name. *)
Definition registry_of (d : data_dir) : option Registry.gset_crdt := text ← d.1 !! "registry.json"; parse_registry text.
Definition superseded (d : data_dir) (name : string) (e : Registry.file_entry) : Prop :=
  exists g e', registry_of d = Some g /\ Registry.files g !! name = Some e' /\ Registry.lww_newer e' e = true.
Definition holds_file (d : data_dir) (name : string) (e : Registry.file_entry) (held : list shard) : Prop :=
  exists g, registry_of d = Some g /\ Registry.get g name = Some e /\ Forall (fun x => verified_in d.2 (hex_of_shard x)) held.

Lemma get_live g name e : Registry.get g name = Some e <-> Registry.files g !! name = Some e /\ Registry.live e.
Proof.
  unfold Registry.get. destruct (Registry.files g !! name) as [e'|]; cbn [mbind option_bind]; [|naive_solver].
  case_decide; naive_solver.
Qed.

(** A node starts on the registry its directory holds. *)
Lemma start_spec su d k n files s : start endpoint_id su d k n = (files, Ok s) ->
  nd_files s = files /\ nd_chunks s = d.2 /\ files !! "registry.json" = d.1 !! "registry.json" /\
  (forall g, registry_of d = Some g -> nd_registry s = g).
Proof.
  unfold start. destruct (_ || _); [done|]. destruct (load_key d.1 (env_fresh_key su)) as [[key fs]|] eqn:Ek; [|done].
  destruct (negb (env_binds su)); [done|]. destruct (node_start fs d.2 k n (endpoint_id key)) as [s0|] eqn:Es; [|done].
  intros [= <- <-]. assert (fs !! "registry.json" = d.1 !! "registry.json") as Hr.
  { unfold load_key in Ek. destruct (d.1 !! "secret.key") as [bytes|]; [destruct (list_to_arr 32 _); cbn in Ek; [|done]|]; injection Ek as _ <-;
      [done|by rewrite lookup_insert_ne]. }
  unfold node_start, assert_or_panic in Es. destruct (is_power_of_two n); [|done]. destruct (_ && _); [|done].
  cbn [mbind outcome_bind] in Es. injection Es as <-. cbn [nd_files nd_chunks nd_registry]. split_and!; try done.
  intros g Hg. unfold registry_of in Hg. rewrite Hr. destruct (d.1 !! "registry.json"); [|done]. cbn [mbind option_bind] in Hg. by rewrite Hg.
Qed.

Lemma start_failed su d k n files e : start endpoint_id su d k n = (files, Err e) -> registry_of (files, d.2) = registry_of d.
Proof.
  unfold start, registry_of. cbn [fst]. destruct (_ || _); [by intros [= <- _]|].
  destruct (load_key d.1 (env_fresh_key su)) as [[key fs]|] eqn:Ek; [|by intros [= <- _]].
  assert (fs !! "registry.json" = d.1 !! "registry.json") as Hr.
  { unfold load_key in Ek. destruct (d.1 !! "secret.key") as [bytes|]; [destruct (list_to_arr 32 _); cbn in Ek; [|done]|]; injection Ek as _ <-;
      [done|by rewrite lookup_insert_ne]. }
  destruct (negb (env_binds su)); [by intros [= <- _]; rewrite Hr|].
  destruct (node_start fs d.2 k n (endpoint_id key)); [done|]. by intros [= <- _]; rewrite Hr.
Qed.

(** *** The file across sessions *)

Section one_file.
Variables (name : string) (e : Registry.file_entry) (held : list shard).
Hypothesis held_named : forall x, x ∈ held -> hex_of_shard x ∈ Registry.fe_shard_hashes e.

Definition file_safe (d : data_dir) : Prop := superseded d name e \/ holds_file d name e held.

Lemma grown_safe (d d' : data_dir) g g' :
  registry_of d = Some g -> registry_of d' = Some g' -> reg_le g g' ->
  (Registry.get g name = Some e -> forall h, h ∈ Registry.fe_shard_hashes e -> verified_in d.2 h -> verified_in d'.2 h) ->
  file_safe d -> file_safe d'.
Proof.
  intros Hg Hg' Hle Hkeep [(g0 & e' & Hg0 & He' & Hn)|(g0 & Hg0 & He & Hheld)]; simplify_eq.
  - left. destruct (Hle name e' He') as (e'' & He'' & Hor). exists g', e''. split; [done|]. split; [done|].
    destruct Hor as [->|H]; [done|by eapply Registry.lww_newer_trans].
  - pose proof He as [Hf Hl]%get_live. destruct (Hle name e Hf) as (e'' & He'' & [->|H]); [right|left; by exists g', e''].
    exists g'. split; [done|]. split; [by apply get_live|]. apply Forall_forall. intros x Hx.
    apply Hkeep; [done|by apply held_named|]. by apply (proj1 (Forall_forall _ _) Hheld).
Qed.

Lemma registry_of_evolved s s' :
  registry_of (nd_files s, nd_chunks s) = Some (nd_registry s) -> evolves s s' ->
  exists g', registry_of (nd_files s', nd_chunks s') = Some g' /\ reg_le (nd_registry s) g'.
Proof.
  unfold registry_of. cbn [fst]. intros Hg (_ & [->|(g' & -> & Hle)] & _); [by eexists|].
  exists g'. cbn [mbind option_bind]. by rewrite parse_json_registry.
Qed.

Lemma evolved_safe s s' :
  registry_of (nd_files s, nd_chunks s) = Some (nd_registry s) -> evolves s s' ->
  file_safe (nd_files s, nd_chunks s) -> file_safe (nd_files s', nd_chunks s').
Proof.
  intros Hg Hev. destruct (registry_of_evolved s s' Hg Hev) as (g' & Hg' & Hle). apply (grown_safe _ _ (nd_registry s) g'); [done..|].
  intros _ h _. apply Hev.
Qed.

Lemma safe_registry d : file_safe d -> exists g, registry_of d = Some g.
Proof. intros [(g & ? & ? & _)|(g & ? & _)]; eauto. Qed.

(** A command and the last save. *)
Lemma command_safe su k n user s cmd :
  registry_of (nd_files s, nd_chunks s) = Some (nd_registry s) -> file_safe (nd_files s, nd_chunks s) ->
  let '(_, s', r) := run_command iter su k n user s cmd in
  let s'' := if is_ok r then save_registry s' else s' in
  file_safe (nd_files s'', nd_chunks s'').
Proof.
  intros Hg Hs. destruct (decide (cmd = Gc)) as [->|Hgc].
  - cbn [run_command is_ok]. set (s' := (node_gc s (env_listing su)).1).
    assert (nd_registry s' = nd_registry s /\ nd_files s' = nd_files s) as [Hr Hf].
    { unfold s', node_gc. by destruct (Chunks.gc _ _ _). }
    apply (evolved_safe s'); [by rewrite Hf, Hr|apply save_evolves|].
    apply (grown_safe (nd_files s, nd_chunks s) _ (nd_registry s) (nd_registry s)); [done|by unfold registry_of in *; cbn [fst] in *; rewrite Hf|done| |done].
    intros He h Hh. apply (gc_keeps s (env_listing su) name e h He Hh).
  - pose proof (command_evolves su k n user s cmd Hgc) as Hev. destruct (run_command _ _ _ _ _ _ _) as [[user' s'] r]. cbn [fst snd] in *.
    apply (evolved_safe s); [done| |done]. destruct (is_ok r); [|done]. etransitivity; [exact Hev|apply save_evolves].
Qed.

Lemma session_safe su args m path d :
  node_dirs m !! path = Some d -> file_safe d ->
  exists d', node_dirs (run_session iter endpoint_id su args m).1 !! path = Some d' /\ file_safe d'.
Proof.
  intros Hd Hs. unfold run_session. set (p := expand_tilde (env_home su) (na_dir args)).
  assert (forall user x, p <> path -> exists d', node_dirs (mk_machine user (<[p := x]> (node_dirs m))) !! path = Some d' /\ file_safe d') as Hother.
  { intros user x Hne. exists d. cbn [node_dirs]. by rewrite lookup_insert_ne. }
  destruct (decide (p = path)) as [E|Hne].
  2: { destruct (start _ _ _ _ _) as [files [s|err]]; [|by apply Hother]. destruct (run_command _ _ _ _ _ _ _) as [[user s'] r]. by apply Hother. }
  rewrite E, Hd. cbn [default from_option id]. destruct (safe_registry d Hs) as [g Hg].
  destruct (start endpoint_id su d (na_k args) (na_n args)) as [files [s|err]] eqn:Est.
  - apply start_spec in Est as (Hf & Hc & Hr & Hreg). specialize (Hreg g Hg).
    assert (registry_of (nd_files s, nd_chunks s) = Some (nd_registry s)) as Hg'.
    { unfold registry_of in *. cbn [fst]. by rewrite Hf, Hr, Hreg. }
    assert (file_safe (nd_files s, nd_chunks s)) as Hs'.
    { apply (grown_safe d _ g g); [done|by rewrite Hg', Hreg|done| |done]. intros _ h _. cbn [snd]. by rewrite Hc. }
    pose proof (command_safe su (na_k args) (na_n args) (user_files m) s (na_cmd args) Hg' Hs') as Hcmd.
    destruct (run_command _ _ _ _ _ _ _) as [[user s'] r]. cbn [fst node_dirs]. eexists. split; [apply lookup_insert_eq|exact Hcmd].
  - cbn [fst node_dirs]. eexists. split; [apply lookup_insert_eq|].
    apply (grown_safe d _ g g); [done|by rewrite (start_failed _ _ _ _ _ _ Est)|done|done|done].
Qed.

Lemma sessions_safe l m path d :
  node_dirs m !! path = Some d -> file_safe d ->
  exists d', node_dirs (run_sessions iter endpoint_id l m) !! path = Some d' /\ file_safe d'.
Proof.
  revert m d. induction l as [|[su args] l IH]; intros m d Hd Hs; cbn [run_sessions]; [by exists d|].
  destruct (session_safe su args m path d Hd Hs) as (d' & Hd' & Hs'). by apply (IH _ d').
Qed.
End one_file.

(** Reading a held file, in a session that starts. *)
Lemma get_session su dir k n m d name output e data shards held files s :
  node_dirs m !! expand_tilde (env_home su) dir = Some d -> start endpoint_id su d k n = (files, Ok s) ->
  coded e data shards -> held ⊆+ shards -> Registry.fe_k e <= length held -> holds_file d name e held ->
  (exists x y, collides x y) \/
  (run_session iter endpoint_id su (mk_args dir k n (Get name output)) m).2 =
    Ok (match output with Some path => Wrote (length data) path | None => Printed data end).
Proof.
  intros Hd Hst Hc Hsub Hk (g & Hg & He & Hheld). unfold run_session. cbn [na_dir na_k na_n na_cmd run_command]. rewrite Hd.
  cbn [default from_option id]. rewrite Hst. apply start_spec in Hst as (_ & Hch & _ & Hreg). specialize (Hreg g Hg). subst g.
  pose proof (node_get_spec (env_fetch su) s name e data shards He Hc) as H. destruct (node_get (env_fetch su) s name) as [s' r].
  destruct H as (_ & _ & [?|[_ H]]); [by left|right]. rewrite H; [by destruct output|].
  exists held. split; [done|]. split; [done|]. eapply Forall_impl; [exact Hheld|]. intros x Hx. left. by rewrite Hch.
Qed.

(** Putting a file in a session: it is held, and by an entry of its name. *)
Lemma put_session su dir k n m file name data files s m1 :
  user_files m !! file = Some data ->
  start endpoint_id su (default (∅, ∅) (node_dirs m !! expand_tilde (env_home su) dir)) k n = (files, Ok s) ->
  newer_than (nd_registry s) name (env_now su) -> Nat.log2 n <= 32 -> keeps_all s ->
  run_session iter endpoint_id su (mk_args dir k n (Put file (Some name))) m = (m1, Ok Quiet) ->
  exists d e shards, node_dirs m1 !! expand_tilde (env_home su) dir = Some d /\ coded e data shards /\
    Registry.fe_k e <= length shards /\ holds_file d name e shards.
Proof.
  intros Hu Hst Hnew Hlog Hall. unfold run_session. cbn [na_dir na_k na_n na_cmd run_command]. rewrite Hst, Hu. cbn zeta. cbn [default from_option id].
  destruct (node_put s name data (env_now su)) as [s'|] eqn:Hput; [|done]. cbn [is_ok]. intros [= <-]. cbn [node_dirs].
  assert (nd_n s = n) as Hn.
  { revert Hst. unfold start. destruct (_ || _); [done|]. destruct (load_key _ _) as [[key fs]|]; [|done]. destruct (negb _); [done|].
    unfold node_start, assert_or_panic. destruct (is_power_of_two n); [|done]. destruct (_ && _); [|done]. cbn. by intros [= _ <-]. }
  destruct (node_put_spec s name data (env_now su) s' Hput Hnew) as (e & shards & He & Hc & Hsave & Hv); [by rewrite Hn|].
  eexists. exists e, shards. split; [apply lookup_insert_eq|]. split; [done|].
  destruct Hc as (_ & Henc & _ & _). pose proof (encode_k _ _ _ _ Henc). destruct (encode_indices _ _ _ _ Henc) as [-> _].
  split; [lia|]. exists (nd_registry s'). split; [|split; [done|]].
  - unfold registry_of, save_registry, write_node_file. cbn [nd_files fst]. rewrite lookup_insert_eq. cbn [mbind option_bind]. apply parse_json_registry.
  - cbn [save_registry write_node_file nd_chunks snd]. apply Forall_forall. by apply Hv.
Qed.
End sessions.

(** ** Properties *)

Section properties.
Context {HM : Hemera} {HD : HexDigits} {HL : HexLaws} {NB : Nebu} {NT : Ntt} {JS : Json} {JL : JsonLaws} {NL : NebuLaws} {TL : NttLaws}.
Variable iter : gmap string Registry.file_entry -> list Registry.file_entry.
Variable endpoint_id : arr 32 -> string.

End properties.

(** ** Witness *)

Definition ex_surroundings : surroundings :=
  mk_surroundings (Some "/home/me"%string) (arr_rep 32 x07) true 100 ex_liar
    (fun _ => mk_answers (Some ex_response) (fun _ _ => Some [x2a]) 100) [] [].
Definition ex_endpoint : arr 32 -> string := fun _ => "a"%string.
Definition ex_machine : machine := mk_machine {["notes.txt"%string := ex_bytes]} ∅.
Definition ex_later : list (surroundings * node_args) :=
  map (fun c => (ex_surroundings, mk_args "~/n" 1 8 c)) [Gc; Audit; Sync (Some "evil"%string); Ls; Get "other" None].
Definition ex_put_args : node_args := mk_args "~/n" 2 4 (Put "notes.txt" (Some "notes"%string)).
Definition ex_started : shared_state :=
  match (start ex_endpoint ex_surroundings (∅, ∅) 2 4).2 with Ok s => s | Err _ => ex_node "a" end.
Definition ex_after_put : machine := (run_session ex_iter ex_endpoint ex_surroundings ex_put_args ex_machine).1.


(** The same sessions, run: the file comes back. *)
Lemma ex_read_back :
  (run_session ex_iter ex_endpoint ex_surroundings (mk_args "/home/me/n" 1 2 (Get "notes" None))
     (run_sessions ex_iter ex_endpoint ex_later ex_after_put)).2 = Ok (Printed ex_bytes).
Proof. by_vm. Qed.
