(* ===== verification/CliSettle.v ===== *)
(** * CliSettle: the [settle-net] command (src/cli.rs, [mod settle_net])

    Topics in hexadecimal, peers by address or identifier, and the two
    subcommands over the settle radio: [listen] subscribes and waits, [demo]
    grinds a fold, publishes it, waits for folds and settles over them.  What
    arrives from the network is a list of messages at each point where the
    command waits; serde's and iroh's parsers of addresses are arguments. *)

From stdpp Require Import pretty.
From S2P Require Import Prelude Order Bytes Externals Goldilocks Instances Settlement Tickets Seals Vdf Beacon Rewards Gossip Wire Radio VDisk Text Cli CliNode.

Inductive settle_error :=
| NonAsciiHex | OddHexLength | BadHexDigit | TopicLength | BadPeer
| SettlePeersFailed (e : reward_error) | ReceiptVerifyFailed | BadSettleKey | BindSettleFailed.

(** ** Parsing *)

Definition to_hex_text (bytes : list byte) : string := hex_of_bytes bytes.

Definition from_hex (s : string) : result settle_error (list byte) :=
  if negb (is_ascii s) then Err NonAsciiHex
  else if Nat.odd (String.length s) then Err OddHexLength
  else ok_or BadHexDigit (hex_bytes s).

Definition parse_topic (s : string) : result settle_error particle :=
  bytes ← from_hex (trim s);
  ok_or TopicLength (list_to_arr 32 bytes).

Section settle_net.
Context {HM : Hemera} {NB : Nebu} {FX : Fixed} {TR : Tru} {ZH : Zheng} {TK : Tok} {IR : Iroh}.
Variable parse_addr_json : string -> option endpoint_addr.
Variable parse_endpoint_id : string -> option endpoint_id.

Definition parse_peer (s : string) : result settle_error endpoint_addr :=
  match parse_addr_json s with
  | Some addr => Ok addr
  | None => id ← ok_or BadPeer (parse_endpoint_id s); Ok (addr_new id)
  end.

(** ** The demo *)

(** The first byte, zeros after. *)
Definition h (b : byte) : particle := default zero32 (list_to_arr 32 (b :: replicate 31 x00)).

Definition demo_claims : list reward_claim := [claim_from_links (h xa1) (h x0a) [link_stake (h x02) (h x01) 8000] 1].
Definition demo_topic : particle := claims_root (map rc_id demo_claims).
Definition demo_base : list link :=
  [link_stake (h x01) (h x02) 100; link_stake (h x02) (h x03) 100; link_stake (h x03) (h x01) 100].
Definition demo_miner : particle := h x91.
Definition demo_policy : ticket_policy :=
  mk_policy 4 64 (po_start_nonce policy_default) (po_settle_target policy_default) (po_fold_target policy_default)
    demo_miner (po_precision_epsilon policy_default) (po_precision_delta policy_default).

(** The fold the demo publishes. *)
Definition demo_acc : result (fault Empty_set) cluster_acc :=
  let art := open_beacon 1 GENESIS_PREV demo_topic [] TEST_OUTER_T in
  contribs ← contributions_with_rho demo_claims;
  tickets ← grind_settlement demo_base contribs context_none params_default (ba_beacon art) demo_topic demo_miner 0 64 4 easy_target;
  Ok (self_fold (length contribs) tickets).

Record demo_report := mk_demo_report {
  dr_topic : string;
  dr_published_k : N;
  dr_sent : nat;
  dr_collected : nat;
  dr_receipt : settle_receipt;
  dr_rows : list (string * N);
  dr_local : N
}.

(** The network around a radio: who the node is, which pushes succeed, what
    arrives between subscribing and publishing, and the polls of the wait. *)
Record radio_world := mk_world {
  rw_me : endpoint_id;
  rw_push : endpoint_addr -> list byte -> bool;
  rw_before : list settle_msg;
  rw_ticks : list (list settle_msg * list settle_msg)
}.

(** [None] only if the fold of the settlement ran out of fuel. *)
Definition run_demo (w : radio_world) (want : nat) (budget : N) (st : radio_state)
    : radio_state * option (result (fault settle_error) demo_report) :=
  let st := subscribe_radio st demo_topic in
  match demo_acc with
  | Err _ => (st, Some (Err Panicked))
  | Ok acc =>
      let st := fold_left ingest (rw_before w) st in
      let '(st, sent) := publish_radio (rw_me w) (rw_push w) st (SelfAcc demo_topic demo_miner acc) in
      let '(st, leaves) := wait_self_accs st demo_topic want (rw_ticks w) in
      (st,
        o ← settle_with_peer_accs 1 GENESIS_PREV demo_base demo_claims context_none params_default budget demo_policy (leaves ++ [acc]);
        Some (match o with
              | Err Panicked => Err Panicked
              | Err (Failed e) => Err (Failed (SettlePeersFailed e))
              | Ok rec =>
                  if negb (verify_receipt rec) then Err (Failed ReceiptVerifyFailed)
                  else Ok (mk_demo_report (to_hex_text (arr_bytes demo_topic)) (ac_k acc) sent (length leaves) rec
                             (map (fun s => (to_hex_text (take 4 (arr_bytes (sh_neuron s))), sh_amount s)) (sr_shares rec))
                             (share_of rec (h x0a)))
              end))
  end.

(** ** Sessions *)

Inductive settle_command := Listen (topic : option string) | Demo (peers : list string) (want : nat) (budget : N).
Inductive settle_output := Listened (topic : option string) | DemoDone (r : demo_report).

(** [load_or_create_key] on the file's content, if there is one. *)
Definition load_or_create_key (file : option (list byte)) (fresh : arr 32) : result settle_error (arr 32) :=
  match file with
  | Some bytes => ok_or BadSettleKey (list_to_arr 32 bytes)
  | None => Ok fresh
  end.

(** [add_peer_addr] of each peer, an unreadable one ending the command. *)
Definition add_peers (peers : list string) (st : radio_state) : result settle_error radio_state :=
  try_fold (fun st p => addr ← parse_peer p; Ok (add_peer_addr st addr)) peers st.

(** [run_async] once the radio listens; [heard] is what arrives until a
    listener is interrupted. *)
Definition run_settle (w : radio_world) (heard : list settle_msg) (cmd : settle_command) (st : radio_state)
    : radio_state * option (result (fault settle_error) settle_output) :=
  match cmd with
  | Listen None => (fold_left ingest heard st, Some (Ok (Listened None)))
  | Listen (Some t) =>
      match parse_topic t with
      | Err e => (st, Some (Err (Failed e)))
      | Ok topic => (fold_left ingest heard (subscribe_radio st topic), Some (Ok (Listened (Some (to_hex_text (arr_bytes topic))))))
      end
  | Demo peers want budget =>
      match add_peers peers st with
      | Err e => (st, Some (Err (Failed e)))
      | Ok st =>
          let '(st, o) := run_demo w want budget st in
          (st, match o with Some (Ok r) => Some (Ok (DemoDone r)) | Some (Err e) => Some (Err e) | None => None end)
      end
  end.
End settle_net.

(** ** Texts read back *)

Section texts.

Lemma from_hex_of bytes : from_hex (hex_of_bytes bytes) = Ok bytes.
Proof.
  unfold from_hex. rewrite hex_is_ascii, hex_of_bytes_length, hex_bytes_of. cbn [negb ok_or].
  assert (Nat.odd (2 * length bytes) = false) as ->; [|done]. rewrite Nat.odd_mul. done.
Qed.

Lemma hex_digit_solid v : (v < 16)%N -> solid (hex_digit v) = true.
Proof.
  intros Hv. assert (v = 0 \/ v = 1 \/ v = 2 \/ v = 3 \/ v = 4 \/ v = 5 \/ v = 6 \/ v = 7 \/ v = 8 \/ v = 9 \/ v = 10 \/ v = 11 \/
    v = 12 \/ v = 13 \/ v = 14 \/ v = 15)%N by lia. destruct_or?; by subst.
Qed.
Lemma hex_solid l : all_solid (hex_of_bytes l) = true.
Proof.
  induction l as [|b l IH]; [done|]. cbn [hex_of_bytes all_solid]. rewrite IH.
  pose proof (to_N_lt b). rewrite !hex_digit_solid; [done|apply N.mod_lt; lia|].
  apply N.Div0.div_lt_upper_bound; lia.
Qed.

(** What reads as hexadecimal has two ASCII characters for each byte. *)
Lemma hex_bytes_length s bytes : hex_bytes s = Some bytes -> String.length s = 2 * length bytes.
Proof.
  remember (String.length s) as len eqn:El. revert s El bytes. induction len as [len IH] using lt_wf_ind. intros s -> bytes.
  destruct s as [|a [|b s]]; cbn [hex_bytes]; [by intros [= <-]|done|]. destruct (hex_pair_value a b); [|done]. cbn [mbind option_bind].
  destruct (hex_bytes s) as [bs|] eqn:E; [|done]. intros [= <-]. cbn [length String.length].
  rewrite (IH (String.length s) ltac:(simpl; lia) s eq_refl bs E). lia.
Qed.

(** The factors of the units, in any case. *)
Definition unit_factor (u : string) : option N :=
  if String.eqb u EmptyString || String.eqb u "B" then Some 1%N
  else if String.eqb u "KB" then Some 1000%N
  else if String.eqb u "MB" then Some 1000000%N
  else if String.eqb u "GB" then Some 1000000000%N else None.

Lemma unit_factor_cases u mult : unit_factor u = Some mult ->
  (u = EmptyString /\ mult = 1%N) \/ (u = "B"%string /\ mult = 1%N) \/ (u = "KB"%string /\ mult = 1000%N) \/
  (u = "MB"%string /\ mult = 1000000%N) \/ (u = "GB"%string /\ mult = 1000000000%N).
Proof.
  unfold unit_factor. destruct (String.eqb_spec u EmptyString), (String.eqb_spec u "B"), (String.eqb_spec u "KB"),
    (String.eqb_spec u "MB"), (String.eqb_spec u "GB"); cbn [orb]; intros [=]; subst; auto 10.
Qed.

Lemma unit_of_digits s v u mult : s <> EmptyString -> digits_value 0 s = Some v -> unit_factor u = Some mult ->
  unit_of (s ++ u) = (s, mult).
Proof.
  intros Hne Hv Hu. destruct (digits_last s v Hne Hv) as (a & d & Ha & Hd).
  assert (forall c, digit c = None -> last_char s <> Some c) as Hl by (intros c Hc E; congruence).
  assert (forall c e : Ascii.ascii, c <> e -> last_char (s ++ String c EmptyString) <> Some e) as Hx.
  { intros c e Hce. rewrite last_char_app. by intros [= ->]. }
  assert (forall c : Ascii.ascii, (s ++ String c "B")%string = ((s ++ String c EmptyString) ++ "B")%string) as Hassoc.
  { intros c. clear. induction s as [|y s IH]; [done|]. change (String y (s ++ String c "B") = String y ((s ++ String c "") ++ "B")). by rewrite IH. }
  apply unit_factor_cases in Hu as [[-> ->]|[[-> ->]|[[-> ->]|[[-> ->]|[-> ->]]]]]; unfold unit_of.
  - rewrite append_empty. by rewrite !(strip_suffix_digits s v _ (chr 66)).
  - rewrite !strip_suffix_cut by (by apply Hl). by rewrite strip_suffix_app.
  - assert (strip_suffix "GB" (s ++ "KB") = None) as -> by (change "KB"%string with (String (chr 75) "B"); rewrite Hassoc; by apply strip_suffix_cut, Hx).
    assert (strip_suffix "MB" (s ++ "KB") = None) as -> by (change "KB"%string with (String (chr 75) "B"); rewrite Hassoc; by apply strip_suffix_cut, Hx).
    by rewrite strip_suffix_app.
  - assert (strip_suffix "GB" (s ++ "MB") = None) as -> by (change "MB"%string with (String (chr 77) "B"); rewrite Hassoc; by apply strip_suffix_cut, Hx).
    by rewrite strip_suffix_app.
  - by rewrite strip_suffix_app.
Qed.

(** A decimal number and a unit in any case. *)
Lemma parse_capacity_text (n : N) (u : string) mult : unit_factor (to_uppercase u) = Some mult -> all_solid u = true ->
  parse_capacity (pretty n ++ u) =
    if (n <=? u64_max)%N then (if (n * mult <=? u64_max)%N then Ok (n * mult)%N else Err Panicked)
    else Err (Failed (BadCapacity PosOverflow)).
Proof.
  intros Hu Hs. pose proof (digits_value_pretty n) as Hd. pose proof (pretty_not_empty n) as Hne.
  pose proof (digits_value_solid _ _ _ Hd) as Hsol. unfold parse_capacity.
  rewrite trim_solid by (by rewrite all_solid_app, Hsol). rewrite to_uppercase_app, (upper_digits _ _ Hd).
  assert (String.eqb (pretty n ++ to_uppercase u) EmptyString = false) as ->.
  { apply String.eqb_neq. by destruct (pretty n). }
  destruct (String.eqb_spec (pretty n ++ to_uppercase u) "0") as [E|_]; cbn [orb].
  - assert (pretty n = "0"%string) as E0.
    { destruct (pretty n) as [|a s]; [done|]. change (String a (s ++ to_uppercase u) = String (chr 48) EmptyString) in E. injection E as -> E.
      by destruct s. }
    assert (n = 0%N) as ->; [|done]. rewrite E0 in Hd. injection Hd as Hd. lia.
  - rewrite (unit_of_digits _ (Z.of_N n) _ mult) by done. rewrite trim_solid by done.
    rewrite (parse_u64_digits _ (Z.of_N n)) by done.
    assert ((Z.of_N n <=? Z.of_N u64_max)%Z = (n <=? u64_max)%N) as ->.
    { apply eq_true_iff_eq. rewrite Z.leb_le, N.leb_le. lia. }
    destruct (n <=? u64_max)%N; [|done]. cbn [map_err may_fail mbind result_bind]. by rewrite N2Z.id.
Qed.
End texts.

(** ** The demo settles *)

Section demo.
Context {HM : Hemera} {NB : Nebu} {FX : Fixed} {TR : Tru} {ZH : Zheng} {TK : Tok} {IR : Iroh}.

(** What a wait can return: the folds of what is queued and of what arrives. *)
Definition arrivals (ticks : list (list settle_msg * list settle_msg)) : nat :=
  list_sum (map (fun t => length t.1 + length t.2) ticks).

Lemma ingest_all_length msgs st : length (rs_inbox (fold_left ingest msgs st)) <= length (rs_inbox st) + length msgs.
Proof.
  revert st. induction msgs as [|m msgs IH]; intros st; cbn [fold_left length]; [lia|]. etransitivity; [apply IH|].
  enough (length (rs_inbox (ingest st m)) <= S (length (rs_inbox st))) by lia. unfold ingest.
  destruct (negb (admits st m)); [lia|]. case_bool_decide; [lia|]. cbn [rs_inbox]. rewrite length_app. simpl. lia.
Qed.

Lemma retain_new_length seen accs : length (retain_new seen accs) <= length accs.
Proof. revert seen. induction accs as [|a accs IH]; intros seen; cbn [retain_new]; [done|].
  pose proof (IH seen). pose proof (IH ({[ac_commitment a]} ∪ seen)). case_bool_decide; cbn [length]; lia.
Qed.

Lemma omap_filter_length {A B} (f : A -> option B) l :
  length (omap f l) + length (List.filter (fun m => bool_decide (f m = None)) l) = length l.
Proof.
  induction l as [|x l IH]; [done|]. cbn [omap list_omap List.filter]. destruct (f x) as [y|]; [rewrite bool_decide_eq_false_2 by done|rewrite bool_decide_eq_true_2 by done]; cbn [length]; unfold omap in *; lia.
Qed.

Lemma wait_length topic want ticks accs st :
  length (wait_loop topic want ticks accs st).2 <= length accs + length (rs_inbox st) + arrivals ticks.
Proof.
  revert accs st. induction ticks as [|[during slept] ticks IH]; intros accs st; cbn [wait_loop]; [simpl; lia|].
  unfold collect_self_accs, collect_radio, drain_radio. cbn zeta.
  pose proof (omap_filter_length (pick_acc topic) (rs_inbox st)) as Ho.
  set (batch := omap (pick_acc topic) (rs_inbox st)) in *. set (rest := List.filter _ (rs_inbox st)) in *.
  pose proof (ingest_all_length during (set_radio_inbox st [])) as Hi. cbn [set_radio_inbox rs_inbox length] in Hi.
  set (st1 := fold_left ingest during _) in *. pose proof (retain_new_length ∅ (accs ++ batch)) as Hr. rewrite length_app in Hr.
  change (arrivals ((during, slept) :: ticks)) with (length during + length slept + arrivals ticks).
  case_bool_decide; cbn [snd]; [lia|]. etransitivity; [apply IH|].
  pose proof (ingest_all_length slept (set_radio_inbox st1 (rs_inbox st1 ++ rest))) as Hi2. cbn [set_radio_inbox rs_inbox] in Hi2.
  rewrite length_app in Hi2. lia.
Qed.

Context {FA : FxAddLaws} {NL : NebuLaws} {FR : FxRawLaws} {TL : TruLaws} {ZL : ZhengLaws}.

Lemma grind_fold_ok base claims beacon topic miner start attempts want target :
  exists acc, (contribs ← contributions_with_rho claims;
    tickets ← grind_settlement base contribs context_none params_default beacon topic miner start attempts want target;
    Ok (self_fold (length contribs) tickets)) = Ok acc.
Proof.
  destruct (contributions_ok claims) as (contribs & -> & _). cbn [mbind result_bind].
  destruct (grind_ok base contribs context_none params_default beacon topic miner start attempts want target) as (tickets & -> & _).
  cbn [mbind result_bind]. by eexists.
Qed.
Lemma demo_acc_ok : exists acc, demo_acc = Ok acc.
Proof. exact (grind_fold_ok demo_base demo_claims _ demo_topic demo_miner 0 64 4 easy_target). Qed.

(** What the demo settled over: the folds it waited for and its own. *)
Definition demo_outcome (budget : N) (acc : cluster_acc) (leaves : list cluster_acc) (r : result (fault settle_error) demo_report) : Prop :=
  match r with
  | Ok rep =>
      sound_receipt 1 budget demo_claims (dr_receipt rep) /\ dr_collected rep = length leaves /\ dr_published_k rep = ac_k acc /\
      dr_rows rep = map (fun s => (to_hex_text (take 4 (arr_bytes (sh_neuron s))), sh_amount s)) (sr_shares (dr_receipt rep)) /\
      dr_local rep = share_of (dr_receipt rep) (h x0a)
  | Err (Failed (SettlePeersFailed e)) =>
      settle_with_peer_accs 1 GENESIS_PREV demo_base demo_claims context_none params_default budget demo_policy (leaves ++ [acc]) = Some (Err (Failed e))
  | Err _ => False
  end.

Lemma demo_settle_ok budget acc leaves : is_u64 budget -> (N.of_nat (length leaves + 2) <= u64_max)%N ->
  exists o, settle_with_peer_accs 1 GENESIS_PREV demo_base demo_claims context_none params_default budget demo_policy (leaves ++ [acc]) = Some o /\
    match o with Ok rec => sound_receipt 1 budget demo_claims rec | Err e => e <> Panicked end.
Proof.
  intros Hb Hl. destruct (settle_with_peers_spec 1 GENESIS_PREV demo_base demo_claims context_none params_default budget demo_policy (leaves ++ [acc]) Hb)
    as (o & Ho & Hs); [rewrite length_app; simpl; by replace (S (length leaves + 1)) with (length leaves + 2) by lia|].
  exists o. split; [done|]. destruct o; [by destruct Hs|done].
Qed.

Lemma run_demo_spec w want budget st :
  is_u64 budget -> (N.of_nat (length (rs_inbox st) + length (rw_before w) + arrivals (rw_ticks w) + 3) <= u64_max)%N ->
  exists acc leaves r, demo_acc = Ok acc /\ (run_demo w want budget st).2 = Some r /\ demo_outcome budget acc leaves r.
Proof.
  intros Hb Hl. unfold run_demo. destruct demo_acc_ok as [acc Hacc]. rewrite Hacc. cbn zeta. unfold publish_radio.
  set (st1 := ingest _ _). unfold wait_self_accs. pose proof (wait_length demo_topic want (rw_ticks w) [] st1) as Hw.
  assert (length (rs_inbox st1) <= length (rs_inbox st) + length (rw_before w) + 1) as H1.
  { unfold st1. pose proof (ingest_all_length (rw_before w ++ [SelfAcc demo_topic demo_miner acc]) (subscribe_radio st demo_topic)) as H.
    rewrite fold_left_app, length_app in H. cbn in H. cbn. lia. }
  destruct (wait_loop _ _ _ _ _) as [st2 leaves]. cbn [snd length] in Hw |- *.
  destruct (demo_settle_ok budget acc leaves Hb) as (o & Ho & Hs); [lia|]. rewrite Ho. cbn [mbind option_bind].
  exists acc, leaves. eexists. split; [done|]. split; [done|].
  destruct o as [rec|[|e]]; [|done|exact Ho]. pose proof Hs as (Hv & _). rewrite Hv. cbn [negb demo_outcome dr_receipt dr_collected dr_published_k dr_rows dr_local].
  by split_and!.
Qed.
End demo.

(** ** The demo's own fold *)

Section own_fold.
Context {HM : Hemera} {NB : Nebu} {FX : Fixed} {TR : Tru} {ZH : Zheng} {TK : Tok} {IR : Iroh}.

Lemma retain_new_nonempty l : l <> [] -> retain_new ∅ l <> [].
Proof. destruct l as [|a l]; [done|]. intros _. cbn [retain_new]. by rewrite bool_decide_eq_false_2 by set_solver. Qed.

Lemma wait_nonempty topic want ticks accs st : accs <> [] -> (wait_loop topic want ticks accs st).2 <> [].
Proof.
  revert accs st. induction ticks as [|[during slept] ticks IH]; intros accs st Hne; cbn [wait_loop]; [done|].
  unfold collect_self_accs. destruct (collect_radio _ during st) as [st1 batch].
  assert (retain_new ∅ (accs ++ batch) <> []) as Hr by (apply retain_new_nonempty; by destruct accs).
  cbn zeta. case_bool_decide; [done|by apply IH].
Qed.

(** On a quiet network the demo collects its own fold and counts it as one of
    a peer: it is in its own inbox, under the topic it subscribed to. *)
Lemma demo_counts_itself w want st acc tick ticks :
  rw_before w = [] -> rw_ticks w = tick :: ticks -> content_id (SelfAcc demo_topic demo_miner acc) ∉ rs_seen st ->
  (wait_self_accs (publish_radio (rw_me w) (rw_push w) (subscribe_radio st demo_topic) (SelfAcc demo_topic demo_miner acc)).1
     demo_topic want (rw_ticks w)).2 <> [].
Proof.
  intros _ -> Hs. unfold publish_radio. cbn [fst]. set (st1 := ingest _ _).
  assert (rs_inbox st1 = rs_inbox st ++ [SelfAcc demo_topic demo_miner acc]) as Hin.
  { unfold st1, ingest, admits. cbn [subscribe_radio rs_subs rs_seen rs_inbox]. rewrite (bool_decide_eq_true_2 (msg_topic _ ∈ _)) by set_solver.
    rewrite orb_true_r. cbn [negb]. by rewrite bool_decide_eq_false_2. }
  clearbody st1. destruct tick as [during slept]. unfold wait_self_accs. cbn [wait_loop]. unfold collect_self_accs, collect_radio, drain_radio. cbn zeta.
  rewrite Hin. assert (omap (pick_acc demo_topic) (rs_inbox st ++ [SelfAcc demo_topic demo_miner acc]) <> []) as Hb.
  { assert (pick_acc demo_topic (SelfAcc demo_topic demo_miner acc) = Some acc) as Hp by (unfold pick_acc; by rewrite decide_True).
    rewrite (omap_snoc _ _ _ acc) by exact Hp. by destruct (omap _ _). }
  cbn [app]. apply retain_new_nonempty in Hb. case_bool_decide; [exact Hb|by apply wait_nonempty].
Qed.
End own_fold.

(** ** Properties *)

Section properties.
Context {HM : Hemera} {NB : Nebu} {FX : Fixed} {TR : Tru} {ZH : Zheng} {TK : Tok} {IR : Iroh}.
Context {FA : FxAddLaws} {NL : NebuLaws} {FR : FxRawLaws} {TL : TruLaws} {ZL : ZhengLaws}.

(** Capacities and topics are read exactly: a decimal number with a unit
    (none, B, KB, MB or GB, in any case) is the product when it fits 64 bits,
    an error when the number itself does not, and a panic when only the
    product does not; the hexadecimal text of any bytes reads back as those
    bytes and that of a topic as the topic, and whatever is accepted has two
    ASCII characters for each byte, 64 for a topic. *)
Theorem texts_read_back (n : N) (u : string) (mult : N) (bytes : list byte) (topic : particle) (s : string) :
  unit_factor (to_uppercase u) = Some mult -> all_solid u = true ->
  parse_capacity (pretty n ++ u) =
    (if (n <=? u64_max)%N then (if (n * mult <=? u64_max)%N then Ok (n * mult)%N else Err Panicked)
     else Err (Failed (BadCapacity PosOverflow))) /\
  from_hex (to_hex_text bytes) = Ok bytes /\ parse_topic (to_hex_text (arr_bytes topic)) = Ok topic /\
  (forall bs, from_hex s = Ok bs -> is_ascii s = true /\ String.length s = 2 * length bs) /\
  (forall t, parse_topic s = Ok t -> String.length (trim s) = 64).
Proof.
  intros Hu Hs. assert (forall s bs, from_hex s = Ok bs -> is_ascii s = true /\ String.length s = 2 * length bs) as Hh.
  { intros s0 bs. unfold from_hex. destruct (is_ascii s0); [|done]. cbn [negb]. destruct (Nat.odd _); [done|].
    destruct (hex_bytes s0) as [bs'|] eqn:E; [|done]. cbn [ok_or]. intros [= ->]. split; [done|by apply hex_bytes_length]. }
  split; [by apply parse_capacity_text|]. split; [apply from_hex_of|]. split; [|split; [apply Hh|]].
  - unfold parse_topic, to_hex_text. rewrite trim_solid by apply hex_solid. rewrite from_hex_of. cbn [mbind result_bind].
    by rewrite list_to_arr_bytes.
  - intros t. unfold parse_topic. destruct (from_hex (trim s)) as [bs|] eqn:E; [|done]. cbn [mbind result_bind].
    destruct (list_to_arr 32 bs) as [a|] eqn:Ea; [|done]. intros _. apply Hh in E as [_ ->].
    apply list_to_arr_Some in Ea. rewrite <-Ea, arr_length. done.
Qed.

(** The settlement demo is sound against any network: whatever messages
    arrive before and during its wait and whichever pushes succeed, it ends
    with a receipt that verifies, is about the demo's claim, pays exactly the
    budget and is printed row by row, or with the error of the settlement over
    the folds it collected and its own; it never panics, never fails its
    self-check and never runs out of fuel. *)
Theorem demo_settles_soundly (w : radio_world) (want : nat) (budget : N) (st : radio_state) :
  is_u64 budget -> (N.of_nat (length (rs_inbox st) + length (rw_before w) + arrivals (rw_ticks w) + 3) <= u64_max)%N ->
  exists acc leaves r, demo_acc = Ok acc /\ (run_demo w want budget st).2 = Some r /\ demo_outcome budget acc leaves r.
Proof. apply run_demo_spec. Qed.
End properties.

(** ** Witnesses *)

Lemma texts_read_back_witness :
  parse_capacity "5gB" = Ok 5000000000%N /\ parse_capacity "18446744073709551615kb" = Err Panicked.
Proof.
  split.
  - destruct (texts_read_back 5 "gB" 1000000000 [] zero32 "") as [H _]; [by vm_compute|by vm_compute|]. exact H.
  - destruct (texts_read_back u64_max "kb" 1000 [] zero32 "") as [H _]; [by vm_compute|by vm_compute|]. exact H.
Defined.

(** A network that refuses every push and brings a fold of another miner. *)
Definition ex_world : radio_world :=
  mk_world 1%N (fun _ _ => false) [] [([], [SelfAcc demo_topic (h x92) (acc_empty 1)]); ([], [])].
Lemma demo_settles_witness :
  exists r, (run_demo ex_world 3 1000 radio_default).2 = Some r /\
    match r with
    | Ok rep => sound_receipt 1 1000 demo_claims (dr_receipt rep)
    | Err e => e <> Panicked
    end.
Proof.
  destruct (demo_settles_soundly ex_world 3 1000 radio_default) as (acc & leaves & r & _ & Hr & Ho); [by vm_compute|by vm_compute|].
  exists r. split; [exact Hr|]. destruct r as [rep|[|e]]; [by destruct Ho|by destruct Ho|done].
Defined.

(** The same demo, run: the other miner's fold and its own are counted. *)
Lemma ex_demo_run :
  match (run_demo ex_world 3 1000 radio_default).2 with
  | Some (Ok r) => (dr_published_k r, dr_sent r, dr_collected r, dr_rows r, dr_local r) = (4%N, 0, 2, [("0a000000"%string, 1000%N)], 1000%N)
  | _ => False
  end.
Proof. by vm_compute. Qed.
