(* ===== verification/Profile.v ===== *)
(** * Profile: the throughput benchmark of ticket grinding (src/bin/hardware_profile.rs)

    The arguments, the support the benchmark grinds over, the workers with
    their nonces, the reader of the power sampler and the rows of the table.
    What the clock and the scheduler decide is a [timing]: how many rounds each
    worker began before the duration was over, the seconds measured, and the
    power samples.  Arithmetic is that of a checked build. *)

From stdpp Require Import pretty.
From Stdlib Require Import Floats.SpecFloat.
From S2P Require Import Prelude Order Bytes Externals Goldilocks Instances Settlement Tickets VDisk Text.

(** ** Arguments *)

Definition comma : Ascii.ascii := chr 44.
Inductive args_error :=
| NeedsValue (flag : string) | BadSecs (e : int_error) | BadSupports (e : int_error) | BadThreads (e : int_error)
| UnknownArg (flag : string) | NothingToMeasure.

Record profile_args := mk_profile_args { pa_secs : N; pa_supports : list N; pa_threads : list N }.
Definition args_default : profile_args := mk_profile_args 5 [8; 64; 512; 4096]%N [1%N].

Definition parse_list (bad : int_error -> args_error) (value : string) : result args_error (list N) :=
  collect (map (fun s => map_err bad (parse_u64 (trim s))) (split_on comma value)).

Definition set_flag (flag value : string) (pa : profile_args) : result args_error profile_args :=
  if String.eqb flag "--secs" then
    secs ← map_err BadSecs (parse_u64 value); Ok (mk_profile_args secs (pa_supports pa) (pa_threads pa))
  else if String.eqb flag "--supports" then
    supports ← parse_list BadSupports value; Ok (mk_profile_args (pa_secs pa) supports (pa_threads pa))
  else if String.eqb flag "--threads" then
    threads ← parse_list BadThreads value; Ok (mk_profile_args (pa_secs pa) (pa_supports pa) threads)
  else Err (UnknownArg flag).

(** The loop over the arguments after the program's name. *)
Fixpoint parse_flags (args : list string) (pa : profile_args) : result args_error profile_args :=
  match args with
  | [] => Ok pa
  | [flag] => Err (NeedsValue flag)
  | flag :: value :: args => pa ← set_flag flag value pa; parse_flags args pa
  end.

Definition nothing_to_measure (pa : profile_args) : bool :=
  (pa_secs pa =? 0)%N || bool_decide (pa_supports pa = []) || bool_decide (pa_threads pa = [])
  || existsb (fun t => t =? 0)%N (pa_threads pa).

Definition parse_args (args : list string) : result args_error profile_args :=
  pa ← parse_flags args args_default;
  if nothing_to_measure pa then Err NothingToMeasure else Ok pa.

(** ** Power samples *)

Definition parse_u32 (s : string) : result int_error N := Z.to_N <$> parse_int false 0 (Z.of_N u32_max) s.

(** One line of [powermetrics]: the milliwatts it reports, if it does. *)
Definition power_line (line : string) : option N :=
  rest ← strip_prefix "CPU Power:" (trim line);
  s ← strip_suffix "mW" (trim rest);
  match parse_u32 (trim s) with Ok mw => Some mw | Err _ => None end.

(** What the reader's loop meets: the stop flag, the line unless reading it
    failed, and the instant. *)
Record power_event := mk_power_event { pe_stop : bool; pe_line : option string; pe_now : N }.
Fixpoint read_powermetrics (events : list power_event) (samples : list (N * N)) : list (N * N) :=
  match events with
  | [] => samples
  | e :: events =>
      if pe_stop e then samples
      else match pe_line e with
           | None => samples
           | Some line =>
               read_powermetrics events
                 (match power_line line with Some mw => samples ++ [(pe_now e, mw)] | None => samples end)
           end
  end.

Definition f64_add (x y : spec_float) : spec_float := SFadd 53 1024 x y.

Definition mean_watts_in_window (samples : list (N * N)) (t0 t1 : N) : option spec_float :=
  let in_window := map (fun p => f64_div (f64_of_u64 p.2) (f64_of_u64 1000))
                     (filter (fun p => (t0 <= p.1)%N /\ (p.1 <= t1)%N) samples) in
  if bool_decide (length in_window = 0) then None
  else Some (f64_div (fold_left f64_add in_window (S754_zero false)) (f64_of_u64 (N.of_nat (length in_window)))).

(** ** Workers *)

Definition checked_u64 (v : N) : result (fault Empty_set) N := if (v <=? u64_max)%N then Ok v else Err Panicked.
Definition batch : nat := 32.

Section workers.
Context {A : Type} (grind : N -> result (fault Empty_set) A).

(** One worker of [threads]: [rounds] batches from [nonce] on.  With one
    thread this is the loop of [measure]. *)
Fixpoint worker (threads : nat) (rounds : nat) (attempts nonce : N) : result (fault Empty_set) N :=
  match rounds with
  | 0 => Ok attempts
  | S rounds =>
      _ ← grind nonce;
      attempts ← checked_u64 (attempts + N.of_nat batch);
      step ← checked_u64 (N.of_nat batch * N.of_nat threads);
      nonce ← checked_u64 (nonce + step);
      worker threads rounds attempts nonce
  end.

(** A panic of any worker is a panic of the scope; the shared counter adds
    what each worker attempted, wrapping. *)
Definition run_workers (threads : nat) (rounds : nat -> nat) : result (fault Empty_set) N :=
  attempts ← collect (map (fun w =>
    start ← checked_u64 (1000 + N.of_nat w); worker threads (rounds w) 0 start) (seq 0 threads));
  Ok (fold_left (fun total a => as_u64 (total + a)) attempts 0%N).
End workers.

(** ** Measuring *)

Record timing := mk_timing {
  tm_rounds : nat -> nat;
  tm_secs : spec_float;
  tm_from : N;
  tm_to : N;
  tm_power : list (N * N)
}.

Record row := mk_row { rw_support : N; rw_threads : N; rw_samples_per_sec : spec_float; rw_watts : option spec_float }.

Definition scaling_efficiency (serial_samples_per_sec : spec_float) (parallel_row : row) : spec_float :=
  f64_div (rw_samples_per_sec parallel_row) (f64_mul serial_samples_per_sec (f64_of_u64 (rw_threads parallel_row))).

Section profile.
Context {HM : Hemera} {NB : Nebu} {FX : Fixed} {TR : Tru}.

Definition h (n : N) : particle := default zero32 (list_to_arr 32 (u64_le n ++ replicate 24 x00)).
Definition ring (size : N) : list link :=
  map (fun i => link_stake (h (N.of_nat i)) (h ((N.of_nat i + 1) mod size)) 100) (seq 0 (N.to_nat size)).
Definition contribs : list contribution := [
  mk_contribution (h 1000000) [link_stake (h 0) (h 1) 8000] fx_one;
  mk_contribution (h 1000001) [link_stake (h 1) (h 2) 6000] fx_one;
  mk_contribution (h 1000002) [link_stake (h 2) (h 3) 4000] fx_one;
  mk_contribution (h 1000003) [link_stake (h 3) (h 0) 2000] fx_one].

Definition try_nonce (base : list link) (nonce : N) : result (fault Empty_set) (option settlement_ticket) :=
  try_settlement_ticket base contribs context_none params_default (h 48879) (h 193) (h 1) nonce easy_target.
Definition grind_batch (base : list link) (attempts : nat) (nonce : N) : result (fault Empty_set) (list settlement_ticket) :=
  grind_settlement base contribs context_none params_default (h 48879) (h 193) (h 1) nonce attempts attempts easy_target.

Definition watts (power : bool) (tm : timing) : option spec_float :=
  if power then mean_watts_in_window (tm_power tm) (tm_from tm) (tm_to tm) else None.

Definition measure (support : N) (tm : timing) (power : bool) : result (fault Empty_set) row :=
  let base := ring support in
  _ ← grind_batch base 8 0;
  attempts ← worker (grind_batch base batch) 1 (tm_rounds tm 0) 0 1000;
  Ok (mk_row support 1 (f64_div (f64_of_u64 attempts) (tm_secs tm)) (watts power tm)).

Definition measure_parallel (support threads : N) (tm : timing) (power : bool) : result (fault Empty_set) row :=
  attempts ← run_workers (grind_batch (ring support) batch) (N.to_nat threads) (tm_rounds tm);
  Ok (mk_row support threads (f64_div (f64_of_u64 attempts) (tm_secs tm)) (watts power tm)).

(** A row with the scaling efficiency printed below it. *)
Definition printed : Type := row * option spec_float.

(** The timings by the number of measurements made before. *)
Section table.
Variables (tms : nat -> timing) (power : bool).

Definition parallel_step (support : N) (serial : row) (st : nat * list printed) (t : N)
    : result (fault Empty_set) (nat * list printed) :=
  if (t =? 1)%N then Ok st
  else
    r ← measure_parallel support t (tms st.1) power;
    Ok (S st.1, st.2 ++ [(r, Some (scaling_efficiency (rw_samples_per_sec serial) r))]).

Definition support_step (threads : list N) (st : nat * list printed) (support : N)
    : result (fault Empty_set) (nat * list printed) :=
  serial ← measure support (tms st.1) power;
  try_fold (parallel_step support serial) threads (S st.1, st.2 ++ [(serial, None)]).
End table.

(** [main]: a refused argument is exit code 2. *)
Definition main (args : list string) (tms : nat -> timing) (power : bool) : result (fault args_error) (list printed) :=
  pa ← may_fail (parse_args args);
  st ← map_err (fun _ => Panicked) (try_fold (support_step tms power (pa_threads pa)) (pa_supports pa) (0, []));
  Ok st.2.
End profile.

Example args_none : parse_args [] = Ok args_default.
Proof. by_vm. Qed.
Example args_all : parse_args ["--threads"; "1, 2"; "--secs"; "3"; "--supports"; "8"] = Ok (mk_profile_args 3 [8] [1; 2])%N.
Proof. by_vm. Qed.
Example args_last : parse_args ["--secs"; "3"; "--help"] = Err (NeedsValue "--help") /\ parse_args ["--threads"; "2,0"] = Err NothingToMeasure
  /\ parse_args ["--supports"; ""] = Err (BadSupports IntEmpty) /\ parse_args ["--secs"; " 3"] = Err (BadSecs InvalidDigit).
Proof. repeat split; by_vm. Qed.
Example power_read : map power_line ["  CPU Power: 1234 mW "; "CPU Power:7mW"; "GPU Power: 12 mW"; "CPU Power: 1.5 mW"]
  = [Some 1234; Some 7; None; None]%N.
Proof. by_vm. Qed.
Example mean_two : mean_watts_in_window [(1, 500); (2, 1500); (3, 2500); (9, 100)]%N 2 3 = Some (f64_of_u64 2).
Proof. by_vm. Qed.
