(* ===== verification/ProfileRun.v ===== *)
(** * ProfileRun: theorems of the benchmark

    The arguments a run accepts and the texts they are written as, the nonces
    its workers draw (the batches of parallel workers overlap, so that the
    attempts reported count draws more than once), and the rows of the table. *)

From stdpp Require Import pretty.
From Stdlib Require Import Floats.SpecFloat.
From S2P Require Import Prelude Order Bytes Externals Goldilocks Instances Settlement Tickets VDisk Text Profile.

(** ** Arguments *)

Definition args_wf (pa : profile_args) : Prop :=
  is_u64 (pa_secs pa) /\ Forall is_u64 (pa_supports pa) /\ Forall is_u64 (pa_threads pa).
Definition measurable (pa : profile_args) : Prop :=
  (0 < pa_secs pa)%N /\ pa_supports pa <> [] /\ pa_threads pa <> [] /\ Forall (fun t => 0 < t)%N (pa_threads pa).

Lemma nothing_to_measure_spec pa : nothing_to_measure pa = false <-> measurable pa.
Proof.
  unfold nothing_to_measure, measurable. rewrite !orb_false_iff, !bool_decide_eq_false, N.eqb_neq.
  assert (existsb (fun t => t =? 0)%N (pa_threads pa) = false <-> Forall (fun t => 0 < t)%N (pa_threads pa)) as ->.
  { induction (pa_threads pa) as [|t l IH]; simpl; [by split|].
    rewrite orb_false_iff, Forall_cons, IH, N.eqb_neq. apply and_iff_compat_r. lia. }
  split; [intros [[[? ?] ?] ?]|intros (? & ? & ? & ?)]; repeat split; try done; lia.
Qed.

Lemma parse_list_range bad value l : parse_list bad value = Ok l -> Forall is_u64 l.
Proof.
  unfold parse_list. intros H%collect_map_ok. induction H as [|s v ss l Hs _ IH]; constructor; [|done].
  unfold map_err in Hs. destruct (parse_u64 (trim s)) eqn:E; [|done]. injection Hs as <-. by apply parse_u64_range in E.
Qed.

Lemma set_flag_wf flag value pa pa' : args_wf pa -> set_flag flag value pa = Ok pa' -> args_wf pa'.
Proof.
  intros (Hs & Hu & Ht). unfold set_flag.
  repeat case_match; simpl; try done.
  - destruct (parse_u64 value) as [v|] eqn:E; simpl; [|done]. intros [= <-]. apply parse_u64_range in E. by repeat split.
  - destruct (parse_list _ value) as [l|] eqn:E; simpl; [|done]. intros [= <-]. apply parse_list_range in E. by repeat split.
  - destruct (parse_list _ value) as [l|] eqn:E; simpl; [|done]. intros [= <-]. apply parse_list_range in E. by repeat split.
Qed.

Lemma parse_flags_wf n args pa pa' : length args <= n -> args_wf pa -> parse_flags args pa = Ok pa' -> args_wf pa'.
Proof.
  revert args pa. induction n as [|n IH]; intros [|flag [|value args]] pa Hn Hpa; simpl in *; try lia; try done.
  1-2: by intros [= <-].
  destruct (set_flag flag value pa) as [pa1|] eqn:E; simpl; [|done].
  apply IH; [lia|]. by apply (set_flag_wf flag value pa).
Qed.

Lemma args_default_wf : args_wf args_default.
Proof. unfold args_wf. split; [|split]; [|by repeat constructor..]. done. Qed.

(** The numbers written with commas between. *)
Fixpoint join_nums (l : list N) : string :=
  match l with
  | [] => EmptyString
  | [n] => pretty n
  | n :: l => (pretty n ++ String comma (join_nums l))%string
  end.

Lemma pretty_lacks (n : N) : lacks comma (pretty n) = true.
Proof. apply (digits_value_lacks comma 0 _ (Z.of_N n)); [done | apply digits_value_pretty]. Qed.
Lemma pretty_trim (n : N) : trim (pretty n) = pretty n.
Proof. apply trim_solid, (digits_value_solid 0 _ (Z.of_N n)), digits_value_pretty. Qed.

Lemma split_join_nums l : l <> [] -> split_on comma (join_nums l) = map pretty l.
Proof.
  induction l as [|n [|m l] IH]; intros H; [done | by apply split_on_lacks, pretty_lacks|].
  change (join_nums (n :: m :: l)) with (pretty n ++ String comma (join_nums (m :: l)))%string.
  rewrite split_on_app by apply pretty_lacks. by rewrite IH.
Qed.

Lemma parse_list_join bad l : l <> [] -> Forall is_u64 l -> parse_list bad (join_nums l) = Ok l.
Proof.
  intros Hl Hu. unfold parse_list. rewrite split_join_nums by done. rewrite map_map.
  apply collect_map_ok. clear Hl. induction Hu as [|n l Hn _ IH]; constructor; [|done].
  rewrite pretty_trim, parse_u64_pretty by done. done.
Qed.

(** The arguments as they are typed. *)
Definition args_text (pa : profile_args) : list string :=
  ["--secs"; pretty (pa_secs pa); "--supports"; join_nums (pa_supports pa); "--threads"; join_nums (pa_threads pa)].

(** The accepted arguments are in the range of their types and give something
    to measure, and every such setting is what the text of it parses to. *)
Theorem profile_args_read :
  (forall args pa, parse_args args = Ok pa -> args_wf pa /\ measurable pa) /\
  (forall pa, args_wf pa -> measurable pa -> parse_args (args_text pa) = Ok pa).
Proof.
  unfold parse_args. split.
  - intros args pa. destruct (parse_flags args args_default) as [pa'|] eqn:E; [|done]. cbn [mbind result_bind].
    destruct (nothing_to_measure pa') eqn:Hn; [done|]. intros [= ->]. split; [|by apply nothing_to_measure_spec].
    by apply (parse_flags_wf (length args) args args_default), E; [|apply args_default_wf].
  - intros [secs supports threads] (Hs & Hu & Ht) Hm. pose proof Hm as (_ & Hun & Htn & _). simpl in *.
    unfold set_flag. simpl. rewrite parse_u64_pretty by done. simpl. rewrite !parse_list_join by done. simpl.
    apply nothing_to_measure_spec in Hm. by rewrite Hm.
Qed.

(** ** The power sampler *)

Definition space : Ascii.ascii := chr 32.

Lemma string_rev_snoc s a : string_rev (s ++ String a EmptyString) = String a (string_rev s).
Proof. unfold string_rev. by rewrite ascii_list_app, rev_app_distr. Qed.

(** Trimming stops at the first character that is no white space. *)
Lemma skip_white_head w2 w3 a s :
  (forall b, w2 a b = false) -> (forall b c, w3 a b c = false) -> white1 a = false ->
  skip_white w2 w3 (String a s) = String a s.
Proof. intros H2 H3 H1. simpl. rewrite H1. destruct s as [|b [|c s]]; [done|by rewrite H2|]. by rewrite H2, H3. Qed.

Lemma trim_ends a s b s' : solid a = true -> solid b = true ->
  String a s = (s' ++ String b EmptyString)%string -> trim (String a s) = String a s.
Proof.
  intros (Ha & Ha2 & _ & Ha3 & _)%solid_not_white (Hb & _ & Hb2 & _ & Hb3)%solid_not_white E.
  unfold trim, trim_end, trim_start. rewrite (skip_white_head _ _ a) by done.
  rewrite E, string_rev_snoc, skip_white_head by done. rewrite <-string_rev_snoc. apply string_rev_rev.
Qed.

Lemma trim_space_after s : all_solid s = true -> trim (s ++ String space EmptyString) = s.
Proof.
  intros Hs. destruct s as [|a s]; [done|]. pose proof Hs as Hs'. simpl in Hs'. apply andb_true_iff in Hs' as [Ha _].
  destruct (solid_not_white a Ha) as (H1 & H2 & _ & H3 & _).
  change (String a s ++ String space EmptyString)%string with (String a (s ++ String space EmptyString)).
  unfold trim, trim_start. rewrite skip_white_head by done.
  change (String a (s ++ String space EmptyString))%string with (String a s ++ String space EmptyString)%string.
  unfold trim_end. rewrite string_rev_snoc.
  change (skip_white (fun b a => white2 a b) (fun c b a => white3 a b c) (String space (string_rev (String a s))))
    with (skip_white (fun b a => white2 a b) (fun c b a => white3 a b c) (string_rev (String a s))).
  change (trim_end (String a s) = String a s). rewrite <-(trim_solid _ Hs) at 2. unfold trim, trim_start.
  by rewrite skip_white_head.
Qed.

Lemma parse_u32_pretty (n : N) : is_u32 n -> parse_u32 (pretty n) = Ok n.
Proof.
  intros Hn. unfold parse_u32. rewrite (parse_int_digits false 0 (Z.of_N u32_max) _ (Z.of_N n)).
  - unfold is_u32 in Hn. destruct (Z.leb_spec (Z.of_N n) (Z.of_N u32_max)); [|lia]. cbn. by rewrite N2Z.id.
  - unfold u32_max. lia.
  - apply pretty_not_empty.
  - apply digits_value_pretty.
Qed.

(** A reading in milliwatts is what the line says. *)
Lemma power_line_read (n : N) : is_u32 n -> power_line ("CPU Power: " ++ (pretty n ++ " mW"))%string = Some n.
Proof.
  intros Hn. pose proof (digits_value_solid 0 _ _ (digits_value_pretty n)) as Hs.
  pose proof (pretty_not_empty n) as Hne. pose proof (parse_u32_pretty n Hn) as Hp.
  unfold power_line. destruct (pretty n) as [|a s] eqn:E; [done|]. rewrite <-E in *.
  assert (solid a = true) as Ha by (rewrite E in Hs; simpl in Hs; by apply andb_true_iff in Hs as [? _]).
  assert ((pretty n ++ " mW")%string = ((pretty n ++ String space "m") ++ String (chr 87) EmptyString)%string) as Et.
  { clear. induction (pretty n) as [|x t IH]; [done|]. change (String x (t ++ " mW") = String x ((t ++ String space "m") ++ String (chr 87) EmptyString))%string. by rewrite IH. }
  assert (trim ("CPU Power: " ++ (pretty n ++ " mW")) = "CPU Power: " ++ (pretty n ++ " mW"))%string as ->.
  { apply (trim_ends (chr 67) ("PU Power: " ++ (pretty n ++ " mW"))%string (chr 87)
      ("CPU Power: " ++ (pretty n ++ String space "m"))%string); [done..|]. by rewrite Et. }
  change (strip_prefix "CPU Power:" ("CPU Power: " ++ (pretty n ++ " mW")))%string
    with (Some (String space (pretty n ++ " mW"))%string).
  cbn [mbind option_bind].
  change (trim (String space (pretty n ++ " mW"))%string) with (trim (pretty n ++ " mW")%string).
  assert (trim (pretty n ++ " mW")%string = (pretty n ++ " mW")%string) as ->.
  { rewrite E at 1 2. apply (trim_ends a (s ++ " mW")%string (chr 87) (pretty n ++ String space "m")%string); [done..|].
    rewrite <-Et, E. done. }
  assert ((pretty n ++ " mW")%string = ((pretty n ++ String space EmptyString) ++ "mW")%string) as ->.
  { clear. induction (pretty n) as [|x t IH]; [done|]. change (String x (t ++ " mW") = String x ((t ++ String space EmptyString) ++ "mW"))%string. by rewrite IH. }
  rewrite strip_suffix_app. cbn [mbind option_bind]. by rewrite trim_space_after, Hp.
Qed.

(** No sample in the window is no mean. *)
Lemma mean_watts_none samples t0 t1 :
  mean_watts_in_window samples t0 t1 = None <-> Forall (fun p => ~ (t0 <= p.1 /\ p.1 <= t1)%N) samples.
Proof.
  unfold mean_watts_in_window. rewrite length_map.
  case_bool_decide as Hl; (split; [|]); [intros _|done|done|intros Hf].
  - apply nil_length_inv in Hl. apply Forall_forall. intros p Hp Hw.
    apply (not_elem_of_nil p). rewrite <-Hl. by apply list_elem_of_filter.
  - exfalso. apply Hl. by rewrite filter_none.
Qed.

(** ** The nonces of the workers *)

(** [rounds] runs of [width] consecutive numbers, [stride] apart. *)
Definition run_at (start : N) (width : nat) : list N := map (fun j => start + N.of_nat j)%N (seq 0 width).
Definition nonces_of (start stride : N) (width rounds : nat) : list N :=
  concat (map (fun r => run_at (start + stride * N.of_nat r) width) (seq 0 rounds)).

Lemma elem_of_run_at x start width : x ∈ run_at start width <-> (start <= x < start + N.of_nat width)%N.
Proof.
  unfold run_at. rewrite list_elem_of_fmap. split.
  - intros (j & -> & Hj%elem_of_seq). lia.
  - intros Hx. exists (N.to_nat (x - start)). split; [lia|]. apply elem_of_seq. lia.
Qed.

Lemma nonces_of_snoc start stride width rounds :
  nonces_of start stride width (S rounds) = nonces_of start stride width rounds ++ run_at (start + stride * N.of_nat rounds) width.
Proof. unfold nonces_of. rewrite seq_S, map_app, concat_app. simpl. by rewrite app_nil_r. Qed.

Lemma nonces_of_cons start stride width rounds :
  nonces_of start stride width (S rounds) = run_at start width ++ nonces_of (start + stride) stride width rounds.
Proof.
  unfold nonces_of. cbn [seq map concat]. rewrite N.mul_0_r, N.add_0_r. f_equal.
  rewrite <-seq_shift, map_map. f_equal. apply map_ext. intros r. f_equal. lia.
Qed.

Lemma elem_of_spread x start stride width rounds :
  x ∈ nonces_of start stride width rounds <->
  exists r, r < rounds /\ (start + stride * N.of_nat r <= x < start + stride * N.of_nat r + N.of_nat width)%N.
Proof.
  unfold nonces_of. rewrite list_elem_of_In, in_concat. split.
  - intros (l & Hl & Hx). apply list_elem_of_In in Hl, Hx. apply list_elem_of_fmap in Hl as (r & -> & Hr%elem_of_seq).
    apply elem_of_run_at in Hx. exists r. split; [lia|done].
  - intros (r & Hr & Hx). exists (run_at (start + stride * N.of_nat r) width).
    rewrite <-!list_elem_of_In. split; [|by apply elem_of_run_at].
    apply list_elem_of_fmap. exists r. split; [done|]. apply elem_of_seq. lia.
Qed.

Lemma nonces_of_length start stride width rounds : length (nonces_of start stride width rounds) = rounds * width.
Proof.
  induction rounds as [|rounds IH]; [done|]. rewrite nonces_of_snoc, length_app, IH.
  unfold run_at. rewrite length_map, length_seq. lia.
Qed.

Lemma nonces_of_NoDup start stride width rounds : (N.of_nat width <= stride)%N -> NoDup (nonces_of start stride width rounds).
Proof.
  intros Hw. induction rounds as [|rounds IH]; [constructor|]. rewrite nonces_of_snoc. apply NoDup_app. split; [done|]. split.
  - intros x (r & Hr & Hx)%elem_of_spread Hx'%elem_of_run_at. nia.
  - unfold run_at. apply NoDup_fmap_2_strong; [|apply NoDup_seq]. intros. lia.
Qed.

(** What a worker draws. *)
Definition worker_draws (threads w rounds : nat) : list N := nonces_of (1000 + N.of_nat w) (32 * N.of_nat threads) batch rounds.

(** A batch asks for as many tickets as it has attempts, so that finding one
    never ends it early: every nonce of the run is tried. *)
Lemma batch_tries_all {NB : Nebu} {FX : Fixed} (try : N -> result (fault Empty_set) (option settlement_ticket)) start want i attempts out :
  length out <= N.to_nat i -> N.to_nat i + attempts <= want -> (start + i + N.of_nat attempts <= u64_max)%N ->
  is_ok (grind_loop try start want i attempts out) = forallb (fun n => is_ok (try n)) (run_at (start + i) attempts).
Proof.
  revert i out. induction attempts as [|attempts IH]; intros i out Ho Hw Hmax; [done|]. cbn [grind_loop].
  rewrite bool_decide_eq_false_2 by lia.
  unfold run_at. cbn [seq map forallb]. rewrite N.add_0_r, sat_add64_exact by lia.
  destruct (try (start + i)%N) as [t|]; cbn [mbind result_bind]; [|done].
  rewrite IH; [|destruct t; rewrite ?length_app; simpl; lia|lia|lia]. cbn [andb is_ok].
  unfold run_at. rewrite <-seq_shift, map_map. f_equal. apply map_ext. intros j. lia.
Qed.

Lemma checked_u64_ok v : is_u64 v -> checked_u64 v = Ok v.
Proof. unfold checked_u64. by intros ->%N.leb_le. Qed.

Lemma forallb_agree {A} (f g : A -> bool) l : (forall x, f x = g x) -> forallb f l = forallb g l.
Proof. intros E. induction l as [|x l IH]; [done|]. simpl. by rewrite E, IH. Qed.
Lemma forallb_S (f : nat -> bool) l : forallb f (map S l) = forallb (fun n => f (S n)) l.
Proof. induction l as [|x l IH]; [done|]. simpl. by rewrite IH. Qed.

(** A worker's result: it panics where a draw does, and counts its draws. *)
Lemma worker_runs {A} (grind : N -> result (fault Empty_set) A) threads rounds attempts nonce :
  0 < threads -> is_u64 (attempts + 32 * N.of_nat rounds) -> is_u64 (nonce + 32 * N.of_nat threads * N.of_nat rounds) ->
  worker grind threads rounds attempts nonce =
    if forallb (fun r => is_ok (grind (nonce + 32 * N.of_nat threads * N.of_nat r)%N)) (seq 0 rounds)
    then Ok (attempts + 32 * N.of_nat rounds)%N else Err Panicked.
Proof.
  intros Ht. revert attempts nonce. induction rounds as [|rounds IH]; intros attempts nonce Ha Hn.
  { simpl. by rewrite N.add_0_r. }
  cbn [worker seq forallb]. rewrite N.mul_0_r, N.add_0_r.
  destruct (grind nonce) as [a|e]; cbn [mbind result_bind is_ok andb].
  2: { by destruct e as [|[]]. }
  change (N.of_nat batch) with 32%N. unfold is_u64, u64_max in *.
  rewrite !checked_u64_ok by (unfold is_u64, u64_max; nia). cbn [mbind result_bind].
  rewrite checked_u64_ok by (unfold is_u64, u64_max; nia). cbn [mbind result_bind].
  rewrite IH; [|unfold is_u64, u64_max; nia..].
  rewrite <-seq_shift.
  rewrite forallb_S. rewrite (forallb_agree (fun r => is_ok (grind (nonce + 32 * N.of_nat threads * N.of_nat (S r))%N))
    (fun r => is_ok (grind (nonce + 32 * N.of_nat threads + 32 * N.of_nat threads * N.of_nat r)%N))).
  { case_match; [f_equal; lia|done]. }
  intros r. do 2 f_equal. lia.
Qed.

(** ** Parallel workers *)

Definition all_draws (threads : nat) (rounds : nat -> nat) : list N :=
  concat (map (fun w => worker_draws threads w (rounds w)) (seq 0 threads)).

Lemma forallb_concat {A} (f : A -> bool) ls : forallb f (concat ls) = forallb (forallb f) ls.
Proof. induction ls as [|l ls IH]; [done|]. simpl. by rewrite forallb_app, IH. Qed.

Lemma forallb_map {A B} (f : B -> bool) (g : A -> B) l : forallb f (map g l) = forallb (fun x => f (g x)) l.
Proof. induction l as [|x l IH]; [done|]. simpl. by rewrite IH. Qed.

Lemma forallb_agree_in {A} (f g : A -> bool) l : (forall x, x ∈ l -> f x = g x) -> forallb f l = forallb g l.
Proof.
  intros E. induction l as [|x l IH]; [done|]. simpl. rewrite E by constructor. rewrite IH; [done|].
  intros y Hy. apply E. by constructor.
Qed.

(** The nonces stay in range. *)
Definition in_range (threads : nat) (rounds : nat -> nat) : Prop :=
  forall w, w < threads -> is_u64 (1000 + N.of_nat w + 32 * N.of_nat threads * (N.of_nat (rounds w) + 1)).

Lemma worker_result {NB : Nebu} {FX : Fixed} (try : N -> result (fault Empty_set) (option settlement_ticket)) threads w rounds :
  w < threads -> is_u64 (1000 + N.of_nat w + 32 * N.of_nat threads * (N.of_nat rounds + 1)) ->
  worker (fun n => grind_loop try n batch 0 batch []) threads rounds 0 (1000 + N.of_nat w) =
    if forallb (fun n => is_ok (try n)) (worker_draws threads w rounds)
    then Ok (N.of_nat (length (worker_draws threads w rounds))) else Err Panicked.
Proof.
  intros Hw Hr. unfold is_u64, u64_max in Hr. rewrite worker_runs; [|lia|unfold is_u64, u64_max; nia..].
  unfold worker_draws at 2. rewrite nonces_of_length.
  unfold worker_draws, nonces_of. rewrite forallb_concat, forallb_map.
  rewrite (forallb_agree_in _ (fun r => forallb (fun n => is_ok (try n))
    (run_at (1000 + N.of_nat w + 32 * N.of_nat threads * N.of_nat r) batch))).
  - case_match; [|done]. f_equal. unfold batch. lia.
  - intros r Hr'%elem_of_seq. rewrite batch_tries_all; [by rewrite N.add_0_r|done|done|].
    unfold batch, u64_max. nia.
Qed.

Lemma fold_as_u64 l s : (s + fold_right N.add 0 l <= u64_max)%N ->
  fold_left (fun total a => as_u64 (total + a)) l s = (s + fold_right N.add 0 l)%N.
Proof.
  revert s. induction l as [|a l IH]; intros s; simpl; [intros; lia|]. intros H.
  rewrite as_u64_id by (unfold is_u64; lia). rewrite IH; lia.
Qed.

(** The workers try exactly their draws, panic where one of them does, and
    report the number of draws. *)
Theorem workers_try_draws {NB : Nebu} {FX : Fixed} (try : N -> result (fault Empty_set) (option settlement_ticket)) threads rounds :
  in_range threads rounds -> is_u64 (N.of_nat (length (all_draws threads rounds))) ->
  run_workers (fun n => grind_loop try n batch 0 batch []) threads rounds =
    if forallb (fun n => is_ok (try n)) (all_draws threads rounds)
    then Ok (N.of_nat (length (all_draws threads rounds))) else Err Panicked.
Proof.
  intros Hr Hu. unfold run_workers, all_draws in *. rewrite forallb_concat, forallb_map.
  assert (collect (map (fun w => start ← checked_u64 (1000 + N.of_nat w);
      worker (fun n => grind_loop try n batch 0 batch []) threads (rounds w) 0 start) (seq 0 threads)) =
    if forallb (fun w => forallb (fun n => is_ok (try n)) (worker_draws threads w (rounds w))) (seq 0 threads)
    then Ok (map (fun w => N.of_nat (length (worker_draws threads w (rounds w)))) (seq 0 threads)) else Err Panicked) as ->.
  { rewrite (collect_ext _ (fun w => if forallb (fun n => is_ok (try n)) (worker_draws threads w (rounds w))
      then Ok (N.of_nat (length (worker_draws threads w (rounds w)))) else Err Panicked)).
    { clear. induction (seq 0 threads) as [|w l IH]; [done|]. cbn [map collect forallb]. rewrite IH.
      by destruct (forallb _ (worker_draws _ _ _)), (forallb _ l). }
    intros w Hw%elem_of_seq. specialize (Hr w ltac:(lia)). rewrite checked_u64_ok by (unfold is_u64, u64_max in *; lia).
    apply worker_result; [lia|done]. }
  destruct (forallb _ (seq 0 threads)); [|done]. cbn [mbind result_bind]. f_equal.
  assert (forall l, N.of_nat (length (concat (map (fun w => worker_draws threads w (rounds w)) l))) =
    fold_right N.add 0%N (map (fun w => N.of_nat (length (worker_draws threads w (rounds w)))) l)) as E.
  { induction l as [|w l IH]; [done|]. cbn [map concat fold_right]. rewrite length_app. lia. }
  rewrite fold_as_u64; rewrite <-E; [done|]. done.
Qed.

Lemma elem_of_all_draws x threads rounds :
  x ∈ all_draws threads rounds <-> exists w, w < threads /\ x ∈ worker_draws threads w (rounds w).
Proof.
  unfold all_draws. rewrite list_elem_of_In, in_concat. split.
  - intros (l & Hl & Hx). apply list_elem_of_In in Hl, Hx. apply list_elem_of_fmap in Hl as (w & -> & Hw%elem_of_seq).
    exists w. split; [lia|done].
  - intros (w & Hw & Hx). exists (worker_draws threads w (rounds w)). rewrite <-!list_elem_of_In. split; [|done].
    apply list_elem_of_fmap. exists w. split; [done|]. apply elem_of_seq. lia.
Qed.

Lemma all_draws_length threads rounds : length (all_draws threads (fun _ => rounds)) = threads * rounds * 32.
Proof.
  unfold all_draws. assert (forall l, length (concat (map (fun w => worker_draws threads w rounds) l)) = length l * rounds * 32) as ->.
  { induction l as [|w l IH]; [done|]. cbn [map concat length]. rewrite length_app, IH. unfold worker_draws.
    rewrite nonces_of_length. unfold batch. lia. }
  by rewrite length_seq.
Qed.

(** The workers step by whole batches but start one nonce apart, so that of
    the [threads * 32] nonces of a round only [threads + 31] are distinct. *)
Lemma distinct_draws threads rounds : 0 < threads ->
  size (list_to_set (all_draws threads (fun _ => rounds)) :> gset N) = rounds * (threads + 31).
Proof.
  intros Ht. rewrite <-(nonces_of_length 1000 (32 * N.of_nat threads) (threads + 31) rounds).
  rewrite <-(size_list_to_set (C := gset N)) by (apply nonces_of_NoDup; lia). f_equal. apply set_eq. intros x.
  rewrite !elem_of_list_to_set, elem_of_all_draws. unfold worker_draws, batch.
  setoid_rewrite elem_of_spread. split.
  - intros (w & Hw & r & Hr & Hx). exists r. split; [done|]. lia.
  - intros (r & Hr & Hx). exists (Nat.min (threads - 1) (N.to_nat (x - (1000 + 32 * N.of_nat threads * N.of_nat r)))).
    split; [lia|]. exists r. split; [done|]. lia.
Qed.

(** Only the first nonces of the batches are disjoint. *)
Lemma starts_distinct threads w w' r r' : w < threads -> w' < threads ->
  (1000 + N.of_nat w + 32 * N.of_nat threads * N.of_nat r = 1000 + N.of_nat w' + 32 * N.of_nat threads * N.of_nat r')%N ->
  w = w' /\ r = r'.
Proof. intros. assert (r = r') by nia. subst. lia. Qed.

(** ** The table *)

Section table.
Context {HM : Hemera} {NB : Nebu} {FX : Fixed} {TR : Tru} {FA : FxAddLaws}.

Lemma try_nonce_ok base n : is_ok (try_nonce base n) = true.
Proof.
  destruct (try_ticket_ok base contribs context_none params_default (h 48879) (h 193) (h 1) n easy_target) as (r & E & _).
  unfold try_nonce. by rewrite E.
Qed.

Lemma try_all_ok base l : forallb (fun n => is_ok (try_nonce base n)) l = true.
Proof. apply forallb_forall. intros. apply try_nonce_ok. Qed.

Lemma grind_batch_loop base attempts :
  grind_batch base attempts = fun n => grind_loop (try_nonce base) n attempts 0 attempts [].
Proof. unfold grind_batch, grind_settlement. reflexivity. Qed.

Lemma grind_batch_ok base attempts n : exists out, grind_batch base attempts n = Ok out.
Proof.
  destruct (grind_sound base contribs context_none params_default (h 48879) (h 193) (h 1) n attempts attempts easy_target)
    as (out & E & _). by exists out.
Qed.

Lemma run_workers_ok base threads rounds : in_range threads rounds ->
  exists n, run_workers (grind_batch base batch) threads rounds = Ok n.
Proof.
  intros Hr. unfold run_workers. destruct (collect _) as [l|e] eqn:E; [by eexists|exfalso].
  apply collect_Err in E as (w & Hw%elem_of_seq & Hf). specialize (Hr w ltac:(lia)).
  rewrite checked_u64_ok in Hf by (unfold is_u64, u64_max in *; lia). cbn [mbind result_bind] in Hf.
  rewrite grind_batch_loop, worker_result, try_all_ok in Hf by (done || lia). done.
Qed.

(** The benchmark reports [32 * threads * rounds] attempts of a parallel
    measurement whose workers each ran [rounds] batches, and they drew
    [rounds * (threads + 31)] orderings: with one thread the two agree, with
    more most attempts repeat another worker's. *)
Theorem parallel_attempts_repeat (base : list link) (threads rounds : nat) :
  0 < threads -> is_u64 (1000 + 32 * N.of_nat threads * (N.of_nat rounds + 2)) ->
  run_workers (grind_batch base batch) threads (fun _ => rounds) = Ok (N.of_nat (threads * rounds * 32)) /\
  size (list_to_set (all_draws threads (fun _ => rounds)) :> gset N) = rounds * (threads + 31).
Proof.
  intros Ht Hu. split; [|by apply distinct_draws]. unfold is_u64, u64_max in Hu.
  rewrite grind_batch_loop.
  rewrite workers_try_draws, try_all_ok, all_draws_length; [done|..].
  - intros w Hw. unfold is_u64, u64_max. nia.
  - rewrite all_draws_length. unfold is_u64, u64_max. nia.
Qed.

(** The measurements of a run, in order. *)
Definition plan (pa : profile_args) : list (N * N) :=
  concat (map (fun s => (s, 1%N) :: map (pair s) (filter (fun t => t <> 1%N) (pa_threads pa))) (pa_supports pa)).
Definition row_key (p : printed) : N * N := (rw_support p.1, rw_threads p.1).

Definition timings_in_range (tms : nat -> timing) (threads : list N) : Prop :=
  forall i t, t ∈ 1%N :: threads -> in_range (N.to_nat t) (tm_rounds (tms i)).

Lemma measure_ok support tm power : in_range 1 (tm_rounds tm) ->
  exists r, measure support tm power = Ok r /\ rw_support r = support /\ rw_threads r = 1%N.
Proof.
  intros Hr. specialize (Hr 0 ltac:(lia)). unfold measure.
  cbv zeta. destruct (grind_batch_ok (ring support) 8 0) as (out & ->). cbn [mbind result_bind].
  rewrite grind_batch_loop.
  change 1000%N with (1000 + N.of_nat 0)%N at 1. rewrite worker_result, try_all_ok by (done || lia).
  eexists. done.
Qed.

Lemma measure_parallel_ok support threads tm power : in_range (N.to_nat threads) (tm_rounds tm) ->
  exists r, measure_parallel support threads tm power = Ok r /\ rw_support r = support /\ rw_threads r = threads.
Proof.
  intros Hr. unfold measure_parallel. destruct (run_workers_ok (ring support) _ _ Hr) as (n & ->). by eexists.
Qed.

Lemma parallel_step_ok tms power support serial st t :
  in_range (N.to_nat t) (tm_rounds (tms st.1)) -> t <> 1%N ->
  exists p, parallel_step tms power support serial st t = Ok (S st.1, st.2 ++ [p]) /\ row_key p = (support, t).
Proof.
  intros Hr Ht%N.eqb_neq. unfold parallel_step. rewrite Ht.
  destruct (measure_parallel_ok support t (tms st.1) power Hr) as (r & -> & Es & Et). cbn [mbind result_bind].
  eexists. split; [done|]. unfold row_key. cbn [fst]. by rewrite Es, Et.
Qed.

Lemma parallel_rows tms power support serial threads st :
  timings_in_range tms threads ->
  exists st', try_fold (parallel_step tms power support serial) threads st = Ok st' /\
    map row_key st'.2 = map row_key st.2 ++ map (pair support) (filter (fun t => t <> 1%N) threads).
Proof.
  revert st. induction threads as [|t threads IH]; intros st Hr.
  { exists st. by rewrite app_nil_r. }
  assert (timings_in_range tms threads) as Hr'.
  { intros i u [->|Hu]%elem_of_cons; apply Hr; [constructor|by do 2 constructor]. }
  cbn [try_fold]. rewrite filter_cons. destruct (N.eqb_spec t 1) as [->|Ht].
  { rewrite decide_False by auto. by apply IH. }
  rewrite decide_True by done.
  destruct (parallel_step_ok tms power support serial st t) as (p & -> & Ep); [apply Hr; by do 2 constructor|done|].
  cbn [mbind result_bind]. destruct (IH (S st.1, st.2 ++ [p]) Hr') as (st' & -> & E).
  exists st'. split; [done|]. rewrite E. cbn [snd]. rewrite map_app, <-app_assoc. cbn [map app]. by rewrite Ep.
Qed.

Lemma support_rows tms power threads supports st :
  timings_in_range tms threads ->
  exists st', try_fold (support_step tms power threads) supports st = Ok st' /\
    map row_key st'.2 = map row_key st.2 ++ plan (mk_profile_args 0 supports threads).
Proof.
  intros Hr. revert st. induction supports as [|s supports IH]; intros st.
  { exists st. by rewrite app_nil_r. }
  cbn [try_fold].
  destruct (measure_ok s (tms st.1) power) as (r & Em & Es & Et); [apply (Hr st.1 1%N); constructor|].
  destruct (parallel_rows tms power s r threads (S st.1, st.2 ++ [(r, None)]) Hr) as (st1 & E1 & K1).
  assert (support_step tms power threads st s = Ok st1) as ->.
  { unfold support_step. by rewrite Em. }
  cbn [mbind result_bind]. destruct (IH st1) as (st' & -> & E). exists st'. split; [done|].
  rewrite E, K1. cbn [snd]. rewrite map_app, <-!app_assoc. unfold plan. cbn. unfold row_key at 2. cbn [fst]. by rewrite Es, Et.
Qed.

(** An accepted run prints its measurements in order: every support with one
    thread, then with each other number of threads; a refused one says why. *)
Theorem main_table (args : list string) (tms : nat -> timing) (power : bool) :
  match parse_args args with
  | Err e => main args tms power = Err (Failed e)
  | Ok pa => timings_in_range tms (pa_threads pa) ->
      exists rows, main args tms power = Ok rows /\ map row_key rows = plan pa
  end.
Proof.
  unfold main. destruct (parse_args args) as [pa|e]; [|done]. intros Hr. cbn [may_fail map_err mbind result_bind].
  destruct (support_rows tms power (pa_threads pa) (pa_supports pa) (0, []) Hr) as (st & E & Ek).
  rewrite E. cbn. exists st.2. split; [done|]. by destruct pa.
Qed.
End table.
