(* ===== verification/Render.v ===== *)
(** * Render: the text the commands print (src/cli.rs, bin/hardware_profile.rs, node.rs)

    [fmt_fixed] writes a binary64 number with a fixed number of decimals, as
    the [{:.6}] of Rust: the nearest decimal, ties to even.  [paint] colours on
    a terminal and [render] is what each report of [Cli] prints.  [fx_to_f64]
    of tru is a class; the help text of clap is an argument. *)

From stdpp Require Import pretty.
From Stdlib Require Import Floats.SpecFloat.
From S2P Require Import Prelude Order Bytes Externals Goldilocks Instances Chain Conflict Fork Reconcile Beacon Settlement Tickets Seals Rewards Finality VDisk Text Cli Profile.

#[local] Open Scope string_scope.

(** ** Numbers *)

(** [num / den] to the nearest integer, a tie to the even one. *)
Definition round_half_even (num den : Z) : Z :=
  let q := (num / den)%Z in
  let r := (num mod den)%Z in
  if (2 * r <? den)%Z then q else if (den <? 2 * r)%Z then (q + 1)%Z else if Z.even q then q else (q + 1)%Z.

(** [m * 2 ^ e * 10 ^ p] as a fraction. *)
Definition scaled (p : nat) (m : positive) (e : Z) : Z * Z :=
  if (0 <=? e)%Z then (Z.pos m * 2 ^ e * 10 ^ Z.of_nat p, 1)%Z else (Z.pos m * 10 ^ Z.of_nat p, 2 ^ (- e))%Z.

(** The last [p] digits of a number. *)
Fixpoint last_digits (p : nat) (v : N) (acc : string) : string :=
  match p with 0 => acc | S p => last_digits p (v / 10) (String (pretty_N_char (v mod 10)) acc) end.

(** [v] is the number of units of the last of [p] decimals, [p] positive. *)
Definition fixed_text (p : nat) (v : N) : string := pretty (v / 10 ^ N.of_nat p)%N +:+ "." +:+ last_digits p v "".

(** [format!("{x:.p$}")] *)
Definition fmt_fixed (p : nat) (x : spec_float) : string :=
  let sign (s : bool) := if s then "-" else "" in
  match x with
  | S754_zero s => sign s +:+ fixed_text p 0
  | S754_infinity s => sign s +:+ "inf"
  | S754_nan => "NaN"
  | S754_finite s m e => let '(num, den) := scaled p m e in sign s +:+ fixed_text p (Z.to_N (round_half_even num den))
  end.

(** Characters of a UTF-8 text: the bytes that do not continue one. *)
Definition continues (a : Ascii.ascii) : bool := ((128 <=? code a) && (code a <? 192))%N.
Fixpoint char_count (s : string) : nat :=
  match s with EmptyString => 0 | String a s => (if continues a then 0 else 1) + char_count s end.
Fixpoint repeat_text (n : nat) (s : string) : string := match n with 0 => "" | S n => s +:+ repeat_text n s end.
(** [{:<w}] and [{:>w}] *)
Definition pad_right (w : nat) (s : string) : string := s +:+ repeat_text (w - char_count s) " ".
Definition pad_left (w : nat) (s : string) : string := repeat_text (w - char_count s) " " +:+ s.

(** [f64::max], [x.round() as usize]; ties are rounded away from zero. *)
Definition f64_max (x y : spec_float) : spec_float :=
  match x, y with S754_nan, _ => y | _, S754_nan => x | _, _ => if SFltb x y then y else x end.
Definition f64_round (x : spec_float) : N :=
  match x with
  | S754_finite false m e =>
      let v := if (0 <=? e)%Z then Z.shiftl (Z.pos m) e else ((2 * Z.pos m + 2 ^ (- e)) / (2 * 2 ^ (- e)))%Z in
      N.min (Z.to_N v) u64_max
  | S754_infinity false => u64_max
  | _ => 0%N
  end.
(** [1e-9] *)
Definition f64_nano : spec_float := S754_finite false 4835703278458517 (-82).

(** [format_bytes] of node.rs. *)
Definition format_bytes (bytes : N) : string :=
  if (bytes =? 0)%N then "unlimited"
  else if (1000000000 <=? bytes)%N then fmt_fixed 1 (f64_div (f64_of_u64 bytes) (f64_of_u64 1000000000)) +:+ " GB"
  else if (1000000 <=? bytes)%N then fmt_fixed 1 (f64_div (f64_of_u64 bytes) (f64_of_u64 1000000)) +:+ " MB"
  else pretty bytes +:+ " B".

(** [print_row] and the lines of [main] in hardware_profile.rs. *)
Definition print_row (r : row) : string :=
  let head := "  support=" +:+ pad_right 6 (pretty (rw_support r)) +:+ " threads=" +:+ pad_right 3 (pretty (rw_threads r)) +:+ " "
                +:+ pad_left 10 (fmt_fixed 1 (rw_samples_per_sec r)) +:+ " samples/s" in
  match rw_watts r with
  | Some w =>
      head +:+ "   " +:+ pad_left 5 (fmt_fixed 2 w) +:+ "W   "
        +:+ pad_left 8 (fmt_fixed 3 (f64_mul (f64_div w (rw_samples_per_sec r)) (f64_of_u64 1000))) +:+ " mJ/sample"
  | None => head
  end.
Definition print_point (p : printed) : list string :=
  print_row p.1 :: match p.2 with Some eff => ["    scaling efficiency vs serial: " +:+ fmt_fixed 2 eff] | None => [] end.
Definition profile_lines (secs : N) (rows : list printed) : list string :=
  ("foculus hardware_profile — samples/s and W per ε-support size and thread count, " +:+ pretty secs +:+ "s/point")
    :: concat (map print_point rows).

Example row_line : print_row (mk_row 64 2 (f64_of_u64 1500) (Some (f64_of_u64 3)))
  = "  support=64     threads=2       1500.0 samples/s    3.00W      2.000 mJ/sample".
Proof. by_vm. Qed.
Example fmt_tenth : fmt_fixed 6 (f64_div (f64_of_u64 1) (f64_of_u64 10)) = "0.100000".
Proof. by_vm. Qed.
Example fmt_tie : (fmt_fixed 1 (f64_div (f64_of_u64 1) (f64_of_u64 4)), fmt_fixed 1 (f64_div (f64_of_u64 3) (f64_of_u64 4))) = ("0.2", "0.8").
Proof. by_vm. Qed.
Example fmt_big : fmt_fixed 2 (f64_of_u64 123456789) = "123456789.00".
Proof. by_vm. Qed.
Example format_mega : (format_bytes 1500000, format_bytes 999999, format_bytes 0) = ("1.5 MB", "999999 B", "unlimited").
Proof. by_vm. Qed.

(** ** The nearest decimal *)

Lemma round_half_even_near num den : (0 < den)%Z ->
  (Z.abs (2 * (round_half_even num den * den - num)) <= den)%Z /\
  (Z.abs (2 * (round_half_even num den * den - num)) = den -> Z.even (round_half_even num den) = true)%Z.
Proof.
  intros Hd. unfold round_half_even. pose proof (Z.div_mod num den ltac:(lia)) as E. pose proof (Z.mod_pos_bound num den Hd).
  set (q := (num / den)%Z) in *. set (r := (num mod den)%Z) in *.
  destruct (Z.ltb_spec (2 * r) den); [split; [nia|intros; nia]|]. destruct (Z.ltb_spec den (2 * r)); [split; [nia|intros; nia]|].
  destruct (Z.even q) eqn:Eq; [split; [nia|done]|]. split; [nia|]. intros _. by rewrite Z.add_1_r, Z.even_succ, <-Z.negb_even, Eq.
Qed.

Lemma round_half_even_nonneg num den : (0 <= num)%Z -> (0 < den)%Z -> (0 <= round_half_even num den)%Z.
Proof.
  intros Hn Hd. pose proof (Z.div_pos num den Hn Hd). unfold round_half_even. repeat case_match; lia.
Qed.

Lemma last_digits_value p v acc a :
  digits_value a (last_digits p v acc) = digits_value (a * 10 ^ Z.of_nat p + Z.of_N (v mod 10 ^ N.of_nat p)) acc.
Proof.
  revert v acc. induction p as [|p IH]; intros v acc; cbn [last_digits].
  - f_equal. rewrite N.mod_1_r. lia.
  - rewrite IH. cbn [digits_value]. rewrite (digit_pretty (v mod 10)) by (apply N.mod_lt; lia). cbn [mbind option_bind]. f_equal.
    rewrite Nat2Z.inj_succ, Z.pow_succ_r by lia. rewrite Nat2N.inj_succ, N.pow_succ_r'.
    rewrite (N.Div0.mod_mul_r v 10 (10 ^ N.of_nat p)). lia.
Qed.

Lemma last_digits_length p v acc : String.length (last_digits p v acc) = p + String.length acc.
Proof. revert v acc. induction p as [|p IH]; intros v acc; cbn [last_digits]; [done|]. rewrite IH. cbn [String.length]. lia. Qed.

(** What is printed reads as the decimal nearest to the number. *)
Lemma fixed_text_reads p v :
  exists i f vi vf, fixed_text p v = i +:+ "." +:+ f /\ String.length f = p /\
    digits_value 0 i = Some vi /\ digits_value 0 f = Some vf /\ (vi * 10 ^ Z.of_nat p + vf)%Z = Z.of_N v.
Proof.
  exists (pretty (v / 10 ^ N.of_nat p)%N), (last_digits p v ""), (Z.of_N (v / 10 ^ N.of_nat p)), (Z.of_N (v mod 10 ^ N.of_nat p)).
  split; [done|]. split; [by rewrite last_digits_length; simpl; lia|]. split; [apply digits_value_pretty|].
  split; [by rewrite last_digits_value|]. pose proof (N.div_mod v (10 ^ N.of_nat p) ltac:(apply N.pow_nonzero; lia)) as E.
  rewrite E at 3. rewrite N2Z.inj_add, N2Z.inj_mul, N2Z.inj_pow, nat_N_Z. lia.
Qed.

Lemma scaled_pos p m e : (0 <= (scaled p m e).1 /\ 0 < (scaled p m e).2)%Z.
Proof.
  unfold scaled. pose proof (Z.pow_pos_nonneg 10 (Z.of_nat p) ltac:(lia) ltac:(lia)). case_match; cbn [fst snd]; [|split; [nia|]].
  - split; [|lia]. pose proof (Z.pow_nonneg 2 e ltac:(lia)). nia.
  - apply Z.pow_pos_nonneg; lia.
Qed.

Lemma fmt_fixed_nearest p s m e :
  exists i f vi vf, fmt_fixed p (S754_finite s m e) = (if s then "-" else "") +:+ i +:+ "." +:+ f /\
    String.length f = p /\ digits_value 0 i = Some vi /\ digits_value 0 f = Some vf /\
    let '(num, den) := scaled p m e in
    let v := (vi * 10 ^ Z.of_nat p + vf)%Z in
    (Z.abs (2 * (v * den - num)) <= den)%Z /\ (Z.abs (2 * (v * den - num)) = den -> Z.even v = true)%Z.
Proof.
  unfold fmt_fixed. pose proof (scaled_pos p m e) as [Hn Hd]. destruct (scaled p m e) as [num den]. cbn [fst snd] in *.
  destruct (fixed_text_reads p (Z.to_N (round_half_even num den))) as (i & f & vi & vf & E & Hl & Hi & Hf & Hv).
  rewrite Z2N.id in Hv by (by apply round_half_even_nonneg). exists i, f, vi, vf. rewrite E, Hv.
  split_and!; try done; by apply round_half_even_near.
Qed.

(** ** Colours *)

Definition esc : Ascii.ascii := chr 27.

Section painting.
(** Whether the output is a terminal. *)
Variable tty : bool.

Definition paint (colour s : string) : string :=
  if tty then String esc "[" +:+ colour +:+ "m" +:+ s +:+ String esc "[0m" else s.
Definition dim (s : string) : string := paint "90" s.
Definition cyan (s : string) : string := paint "36" s.
Definition green (s : string) : string := paint "32" s.
Definition yellow (s : string) : string := paint "33" s.
Definition red (s : string) : string := paint "31" s.
Definition bold (s : string) : string := paint "1" s.
Definition kv (key val : string) : string := dim key +:+ " " +:+ val.

(** [println!] *)
Definition line (s : string) : string := s +:+ String (chr 10) EmptyString.
Definition lines (l : list string) : string := String.concat "" (map line l).

Definition LOGO_ROWS : list (string * string) := [
  ("31", "███████╗ ██████╗  ██████╗██╗   ██╗██╗     ██╗   ██╗███████╗");
  ("33", "██╔════╝██╔═══██╗██╔════╝██║   ██║██║     ██║   ██║██╔════╝");
  ("32", "█████╗  ██║   ██║██║     ██║   ██║██║     ██║   ██║███████╗");
  ("36", "██╔══╝  ██║   ██║██║     ██║   ██║██║     ██║   ██║╚════██║");
  ("34", "██║     ╚██████╔╝╚██████╗╚██████╔╝███████╗╚██████╔╝███████║");
  ("35", "╚═╝      ╚═════╝  ╚═════╝ ╚═════╝ ╚══════╝ ╚═════╝ ╚══════╝")].
Definition LOGO : string :=
  String.concat (String (chr 10) EmptyString) (map (fun r => String esc "[" +:+ r.1 +:+ "m" +:+ r.2 +:+ String esc "[0m") LOGO_ROWS).
Definition banner : string :=
  if negb tty then ""
  else lines [LOGO; paint "37" "    consensus by convergence";
    dim (line "" +:+ line "    φ* · fork-choice · finality · settlement · sync" +:+ line "    Goldilocks field · p = 2⁶⁴ − 2³² + 1 · fixed-point")].

(** ** Reports *)

Section reports.
Context {HM : Hemera} {NB : Nebu} {FX : Fixed} {TR : Tru} {ZH : Zheng} {TK : Tok}.
(** [Fx::to_f64]. *)
Variable fx_to_f64 : fx -> spec_float.
Definition num (x : spec_float) : string := yellow (fmt_fixed 6 x).
Definition num_fx (x : fx) : string := num (fx_to_f64 x).

Definition bar (max f : spec_float) : string :=
  repeat_text (N.to_nat (f64_round (f64_mul (f64_div f max) (f64_of_u64 16)))) "▮".
Definition focus_row (max : spec_float) (r : string * fx) : string :=
  let f := fx_to_f64 r.2 in
  "  " +:+ cyan (pad_right 14 r.1) +:+ "  " +:+ num f +:+ "  " +:+ green (bar max f).
Definition focus_text (syntropy : fx) (rows : list (string * fx)) : string :=
  let max := f64_max (match rows with r :: _ => fx_to_f64 r.2 | [] => f64_of_u64 1 end) f64_nano in
  lines ([green "focus" +:+ " " +:+ dim ("φ* over " +:+ pretty (length rows) +:+ " particles")]
    ++ map (focus_row max) rows ++ ["  " +:+ kv "syntropy" (num_fx syntropy)])%list.

Definition reconcile_line (r : string * string) : string :=
  "  " +:+ dim r.1 +:+ " " +:+ dim "→" +:+ " " +:+ green ("✓ " +:+ r.2).
Definition reconcile_text (strategy : string) (n_signals : nat) (rows : list (string * string)) : string :=
  match rows with
  | [] => lines [green "reconcile" +:+ " " +:+ dim ("no conflicts among " +:+ pretty n_signals +:+ " signals — nothing to resolve")]
  | _ => lines ([green "reconcile" +:+ " " +:+ dim (pretty (length rows) +:+ " conflict(s) · strategy " +:+ bold strategy)]
           ++ map reconcile_line rows)%list
  end.

Definition conflict_line (g : string * list string) : string :=
  "  " +:+ dim g.1 +:+ " " +:+ String.concat (dim " ⟂ ") (map yellow g.2).
Definition conflicts_text (n_signals : nat) (groups : list (string * list string)) : string :=
  match groups with
  | [] => lines [green "conflicts" +:+ " " +:+ dim ("none among " +:+ pretty n_signals +:+ " signals")]
  | _ => lines ([green "conflicts" +:+ " " +:+ dim (pretty (length groups) +:+ " group(s)")] ++ map conflict_line groups)%list
  end.

Definition flag (b : bool) : string := if b then green "yes" else red "no".
Definition finality_text (r : finality_report) : string :=
  lines [
    green "finality" +:+ " " +:+ dim ("domain of " +:+ pretty (fr_particles r) +:+ " particles");
    "  " +:+ kv "μ_D          " (num_fx (fr_mean r));
    "  " +:+ kv "var_D        " (num_fx (fr_variance r));
    "  " +:+ kv "φ*_target    " (num_fx (fr_target r));
    "  " +:+ kv "crosses τ_D  " (flag (fr_crosses r));
    "  " +:+ kv "certified P2 " (flag (fr_certified r));
    "  " +:+ dim "verdict      " +:+ " " +:+
      match fr_verdict r with Final => bold (green "● FINAL") | Pending => yellow "○ pending" end].

(** [.sum::<f64>()] *)
Definition f64_sum (l : list spec_float) : spec_float := fold_left f64_add l (f64_of_u64 0).
Definition raw_row (s : string * fx) : string := "  " +:+ cyan (pad_right 14 s.1) +:+ "  " +:+ num_fx s.2.
Definition paid_row (s : string * fx * N) : string :=
  "  " +:+ cyan (pad_right 14 s.1.1) +:+ "  share=" +:+ num_fx s.1.2 +:+ "  amount=" +:+ green (pretty s.2).
Definition settle_text (samples epoch budget : N) (r : settle_report) : string :=
  match r with
  | RawLottery shares =>
      lines ([green "settle" +:+ " " +:+ dim ("raw lottery · " +:+ pretty samples +:+ " samples · beacon label")]
        ++ map raw_row shares ++ ["  " +:+ kv "Σ shares" (num (f64_sum (map (fun s => fx_to_f64 s.2) shares)))])%list
  | Settled rec beacon claims_root receipt_hash rows mint =>
      lines ([green "settle" +:+ " " +:+ dim ("epoch " +:+ pretty epoch +:+ " · " +:+ pretty samples +:+ " samples · budget " +:+ pretty budget);
          "  " +:+ kv "beacon" beacon; "  " +:+ kv "claims_root" claims_root; "  " +:+ kv "receipt" receipt_hash;
          "  " +:+ kv "Δφ⁺ total" (num_fx (sr_directed_total rec))]
        ++ map paid_row rows ++ ["  " +:+ kv "Σ mint" (green (pretty mint))])%list
  end.

(** [{e:?}] *)
Definition chain_error_name (e : chain_error) : string :=
  match e with StepNotSequential => "StepNotSequential" | PrevMismatch => "PrevMismatch" | Equivocation => "Equivocation" end.
Definition chain_line (ev : chain_event) : string :=
  match ev with
  | Equivocated neuron => "  " +:+ red "⚠" +:+ " " +:+ yellow "equivocation" +:+ " " +:+ dim neuron
  | Rejected neuron e => "  " +:+ red "✗" +:+ " " +:+ dim neuron +:+ " " +:+ dim (chain_error_name e)
  end.
Definition chain_text (r : chain_report) : string :=
  lines (map chain_line (cr_events r) ++
    [green "chain" +:+ " " +:+ dim (pretty (cr_chains r) +:+ " chain(s) · " +:+ pretty (cr_ok r) +:+ " appended · ") +:+
       (if bool_decide (cr_equivocations r = 0) then green "0 equivocations"
        else yellow (pretty (cr_equivocations r) +:+ " equivocation(s)"))])%list.

(** What a command prints with its report; [help] is the text of clap,
    [syntropy] that of the focused graph. *)
Definition render (help : string) (syntropy : fx) (c : option command) (r : report) : string :=
  match c, r with
  | None, RHelp => banner +:+ help
  | Some (CFocus _), RFocus rows => focus_text syntropy rows
  | Some (CReconcile strategy signals), RReconcile rows => reconcile_text strategy (length signals) rows
  | Some (CConflicts signals), RConflicts groups => conflicts_text (length signals) groups
  | Some (CFinality _ _ _ _ _ _ _), RFinality r => finality_text r
  | Some (CSettle _ _ samples epoch budget _), RSettle r => settle_text samples epoch budget r
  | Some (CChain _), RChain r => chain_text r
  | _, _ => ""
  end.
End reports.
End painting.

(** ** Colours carry no text *)

Inductive ansi := Plain | Escaped | Params.
(** What a terminal shows of a text: escape sequences are left out. *)
Fixpoint scan (st : ansi) (s : string) : string * ansi :=
  match s with
  | EmptyString => (EmptyString, st)
  | String a s =>
      match st with
      | Plain => if decide (a = esc) then scan Escaped s else let '(t, st) := scan Plain s in (String a t, st)
      | Escaped => if decide (a = chr 91) then scan Params s else scan Plain s
      | Params => if decide (a = chr 109) then scan Plain s else scan Params s
      end
  end.
Definition shows (coloured plain : string) : Prop := scan Plain coloured = (plain, Plain).

Fixpoint clean (s : string) : bool := match s with EmptyString => true | String a s => bool_decide (a <> esc) && clean s end.

Lemma scan_app st s t : scan st (s +:+ t) = let '(a, st1) := scan st s in let '(b, st2) := scan st1 t in (a +:+ b, st2).
Proof.
  revert st. induction s as [|x s IH]; intros st.
  - change (scan st t = let '(b, st2) := scan st t in (b, st2)). by destruct (scan st t).
  - change (String x s +:+ t) with (String x (s +:+ t)). cbn [scan]. destruct st; case_decide; try apply IH.
    rewrite IH. destruct (scan Plain s) as [a st1]. by destruct (scan st1 t).
Qed.

Lemma shows_clean s : clean s = true -> shows s s.
Proof.
  unfold shows. induction s as [|a s IH]; [done|]. cbn [clean scan]. intros [Ha%bool_decide_eq_true Hs]%andb_true_iff.
  rewrite decide_False by done. by rewrite IH.
Qed.
Lemma shows_app c1 p1 c2 p2 : shows c1 p1 -> shows c2 p2 -> shows (c1 +:+ c2) (p1 +:+ p2).
Proof. unfold shows. intros H1 H2. by rewrite scan_app, H1, H2. Qed.
Lemma shows_paint colour c p : scan Params (colour +:+ "m") = ("", Plain) -> shows c p -> shows (paint true colour c) (paint false colour p).
Proof.
  unfold shows, paint. intros Hm Hc. change (String esc "[" +:+ ?t) with (String esc (String (chr 91) t)).
  cbn [scan]. rewrite decide_True by done. rewrite decide_True by done.
  rewrite append_assoc, scan_app, Hm, scan_app, Hc.
  change (scan Plain (String esc "[0m")) with ("", Plain). cbn beta iota. by rewrite append_empty.
Qed.
Lemma shows_concat sep1 sep2 cs ps : shows sep1 sep2 -> Forall2 shows cs ps -> shows (String.concat sep1 cs) (String.concat sep2 ps).
Proof.
  intros Hs. induction 1 as [|c p cs ps Hc Hf IH]; [done|]. destruct Hf as [|c' p' cs ps]; [done|].
  cbn [String.concat]. apply shows_app; [done|]. by apply shows_app.
Qed.

(** ** What carries no escape character *)

Lemma clean_app s t : clean (s +:+ t) = clean s && clean t.
Proof.
  induction s as [|a s IH]; [done|]. change (clean (String a s +:+ t)) with (bool_decide (a <> esc) && clean (s +:+ t)).
  rewrite IH. cbn [clean]. by rewrite andb_assoc.
Qed.
Lemma clean_solid s : all_solid s = true -> clean s = true.
Proof.
  induction s as [|a s IH]; [done|]. cbn [all_solid clean]. intros [Ha Hs]%andb_true_iff. rewrite IH by done.
  rewrite bool_decide_eq_true_2; [done|]. by intros ->.
Qed.
Lemma clean_digits acc s v : digits_value acc s = Some v -> clean s = true.
Proof. intros H. by eapply clean_solid, digits_value_solid. Qed.
Lemma clean_pretty (n : N) : clean (pretty n) = true.
Proof. eapply clean_digits, digits_value_pretty. Qed.
Lemma clean_pretty_nat (n : nat) : clean (pretty n) = true.
Proof. apply (clean_pretty (N.of_nat n)). Qed.
Lemma clean_repeat n s : clean s = true -> clean (repeat_text n s) = true.
Proof. intros Hs. induction n as [|n IH]; [done|]. cbn [repeat_text]. by rewrite clean_app, Hs, IH. Qed.
Lemma clean_pad w s : clean s = true -> clean (pad_right w s) = true.
Proof. intros Hs. unfold pad_right. rewrite clean_app, Hs. by apply clean_repeat. Qed.
Lemma clean_fixed p x : clean (fmt_fixed p x) = true.
Proof.
  assert (forall (s : bool) v, clean ((if s then "-" else "") +:+ fixed_text p v) = true) as H.
  { intros s v. destruct (fixed_text_reads p v) as (i & f & vi & vf & -> & _ & Hi & Hf & _).
    rewrite !clean_app, (clean_digits _ _ _ Hi), (clean_digits _ _ _ Hf). by destruct s. }
  unfold fmt_fixed. destruct x as [s|s| |s m e]; [apply H|by destruct s|done|]. destruct (scaled p m e). apply H.
Qed.

Create HintDb shown.
#[local] Hint Resolve clean_pretty clean_pretty_nat clean_fixed clean_pad clean_repeat : shown.

Ltac show_leaf := apply shows_clean; first [reflexivity | eauto 4 with shown].
(** Splits a printed text into its coloured and plain pieces. *)
Ltac show :=
  unfold kv, num_fx, num, dim, cyan, green, yellow, red, bold, line;
  repeat lazymatch goal with
    | |- shows (paint _ _ _) _ => apply shows_paint; [reflexivity|]
    | |- shows (String.append _ _) _ => apply shows_app
    | |- shows _ _ => show_leaf
    end.
(** The same for the first lines of a list. *)
Ltac show_lines := repeat (apply List.Forall2_cons; [show|]); try apply List.Forall2_nil.

Lemma shows_line c p : shows c p -> shows (line c) (line p).
Proof. intros H. show. exact H. Qed.
Lemma shows_lines cs ps : Forall2 shows cs ps -> shows (lines cs) (lines ps).
Proof. intros H. apply shows_concat; [by apply shows_clean|]. induction H; constructor; [by apply shows_line|done]. Qed.
Lemma shows_map {A} (f g : A -> string) l : Forall (fun x => shows (f x) (g x)) l -> Forall2 shows (map f l) (map g l).
Proof. induction 1; by constructor. Qed.

Section colours.
Context {HM : Hemera} {NB : Nebu} {FX : Fixed} {TR : Tru} {ZH : Zheng} {TK : Tok}.
Variables (fx_to_f64 : fx -> spec_float) (help : string) (syntropy : fx).

(** The texts of a report come from the arguments: they may hold anything. *)
Definition printable (c : option command) (r : report) : bool :=
  match c, r with
  | _, RFocus rows => forallb (fun r => clean r.1) rows
  | Some (CReconcile strategy _), RReconcile rows => clean strategy && forallb (fun r => clean r.1 && clean r.2) rows
  | _, RConflicts groups => forallb (fun g => clean g.1 && forallb clean g.2) groups
  | _, RSettle (RawLottery shares) => forallb (fun s => clean s.1) shares
  | _, RSettle (Settled _ b c h rows _) => clean b && clean c && clean h && forallb (fun r => clean r.1.1) rows
  | _, RChain r => forallb (fun ev => match ev with Equivocated n | Rejected n _ => clean n end) (cr_events r)
  | _, _ => true
  end.

Lemma forallb_Forall {A} (p : A -> bool) l : forallb p l = true -> Forall (fun x => p x = true) l.
Proof. rewrite forallb_forall, Forall_forall. intros H x Hx. apply H. by apply list_elem_of_In. Qed.

Lemma shows_focus rows : forallb (fun r => clean r.1) rows = true ->
  shows (focus_text true fx_to_f64 syntropy rows) (focus_text false fx_to_f64 syntropy rows).
Proof.
  intros Hr%forallb_Forall. unfold focus_text. apply shows_lines, Forall2_app; [show_lines|].
  apply Forall2_app; [|show_lines]. apply shows_map. eapply Forall_impl; [exact Hr|]. intros r Hc. cbn beta in Hc.
  unfold focus_row, bar. show.
Qed.

Lemma shows_reconcile strategy n rows : clean strategy = true -> forallb (fun r => clean r.1 && clean r.2) rows = true ->
  shows (reconcile_text true strategy n rows) (reconcile_text false strategy n rows).
Proof.
  intros Hs Hr%forallb_Forall. unfold reconcile_text. destruct rows as [|r rows]; apply shows_lines; [show_lines|].
  apply Forall2_app; [show_lines|]. apply shows_map. eapply Forall_impl; [exact Hr|]. intros x [H1 H2]%andb_true_iff.
  unfold reconcile_line. show.
Qed.

Lemma shows_conflicts n groups : forallb (fun g => clean g.1 && forallb clean g.2) groups = true ->
  shows (conflicts_text true n groups) (conflicts_text false n groups).
Proof.
  intros Hg%forallb_Forall. unfold conflicts_text. destruct groups as [|g groups]; apply shows_lines; [show_lines|].
  apply Forall2_app; [show_lines|]. apply shows_map. eapply Forall_impl; [exact Hg|]. intros x [H1 H2%forallb_Forall]%andb_true_iff.
  unfold conflict_line. show. apply shows_concat; [show|]. apply shows_map. eapply Forall_impl; [exact H2|]. intros t Ht. cbn beta in Ht. show.
Qed.

Lemma shows_finality r : shows (finality_text true fx_to_f64 r) (finality_text false fx_to_f64 r).
Proof. unfold finality_text, flag. apply shows_lines. destruct (fr_crosses r), (fr_certified r), (fr_verdict r); show_lines. Qed.

Lemma shows_settle samples epoch budget r :
  printable (Some (CSettle [] [] samples epoch budget None)) (RSettle r) = true ->
  shows (settle_text true fx_to_f64 samples epoch budget r) (settle_text false fx_to_f64 samples epoch budget r).
Proof.
  destruct r as [shares|rec b c h rows mint]; cbn [printable settle_text].
  - intros Hs%forallb_Forall. apply shows_lines, Forall2_app; [show_lines|]. apply Forall2_app; [|show_lines].
    apply shows_map. eapply Forall_impl; [exact Hs|]. intros x Hx. cbn beta in Hx. unfold raw_row. show.
  - intros [[[Hb Hc]%andb_true_iff Hh]%andb_true_iff Hr%forallb_Forall]%andb_true_iff.
    apply shows_lines, Forall2_app; [show_lines|]. apply Forall2_app; [|show_lines].
    apply shows_map. eapply Forall_impl; [exact Hr|]. intros x Hx. cbn beta in Hx. unfold paid_row. show.
Qed.

Lemma shows_chain r : printable (Some (CChain [])) (RChain r) = true -> shows (chain_text true r) (chain_text false r).
Proof.
  cbn [printable]. intros He%forallb_Forall. unfold chain_text. apply shows_lines, Forall2_app.
  - apply shows_map. eapply Forall_impl; [exact He|]. intros [n|n e] Hn; cbn beta iota in Hn; unfold chain_line; show.
    by destruct e.
  - case_bool_decide; show_lines.
Qed.

(** What the commands print: a number is printed with the decimal nearest
    to it, ties to the even one; and on a terminal every report shows the very
    text that is written elsewhere: the colours carry nothing, as long as the
    names in the arguments hold no escape characters. *)
Lemma printed_faithfully (p : nat) (s : bool) (m : positive) (e : Z) (c : option command) (r : report) :
  c <> None -> printable c r = true ->
  (exists i f vi vf, fmt_fixed p (S754_finite s m e) = (if s then "-" else "") +:+ i +:+ "." +:+ f /\
     String.length f = p /\ digits_value 0 i = Some vi /\ digits_value 0 f = Some vf /\
     let '(num, den) := scaled p m e in
     let v := (vi * 10 ^ Z.of_nat p + vf)%Z in
     (Z.abs (2 * (v * den - num)) <= den)%Z /\ (Z.abs (2 * (v * den - num)) = den -> Z.even v = true)%Z) /\
  shows (render true fx_to_f64 help syntropy c r) (render false fx_to_f64 help syntropy c r).
Proof.
  intros Hc Hp. split; [apply fmt_fixed_nearest|]. destruct c as [c|]; [|done].
  destruct c, r; try (by apply shows_clean); cbn [render printable] in *.
  - by apply shows_focus.
  - apply andb_true_iff in Hp as [? ?]. by apply shows_reconcile.
  - by apply shows_conflicts.
  - apply shows_finality.
  - by apply shows_settle.
  - by apply shows_chain.
Qed.
End colours.
